(* ===== verification/_CoqProject ===== *)
-Q . S2P
Prelude.v
CircularBuffer.v
KernelApi.v
CharDriver.v
CharDriverSpec.v
CharDriverTheorems.v
Posix.v
Handler.v
HandlerSpec.v
HandlerTheorems.v
Queue.v
Words.v
Links.v
TailQueue.v
QueueTrace.v
LinkedList.v
StailQueue.v
SList.v
Server.v
ServerSpec.v
ServerTheorems.v
SystemCalls.v
Threading.v
Tools.v
FileInterface.v
Conversation.v
DeviceFile.v
Continuation.v
Discipline.v
Interleaving.v
Threads.v
SharedFile.v
RegularFile.v
Signals.v
Progress.v
Shutdown.v
