(* ===== verification/Prelude.v ===== *)
(** * Verification of the AESD character driver and socket server

    ** The program

    The repository holds a Linux character driver that keeps the last ten
    newline-terminated commands written to it, and a socket server that
    collects newline-terminated packets from its clients, appends them to a
    file (the driver's device, or a regular file) and echoes the file back.
    Small programs surround them: a device test, a file writer, and two
    exercises on processes and threads.

    - [aesd-char-driver/aesd-circular-buffer.c] is a ring of ten entries
      (pointer and size).  [main.c] is the driver: [aesd_write] collects
      bytes in a pending entry and, at a newline, adds it to the ring and
      frees the entry that falls out; [aesd_read] finds the entry of a file
      position in the ring; [aesd_llseek] and [aesd_ioctl] move the position;
      all four hold the device's mutex.
    - [server/aesdsocket.c] opens the socket, accepts connections, starts a
      thread for each, keeps the threads in an [SLIST] of [server/queue.h]
      and joins those that have announced their end.  [server/handler.c] is
      the thread: it receives, recognises the seek command, appends packets
      under a mutex and echoes the file to the client.
    - The server's file operations are the driver's handlers when the macro
      [USE_AESD_CHAR_DEVICE] is on.

    ** The files

    - [Prelude]: integers of a C width ([u8] ... [s64]), the computations
      with undefined behaviour of the driver, lemmas on lists and maps, the
      tactics and the hint database [aesd].
    - [CircularBuffer]: [aesd-circular-buffer.{h,c}].  The record
      [aesd_circular_buffer] has the members of the C structure, with the
      offsets as eight-bit integers; one definition per function or macro.
      Module [Fifo] is the specification.
    - [KernelApi]: the kernel services the driver calls, as class [Kernel];
      what the driver relies on, as class [KernelOk]; the executable instance
      [SimKernel].
    - [CharDriver]: [main.c], [aesdchar.h], [aesd_ioctl.h].  One definition
      per file operation and module entry point, over the record [aesd_dev]
      and the state of the kernel.  [CharDriverSpec] has the abstract device,
      the representation invariant [device_rep] and the simulation lemma of
      each handler; [CharDriverTheorems] the properties and the life cycle
      of the module.
    - [Posix]: the system interface of the user-space programs.  A thread's
      state is the trace of the calls it made with their answers, and its
      heap; the environment is a function from the trace and the next call
      to its answer.  [EnvOk] and [MutexOk] are what the programs rely on.
    - [Handler]: [server/handler.c], both builds.  [HandlerSpec] states the
      protocol of a connection as a function of the chunks received ([feed],
      [session]) and proves the loop invariant; [HandlerTheorems] has the
      properties.
    - [Queue]: the [SLIST] macros of [server/queue.h] on a heap of nodes,
      as the server uses them.
    - [Words], [Links], [SList], [StailQueue], [LinkedList], [TailQueue]:
      all macros of [server/queue.h] on words in memory.  [Words] has loads,
      stores and the layout of an element; [Links] chains of links, the
      loops of the macros and the abstract machine, two lists and a pool of
      elements.  Each family has a file with its macros, their assertions
      and the trashing of removed links, and a representation predicate.
      [QueueTrace] has the macros that leave traces with
      [QUEUE_MACRO_DEBUG_TRACE].
    - [Server]: [server/aesdsocket.c]: set-up, accept loop, [reap_threads],
      shutdown, signal handlers.  [ServerSpec] and [ServerTheorems] as above.
    - [SystemCalls], [Threading]: [examples/systemcalls/systemcalls.c] and
      [examples/threading/threading.c].
    - [Tools]: [finder-app/writer.c], [aesd-char-driver/ioctl_test.c] and
      [examples/autotest-validate].
    - [FileInterface]: the file behind the server's descriptor as class
      [Readable], with the driver's [aesd_read] and a regular file as
      instances: the point where server and driver meet.
    - [Conversation]: a file with descriptors, appends and seeks as class
      [Storage]; [serve] computes what a client is sent and what becomes of
      the file.  Instance: a regular file on which nothing fails.
    - [DeviceFile]: the instance of [Storage] whose operations are the
      driver's handlers, called through a table of open files, with
      [server/aesd_ioctl.h]; [documented] is what the headers promise of it.
    - [Continuation]: a beginning of a run of [handle_connection] is the
      beginning of a run that ends: the environment can be changed so that
      from then on no more arrives.  With more fuel a run is the same or
      goes on.
    - [Discipline]: what [main], [handle_connection] and [alarm_handler]
      promise the other threads about descriptors, mutexes, nodes and the
      file, as automata over their traces, and that they keep it.
    - [Interleaving]: the main thread, the connection threads and the runs
      of the alarm handler as a transition system [gstep] whose labels are
      their events; mutexes, [done] flags and the table of descriptors are
      its shared state, a thread's events are those of a run of its
      function, and [ginv] is its invariant.  [Threads] has the theorems.
    - [SharedFile]: the same with the file, any [Storage], as part of the
      shared state ([serves]), and the specification it implements, one
      value of the contents and a position per thread ([spec_step]).
    - [RegularFile]: the same with a regular file as POSIX describes it, on
      which calls fail, reads are short and writes take a part ([logged]).
    - [Signals]: the process ([pstep]): the threads of [Interleaving], with
      the alarm handler on the stack of the thread it interrupts, which
      stands still meanwhile, the destruction of the mutex, and the exit.
    - [Progress]: the threads of the process can always come to their end.
    - [Shutdown]: the end of the server, with the main thread: the form of
      its trace after [server_running] has been read as zero, the [done]
      flags at that time, and a way to the end from every earlier state.

    ** What the theorems show

    - The ring refines a queue of the last ten commands, whatever is added;
      the lookup by file position finds the byte the header's comment
      promises ([add_entry_refines], [add_entries_history],
      [find_entry_documented]).
    - Each file operation refines an operation of the abstract device, a
      list of commands and a pending command, under every outcome of the
      allocator, the user copies and the lock: no invalid access, the lock
      released, no block lost or freed twice ([write_refines],
      [read_refines], [llseek_refines], [ioctl_seekto_documented]); what was
      written is read back ([write_then_read], [seek_then_read]).
    - Loading the module, any sequence of system calls on it and unloading
      it is free of undefined behaviour and leaks no block but the pending
      command ([lifecycle_memory], [cleanup_leaks_pending]); in between
      every command has a block of its own of its size, and the size of the
      device does not overflow ([device_well_formed], [device_size_bounded]).
    - A connection thread is memory safe against every environment, gives
      back its memory, descriptors and mutex, and announces its end last;
      its accesses to the file are those of the protocol, each inside the
      critical section; it ends when the client does ([connection_safe],
      [connection_protocol], [connection_terminates]).
    - The echo loop delivers the contents of the file, and over the driver
      the commands of the device in order ([write_to_client_delivers],
      [device_echo]).
    - A whole conversation, packets in any number of chunks and seek
      commands included, sends what [serve] prescribes, over any [Storage]
      ([conversation]) and with the driver's handlers behind the descriptor,
      when memory, descriptors and locks are to be had and [send] takes
      everything; as long as the ring has not wrapped that is what the
      headers document ([device_conversation], [packet_then_seek]).
    - In every interleaving of the threads, a connection's node is allocated
      as long as its thread runs and is not used after it was freed, also
      when its address is allocated again; no thread uses or closes a
      descriptor of another; packets are appended one at a time, and what
      has been written for a client is the packets of what it sent
      ([node_outlives_thread], [freed_node_unused], [descriptors_private],
      [writes_exclusive], [log_packets]).
    - The server does not deadlock on its mutexes: whatever has happened and
      wherever the alarm signal has interrupted a thread, the handlers can
      return and the threads run to their end, where nothing is held
      ([threads_complete]).  If they have
      done so when the main thread reads [server_running] as zero, every
      node is freed when [main] returns ([shutdown_frees_nodes]), and the
      server can come to such an end from every state before
      ([clean_shutdown]).
    - On the file they share, the threads behave as on one value that each
      call reads or changes in one step ([shared_file]); the device holds
      the last ten of the writes of all threads when none of them fails
      ([shared_device]).  A regular file, also one on which calls fail, is
      the sequence of what its writes took of packets and time stamps, the
      packets of each client in order ([file_interleaves]); what has been
      sent to a client is at any time the beginning of the file, and all of
      it when its thread finds no more to read ([clients_see_log]).
    - Any program of the list macros, used as [queue.h] documents, runs
      without an invalid access or a failed assertion and does what its
      operations do to lists; no other word of the memory changes
      ([tailq_programs], [list_programs], [stailq_programs],
      [slist_programs]); the fast and the slow way to the last and the
      previous element agree ([tailq_fast_equiv]); tracing changes nothing
      but the traces, except where [TAILQ_REMOVE_HEAD] empties a queue and
      stores through a null pointer ([traced_macros]); the list of the server model is a
      view of that memory ([slist_view_simulation]).
    - The main thread's list stays well formed; a pass of [reap_threads]
      joins and frees the finished threads and no other; every error path
      gives back what it took ([main_safe], [reap_threads_correct],
      [accept_round_resources]).
    - The remaining programs: every outcome of every call they make, errors
      included.

    Some theorems describe behaviour that differs from a comment or from the
    intent, with a concrete run: a write is reported as longer than it was
    ([write_overreports]), a seek after the ring has wrapped counts slots
    and not commands ([ioctl_seek_wrapped]), a seek command that
    arrives in two chunks is dropped and its second part is stored as a
    packet ([split_seek_command]), the server leaves running threads unjoined at
    shutdown ([shutdown_abandons_threads]).

    ** Bounds and fuel

    Loops with a bound in the code have it in the model: the lookup makes at
    most [CAP] = 10 rounds, the [FOREACH] macro visits ten entries, the list
    macros make at most one round more than the heap has nodes (a longer
    chain is cyclic and [None]).  The loops of the server and of the echo
    run as long as the environment keeps them going; they are iterated with
    fuel ([iterate]); a run that is cut off returns [None] in its final
    state, which is not undefined behaviour (no state at all); the
    termination theorems say how much fuel is enough when the peer or the
    signal ends the loop.  The safety theorems hold for every fuel, so that
    they also speak of the runs that never end.

    ** What is not modelled

    Logging and messages; of [queue.h] the declarations for C++ classes,
    which repeat those for structures; the unit test that compares the user
    name of [examples/autotest-validate] with a file of a submodule; the
    shell scripts and the build files.  The kernel and the C library are
    parameters.  In [Interleaving] events of different threads are ordered
    as in a sequentially consistent memory, although [done] is an ordinary
    variable in the code; the calls on the file are atomic, as the driver's
    mutex and the append mode of the regular file make them.  A run of the
    alarm handler is a thread of its own there, although it interrupts
    another thread, which then waits for it: that allows more interleavings,
    and so is used only for what holds in all of them; [Signals], on which
    [threads_complete] and [clean_shutdown] are stated, has the handler on
    the interrupted stack.  The locks inside the C library, which
    [alarm_handler] may find taken by the thread it interrupts because it
    calls functions that are not async-signal-safe ([syslog], [localtime],
    [dprintf]), are not modelled.  The executions of [SharedFile] and
    [RegularFile] end where the main thread removes the file.

    ** Further work

    Progress under a fair scheduler: [threads_complete] and
    [clean_shutdown] say that the end can be reached from everywhere, not
    that every fair execution reaches it, which depends on the clients.
    What a client sees of the device while other threads write and the ring
    wraps. *)

From stdpp Require Export base numbers list gmap strings.
From Stdlib Require Export Strings.Byte.
From Stdlib Require Export ZArith Lia.

#[export] Set Default Goal Selector "!".

(** ** Machine integers

    A C integer is a [Z]; the width of a C type is written out as the
    function that brings a mathematical result back into the type. *)

Definition u8 (x : Z) : Z := x `mod` 2 ^ 8.
Definition u32 (x : Z) : Z := x `mod` 2 ^ 32.
Definition u64 (x : Z) : Z := x `mod` 2 ^ 64.
Definition s32 (x : Z) : Z := (x + 2 ^ 31) `mod` 2 ^ 32 - 2 ^ 31.
Definition s64 (x : Z) : Z := (x + 2 ^ 63) `mod` 2 ^ 64 - 2 ^ 63.

Declare Scope c_scope.
Delimit Scope c_scope with C.
Open Scope c_scope.
Open Scope Z_scope.

(** Additions and subtractions of [size_t] and [loff_t] values. *)
Notation "a +u64 b" := (u64 (a + b)) (at level 50, left associativity) : c_scope.
Notation "a -u64 b" := (u64 (a - b)) (at level 50, left associativity) : c_scope.
Notation "a +s64 b" := (s64 (a + b)) (at level 50, left associativity) : c_scope.

(** The null pointer, and the length of a byte sequence as a C size. *)
Abbreviation NULL := 0 (only parsing).
Abbreviation zlen l := (Z.of_nat (length l)).

Create HintDb aesd.

(** A conjunction whose first part is immediate. *)
Ltac side := split; [done|].

Lemma u8_small x : 0 <= x < 2 ^ 8 -> u8 x = x.
Proof. intros. by apply Z.mod_small. Qed.

Lemma u32_small x : 0 <= x < 2 ^ 32 -> u32 x = x.
Proof. intros. by apply Z.mod_small. Qed.

Lemma u64_small x : 0 <= x < 2 ^ 64 -> u64 x = x.
Proof. intros. by apply Z.mod_small. Qed.

Lemma u64_range x : 0 <= u64 x < 2 ^ 64.
Proof. apply Z.mod_pos_bound. lia. Qed.

Lemma s32_small x : - 2 ^ 31 <= x < 2 ^ 31 -> s32 x = x.
Proof. intros. unfold s32. rewrite Z.mod_small; lia. Qed.

Lemma s64_small x : - 2 ^ 63 <= x < 2 ^ 63 -> s64 x = x.
Proof. intros. unfold s64. rewrite Z.mod_small; lia. Qed.

Lemma s32_add x y : s32 (s32 x + y) = s32 (x + y).
Proof.
  unfold s32. f_equal.
  replace ((x + 2 ^ 31) `mod` 2 ^ 32 - 2 ^ 31 + y + 2 ^ 31) with ((x + 2 ^ 31) `mod` 2 ^ 32 + y) by lia.
  rewrite Zplus_mod_idemp_l. f_equal. lia.
Qed.

(** Fields of a word that do not overlap. *)
Lemma lor_shift_add k a b : 0 <= k -> 0 <= b < 2 ^ k -> Z.lor (Z.shiftl a k) b = a * 2 ^ k + b.
Proof.
  intros Hk Hb. rewrite <- Z.shiftl_mul_pow2 by done. symmetry.
  apply Z.add_nocarry_lor, Z.bits_inj'. intros i Hi. rewrite Z.land_spec, Z.bits_0.
  destruct (decide (i < k)); [by rewrite Z.shiftl_spec_low|].
  rewrite <- (Z.mod_small b (2 ^ k)) by done.
  rewrite Z.mod_pow2_bits_high by lia. apply andb_false_r.
Qed.

Create Rewrite HintDb cint.
#[export] Hint Rewrite u8_small u32_small u64_small s32_small s64_small using lia : cint.

(** [cint] removes the wrap-around of every machine operation whose
    mathematical result is provably in range. *)
Ltac cint := autorewrite with cint in *.

(** ** Bytes *)

#[export] Instance byte_eq_decision : EqDecision byte := byte_eq_dec.

(** The newline character that ends a command, and the NUL that ends a C
    string. *)
Definition newline : byte := x0a.
Definition nul : byte := x00.

(** A C string literal as its bytes, without the terminator. *)
Definition bytes_of (s : string) : list byte := String.list_byte_of_string s.

(** A byte as a number, and the little-endian [uint32_t] at a place in a
    byte sequence. *)
Definition byteZ (b : byte) : Z := Z.of_N (Byte.to_N b).
Definition u32_at (i : nat) (d : list byte) : Z :=
  let b j := default 0 (byteZ <$> d !! (i + j)%nat) in
  b 0%nat + b 1%nat * 2 ^ 8 + b 2%nat * 2 ^ 16 + b 3%nat * 2 ^ 24.

Fixpoint sumZ (l : list Z) : Z :=
  match l with
  | [] => 0
  | x :: l => x + sumZ l
  end.

Lemma sumZ_app l1 l2 : sumZ (l1 ++ l2) = sumZ l1 + sumZ l2.
Proof. induction l1; simpl; lia. Qed.

Lemma sumZ_nonneg l : Forall (fun x => 0 <= x) l -> 0 <= sumZ l.
Proof. induction 1; simpl; lia. Qed.

Lemma sumZ_zeros l : Forall (fun x => x = 0) l -> sumZ l = 0.
Proof. induction 1; simpl; lia. Qed.

Lemma sumZ_bound l m : Forall (fun x => x <= m) l -> sumZ l <= zlen l * m.
Proof. induction 1; simpl; lia. Qed.

Lemma sumZ_lengths (ls : list (list byte)) :
  sumZ (map (fun l => zlen l) ls) = zlen (concat ls).
Proof. induction ls; simpl; [done|]. rewrite length_app. lia. Qed.

(** ** Locating a position in a sequence of segments

    [locate szs off] is the segment that holds position [off] when segments
    of sizes [szs] are laid end to end, with the position inside it. *)

Fixpoint locate (szs : list Z) (off : Z) : option (nat * Z) :=
  match szs with
  | [] => None
  | s :: r => if off <? s then Some (0%nat, off)
              else '(i, o) ← locate r (off - s); Some (S i, o)
  end.

Lemma locate_Some szs off i o :
  Forall (fun x => 0 <= x) szs -> 0 <= off ->
  locate szs off = Some (i, o) ->
  exists s, szs !! i = Some s /\ 0 <= o < s /\ off = sumZ (take i szs) + o.
Proof.
  intros Hnn. revert off i. induction Hnn as [|s r Hs Hr IH]; intros off i Hoff; simpl.
  { done. }
  destruct (Z.ltb_spec off s) as [Hlt|Hge].
  { intros [= <- <-]. exists s. simpl. split; [done|lia]. }
  destruct (locate r (off - s)) as [[j o']|] eqn:E; simpl; [|done].
  intros [= <- <-]. destruct (IH (off - s) j ltac:(lia) E) as (s' & ? & ? & ?).
  exists s'. simpl. split; [done|lia].
Qed.

Lemma locate_None szs off :
  Forall (fun x => 0 <= x) szs -> 0 <= off ->
  locate szs off = None <-> sumZ szs <= off.
Proof.
  intros Hnn. revert off. induction Hnn as [|s r Hs Hr IH]; intros off Hoff; simpl.
  { split; [lia|done]. }
  pose proof (sumZ_nonneg r Hr).
  destruct (Z.ltb_spec off s) as [Hlt|Hge]; [split; [done|lia]|].
  specialize (IH (off - s) ltac:(lia)).
  destruct (locate r (off - s)) as [[j o']|] eqn:E; simpl.
  - side. intros. assert (sumZ r <= off - s) as Hx by lia. apply IH in Hx. done.
  - split; [|done]. intros _. destruct IH as [IH _]. specialize (IH eq_refl). lia.
Qed.

Lemma locate_prefix szs i s o :
  Forall (fun x => 0 <= x) szs -> szs !! i = Some s -> 0 <= o < s ->
  locate szs (sumZ (take i szs) + o) = Some (i, o).
Proof.
  intros Hnn. revert i. induction Hnn as [|x r Hx Hr IH]; intros [|i] Hi Ho; simplify_eq/=.
  - destruct (Z.ltb_spec (0 + o) s); [done|lia].
  - pose proof (sumZ_nonneg (take i r) (Forall_take _ _ _ Hr)).
    destruct (Z.ltb_spec (x + sumZ (take i r) + o) x); [lia|].
    replace (x + sumZ (take i r) + o - x) with (sumZ (take i r) + o) by lia.
    by rewrite (IH i Hi Ho).
Qed.

(** The bytes of the located segment from the located position on are the
    start of the concatenation from the position on. *)
Lemma locate_concat (ls : list (list byte)) off i o l :
  0 <= off ->
  locate (map (fun l => zlen l) ls) off = Some (i, o) -> ls !! i = Some l ->
  drop (Z.to_nat off) (concat ls) = drop (Z.to_nat o) l ++ concat (drop (S i) ls).
Proof.
  intros Hoff Hloc Hl. revert off i Hoff Hloc Hl.
  induction ls as [|x r IH]; intros off i Hoff Hloc Hl; [done|]; simpl in Hloc.
  destruct (Z.ltb_spec off (zlen x)) as [Hlt|Hge].
  - simplify_eq/=. rewrite drop_0, drop_app_le by lia. done.
  - destruct (locate _ (off - zlen x)) as [[j o']|] eqn:E; simplify_eq/=.
    rewrite drop_app_ge by lia.
    replace (Z.to_nat off - length x)%nat with (Z.to_nat (off - zlen x)) by lia.
    by apply (IH (off - zlen x) j); [lia|..].
Qed.

(** ** Computations that may go wrong

    A C function over a state [S] is a computation [ST S A]: it returns a
    value and a new state, or [None] when the run meets undefined behaviour
    (an invalid pointer, an access outside an object).  [wp m Q s] says that
    [m], run from [s], does return, with a value and state satisfying [Q]. *)

Definition ST (S A : Type) : Type := S -> option (A * S).

#[export] Instance st_ret {S} : MRet (ST S) := fun A a s => Some (a, s).
#[export] Instance st_bind {S} : MBind (ST S) := fun A B f m s =>
  match m s with
  | Some (a, s') => f a s'
  | None => None
  end.

Definition st_ub {S A} : ST S A := fun _ => None.
Definition st_get {S} : ST S S := fun s => Some (s, s).
Definition st_gets {S A} (f : S -> A) : ST S A := fun s => Some (f s, s).
Definition st_modify {S} (f : S -> S) : ST S unit := fun s => Some (tt, f s).
(** A step of the environment: a total function of the state. *)
Definition st_lift {S A} (f : S -> A * S) : ST S A := fun s => Some (f s).
(** A checked access: undefined behaviour when the option is empty. *)
Definition st_opt {S A} (f : S -> option A) : ST S A := fun s =>
  match f s with
  | Some a => Some (a, s)
  | None => None
  end.

Definition wp {S A} (m : ST S A) (Q : A -> S -> Prop) (s : S) : Prop :=
  match m s with
  | Some (a, s') => Q a s'
  | None => False
  end.

Section wp.
Context {S : Type}.
Implicit Types s : S.

Lemma wp_ret {A} (a : A) (Q : A -> S -> Prop) s : Q a s -> wp (mret a) Q s.
Proof. done. Qed.

Lemma wp_bind {A B} (m : ST S A) (f : A -> ST S B) Q s :
  wp m (fun a s' => wp (f a) Q s') s -> wp (m ≫= f) Q s.
Proof. unfold wp, mbind, st_bind. by destruct (m s) as [[a s']|]. Qed.

Lemma wp_mono {A} (m : ST S A) (P Q : A -> S -> Prop) s :
  wp m P s -> (forall a s', P a s' -> Q a s') -> wp m Q s.
Proof. unfold wp. destruct (m s) as [[a s']|]; eauto. Qed.

Lemma wp_gets {A} (f : S -> A) Q s : Q (f s) s -> wp (st_gets f) Q s.
Proof. done. Qed.

Lemma wp_modify (f : S -> S) Q s : Q tt (f s) -> wp (st_modify f) Q s.
Proof. done. Qed.

Lemma wp_opt {A} (f : S -> option A) Q s a :
  f s = Some a -> Q a s -> wp (st_opt f) Q s.
Proof. unfold wp, st_opt. by intros ->. Qed.

Lemma wp_lift {A} (f : S -> A * S) Q s :
  Q (f s).1 (f s).2 -> wp (st_lift f) Q s.
Proof. unfold wp, st_lift. by destruct (f s). Qed.

Lemma wp_inv {A} (m : ST S A) Q s :
  wp m Q s -> exists a s', m s = Some (a, s') /\ Q a s'.
Proof. unfold wp. destruct (m s) as [[a s']|]; [eauto|done]. Qed.

Lemma wp_conj {A} (m : ST S A) (P Q : A -> S -> Prop) s :
  wp m P s -> wp m Q s -> wp m (fun a s' => P a s' /\ Q a s') s.
Proof. unfold wp. destruct (m s) as [[a s']|]; auto. Qed.

Lemma wp_intro {A} (m : ST S A) Q s a s' :
  m s = Some (a, s') -> Q a s' -> wp m Q s.
Proof. unfold wp. by intros ->. Qed.
End wp.

(** [pc m Q s]: if [m] has a result in [s], it satisfies [Q].  What a run
    leaves can then be described apart from its having no undefined
    behaviour; [wp_pc] joins the two. *)
Definition pc {S A} (m : ST S A) (Q : A -> S -> Prop) (s : S) : Prop :=
  forall a s', m s = Some (a, s') -> Q a s'.

Section pc.
Context {S : Type}.

Lemma pc_ret {A} (a : A) (Q : A -> S -> Prop) s : Q a s -> pc (mret a) Q s.
Proof. by intros HQ ? ? [= <- <-]. Qed.

Lemma pc_bind {A B} (m : ST S A) (f : A -> ST S B) Q s :
  pc m (fun a s' => pc (f a) Q s') s -> pc (m ≫= f) Q s.
Proof.
  unfold pc, mbind, st_bind. intros Hm b s2. destruct (m s) as [[a s1]|]; [|done]. by apply Hm.
Qed.

Lemma pc_mono {A} (m : ST S A) (P Q : A -> S -> Prop) s :
  pc m P s -> (forall a s', P a s' -> Q a s') -> pc m Q s.
Proof. unfold pc. eauto. Qed.

Lemma pc_gets {A} (f : S -> A) Q s : Q (f s) s -> pc (st_gets f) Q s.
Proof. by intros HQ ? ? [= <- <-]. Qed.

Lemma pc_modify (f : S -> S) Q s : Q tt (f s) -> pc (st_modify f) Q s.
Proof. by intros HQ ? ? [= <- <-]. Qed.

Lemma pc_opt {A} (f : S -> option A) Q s :
  (forall a, f s = Some a -> Q a s) -> pc (st_opt f) Q s.
Proof. unfold pc, st_opt. intros HQ a s'. destruct (f s); [|done]. intros [= <- <-]. auto. Qed.

Lemma wp_pc {A} (m : ST S A) (P Q : A -> S -> Prop) s :
  wp m P s -> pc m Q s -> wp m (fun a s' => P a s' /\ Q a s') s.
Proof. unfold wp, pc. destruct (m s) as [[a s']|]; auto. Qed.
End pc.

Ltac pc_step :=
  cbv beta;
  lazymatch goal with
  | |- pc (mbind _ _) _ _ => apply pc_bind
  | |- pc (mret _) _ _ => apply pc_ret
  | |- pc (st_gets _) _ _ => apply pc_gets
  | |- pc (st_modify _) _ _ => apply pc_modify
  | |- pc (st_opt _) _ _ => apply pc_opt
  end; cbv beta.

(** One step of a monadic goal: open a bind, a read of the state or a
    pure return. *)
Ltac wp_step :=
  cbv beta;
  lazymatch goal with
  | |- wp (mbind _ _) _ _ => apply wp_bind
  | |- wp (mret _) _ _ => apply wp_ret
  | |- wp (st_gets _) _ _ => apply wp_gets
  | |- wp (st_modify _) _ _ => apply wp_modify
  | |- wp (st_lift _) _ _ => apply wp_lift
  end; cbv beta.
Ltac wp_steps := repeat wp_step.

(** ** Lists *)

Section lists.
Context {A : Type}.
Implicit Types l : list A.

Lemma take_S_insert l i x :
  (i < length l)%nat -> take (S i) (<[i:=x]> l) = take i l ++ [x].
Proof.
  intros. erewrite take_S_r; [|by apply list_lookup_insert_eq].
  by rewrite take_insert_ge by lia.
Qed.

Lemma drop_lookup_cons l i x : l !! i = Some x -> drop i l = x :: drop (S i) l.
Proof. intros. by rewrite (drop_S l x i). Qed.
End lists.

Lemma take_min_length {A} n (l : list A) : take n l = take (n `min` length l) l.
Proof. destruct (Nat.min_spec n (length l)) as [[_ ->]|[? ->]]; [done|]. by rewrite !take_ge. Qed.

Lemma filter_Forall_id {A} (keep : A -> Prop) `{!forall a, Decision (keep a)} xs :
  Forall keep xs -> filter keep xs = xs.
Proof. induction 1; [done|]. rewrite filter_cons_True by done. by f_equal. Qed.

(** [lastn n l]: the last [n] elements of [l]. *)
Definition lastn {A} (n : nat) (l : list A) : list A := drop (length l - n) l.

Lemma lastn_all {A} n (l : list A) : (length l <= n)%nat -> lastn n l = l.
Proof. intros. unfold lastn. by replace (length l - n)%nat with 0%nat by lia. Qed.

Lemma lastn_length {A} n (l : list A) : length (lastn n l) = (length l `min` n)%nat.
Proof. unfold lastn. rewrite length_drop. lia. Qed.

Lemma lastn_snoc_full {A} n x (l : list A) y :
  length (x :: l) = n -> lastn n (x :: l ++ [y]) = l ++ [y].
Proof.
  intros <-. unfold lastn.
  replace (length (x :: l ++ [y]) - length (x :: l))%nat with 1%nat; [done|].
  simpl. rewrite length_app. simpl. lia.
Qed.

(** [memchr_opt b l]: the index of the first [b] in [l], as [memchr] on a
    region holding [l] finds it. *)
Definition memchr_opt (b : byte) (l : list byte) : option nat :=
  fst <$> list_find (eq b) l.

Lemma memchr_opt_None b l : memchr_opt b l = None <-> b ∉ l.
Proof.
  unfold memchr_opt. rewrite fmap_None, list_find_None, Forall_forall.
  naive_solver.
Qed.

Lemma memchr_opt_Some b l : is_Some (memchr_opt b l) <-> b ∈ l.
Proof.
  destruct (memchr_opt b l) eqn:E.
  - split; [intros _|by eauto]. destruct (decide (b ∈ l)) as [|Hn]; [done|].
    apply memchr_opt_None in Hn. congruence.
  - apply memchr_opt_None in E. split; [by intros [? ?]|done].
Qed.

#[export] Hint Resolve sumZ_nonneg : aesd.
