(* ===== verification/CircularBuffer.v ===== *)
(** * The circular buffer of write commands

    Models [aesd-char-driver/aesd-circular-buffer.{h,c}] and
    [aesd_circular_buffer_size] of [aesd-char-driver/main.c].  Module
    [Fifo] is the abstract specification: a queue that keeps the most recent
    ten commands.  [contents] abstracts a buffer to that queue, [cb_wf] is
    the representation invariant, and the theorems show that the operations
    implement the queue, lookups by byte offset included. *)

From S2P Require Import Prelude.

(** ** Specification *)

Module Fifo.
Section fifo.
Context {A : Type}.
(** [push n q x]: append [x] and forget all but the last [n]. *)
Definition push (n : nat) (q : list A) (x : A) : list A := lastn n (q ++ [x]).
(** The element a push onto a queue of capacity [n] evicts. *)
Definition evicted (n : nat) (q : list A) : option A :=
  if decide (length q < n)%nat then None else head q.
(** The two cases of a push: there is room, or the oldest goes. *)
Lemma push_cases n (q : list A) x : (0 < n)%nat -> (length q <= n)%nat ->
  ((length q < n)%nat /\ evicted n q = None /\ push n q x = q ++ [x]) \/
  (exists y r, q = y :: r /\ length q = n /\ evicted n q = Some y /\ push n q x = r ++ [x]).
Proof.
  intros Hn Hq. unfold evicted, push. case_decide.
  - left. split_and!; try done. apply lastn_all. rewrite length_app. simpl. lia.
  - right. destruct q as [|y r]; simpl in *; [lia|]. exists y, r.
    split_and!; try done; [lia|]. apply lastn_snoc_full. simpl. lia.
Qed.
End fifo.
End Fifo.

(** ** Data *)

Definition AESDCHAR_MAX_WRITE_OPERATIONS_SUPPORTED : Z := 10.
Abbreviation CAP := 10%nat (only parsing).

(** [buffptr] is the address of the memory of the write, [NULL] when there
    is none; [entry_size] is the C member [size]. *)
Record aesd_buffer_entry : Type := mk_entry {
  buffptr : Z;
  entry_size : Z;
}.

Record aesd_circular_buffer : Type := mk_buffer {
  entry : list aesd_buffer_entry;
  in_offs : Z;
  out_offs : Z;
  full : bool;
}.

#[export] Instance aesd_buffer_entry_eq_dec : EqDecision aesd_buffer_entry.
Proof. solve_decision. Defined.

(** [buffer->entry[i]]: undefined outside the array. *)
Definition entry_at (b : aesd_circular_buffer) (i : Z) : option aesd_buffer_entry :=
  if decide (0 <= i) then entry b !! Z.to_nat i else None.

(** [buffer->entry[i] = e]: undefined outside the array. *)
Definition entry_set (b : aesd_circular_buffer) (i : Z) (e : aesd_buffer_entry) :
    option aesd_circular_buffer :=
  _ ← entry_at b i;
  Some (mk_buffer (<[Z.to_nat i := e]> (entry b)) (in_offs b) (out_offs b) (full b)).

(** [(i + 1) % AESDCHAR_MAX_WRITE_OPERATIONS_SUPPORTED], stored in a
    [uint8_t]. *)
Definition next_offs (i : Z) : Z :=
  u8 ((i + 1) `mod` AESDCHAR_MAX_WRITE_OPERATIONS_SUPPORTED).

(** ** Operations *)

(** The result of a lookup: the index of the entry found and the value
    stored through [entry_offset_byte_rtn], or [NULL]. *)
Definition lookup_result : Type := option (Z * Z).

(** The [do ... while] loop of the lookup.  [None] stands for an access
    outside the array or for running out of [fuel]. *)
Fixpoint find_loop (fuel : nat) (b : aesd_circular_buffer)
    (char_offset running_size index : Z) : option lookup_result :=
  match fuel with
  | O => None
  | S fuel =>
      e ← entry_at b index;
      if char_offset <? running_size +u64 entry_size e
      then Some (Some (index, char_offset -u64 running_size))
      else
        let running_size' := running_size +u64 entry_size e in
        let index' := next_offs index in
        if (negb (index' =? in_offs b) || full b) && negb (index' =? out_offs b)
        then find_loop fuel b char_offset running_size' index'
        else Some None
  end.

(** Ten rounds suffice: [find_entry_correct] shows that the loop returns. *)
Definition aesd_circular_buffer_find_entry_offset_for_fpos
    (b : aesd_circular_buffer) (char_offset : Z) : option lookup_result :=
  find_loop CAP b char_offset 0 (out_offs b).

(** Returns the address [removed] with the updated buffer. *)
Definition aesd_circular_buffer_add_entry
    (b : aesd_circular_buffer) (add_entry : aesd_buffer_entry) :
    option (Z * aesd_circular_buffer) :=
  '(removed, b) ←
    (if full b then
       e ← entry_at b (in_offs b);
       Some (buffptr e,
             mk_buffer (entry b) (in_offs b) (next_offs (out_offs b)) (full b))
     else Some (NULL, b));
  b ← entry_set b (in_offs b) add_entry;
  let b := mk_buffer (entry b) (next_offs (in_offs b)) (out_offs b) (full b) in
  let b := if in_offs b =? out_offs b
           then mk_buffer (entry b) (in_offs b) (out_offs b) true else b in
  Some (removed, b).

(** The all-zero object [memset] leaves. *)
Definition zero_entry : aesd_buffer_entry := mk_entry NULL 0.
Definition zero_buffer : aesd_circular_buffer :=
  mk_buffer (replicate CAP zero_entry) 0 0 false.

Definition aesd_circular_buffer_init (b : aesd_circular_buffer) :
    aesd_circular_buffer :=
  let b := zero_buffer in
  let b := mk_buffer (entry b) (in_offs b) (out_offs b) false in
  let b := mk_buffer (entry b) 0 (out_offs b) (full b) in
  mk_buffer (entry b) (in_offs b) 0 (full b).

(** [AESD_CIRCULAR_BUFFER_FOREACH]: the loop body gets the index and the
    entry and returns the new loop state with [true] to go on and [false]
    for a [break]. *)
Fixpoint foreach_loop {A} (fuel : nat) (b : aesd_circular_buffer) (index : Z)
    (body : Z -> aesd_buffer_entry -> A -> A * bool) (a : A) : option A :=
  match fuel with
  | O => None
  | S fuel =>
      if index <? AESDCHAR_MAX_WRITE_OPERATIONS_SUPPORTED then
        e ← entry_at b index;
        let '(a, continue) := body index e a in
        if continue : bool then foreach_loop fuel b (u8 (index + 1)) body a else Some a
      else Some a
  end.

Definition AESD_CIRCULAR_BUFFER_FOREACH {A} (b : aesd_circular_buffer)
    (body : Z -> aesd_buffer_entry -> A -> A * bool) (a : A) : option A :=
  foreach_loop (S CAP) b 0 body a.

(** The sum is a [size_t]; it is returned as a [loff_t]. *)
Definition aesd_circular_buffer_size (b : aesd_circular_buffer) : option Z :=
  sz ← AESD_CIRCULAR_BUFFER_FOREACH b
         (fun _ e size => (size +u64 entry_size e, true)) 0;
  Some (s64 sz).

(** ** Abstraction and invariant *)

Definition sizes (l : list aesd_buffer_entry) : list Z := map entry_size l.

(** The commands the buffer holds, oldest first. *)
Definition contents (b : aesd_circular_buffer) : list aesd_buffer_entry :=
  if full b
  then drop (Z.to_nat (out_offs b)) (entry b) ++ take (Z.to_nat (out_offs b)) (entry b)
  else take (Z.to_nat (in_offs b)) (entry b).

(** Entries are never taken out: until the buffer is full the oldest entry
    is at index 0 and the slots from [in_offs] on are still zero. *)
Record cb_wf (b : aesd_circular_buffer) : Prop := {
  wf_length : length (entry b) = CAP;
  wf_in : 0 <= in_offs b < 10;
  wf_out : 0 <= out_offs b < 10;
  wf_sizes : Forall (fun e => 0 <= entry_size e < 2 ^ 64) (entry b);
  wf_full : full b = true -> in_offs b = out_offs b;
  wf_not_full : full b = false ->
    out_offs b = 0 /\
    Forall (fun e => e = zero_entry) (drop (Z.to_nat (in_offs b)) (entry b));
}.

#[export] Instance cb_wf_dec b : Decision (cb_wf b).
Proof.
  refine (cast_if (decide (length (entry b) = CAP /\ 0 <= in_offs b < 10 /\
    0 <= out_offs b < 10 /\ Forall (fun e => 0 <= entry_size e < 2 ^ 64) (entry b) /\
    (full b = true -> in_offs b = out_offs b) /\
    (full b = false -> out_offs b = 0 /\
       Forall (fun e => e = zero_entry) (drop (Z.to_nat (in_offs b)) (entry b))))));
    [by destruct_and!; split|intros [? ? ? ? ? ?]; tauto].
Defined.

(** ** Lemmas *)

Lemma next_offs_cases i : 0 <= i < 10 ->
  (i < 9 /\ next_offs i = i + 1) \/ (i = 9 /\ next_offs i = 0).
Proof.
  intros. unfold next_offs, AESDCHAR_MAX_WRITE_OPERATIONS_SUPPORTED.
  destruct (decide (i = 9)) as [->|]; [by right|left].
  rewrite Z.mod_small by lia. rewrite u8_small by lia. lia.
Qed.

Lemma entry_at_lookup b i : 0 <= i -> entry_at b i = entry b !! Z.to_nat i.
Proof. intros. unfold entry_at. by rewrite decide_True by done. Qed.

Lemma entry_at_Some b i : cb_wf b -> 0 <= i < 10 ->
  exists e, entry_at b i = Some e /\ entry b !! Z.to_nat i = Some e.
Proof.
  intros Hwf Hi. rewrite entry_at_lookup by lia.
  destruct (lookup_lt_is_Some_2 (entry b) (Z.to_nat i)) as [e He]; [|eauto].
  rewrite (wf_length b Hwf). lia.
Qed.

Lemma contents_length b : cb_wf b ->
  length (contents b) = if full b then CAP else Z.to_nat (in_offs b).
Proof.
  intros Hwf. pose proof (wf_length b Hwf). pose proof (wf_in b Hwf).
  pose proof (wf_out b Hwf). unfold contents. destruct (full b).
  - rewrite length_app, length_drop, length_take. lia.
  - rewrite length_take. lia.
Qed.

Lemma contents_le_cap b : cb_wf b -> (length (contents b) <= CAP)%nat.
Proof.
  intros Hwf. rewrite contents_length by done. pose proof (wf_in b Hwf).
  destruct (full b); lia.
Qed.

(** Where the element number [j] of the queue sits in the array. *)
Lemma contents_lookup b j : cb_wf b -> (j < length (contents b))%nat ->
  contents b !! j = entry b !! Z.to_nat ((out_offs b + Z.of_nat j) `mod` 10).
Proof.
  intros Hwf Hj. rewrite contents_length in Hj by done.
  pose proof (wf_length b Hwf) as Hlen. pose proof (wf_in b Hwf).
  pose proof (wf_out b Hwf) as Hout. unfold contents. destruct (full b) eqn:Hf.
  - destruct (decide (j < 10 - Z.to_nat (out_offs b))%nat).
    + rewrite lookup_app_l by (rewrite length_drop; lia). rewrite lookup_drop.
      f_equal. rewrite Z.mod_small by lia. lia.
    + rewrite lookup_app_r by (rewrite length_drop; lia).
      rewrite length_drop, lookup_take_lt by lia.
      f_equal. replace (out_offs b + Z.of_nat j) with (out_offs b + Z.of_nat j - 10 + 1 * 10) by lia.
      rewrite Z.mod_add, Z.mod_small by lia. lia.
  - destruct (wf_not_full b Hwf Hf) as [-> _]. rewrite lookup_take_lt by lia.
    f_equal. rewrite Z.mod_small by lia. lia.
Qed.

Lemma contents_sizes b : cb_wf b -> Forall (fun x => 0 <= x) (sizes (contents b)).
Proof.
  intros Hwf. apply Forall_fmap.
  assert (Forall (fun e => 0 <= entry_size e) (entry b)) as He.
  { eapply Forall_impl; [by apply wf_sizes|]. simpl; lia. }
  unfold contents. destruct (full b); [apply Forall_app; split|];
    eauto using Forall_drop, Forall_take.
Qed.

Lemma zero_buffer_wf : cb_wf zero_buffer.
Proof.
  split; simpl; try done; try lia.
  - repeat constructor; simpl; lia.
  - side. repeat constructor.
Qed.

(** ** Properties *)

(** The array sums to the sizes of the queue: the slots outside it are
    empty. *)
Lemma sizes_entry b : cb_wf b -> sumZ (sizes (entry b)) = sumZ (sizes (contents b)).
Proof.
  intros Hwf. unfold contents, sizes. destruct (full b) eqn:Hf.
  - rewrite <- (take_drop (Z.to_nat (out_offs b)) (entry b)) at 1.
    rewrite !map_app, !sumZ_app. lia.
  - destruct (wf_not_full b Hwf Hf) as [_ Hz].
    rewrite <- (take_drop (Z.to_nat (in_offs b)) (entry b)) at 1.
    rewrite map_app, sumZ_app. rewrite (sumZ_zeros (map _ (drop _ _))); [lia|].
    apply Forall_fmap. eapply Forall_impl; [done|]. by intros ? ->.
Qed.

(** *** Lookup *)

Section lookup.
Context (b : aesd_circular_buffer) (V : list aesd_buffer_entry) (char_offset : Z).

(** The array index of the element number [j] from the read end. *)
Definition ring_index (j : nat) : Z := (out_offs b + Z.of_nat j) `mod` 10.

(** [V] is the sequence of entries the loop visits. *)
Hypothesis V_at : forall j e, V !! j = Some e -> entry_at b (ring_index j) = Some e.
Hypothesis V_next : forall j, (j < length V)%nat ->
  (negb (ring_index (S j) =? in_offs b) || full b) && negb (ring_index (S j) =? out_offs b)
  = bool_decide (S j < length V)%nat.
Hypothesis V_sizes : Forall (fun x => 0 <= x) (sizes V).
Hypothesis V_sum : sumZ (sizes V) < 2 ^ 64.
Hypothesis off_range : 0 <= char_offset < 2 ^ 64.

Lemma next_ring_index j : next_offs (ring_index j) = ring_index (S j).
Proof.
  unfold next_offs, ring_index, AESDCHAR_MAX_WRITE_OPERATIONS_SUPPORTED.
  rewrite Zplus_mod_idemp_l. rewrite u8_small.
  - f_equal. lia.
  - pose proof (Z.mod_pos_bound (out_offs b + Z.of_nat j + 1) 10). lia.
Qed.

(** What the loop returns when it starts at element [j]. *)
Definition lookup_at (j : nat) (o : option (nat * Z)) : lookup_result :=
  '(i, off) ← o; Some (ring_index (j + i), off).

Lemma find_loop_visits fuel j :
  (j < length V)%nat -> (length V - j <= fuel)%nat ->
  sumZ (sizes (take j V)) <= char_offset ->
  find_loop fuel b char_offset (sumZ (sizes (take j V))) (ring_index j) =
    Some (lookup_at j (locate (sizes (drop j V)) (char_offset - sumZ (sizes (take j V))))).
Proof using All.
  revert j. induction fuel as [|fuel IH]; intros j Hj Hfuel Hrun; [lia|].
  destruct (lookup_lt_is_Some_2 V j Hj) as [e He].
  assert (sumZ (sizes (take (S j) V)) = sumZ (sizes (take j V)) + entry_size e) as HS.
  { rewrite (take_S_r _ _ _ He). unfold sizes. rewrite map_app, sumZ_app. simpl. lia. }
  assert (0 <= sumZ (sizes (take j V)) /\ 0 <= entry_size e /\
          sumZ (sizes (take (S j) V)) < 2 ^ 64) as (Hnn & Hen & Hov).
  { unfold sizes in *. rewrite <- (take_drop (S j) V) in V_sum, V_sizes.
    rewrite map_app in V_sum, V_sizes. rewrite sumZ_app in V_sum.
    apply Forall_app in V_sizes as [Ht Hd]. apply sumZ_nonneg in Hd.
    rewrite (take_S_r _ _ _ He), map_app in Ht. apply Forall_app in Ht as [Ht He'].
    apply sumZ_nonneg in Ht. inversion He'; subst. lia. }
  cbn [find_loop]. rewrite (V_at j e He). cbn [mbind option_bind].
  rewrite u64_small, (drop_lookup_cons _ _ _ He) by lia.
  cbn [sizes map locate].
  destruct (Z.ltb_spec char_offset (sumZ (sizes (take j V)) + entry_size e)) as [Hlt|Hge];
    destruct (Z.ltb_spec (char_offset - sumZ (sizes (take j V))) (entry_size e)) as [Hlt'|Hge']; try lia.
  - cbn. rewrite u64_small by lia. by rewrite Nat.add_0_r.
  - rewrite next_ring_index, V_next by done.
    case_bool_decide as Hmore.
    + rewrite <- HS. rewrite IH by lia. f_equal. rewrite HS.
      replace (char_offset - (sumZ (sizes (take j V)) + entry_size e))
        with (char_offset - sumZ (sizes (take j V)) - entry_size e) by lia.
      change (map entry_size (drop (S j) V)) with (sizes (drop (S j) V)).
      destruct (locate (sizes (drop (S j) V)) _) as [[i o]|]; cbn; [|done].
      by rewrite Nat.add_succ_r.
    + rewrite (drop_ge V (S j)) by lia. done.
Qed.

Lemma find_visits :
  V <> [] -> (length V <= CAP)%nat -> 0 <= out_offs b < 10 ->
  aesd_circular_buffer_find_entry_offset_for_fpos b char_offset =
    Some (lookup_at 0 (locate (sizes V) char_offset)).
Proof using All.
  intros HV Hcap Hout. unfold aesd_circular_buffer_find_entry_offset_for_fpos.
  pose proof (find_loop_visits CAP 0) as H. rewrite take_0, drop_0 in H.
  cbn [sizes map sumZ] in H. rewrite Z.sub_0_r in H.
  assert (ring_index 0 = out_offs b) as Hr.
  { unfold ring_index. rewrite Z.mod_small; lia. }
  rewrite Hr in H. apply H; [|lia..].
  destruct V; simpl; [done|lia].
Qed.
End lookup.

(** The reference answer of a lookup: locate the byte in the queue and
    translate the position in the queue to the array index. *)
Definition find_spec (b : aesd_circular_buffer) (char_offset : Z) : lookup_result :=
  '(j, o) ← locate (sizes (contents b)) char_offset;
  Some ((out_offs b + Z.of_nat j) `mod` 10, o).

(** The exit test of the loop, for a full buffer and for one being filled. *)
Lemma ring_next_full b j : cb_wf b -> full b = true -> (j < CAP)%nat ->
  (negb (ring_index b (S j) =? in_offs b) || full b) && negb (ring_index b (S j) =? out_offs b)
  = bool_decide (S j < CAP)%nat.
Proof.
  intros Hwf Hf Hj. pose proof (wf_out b Hwf). unfold ring_index.
  rewrite Hf, orb_true_r, andb_true_l. destruct (decide (j = 9)%nat) as [->|].
  { replace (out_offs b + Z.of_nat 10) with (out_offs b + 1 * 10) by lia.
    rewrite Z.mod_add, Z.mod_small by lia. by rewrite Z.eqb_refl. }
  rewrite bool_decide_eq_true_2 by lia.
  destruct (Z.eqb_spec ((out_offs b + Z.of_nat (S j)) `mod` 10) (out_offs b)); [|done].
  exfalso. Z.to_euclidean_division_equations. lia.
Qed.

Lemma ring_next_partial b j : cb_wf b -> full b = false ->
  (j < if decide (in_offs b = 0)%Z then CAP else Z.to_nat (in_offs b))%nat ->
  (negb (ring_index b (S j) =? in_offs b) || full b) && negb (ring_index b (S j) =? out_offs b)
  = bool_decide (S j < if decide (in_offs b = 0)%Z then CAP else Z.to_nat (in_offs b))%nat.
Proof.
  intros Hwf Hf Hj. pose proof (wf_in b Hwf). destruct (wf_not_full b Hwf Hf) as [Ho _].
  unfold ring_index. rewrite Ho, Hf, orb_false_r.
  destruct (decide (S j = 10)%nat) as [->|].
  { change ((0 + Z.of_nat 10) `mod` 10) with 0. rewrite andb_false_r.
    rewrite bool_decide_eq_false_2; [done|]. case_decide; lia. }
  assert (Z.of_nat (S j) < 10) by (case_decide; lia).
  rewrite Z.mod_small by lia.
  destruct (Z.eqb_spec (0 + Z.of_nat (S j)) 0); [lia|]. rewrite andb_true_r.
  destruct (Z.eqb_spec (0 + Z.of_nat (S j)) (in_offs b)); symmetry;
    [apply bool_decide_eq_false|apply bool_decide_eq_true]; case_decide; lia.
Qed.

(** An empty buffer: the loop walks the ten empty slots and finds nothing. *)
Lemma find_entry_empty b char_offset :
  cb_wf b -> contents b = [] -> 0 <= char_offset < 2 ^ 64 ->
  aesd_circular_buffer_find_entry_offset_for_fpos b char_offset = Some None.
Proof.
  intros Hwf Hnil Hoff. pose proof (wf_length b Hwf) as Hlen.
  pose proof (contents_length b Hwf) as HL. rewrite Hnil in HL. simpl in HL.
  pose proof (wf_in b Hwf).
  assert (full b = false /\ in_offs b = 0) as [Hf Hi] by (destruct (full b); [lia|split; [done|lia]]).
  destruct (wf_not_full b Hwf Hf) as [Ho Hz]. rewrite Hi, drop_0 in Hz.
  assert (Forall (fun x => x = 0) (sizes (entry b))) as Hz'.
  { apply Forall_fmap. eapply Forall_impl; [done|]. by intros ? ->. }
  assert (Forall (fun x => 0 <= x) (sizes (entry b))).
  { eapply Forall_impl; [done|]. intros; simpl in *; lia. }
  rewrite (find_visits b (entry b)); try lia; try done.
  - replace (locate (sizes (entry b)) char_offset) with (@None (nat * Z)); [done|].
    symmetry. apply locate_None; [done|lia|]. rewrite sumZ_zeros by done. lia.
  - intros j e He. rewrite entry_at_lookup by (apply Z.mod_pos_bound; lia).
    unfold ring_index. rewrite Ho. pose proof (lookup_lt_Some _ _ _ He).
    rewrite Z.mod_small by lia. by replace (Z.to_nat (0 + Z.of_nat j)) with j by lia.
  - intros j Hj. rewrite ring_next_partial; rewrite ?Hlen, ?decide_True by done; done || lia.
  - rewrite sumZ_zeros by done. lia.
  - intros HE. by rewrite HE in Hlen.
Qed.

Lemma find_entry_nonempty b char_offset :
  cb_wf b -> contents b <> [] ->
  sumZ (sizes (contents b)) < 2 ^ 64 -> 0 <= char_offset < 2 ^ 64 ->
  aesd_circular_buffer_find_entry_offset_for_fpos b char_offset =
    Some (find_spec b char_offset).
Proof.
  intros Hwf Hne Hsum Hoff. pose proof (wf_out b Hwf). pose proof (wf_in b Hwf).
  pose proof (contents_length b Hwf) as HL.
  rewrite (find_visits b (contents b)); try done.
  - intros j e He. rewrite entry_at_lookup by (apply Z.mod_pos_bound; lia).
    unfold ring_index. rewrite <- contents_lookup; [done..|by eapply lookup_lt_Some].
  - intros j Hj. rewrite HL in *. destruct (full b) eqn:Hf.
    + pose proof (ring_next_full b j Hwf Hf Hj) as Hn. by rewrite Hf in Hn.
    + pose proof (ring_next_partial b j Hwf Hf) as Hn. rewrite Hf in Hn.
      rewrite decide_False in Hn by lia. by apply Hn.
  - by apply contents_sizes.
  - by apply contents_le_cap.
Qed.

Lemma find_entry_correct b char_offset :
  cb_wf b -> sumZ (sizes (contents b)) < 2 ^ 64 -> 0 <= char_offset < 2 ^ 64 ->
  aesd_circular_buffer_find_entry_offset_for_fpos b char_offset =
    Some (find_spec b char_offset).
Proof.
  intros. destruct (decide (contents b = [])) as [Hnil|]; [|by apply find_entry_nonempty].
  unfold find_spec. rewrite Hnil. by apply find_entry_empty.
Qed.

(** *** Insertion *)

Lemma entry_set_eq b i e : cb_wf b -> 0 <= i < 10 ->
  entry_set b i e =
    Some (mk_buffer (<[Z.to_nat i := e]> (entry b)) (in_offs b) (out_offs b) (full b)).
Proof.
  intros Hwf Hi. unfold entry_set. destruct (entry_at_Some b i Hwf Hi) as (e' & -> & _). done.
Qed.

(** What an insertion stores, for a full buffer and for one being filled. *)
Lemma add_entry_full_eq b e : cb_wf b -> full b = true ->
  exists old, head (contents b) = Some old /\
  aesd_circular_buffer_add_entry b e =
    Some (buffptr old,
          mk_buffer (<[Z.to_nat (in_offs b) := e]> (entry b))
            (next_offs (in_offs b)) (next_offs (out_offs b)) true).
Proof.
  intros Hwf Hf. pose proof (wf_in b Hwf) as Hin.
  destruct (entry_at_Some b (in_offs b) Hwf Hin) as (old & Hat & Hlk).
  exists old. split.
  { unfold contents. rewrite Hf, <- (wf_full b Hwf Hf), (drop_lookup_cons _ _ _ Hlk). done. }
  unfold aesd_circular_buffer_add_entry. rewrite Hf, Hat. cbn [mbind option_bind].
  unfold entry_set. cbn [in_offs]. rewrite entry_at_lookup in * by lia. cbn [entry].
  rewrite Hlk. cbn. by destruct (_ =? _); rewrite ?Hf.
Qed.

Lemma add_entry_partial_eq b e : cb_wf b -> full b = false ->
  aesd_circular_buffer_add_entry b e =
    Some (NULL,
          mk_buffer (<[Z.to_nat (in_offs b) := e]> (entry b))
            (next_offs (in_offs b)) 0 (in_offs b =? 9)).
Proof.
  intros Hwf Hf. pose proof (wf_in b Hwf) as Hin.
  destruct (wf_not_full b Hwf Hf) as [Ho _].
  unfold aesd_circular_buffer_add_entry. rewrite Hf. cbn [mbind option_bind].
  rewrite entry_set_eq by done. cbn. rewrite Ho, Hf.
  destruct (next_offs_cases (in_offs b) Hin) as [[Hlt ->]|[-> ->]]; cbn.
  - destruct (Z.eqb_spec (in_offs b + 1) 0); [lia|].
    destruct (Z.eqb_spec (in_offs b) 9); [lia|done].
  - done.
Qed.

Lemma add_entry_full_contents b e : cb_wf b -> full b = true ->
  contents (mk_buffer (<[Z.to_nat (in_offs b) := e]> (entry b))
              (next_offs (in_offs b)) (next_offs (out_offs b)) true)
  = tail (contents b) ++ [e].
Proof.
  intros Hwf Hf. pose proof (wf_in b Hwf) as Hin. pose proof (wf_length b Hwf) as Hlen.
  pose proof (wf_full b Hwf Hf) as Hio.
  destruct (entry_at_Some b (in_offs b) Hwf Hin) as (old & _ & Hlk).
  unfold contents at 2. rewrite Hf, <- Hio, (drop_lookup_cons _ _ _ Hlk). cbn [tail app].
  unfold contents. cbn [full out_offs entry].
  destruct (next_offs_cases (in_offs b) Hin) as [[Hlt ->]|[Heq ->]].
  - replace (Z.to_nat (in_offs b + 1)) with (S (Z.to_nat (in_offs b))) by lia.
    rewrite drop_insert_lt, take_S_insert by lia. by rewrite <- app_assoc.
  - rewrite Heq. change (Z.to_nat 0) with 0%nat. change (Z.to_nat 9) with 9%nat.
    rewrite drop_0, take_0, app_nil_r.
    rewrite (drop_ge _ 10) by lia. cbn [app].
    rewrite <- (take_ge (<[9%nat:=e]> (entry b)) 10) by (rewrite length_insert; lia).
    by apply take_S_insert; lia.
Qed.

Lemma add_entry_partial_contents b e : cb_wf b -> full b = false ->
  contents (mk_buffer (<[Z.to_nat (in_offs b) := e]> (entry b))
              (next_offs (in_offs b)) 0 (in_offs b =? 9))
  = contents b ++ [e].
Proof.
  intros Hwf Hf. pose proof (wf_in b Hwf) as Hin. pose proof (wf_length b Hwf) as Hlen.
  unfold contents. rewrite Hf. cbn [full out_offs entry in_offs].
  rewrite <- take_S_insert by lia.
  destruct (next_offs_cases (in_offs b) Hin) as [[Hlt ->]|[Heq ->]].
  - destruct (Z.eqb_spec (in_offs b) 9); [lia|]. f_equal. lia.
  - rewrite Heq. cbn. rewrite drop_0, take_0, app_nil_r.
    symmetry. apply take_ge. rewrite length_insert. lia.
Qed.

Lemma insert_slot_wf b i e : cb_wf b -> 0 <= entry_size e < 2 ^ 64 ->
  length (<[i := e]> (entry b)) = CAP /\
  Forall (fun e => 0 <= entry_size e < 2 ^ 64) (<[i := e]> (entry b)).
Proof.
  intros Hwf He. rewrite length_insert. split; [by apply wf_length|].
  by apply Forall_insert; [apply wf_sizes|].
Qed.

Lemma add_entry_full_wf b e : cb_wf b -> full b = true -> 0 <= entry_size e < 2 ^ 64 ->
  cb_wf (mk_buffer (<[Z.to_nat (in_offs b) := e]> (entry b))
           (next_offs (in_offs b)) (next_offs (out_offs b)) true).
Proof.
  intros Hwf Hf He. destruct (insert_slot_wf b (Z.to_nat (in_offs b)) e Hwf He).
  pose proof (wf_full b Hwf Hf) as <-. pose proof (wf_in b Hwf) as Hin.
  destruct (next_offs_cases (in_offs b) Hin);
    split; cbn [entry in_offs out_offs full]; done || lia.
Qed.

Lemma add_entry_partial_wf b e : cb_wf b -> full b = false -> 0 <= entry_size e < 2 ^ 64 ->
  cb_wf (mk_buffer (<[Z.to_nat (in_offs b) := e]> (entry b))
           (next_offs (in_offs b)) 0 (in_offs b =? 9)).
Proof.
  intros Hwf Hf He. destruct (insert_slot_wf b (Z.to_nat (in_offs b)) e Hwf He).
  destruct (wf_not_full b Hwf Hf) as [_ Hz]. pose proof (wf_in b Hwf) as Hin.
  destruct (next_offs_cases (in_offs b) Hin) as [[Hlt Hn]|[Heq Hn]];
    split; cbn [entry in_offs out_offs full]; rewrite ?Hn; try done; try lia.
  - intros _. side. rewrite drop_insert_lt by lia.
    replace (Z.to_nat (in_offs b + 1)) with (Z.to_nat (in_offs b) + 1)%nat by lia.
    rewrite <- drop_drop. by apply Forall_drop.
Qed.

Lemma add_entry_correct b e : cb_wf b -> 0 <= entry_size e < 2 ^ 64 ->
  exists b',
    aesd_circular_buffer_add_entry b e =
      Some (default NULL (buffptr <$> Fifo.evicted CAP (contents b)), b') /\
    cb_wf b' /\ contents b' = Fifo.push CAP (contents b) e.
Proof.
  intros Hwf He. pose proof (contents_length b Hwf) as HL.
  pose proof (wf_in b Hwf) as Hin. destruct (full b) eqn:Hf.
  - destruct (add_entry_full_eq b e Hwf Hf) as (old & Hhd & Heq).
    unfold Fifo.evicted. rewrite decide_False, Hhd by lia. cbn [fmap option_fmap option_map default].
    eexists. side. split; [by apply add_entry_full_wf|].
    rewrite add_entry_full_contents by done. unfold Fifo.push.
    destruct (contents b) as [|x q]; [done|]. cbn [tail app].
    symmetry. by apply lastn_snoc_full.
  - unfold Fifo.evicted. rewrite decide_True by lia. cbn [fmap option_fmap option_map default].
    eexists. split; [by apply add_entry_partial_eq|].
    split; [by apply add_entry_partial_wf|].
    rewrite add_entry_partial_contents by done. unfold Fifo.push.
    symmetry. apply lastn_all. rewrite length_app. simpl. lia.
Qed.

(** *** Iteration *)

(** The reference meaning of the iteration macro: a fold over the array that
    stops at the first [break]. *)
Fixpoint fold_break {A} (index : Z) (l : list aesd_buffer_entry)
    (body : Z -> aesd_buffer_entry -> A -> A * bool) (a : A) : A :=
  match l with
  | [] => a
  | e :: l =>
      let '(a, continue) := body index e a in
      if continue : bool then fold_break (index + 1) l body a else a
  end.

Lemma foreach_loop_fold {A} b body (a : A) fuel i :
  length (entry b) = CAP -> (i <= CAP)%nat -> (CAP - i < fuel)%nat ->
  foreach_loop fuel b (Z.of_nat i) body a =
    Some (fold_break (Z.of_nat i) (drop i (entry b)) body a).
Proof.
  intros Hlen. revert i a. induction fuel as [|fuel IH]; intros i a Hi Hfuel; [lia|].
  cbn [foreach_loop]. unfold AESDCHAR_MAX_WRITE_OPERATIONS_SUPPORTED in *.
  destruct (Z.ltb_spec (Z.of_nat i) 10).
  - destruct (lookup_lt_is_Some_2 (entry b) i) as [e He]; [lia|].
    rewrite entry_at_lookup, Nat2Z.id, He by lia. cbn [mbind option_bind].
    rewrite (drop_lookup_cons _ _ _ He). cbn [fold_break].
    destruct (body (Z.of_nat i) e a) as [a' [|]]; [|done].
    rewrite u8_small by lia. replace (Z.of_nat i + 1) with (Z.of_nat (S i)) by lia.
    apply IH; lia.
  - by rewrite drop_ge by lia.
Qed.

Lemma foreach_fold {A} b body (a : A) : length (entry b) = CAP ->
  AESD_CIRCULAR_BUFFER_FOREACH b body a = Some (fold_break 0 (entry b) body a).
Proof.
  intros Hlen. unfold AESD_CIRCULAR_BUFFER_FOREACH.
  pose proof (foreach_loop_fold b body a 11 0 Hlen) as H. rewrite drop_0 in H.
  apply H; lia.
Qed.

Lemma fold_break_sum i l a : 
  fold_break i l (fun _ e size => (size +u64 entry_size e, true)) (u64 a) =
    u64 (a + sumZ (sizes l)).
Proof.
  revert i a. induction l as [|e l IH]; intros i a; simpl; [by rewrite Z.add_0_r|].
  replace (u64 a +u64 entry_size e) with (u64 (a + entry_size e)).
  - rewrite IH. f_equal. unfold sizes. simpl. lia.
  - unfold u64. by rewrite Zplus_mod_idemp_l.
Qed.

Lemma buffer_size_eq b : length (entry b) = CAP ->
  aesd_circular_buffer_size b = Some (s64 (u64 (sumZ (sizes (entry b))))).
Proof.
  intros Hlen. unfold aesd_circular_buffer_size. rewrite foreach_fold by done.
  cbn [mbind option_bind]. do 2 f_equal. by apply (fold_break_sum 0 (entry b) 0).
Qed.

Lemma buffer_size_correct b : cb_wf b -> sumZ (sizes (contents b)) < 2 ^ 63 ->
  aesd_circular_buffer_size b = Some (sumZ (sizes (contents b))).
Proof.
  intros Hwf Hsum. rewrite buffer_size_eq by by apply wf_length.
  rewrite sizes_entry by done.
  pose proof (sumZ_nonneg _ (contents_sizes b Hwf)). by rewrite u64_small, s64_small by lia.
Qed.

(** *** Sequences of insertions *)

(** Insert a sequence of entries; collects the addresses returned. *)
Fixpoint add_entries (b : aesd_circular_buffer) (es : list aesd_buffer_entry) :
    option (list Z * aesd_circular_buffer) :=
  match es with
  | [] => Some ([], b)
  | e :: es =>
      '(removed, b) ← aesd_circular_buffer_add_entry b e;
      '(rs, b) ← add_entries b es;
      Some (removed :: rs, b)
  end.

Lemma push_all_step {A} (q : list A) x es : (length q <= CAP)%nat ->
  lastn CAP (Fifo.push CAP q x ++ es) = lastn CAP (q ++ x :: es).
Proof.
  intros Hq. unfold Fifo.push, lastn. rewrite !length_app, !length_drop, !length_app. simpl.
  destruct (decide (length q = 10)%nat) as [Heq|Hne].
  - destruct q as [|y q]; [done|]. injection Heq as Heq. simpl. rewrite Heq.
    simpl. rewrite drop_0, <- app_assoc. simpl. f_equal. lia.
  - replace (length q + 1 - 10)%nat with 0%nat by lia. rewrite drop_0, <- app_assoc. simpl.
    f_equal. lia.
Qed.

(** The addresses handed back when [es] is inserted after [q]. *)
Definition evictions (q es : list aesd_buffer_entry) : list Z :=
  replicate ((CAP - length q) `min` length es) NULL ++
  (buffptr <$> take (length q + length es - CAP) (q ++ es)).

Lemma evictions_step q e es : (length q <= CAP)%nat ->
  evictions q (e :: es) =
    default NULL (buffptr <$> Fifo.evicted CAP q) :: evictions (Fifo.push CAP q e) es.
Proof.
  intros Hq. unfold evictions, Fifo.evicted, Fifo.push, lastn.
  rewrite length_drop, length_app. simpl.
  destruct (decide (length q < 10)%nat) as [Hlt|Hge].
  - replace (length q + 1 - 10)%nat with 0%nat by lia. rewrite drop_0, <- app_assoc.
    replace ((10 - length q) `min` S (length es))%nat
      with (S ((10 - (length q + 1 - 0)) `min` length es))%nat by lia.
    simpl. do 4 f_equal. lia.
  - destruct q as [|x q]; simpl in *; [lia|].
    assert (length q = 9)%nat as -> by lia. simpl.
    by rewrite drop_0, Nat.sub_0_r, <- app_assoc.
Qed.

Lemma add_entries_correct b es :
  cb_wf b -> Forall (fun e => 0 <= entry_size e < 2 ^ 64) es ->
  exists b', add_entries b es = Some (evictions (contents b) es, b') /\
    cb_wf b' /\ contents b' = lastn CAP (contents b ++ es).
Proof.
  intros Hwf Hes. revert b Hwf. induction Hes as [|e es He Hes IH]; intros b Hwf.
  - pose proof (contents_le_cap b Hwf). exists b. rewrite app_nil_r, lastn_all by done.
    split; [|done]. simpl. unfold evictions. rewrite app_nil_r. simpl.
    rewrite Nat.min_0_r, Nat.add_0_r. by replace (length (contents b) - 10)%nat with 0%nat by lia.
  - pose proof (contents_le_cap b Hwf).
    destruct (add_entry_correct b e Hwf He) as (b1 & Hadd & Hwf1 & Hc1).
    destruct (IH b1 Hwf1) as (b2 & Hes2 & Hwf2 & Hc2).
    exists b2. simpl. rewrite Hadd. cbn [mbind option_bind]. rewrite Hes2.
    rewrite evictions_step, <- Hc1 by done. side. side.
    by rewrite Hc2, Hc1, push_all_step.
Qed.

(** ** Properties *)

(** C22. A lookup by byte offset implements its documentation: it always
    returns; when it finds an entry, that is the entry of the queue that
    holds the byte number [char_offset] of the commands laid end to end, and
    the value stored is the position of the byte in the entry; it returns
    [NULL] exactly when the queue holds at most [char_offset] bytes. *)
Theorem find_entry_documented b char_offset :
  cb_wf b -> sumZ (sizes (contents b)) < 2 ^ 64 -> 0 <= char_offset < 2 ^ 64 ->
  exists r, aesd_circular_buffer_find_entry_offset_for_fpos b char_offset = Some r /\
    match r with
    | Some (index, off) =>
        exists j e, contents b !! j = Some e /\ entry_at b index = Some e /\
          0 <= off < entry_size e /\
          char_offset = sumZ (sizes (take j (contents b))) + off
    | None => sumZ (sizes (contents b)) <= char_offset
    end.
Proof.
  intros Hwf Hsum Hoff. eexists. split; [by apply find_entry_correct|].
  pose proof (contents_sizes b Hwf) as Hs. unfold find_spec.
  destruct (locate (sizes (contents b)) char_offset) as [[j o]|] eqn:E; cbn.
  - apply locate_Some in E as (s & Hj & Ho & Heq); [|done|lia].
    apply list_lookup_fmap_Some in Hj as (e & -> & He).
    exists j, e. side. split.
    + rewrite entry_at_lookup by (apply Z.mod_pos_bound; lia).
      rewrite <- contents_lookup; [done..|by eapply lookup_lt_Some].
    + side. rewrite Heq. unfold sizes. by rewrite firstn_map.
  - by apply locate_None in E; [|done|lia].
Qed.

(** C23. An insertion implements a push onto the bounded queue: it returns
    the address of the command evicted, [NULL] when none is, and keeps the
    representation invariant. *)
Theorem add_entry_refines b e :
  cb_wf b -> 0 <= entry_size e < 2 ^ 64 ->
  exists b',
    aesd_circular_buffer_add_entry b e =
      Some (default NULL (buffptr <$> Fifo.evicted CAP (contents b)), b') /\
    cb_wf b' /\ contents b' = Fifo.push CAP (contents b) e.
Proof. apply add_entry_correct. Qed.

(** C24. From a freshly initialised buffer any sequence of insertions
    succeeds, leaves the last ten entries in order, and hands back the
    address of every other entry exactly once, oldest first, after ten
    [NULL]s: a caller that frees what is handed back neither leaks nor
    frees twice. *)
Theorem add_entries_history b0 es :
  Forall (fun e => 0 <= entry_size e < 2 ^ 64) es ->
  exists b, add_entries (aesd_circular_buffer_init b0) es =
      Some (replicate (CAP `min` length es) NULL ++
            (buffptr <$> take (length es - CAP) es), b) /\
    cb_wf b /\ contents b = lastn CAP es.
Proof.
  intros Hes. destruct (add_entries_correct zero_buffer es zero_buffer_wf Hes) as (b & H1 & H2 & H3).
  by exists b.
Qed.

(** The size of a buffer is the number of bytes its commands hold,
    whatever the slots outside the queue. *)
Theorem buffer_size_total b :
  cb_wf b -> sumZ (sizes (contents b)) < 2 ^ 63 ->
  aesd_circular_buffer_size b = Some (sumZ (sizes (contents b))).
Proof. apply buffer_size_correct. Qed.

(** ** The theorems at a concrete buffer *)

(** Commands of 3, 5 and 2 bytes. *)
Definition demo_entries : list aesd_buffer_entry :=
  [mk_entry 4096 3; mk_entry 8192 5; mk_entry 12288 2].

Definition demo_buffer : aesd_circular_buffer :=
  mk_buffer (demo_entries ++ replicate 7 zero_entry) 3 0 false.

Lemma demo_buffer_wf : cb_wf demo_buffer.
Proof. apply (bool_decide_unpack _). vm_compute. exact I. Qed.

Lemma find_entry_documented_witness :
  exists r, aesd_circular_buffer_find_entry_offset_for_fpos demo_buffer 4 = Some r /\
    r = Some (1, 1) /\
    match r with
    | Some (index, off) =>
        exists j e, contents demo_buffer !! j = Some e /\ entry_at demo_buffer index = Some e /\
          0 <= off < entry_size e /\
          4 = sumZ (sizes (take j (contents demo_buffer))) + off
    | None => sumZ (sizes (contents demo_buffer)) <= 4
    end.
Proof.
  destruct (find_entry_documented demo_buffer 4 demo_buffer_wf ltac:(vm_compute; done) ltac:(lia))
    as (r & Hr & Hspec).
  exists r. side. split; [|done]. vm_compute in Hr. by injection Hr as <-.
Defined.

Lemma add_entry_refines_witness :
  exists b', aesd_circular_buffer_add_entry demo_buffer (mk_entry 16384 9) = Some (NULL, b') /\
    cb_wf b' /\ contents b' = demo_entries ++ [mk_entry 16384 9].
Proof. apply (add_entry_refines demo_buffer (mk_entry 16384 9) demo_buffer_wf). simpl. lia. Defined.

Lemma add_entries_history_witness :
  exists b, add_entries (aesd_circular_buffer_init demo_buffer)
      ((fun i => mk_entry (4096 * Z.of_nat i) (Z.of_nat i)) <$> seq 1 12) =
      Some (replicate 10 NULL ++ [4096; 8192], b) /\
    cb_wf b /\
    contents b = (fun i => mk_entry (4096 * Z.of_nat i) (Z.of_nat i)) <$> seq 3 10.
Proof.
  destruct (add_entries_history demo_buffer
    ((fun i => mk_entry (4096 * Z.of_nat i) (Z.of_nat i)) <$> seq 1 12)) as (b & Hb & Hwf & Hc).
  { repeat constructor; simpl; lia. }
  exists b. by split_and!.
Defined.

Lemma buffer_size_total_witness : aesd_circular_buffer_size demo_buffer = Some 10.
Proof. apply (buffer_size_total demo_buffer demo_buffer_wf). vm_compute. done. Defined.
