(* ===== verification/KernelApi.v ===== *)
(** * The kernel services the character driver uses

    The kernel is not part of the repository: its services are parameters of
    the driver model.  Class [Kernel] has the services as they are called in
    [aesd-char-driver/main.c], with the observations the statements need
    (the contents of heap blocks and of user memory, whether a mutex is
    held, which device numbers are reserved).  Class [KernelOk] states the
    documented behaviour the driver relies on.  [SimKernel] is a concrete
    kernel, with an instance of [KernelOk], at which the theorems about the
    driver can be evaluated. *)

From S2P Require Import Prelude.

(** Error numbers, returned negated. *)
Definition EFAULT : Z := 14.
Definition ENOMEM : Z := 12.
Definition EINVAL : Z := 22.
Definition ENOTTY : Z := 25.
Definition ERESTARTSYS : Z := 512.

Definition SEEK_SET : Z := 0.
Definition SEEK_CUR : Z := 1.
Definition SEEK_END : Z := 2.

Class Kernel : Type := {
  (** The state of the kernel, and of the mutexes it hands out. *)
  kst : Type;
  mutex : Type;

  (** *** Observations *)
  (** The contents of the heap block that starts at an address. *)
  blk : kst -> Z -> option (list byte);
  (** What [n] bytes of user memory hold from an address on. *)
  ubytes : kst -> Z -> Z -> list byte;
  held : mutex -> bool;
  (** A device number is reserved; a character device is live at it. *)
  region : kst -> Z -> bool;
  cdev_live : kst -> Z -> bool;

  (** *** Memory *)
  (** The address a zero-byte allocation returns, and the largest request
      the allocator serves. *)
  ZERO_SIZE_PTR : Z;
  KMALLOC_MAX_SIZE : Z;
  kzalloc : Z -> kst -> Z * kst;
  krealloc : Z -> Z -> kst -> Z * kst;
  kfree : Z -> kst -> kst;

  (** *** User memory: each returns the number of bytes not copied *)
  (** To [dst + off], [dst] a heap block. *)
  copy_from_user : forall (dst off src n : Z), kst -> Z * kst;
  (** To an object of the caller, whose new bytes are returned. *)
  copy_from_user_obj : forall (src n : Z), kst -> Z * list byte * kst;
  (** From [src + off], [src] a heap block. *)
  copy_to_user : forall (dst src off n : Z), kst -> Z * kst;

  (** *** Locking *)
  mutex_zero : mutex;
  mutex_init : mutex -> mutex;
  mutex_destroy : mutex -> mutex;
  mutex_lock_interruptible : mutex -> kst -> Z * mutex * kst;
  mutex_unlock : mutex -> mutex;

  (** *** Seeking: the position, then offset, whence and size; returns the
      result and the new position *)
  fixed_size_llseek : forall (f_pos offset whence size : Z), Z * Z;

  (** *** Request codes *)
  IOC_TYPE : Z -> Z;
  IOC_NR : Z -> Z;
  IOWR : Z -> Z -> Z -> Z;

  (** *** Device numbers and character devices *)
  MKDEV : Z -> Z -> Z;
  MAJOR : Z -> Z;
  (** First minor and count; returns the result and the first number. *)
  alloc_chrdev_region : forall (baseminor count : Z), kst -> Z * Z * kst;
  unregister_chrdev_region : forall (from count : Z), kst -> kst;
  cdev_add : forall (devno count : Z), kst -> Z * kst;
  cdev_del : forall (devno : Z), kst -> kst;
}.

(** [k'] has the same heap as [k]; the same user memory; the same device
    numbers and devices. *)
Definition same_heap `{Kernel} (k k' : kst) : Prop := forall p, blk k' p = blk k p.
Definition same_user `{Kernel} (k k' : kst) : Prop := forall u n, ubytes k' u n = ubytes k u n.
Definition same_devs `{Kernel} (k k' : kst) : Prop :=
  (forall d, region k' d = region k d) /\ (forall d, cdev_live k' d = cdev_live k d).

Class KernelOk (K : Kernel) : Prop := {
  zero_size_not_null : ZERO_SIZE_PTR <> NULL;
  kmalloc_max_range : 0 <= KMALLOC_MAX_SIZE <= 2 ^ 32;
  blk_null k : blk k NULL = None;
  blk_zero_size k : blk k ZERO_SIZE_PTR = Some [];
  ubytes_length k u n : 0 <= n -> zlen (ubytes k u n) = n;

  (** kzalloc: [NULL] and no effect, or the address of a new block of [n]
      zero bytes; a request of zero bytes gets [ZERO_SIZE_PTR]. *)
  kzalloc_user n k : same_user k (kzalloc n k).2;
  kzalloc_frame n k q : q <> (kzalloc n k).1 -> blk (kzalloc n k).2 q = blk k q;
  kzalloc_ok n k p k' : 0 <= n -> kzalloc n k = (p, k') -> p <> NULL ->
    n <= KMALLOC_MAX_SIZE /\ blk k' p = Some (replicate (Z.to_nat n) nul) /\
    (n = 0 -> p = ZERO_SIZE_PTR) /\
    (n <> 0 -> p <> ZERO_SIZE_PTR /\ blk k p = None);

  (** krealloc of a live block to a size that is not smaller: [NULL] and no
      effect, or the address of a block that starts with the old bytes; the
      old block is gone unless the address is the same. *)
  krealloc_user p n k : same_user k (krealloc p n k).2;
  krealloc_fail p n k b : blk k p = Some b -> zlen b <= n ->
    (krealloc p n k).1 = NULL -> same_heap k (krealloc p n k).2;
  krealloc_ok p n k b q k' : blk k p = Some b -> zlen b <= n ->
    (n = 0 -> p = ZERO_SIZE_PTR) ->
    krealloc p n k = (q, k') -> q <> NULL ->
    n <= KMALLOC_MAX_SIZE /\
    (exists tl, blk k' q = Some (b ++ tl) /\ zlen (b ++ tl) = n) /\
    (n = 0 -> q = ZERO_SIZE_PTR) /\
    (n <> 0 -> q <> ZERO_SIZE_PTR) /\
    (q <> p -> blk k q = None /\ (p <> ZERO_SIZE_PTR -> blk k' p = None)) /\
    (forall r, r <> p -> r <> q -> blk k' r = blk k r);

  (** kfree of a live block; of [ZERO_SIZE_PTR] it has no effect. *)
  kfree_user p k : same_user k (kfree p k);
  kfree_devs p k : same_devs k (kfree p k);
  kfree_frame p k q : q <> p -> blk (kfree p k) q = blk k q;
  kfree_ok p k : is_Some (blk k p) -> p <> ZERO_SIZE_PTR -> blk (kfree p k) p = None;

  (** copy_from_user into a range of a block: the range is written; with a
      result of zero it holds the user's bytes. *)
  copy_from_user_user dst off src n k : same_user k (copy_from_user dst off src n k).2;
  copy_from_user_frame dst off src n k q :
    q <> dst -> blk (copy_from_user dst off src n k).2 q = blk k q;
  copy_from_user_ok dst off src n k b r k' :
    blk k dst = Some b -> 0 <= off -> 0 <= n -> off + n <= zlen b ->
    copy_from_user dst off src n k = (r, k') ->
    0 <= r <= n /\
    exists d, zlen d = n /\ (r = 0 -> d = ubytes k src n) /\
      blk k' dst = Some (take (Z.to_nat off) b ++ d ++ drop (Z.to_nat (off + n)) b);

  copy_from_user_obj_ok src n k r d k' :
    0 <= n -> copy_from_user_obj src n k = (r, d, k') ->
    0 <= r <= n /\ zlen d = n /\ (r = 0 -> d = ubytes k src n) /\
    same_heap k k' /\ same_user k k';

  (** copy_to_user from a range of a block; with a result of zero the user's
      buffer holds the range. *)
  copy_to_user_heap dst src off n k : same_heap k (copy_to_user dst src off n k).2;
  copy_to_user_ok dst src off n k b r k' :
    blk k src = Some b -> 0 <= off -> 0 <= n -> off + n <= zlen b ->
    copy_to_user dst src off n k = (r, k') ->
    0 <= r <= n /\
    (r = 0 -> ubytes k' dst n = take (Z.to_nat n) (drop (Z.to_nat off) b));

  (** A lock call on a free mutex takes it and returns zero, or is
      interrupted by a signal and leaves it free. *)
  held_init m : held (mutex_init m) = false;
  mutex_lock_ok m k r m' k' : held m = false ->
    mutex_lock_interruptible m k = (r, m', k') ->
    (r = 0 -> held m' = true) /\ (r <> 0 -> held m' = false) /\
    same_heap k k' /\ same_user k k';
  mutex_unlock_ok m : held m = true -> held (mutex_unlock m) = false;

  (** Seeking in a device of a fixed size: to a position between zero and
      the size, or [-EINVAL] and no effect; [SEEK_CUR] with offset zero asks
      for the position, wherever it is. *)
  llseek_query f_pos size : fixed_size_llseek f_pos 0 SEEK_CUR size = (f_pos, f_pos);
  llseek_ok f_pos offset whence size target :
    0 <= size < 2 ^ 63 -> 0 <= f_pos < 2 ^ 63 -> ~ (whence = SEEK_CUR /\ offset = 0) ->
    (whence = SEEK_SET /\ target = offset \/
     whence = SEEK_CUR /\ target = f_pos + offset \/
     whence = SEEK_END /\ target = size + offset) ->
    fixed_size_llseek f_pos offset whence size =
      if decide (0 <= target <= size) then (target, target) else (- EINVAL, f_pos);
  llseek_bad_whence f_pos offset whence size :
    whence <> SEEK_SET -> whence <> SEEK_CUR -> whence <> SEEK_END ->
    fixed_size_llseek f_pos offset whence size = (- EINVAL, f_pos);

  (** Request codes carry their type and number. *)
  IOC_TYPE_IOWR t n s : 0 <= t < 2 ^ 8 -> 0 <= n < 2 ^ 8 -> 0 <= s < 2 ^ 14 ->
    IOC_TYPE (IOWR t n s) = t;
  IOC_NR_IOWR t n s : 0 <= t < 2 ^ 8 -> 0 <= n < 2 ^ 8 -> 0 <= s < 2 ^ 14 ->
    IOC_NR (IOWR t n s) = n;

  (** Device numbers. *)
  alloc_chrdev_ok baseminor k r d k' :
    alloc_chrdev_region baseminor 1 k = (r, d, k') ->
    r <= 0 /\ same_heap k k' /\
    (forall d', cdev_live k' d' = cdev_live k d') /\
    (r < 0 -> forall d', region k' d' = region k d') /\
    (r = 0 -> MKDEV (MAJOR d) baseminor = d /\ region k d = false /\
      cdev_live k d = false /\
      forall d', region k' d' = if decide (d' = d) then true else region k d');
  unregister_ok d k :
    same_heap k (unregister_chrdev_region d 1 k) /\
    (forall d', cdev_live (unregister_chrdev_region d 1 k) d' = cdev_live k d') /\
    forall d', region (unregister_chrdev_region d 1 k) d' =
      if decide (d' = d) then false else region k d';
  cdev_add_ok d k r k' : cdev_add d 1 k = (r, k') ->
    r <= 0 /\ same_heap k k' /\ (forall d', region k' d' = region k d') /\
    (forall d', cdev_live k' d' =
       if decide (d' = d /\ r = 0) then true else cdev_live k d');
  cdev_del_ok d k :
    same_heap k (cdev_del d k) /\ (forall d', region (cdev_del d k) d' = region k d') /\
    (forall d', cdev_live (cdev_del d k) d' =
       if decide (d' = d) then false else cdev_live k d');
}.

Section kernel_lemmas.
Context {K : Kernel} {KOk : KernelOk K}.

Lemma same_heap_refl k : same_heap k k.
Proof. done. Qed.

Lemma same_heap_trans k1 k2 k3 : same_heap k1 k2 -> same_heap k2 k3 -> same_heap k1 k3.
Proof. intros H1 H2 p. by rewrite H2, H1. Qed.

Lemma blk_Some_not_null k p b : blk k p = Some b -> p <> NULL.
Proof. intros H ->. by rewrite blk_null in H. Qed.
End kernel_lemmas.

#[export] Hint Resolve same_heap_refl same_heap_trans : aesd.

(** ** A concrete kernel

    Blocks are at the first unused address above the reserved ones; every
    fallible call takes one bit of a script, [true] for a failure, and
    succeeds when the script is used up. *)

Module SimKernel.
Record sim : Type := mk_sim {
  s_heap : gmap Z (list byte);
  s_user : gmap Z byte;
  s_script : list bool;
  s_regions : gset Z;
  s_cdevs : gset Z;
}.

Definition set_heap (s : sim) (h : gmap Z (list byte)) : sim :=
  mk_sim h (s_user s) (s_script s) (s_regions s) (s_cdevs s).

(** Whether the next fallible call fails. *)
Definition fails (s : sim) : bool := default false (head (s_script s)).
Definition advance (s : sim) : sim :=
  mk_sim (s_heap s) (s_user s) (tail (s_script s)) (s_regions s) (s_cdevs s).

Definition zero_size_ptr : Z := 16.
Definition max_size : Z := 2 ^ 22.

Definition sim_blk (s : sim) (p : Z) : option (list byte) :=
  if decide (p = 0) then None
  else if decide (p = zero_size_ptr) then Some []
  else s_heap s !! p.

Definition sim_ubytes (s : sim) (u n : Z) : list byte :=
  (fun i => default nul (s_user s !! (u + Z.of_nat i))) <$> seq 0 (Z.to_nat n).

Definition new_address (s : sim) : Z :=
  fresh ({[0; zero_size_ptr]} ∪ dom (s_heap s)).

Definition sim_kzalloc (n : Z) (s : sim) : Z * sim :=
  if fails s || (max_size <? n) then (0, advance s)
  else if n =? 0 then (zero_size_ptr, advance s)
  else (new_address s,
        advance (set_heap s (<[new_address s := replicate (Z.to_nat n) nul]> (s_heap s)))).

(** Always moves the block. *)
Definition sim_krealloc (p n : Z) (s : sim) : Z * sim :=
  if fails s || (max_size <? n) then (0, advance s)
  else if n =? 0 then (zero_size_ptr, advance (set_heap s (delete p (s_heap s))))
  else
    let b := default [] (sim_blk s p) in
    (new_address s,
     advance (set_heap s
       (<[new_address s := b ++ replicate (Z.to_nat n - length b) nul]>
          (delete p (s_heap s))))).

Definition sim_kfree (p : Z) (s : sim) : sim := set_heap s (delete p (s_heap s)).

(** Overwrite a range of a block. *)
Definition splice (off : Z) (d b : list byte) : list byte :=
  take (Z.to_nat off) b ++ d ++ drop (Z.to_nat (off + zlen d)) b.

Definition sim_copy_from_user (dst off src n : Z) (s : sim) : Z * sim :=
  let d := if fails s then replicate (Z.to_nat n) nul else sim_ubytes s src n in
  (if fails s then n else 0,
   advance (set_heap s (alter (splice off d) dst (s_heap s)))).

Definition sim_copy_from_user_obj (src n : Z) (s : sim) : Z * list byte * sim :=
  if fails s then (n, replicate (Z.to_nat n) nul, advance s)
  else (0, sim_ubytes s src n, advance s).

Fixpoint user_write (u : Z) (d : list byte) (m : gmap Z byte) : gmap Z byte :=
  match d with
  | [] => m
  | x :: d => <[u := x]> (user_write (u + 1) d m)
  end.

Definition sim_copy_to_user (dst src off n : Z) (s : sim) : Z * sim :=
  if fails s then (n, advance s)
  else
    let d := take (Z.to_nat n) (drop (Z.to_nat off) (default [] (sim_blk s src))) in
    (0, advance (mk_sim (s_heap s) (user_write dst d (s_user s)) (s_script s)
                   (s_regions s) (s_cdevs s))).

Definition sim_lock (m : bool) (s : sim) : Z * bool * sim :=
  if fails s then (4, m, advance s) else (0, true, advance s).

Definition sim_llseek (f_pos offset whence size : Z) : Z * Z :=
  let target :=
    if whence =? SEEK_SET then Some offset
    else if whence =? SEEK_CUR then Some (f_pos + offset)
    else if whence =? SEEK_END then Some (size + offset) else None in
  if decide (whence = SEEK_CUR /\ offset = 0) then (f_pos, f_pos)
  else match target with
  | Some t => if decide (0 <= t <= size) then (t, t) else (- EINVAL, f_pos)
  | None => (- EINVAL, f_pos)
  end.

Definition sim_iowr (t n s : Z) : Z :=
  Z.lor (Z.shiftl 3 30) (Z.lor (Z.shiftl s 16) (Z.lor (Z.shiftl t 8) n)).

Definition sim_alloc_chrdev (baseminor count : Z) (s : sim) : Z * Z * sim :=
  if fails s then (- 16, 0, advance s)
  else
    let major := fresh (set_map (fun d => d `div` 2 ^ 20) (s_regions s ∪ s_cdevs s) : gset Z) in
    let d := major * 2 ^ 20 + baseminor `mod` 2 ^ 20 in
    (0, d, advance (mk_sim (s_heap s) (s_user s) (s_script s) ({[d]} ∪ s_regions s) (s_cdevs s))).

Definition sim_cdev_add (d count : Z) (s : sim) : Z * sim :=
  if fails s then (- 12, advance s)
  else (0, advance (mk_sim (s_heap s) (s_user s) (s_script s) (s_regions s) ({[d]} ∪ s_cdevs s))).

#[export] Instance sim_kernel : Kernel := {
  kst := sim;
  mutex := bool;
  blk := sim_blk;
  ubytes := sim_ubytes;
  held m := m;
  region s d := bool_decide (d ∈ s_regions s);
  cdev_live s d := bool_decide (d ∈ s_cdevs s);
  ZERO_SIZE_PTR := zero_size_ptr;
  KMALLOC_MAX_SIZE := max_size;
  kzalloc := sim_kzalloc;
  krealloc := sim_krealloc;
  kfree := sim_kfree;
  copy_from_user := sim_copy_from_user;
  copy_from_user_obj := sim_copy_from_user_obj;
  copy_to_user := sim_copy_to_user;
  mutex_zero := false;
  mutex_init _ := false;
  mutex_destroy m := m;
  mutex_lock_interruptible := sim_lock;
  mutex_unlock _ := false;
  fixed_size_llseek := sim_llseek;
  IOC_TYPE c := Z.land (Z.shiftr c 8) 255;
  IOC_NR c := Z.land c 255;
  IOWR := sim_iowr;
  MKDEV ma mi := ma * 2 ^ 20 + mi `mod` 2 ^ 20;
  MAJOR d := d `div` 2 ^ 20;
  alloc_chrdev_region := sim_alloc_chrdev;
  unregister_chrdev_region d _ s :=
    mk_sim (s_heap s) (s_user s) (s_script s) (s_regions s ∖ {[d]}) (s_cdevs s);
  cdev_add := sim_cdev_add;
  cdev_del d s :=
    mk_sim (s_heap s) (s_user s) (s_script s) (s_regions s) (s_cdevs s ∖ {[d]});
}.

(** A kernel with nothing allocated and a user memory. *)
Definition boot (user : gmap Z byte) (script : list bool) : sim :=
  mk_sim ∅ user script ∅ ∅.

Lemma new_address_fresh s :
  new_address s <> 0 /\ new_address s <> zero_size_ptr /\ s_heap s !! new_address s = None.
Proof.
  pose proof (is_fresh ({[0; zero_size_ptr]} ∪ dom (s_heap s))) as Hf.
  fold (new_address s) in Hf. rewrite <- not_elem_of_dom. set_solver.
Qed.

Lemma sim_blk_heap s p : p <> 0 -> p <> zero_size_ptr -> sim_blk s p = s_heap s !! p.
Proof. intros. unfold sim_blk. by rewrite !decide_False by done. Qed.

(** Two heaps that agree at an address have the same block there. *)
Lemma sim_blk_ext s s' p : s_heap s' !! p = s_heap s !! p -> sim_blk s' p = sim_blk s p.
Proof. unfold sim_blk. by intros ->. Qed.

Lemma sim_kzalloc_ok n s p s' : 0 <= n -> sim_kzalloc n s = (p, s') -> p <> 0 ->
  n <= max_size /\ sim_blk s' p = Some (replicate (Z.to_nat n) nul) /\
  (n = 0 -> p = zero_size_ptr) /\
  (n <> 0 -> p <> zero_size_ptr /\ sim_blk s p = None).
Proof.
  intros Hn Ha Hp. unfold sim_kzalloc in Ha.
  destruct (new_address_fresh s) as (H0 & H16 & Hf).
  destruct (fails s || (max_size <? n)) eqn:E; simplify_eq.
  apply orb_false_elim in E as [_ Hmax%Z.ltb_ge].
  destruct (Z.eqb_spec n 0) as [->|Hn0]; simplify_eq; split_and!; try done.
  - by rewrite sim_blk_heap by done; simpl; rewrite lookup_insert_eq.
  - intros _. by rewrite sim_blk_heap by done.
Qed.

Lemma sim_kzalloc_frame n s q : q <> (sim_kzalloc n s).1 ->
  sim_blk (sim_kzalloc n s).2 q = sim_blk s q.
Proof.
  unfold sim_kzalloc. destruct (_ || _); [done|]. destruct (n =? 0); [done|].
  simpl. intros Hq. apply sim_blk_ext. simpl. by rewrite lookup_insert_ne by done.
Qed.

Lemma sim_krealloc_ok p n s b q s' :
  sim_blk s p = Some b -> zlen b <= n -> (n = 0 -> p = zero_size_ptr) ->
  sim_krealloc p n s = (q, s') -> q <> 0 ->
  n <= max_size /\
  (exists tl, sim_blk s' q = Some (b ++ tl) /\ zlen (b ++ tl) = n) /\
  (n = 0 -> q = zero_size_ptr) /\ (n <> 0 -> q <> zero_size_ptr) /\
  (q <> p -> sim_blk s q = None /\ (p <> zero_size_ptr -> sim_blk s' p = None)) /\
  (forall r, r <> p -> r <> q -> sim_blk s' r = sim_blk s r).
Proof.
  intros Hb Hle Hz Ha Hq. unfold sim_krealloc in Ha.
  destruct (new_address_fresh s) as (H0 & H16 & Hf).
  destruct (fails s || (max_size <? n)) eqn:E; [by simplify_eq|].
  apply orb_false_elim in E as [_ Hmax%Z.ltb_ge].
  destruct (Z.eqb_spec n 0) as [->|Hn0].
  - assert (b = []) as -> by (destruct b; [done|simpl in *; lia]).
    rewrite (Hz eq_refl) in *. simplify_eq. split_and!; try done.
    + by exists [].
    + intros r Hr _. apply sim_blk_ext. simpl. by rewrite lookup_delete_ne by done.
  - rewrite Hb in Ha. simpl in Ha. injection Ha as <- <-. split_and!; try done.
    + exists (replicate (Z.to_nat n - length b) nul). rewrite sim_blk_heap by done. simpl.
      rewrite lookup_insert_eq. side. rewrite length_app, length_replicate. lia.
    + intros Hqp. rewrite sim_blk_heap by done. side. intros Hp16.
      assert (p <> 0) by (intros ->; done).
      rewrite sim_blk_heap by done. simpl.
      by rewrite lookup_insert_ne, lookup_delete_eq by done.
    + intros r Hr Hr'. apply sim_blk_ext. simpl.
      by rewrite lookup_insert_ne, lookup_delete_ne by done.
Qed.

Lemma sim_ubytes_length s u n : 0 <= n -> zlen (sim_ubytes s u n) = n.
Proof. intros. unfold sim_ubytes. rewrite length_fmap, length_seq. lia. Qed.

Lemma sim_copy_from_user_ok dst off src n s b r s' :
  sim_blk s dst = Some b -> 0 <= off -> 0 <= n -> off + n <= zlen b ->
  sim_copy_from_user dst off src n s = (r, s') ->
  0 <= r <= n /\
  exists d, zlen d = n /\ (r = 0 -> d = sim_ubytes s src n) /\
    sim_blk s' dst = Some (take (Z.to_nat off) b ++ d ++ drop (Z.to_nat (off + n)) b).
Proof.
  intros Hb Hoff Hn Hle Hc. unfold sim_copy_from_user in Hc.
  set (d := if fails s then replicate (Z.to_nat n) nul else sim_ubytes s src n) in Hc. injection Hc as <- <-.
  assert (zlen d = n) as Hd.
  { unfold d. destruct (fails s); [rewrite length_replicate; lia|by apply sim_ubytes_length]. }
  split; [destruct (fails s); lia|]. exists d. side. split.
  { unfold d. destruct (fails s) eqn:Ef; [|done]. intros ->. done. }
  unfold sim_blk in *. destruct (decide (dst = 0)); [done|].
  destruct (decide (dst = zero_size_ptr)); simpl.
  - simplify_eq. simpl in Hle. assert (n = 0) as Hn0 by lia.
    destruct d; [|simpl in Hd; lia]. by rewrite !take_nil, !drop_nil.
  - rewrite lookup_alter_eq, Hb. simpl. unfold splice. by rewrite Hd.
Qed.

Lemma lookup_user_write u d m a :
  user_write u d m !! a =
    if decide (u <= a < u + zlen d) then d !! Z.to_nat (a - u) else m !! a.
Proof.
  revert u. induction d as [|x d IH]; intros u; simpl.
  { by rewrite decide_False by lia. }
  destruct (decide (u = a)) as [->|Hne].
  - rewrite lookup_insert_eq, decide_True by lia. by rewrite Z.sub_diag.
  - rewrite lookup_insert_ne, IH by done.
    destruct (decide (u + 1 <= a < u + 1 + zlen d)).
    + rewrite decide_True by lia.
      by replace (Z.to_nat (a - u)) with (S (Z.to_nat (a - (u + 1)))) by lia.
    + by rewrite decide_False by lia.
Qed.

Lemma sim_copy_to_user_ok dst src off n s b r s' :
  sim_blk s src = Some b -> 0 <= off -> 0 <= n -> off + n <= zlen b ->
  sim_copy_to_user dst src off n s = (r, s') ->
  0 <= r <= n /\
  (r = 0 -> sim_ubytes s' dst n = take (Z.to_nat n) (drop (Z.to_nat off) b)).
Proof.
  intros Hb Hoff Hn Hle Hc. unfold sim_copy_to_user in Hc. rewrite Hb in Hc. simpl in Hc.
  set (d := take (Z.to_nat n) (drop (Z.to_nat off) b)) in *.
  assert (zlen d = n) as Hd.
  { unfold d. rewrite length_take, length_drop. lia. }
  destruct (fails s); simplify_eq.
  { split; [lia|]. intros Hz. unfold sim_ubytes. rewrite Hz.
    destruct d; [done|simpl in Hd; lia]. }
  split; [lia|]. intros _. unfold sim_ubytes. simpl. apply list_eq. intros i.
  rewrite list_lookup_fmap. destruct (decide (i < length d)%nat) as [Hi|Hi].
  - destruct (lookup_lt_is_Some_2 d i Hi) as [x Hx].
    rewrite lookup_seq_lt by lia. simpl. rewrite lookup_user_write.
    rewrite decide_True by lia.
    replace (Z.to_nat (dst + Z.of_nat i - dst)) with i by lia. by rewrite Hx.
  - rewrite lookup_seq_ge by lia. by rewrite lookup_ge_None_2 by lia.
Qed.

Lemma sim_llseek_ok f_pos offset whence size target :
  ~ (whence = SEEK_CUR /\ offset = 0) ->
  (whence = SEEK_SET /\ target = offset \/
   whence = SEEK_CUR /\ target = f_pos + offset \/
   whence = SEEK_END /\ target = size + offset) ->
  sim_llseek f_pos offset whence size =
    if decide (0 <= target <= size) then (target, target) else (- EINVAL, f_pos).
Proof. unfold sim_llseek. intros Hq. rewrite (decide_False _ _ Hq). by intros [[-> ->]|[[-> ->]|[-> ->]]]. Qed.

Lemma sim_iowr_fields t n s :
  0 <= t < 2 ^ 8 -> 0 <= n < 2 ^ 8 -> 0 <= s < 2 ^ 14 ->
  Z.land (Z.shiftr (sim_iowr t n s) 8) 255 = t /\ Z.land (sim_iowr t n s) 255 = n.
Proof.
  intros Ht Hn Hs. change 255 with (Z.ones 8). rewrite !Z.land_ones by lia.
  rewrite Z.shiftr_div_pow2 by lia.
  assert (sim_iowr t n s = 3 * 2 ^ 30 + (s * 2 ^ 16 + (t * 2 ^ 8 + n))) as ->; [|split].
  - unfold sim_iowr. by rewrite (lor_shift_add 8), (lor_shift_add 16), (lor_shift_add 30) by lia.
  - replace (3 * 2 ^ 30 + (s * 2 ^ 16 + (t * 2 ^ 8 + n)))
      with (n + (3 * 2 ^ 22 + s * 2 ^ 8 + t) * 2 ^ 8) by lia.
    rewrite Z.div_add, Z.div_small by lia.
    replace (0 + (3 * 2 ^ 22 + s * 2 ^ 8 + t)) with (t + (3 * 2 ^ 14 + s) * 2 ^ 8) by lia.
    by rewrite Z.mod_add, Z.mod_small by lia.
  - replace (3 * 2 ^ 30 + (s * 2 ^ 16 + (t * 2 ^ 8 + n)))
      with (n + (3 * 2 ^ 22 + s * 2 ^ 8 + t) * 2 ^ 8) by lia.
    by rewrite Z.mod_add, Z.mod_small by lia.
Qed.

Lemma sim_alloc_chrdev_ok baseminor s r d s' :
  sim_alloc_chrdev baseminor 1 s = (r, d, s') ->
  r <= 0 /\ (forall p, sim_blk s' p = sim_blk s p) /\ s_cdevs s' = s_cdevs s /\
  (r < 0 -> s_regions s' = s_regions s) /\
  (r = 0 -> (d `div` 2 ^ 20) * 2 ^ 20 + (baseminor `mod` 2 ^ 20) = d /\
    d ∉ s_regions s /\ d ∉ s_cdevs s /\ s_regions s' = {[d]} ∪ s_regions s).
Proof.
  intros Ha. unfold sim_alloc_chrdev in Ha. destruct (fails s); simplify_eq.
  { split_and!; done || lia. }
  set (X := s_regions s ∪ s_cdevs s). set (ma := fresh _).
  pose proof (Z.mod_pos_bound baseminor (2 ^ 20) ltac:(lia)).
  assert ((ma * 2 ^ 20 + baseminor `mod` 2 ^ 20) `div` 2 ^ 20 = ma) as Hdiv.
  { rewrite Z.add_comm, Z.div_add, Z.div_small by lia. lia. }
  assert (ma * 2 ^ 20 + baseminor `mod` 2 ^ 20 ∉ X) as Hin.
  { intros Hin. apply (is_fresh (set_map (fun d => d `div` 2 ^ 20) X : gset Z)).
    apply elem_of_map. eexists. split; [|exact Hin]. by rewrite Hdiv. }
  split_and!; try done; try lia. intros _. rewrite Hdiv. set_solver.
Qed.

Lemma sim_copy_from_user_obj_ok src n s r d s' :
  0 <= n -> sim_copy_from_user_obj src n s = (r, d, s') ->
  0 <= r <= n /\ zlen d = n /\ (r = 0 -> d = sim_ubytes s src n) /\
  (forall p, sim_blk s' p = sim_blk s p) /\
  (forall u m, sim_ubytes s' u m = sim_ubytes s u m).
Proof.
  intros Hn Hc. unfold sim_copy_from_user_obj in Hc.
  destruct (fails s); simplify_eq; split_and!; try done; try lia.
  - rewrite length_replicate. lia.
  - by intros ->.
  - by apply sim_ubytes_length.
Qed.

(** The sets of device numbers after an addition and a removal. *)
Lemma in_added (x y : Z) (X : gset Z) :
  bool_decide (x ∈ {[y]} ∪ X) = if decide (x = y) then true else bool_decide (x ∈ X).
Proof. case_decide; [apply bool_decide_eq_true_2|apply bool_decide_ext]; set_solver. Qed.
Lemma in_removed (x y : Z) (X : gset Z) :
  bool_decide (x ∈ X ∖ {[y]}) = if decide (x = y) then false else bool_decide (x ∈ X).
Proof. case_decide; [apply bool_decide_eq_false_2|apply bool_decide_ext]; set_solver. Qed.

Lemma sim_cdev_add_ok d s r s' : sim_cdev_add d 1 s = (r, s') ->
  r <= 0 /\ (forall p, sim_blk s' p = sim_blk s p) /\ s_regions s' = s_regions s /\
  forall d', bool_decide (d' ∈ s_cdevs s') =
    if decide (d' = d /\ r = 0) then true else bool_decide (d' ∈ s_cdevs s).
Proof.
  unfold sim_cdev_add. destruct (fails s); intros [= <- <-]; split_and!; try done; intros d'.
  - by rewrite decide_False by naive_solver.
  - cbn [s_cdevs advance]. rewrite in_added. repeat case_decide; naive_solver.
Qed.

#[export] Instance sim_kernel_ok : KernelOk sim_kernel.
Proof.
  split; simpl.
  - done.
  - unfold max_size. lia.
  - done.
  - done.
  - apply sim_ubytes_length.
  - intros n s u m. unfold sim_kzalloc. by repeat case_match.
  - apply sim_kzalloc_frame.
  - apply sim_kzalloc_ok.
  - intros p n s u m. unfold sim_krealloc. by repeat case_match.
  - intros p n s b Hb Hle Hz. unfold sim_krealloc in *.
    destruct (new_address_fresh s) as (H0 & _). repeat case_match; done.
  - apply sim_krealloc_ok.
  - done.
  - done.
  - intros p s q Hq. apply sim_blk_ext. simpl. by rewrite lookup_delete_ne by done.
  - intros p s Hp H16. assert (p <> 0) by (intros ->; by destruct Hp).
    rewrite sim_blk_heap by done. simpl. by rewrite lookup_delete_eq.
  - done.
  - intros dst off src n s q Hq. apply sim_blk_ext. simpl. by rewrite lookup_alter_ne by done.
  - apply sim_copy_from_user_ok.
  - apply sim_copy_from_user_obj_ok.
  - intros dst src off n s p. unfold sim_copy_to_user. by case_match.
  - apply sim_copy_to_user_ok.
  - done.
  - intros m s r m' s' Hm Hl. unfold sim_lock in Hl. destruct (fails s); simplify_eq; done.
  - done.
  - done.
  - intros f_pos offset whence size target _ _. apply sim_llseek_ok.
  - intros f_pos offset whence size ? ? ?. unfold sim_llseek.
    rewrite decide_False by tauto. by rewrite !(proj2 (Z.eqb_neq _ _)) by done.
  - intros t n s Ht Hn Hs. by apply sim_iowr_fields.
  - intros t n s Ht Hn Hs. by apply sim_iowr_fields.
  - intros baseminor s r d s' Ha. apply sim_alloc_chrdev_ok in Ha as (? & ? & Hc & Hf & Hok).
    rewrite Hc. split_and!; try done.
    + intros Hr d'. by rewrite Hf.
    + intros Hr. destruct (Hok Hr) as (? & ? & ? & ->). split_and!; try done.
      1,2: by apply bool_decide_eq_false_2.
      intros d'. apply in_added.
  - intros d s. split_and!; try done. intros d'. apply in_removed.
  - intros d s r s' (? & ? & Hr & ?)%sim_cdev_add_ok. rewrite Hr. by split_and!.
  - intros d s. split_and!; try done. intros d'. apply in_removed.
Qed.
End SimKernel.
