(* ===== verification/CharDriver.v ===== *)
(** * The character driver

    Models [aesd-char-driver/main.c], [aesdchar.h] and [aesd_ioctl.h]: the
    device state, one definition per handler, the module entry points and
    the table of file operations.  A handler is a computation over the
    [world] (the device and the kernel); it meets undefined behaviour where
    the C code would use an invalid pointer, leave a block, or release a
    mutex that is not held.  The theorems about these definitions are in
    [CharDriverSpec] and [CharDriverTheorems]. *)

From S2P Require Import Prelude CircularBuffer KernelApi.

(** ** Data *)

(** The tables and owners a [struct cdev] can point to here. *)
Inductive ops_ref : Set := OPS_NULL | OPS_AESD_FOPS.
Inductive owner_ref : Set := OWNER_NULL | OWNER_THIS_MODULE.

(** The members of [struct cdev] the driver sets. *)
Record cdev_t : Type := mk_cdev {
  cdev_owner : owner_ref;
  cdev_ops : ops_ref;
  cdev_dev : Z;
}.

Record aesd_dev `{Kernel} : Type := mk_dev {
  cdev : cdev_t;
  buffer : aesd_circular_buffer;
  current_write_entry : aesd_buffer_entry;
  lock : mutex;
}.

(** The global variables [aesd_device] and [aesd_major], and the kernel. *)
Record world `{Kernel} : Type := mk_world {
  kern : kst;
  aesd_device : aesd_dev;
  aesd_major : Z;
}.

Arguments mk_dev {_} _ _ _ _.
Arguments mk_world {_} _ _ _.

Definition aesd_minor : Z := 0.

(** A pointer to a [struct aesd_dev]: there is one, [aesd_device]. *)
Inductive dev_ref : Set := AESD_DEVICE.
(** A pointer to the member [cdev] of such a structure. *)
Inductive cdev_ref : Set := CDEV_OF (d : dev_ref).

Record inode : Type := mk_inode { i_cdev : cdev_ref }.

Record file : Type := mk_file {
  f_pos : Z;
  private_data : option dev_ref;
}.

(** [struct aesd_seekto] and the request codes of [aesd_ioctl.h]. *)
Record aesd_seekto : Type := mk_seekto {
  write_cmd : Z;
  write_cmd_offset : Z;
}.
Definition sizeof_aesd_seekto : Z := 8.

Definition AESD_IOC_MAGIC : Z := 22.
Definition AESDCHAR_IOC_MAXNR : Z := 1.
Definition AESDCHAR_IOCSEEKTO `{Kernel} : Z := IOWR AESD_IOC_MAGIC 1 sizeof_aesd_seekto.

(** The structure stored in eight bytes. *)
Definition seekto_of_bytes (d : list byte) : aesd_seekto :=
  mk_seekto (u32_at 0 d) (u32_at 4 d).

Section driver.
Context {K : Kernel}.

(** ** Assignments to members *)

Definition set_kern (k : kst) (w : world) : world :=
  mk_world k (aesd_device w) (aesd_major w).
Definition set_dev (f : aesd_dev -> aesd_dev) (w : world) : world :=
  mk_world (kern w) (f (aesd_device w)) (aesd_major w).
Definition set_buffer (b : aesd_circular_buffer) (d : aesd_dev) : aesd_dev :=
  mk_dev (cdev d) b (current_write_entry d) (lock d).
Definition set_current (e : aesd_buffer_entry) (d : aesd_dev) : aesd_dev :=
  mk_dev (cdev d) (buffer d) e (lock d).
Definition set_lock (m : mutex) (d : aesd_dev) : aesd_dev :=
  mk_dev (cdev d) (buffer d) (current_write_entry d) m.
Definition set_cdev (c : cdev_t) (d : aesd_dev) : aesd_dev :=
  mk_dev c (buffer d) (current_write_entry d) (lock d).

(** ** Calls of kernel services

    A call with an invalid pointer is undefined behaviour. *)

Definition on_kern {A} (f : kst -> A * kst) : ST world A := fun w =>
  let '(a, k) := f (kern w) in Some (a, set_kern k w).

Definition do_kzalloc (n : Z) : ST world Z := on_kern (kzalloc n).

Definition do_krealloc (p n : Z) : ST world Z :=
  _ ← st_opt (fun w => blk (kern w) p);
  on_kern (krealloc p n).

Definition do_kfree (p : Z) : ST world unit :=
  _ ← st_opt (fun w => blk (kern w) p);
  st_modify (fun w => set_kern (kfree p (kern w)) w).

(** The range [off, off + n) of the block at [p] is valid. *)
Definition check_range (p off n : Z) : ST world (list byte) :=
  b ← st_opt (fun w => blk (kern w) p);
  if decide (0 <= off /\ 0 <= n /\ off + n <= zlen b) then mret b else st_ub.

Definition do_copy_from_user (dst off src n : Z) : ST world Z :=
  _ ← check_range dst off n;
  on_kern (copy_from_user dst off src n).

Definition do_copy_to_user (dst src off n : Z) : ST world Z :=
  _ ← check_range src off n;
  on_kern (copy_to_user dst src off n).

(** [memchr(p, c, n)] on a heap block. *)
Definition do_memchr (p : Z) (c : byte) (n : Z) : ST world (option nat) :=
  b ← check_range p 0 n;
  mret (memchr_opt c (take (Z.to_nat n) b)).

Definition lock_dev : ST world Z := fun w =>
  let '(r, m, k) := mutex_lock_interruptible (lock (aesd_device w)) (kern w) in
  Some (r, set_dev (set_lock m) (set_kern k w)).

Definition unlock_dev : ST world unit := fun w =>
  if held (lock (aesd_device w))
  then Some (tt, set_dev (set_lock (mutex_unlock (lock (aesd_device w)))) w)
  else None.

(** [filp->private_data], used as the device. *)
Definition get_dev (filp : file) : ST world unit :=
  match private_data filp with
  | Some AESD_DEVICE => mret tt
  | None => st_ub
  end.

(** ** Handlers *)

(** [container_of(ptr, struct aesd_dev, cdev)]. *)
Definition container_of (c : cdev_ref) : dev_ref :=
  let 'CDEV_OF d := c in d.

Definition aesd_open (i : inode) (filp : file) : Z * file :=
  let dev := container_of (i_cdev i) in
  (0, mk_file (f_pos filp) (Some dev)).

Definition aesd_release (i : inode) (filp : file) : Z * file := (0, filp).

(** The part of [aesd_ioctl] that runs with the lock held; returns
    [retval] and the new [filp->f_pos]. *)
Definition aesd_ioctl_seek (filp : file) (seekto : aesd_seekto) : ST world (Z * file) :=
  if AESDCHAR_MAX_WRITE_OPERATIONS_SUPPORTED <=? write_cmd seekto
  then mret (- EINVAL, filp)
  else
    e ← st_opt (fun w => entry_at (buffer (aesd_device w)) (write_cmd seekto));
    if buffptr e =? NULL then mret (- EINVAL, filp)
    else if entry_size e <=? write_cmd_offset seekto then mret (- EINVAL, filp)
    else
      char_offset ← st_opt (fun w =>
        AESD_CIRCULAR_BUFFER_FOREACH (buffer (aesd_device w))
          (fun index current_entry char_offset =>
             if index =? write_cmd seekto
             then (char_offset +u64 write_cmd_offset seekto, false)
             else (char_offset +u64 entry_size current_entry, true)) 0);
      mret (0, mk_file (s64 char_offset) (private_data filp)).

Definition aesd_ioctl (filp : file) (cmd arg : Z) : ST world (Z * file) :=
  if negb (IOC_TYPE cmd =? AESD_IOC_MAGIC) then mret (- ENOTTY, filp)
  else if AESDCHAR_IOC_MAXNR <? IOC_NR cmd then mret (- ENOTTY, filp)
  else if cmd =? AESDCHAR_IOCSEEKTO then
    '(not_copied, d) ← on_kern (copy_from_user_obj arg sizeof_aesd_seekto);
    if negb (not_copied =? 0) then mret (- EFAULT, filp)
    else
      _ ← get_dev filp;
      r ← lock_dev;
      if negb (r =? 0) then mret (- ERESTARTSYS, filp)
      else
        res ← aesd_ioctl_seek filp (seekto_of_bytes d);
        _ ← unlock_dev;
        mret res
  else mret (- ENOTTY, filp).

Definition aesd_llseek (filp : file) (offset whence : Z) : ST world (Z * file) :=
  _ ← get_dev filp;
  r ← lock_dev;
  if negb (r =? 0) then mret (- ERESTARTSYS, filp)
  else
    size ← st_opt (fun w => aesd_circular_buffer_size (buffer (aesd_device w)));
    let '(newpos, pos) := fixed_size_llseek (f_pos filp) offset whence size in
    _ ← unlock_dev;
    mret (newpos, mk_file pos (private_data filp)).

(** The part of [aesd_read] that runs with the lock held; returns
    [retval] and the new value of [*f_pos]. *)
Definition aesd_read_locked (buf count pos : Z) : ST world (Z * Z) :=
  found ← st_opt (fun w =>
    aesd_circular_buffer_find_entry_offset_for_fpos (buffer (aesd_device w)) (u64 pos));
  match found with
  | None => mret (0, pos)
  | Some (index, entry_offset_byte) =>
      e ← st_opt (fun w => entry_at (buffer (aesd_device w)) index);
      if entry_size e <=? entry_offset_byte then mret (0, pos)
      else
        let bytes_to_copy := count `min` (entry_size e -u64 entry_offset_byte) in
        not_copied ← do_copy_to_user buf (buffptr e) entry_offset_byte bytes_to_copy;
        if negb (not_copied =? 0) then mret (- EFAULT, pos)
        else mret (s64 bytes_to_copy, pos +s64 bytes_to_copy)
  end.

Definition aesd_read (filp : file) (buf count pos : Z) : ST world (Z * Z) :=
  _ ← get_dev filp;
  r ← lock_dev;
  if negb (r =? 0) then mret (- ERESTARTSYS, pos)
  else
    res ← aesd_read_locked buf count pos;
    _ ← unlock_dev;
    mret res.

Definition current : ST world aesd_buffer_entry :=
  st_gets (fun w => current_write_entry (aesd_device w)).
Definition assign_current (e : aesd_buffer_entry) : ST world unit :=
  st_modify (set_dev (set_current e)).

(** The first write of a command: allocate and copy.  Returns the error,
    if any, with which the handler leaves. *)
Definition write_first (buf count : Z) : ST world (option Z) :=
  cur ← current;
  p ← do_kzalloc count;
  _ ← assign_current (mk_entry p (entry_size cur));
  if p =? NULL then mret (Some (- ENOMEM))
  else
    not_copied ← do_copy_from_user p 0 buf count;
    if negb (not_copied =? 0) then
      _ ← do_kfree p;
      _ ← assign_current (mk_entry NULL 0);
      mret (Some (- EFAULT))
    else
      _ ← assign_current (mk_entry p count);
      mret None.

(** A further write to a command: grow the block and append. *)
Definition write_more (buf count : Z) : ST world (option Z) :=
  cur ← current;
  p ← do_krealloc (buffptr cur) (entry_size cur +u64 count);
  if p =? NULL then mret (Some (- ENOMEM))
  else
    _ ← assign_current (mk_entry p (entry_size cur));
    not_copied ← do_copy_from_user p (entry_size cur) buf count;
    if negb (not_copied =? 0) then
      _ ← do_kfree p;
      _ ← assign_current (mk_entry NULL 0);
      mret (Some (- EFAULT))
    else
      _ ← assign_current (mk_entry p (entry_size cur +u64 count));
      mret None.

(** Move a command that has its newline to the circular buffer.  Returns
    [retval]. *)
Definition write_commit (count : Z) : ST world Z :=
  cur ← current;
  nl ← do_memchr (buffptr cur) newline (entry_size cur);
  match nl with
  | Some _ =>
      let e := mk_entry (buffptr cur) (entry_size cur) in
      let retval := s64 (entry_size e) in
      '(removed, b) ← st_opt (fun w =>
        aesd_circular_buffer_add_entry (buffer (aesd_device w)) e);
      _ ← st_modify (set_dev (set_buffer b));
      _ ← (if negb (removed =? NULL) then do_kfree removed else mret tt);
      _ ← assign_current (mk_entry NULL 0);
      mret retval
  | None => mret (s64 count)
  end.

Definition aesd_write_locked (buf count pos : Z) : ST world (Z * Z) :=
  cur ← current;
  err ← (if buffptr cur =? NULL then write_first buf count else write_more buf count);
  match err with
  | Some e => mret (e, pos)
  | None =>
      retval ← write_commit count;
      mret (retval, pos +s64 retval)
  end.

Definition aesd_write (filp : file) (buf count pos : Z) : ST world (Z * Z) :=
  _ ← get_dev filp;
  r ← lock_dev;
  if negb (r =? 0) then mret (- ERESTARTSYS, pos)
  else
    res ← aesd_write_locked buf count pos;
    _ ← unlock_dev;
    mret res.

(** ** The table of operations *)

Record file_operations : Type := mk_fops {
  fop_owner : owner_ref;
  fop_read : file -> Z -> Z -> Z -> ST world (Z * Z);
  fop_write : file -> Z -> Z -> Z -> ST world (Z * Z);
  fop_llseek : file -> Z -> Z -> ST world (Z * file);
  fop_unlocked_ioctl : file -> Z -> Z -> ST world (Z * file);
  fop_open : inode -> file -> Z * file;
  fop_release : inode -> file -> Z * file;
}.

Definition aesd_fops : file_operations := {|
  fop_owner := OWNER_THIS_MODULE;
  fop_read := aesd_read;
  fop_write := aesd_write;
  fop_llseek := aesd_llseek;
  fop_unlocked_ioctl := aesd_ioctl;
  fop_open := aesd_open;
  fop_release := aesd_release;
|}.

(** ** Loading and unloading *)

Definition aesd_setup_cdev : ST world Z :=
  devno ← st_gets (fun w => MKDEV (aesd_major w) aesd_minor);
  _ ← st_modify (set_dev (set_cdev (mk_cdev OWNER_NULL OPS_AESD_FOPS 0)));
  _ ← st_modify (set_dev (fun d =>
        set_cdev (mk_cdev OWNER_THIS_MODULE (cdev_ops (cdev d)) (cdev_dev (cdev d))) d));
  _ ← st_modify (set_dev (fun d =>
        set_cdev (mk_cdev (cdev_owner (cdev d)) OPS_AESD_FOPS (cdev_dev (cdev d))) d));
  err ← on_kern (cdev_add devno 1);
  _ ← st_modify (set_dev (fun d =>
        set_cdev (mk_cdev (cdev_owner (cdev d)) (cdev_ops (cdev d)) devno) d));
  mret err.

(** The all-zero device. *)
Definition zero_dev : aesd_dev :=
  mk_dev (mk_cdev OWNER_NULL OPS_NULL 0) zero_buffer zero_entry mutex_zero.

Definition aesd_init_module : ST world Z :=
  '(result, dev) ← on_kern (alloc_chrdev_region aesd_minor 1);
  _ ← st_modify (fun w => mk_world (kern w) (aesd_device w) (MAJOR dev));
  if result <? 0 then mret result
  else
    _ ← st_modify (set_dev (fun _ => zero_dev));
    _ ← st_modify (set_dev (fun d => set_lock (mutex_init (lock d)) d));
    _ ← st_modify (set_dev (fun d => set_buffer (aesd_circular_buffer_init (buffer d)) d));
    result ← aesd_setup_cdev;
    _ ← (if negb (result =? 0)
         then st_modify (fun w => set_kern (unregister_chrdev_region dev 1 (kern w)) w)
         else mret tt);
    mret result.

(** The loop body of the cleanup frees the memory of an entry; an invalid
    pointer ends the run. *)
Definition cleanup_body (index : Z) (e : aesd_buffer_entry) (ok : option kst) :
    option kst * bool :=
  (k ← ok;
   if negb (buffptr e =? NULL)
   then _ ← blk k (buffptr e); Some (kfree (buffptr e) k)
   else Some k, true).

Definition aesd_cleanup_module : ST world unit :=
  devno ← st_gets (fun w => MKDEV (aesd_major w) aesd_minor);
  _ ← st_modify (fun w => set_kern (cdev_del (cdev_dev (cdev (aesd_device w))) (kern w)) w);
  _ ← st_modify (set_dev (fun d => set_lock (mutex_destroy (lock d)) d));
  k ← st_opt (fun w =>
    k ← AESD_CIRCULAR_BUFFER_FOREACH (buffer (aesd_device w)) cleanup_body (Some (kern w));
    k);
  _ ← st_modify (set_kern k);
  st_modify (fun w => set_kern (unregister_chrdev_region devno 1 (kern w)) w).
End driver.
