(* ===== verification/CharDriverSpec.v ===== *)
(** * Correctness of the character driver

    The abstract device [adev] is the list of the last ten commands and the
    bytes of the command being written.  [device_rep] relates it to the
    device structure and the kernel heap: the representation invariant.  For
    each handler of [CharDriver] there is a relation on abstract devices
    that says what it may return and do ([awrite], [aread], ...), and a
    refinement theorem: run in a state that represents an abstract device,
    the handler meets no undefined behaviour, releases the lock, and does
    what the relation allows; [footprint] says that it frees exactly the
    blocks it gives up and touches no block of anybody else. *)

From S2P Require Import Prelude CircularBuffer KernelApi CharDriver.

(** ** The abstract device *)

Record adev : Type := mk_adev {
  cmds : list (list byte);
  pending : list byte;
}.

(** The bytes a reader sees. *)
Definition stream (a : adev) : list byte := concat (cmds a).

(** What [write] may return for [data], and the device after it: nothing
    changes when the call is interrupted or memory runs out; a fault drops
    the bytes of the unfinished command; bytes without a newline extend that
    command; a newline anywhere ends it, with all the bytes that follow, and
    the result counts the bytes of the whole command. *)
Inductive awrite (a : adev) (data : list byte) : Z -> adev -> Prop :=
| awrite_interrupted : awrite a data (- ERESTARTSYS) a
| awrite_nomem : awrite a data (- ENOMEM) a
| awrite_fault : awrite a data (- EFAULT) (mk_adev (cmds a) [])
| awrite_partial : newline ∉ pending a ++ data ->
    awrite a data (zlen data) (mk_adev (cmds a) (pending a ++ data))
| awrite_commit : newline ∈ pending a ++ data ->
    awrite a data (zlen (pending a ++ data))
      (mk_adev (Fifo.push CAP (cmds a) (pending a ++ data)) []).

(** What [read] of [count] bytes at [pos] may return, with the bytes
    delivered: at most the rest of the command that holds [pos]. *)
Inductive aread (a : adev) (pos count : Z) : Z -> list byte -> Prop :=
| aread_interrupted : aread a pos count (- ERESTARTSYS) []
| aread_fault : aread a pos count (- EFAULT) []
| aread_end : zlen (stream a) <= pos -> aread a pos count 0 []
| aread_data i off c :
    locate (map (fun c => zlen c) (cmds a)) pos = Some (i, off) ->
    cmds a !! i = Some c ->
    let n := count `min` (zlen c - off) in
    aread a pos count n (take (Z.to_nat n) (drop (Z.to_nat off) c)).

(** ** Representation *)

Section rep.
Context {K : Kernel}.

(** Entry [e] owns a block with the bytes [bs]. *)
Definition entry_holds (k : kst) (e : aesd_buffer_entry) (bs : list byte) : Prop :=
  blk k (buffptr e) = Some bs /\ entry_size e = zlen bs.

Definition ptrs (b : aesd_circular_buffer) : list Z := buffptr <$> contents b.

Record buf_rep (k : kst) (b : aesd_circular_buffer) (cs : list (list byte)) : Prop := {
  buf_wf : cb_wf b;
  buf_holds : Forall2 (entry_holds k) (contents b) cs;
  buf_newline : Forall (fun c => newline ∈ c) cs;
  buf_max : Forall (fun e => entry_size e <= KMALLOC_MAX_SIZE) (contents b);
  buf_nodup : NoDup (ptrs b);
}.

(** The unfinished command: no block at all, or a block of its own; only
    an empty one is the shared block of zero bytes. *)
Definition pending_rep (k : kst) (b : aesd_circular_buffer) (e : aesd_buffer_entry)
    (pd : list byte) : Prop :=
  if decide (buffptr e = NULL) then entry_size e = 0 /\ pd = []
  else entry_holds k e pd /\ entry_size e <= KMALLOC_MAX_SIZE /\
       (pd = [] -> buffptr e = ZERO_SIZE_PTR) /\ buffptr e ∉ ptrs b.

Definition rep (k : kst) (d : aesd_dev) (a : adev) : Prop :=
  buf_rep k (buffer d) (cmds a) /\
  pending_rep k (buffer d) (current_write_entry d) (pending a).

(** Between handlers: the lock is free and the unfinished command has no
    newline yet. *)
Record device_rep (w : world) (a : adev) : Prop := {
  dev_unlocked : held (lock (aesd_device w)) = false;
  dev_rep : rep (kern w) (aesd_device w) a;
  dev_no_newline : newline ∉ pending a;
}.

#[export] Instance entry_holds_dec k e bs : Decision (entry_holds k e bs).
Proof. unfold entry_holds. apply _. Defined.

#[export] Instance buf_rep_dec k b cs : Decision (buf_rep k b cs).
Proof.
  refine (cast_if (decide (cb_wf b /\ Forall2 (entry_holds k) (contents b) cs /\
    Forall (fun c => newline ∈ c) cs /\
    Forall (fun e => entry_size e <= KMALLOC_MAX_SIZE) (contents b) /\ NoDup (ptrs b))));
    [by destruct_and!; split|intros [? ? ? ? ?]; tauto].
Defined.

#[export] Instance pending_rep_dec k b e pd : Decision (pending_rep k b e pd).
Proof. unfold pending_rep. case_decide; apply _. Defined.

#[export] Instance device_rep_dec w a : Decision (device_rep w a).
Proof.
  refine (cast_if (decide (held (lock (aesd_device w)) = false /\
    (buf_rep (kern w) (buffer (aesd_device w)) (cmds a) /\
     pending_rep (kern w) (buffer (aesd_device w)) (current_write_entry (aesd_device w))
       (pending a)) /\ newline ∉ pending a)));
    [by destruct_and!; split|intros [? [? ?] ?]; tauto].
Defined.

(** The addresses the device owns. *)
Definition owned (d : aesd_dev) : list Z :=
  ptrs (buffer d) ++
  (if decide (buffptr (current_write_entry d) = NULL) then []
   else [buffptr (current_write_entry d)]).

(** From [w] to [w']: blocks owned in neither are untouched, blocks given
    up are freed, blocks taken are new; the registration of the device is
    as it was. *)
Record footprint (w w' : world) : Prop := {
  fp_cdev : cdev (aesd_device w') = cdev (aesd_device w);
  fp_major : aesd_major w' = aesd_major w;
  fp_frame p : p ∉ owned (aesd_device w) -> p ∉ owned (aesd_device w') ->
    blk (kern w') p = blk (kern w) p;
  fp_freed p : p ∈ owned (aesd_device w) -> p ∉ owned (aesd_device w') ->
    p <> ZERO_SIZE_PTR -> blk (kern w') p = None;
  fp_new p : p ∉ owned (aesd_device w) -> p ∈ owned (aesd_device w') ->
    p <> ZERO_SIZE_PTR -> blk (kern w) p = None;
}.
End rep.

(** ** Lemmas about representations *)

Section rep_lemmas.
Context {K : Kernel} {KOk : KernelOk K}.

Lemma footprint_refl w : footprint w w.
Proof. by split. Qed.

Lemma footprint_trans w1 w2 w3 : footprint w1 w2 -> footprint w2 w3 -> footprint w1 w3.
Proof.
  intros [C1 D1 A1 A2 A3] [C2 D2 B1 B2 B3]. split; [congruence|congruence|..].
  - intros p H1 H3. destruct (decide (p ∈ owned (aesd_device w2))).
    + destruct (decide (p = ZERO_SIZE_PTR)) as [->|]; [by rewrite !blk_zero_size|].
      by rewrite B2, A3.
    + by rewrite B1, A1.
  - intros p H1 H3 Hz. destruct (decide (p ∈ owned (aesd_device w2))); [by apply B2|].
    by rewrite B1, A2.
  - intros p H1 H3 Hz. destruct (decide (p ∈ owned (aesd_device w2))); [by apply A3|].
    by rewrite <- A1, B3.
Qed.

(** A step that keeps the owned addresses and every block. *)
Lemma footprint_same w w' :
  cdev (aesd_device w') = cdev (aesd_device w) -> aesd_major w' = aesd_major w ->
  owned (aesd_device w') = owned (aesd_device w) ->
  same_heap (kern w) (kern w') -> footprint w w'.
Proof. intros Hc Hm HO HK. split; rewrite ?HO; [done|done|auto|done..]. Qed.

Lemma buf_rep_frame k k' b cs :
  (forall p, p ∈ ptrs b -> blk k' p = blk k p) -> buf_rep k b cs -> buf_rep k' b cs.
Proof.
  intros Hp [? Hh ? ? ?]. split; try done.
  apply Forall2_same_length_lookup. split; [by eapply Forall2_length|].
  intros i e c He Hc. destruct (Forall2_lookup_lr _ _ _ _ _ _ Hh He Hc) as [Hb Hs].
  split; [|done]. rewrite Hp; [done|]. by eapply list_elem_of_fmap_2, list_elem_of_lookup_2.
Qed.

Lemma pending_rep_frame k k' b e pd :
  (buffptr e <> NULL -> blk k' (buffptr e) = blk k (buffptr e)) ->
  pending_rep k b e pd -> pending_rep k' b e pd.
Proof.
  intros Hp. unfold pending_rep, entry_holds. case_decide; [done|]. by rewrite Hp.
Qed.

Lemma rep_frame k k' d a :
  (forall p, p ∈ owned d -> blk k' p = blk k p) -> rep k d a -> rep k' d a.
Proof.
  intros Hp [Hb Hq]. unfold owned in Hp. split.
  - eapply buf_rep_frame; [|done]. intros. apply Hp. set_solver.
  - eapply pending_rep_frame; [|done]. intros. apply Hp. rewrite decide_False by done. set_solver.
Qed.

(** A block of the circular buffer is live and is not empty. *)
Lemma buf_rep_live k b cs p : buf_rep k b cs -> p ∈ ptrs b ->
  p <> NULL /\ p <> ZERO_SIZE_PTR /\ is_Some (blk k p).
Proof.
  intros [_ Hh Hnl _ _] (e & -> & (i & He)%list_elem_of_lookup)%list_elem_of_fmap.
  destruct (Forall2_lookup_l _ _ _ _ _ Hh He) as (c & Hc & Hb & _).
  apply (Forall_lookup_1 _ _ _ _ Hnl) in Hc. split_and!; [by eapply blk_Some_not_null| |eauto].
  intros Hz. rewrite Hz, blk_zero_size in Hb. simplify_eq. set_solver.
Qed.

Lemma buf_rep_sizes k b cs : buf_rep k b cs ->
  sizes (contents b) = map (fun c => zlen c) cs.
Proof.
  intros [_ Hh _ _ _]. unfold sizes. induction Hh as [|e c es cs [_ Hs] _ IH]; simpl; congruence.
Qed.

Lemma buf_rep_bound k b cs : buf_rep k b cs -> sumZ (sizes (contents b)) <= 10 * KMALLOC_MAX_SIZE.
Proof.
  intros Hr. pose proof kmalloc_max_range. pose proof (contents_le_cap _ (buf_wf _ _ _ Hr)).
  assert (Forall (fun x => x <= KMALLOC_MAX_SIZE) (sizes (contents b))) as Hm.
  { apply Forall_fmap. eapply Forall_impl; [by eapply buf_max|]. done. }
  apply sumZ_bound in Hm. unfold sizes in *. rewrite length_map in Hm. nia.
Qed.

Lemma buf_rep_total k b cs : buf_rep k b cs ->
  sumZ (sizes (contents b)) = zlen (concat cs) /\ zlen (concat cs) <= 2 ^ 36.
Proof.
  intros Hr. pose proof (buf_rep_sizes _ _ _ Hr) as Hs. rewrite <- sumZ_lengths, <- Hs.
  side. pose proof kmalloc_max_range. pose proof (buf_rep_bound _ _ _ Hr). lia.
Qed.
End rep_lemmas.

(** ** Rules for the calls of kernel services *)

Section calls.
Context {K : Kernel} {KOk : KernelOk K}.
Implicit Types w : world.

Lemma wp_on_kern {A} (f : kst -> A * kst) Q w :
  (forall a k, f (kern w) = (a, k) -> Q a (set_kern k w)) -> wp (on_kern f) Q w.
Proof. intros H. unfold wp, on_kern. destruct (f (kern w)) as [a k]. by apply H. Qed.

Lemma wp_check_range p off n b Q w :
  blk (kern w) p = Some b -> 0 <= off -> 0 <= n -> off + n <= zlen b ->
  Q b w -> wp (check_range p off n) Q w.
Proof.
  intros Hb ? ? ? HQ. unfold check_range. wp_step. eapply wp_opt; [done|].
  rewrite decide_True by done. by wp_step.
Qed.

Lemma wp_do_kfree p Q w :
  is_Some (blk (kern w) p) -> Q tt (set_kern (kfree p (kern w)) w) ->
  wp (do_kfree p) Q w.
Proof. intros [b Hb] HQ. unfold do_kfree. wp_step. by eapply wp_opt. Qed.

Lemma wp_do_krealloc p n b Q w : blk (kern w) p = Some b ->
  (forall q k, krealloc p n (kern w) = (q, k) -> Q q (set_kern k w)) ->
  wp (do_krealloc p n) Q w.
Proof. intros Hb HQ. unfold do_krealloc. wp_step. eapply wp_opt; [done|]. apply wp_on_kern, HQ. Qed.

Lemma wp_do_copy_from_user dst off src n b Q w :
  blk (kern w) dst = Some b -> 0 <= off -> 0 <= n -> off + n <= zlen b ->
  (forall r k d, 0 <= r <= n -> zlen d = n -> (r = 0 -> d = ubytes (kern w) src n) ->
     blk k dst = Some (take (Z.to_nat off) b ++ d ++ drop (Z.to_nat (off + n)) b) ->
     (forall q, q <> dst -> blk k q = blk (kern w) q) ->
     Q r (set_kern k w)) ->
  wp (do_copy_from_user dst off src n) Q w.
Proof.
  intros Hb ? ? ? HQ. unfold do_copy_from_user. wp_step. eapply wp_check_range; [done..|].
  apply wp_on_kern. intros r k Hc.
  destruct (copy_from_user_ok dst off src n (kern w) b r k)
    as (? & d & ? & ? & ?); [done..|].
  eapply (HQ r k d); try done. intros q Hq.
  pose proof (copy_from_user_frame dst off src n (kern w) q Hq) as Hf. by rewrite Hc in Hf.
Qed.

Lemma wp_do_memchr p c n b Q w :
  blk (kern w) p = Some b -> zlen b = n -> Q (memchr_opt c b) w ->
  wp (do_memchr p c n) Q w.
Proof.
  intros Hb <- HQ. unfold do_memchr. wp_step. eapply wp_check_range; [done|lia..|].
  wp_step. by rewrite take_ge by lia.
Qed.

(** Taking the lock: interrupted, or held and nothing else changed. *)
Lemma wp_lock_dev Q w : held (lock (aesd_device w)) = false ->
  (forall r m k, same_heap (kern w) k -> same_user (kern w) k ->
     held m = (if r =? 0 then true else false) ->
     Q r (set_dev (set_lock m) (set_kern k w))) ->
  wp lock_dev Q w.
Proof.
  intros Hf HQ. unfold wp, lock_dev.
  destruct (mutex_lock_interruptible _ _) as [[r m] k] eqn:E.
  apply mutex_lock_ok in E as (H0 & H1 & ? & ?); [|done]. apply HQ; try done.
  destruct (Z.eqb_spec r 0); auto.
Qed.

Lemma wp_unlock_dev Q w : held (lock (aesd_device w)) = true ->
  (forall m, held m = false -> Q tt (set_dev (set_lock m) w)) -> wp unlock_dev Q w.
Proof. intros Hh HQ. unfold wp, unlock_dev. rewrite Hh. by apply HQ, mutex_unlock_ok. Qed.

Lemma wp_assign_current e Q w :
  Q tt (set_dev (set_current e) w) -> wp (assign_current e) Q w.
Proof. done. Qed.

Lemma wp_get_dev filp Q w : is_Some (private_data filp) -> Q tt w -> wp (get_dev filp) Q w.
Proof. intros [[] Hp] HQ. unfold get_dev. by rewrite Hp. Qed.
End calls.

(** ** The lock around a handler *)

Section locked.
Context {K : Kernel} {KOk : KernelOk K}.
Implicit Types w : world.

(** The shape every handler has: take the lock or return [err], run
    [body], release. *)
Definition with_lock {A} (err : A) (body : ST world A) : ST world A :=
  r ← lock_dev;
  if negb (r =? 0) then mret err
  else
    res ← body;
    _ ← unlock_dev;
    mret res.

(** What a body promises: it leaves the lock alone, keeps a
    representation, and its result and kernel state satisfy [R]. *)
Definition body_post {A} (R : A -> kst -> adev -> Prop) w (r : A) w' : Prop :=
  lock (aesd_device w') = lock (aesd_device w) /\ footprint w w' /\
  exists a', rep (kern w') (aesd_device w') a' /\ newline ∉ pending a' /\ R r (kern w') a'.

Definition locked_post {A} (R : A -> kst -> adev -> Prop) w (r : A) w' : Prop :=
  footprint w w' /\ exists a', device_rep w' a' /\ R r (kern w') a'.

Lemma with_lock_ok {A} (err : A) (body : ST world A) w a R :
  device_rep w a ->
  (forall k, same_heap (kern w) k -> same_user (kern w) k -> R err k a) ->
  (forall w1, rep (kern w1) (aesd_device w1) a -> same_user (kern w) (kern w1) ->
     buffer (aesd_device w1) = buffer (aesd_device w) ->
     wp body (body_post R w1) w1) ->
  wp (with_lock err body) (locked_post R w) w.
Proof.
  intros [Hun Hrep Hnl] Herr Hbody. unfold with_lock.
  apply wp_bind, wp_lock_dev; [done|]. intros r m k Hh Hu Hm.
  assert (rep k (set_lock m (aesd_device w)) a) as Hrep1.
  { eapply rep_frame; [by intros; apply Hh|]. by destruct Hrep. }
  assert (footprint w (set_dev (set_lock m) (set_kern k w))) as Hfp1 by by apply footprint_same.
  destruct (Z.eqb_spec r 0) as [->|Hr]; cbn [negb].
  - apply wp_bind. eapply wp_mono; [by apply Hbody|].
    intros res w' (Hl & Hfp & a' & Hrep' & Hnl' & HR). simpl in *.
    apply wp_bind, wp_unlock_dev; [by rewrite Hl|]. intros m' Hm'. wp_step.
    split; [|by exists a'].
    eapply footprint_trans; [exact Hfp1|]. eapply footprint_trans; [exact Hfp|].
    by apply footprint_same.
  - wp_step. side. exists a. split; [by split|]. by apply Herr.
Qed.
End locked.

(** ** Writing *)

Section write.
Context {K : Kernel} {KOk : KernelOk K}.
Implicit Types w : world.

(** What the two ways to extend the unfinished command by [data] leave:
    an error and the state it stands for, or the longer command, its
    newline not yet looked for. *)
Definition extend_post w (a : adev) (data : list byte) (r : option Z) w' : Prop :=
  lock (aesd_device w') = lock (aesd_device w) /\ footprint w w' /\
  match r with
  | None => rep (kern w') (aesd_device w') (mk_adev (cmds a) (pending a ++ data)) /\
            buffptr (current_write_entry (aesd_device w')) <> NULL
  | Some e => (e = - ENOMEM /\ rep (kern w') (aesd_device w') a) \/
              (e = - EFAULT /\ rep (kern w') (aesd_device w') (mk_adev (cmds a) []))
  end.

Lemma elem_of_owned p d :
  p ∈ owned d <-> p ∈ ptrs (buffer d) \/ (p <> NULL /\ p = buffptr (current_write_entry d)).
Proof.
  unfold owned. rewrite elem_of_app. case_decide.
  - rewrite elem_of_nil. naive_solver.
  - rewrite list_elem_of_singleton. naive_solver.
Qed.

(** Replacing the unfinished command's block: [cp] is the address before
    and [cp'] the one after. *)
Lemma footprint_current w w' :
  let cp := buffptr (current_write_entry (aesd_device w)) in
  let cp' := buffptr (current_write_entry (aesd_device w')) in
  cdev (aesd_device w') = cdev (aesd_device w) -> aesd_major w' = aesd_major w ->
  buffer (aesd_device w') = buffer (aesd_device w) ->
  (forall p, p <> cp -> p <> cp' -> blk (kern w') p = blk (kern w) p) ->
  (cp <> cp' -> cp <> NULL -> cp <> ZERO_SIZE_PTR -> blk (kern w') cp = None) ->
  (cp' <> cp -> cp' <> NULL -> cp' <> ZERO_SIZE_PTR -> blk (kern w) cp' = None) ->
  footprint w w'.
Proof.
  intros cp cp' Hcd Hmj Hb Hout Hold Hnew. split; [done|done|..];
    intros p; rewrite !elem_of_owned, Hb; fold cp; fold cp'; intros H1 H2.
  - destruct (decide (p = NULL)) as [->|]; [by rewrite !blk_null|].
    apply Hout; naive_solver.
  - intros Hz. destruct H1 as [?|[? ->]]; [naive_solver|]. apply Hold; naive_solver.
  - intros Hz. destruct H2 as [?|[? ->]]; [naive_solver|]. apply Hnew; naive_solver.
Qed.

(** The end of both ways to extend the command: copy [count] bytes to the
    end of the block at [p], or free it. *)
Definition copy_or_drop (p off size' buf count : Z) : ST world (option Z) :=
  not_copied ← do_copy_from_user p off buf count;
  if negb (not_copied =? 0) then
    _ ← do_kfree p;
    _ ← assign_current (mk_entry NULL 0);
    mret (Some (- EFAULT))
  else
    _ ← assign_current (mk_entry p size');
    mret None.

Lemma copy_or_drop_ok w p off size' buf count old tl Q :
  blk (kern w) p = Some (old ++ tl) -> zlen old = off -> zlen tl = count ->
  (forall k, blk k p = Some (old ++ ubytes (kern w) buf count) ->
     (forall q, q <> p -> blk k q = blk (kern w) q) ->
     Q None (set_dev (set_current (mk_entry p size')) (set_kern k w))) ->
  (forall k, (p <> ZERO_SIZE_PTR -> blk k p = None) ->
     (forall q, q <> p -> blk k q = blk (kern w) q) ->
     Q (Some (- EFAULT)) (set_dev (set_current (mk_entry NULL 0)) (set_kern k w))) ->
  wp (copy_or_drop p off size' buf count) Q w.
Proof.
  intros Hb Hoff Hcount Hok Hfail. unfold copy_or_drop, assign_current. wp_step.
  eapply wp_do_copy_from_user; [done|lia|lia|rewrite length_app; lia|].
  intros r k d Hr Hd Hdata Hk Hfr.
  rewrite take_app_le, take_ge in Hk by lia.
  rewrite (drop_ge _ (Z.to_nat (off + count))), app_nil_r in Hk by (rewrite length_app; lia).
  destruct (Z.eqb_spec r 0) as [->|Hr0]; simpl; wp_steps.
  - apply Hok; [|done]. by rewrite <- Hdata.
  - apply wp_do_kfree; [simpl; eauto|]. wp_steps. apply (Hfail (kfree p k)).
    + intros. apply kfree_ok; eauto.
    + intros q Hq. by rewrite kfree_frame, Hfr.
Qed.

(** An address with no block is not in the buffer. *)
Lemma buf_rep_not_live k b cs p :
  buf_rep k b cs -> (p <> ZERO_SIZE_PTR -> blk k p = None) -> p ∉ ptrs b.
Proof.
  intros Hbuf Hno Hin. destruct (buf_rep_live _ _ _ _ Hbuf Hin) as (_ & Hnz & [x Hx]).
  by rewrite Hno in Hx.
Qed.

Lemma write_first_ok w a buf count :
  rep (kern w) (aesd_device w) a ->
  buffptr (current_write_entry (aesd_device w)) = NULL -> 0 <= count ->
  wp (write_first buf count) (extend_post w a (ubytes (kern w) buf count)) w.
Proof.
  destruct w as [k [c b [cp csz] m] mj]. intros [Hbuf Hpend] Hnull Hcount. simpl in *. subst cp.
  unfold pending_rep in Hpend. simpl in Hpend. destruct Hpend as [-> Hpd].
  unfold write_first, current. do 3 wp_step.
  apply wp_on_kern. intros p k1 Hk. simpl in Hk.
  apply wp_bind, wp_assign_current. simpl.
  pose proof (kzalloc_frame count k) as Hfr. pose proof (kzalloc_user count k) as Hu1.
  rewrite Hk in Hfr, Hu1. simpl in Hfr, Hu1.
  destruct (Z.eqb_spec p NULL) as [->|Hp].
  - wp_step. side. split; [by apply footprint_current; simpl; auto|]. left. side. split; [|done].
    eapply buf_rep_frame; [|done]. intros q Hq. apply Hfr. by eapply buf_rep_live.
  - destruct (kzalloc_ok _ _ _ _ Hcount Hk Hp) as (Hmax & Hb & Hz0 & Hz1).
    assert (p <> ZERO_SIZE_PTR -> blk k p = None) as Hnew by naive_solver.
    assert (p ∉ ptrs b) as Hpb by by eapply buf_rep_not_live.
    eapply (copy_or_drop_ok _ p 0 count buf count []); simpl; [done|done| | |].
    + rewrite length_replicate. lia.
    + intros k2 Hb2 Hfr2. side. split.
      { apply footprint_current; simpl; try done. intros. by rewrite Hfr2, Hfr. }
      split; [|done]. simpl. rewrite Hpd. split; simpl.
      * eapply buf_rep_frame; [|done]. intros q Hq. rewrite Hfr2, Hfr; set_solver.
      * unfold pending_rep, entry_holds. simpl. rewrite decide_False, <- Hu1 by done.
        rewrite ubytes_length by done. split_and!; try done. intros Hd. apply Hz0.
        by rewrite <- (ubytes_length k1 buf count), Hd.
    + intros k2 Hz2 Hfr2.
      assert (same_heap k k2) as Hs.
      { intros q. destruct (decide (q = p)) as [->|]; [|by rewrite Hfr2, Hfr].
        destruct (decide (p = ZERO_SIZE_PTR)) as [->|]; [by rewrite !blk_zero_size|].
        by rewrite Hz2, Hnew. }
      side. split; [by apply footprint_same|]. right. side.
      eapply rep_frame with (k := k); [by intros; apply Hs|]. by split.
Qed.

Lemma write_more_ok w a buf count :
  rep (kern w) (aesd_device w) a ->
  buffptr (current_write_entry (aesd_device w)) <> NULL -> 0 <= count < 2 ^ 63 ->
  wp (write_more buf count) (extend_post w a (ubytes (kern w) buf count)) w.
Proof.
  destruct w as [k [c b [cp csz] m] mj]. intros [Hbuf Hpend] Hnn Hcount. simpl in *.
  unfold pending_rep in Hpend. simpl in Hpend. rewrite decide_False in Hpend by done.
  destruct Hpend as ([Hblk Hsz] & Hmax & Hz & Hcb). simpl in *.
  pose proof kmalloc_max_range as HM. unfold write_more, current. do 2 wp_step.
  cbn [buffptr entry_size current_write_entry aesd_device].
  rewrite (u64_small (csz + count)) by lia. wp_step.
  eapply wp_do_krealloc; [done|]. intros q k1 Hk. simpl in Hk |- *.
  pose proof (krealloc_user cp (csz + count) k) as Hu1. rewrite Hk in Hu1. simpl in Hu1.
  destruct (Z.eqb_spec q NULL) as [->|Hq].
  { wp_step. pose proof (krealloc_fail cp (csz + count) k (pending a)) as Hs. rewrite Hk in Hs.
    specialize (Hs Hblk ltac:(lia) eq_refl). simpl in Hs.
    side. split; [by apply footprint_same|]. left. side.
    eapply rep_frame with (k := k); [by intros; apply Hs|]. side.
    unfold pending_rep. simpl. by rewrite decide_False by done. }
  apply wp_bind, wp_assign_current.
  destruct (krealloc_ok cp (csz + count) k (pending a) q k1)
    as (Hmax1 & (tl & Hb1 & Htl) & Hz0 & Hz1 & Hqp & Hfr); [done|lia| |done..|].
  { intros. apply Hz. destruct (pending a); [done|simpl in *; lia]. }
  rewrite length_app in Htl.
  assert (q ∉ ptrs b) as Hqb.
  { destruct (decide (q = cp)) as [->|Hne]; [done|]. eapply buf_rep_not_live; [done|].
    intros _. by apply Hqp. }
  eapply (copy_or_drop_ok _ q csz (csz + count) buf count (pending a) tl); simpl;
    [done|done|lia| |]; intros k2 Hb2 Hfr2; (side); split.
  - apply footprint_current; simpl; try done.
    + intros. by rewrite Hfr2, Hfr.
    + intros. rewrite Hfr2 by done. by apply Hqp.
    + intros. by apply Hqp.
  - split; [split; simpl|done].
    + eapply buf_rep_frame; [|done]. intros p Hp. rewrite Hfr2, Hfr; set_solver.
    + unfold pending_rep, entry_holds. simpl. rewrite decide_False, <- Hu1, length_app by done.
      rewrite Nat2Z.inj_add, ubytes_length by lia. split_and!; try done; [lia|].
      intros [Hp0 Hd0]%app_eq_nil. apply Hz0. rewrite Hp0 in Hsz.
      rewrite <- (ubytes_length k1 buf count), Hd0 by lia. simpl in *. lia.
  - apply footprint_current; simpl; try done.
    + intros p Hp _. destruct (decide (p = q)) as [->|]; [|by rewrite Hfr2, Hfr].
      destruct (decide (q = ZERO_SIZE_PTR)) as [->|]; [by rewrite !blk_zero_size|].
      rewrite Hb2 by done. symmetry. by apply Hqp.
    + intros _ _ Hcz. destruct (decide (cp = q)) as [->|]; [by apply Hb2|].
      rewrite Hfr2 by done. by apply Hqp.
  - right. side. split; [simpl|done].
    eapply buf_rep_frame; [|done]. intros p Hp. rewrite Hfr2, Hfr; set_solver.
Qed.

(** A command joins the buffer: its block changes hands, the block of the
    evicted command, if any, is no longer needed. *)
Lemma buf_rep_push k k' b b' cs e c :
  buf_rep k b cs -> entry_holds k e c -> newline ∈ c ->
  entry_size e <= KMALLOC_MAX_SIZE -> buffptr e ∉ ptrs b ->
  cb_wf b' -> contents b' = Fifo.push CAP (contents b) e ->
  (forall p, Some p <> buffptr <$> Fifo.evicted CAP (contents b) -> blk k' p = blk k p) ->
  buf_rep k' b' (Fifo.push CAP cs c).
Proof.
  intros [Hwf Hh Hnl Hmax Hnd] He Hc Hem Hep Hwf' Hc' Hk. unfold ptrs in *.
  pose proof (contents_le_cap b Hwf) as Hcap. pose proof (Forall2_length _ _ _ Hh) as Hlen.
  destruct (Fifo.push_cases CAP cs c ltac:(lia) ltac:(lia)) as [(Hl&_&Hcs)|(cy&cr&->&Hl&_&Hcs)];
    destruct (Fifo.push_cases CAP (contents b) e ltac:(lia) Hcap)
      as [(?&Hev&Hp)|(y&r&Hyr&?&Hev&Hp)]; try lia;
    rewrite Hcs; rewrite Hev in Hk; rewrite Hp in Hc'.
  - split; unfold ptrs; rewrite ?Hc'; try done.
    + apply Forall2_app; [|constructor; [|done]].
      * eapply Forall2_impl; [done|]. intros x y [? ?]. split; [by rewrite Hk|done].
      * destruct He. split; [by rewrite Hk|done].
    + apply Forall_app; auto.
    + apply Forall_app; auto.
    + rewrite fmap_app. apply NoDup_app. split_and!; [done| |apply NoDup_singleton].
      intros x Hx ->%list_elem_of_singleton. done.
  - rewrite Hyr in *. simpl in *. apply NoDup_cons in Hnd as [Hny Hnd].
    apply Forall2_cons in Hh as [_ Hh]. apply Forall_cons in Hnl as [_ Hnl].
    apply Forall_cons in Hmax as [_ Hmax]. apply not_elem_of_cons in Hep as [Hey Hep].
    split; unfold ptrs; rewrite ?Hc'; try done.
    + apply Forall2_app; [|constructor; [|done]].
      * apply Forall2_same_length_lookup. split; [by eapply Forall2_length|].
        intros i x z Hx Hz. destruct (Forall2_lookup_lr _ _ _ _ _ _ Hh Hx Hz) as [Hb Hs].
        split; [|done]. rewrite Hk; [done|]. intros [= Heq]. apply Hny. rewrite <- Heq.
        by eapply list_elem_of_fmap_2, list_elem_of_lookup_2.
      * destruct He. split; [|done]. rewrite Hk; [done|]. by intros [= Heq].
    + apply Forall_app; auto.
    + apply Forall_app; auto.
    + rewrite fmap_app. apply NoDup_app. split_and!; [done| |apply NoDup_singleton].
      intros x Hx ->%list_elem_of_singleton. done.
Qed.

Definition commit_post w (a : adev) (count ret : Z) w' : Prop :=
  lock (aesd_device w') = lock (aesd_device w) /\ footprint w w' /\
  ((newline ∉ pending a /\ ret = s64 count /\ w' = w) \/
   (newline ∈ pending a /\ ret = zlen (pending a) /\
    rep (kern w') (aesd_device w')
      (mk_adev (Fifo.push CAP (cmds a) (pending a)) []))).

Lemma free_removed_ok w (o : option aesd_buffer_entry) Q :
  (forall e, o = Some e -> buffptr e <> NULL /\ is_Some (blk (kern w) (buffptr e))) ->
  (forall k, (forall p, Some p <> buffptr <$> o -> blk k p = blk (kern w) p) ->
     (forall e, o = Some e -> buffptr e <> ZERO_SIZE_PTR -> blk k (buffptr e) = None) ->
     Q tt (set_kern k w)) ->
  wp (if negb (default NULL (buffptr <$> o) =? NULL)
      then do_kfree (default NULL (buffptr <$> o)) else mret tt) Q w.
Proof.
  intros Hlive HQ. destruct o as [e|]; simpl.
  - destruct (Hlive e eq_refl) as [Hn Hb]. rewrite (proj2 (Z.eqb_neq _ _) Hn). simpl.
    apply wp_do_kfree; [done|]. apply HQ.
    + intros p Hp. apply kfree_frame. by intros ->.
    + intros e' [= <-] Hz. by apply kfree_ok.
  - wp_step. destruct w as [k d mj]. by apply (HQ k).
Qed.

Lemma footprint_commit w w' :
  let e := current_write_entry (aesd_device w) in
  let q := contents (buffer (aesd_device w)) in
  cdev (aesd_device w') = cdev (aesd_device w) -> aesd_major w' = aesd_major w ->
  buffptr e <> NULL -> buffptr e ∉ ptrs (buffer (aesd_device w)) ->
  NoDup (ptrs (buffer (aesd_device w))) -> (length q <= CAP)%nat ->
  buffptr (current_write_entry (aesd_device w')) = NULL ->
  contents (buffer (aesd_device w')) = Fifo.push CAP q e ->
  (forall p, Some p <> buffptr <$> Fifo.evicted CAP q -> blk (kern w') p = blk (kern w) p) ->
  (forall y, Fifo.evicted CAP q = Some y -> buffptr y <> ZERO_SIZE_PTR ->
     blk (kern w') (buffptr y) = None) ->
  footprint w w'.
Proof.
  intros e q Hcd Hmj He Heb Hnd Hcap Hnull Hc Hfr Hy. unfold ptrs in *. fold q in Heb, Hnd.
  destruct (Fifo.push_cases CAP q e ltac:(lia) Hcap) as [(?&Hev&Hp)|(y&r&Hyr&?&Hev&Hp)];
    rewrite Hev in *; rewrite Hp in Hc.
  - apply footprint_same; [done|done| |intros p; apply Hfr; by simpl]. unfold owned, ptrs.
    rewrite Hc, Hnull, fmap_app. fold e; fold q. rewrite decide_True by done.
    rewrite decide_False by done. by rewrite app_nil_r.
  - rewrite Hyr in Hnd, Heb. simpl in Hnd, Heb. apply NoDup_cons in Hnd as [Hny _].
    assert (forall p, p ∈ owned (aesd_device w') <-> p ∈ buffptr <$> r \/ p = buffptr e) as Ho'.
    { intros p. rewrite elem_of_owned, Hnull. unfold ptrs. rewrite Hc, fmap_app, elem_of_app.
      simpl. rewrite list_elem_of_singleton. naive_solver. }
    assert (forall p, p ∈ owned (aesd_device w) <->
              p = buffptr y \/ p ∈ buffptr <$> r \/ p = buffptr e) as Ho.
    { intros p. rewrite elem_of_owned. unfold ptrs. fold q. fold e. rewrite Hyr. simpl.
      rewrite elem_of_cons. naive_solver. }
    split; [done|done|..]; intros p; rewrite Ho, Ho'.
    + intros Hp1 Hp2. apply Hfr. naive_solver.
    + intros [->|?] ? ?; [by apply Hy|done].
    + naive_solver.
Qed.

Lemma write_commit_ok w a count :
  rep (kern w) (aesd_device w) a ->
  buffptr (current_write_entry (aesd_device w)) <> NULL ->
  wp (write_commit count) (commit_post w a count) w.
Proof.
  destruct w as [k [c b [cp csz] m] mj]. intros [Hbuf Hpend] Hnn. simpl in *.
  unfold pending_rep in Hpend. simpl in Hpend. rewrite decide_False in Hpend by done.
  destruct Hpend as ([Hblk Hsz] & Hmax & Hz & Hcb). simpl in *.
  pose proof kmalloc_max_range as HM. unfold write_commit, current. do 2 wp_step.
  cbn [buffptr entry_size current_write_entry aesd_device].
  wp_step. eapply wp_do_memchr; [done|done|]. unfold commit_post.
  destruct (memchr_opt newline (pending a)) as [i|] eqn:Hnl.
  - assert (newline ∈ pending a) as Hin by (apply memchr_opt_Some; eauto).
    destruct (add_entry_correct b (mk_entry cp csz) (buf_wf _ _ _ Hbuf))
      as (b' & Hadd & Hwf' & Hc'); [simpl; lia|].
    wp_step. eapply wp_opt; [exact Hadd|]. cbv beta iota.
    do 2 wp_step. cbn [entry_size]. rewrite s64_small by lia.
    pose proof (contents_le_cap b (buf_wf _ _ _ Hbuf)) as Hcap.
    assert (forall y, Fifo.evicted CAP (contents b) = Some y ->
              buffptr y ∈ ptrs b) as Hold.
    { unfold Fifo.evicted, ptrs. intros y. case_decide; [done|].
      destruct (contents b); simpl; [done|]. intros [= ->]. set_solver. }
    apply wp_bind, free_removed_ok.
    { intros y Hy%Hold. destruct (buf_rep_live _ _ _ _ Hbuf Hy) as (? & ? & ?). done. }
    intros k' Hfr Hy. apply wp_bind, wp_assign_current. wp_steps. simpl in *.
    side. split; [|right; split_and!; try done].
    + apply footprint_commit; try done. by eapply buf_nodup.
    + split; [simpl|done]. by eapply (buf_rep_push k k' b b' _ (mk_entry cp csz)).
  - apply memchr_opt_None in Hnl. wp_steps.
    side. split; [apply footprint_refl|]. by left.
Qed.

(** [*f_pos] after a call that returned [ret]. *)
Definition advance_pos (pos ret : Z) : Z := if ret <? 0 then pos else pos +s64 ret.

Definition write_result (a : adev) (data : list byte) (pos : Z) (r : Z * Z)
    (k : kst) (a' : adev) : Prop :=
  awrite a data r.1 a' /\ r.2 = advance_pos pos r.1.

Lemma aesd_write_locked_ok w a buf count pos :
  rep (kern w) (aesd_device w) a -> newline ∉ pending a -> 0 <= count < 2 ^ 63 ->
  wp (aesd_write_locked buf count pos)
    (body_post (write_result a (ubytes (kern w) buf count) pos) w) w.
Proof.
  intros Hrep Hnl Hcount. unfold aesd_write_locked, current. do 3 wp_step.
  set (data := ubytes (kern w) buf count).
  assert (zlen data = count) as Hlen by (apply ubytes_length; lia).
  apply wp_mono with (P := extend_post w a data).
  { destruct (Z.eqb_spec (buffptr (current_write_entry (aesd_device w))) NULL);
      [apply write_first_ok|apply write_more_ok]; done || lia. }
  intros [e|] w1 (Hl1 & Hfp1 & H1); wp_steps.
  - side. side. destruct H1 as [[-> H1]|[-> H1]].
    + exists a. split_and!; try done. by split; [constructor|].
    + exists (mk_adev (cmds a) []). split_and!; try done; [set_solver|].
      by split; [constructor|].
  - destruct H1 as [H1 Hnn].
    apply wp_mono with (P := commit_post w1 (mk_adev (cmds a) (pending a ++ data)) count).
    { by apply write_commit_ok. }
    intros ret w2 (Hl2 & Hfp2 & H2). wp_step. split; [congruence|].
    split; [by eapply footprint_trans|]. unfold write_result, advance_pos. simpl in *.
    destruct H2 as [(Hno & Hret & ->)|(Hyes & Hret & H2)].
    + rewrite s64_small in Hret by lia. rewrite Hret, <- Hlen.
      destruct (Z.ltb_spec (zlen data) 0); [lia|].
      exists (mk_adev (cmds a) (pending a ++ data)). split_and!; try done. by constructor.
    + rewrite Hret. destruct (Z.ltb_spec (zlen (pending a ++ data)) 0); [lia|].
      eexists. side. split_and!; try done; [set_solver|]. by constructor.
Qed.

Lemma aesd_write_correct w a filp buf count pos :
  device_rep w a -> is_Some (private_data filp) -> 0 <= count < 2 ^ 63 ->
  wp (aesd_write filp buf count pos)
    (locked_post (write_result a (ubytes (kern w) buf count) pos) w) w.
Proof.
  intros Hdev Hopen Hcount. apply wp_bind, wp_get_dev; [done|].
  apply (with_lock_ok (- ERESTARTSYS, pos) (aesd_write_locked buf count pos) w a); [done| |].
  - intros. by split; [apply awrite_interrupted|].
  - intros w1 Hrep Hu _. rewrite <- (Hu buf count).
    apply aesd_write_locked_ok; [done|by apply (dev_no_newline w)|done].
Qed.
End write.

(** ** Reading *)

Section read.
Context {K : Kernel} {KOk : KernelOk K}.
Implicit Types w : world.

(** A lookup in a buffer that represents [cs] finds the command that holds
    the position. *)
Lemma buf_rep_locate k b cs pos :
  buf_rep k b cs -> 0 <= pos < 2 ^ 63 ->
  exists r, aesd_circular_buffer_find_entry_offset_for_fpos b pos = Some r /\
    match locate (map (fun c => zlen c) cs) pos with
    | None => r = None /\ zlen (concat cs) <= pos
    | Some (j, o) => exists idx e c, r = Some (idx, o) /\ entry_at b idx = Some e /\
        cs !! j = Some c /\ entry_holds k e c /\ 0 <= o < zlen c
    end.
Proof.
  intros Hr Hpos. destruct (buf_rep_total _ _ _ Hr) as [Htot Hmax].
  pose proof (buf_wf _ _ _ Hr) as Hwf. eexists. split.
  { apply find_entry_correct; [done|lia|lia]. }
  unfold find_spec. rewrite (buf_rep_sizes _ _ _ Hr).
  assert (Forall (fun x => 0 <= x) (map (fun c : list byte => zlen c) cs)) as Hnn.
  { apply Forall_fmap, Forall_true. simpl. lia. }
  destruct (locate _ pos) as [[j o]|] eqn:E.
  - apply locate_Some in E as (s & Hj & Ho & _); [|done|lia].
    apply list_lookup_fmap_Some in Hj as (c & -> & Hc).
    destruct (Forall2_lookup_r _ _ _ _ _ (buf_holds _ _ _ Hr) Hc) as (e & He & Hh).
    eexists _, e, c. side. split; [|done].
    rewrite entry_at_lookup by (apply Z.mod_pos_bound; lia).
    rewrite <- contents_lookup; [done..|by eapply lookup_lt_Some].
  - apply locate_None in E; [|done|lia]. side. by rewrite <- sumZ_lengths.
Qed.

Definition read_result (a : adev) (buf count pos : Z) (r : Z * Z) (k : kst) (a' : adev) : Prop :=
  a' = a /\ r.2 = advance_pos pos r.1 /\
  exists data, aread a pos count r.1 data /\ (0 <= r.1 -> ubytes k buf r.1 = data).

Lemma aesd_read_locked_ok w a buf count pos :
  rep (kern w) (aesd_device w) a -> newline ∉ pending a ->
  0 <= count < 2 ^ 63 -> 0 <= pos < 2 ^ 63 ->
  wp (aesd_read_locked buf count pos) (body_post (read_result a buf count pos) w) w.
Proof.
  intros Hrep Hnl Hcount Hpos. destruct (Hrep) as [Hbuf _].
  pose proof (buf_rep_total _ _ _ Hbuf) as [_ Htot].
  destruct (buf_rep_locate _ _ _ pos Hbuf Hpos) as (found & Hf & Hloc).
  unfold aesd_read_locked. rewrite u64_small by lia. wp_step. eapply wp_opt; [done|].
  assert (forall data, aread a pos count 0 data -> data = [] ->
            body_post (read_result a buf count pos) w (0, pos) w) as Hzero.
  { intros data Hd ->. side. split; [apply footprint_refl|]. exists a.
    split_and!; try done. unfold read_result, advance_pos. simpl. rewrite Z.add_0_r, s64_small by lia.
    split_and!; try done. exists []. side. intros _.
    apply length_zero_iff_nil. pose proof (ubytes_length (kern w) buf 0). lia. }
  destruct (locate _ pos) as [[j o]|] eqn:E.
  - destruct Hloc as (idx & e & c & -> & Hat & Hc & [Hb Hs] & Ho).
    wp_step. eapply wp_opt; [done|]. rewrite Hs.
    destruct (Z.leb_spec (zlen c) o); [lia|].
    assert (zlen c <= 2 ^ 36).
    { rewrite <- Hs. pose proof (buf_max _ _ _ Hbuf) as Hm. pose proof kmalloc_max_range.
      destruct (Forall2_lookup_r _ _ _ _ _ (buf_holds _ _ _ Hbuf) Hc) as (e' & He' & [_ Hs']).
      rewrite Hs, <- Hs'. pose proof (Forall_lookup_1 _ _ _ _ Hm He'). simpl in *. lia. }
    rewrite u64_small by lia. set (n := count `min` (zlen c - o)). wp_step.
    unfold do_copy_to_user. wp_step. eapply wp_check_range; [done|lia..|].
    apply wp_on_kern. intros r k' Hcopy.
    destruct (copy_to_user_ok buf (buffptr e) o n (kern w) c r k') as [Hr Hdata]; [done|lia..|done|].
    pose proof (copy_to_user_heap buf (buffptr e) o n (kern w)) as Hh. rewrite Hcopy in Hh. simpl in Hh.
    assert (body_post (fun _ _ a' => a' = a) w tt (set_kern k' w)) as (Hl & Hfp & a1 & Hrep1 & _ & ->).
    { side. split; [by apply footprint_same|]. exists a. split_and!; try done.
      eapply rep_frame; [by intros; apply Hh|done]. }
    destruct (Z.eqb_spec r 0) as [->|Hr0]; cbn [negb]; wp_step;
      (side; side; exists a; side; side).
    + rewrite s64_small by lia. unfold read_result, advance_pos. simpl.
      destruct (Z.ltb_spec n 0); [lia|]. split_and!; try done.
      eexists. split; [by eapply aread_data|]. intros _. by rewrite Hdata.
    + split_and!; try done. exists []. split; [constructor|]. simpl. unfold EFAULT. lia.
  - destruct Hloc as [-> Hend]. wp_step. eapply Hzero; [|done]. by constructor.
Qed.

Lemma aesd_read_correct w a filp buf count pos :
  device_rep w a -> is_Some (private_data filp) ->
  0 <= count < 2 ^ 63 -> 0 <= pos < 2 ^ 63 ->
  wp (aesd_read filp buf count pos) (locked_post (read_result a buf count pos) w) w.
Proof.
  intros Hdev Hopen Hcount Hpos. apply wp_bind, wp_get_dev; [done|].
  apply (with_lock_ok (- ERESTARTSYS, pos) (aesd_read_locked buf count pos) w a); [done| |].
  - intros. split_and!; try done. exists []. split; [constructor|]. simpl. unfold ERESTARTSYS. lia.
  - intros w1 Hrep Hu _.
    apply aesd_read_locked_ok; [done|by apply (dev_no_newline w)|done|done].
Qed.
End read.

(** ** Seeking *)

Section seek.
Context {K : Kernel} {KOk : KernelOk K}.
Implicit Types w : world.

(** The position a call of [llseek] asks for in a stream of [size] bytes. *)
Definition seek_target (pos offset whence size : Z) : option Z :=
  if whence =? SEEK_SET then Some offset
  else if whence =? SEEK_CUR then Some (pos + offset)
  else if whence =? SEEK_END then Some (size + offset)
  else None.

Definition allseek (pos offset whence size : Z) : Z * Z :=
  if decide (whence = SEEK_CUR /\ offset = 0) then (pos, pos)
  else match seek_target pos offset whence size with
  | Some t => if decide (0 <= t <= size) then (t, t) else (- EINVAL, pos)
  | None => (- EINVAL, pos)
  end.

Definition llseek_result (a : adev) (filp : file) (offset whence : Z) (r : Z * file)
    (k : kst) (a' : adev) : Prop :=
  a' = a /\
  (r = (- ERESTARTSYS, filp) \/
   let '(ret, pos) := allseek (f_pos filp) offset whence (zlen (stream a)) in
   r = (ret, mk_file pos (private_data filp))).

Lemma fixed_size_llseek_eq pos offset whence size :
  0 <= size < 2 ^ 63 -> 0 <= pos < 2 ^ 63 ->
  fixed_size_llseek pos offset whence size = allseek pos offset whence size.
Proof.
  intros Hs Hp. unfold allseek, seek_target. case_decide as Hq; [destruct Hq as [-> ->]; apply llseek_query|].
  destruct (Z.eqb_spec whence SEEK_SET) as [->|]; [apply llseek_ok; auto|].
  destruct (Z.eqb_spec whence SEEK_CUR) as [->|]; [apply llseek_ok; auto|].
  destruct (Z.eqb_spec whence SEEK_END) as [->|]; [apply llseek_ok; auto|].
  by apply llseek_bad_whence.
Qed.

(** The part of [aesd_llseek] that runs with the lock held. *)
Definition llseek_body (filp : file) (offset whence : Z) : ST world (Z * file) :=
  size ← st_opt (fun w => aesd_circular_buffer_size (buffer (aesd_device w)));
  let '(newpos, pos) := fixed_size_llseek (f_pos filp) offset whence size in
  mret (newpos, mk_file pos (private_data filp)).

Lemma aesd_llseek_eq filp offset whence w :
  aesd_llseek filp offset whence w =
    (_ ← get_dev filp; with_lock (- ERESTARTSYS, filp) (llseek_body filp offset whence)) w.
Proof.
  unfold aesd_llseek, with_lock, llseek_body, mbind, st_bind.
  destruct (get_dev filp w) as [[[] w0]|]; [|done].
  destruct (lock_dev w0) as [[r w1]|]; [|done]. destruct (negb (r =? 0)); [done|].
  unfold st_opt. destruct (aesd_circular_buffer_size _); [|done].
  by destruct (fixed_size_llseek _ _ _ _).
Qed.

Lemma aesd_llseek_locked w a filp offset whence R :
  device_rep w a -> is_Some (private_data filp) ->
  (forall k, R (- ERESTARTSYS, filp) k a) ->
  (forall k, let '(ret, pos) := fixed_size_llseek (f_pos filp) offset whence (zlen (stream a)) in
     R (ret, mk_file pos (private_data filp)) k a) ->
  wp (aesd_llseek filp offset whence) (locked_post R w) w.
Proof.
  intros Hdev Hopen Herr Hok. unfold wp. rewrite aesd_llseek_eq.
  change (wp (_ ← get_dev filp; with_lock (- ERESTARTSYS, filp) (llseek_body filp offset whence))
            (locked_post R w) w).
  apply wp_bind, wp_get_dev; [done|]. apply (with_lock_ok _ _ w a); [done|by intros|].
  intros w1 Hrep _ _. destruct (Hrep) as [Hbuf _].
  destruct (buf_rep_total _ _ _ Hbuf) as [Htot Hmax]. unfold llseek_body.
  wp_step. eapply wp_opt; [by apply buffer_size_correct; [by eapply buf_wf|lia]|].
  rewrite Htot. fold (stream a). specialize (Hok (kern w1)).
  destruct (fixed_size_llseek _ _ _ _) as [ret pos]. wp_step.
  side. split; [apply footprint_refl|]. exists a. split_and!; try done.
  by apply (dev_no_newline w).
Qed.

Lemma aesd_llseek_correct w a filp offset whence :
  device_rep w a -> is_Some (private_data filp) -> 0 <= f_pos filp < 2 ^ 63 ->
  wp (aesd_llseek filp offset whence) (locked_post (llseek_result a filp offset whence) w) w.
Proof.
  intros Hdev Hopen Hpos. apply (aesd_llseek_locked w a); [done|done|by split; auto|].
  intros k. destruct (dev_rep _ _ Hdev) as [Hbuf _].
  destruct (buf_rep_total _ _ _ Hbuf) as [_ Hmax]. fold (stream a) in Hmax.
  rewrite fixed_size_llseek_eq by lia. unfold llseek_result.
  destruct (allseek _ _ _ _) as [ret pos]. auto.
Qed.

(** The seek command computes a position from the slots of the array, in
    array order. *)
Definition slot_offset (b : aesd_circular_buffer) (st : aesd_seekto) : Z :=
  sumZ (sizes (take (Z.to_nat (write_cmd st)) (entry b))) + write_cmd_offset st.

Lemma fold_break_seek i l wc off acc :
  0 <= i <= wc -> wc < i + zlen l ->
  fold_break i l
    (fun index current_entry char_offset =>
       if index =? wc then (char_offset +u64 off, false)
       else (char_offset +u64 entry_size current_entry, true)) (u64 acc) =
  u64 (acc + (sumZ (sizes (take (Z.to_nat (wc - i)) l)) + off)).
Proof.
  revert i acc. induction l as [|e l IH]; intros i acc Hi Hwc; simpl in *; [lia|].
  assert (forall x, u64 acc +u64 x = u64 (acc + x)) as Hu.
  { intros x. unfold u64. by rewrite Zplus_mod_idemp_l. }
  destruct (Z.eqb_spec i wc) as [->|Hne].
  - rewrite Z.sub_diag. simpl. apply Hu.
  - rewrite Hu, IH by lia. f_equal.
    replace (Z.to_nat (wc - i)) with (S (Z.to_nat (wc - (i + 1)))) by lia.
    unfold sizes. simpl. lia.
Qed.

(** What the seek command returns, from the contents of the addressed
    slot. *)
Definition aseek (b : aesd_circular_buffer) (filp : file) (st : aesd_seekto) : Z * file :=
  match entry b !! Z.to_nat (write_cmd st) with
  | Some e =>
      if decide (buffptr e <> NULL /\ write_cmd_offset st < entry_size e)
      then (0, mk_file (s64 (u64 (slot_offset b st))) (private_data filp))
      else (- EINVAL, filp)
  | None => (- EINVAL, filp)
  end.

Lemma aesd_ioctl_seek_eq w filp st :
  length (entry (buffer (aesd_device w))) = CAP -> 0 <= write_cmd st ->
  aesd_ioctl_seek filp st w = Some (aseek (buffer (aesd_device w)) filp st, w).
Proof.
  intros Hlen Hwc. unfold aesd_ioctl_seek, aseek. set (b := buffer (aesd_device w)) in *.
  unfold AESDCHAR_MAX_WRITE_OPERATIONS_SUPPORTED.
  destruct (Z.leb_spec 10 (write_cmd st)).
  { by rewrite lookup_ge_None_2 by lia. }
  destruct (lookup_lt_is_Some_2 (entry b) (Z.to_nat (write_cmd st))) as [e He]; [lia|].
  rewrite He. unfold mbind, st_bind, st_opt. fold b. rewrite entry_at_lookup, He by done.
  destruct (Z.eqb_spec (buffptr e) NULL); [by rewrite decide_False by naive_solver|].
  destruct (Z.leb_spec (entry_size e) (write_cmd_offset st)); [by rewrite decide_False by naive_solver lia|].
  rewrite decide_True by (split; [done|lia]). fold b. rewrite foreach_fold by done.
  rewrite (fold_break_seek 0 (entry b) _ _ 0) by lia. by rewrite Z.sub_0_r.
Qed.

Lemma byteZ_range x : 0 <= byteZ x < 2 ^ 8.
Proof. unfold byteZ. pose proof (Byte.to_N_bounded x). lia. Qed.

Lemma u32_at_range i d : 0 <= u32_at i d < 2 ^ 32.
Proof.
  unfold u32_at.
  assert (forall o : option byte, 0 <= default 0 (byteZ <$> o) < 2 ^ 8) as Hb.
  { intros [x|]; simpl; [apply byteZ_range|lia]. }
  pose proof (Hb (d !! (i + 0)%nat)). pose proof (Hb (d !! (i + 1)%nat)).
  pose proof (Hb (d !! (i + 2)%nat)). pose proof (Hb (d !! (i + 3)%nat)). lia.
Qed.

(** A kernel step that keeps the heap keeps the device. *)
Lemma device_rep_kern w a k : same_heap (kern w) k -> device_rep w a ->
  device_rep (set_kern k w) a.
Proof.
  intros Hh [H1 H2 H3]. split; try done. eapply rep_frame; [by intros; apply Hh|done].
Qed.

Definition ioctl_result (a : adev) (b : aesd_circular_buffer) (filp : file) (st : aesd_seekto)
    (r : Z * file) (k : kst) (a' : adev) : Prop :=
  a' = a /\ (r = (- ERESTARTSYS, filp) \/ r = (- EFAULT, filp) \/ r = aseek b filp st).

Lemma aesd_ioctl_correct w a filp arg :
  device_rep w a -> is_Some (private_data filp) ->
  wp (aesd_ioctl filp AESDCHAR_IOCSEEKTO arg)
    (locked_post (ioctl_result a (buffer (aesd_device w)) filp
       (seekto_of_bytes (ubytes (kern w) arg sizeof_aesd_seekto))) w) w.
Proof.
  intros Hdev Hopen. unfold aesd_ioctl, AESDCHAR_IOCSEEKTO, AESD_IOC_MAGIC, AESDCHAR_IOC_MAXNR.
  rewrite IOC_TYPE_IOWR, IOC_NR_IOWR by (unfold sizeof_aesd_seekto; lia).
  rewrite !Z.eqb_refl, Z.ltb_irrefl. cbn [negb].
  set (b := buffer (aesd_device w)). set (st := seekto_of_bytes _).
  wp_step. apply wp_on_kern. intros [r d] k Hc.
  destruct (copy_from_user_obj_ok arg sizeof_aesd_seekto (kern w) r d k)
    as (Hr & Hd & Hdata & Hh & Hu); [done..|].
  pose proof (device_rep_kern w a k Hh Hdev) as Hdev1.
  assert (footprint w (set_kern k w)) as Hfp by by apply footprint_same.
  destruct (Z.eqb_spec r 0) as [->|Hr0]; cbn [negb].
  - apply wp_bind, wp_get_dev; [done|].
    assert (seekto_of_bytes d = st) as -> by (unfold st; by rewrite <- Hdata).
    eapply wp_mono; [eapply (with_lock_ok (- ERESTARTSYS, filp) (aesd_ioctl_seek filp st)
                       (set_kern k w) a (ioctl_result a b filp st)); [done| |]|].
    + intros. by split; auto.
    + intros w1 Hrep _ Hb1. eapply wp_intro.
      { apply aesd_ioctl_seek_eq; [by eapply wf_length, buf_wf; destruct Hrep|apply u32_at_range]. }
      side. split; [apply footprint_refl|]. exists a. split_and!; try done.
      * by apply (dev_no_newline _ _ Hdev).
      * side. rewrite Hb1. auto.
    + intros res w' (Hfp' & a' & H1 & H2). split; [by eapply footprint_trans|by exists a'].
  - wp_step. side. exists a. side. by split; auto.
Qed.

Lemma aesd_ioctl_other w filp cmd arg : cmd <> AESDCHAR_IOCSEEKTO ->
  aesd_ioctl filp cmd arg w = Some ((- ENOTTY, filp), w).
Proof.
  intros Hcmd. unfold aesd_ioctl. destruct (negb _); [done|]. destruct (_ <? _); [done|].
  by rewrite (proj2 (Z.eqb_neq _ _) Hcmd).
Qed.

(** The documented meaning of a seek command: byte [write_cmd_offset] of
    the command number [write_cmd], oldest first. *)
Definition aseekto (cs : list (list byte)) (filp : file) (st : aesd_seekto) : Z * file :=
  let i := Z.to_nat (write_cmd st) in
  match cs !! i with
  | Some c =>
      if decide (write_cmd_offset st < zlen c)
      then (0, mk_file (zlen (concat (take i cs)) + write_cmd_offset st) (private_data filp))
      else (- EINVAL, filp)
  | None => (- EINVAL, filp)
  end.

Lemma aseek_unwrapped k b cs filp st :
  buf_rep k b cs -> out_offs b = 0 -> 0 <= write_cmd_offset st ->
  aseek b filp st = aseekto cs filp st.
Proof.
  intros Hr Hout Hoff. pose proof (buf_wf _ _ _ Hr) as Hwf. pose proof (wf_length b Hwf) as Hlen.
  pose proof (contents_length b Hwf) as Hcl. pose proof (wf_in b Hwf).
  destruct (buf_rep_total _ _ _ Hr) as [_ Htot].
  unfold aseek, aseekto. set (i := Z.to_nat (write_cmd st)).
  destruct (cs !! i) as [c|] eqn:Hc.
  - destruct (Forall2_lookup_r _ _ _ _ _ (buf_holds _ _ _ Hr) Hc) as (e & He & [Hb Hs]).
    assert (i < length (contents b))%nat as Hi by by eapply lookup_lt_Some.
    assert (forall j, (j < length (contents b))%nat -> entry b !! j = contents b !! j) as Hpre.
    { intros j Hj. rewrite contents_lookup by done. f_equal. rewrite Hout, Z.mod_small; [lia|].
      pose proof (contents_le_cap b Hwf). lia. }
    assert (take i (entry b) = take i (contents b)) as Htk.
    { apply list_eq. intros j. destruct (decide (j < i)%nat).
      - rewrite !lookup_take_lt by done. apply Hpre. lia.
      - by rewrite !lookup_take_ge by lia. }
    rewrite Hpre, He, Hs by done. apply blk_Some_not_null in Hb.
    destruct (decide (write_cmd_offset st < zlen c)) as [Hlt|Hge];
      [rewrite decide_True by done|by rewrite decide_False by naive_solver].
    assert (slot_offset b st = zlen (concat (take i cs)) + write_cmd_offset st) as ->.
    { unfold slot_offset. fold i. rewrite Htk, <- sumZ_lengths. f_equal. f_equal.
      unfold sizes. rewrite <- !firstn_map. f_equal. by apply (buf_rep_sizes k). }
    rewrite u64_small, s64_small; [done|..]; 
      pose proof (take_drop_middle _ _ _ Hc) as Hmid; rewrite <- Hmid in Htot;
      rewrite concat_app, !length_app in Htot; simpl in Htot; rewrite length_app in Htot; lia.
  - apply lookup_ge_None in Hc. rewrite <- (Forall2_length _ _ _ (buf_holds _ _ _ Hr)) in Hc.
    destruct (entry b !! i) as [e|] eqn:He; [|done]. apply lookup_lt_Some in He as Hi.
    destruct (full b) eqn:Hf; [lia|]. destruct (wf_not_full b Hwf Hf) as [_ Hz].
    assert (e = zero_entry) as ->; [|by rewrite decide_False by naive_solver].
    apply (Forall_lookup_1 _ _ (i - Z.to_nat (in_offs b)) e Hz).
    rewrite lookup_drop. by replace (Z.to_nat (in_offs b) + (i - Z.to_nat (in_offs b)))%nat with i by lia.
Qed.
End seek.
