(* ===== verification/CharDriverTheorems.v ===== *)
(** * The properties of the character driver

    The life cycle of the module (loading, any sequence of system calls,
    unloading) and the properties of the handlers, stated over the abstract
    device of [CharDriverSpec]. *)

From S2P Require Import Prelude CircularBuffer KernelApi CharDriver CharDriverSpec.

(** ** Facts about the abstract device *)

Lemma awrite_success a data ret a' : awrite a data ret a' -> 0 <= ret ->
  (newline ∉ pending a ++ data /\ ret = zlen data /\
   a' = mk_adev (cmds a) (pending a ++ data)) \/
  (newline ∈ pending a ++ data /\ ret = zlen (pending a ++ data) /\
   a' = mk_adev (Fifo.push CAP (cmds a) (pending a ++ data)) []).
Proof.
  intros [] Hret; try (unfold ERESTARTSYS, ENOMEM, EFAULT in *; lia); auto.
Qed.

Lemma aread_success a pos count ret data : aread a pos count ret data -> 0 <= ret ->
  (ret = 0 /\ data = [] /\ zlen (stream a) <= pos) \/
  (exists i off c, locate (map (fun c => zlen c) (cmds a)) pos = Some (i, off) /\
     cmds a !! i = Some c /\ ret = count `min` (zlen c - off) /\
     data = take (Z.to_nat ret) (drop (Z.to_nat off) c)).
Proof.
  intros [] Hret; try (unfold ERESTARTSYS, EFAULT in *; lia); [by left|right; eauto 10].
Qed.

Lemma zlens_nonneg (cs : list (list byte)) :
  Forall (fun x => 0 <= x) (map (fun c => zlen c) cs).
Proof. apply Forall_fmap, Forall_true. simpl. lia. Qed.

(** Byte [off] of command [i] is found at its place in the stream. *)
Lemma locate_cmd (cs : list (list byte)) i c off :
  cs !! i = Some c -> 0 <= off < zlen c ->
  locate (map (fun c => zlen c) cs) (zlen (concat (take i cs)) + off) = Some (i, off).
Proof.
  intros Hc Hoff. rewrite <- sumZ_lengths, <- firstn_map.
  apply (locate_prefix _ i (zlen c)); [apply zlens_nonneg| |done].
  change (((fun c : list byte => zlen c) <$> cs) !! i = Some (zlen c)).
  by rewrite list_lookup_fmap, Hc.
Qed.

(** A read inside command [i] gets the bytes of that command. *)
Lemma aread_cmd a i c off count ret data :
  cmds a !! i = Some c -> 0 <= off < zlen c -> 0 <= count ->
  aread a (zlen (concat (take i (cmds a))) + off) count ret data -> 0 <= ret ->
  data = take (Z.to_nat count) (drop (Z.to_nat off) c).
Proof.
  intros Hc Hoff Hcount Har Hret. pose proof (locate_cmd _ _ _ _ Hc Hoff) as Hloc.
  destruct (aread_success _ _ _ _ _ Har Hret) as [(_ & _ & Hend)|(i' & o & c' & Hl & Hc' & Hr & ->)].
  - assert (locate (map (fun c => zlen c) (cmds a))
      (zlen (concat (take i (cmds a))) + off) = None); [|congruence].
    apply locate_None; [apply zlens_nonneg|lia|by rewrite sumZ_lengths].
  - rewrite Hloc in Hl. injection Hl as <- <-. rewrite Hc in Hc'. injection Hc' as <-. rewrite Hr.
    destruct (decide (count <= zlen c - off)).
    + by rewrite Z.min_l by lia.
    + rewrite Z.min_r by lia. rewrite !take_ge by (rewrite length_drop; lia). done.
Qed.

(** ** Loading and unloading *)

Section lifecycle.
Context {K : Kernel} {KOk : KernelOk K}.
Implicit Types w : world.

Definition empty_dev : adev := mk_adev [] [].

Lemma zero_buffer_rep k : buf_rep k zero_buffer [].
Proof. split; try done; [apply zero_buffer_wf|constructor]. Qed.

(** A device number is in use for the module. *)
Definition registered (k : kst) (d : Z) : Prop := region k d = true /\ cdev_live k d = true.

Definition init_post w (r : Z) w' : Prop :=
  let devno := MKDEV (aesd_major w') aesd_minor in
  same_heap (kern w) (kern w') /\
  ((r = 0 /\ device_rep w' empty_dev /\ owned (aesd_device w') = [] /\
    registered (kern w') devno /\
    cdev (aesd_device w') = mk_cdev OWNER_THIS_MODULE OPS_AESD_FOPS devno) \/
   (r < 0 /\ same_devs (kern w) (kern w'))).

Lemma aesd_init_module_ok w : wp aesd_init_module (init_post w) w.
Proof.
  destruct w as [k d mj]. unfold aesd_init_module, aesd_setup_cdev, init_post. wp_step.
  apply wp_on_kern. intros [r dev] k1 Ha. simpl in Ha.
  apply alloc_chrdev_ok in Ha as (Hr & Hh1 & Hl1 & Hneg & Hok). cbv beta iota. do 2 wp_step.
  destruct (Z.ltb_spec r 0) as [Hlt|Hge].
  { wp_step. simpl. side. right. side. by split; [apply Hneg|]. }
  destruct (Hok ltac:(lia)) as (Hmk & Hfree & Hdead & Hreg). simpl. wp_steps.
  apply wp_on_kern. intros err k2 Hadd. simpl in Hadd. wp_steps. simpl. rewrite Hmk in *.
  apply cdev_add_ok in Hadd as (Herr & Hh2 & Hr2 & Hl2).
  destruct (Z.eqb_spec err 0) as [->|Hne]; cbn [negb]; wp_steps; simpl.
  - split; [eauto with aesd|]. left. rewrite Hmk. side. split.
    { split; simpl; [apply held_init|by split; [apply zero_buffer_rep|]|set_solver]. }
    side. split; [|done]. unfold registered. by rewrite Hr2, Hreg, Hl2, !decide_True.
  - destruct (unregister_ok dev k2) as (Hh3 & Hl3 & Hr3). split; [eauto with aesd|].
    right. split; [lia|]. split; intros d'.
    + rewrite Hr3, Hr2, Hreg. repeat case_decide; congruence.
    + rewrite Hl3, Hl2, decide_False by naive_solver. apply Hl1.
Qed.

(** The addresses the cleanup loop frees, in array order. *)
Definition slot_ptrs (l : list aesd_buffer_entry) : list Z :=
  filter (fun p => p <> NULL) (buffptr <$> l).

Lemma slot_ptrs_all l : Forall (fun p => p <> NULL) (buffptr <$> l) ->
  slot_ptrs l = buffptr <$> l.
Proof.
  unfold slot_ptrs. induction l as [|e l IH]; [done|]. rewrite fmap_cons.
  intros [H1 H2]%Forall_cons. rewrite filter_cons_True by done. by rewrite IH.
Qed.

Lemma slot_ptrs_zero l : Forall (fun e => e = zero_entry) l -> slot_ptrs l = [].
Proof.
  induction 1 as [|e l -> _ IH]; [done|]. unfold slot_ptrs in *.
  rewrite fmap_cons, filter_cons_False by naive_solver. done.
Qed.

(** They are the addresses of the queue. *)
Lemma slot_ptrs_entry k b cs : buf_rep k b cs -> slot_ptrs (entry b) ≡ₚ ptrs b.
Proof.
  intros Hr. pose proof (buf_wf _ _ _ Hr) as Hwf.
  assert (Forall (fun p => p <> NULL) (ptrs b)) as Hnn.
  { apply Forall_forall. intros p Hp. by eapply (buf_rep_live k b cs). }
  unfold ptrs, contents in *. destruct (full b) eqn:Hf.
  - rewrite <- (take_drop (Z.to_nat (out_offs b)) (entry b)) at 1.
    rewrite fmap_app in Hnn. apply Forall_app in Hnn as [H1 H2].
    rewrite slot_ptrs_all by (rewrite fmap_app; by apply Forall_app).
    rewrite !fmap_app. apply Permutation_app_comm.
  - destruct (wf_not_full b Hwf Hf) as [_ Hz].
    rewrite <- (take_drop (Z.to_nat (in_offs b)) (entry b)) at 1.
    unfold slot_ptrs. rewrite fmap_app, filter_app. fold (slot_ptrs (take (Z.to_nat (in_offs b)) (entry b))).
    fold (slot_ptrs (drop (Z.to_nat (in_offs b)) (entry b))).
    rewrite (slot_ptrs_zero (drop _ _)) by done. by rewrite slot_ptrs_all, app_nil_r.
Qed.

Lemma cleanup_fold i l k :
  (forall p, p ∈ slot_ptrs l -> p <> ZERO_SIZE_PTR /\ is_Some (blk k p)) ->
  NoDup (slot_ptrs l) ->
  exists k', fold_break i l cleanup_body (Some k) = Some k' /\
    (forall p, blk k' p = if decide (p ∈ slot_ptrs l) then None else blk k p) /\
    same_devs k k'.
Proof.
  revert i k. unfold slot_ptrs. induction l as [|e l IH]; intros i k Hlive Hnd.
  { exists k. side. split; [|done]. intros p. rewrite decide_False; [done|]. apply not_elem_of_nil. }
  rewrite fmap_cons in *. simpl. destruct (Z.eqb_spec (buffptr e) NULL) as [Hn|Hn]; simpl.
  - rewrite filter_cons_False in Hlive, Hnd |- * by naive_solver. by apply IH.
  - rewrite filter_cons_True in Hlive, Hnd |- * by done.
    apply NoDup_cons in Hnd as [Hne Hnd].
    destruct (Hlive (buffptr e)) as [Hz [x Hx]]; [set_solver|]. rewrite Hx. simpl.
    destruct (IH (i + 1) (kfree (buffptr e) k)) as (k' & Hk' & Hb & Hd); [|done|].
    { intros p Hp. destruct (Hlive p) as [? ?]; [set_solver|].
      rewrite kfree_frame by (intros ->; done). done. }
    exists k'. side. destruct (kfree_devs (buffptr e) k) as [Hd1 Hd2].
    destruct Hd as [Hd3 Hd4]. split; [|by split; intros; rewrite ?Hd3, ?Hd4].
    intros p. rewrite Hb.
    destruct (decide (p = buffptr e)) as [->|Hpe].
    + rewrite decide_False, decide_True by set_solver. by apply kfree_ok; eauto.
    + rewrite kfree_frame by done. do 2 case_decide; set_solver.
Qed.

Definition cleanup_post w (_ : unit) w' : Prop :=
  let devno := MKDEV (aesd_major w) aesd_minor in
  (forall p, blk (kern w') p =
     if decide (p ∈ ptrs (buffer (aesd_device w))) then None else blk (kern w) p) /\
  region (kern w') devno = false /\ cdev_live (kern w') devno = false.

Lemma aesd_cleanup_module_ok w a :
  device_rep w a -> cdev_dev (cdev (aesd_device w)) = MKDEV (aesd_major w) aesd_minor ->
  wp aesd_cleanup_module (cleanup_post w) w.
Proof.
  intros [_ [Hbuf _] _] Hdev. unfold aesd_cleanup_module, cleanup_post. wp_steps. simpl.
  rewrite Hdev. set (devno := MKDEV _ _). set (b := buffer (aesd_device w)) in *.
  destruct (cdev_del_ok devno (kern w)) as (Hh1 & Hr1 & Hl1).
  pose proof (slot_ptrs_entry _ _ _ Hbuf) as Hperm.
  destruct (cleanup_fold 0 (entry b) (cdev_del devno (kern w))) as (k' & Hk' & Hb & Hd3 & Hd4).
  { intros p Hp. rewrite Hperm in Hp. rewrite Hh1.
    by destruct (buf_rep_live _ _ _ _ Hbuf Hp) as (? & ? & ?). }
  { rewrite Hperm. by eapply buf_nodup. }
  apply wp_opt with (a := k').
  { simpl. fold b. rewrite foreach_fold by by eapply wf_length, buf_wf. simpl. by rewrite Hk'. }
  wp_steps. simpl. destruct (unregister_ok devno k') as (Hh2 & Hl2 & Hr2).
  split; [|split].
  - intros p. rewrite Hh2, Hb, Hh1. apply decide_ext. by rewrite Hperm.
  - by rewrite Hr2, decide_True.
  - by rewrite Hl2, Hd4, Hl1, decide_True.
Qed.
End lifecycle.

(** ** Sequences of system calls *)

Section calls.
Context {K : Kernel} {KOk : KernelOk K}.
Implicit Types w : world.

(** A call on an open file, as the file system makes it: reads and writes
    get the address of the file's position. *)
Inductive call : Type :=
| Read (buf count : Z)
| Write (buf count : Z)
| Llseek (offset whence : Z)
| Ioctl (cmd arg : Z).

Definition exec (fops : file_operations) (filp : file) (c : call) : ST world (Z * file) :=
  match c with
  | Read buf count =>
      '(ret, pos) ← fop_read fops filp buf count (f_pos filp);
      mret (ret, mk_file pos (private_data filp))
  | Write buf count =>
      '(ret, pos) ← fop_write fops filp buf count (f_pos filp);
      mret (ret, mk_file pos (private_data filp))
  | Llseek offset whence => fop_llseek fops filp offset whence
  | Ioctl cmd arg => fop_unlocked_ioctl fops filp cmd arg
  end.

(** Calls in the order in which they take the lock, each with the file it
    is made on. *)
Fixpoint run_calls (fops : file_operations) (l : list (file * call)) : ST world (list Z) :=
  match l with
  | [] => mret []
  | (filp, c) :: l =>
      '(ret, _) ← exec fops filp c;
      rs ← run_calls fops l;
      mret (ret :: rs)
  end.

(** The file is open, its position and the size of the buffer are in the
    range of the types. *)
Definition valid_call (fc : file * call) : Prop :=
  is_Some (private_data fc.1) /\ 0 <= f_pos fc.1 < 2 ^ 63 /\
  match fc.2 with
  | Read _ count | Write _ count => 0 <= count < 2 ^ 63
  | _ => True
  end.

Lemma exec_ok w a filp c : device_rep w a -> valid_call (filp, c) ->
  wp (exec aesd_fops filp c) (fun _ w' => footprint w w' /\ exists a', device_rep w' a') w.
Proof.
  intros Hdev (Hopen & Hpos & Hc). simpl in *. destruct c as [buf n|buf n|off wh|cmd arg]; simpl.
  - apply wp_bind. eapply wp_mono; [by apply aesd_read_correct|].
    intros [ret pos] w' (Hfp & a' & Hd & _). wp_step. eauto.
  - apply wp_bind. eapply wp_mono; [by apply aesd_write_correct|].
    intros [ret pos] w' (Hfp & a' & Hd & _). wp_step. eauto.
  - eapply wp_mono; [apply (aesd_llseek_locked w a filp off wh (fun _ _ _ => True)); auto|].
    + intros k. by destruct (fixed_size_llseek _ _ _ _).
    + intros r w' (Hfp & a' & Hd & _). eauto.
  - destruct (decide (cmd = AESDCHAR_IOCSEEKTO)) as [->|Hne].
    + eapply wp_mono; [by apply aesd_ioctl_correct|].
      intros r w' (Hfp & a' & Hd & _). eauto.
    + eapply wp_intro; [by apply aesd_ioctl_other|]. split; [apply footprint_refl|eauto].
Qed.

Lemma run_calls_ok l w a : device_rep w a -> Forall valid_call l ->
  wp (run_calls aesd_fops l)
    (fun rs w' => length rs = length l /\ footprint w w' /\ exists a', device_rep w' a') w.
Proof.
  intros Hdev Hl. revert w a Hdev. induction Hl as [|[filp c] l Hc _ IH]; intros w a Hdev; simpl.
  { wp_step. side. split; [apply footprint_refl|eauto]. }
  apply wp_bind. eapply wp_mono; [by eapply exec_ok|]. intros [ret f] w1 (Hfp1 & a1 & Hd1).
  apply wp_bind. eapply wp_mono; [by eapply IH|]. intros rs w2 (Hlen & Hfp2 & Hd2).
  wp_step. simpl. split; [by rewrite Hlen|]. split; [by eapply footprint_trans|done].
Qed.
End calls.

(** ** Concrete runs

    A kernel with the user data of a list of commands, each at its own
    address, and the device loaded. *)

Module Demo.
Import SimKernel.

Definition user_data (ls : list (list byte)) : gmap Z byte :=
  foldr (fun '(i, d) m => user_write (4096 * (1 + Z.of_nat i)) d m) ∅
    (imap (fun i d => (i, d)) ls).

Definition addr (i : nat) : Z := 4096 * (1 + Z.of_nat i).

(** The world before the module is loaded. *)
Definition unloaded (ls : list (list byte)) (script : list bool) : world :=
  mk_world (boot (user_data ls) script) zero_dev 0.

Definition opened (pos : Z) : file := mk_file pos (Some AESD_DEVICE).

(** Load the module and write the first [n] of the commands. *)
Definition writes (ls : list (list byte)) : list (file * call) :=
  imap (fun i d => (opened 0, Write (addr i) (zlen d))) ls.

Definition loaded (ls : list (list byte)) (n : nat) : ST world (list Z) :=
  _ ← aesd_init_module; run_calls aesd_fops (take n (writes ls)).

(** The bytes of a 32-bit integer. *)
Definition le32 (x : Z) : list byte :=
  (fun i => default nul (Byte.of_N (Z.to_N ((x / 2 ^ (8 * Z.of_nat i)) `mod` 256)))) <$> seq 0 4.

Definition after {A} (m : ST world A) (w : world) : world :=
  match m w with
  | Some (_, w') => w'
  | None => w
  end.

Definition ret_of {A} (m : ST world A) (w : world) (d : A) : A :=
  match m w with
  | Some (r, _) => r
  | None => d
  end.

Definition returns {A} (m : ST world A) (w : world) : bool :=
  match m w with
  | Some _ => true
  | None => false
  end.

Lemma run_eta {A} (m : ST world A) w d : returns m w = true ->
  m w = Some (ret_of m w d, after m w).
Proof. unfold returns, ret_of, after. by destruct (m w) as [[a w']|]. Qed.

Lemma run_is {A} (m : ST world A) w r : returns m w = true -> ret_of m w r = r ->
  m w = Some (r, after m w).
Proof. intros H1 H2. by rewrite (run_eta m w r H1), H2. Qed.
End Demo.

(** ** Properties *)

Section theorems.
Context {K : Kernel} {KOk : KernelOk K}.
Implicit Types w : world.

(** C1. Writing refines the abstract device: from a state that represents
    [a], [aesd_write] runs without undefined behaviour, returns with the
    lock free, and its result and effect are one of those [awrite] allows
    for the bytes of the user's buffer; it frees the block of the evicted
    command and every block it gives up, and touches no other block. *)
Theorem write_refines w a filp buf count pos :
  device_rep w a -> is_Some (private_data filp) -> 0 <= count < 2 ^ 63 ->
  exists ret pos' w' a',
    aesd_write filp buf count pos w = Some ((ret, pos'), w') /\
    awrite a (ubytes (kern w) buf count) ret a' /\
    pos' = advance_pos pos ret /\ device_rep w' a' /\ footprint w w'.
Proof.
  intros Hd Ho Hc. destruct (wp_inv _ _ _ (aesd_write_correct w a filp buf count pos Hd Ho Hc))
    as ([ret pos'] & w' & Hrun & Hfp & a' & Hd' & Haw & Hpos).
  by exists ret, pos', w', a'.
Qed.

(** C2. Reading refines the abstract device: [aesd_read] runs without
    undefined behaviour, leaves the device as it was and the lock free,
    and delivers to the user's buffer what [aread] allows: the bytes of
    the stream from the position on, up to the end of the command that
    holds the position, and nothing only at the end of the stream. *)
Theorem read_refines w a filp buf count pos :
  device_rep w a -> is_Some (private_data filp) ->
  0 <= count < 2 ^ 63 -> 0 <= pos < 2 ^ 63 ->
  exists ret pos' w' data,
    aesd_read filp buf count pos w = Some ((ret, pos'), w') /\
    aread a pos count ret data /\ (0 <= ret -> ubytes (kern w') buf ret = data) /\
    pos' = advance_pos pos ret /\ device_rep w' a /\ footprint w w'.
Proof.
  intros Hd Ho Hc Hp. destruct (wp_inv _ _ _ (aesd_read_correct w a filp buf count pos Hd Ho Hc Hp))
    as ([ret pos'] & w' & Hrun & Hfp & a' & Hd' & -> & Hpos & data & Har & Hdata).
  by exists ret, pos', w', data.
Qed.

(** C3. Any sequence of calls on open files, by any number of processes,
    from a freshly loaded module on, runs without undefined behaviour, and
    every call returns; unloading then gives back every block the driver
    took, except the block of a command that was still being written. *)
Theorem lifecycle_memory w l :
  Forall valid_call l ->
  exists r w1, aesd_init_module w = Some (r, w1) /\
    (r = 0 ->
     exists rs w2 w3, run_calls aesd_fops l w1 = Some (rs, w2) /\
       length rs = length l /\ aesd_cleanup_module w2 = Some (tt, w3) /\
       forall p, p <> ZERO_SIZE_PTR ->
         p <> buffptr (current_write_entry (aesd_device w2)) ->
         blk (kern w3) p = blk (kern w) p).
Proof.
  intros Hl. destruct (wp_inv _ _ _ (aesd_init_module_ok w)) as (r & w1 & Hi & Hh1 & Hcase).
  exists r, w1. side. intros ->.
  destruct Hcase as [(_ & Hd1 & Ho1 & _ & Hcd)|[Hneg _]]; [|lia].
  destruct (wp_inv _ _ _ (run_calls_ok l w1 _ Hd1 Hl)) as (rs & w2 & Hrun & Hlen & Hfp & a & Hd2).
  destruct (wp_inv _ _ _ (aesd_cleanup_module_ok w2 a Hd2
    ltac:(rewrite (fp_cdev _ _ Hfp), (fp_major _ _ Hfp), Hcd; done))) as ([] & w3 & Hcl & Hb3 & _).
  exists rs, w2, w3. split_and!; try done. intros p Hz Hp.
  rewrite Hb3. case_decide as Hin.
  - rewrite <- Hh1. symmetry. apply (fp_new _ _ Hfp); [rewrite Ho1; apply not_elem_of_nil| |done].
    by apply elem_of_app; left.
  - rewrite (fp_frame _ _ Hfp); [apply Hh1|rewrite Ho1; apply not_elem_of_nil|].
    rewrite elem_of_owned. naive_solver.
Qed.

(** The device after any sequence of calls on the loaded module. *)
Lemma lifecycle_device w l : Forall valid_call l ->
  exists r w1, aesd_init_module w = Some (r, w1) /\
    (r = 0 -> exists rs w2 a, run_calls aesd_fops l w1 = Some (rs, w2) /\ device_rep w2 a).
Proof.
  intros Hl. destruct (wp_inv _ _ _ (aesd_init_module_ok w)) as (r & w1 & Hi & Hh1 & Hcase).
  exists r, w1. side. intros ->. destruct Hcase as [(_ & Hd1 & _)|[Hneg _]]; [|lia].
  destruct (wp_inv _ _ _ (run_calls_ok l w1 _ Hd1 Hl)) as (rs & w2 & Hrun & _ & _ & a & Hd2).
  by exists rs, w2, a.
Qed.

(** C18. The device is well formed after any sequence of calls on open
    files: its lock is free; the offsets are indices of the table; every
    command of the ring has at least one byte and a block of its own of
    exactly its size; and the unfinished command is empty without a block,
    or has one that no command of the ring has. *)
Theorem device_well_formed w l :
  Forall valid_call l ->
  exists r w1, aesd_init_module w = Some (r, w1) /\
    (r = 0 ->
     exists rs w2, run_calls aesd_fops l w1 = Some (rs, w2) /\
       let d := aesd_device w2 in
       let cur := current_write_entry d in
       held (lock d) = false /\
       length (entry (buffer d)) = CAP /\ 0 <= in_offs (buffer d) < 10 /\ 0 <= out_offs (buffer d) < 10 /\
       Forall (fun e => 0 < entry_size e <= KMALLOC_MAX_SIZE /\
           (fun d => zlen d) <$> blk (kern w2) (buffptr e) = Some (entry_size e)) (contents (buffer d)) /\
       NoDup (buffptr <$> contents (buffer d)) /\
       (buffptr cur = NULL /\ entry_size cur = 0 \/
        0 <= entry_size cur <= KMALLOC_MAX_SIZE /\
        (fun d => zlen d) <$> blk (kern w2) (buffptr cur) = Some (entry_size cur) /\
        buffptr cur ∉ buffptr <$> contents (buffer d))).
Proof.
  intros Hl. destruct (lifecycle_device w l Hl) as (r & w1 & Hi & Hrun). exists r, w1. side. intros Hr.
  destruct (Hrun Hr) as (rs & w2 & a & Hrs & [Hu [[Hwf Hh Hnl Hmax Hnd] Hp] _]). exists rs, w2. side.
  split_and!; [done|apply Hwf..| |done|].
  - apply Forall_lookup. intros i e Hi'. destruct (Forall2_lookup_l _ _ _ _ _ Hh Hi') as (c & Hc & Hb & Hz).
    pose proof (Forall_lookup_1 _ _ _ _ Hmax Hi') as Hm. pose proof (Forall_lookup_1 _ _ _ _ Hnl Hc) as Hin.
    rewrite Hb. cbn in *. rewrite Hz in *. split; [|done]. destruct c; [by apply elem_of_nil in Hin|]. simpl length in *. lia.
  - unfold pending_rep in Hp. case_decide as Hn; [left; by destruct Hp|]. destruct Hp as ([Hb Hz] & Hm & _ & Hnp).
    right. rewrite Hb. cbn. rewrite Hz. split_and!; try done; lia.
Qed.

(** C19. The size of the device does not overflow: after any sequence of
    calls, [aesd_circular_buffer_size] is the number of bytes of the
    commands in the ring, at most ten of the largest blocks, which is far
    below the range of [loff_t]. *)
Theorem device_size_bounded w l :
  Forall valid_call l ->
  exists r w1, aesd_init_module w = Some (r, w1) /\
    (r = 0 ->
     exists rs w2 n, run_calls aesd_fops l w1 = Some (rs, w2) /\
       aesd_circular_buffer_size (buffer (aesd_device w2)) = Some n /\
       n = sumZ (sizes (contents (buffer (aesd_device w2)))) /\
       0 <= n <= 10 * KMALLOC_MAX_SIZE /\ 10 * KMALLOC_MAX_SIZE < 2 ^ 36).
Proof.
  intros Hl. destruct (lifecycle_device w l Hl) as (r & w1 & Hi & Hrun). exists r, w1. side. intros Hr.
  destruct (Hrun Hr) as (rs & w2 & a & Hrs & [Hu [Hb Hp] _]). pose proof (buf_wf _ _ _ Hb) as Hwf.
  set (b := buffer (aesd_device w2)) in *. exists rs, w2, (sumZ (sizes (contents b))). side.
  pose proof kmalloc_max_range as Hk. pose proof (sumZ_nonneg _ (contents_sizes b Hwf)) as H0.
  pose proof (buf_rep_bound _ _ _ Hb).
  split; [apply buffer_size_correct; [done|lia]|]. side. lia.
Qed.

(** C38. Loading either succeeds, with an empty device, its number reserved
    and the table of operations in place, or returns a negative error and
    leaves the device numbers of the system and the heap as they were. *)
Theorem init_module_outcomes w :
  exists r w', aesd_init_module w = Some (r, w') /\
    same_heap (kern w) (kern w') /\
    let devno := MKDEV (aesd_major w') aesd_minor in
    ((r = 0 /\ device_rep w' (mk_adev [] []) /\ registered (kern w') devno /\
      cdev_ops (cdev (aesd_device w')) = OPS_AESD_FOPS) \/
     (r < 0 /\ same_devs (kern w) (kern w'))).
Proof.
  destruct (wp_inv _ _ _ (aesd_init_module_ok w)) as (r & w' & Hi & Hh & Hcase).
  exists r, w'. side. side.
  destruct Hcase as [(-> & Hd & _ & Hr & ->)|Hneg]; [left|by right]. done.
Qed.

(** A successful write reports the bytes of the whole command: when
    the buffer ends a command begun by earlier writes, the result exceeds
    the number of bytes the caller passed by the bytes already pending. *)
Theorem write_overreports w a filp buf count pos ret pos' w' :
  device_rep w a -> is_Some (private_data filp) -> 0 <= count < 2 ^ 63 ->
  newline ∈ ubytes (kern w) buf count ->
  aesd_write filp buf count pos w = Some ((ret, pos'), w') -> 0 <= ret ->
  ret = count + zlen (pending a).
Proof.
  intros Hd Ho Hc Hnl Hrun Hret.
  destruct (wp_inv _ _ _ (aesd_write_correct w a filp buf count pos Hd Ho Hc))
    as (r & w1 & Hrun' & _ & a' & _ & Haw & _).
  rewrite Hrun in Hrun'. injection Hrun' as <- <-. simpl in Haw.
  destruct (awrite_success _ _ _ _ Haw Hret) as [(Hno & _)|(_ & -> & _)]; [set_solver|].
  rewrite length_app. pose proof (ubytes_length (kern w) buf count). lia.
Qed.

(** C20. What is written is what is read: when a write completes a command
    on a device that is not full, a read at the old end of the stream gets
    the whole command, up to the size of the buffer, unless it is
    interrupted or faults. *)
Theorem write_then_read w a filp buf count ret pos' w' ubuf n :
  device_rep w a -> is_Some (private_data filp) ->
  0 <= count < 2 ^ 63 -> 0 <= n < 2 ^ 63 ->
  (length (cmds a) < CAP)%nat -> newline ∈ ubytes (kern w) buf count ->
  aesd_write filp buf count 0 w = Some ((ret, pos'), w') -> 0 <= ret ->
  exists r p w'', aesd_read filp ubuf n (zlen (stream a)) w' = Some ((r, p), w'') /\
    (0 <= r ->
     ubytes (kern w'') ubuf r = take (Z.to_nat n) (pending a ++ ubytes (kern w) buf count)).
Proof.
  intros Hd Ho Hc Hn Hlen Hnl Hrun Hret.
  destruct (wp_inv _ _ _ (aesd_write_correct w a filp buf count 0 Hd Ho Hc))
    as (r0 & w1 & Hrun' & _ & a' & Hd' & Haw & _).
  rewrite Hrun in Hrun'. injection Hrun' as <- <-. simpl in Haw.
  set (c := pending a ++ ubytes (kern w) buf count) in *.
  assert (newline ∈ c) as Hnc by set_solver.
  destruct (awrite_success _ _ _ _ Haw Hret) as [(Hno & _)|(_ & _ & ->)]; [set_solver|].
  fold c in Hd'. destruct (Fifo.push_cases CAP (cmds a) c ltac:(lia) ltac:(lia))
    as [(_ & _ & Hp)|(? & ? & _ & ? & _)]; [|lia]. rewrite Hp in Hd'.
  assert (zlen (concat (take (length (cmds a)) (cmds a ++ [c]))) + 0 = zlen (stream a)) as Hpos.
  { rewrite take_app_le, take_ge by lia. unfold stream. lia. }
  destruct (dev_rep _ _ Hd') as [Hb' _]. pose proof (buf_rep_total _ _ _ Hb') as [_ Hmax].
  simpl in Hmax. rewrite concat_app, length_app in Hmax. fold (stream a) in Hmax.
  destruct (wp_inv _ _ _ (aesd_read_correct w' _ filp ubuf n (zlen (stream a)) Hd' Ho Hn ltac:(lia)))
    as ([r p] & w2 & Hrd & _ & a2 & _ & -> & _ & data & Har & Hdata).
  simpl in Har, Hdata. exists r, p, w2. side. intros Hr. rewrite Hdata by done. rewrite <- Hpos in Har.
  apply (aread_cmd (mk_adev (cmds a ++ [c]) []) (length (cmds a)) c 0 n r data); simpl; try done.
  - by rewrite lookup_app_r, Nat.sub_diag by lia.
  - split; [lia|]. destruct c; simpl; [set_solver|lia].
  - lia.
Qed.

(** C25. Seeking: on an open file with any position, also one past the end
    of the stream, where a write leaves it, [aesd_llseek] returns and leaves
    the device as it was and the lock free.  When the wait for the lock is
    interrupted it returns [-ERESTARTSYS] and does not move; asked for the
    position ([SEEK_CUR] with offset zero) it returns it; and otherwise it
    moves to the position asked for when that is between zero and the number
    of bytes stored, and returns [-EINVAL] and does not move when it is not
    or [whence] is none of the three. *)
Theorem llseek_refines w a filp offset whence :
  device_rep w a -> is_Some (private_data filp) -> 0 <= f_pos filp < 2 ^ 63 ->
  exists r w', aesd_llseek filp offset whence w = Some (r, w') /\
    device_rep w' a /\ footprint w w' /\
    (r = (- ERESTARTSYS, filp) \/
     r = if decide (whence = SEEK_CUR /\ offset = 0) then (f_pos filp, filp)
         else match seek_target (f_pos filp) offset whence (zlen (stream a)) with
         | Some t =>
             if decide (0 <= t <= zlen (stream a))
             then (t, mk_file t (private_data filp)) else (- EINVAL, filp)
         | None => (- EINVAL, filp)
         end).
Proof.
  intros Hd Ho Hp. destruct (wp_inv _ _ _ (aesd_llseek_correct w a filp offset whence Hd Ho Hp))
    as (r & w' & Hrun & Hfp & a' & Hd' & -> & Hr).
  exists r, w'. split_and!; try done. destruct filp as [pos pd], Hr as [->|Hr]; [by left|right].
  revert Hr. unfold allseek. simpl. case_decide; [done|]. destruct (seek_target _ _ _ _); [|done]. by case_decide.
Qed.

(** The seek command on a device whose queue starts at the first slot
    of the array implements the documentation: it moves to byte
    [write_cmd_offset] of the command number [write_cmd], counted from
    the oldest, and returns [-EINVAL] when there is no such command or no
    such byte in it. *)
Theorem ioctl_seekto_documented w a filp arg :
  device_rep w a -> is_Some (private_data filp) -> out_offs (buffer (aesd_device w)) = 0 ->
  exists r w', aesd_ioctl filp AESDCHAR_IOCSEEKTO arg w = Some (r, w') /\
    device_rep w' a /\ footprint w w' /\
    (r = (- ERESTARTSYS, filp) \/ r = (- EFAULT, filp) \/
     r = aseekto (cmds a) filp (seekto_of_bytes (ubytes (kern w) arg sizeof_aesd_seekto))).
Proof.
  intros Hd Ho Hout. destruct (wp_inv _ _ _ (aesd_ioctl_correct w a filp arg Hd Ho))
    as (r & w' & Hrun & Hfp & a' & Hd' & -> & Hr).
  exists r, w'. split_and!; try done. destruct (dev_rep _ _ Hd) as [Hb _].
  erewrite (aseek_unwrapped _ _ _ _ _ Hb Hout) in Hr by apply u32_at_range. done.
Qed.

(** On any device the seek command works on the slots of the array:
    it accepts a request when the slot holds a command, and moves to the
    sum of the sizes of the slots before it, whatever their place in the
    queue. *)
Theorem ioctl_seek_by_slot w a filp arg r w' :
  device_rep w a -> is_Some (private_data filp) ->
  aesd_ioctl filp AESDCHAR_IOCSEEKTO arg w = Some ((0, r), w') ->
  let st := seekto_of_bytes (ubytes (kern w) arg sizeof_aesd_seekto) in
  let b := buffer (aesd_device w) in
  exists e, entry b !! Z.to_nat (write_cmd st) = Some e /\ buffptr e <> NULL /\
    write_cmd_offset st < entry_size e /\
    f_pos r = s64 (u64 (sumZ (sizes (take (Z.to_nat (write_cmd st)) (entry b))) +
                        write_cmd_offset st)).
Proof.
  intros Hd Ho Hrun. destruct (wp_inv _ _ _ (aesd_ioctl_correct w a filp arg Hd Ho))
    as (r' & w1 & Hrun' & _ & a' & _ & _ & Hr).
  rewrite Hrun in Hrun'. injection Hrun' as <- <-. unfold ERESTARTSYS, EFAULT in Hr.
  destruct Hr as [[=]|[[=]|Hr]]. unfold aseek, EINVAL in Hr.
  set (st := seekto_of_bytes _) in *. set (b := buffer _) in *.
  destruct (entry b !! _) as [e|] eqn:He; [|done]. case_decide as Hc; [|done].
  injection Hr as ->. exists e. destruct Hc.
  by split_and!.
Qed.

(** Every other request code is refused with [-ENOTTY] and has no
    effect. *)
Theorem ioctl_other_codes w filp cmd arg :
  cmd <> AESDCHAR_IOCSEEKTO -> aesd_ioctl filp cmd arg w = Some ((- ENOTTY, filp), w).
Proof. apply aesd_ioctl_other. Qed.

(** C21. Seek, then read: after a successful seek command to byte [off] of
    command [i] of a device whose queue starts at the first slot, a read
    that is neither interrupted nor faults delivers that command from
    that byte on, up to the size of the buffer. *)
Theorem seek_then_read w a filp arg filp' w' ubuf n c :
  let st := seekto_of_bytes (ubytes (kern w) arg sizeof_aesd_seekto) in
  device_rep w a -> is_Some (private_data filp) -> out_offs (buffer (aesd_device w)) = 0 ->
  aesd_ioctl filp AESDCHAR_IOCSEEKTO arg w = Some ((0, filp'), w') ->
  cmds a !! Z.to_nat (write_cmd st) = Some c -> 0 <= n < 2 ^ 63 ->
  exists r p w'', aesd_read filp' ubuf n (f_pos filp') w' = Some ((r, p), w'') /\
    (0 <= r -> ubytes (kern w'') ubuf r =
       take (Z.to_nat n) (drop (Z.to_nat (write_cmd_offset st)) c)).
Proof.
  intros st Hd Ho Hout Hrun Hc Hn.
  destruct (wp_inv _ _ _ (aesd_ioctl_correct w a filp arg Hd Ho))
    as (r' & w1 & Hrun' & _ & a' & Hd' & -> & Hr).
  rewrite Hrun in Hrun'. injection Hrun' as <- <-. unfold ERESTARTSYS, EFAULT in Hr.
  destruct Hr as [[=]|[[=]|Hr]]. destruct (dev_rep _ _ Hd) as [Hb _].
  assert (0 <= write_cmd_offset st) as Hoff by apply u32_at_range.
  rewrite (aseek_unwrapped _ _ _ _ _ Hb Hout Hoff) in Hr. unfold aseekto in Hr.
  rewrite Hc in Hr. case_decide as Hlt; [|done]. injection Hr as ->.
  destruct (buf_rep_total _ _ _ Hb) as [_ Hmax].
  assert (zlen (concat (take (Z.to_nat (write_cmd st)) (cmds a))) + zlen c <= zlen (concat (cmds a))).
  { rewrite <- (take_drop_middle _ _ _ Hc) at 2. rewrite concat_app, length_app. simpl.
    rewrite length_app. lia. }
  destruct (wp_inv _ _ _ (aesd_read_correct w' a
    (mk_file (zlen (concat (take (Z.to_nat (write_cmd st)) (cmds a))) + write_cmd_offset st)
       (private_data filp)) ubuf n
    (zlen (concat (take (Z.to_nat (write_cmd st)) (cmds a))) + write_cmd_offset st)
    Hd' Ho Hn ltac:(lia)))
    as ([r p] & w2 & Hrd & _ & a2 & _ & -> & _ & data & Har & Hdata).
  exists r, p, w2. side. simpl in Har, Hdata. intros Hr. rewrite Hdata by done.
  by eapply aread_cmd; [..|exact Har|]; [|lia..|].
Qed.
End theorems.

(** ** The theorems at concrete devices *)

Module DriverWitness.
Import SimKernel Demo.

(** Two commands and an unfinished one; then the bytes that finish it and
    a seek request for byte 3 of command 1. *)
Definition script : list (list byte) :=
  [bytes_of "write1" ++ [newline]; bytes_of "swrite2" ++ [newline];
   bytes_of "pend"; bytes_of "ing" ++ [newline]; le32 1 ++ le32 3].

Definition dev0 : world := after (loaded script 3) (unloaded script []).
Definition adev0 : adev := mk_adev (take 2 script) (bytes_of "pend").

Lemma dev0_rep : device_rep dev0 adev0.
Proof. apply (bool_decide_unpack _). vm_compute. exact I. Qed.

Lemma opened_some pos : is_Some (private_data (opened pos)).
Proof. by eexists. Qed.

Lemma write_refines_witness :
  exists ret pos' w' a',
    aesd_write (opened 0) (addr 3) 4 0 dev0 = Some ((ret, pos'), w') /\
    awrite adev0 (ubytes (kern dev0) (addr 3) 4) ret a' /\
    pos' = advance_pos 0 ret /\ device_rep w' a' /\ footprint dev0 w'.
Proof. apply (write_refines dev0 adev0); [apply dev0_rep|apply opened_some|lia]. Defined.

Lemma read_refines_witness :
  exists ret pos' w' data,
    aesd_read (opened 0) 0 100 9 dev0 = Some ((ret, pos'), w') /\
    aread adev0 9 100 ret data /\ (0 <= ret -> ubytes (kern w') 0 ret = data) /\
    pos' = advance_pos 9 ret /\ device_rep w' adev0 /\ footprint dev0 w'.
Proof. apply (read_refines dev0 adev0); [apply dev0_rep|apply opened_some|lia..]. Defined.

Lemma script_calls : Forall valid_call (writes script).
Proof. repeat constructor; simpl; try lia; by eexists. Qed.

Lemma lifecycle_memory_witness :
  exists r w1, aesd_init_module (unloaded script []) = Some (r, w1) /\
    (r = 0 ->
     exists rs w2 w3, run_calls aesd_fops (writes script) w1 = Some (rs, w2) /\
       length rs = length (writes script) /\ aesd_cleanup_module w2 = Some (tt, w3) /\
       forall p, p <> ZERO_SIZE_PTR ->
         p <> buffptr (current_write_entry (aesd_device w2)) ->
         blk (kern w3) p = blk (kern (unloaded script [])) p).
Proof.
  apply (lifecycle_memory (unloaded script []) (writes script)). exact script_calls.
Defined.

Lemma device_well_formed_witness :
  exists r w1, aesd_init_module (unloaded script []) = Some (r, w1) /\
    (r = 0 ->
     exists rs w2, run_calls aesd_fops (writes script) w1 = Some (rs, w2) /\
       let d := aesd_device w2 in
       let cur := current_write_entry d in
       held (lock d) = false /\
       length (entry (buffer d)) = CAP /\ 0 <= in_offs (buffer d) < 10 /\ 0 <= out_offs (buffer d) < 10 /\
       Forall (fun e => 0 < entry_size e <= KMALLOC_MAX_SIZE /\
           (fun d => zlen d) <$> blk (kern w2) (buffptr e) = Some (entry_size e)) (contents (buffer d)) /\
       NoDup (buffptr <$> contents (buffer d)) /\
       (buffptr cur = NULL /\ entry_size cur = 0 \/
        0 <= entry_size cur <= KMALLOC_MAX_SIZE /\
        (fun d => zlen d) <$> blk (kern w2) (buffptr cur) = Some (entry_size cur) /\
        buffptr cur ∉ buffptr <$> contents (buffer d))).
Proof. apply (device_well_formed (unloaded script []) (writes script)). exact script_calls. Defined.

Lemma device_size_bounded_witness :
  exists r w1, aesd_init_module (unloaded script []) = Some (r, w1) /\
    (r = 0 ->
     exists rs w2 n, run_calls aesd_fops (writes script) w1 = Some (rs, w2) /\
       aesd_circular_buffer_size (buffer (aesd_device w2)) = Some n /\
       n = sumZ (sizes (contents (buffer (aesd_device w2)))) /\
       0 <= n <= 10 * KMALLOC_MAX_SIZE /\ 10 * KMALLOC_MAX_SIZE < 2 ^ 36).
Proof. apply (device_size_bounded (unloaded script []) (writes script)). exact script_calls. Defined.

Lemma init_module_outcomes_witness :
  exists r w', aesd_init_module (unloaded script []) = Some (r, w') /\
    same_heap (kern (unloaded script [])) (kern w') /\
    let devno := MKDEV (aesd_major w') aesd_minor in
    ((r = 0 /\ device_rep w' (mk_adev [] []) /\ registered (kern w') devno /\
      cdev_ops (cdev (aesd_device w')) = OPS_AESD_FOPS) \/
     (r < 0 /\ same_devs (kern (unloaded script [])) (kern w'))).
Proof. apply (init_module_outcomes (unloaded script [])). Defined.

Definition wr : ST world (Z * Z) := aesd_write (opened 0) (addr 3) 4 0.

Lemma wr_runs : wr dev0 = Some (((ret_of wr dev0 (0, 0)).1, (ret_of wr dev0 (0, 0)).2), after wr dev0).
Proof. rewrite <- surjective_pairing. apply run_eta. vm_compute. reflexivity. Qed.

Lemma wr_newline : newline ∈ ubytes (kern dev0) (addr 3) 4.
Proof. apply (bool_decide_unpack _). vm_compute. exact I. Qed.

Lemma write_overreports_witness : (ret_of wr dev0 (0, 0)).1 = 8 /\
  (ret_of wr dev0 (0, 0)).1 = 4 + zlen (pending adev0).
Proof.
  split; [vm_compute; reflexivity|].
  apply (write_overreports dev0 adev0 (opened 0) (addr 3) 4 0 _ _ _
    dev0_rep (opened_some 0) ltac:(lia) wr_newline wr_runs).
  vm_compute. discriminate.
Defined.

Lemma write_then_read_witness : exists r p w'',
  aesd_read (opened 0) 0 100 (zlen (stream adev0)) (after wr dev0) = Some ((r, p), w'') /\
  (0 <= r -> ubytes (kern w'') 0 r = bytes_of "pending" ++ [newline]).
Proof.
  apply (write_then_read dev0 adev0 (opened 0) (addr 3) 4 _ _ _ 0 100
    dev0_rep (opened_some 0) ltac:(lia) ltac:(lia) ltac:(simpl; lia)
    wr_newline wr_runs).
  vm_compute. discriminate.
Defined.

(** From a position past the end of the stream of 15 bytes. *)
Lemma llseek_refines_witness :
  exists r w', aesd_llseek (opened 20) (-8) SEEK_CUR dev0 = Some (r, w') /\
    device_rep w' adev0 /\ footprint dev0 w' /\
    (r = (- ERESTARTSYS, opened 20) \/ r = (12, opened 12)).
Proof.
  apply (llseek_refines dev0 adev0 (opened 20) (-8) SEEK_CUR dev0_rep (opened_some 20)).
  vm_compute. split; [discriminate|reflexivity].
Defined.

Lemma ioctl_seekto_documented_witness :
  exists r w', aesd_ioctl (opened 2) AESDCHAR_IOCSEEKTO (addr 4) dev0 = Some (r, w') /\
    device_rep w' adev0 /\ footprint dev0 w' /\
    (r = (- ERESTARTSYS, opened 2) \/ r = (- EFAULT, opened 2) \/ r = (0, opened 10)).
Proof.
  apply (ioctl_seekto_documented dev0 adev0 (opened 2) (addr 4) dev0_rep (opened_some 2)).
  vm_compute. reflexivity.
Defined.

Definition sk : ST world (Z * file) := aesd_ioctl (opened 2) AESDCHAR_IOCSEEKTO (addr 4).

Lemma sk_runs : sk dev0 = Some ((0, opened 10), after sk dev0).
Proof.
  apply run_is; vm_compute; reflexivity.
Qed.

Lemma ioctl_seek_by_slot_witness :
  exists e, entry (buffer (aesd_device dev0)) !! 1%nat = Some e /\ buffptr e <> NULL /\
    3 < entry_size e /\
    f_pos (opened 10) = s64 (u64 (sumZ (sizes (take 1 (entry (buffer (aesd_device dev0))))) + 3)).
Proof.
  apply (ioctl_seek_by_slot dev0 adev0 (opened 2) (addr 4) _ _ dev0_rep (opened_some 2) sk_runs).
Defined.

Lemma ioctl_other_codes_witness :
  aesd_ioctl (opened 2) 0 0 dev0 = Some ((- ENOTTY, opened 2), dev0).
Proof. apply (ioctl_other_codes dev0 (opened 2) 0 0). vm_compute. discriminate. Defined.

Lemma seek_then_read_witness :
  exists r p w'', aesd_read (opened 10) 0 100 10 (after sk dev0) = Some ((r, p), w'') /\
    (0 <= r -> ubytes (kern w'') 0 r = bytes_of "ite2" ++ [newline]).
Proof.
  apply (seek_then_read dev0 adev0 (opened 2) (addr 4) _ _ 0 100
    (bytes_of "swrite2" ++ [newline]) dev0_rep (opened_some 2)
    ltac:(vm_compute; reflexivity) sk_runs ltac:(vm_compute; reflexivity)).
  lia.
Defined.

(** *** Runs in which the driver departs from its documentation *)

(** Eleven commands of 1, 2, ..., 11 bytes and a request for byte 0 of
    command 1. *)
Definition script11 : list (list byte) :=
  ((fun i => replicate i x61 ++ [newline]) <$> seq 0 11) ++ [le32 1 ++ le32 0].
Definition dev11 : world := after (loaded script11 11) (unloaded script11 []).
Definition adev11 : adev := mk_adev (take 10 (drop 1 script11)) [].

(** After eleven commands the seek command no longer counts commands
    from the oldest: on the device that holds commands of 2, 3, ..., 11
    bytes, a request for byte 0 of command 1 moves to position 11, inside
    the fourth command, where the documentation asks for position 2. *)
Theorem ioctl_seek_wrapped :
  device_rep dev11 adev11 /\
  fst <$> aesd_ioctl (opened 0) AESDCHAR_IOCSEEKTO (addr 11) dev11 = Some (0, opened 11) /\
  aseekto (cmds adev11) (opened 0) (mk_seekto 1 0) = (0, opened 2).
Proof.
  split; [apply (bool_decide_unpack _); vm_compute; exact I|].
  split; vm_compute; reflexivity.
Qed.

(** The module loaded, and the first three bytes of a command written. *)
Definition unfinished1 : world := after aesd_init_module (unloaded [bytes_of "abc"] []).
Definition unfinished2 : world :=
  after (run_calls aesd_fops (writes [bytes_of "abc"])) unfinished1.

(** Unloading the module while a command is unfinished leaks its
    block: there is a run of loading, one write without a newline and
    unloading after which the heap holds a block it did not hold before. *)
Theorem cleanup_leaks_pending : exists w1 rs w2 w3 p,
  aesd_init_module (unloaded [bytes_of "abc"] []) = Some (0, w1) /\
  run_calls aesd_fops (writes [bytes_of "abc"]) w1 = Some (rs, w2) /\
  aesd_cleanup_module w2 = Some (tt, w3) /\
  blk (kern (unloaded [bytes_of "abc"] [])) p = None /\
  blk (kern w3) p = Some (bytes_of "abc").
Proof.
  exists unfinished1, [3], unfinished2, (after aesd_cleanup_module unfinished2),
    (buffptr (current_write_entry (aesd_device unfinished2))).
  split; [unfold unfinished1; apply run_is; vm_compute; reflexivity|].
  split; [unfold unfinished2; apply run_is; vm_compute; reflexivity|].
  split; [apply run_is; vm_compute; reflexivity|].
  split; vm_compute; reflexivity.
Qed.
End DriverWitness.
