(* ===== verification/Posix.v ===== *)
(** * The system interface of the user-space programs

    The operating system, the C library's allocator, the other threads and
    the peers of the connections are not part of the repository.  They are
    one parameter, the environment [env]: a function from the history of
    calls a thread made, with their answers, to the answer of its next
    call.  A thread's state is that history, its [trace], and its heap.
    Statements about a run are statements about the trace it leaves; the
    documented behaviour a program relies on is class [EnvOk].

    Heap cells that were never stored to are [None]; reading one, leaving a
    block, or freeing what is not the address of a live block is undefined
    behaviour. *)

From S2P Require Import Prelude.

(** ** Calls and traces *)

Inductive syscall : Type :=
(** Memory *)
| Malloc (n : Z)
| Realloc (p n : Z)
| Free (p : Z)
(** Files *)
| Open (path : list byte) (flags mode : Z)
| Read (fd n : Z)
| Write (fd : Z) (d : list byte)
| Close (fd : Z)
| Ioctl (fd request write_cmd write_cmd_offset : Z)
| Unlink (path : list byte)
(** Sockets *)
| Socket
| Bind (fd port : Z)
| Listen (fd backlog : Z)
| Accept (fd : Z)
| Recv (fd n : Z)
| Send (fd : Z) (d : list byte)
(** Processes *)
| Fork
| Execv (path : option (list byte)) (argv : list (option (list byte)))
| Waitpid (pid : Z)
| Dup2 (fd1 fd2 : Z)
| Exit (status : Z)
| System (cmd : option (list byte))
| Daemon
(** Threads, locks and signals *)
| Usleep (us : Z)
| Lock (m : Z)
| Unlock (m : Z)
| DestroyMutex (m : Z)
| Create (thread_arg : Z)
| Join (thread_id : Z)
| Sigaction (signum : Z)
| TimerCreate
| TimerSettime (timer_id seconds : Z)
(** Reads and writes of variables shared with other threads and signal
    handlers *)
| LoadErrno
| LoadRunning
| LoadDone (node : Z)
| ClearDone (node : Z)
| StoreDone (node : Z).

(** The value a call returns, and the bytes it stores through a pointer. *)
Record answer : Type := mk_answer {
  rv : Z;
  rdata : list byte;
}.

Definition event : Type := syscall * answer.
Definition env : Type := list event -> syscall -> answer.

Definition O_RDONLY : Z := 0.
Definition O_WRONLY : Z := 1.
Definition O_RDWR : Z := 2.
Definition O_CREAT : Z := 64.
Definition O_TRUNC : Z := 512.
Definition O_APPEND : Z := 1024.

Definition PTRDIFF_MAX : Z := 2 ^ 63 - 1.

(** *** What a trace says *)

(** The heap blocks a thread holds. *)
Definition live_step (l : gset Z) (e : event) : gset Z :=
  match e.1 with
  | Malloc _ => if rv e.2 =? NULL then l else {[rv e.2]} ∪ l
  | Realloc p _ => if rv e.2 =? NULL then l else {[rv e.2]} ∪ (l ∖ {[p]})
  | Free p => l ∖ {[p]}
  | _ => l
  end.
Definition live_from (l : gset Z) (tr : list event) : gset Z := foldl live_step l tr.
Definition live (tr : list event) : gset Z := live_from ∅ tr.

(** The descriptors it holds. *)
Definition fds_step (l : gset Z) (e : event) : gset Z :=
  match e.1 with
  | Open _ _ _ | Accept _ | Socket => if rv e.2 <? 0 then l else {[rv e.2]} ∪ l
  | Close fd => l ∖ {[fd]}
  | _ => l
  end.
Definition fds_from (l : gset Z) (tr : list event) : gset Z := foldl fds_step l tr.
Definition fds (tr : list event) : gset Z := fds_from ∅ tr.

(** The mutexes it holds. *)
Definition locks_step (l : gset Z) (e : event) : gset Z :=
  match e.1 with
  | Lock m => if rv e.2 =? 0 then {[m]} ∪ l else l
  | Unlock m => if rv e.2 =? 0 then l ∖ {[m]} else l
  | _ => l
  end.
Definition locks_from (l : gset Z) (tr : list event) : gset Z := foldl locks_step l tr.
Definition locks (tr : list event) : gset Z := locks_from ∅ tr.

(** The documented behaviour the programs rely on. *)
Class EnvOk (E : env) : Prop := {
  malloc_fresh tr n : rv (E tr (Malloc n)) <> NULL -> rv (E tr (Malloc n)) ∉ live tr;
  realloc_fresh tr p n : rv (E tr (Realloc p n)) <> NULL ->
    rv (E tr (Realloc p n)) = p \/ rv (E tr (Realloc p n)) ∉ live tr;
  realloc_max tr p n : rv (E tr (Realloc p n)) <> NULL -> n <= PTRDIFF_MAX;
  open_fresh tr path flags mode : 0 <= rv (E tr (Open path flags mode)) ->
    rv (E tr (Open path flags mode)) ∉ fds tr;
  open_result tr path flags mode : -1 <= rv (E tr (Open path flags mode));
  recv_ok tr fd n : 0 <= n -> rv (E tr (Recv fd n)) <= n /\
    (0 < rv (E tr (Recv fd n)) -> zlen (rdata (E tr (Recv fd n))) = rv (E tr (Recv fd n)));
  read_ok tr fd n : 0 <= n -> rv (E tr (Read fd n)) <= n /\
    (0 < rv (E tr (Read fd n)) -> zlen (rdata (E tr (Read fd n))) = rv (E tr (Read fd n)));
}.

(** A mutex that works: a thread gets it when it does not hold it, and can
    release it when it does. *)
Class MutexOk (E : env) (m : Z) : Prop := {
  lock_ok tr : m ∉ locks tr -> rv (E tr (Lock m)) = 0;
  unlock_ok tr : m ∈ locks tr -> rv (E tr (Unlock m)) = 0;
}.

Lemma live_app tr t : live (tr ++ t) = live_from (live tr) t.
Proof. apply foldl_app. Qed.
Lemma fds_app tr t : fds (tr ++ t) = fds_from (fds tr) t.
Proof. apply foldl_app. Qed.
Lemma locks_app tr t : locks (tr ++ t) = locks_from (locks tr) t.
Proof. apply foldl_app. Qed.

(** ** Threads *)

Abbreviation cells := (list (option byte)).

Record proc : Type := mk_proc {
  trace : list event;
  mem : gmap Z cells;
}.

Definition start (tr : list event) : proc := mk_proc tr ∅.

(** Overwrite the cells from [off] on. *)
Definition store_cells (off : nat) (d : list byte) (b : cells) : cells :=
  take off b ++ (Some <$> d) ++ drop (off + length d) b.

Definition resize_cells (n : nat) (b : cells) : cells :=
  take n b ++ replicate (n - length b) None.

Section calls.
Variable E : env.

Definition sys (c : syscall) : ST proc answer := fun s =>
  let a := E (trace s) c in
  Some (a, mk_proc (trace s ++ [(c, a)]) (mem s)).

(** A call of which only the value is used. *)
Definition sysv (c : syscall) : ST proc Z := a ← sys c; mret (rv a).

Definition set_block (p : Z) (b : cells) : ST proc unit :=
  st_modify (fun s => mk_proc (trace s) (<[p := b]> (mem s))).
Definition drop_block (p : Z) : ST proc unit :=
  st_modify (fun s => mk_proc (trace s) (delete p (mem s))).
Definition block (p : Z) : ST proc cells := st_opt (fun s => mem s !! p).

Definition malloc (n : Z) : ST proc Z :=
  p ← sysv (Malloc n);
  _ ← (if p =? NULL then mret tt else set_block p (replicate (Z.to_nat n) None));
  mret p.

Definition realloc (p n : Z) : ST proc Z :=
  b ← block p;
  q ← sysv (Realloc p n);
  if q =? NULL then mret q
  else
    _ ← drop_block p;
    _ ← set_block q (resize_cells (Z.to_nat n) b);
    mret q.

Definition free (p : Z) : ST proc unit :=
  if p =? NULL then mret tt
  else
    _ ← block p;
    _ ← sys (Free p);
    drop_block p.

(** [memcpy(p + off, d, ...)] from a local array holding [d]. *)
Definition store (p off : Z) (d : list byte) : ST proc unit :=
  b ← block p;
  if decide (0 <= off /\ off + zlen d <= zlen b)
  then set_block p (store_cells (Z.to_nat off) d b)
  else st_ub.

(** The initialised bytes [off, off + n) of a block. *)
Definition load (p off n : Z) : ST proc (list byte) :=
  b ← block p;
  if decide (0 <= off /\ 0 <= n /\ off + n <= zlen b)
  then st_opt (fun _ => mapM (M := option) id (take (Z.to_nat n) (drop (Z.to_nat off) b)))
  else st_ub.

(** [memchr(p, c, n)]: whether it finds the byte. *)
Definition memchr (p : Z) (c : byte) (n : Z) : ST proc bool :=
  d ← load p 0 n;
  mret (bool_decide (is_Some (memchr_opt c d))).

(** [strncmp(p, lit, strlen(lit)) == 0]: compares until a difference or
    the end of the literal. *)
Fixpoint strncmp_cells (b : cells) (lit : list byte) : option bool :=
  match lit with
  | [] => Some true
  | c :: lit =>
      match b with
      | Some x :: b => if decide (x = c) then strncmp_cells b lit else Some false
      | _ => None
      end
  end.
Definition strncmp_eq (p : Z) (lit : list byte) : ST proc bool :=
  b ← block p;
  st_opt (fun _ => strncmp_cells b lit).

(** The C string at [p + off]: the bytes up to the first NUL. *)
Fixpoint cstring_cells (b : cells) : option (list byte) :=
  match b with
  | Some x :: b => if decide (x = nul) then Some [] else (x ::.) <$> cstring_cells b
  | _ => None
  end.
Definition cstring (p : Z) (off : nat) : ST proc (list byte) :=
  b ← block p;
  st_opt (fun _ => cstring_cells (drop off b)).
End calls.

(** ** Loops

    [iterate fuel body x] runs a loop whose locals are [x]: the body goes
    on with new locals or leaves with a result.  [None] is a loop that was
    cut off after [fuel] rounds. *)

Definition obind {S A B} (m : ST S (option A)) (f : A -> ST S (option B)) : ST S (option B) :=
  r ← m;
  match r with
  | Some a => f a
  | None => mret None
  end.
Notation "x ←? m ; k" := (obind m (fun x => k))
  (at level 20, m at level 100, k at level 200, only parsing) : c_scope.

Fixpoint iterate {S L R} (fuel : nat) (body : L -> ST S (option (L + R))) (x : L) :
    ST S (option R) :=
  match fuel with
  | O => mret None
  | S fuel =>
      obind (body x) (fun r =>
        match r with
        | inl x => iterate fuel body x
        | inr y => mret (Some y)
        end)
  end.

(** ** Rules *)

Section rules.
Context {E : env} {EOk : EnvOk E}.
Implicit Types (tr : list event) (m : gmap Z cells).

Lemma wp_sys c Q tr m :
  (forall a, a = E tr c -> Q a (mk_proc (tr ++ [(c, a)]) m)) -> wp (sys E c) Q (mk_proc tr m).
Proof. intros H. by apply (H (E tr c)). Qed.

Lemma wp_sysv c Q tr m :
  (forall a, a = E tr c -> Q (rv a) (mk_proc (tr ++ [(c, a)]) m)) ->
  wp (sysv E c) Q (mk_proc tr m).
Proof. intros H. by apply (H (E tr c)). Qed.

Lemma wp_block p b Q tr m : m !! p = Some b -> Q b (mk_proc tr m) ->
  wp (block p) Q (mk_proc tr m).
Proof. intros Hb HQ. by apply (wp_opt _ _ _ b). Qed.

Lemma wp_malloc n Q tr m :
  (forall a, rv a <> NULL -> rv a ∉ live tr ->
     Q (rv a) (mk_proc (tr ++ [(Malloc n, a)]) (<[rv a := replicate (Z.to_nat n) None]> m))) ->
  (forall a, rv a = NULL -> Q NULL (mk_proc (tr ++ [(Malloc n, a)]) m)) ->
  wp (malloc E n) Q (mk_proc tr m).
Proof.
  intros Hok Hfail. unfold malloc. wp_step. apply wp_sysv. intros a Ha. wp_step.
  destruct (Z.eqb_spec (rv a) NULL) as [Hn|Hn].
  - do 2 wp_step. rewrite Hn. by apply Hfail.
  - apply wp_modify. wp_step. apply Hok; [done|]. subst a. by apply malloc_fresh.
Qed.

Lemma wp_realloc p n b Q tr m : m !! p = Some b ->
  (forall a, rv a <> NULL -> rv a = p \/ rv a ∉ live tr -> n <= PTRDIFF_MAX ->
     Q (rv a) (mk_proc (tr ++ [(Realloc p n, a)])
       (<[rv a := resize_cells (Z.to_nat n) b]> (delete p m)))) ->
  (forall a, rv a = NULL -> Q NULL (mk_proc (tr ++ [(Realloc p n, a)]) m)) ->
  wp (realloc E p n) Q (mk_proc tr m).
Proof.
  intros Hb Hok Hfail. unfold realloc. wp_step. apply (wp_block _ b); [done|].
  wp_step. apply wp_sysv. intros a Ha.
  destruct (Z.eqb_spec (rv a) NULL) as [Hn|Hn].
  - wp_step. rewrite Hn. by apply Hfail.
  - wp_step. apply wp_modify. wp_step. apply wp_modify. wp_step. apply Hok; [done|..]; subst a;
      [by apply realloc_fresh|by eapply realloc_max].
Qed.

Lemma wp_free p b Q tr m : p <> NULL -> m !! p = Some b ->
  (forall a, Q tt (mk_proc (tr ++ [(Free p, a)]) (delete p m))) ->
  wp (free E p) Q (mk_proc tr m).
Proof.
  intros Hp Hb HQ. unfold free. rewrite (proj2 (Z.eqb_neq _ _) Hp). wp_step.
  apply (wp_block _ b); [done|]. wp_step. apply wp_sys. intros a _. apply wp_modify, HQ.
Qed.

(** A store right behind the bytes stored so far. *)
Lemma wp_store_end p d c tl Q tr :
  (length c <= length tl)%nat ->
  Q tt (mk_proc tr {[p := (Some <$> (d ++ c)) ++ drop (length c) tl]}) ->
  wp (store p (zlen d) c) Q (mk_proc tr {[p := (Some <$> d) ++ tl]}).
Proof.
  intros Hlen HQ. unfold store. wp_step. eapply wp_block; [apply lookup_singleton_eq|].
  rewrite decide_True by (rewrite length_app, length_fmap; lia).
  apply wp_modify. simpl. rewrite insert_singleton_eq.
  unfold store_cells. rewrite Nat2Z.id, take_app_length' by by rewrite length_fmap.
  rewrite <- drop_drop, drop_app_length' by by rewrite length_fmap.
  by rewrite app_assoc, <- fmap_app.
Qed.

Lemma resize_prefix n (d : list byte) tl : (length d <= n)%nat ->
  exists tl', resize_cells n ((Some <$> d) ++ tl) = (Some <$> d) ++ tl' /\
    (length d + length tl')%nat = n.
Proof.
  intros Hn. exists (take (n - length d) tl ++ replicate (n - (length d + length tl)) None).
  unfold resize_cells. rewrite take_app, take_ge by (rewrite length_fmap; lia).
  rewrite !length_app, length_fmap, <- app_assoc. side.
  rewrite length_take, length_replicate. lia.
Qed.

Lemma mapM_Some_id (d : list byte) : mapM (M := option) id (Some <$> d) = Some d.
Proof. apply mapM_Some_2. induction d; simpl; by constructor. Qed.

Lemma wp_load p d tl Q tr :
  Q d (mk_proc tr {[p := (Some <$> d) ++ tl]}) ->
  wp (load p 0 (zlen d)) Q (mk_proc tr {[p := (Some <$> d) ++ tl]}).
Proof.
  intros HQ. unfold load. wp_step. eapply wp_block; [apply lookup_singleton_eq|].
  rewrite decide_True by (rewrite length_app, length_fmap; lia).
  eapply wp_opt; [|done]. rewrite drop_0, Nat2Z.id, take_app_length' by by rewrite length_fmap.
  apply mapM_Some_id.
Qed.

Lemma wp_load_run p d tl tr :
  load p 0 (zlen d) (mk_proc tr {[p := (Some <$> d) ++ tl]}) =
  Some (d, mk_proc tr {[p := (Some <$> d) ++ tl]}).
Proof.
  destruct (wp_inv _ _ _ (wp_load p d tl (fun r s => r = d /\ s = mk_proc tr {[p := (Some <$> d) ++ tl]})
    tr (conj eq_refl eq_refl))) as (r & s & Hrun & -> & ->). done.
Qed.

Lemma wp_memchr p c d tl Q tr :
  Q (bool_decide (c ∈ d)) (mk_proc tr {[p := (Some <$> d) ++ tl]}) ->
  wp (memchr p c (zlen d)) Q (mk_proc tr {[p := (Some <$> d) ++ tl]}).
Proof.
  intros HQ. unfold memchr. wp_step. apply wp_load. wp_step.
  by rewrite (bool_decide_ext _ _ (memchr_opt_Some c d)).
Qed.

(** On a terminated string [strncmp] decides whether it starts with the
    literal. *)
Lemma strncmp_cells_prefix d tl lit : nul ∉ lit ->
  strncmp_cells ((Some <$> d) ++ Some nul :: tl) lit = Some (bool_decide (lit `prefix_of` d)).
Proof.
  revert d. induction lit as [|c lit IH]; intros d Hlit; [by destruct d|].
  apply not_elem_of_cons in Hlit as [Hc Hlit]. destruct d as [|x d]; cbn.
  - by rewrite decide_False by done.
  - case_decide as Hx.
    + subst x. rewrite IH by done. f_equal. apply bool_decide_ext.
      split; [apply prefix_cons|apply prefix_cons_inv_2].
    + rewrite bool_decide_false; [done|]. intros H%prefix_cons_inv_1. done.
Qed.

(** The bytes of a string up to the first NUL. *)
Fixpoint cstr (d : list byte) : list byte :=
  match d with
  | [] => []
  | x :: d => if decide (x = nul) then [] else x :: cstr d
  end.

Lemma cstring_cells_cstr d tl :
  cstring_cells ((Some <$> d) ++ Some nul :: tl) = Some (cstr d).
Proof.
  induction d as [|x d IH]; [done|]. rewrite fmap_cons. simpl.
  case_decide; [done|]. by rewrite IH.
Qed.

(** Loops: an invariant, and what is left behind when the fuel runs out
    is not looked at. *)
Lemma wp_iterate {L R} (I : L -> proc -> Prop) (Q : option R -> proc -> Prop) body fuel x s :
  (forall x s, I x s ->
     wp (body x) (fun r s' =>
       match r with
       | Some (inl x') => I x' s'
       | Some (inr y) => Q (Some y) s'
       | None => Q None s'
       end) s) ->
  (forall x s, I x s -> Q None s) ->
  I x s -> wp (iterate fuel body x) Q s.
Proof.
  intros Hbody Hend. revert x s. induction fuel as [|fuel IH]; intros x s HI; simpl.
  { wp_step. by eapply Hend. }
  unfold obind. wp_step. eapply wp_mono; [by apply Hbody|].
  intros [[x'|y]|] s' H; [by apply IH|by wp_step..].
Qed.

(** Loops that come to an end: the measure goes down in every round. *)
Lemma wp_iterate_total {L R} (I : L -> proc -> Prop) (M : L -> proc -> nat) (Q : R -> proc -> Prop)
    body fuel x s :
  (forall x s, I x s ->
     wp (body x) (fun r s' =>
       match r with
       | Some (inl x') => I x' s' /\ (M x' s' < M x s)%nat
       | Some (inr y) => Q y s'
       | None => False
       end) s) ->
  I x s -> (M x s < fuel)%nat ->
  wp (iterate fuel body x) (fun r s' => exists y, r = Some y /\ Q y s') s.
Proof.
  intros Hbody. revert x s. induction fuel as [|fuel IH]; intros x s HI Hm; [lia|]. simpl.
  unfold obind. wp_step. eapply wp_mono; [by apply Hbody|].
  intros [[x'|y]|] s' H; [|by wp_step; eauto|done].
  destruct H as [HI' Hlt]. apply IH; [done|lia].
Qed.
End rules.

(** ** Rules for runs that may not end *)

Section pc_rules.
Context {E : env}.

Lemma pc_sys c Q tr m :
  (forall a, a = E tr c -> Q a (mk_proc (tr ++ [(c, a)]) m)) -> pc (sys E c) Q (mk_proc tr m).
Proof. intros H a s [= <- <-]. by apply H. Qed.

Lemma pc_sysv c Q tr m :
  (forall a, a = E tr c -> Q (rv a) (mk_proc (tr ++ [(c, a)]) m)) -> pc (sysv E c) Q (mk_proc tr m).
Proof. intros H a s [= <- <-]. by apply H. Qed.

(** A loop keeps an invariant, also when it is cut off. *)
Lemma pc_iterate {S L R} (I : L -> S -> Prop) (Q : option R -> S -> Prop) body fuel x s :
  (forall x s, I x s ->
     pc (body x) (fun r s' =>
       match r with
       | Some (inl x') => I x' s'
       | Some (inr y) => Q (Some y) s'
       | None => Q None s'
       end) s) ->
  (forall x s, I x s -> Q None s) ->
  I x s -> pc (iterate fuel body x) Q s.
Proof.
  intros Hbody Hend. revert x s. induction fuel as [|fuel IH]; intros x s HI; simpl.
  { pc_step. by eapply Hend. }
  unfold obind. pc_step. eapply pc_mono; [by apply Hbody|].
  intros [[x'|y]|] s' H; [by apply IH|by pc_step..].
Qed.
End pc_rules.

(** ** Invariants of a computation

    [preserves I m]: a run of [m] from a state with the invariant [I], ended
    or cut off, leaves a state with it. *)

Definition preserves {S A} (I : S -> Prop) (m : ST S A) : Prop := forall s, I s -> pc m (fun _ => I) s.

Section preserves.
Context {S : Type} (I : S -> Prop).

Lemma preserves_ret {A} (a : A) : preserves I (mret a).
Proof. intros s Hs. by pc_step. Qed.

Lemma preserves_bind {A B} (m : ST S A) (f : A -> ST S B) :
  preserves I m -> (forall a, preserves I (f a)) -> preserves I (m ≫= f).
Proof. intros Hm Hf s Hs. pc_step. eapply pc_mono; [by apply Hm|]. intros a s' Hs'. by apply Hf. Qed.

Lemma preserves_obind {A B} (m : ST S (option A)) (f : A -> ST S (option B)) :
  preserves I m -> (forall a, preserves I (f a)) -> preserves I (obind m f).
Proof. intros Hm Hf. apply preserves_bind; [done|]. intros [a|]; [done|apply preserves_ret]. Qed.

Lemma preserves_opt {A} (f : S -> option A) : preserves I (st_opt f).
Proof. intros s Hs. by pc_step. Qed.

Lemma preserves_ub {A} : preserves I (st_ub : ST S A).
Proof. done. Qed.

Lemma preserves_modify (f : S -> S) : (forall s, I s -> I (f s)) -> preserves I (st_modify f).
Proof. intros Hf s Hs. pc_step. by apply Hf. Qed.

Lemma preserves_iterate {L R} fuel (body : L -> ST S (option (L + R))) x :
  (forall x, preserves I (body x)) -> preserves I (iterate fuel body x).
Proof.
  intros Hb s Hs. apply (pc_iterate (fun _ => I) (fun _ => I)); [|done|done].
  intros x' s' Hs'. eapply pc_mono; [by apply Hb|]. by intros [[?|?]|].
Qed.
End preserves.

(** Opens the next construct of a program; [tac] is for the calls. *)
Ltac preserve_with tac :=
  intros; repeat
  lazymatch goal with
  | |- preserves _ (mret _) => apply preserves_ret
  | |- preserves _ (obind _ _) => apply preserves_obind; [|intros ?]
  | |- preserves _ (mbind _ _) => apply preserves_bind; [|intros ?]
  | |- preserves _ (st_opt _) => apply preserves_opt
  | |- preserves _ (block _) => apply preserves_opt
  | |- preserves _ st_ub => apply preserves_ub
  | |- preserves _ (iterate _ _ _) => apply preserves_iterate; intros ?
  | |- preserves _ (if ?b then _ else _) => destruct b
  | |- preserves _ (match ?b with _ => _ end) => destruct b
  | |- preserves _ (let _ := _ in _) => cbv zeta
  | |- preserves _ _ => tac
  end.

(** ** Automata over traces *)

Section automaton.
Context {S : Type} (step : S -> event -> option S).

Definition run_from (s : option S) (tr : list event) : option S :=
  foldl (fun o e => s ← o; step s e) s tr.

Lemma run_from_app s t1 t2 : run_from s (t1 ++ t2) = run_from (run_from s t1) t2.
Proof. apply foldl_app. Qed.

Lemma run_from_cons s e t : run_from s (e :: t) = run_from (s ≫= fun s => step s e) t.
Proof. done. Qed.

Lemma run_from_snoc s t e : run_from s (t ++ [e]) = run_from s t ≫= fun s => step s e.
Proof. apply run_from_app. Qed.

Lemma run_from_None t : run_from None t = None.
Proof. by induction t. Qed.

Lemma run_from_prefix s t1 t2 : t1 `prefix_of` t2 -> is_Some (run_from s t2) -> is_Some (run_from s t1).
Proof.
  intros [t ->]. rewrite run_from_app. destruct (run_from s t1); [by eexists|]. rewrite run_from_None. by intros [].
Qed.

(** Rule induction along the run. *)
Lemma run_ind (P : list event -> S -> Prop) s0 :
  P [] s0 ->
  (forall t s e s', run_from (Some s0) t = Some s -> P t s -> step s e = Some s' -> P (t ++ [e]) s') ->
  forall t s, run_from (Some s0) t = Some s -> P t s.
Proof.
  intros H0 Hstep t. induction t as [|e t IH] using rev_ind; intros s Hs; [by injection Hs as <-|].
  rewrite run_from_snoc in Hs. destruct (run_from (Some s0) t) as [s1|] eqn:H1; [|done]. by eapply Hstep; [|apply IH|].
Qed.
End automaton.
