(* ===== verification/Handler.v ===== *)
(** * The connection handler of the socket server

    Models [server/handler.c] and the constants of [server/handler.h] and
    [server/aesdsocket.h]: [handle_connection], which runs in a thread of its
    own for each client, [write_to_client] and [append_packet].  The macro
    [USE_AESD_CHAR_DEVICE] is the variable [char_device]; both builds are
    covered.  Logging calls are left out. *)

From S2P Require Import Prelude Posix.

Definition BUFFER_SIZE : Z := 1024.
Definition SEEKTO : list byte := bytes_of "AESDCHAR_IOCSEEKTO:".

(** ** The conversion ["%d,%d"] of sscanf *)

Definition byte_in (b : byte) (lo hi : N) : bool :=
  ((lo <=? Byte.to_N b) && (Byte.to_N b <=? hi))%N.
Definition isspace (b : byte) : bool := byte_in b 9 13 || byte_in b 32 32.
Definition isdigit (b : byte) : bool := byte_in b 48 57.
Definition digit_of (b : byte) : Z := Z.of_N (Byte.to_N b) - 48.

Fixpoint skip_space (s : list byte) : list byte :=
  match s with
  | b :: s' => if isspace b then skip_space s' else s
  | [] => []
  end.

(** The number the leading digits of [s] denote, and what follows them. *)
Fixpoint scan_digits (acc : Z) (s : list byte) : Z * list byte :=
  match s with
  | b :: s' => if isdigit b then scan_digits (10 * acc + digit_of b) s' else (acc, s)
  | [] => (acc, [])
  end.

Definition scan_unsigned (s : list byte) : option (Z * list byte) :=
  match s with
  | b :: _ => if isdigit b then Some (scan_digits 0 s) else None
  | [] => None
  end.

(** One ["%d"]: white space, an optional sign and digits. *)
Definition scan_int (s : list byte) : option (Z * list byte) :=
  match skip_space s with
  | x2b :: s' => scan_unsigned s'
  | x2d :: s' => '(v, r) ← scan_unsigned s'; Some (- v, r)
  | s' => scan_unsigned s'
  end.

(** Both numbers, when sscanf returns 2. *)
Definition sscanf_d_d (s : list byte) : option (Z * Z) :=
  '(v1, r1) ← scan_int s;
  match r1 with
  | x2c :: r2 => '(v2, _) ← scan_int r2; Some (v1, v2)
  | _ => None
  end.

(** ** The handler *)

Record conn_info : Type := mk_conn {
  conn_addr : Z;
  clfd : Z;
  file_mutex : Z;
}.

Section handler.
Variable E : env.
(** The build: whether [USE_AESD_CHAR_DEVICE] is defined. *)
Variable char_device : bool.
(** The value of the macro [AESDCHAR_IOCSEEKTO]. *)
Variable IOCSEEKTO : Z.
(** What ["%d"] stores for a number: the standard leaves this open for a
    number that is not an [int]. *)
Variable int_of : Z -> Z.

Definition FILENAME : list byte :=
  bytes_of (if char_device then "/dev/aesdchar" else "/var/tmp/aesdsocketdata").

(** Every call that can be cut off takes [fuel], the bound on the rounds
    of a loop. *)
Definition write_to_client (fuel : nat) (fd clfd : Z) : ST proc (option Z) :=
  iterate fuel (fun _ =>
    a ← sys E (Read fd BUFFER_SIZE);
    let n := rv a in
    if negb (0 <? n) then mret (Some (inr 0))
    else if n <? 0 then mret (Some (inr (-1)))
    else
      sent ← sysv E (Send clfd (take (Z.to_nat n) (rdata a)));
      if negb (sent =? n) then mret (Some (inr (-1))) else mret (Some (inl tt))) tt.

Definition append_packet (fname : list byte) (buf len : Z) : ST proc Z :=
  fd ← sysv E (Open fname (Z.lor (Z.lor O_WRONLY O_CREAT) O_APPEND) 420);
  if fd =? -1 then mret (-1)
  else
    d ← load buf 0 len;
    res ← sysv E (Write fd d);
    if res =? -1 then
      _ ← sys E (Close fd);
      mret (-1)
    else
      _ ← sys E (Close fd);
      mret 0.

Definition lock_file (c : conn_info) : ST proc unit :=
  if char_device then mret tt else _ ← sys E (Lock (file_mutex c)); mret tt.
Definition unlock_file (c : conn_info) : ST proc unit :=
  if char_device then mret tt else _ ← sys E (Unlock (file_mutex c)); mret tt.

(** The locals of the receive loop are [data_buffer] and [data_len]; it
    leaves with [n] and [data_buffer]. *)
Definition locals : Type := Z * Z.
Definition leave (n p : Z) : ST proc (option (locals + Z * Z)) := mret (Some (inr (n, p))).
Definition go_on (p len : Z) : ST proc (option (locals + Z * Z)) := mret (Some (inl (p, len))).

(** The seek command in the buffer at [p]; [true] when the loop has to be
    left. *)
Definition seek_command (fuel : nat) (c : conn_info) (fd p : Z) : ST proc (option bool) :=
  seek_args ← cstring p (length SEEKTO);
  match sscanf_d_d seek_args with
  | Some (v1, v2) =>
      let write_cmd := int_of v1 in
      let write_cmd_offset := int_of v2 in
      ioctl_result ← sysv E (Ioctl fd IOCSEEKTO (u32 write_cmd) (u32 write_cmd_offset));
      if negb (ioctl_result =? 0) then mret (Some true)
      else
        r ←? write_to_client fuel fd (clfd c);
        mret (Some (negb (r =? 0)))
  | None => mret (Some false)
  end.

(** Drop the buffer for a new one; [data_len] is zero again. *)
Definition reset_buffer (p : Z) : ST proc Z :=
  _ ← free E p;
  malloc E BUFFER_SIZE.

Definition seek_branch (fuel : nat) (c : conn_info) (fd n p : Z) :
    ST proc (option (locals + Z * Z)) :=
  brk ←? seek_command fuel c fd p;
  if (brk : bool) then leave n p
  else
    q ← reset_buffer p;
    if q =? NULL then leave n q else go_on q 0.

Definition packet_branch (fuel : nat) (c : conn_info) (fd n p len : Z) :
    ST proc (option (locals + Z * Z)) :=
  _ ← lock_file c;
  r ← append_packet FILENAME p len;
  if negb (r =? 0) then
    _ ← unlock_file c;
    leave n p
  else
    _ ← unlock_file c;
    q ← reset_buffer p;
    if q =? NULL then leave n q
    else
      w ←? write_to_client fuel fd (clfd c);
      if negb (w =? 0) then leave n q else go_on q 0.

(** Make room for [n] more bytes; [NULL] when there is none. *)
Definition grow (p len n : Z) : ST proc Z :=
  if BUFFER_SIZE <=? len +u64 n then
    let new_size := u64 (2 * (len +u64 n)) in
    realloc E p new_size
  else mret p.

Definition recv_body (fuel : nat) (c : conn_info) (fd : Z) (x : locals) :
    ST proc (option (locals + Z * Z)) :=
  let '(p, len) := x in
  a ← sys E (Recv (clfd c) (BUFFER_SIZE - 1));
  let n := rv a in
  if negb (0 <? n) then leave n p
  else
    q ← grow p len n;
    if q =? NULL then leave n p
    else
      _ ← store q len (take (Z.to_nat n) (rdata a));
      let len' := len +u64 n in
      _ ← store q len' [nul];
      is_seek ← strncmp_eq q SEEKTO;
      if (is_seek : bool) then seek_branch fuel c fd n q
      else
        nl ← memchr q newline len';
        if (nl : bool) then packet_branch fuel c fd n q len'
        else go_on q len'.

Definition finish (c : conn_info) : ST proc (option unit) :=
  _ ← sys E (StoreDone (conn_addr c));
  mret (Some tt).

Definition handle_connection (fuel : nat) (c : conn_info) : ST proc (option unit) :=
  data_buffer ← malloc E BUFFER_SIZE;
  if data_buffer =? NULL then
    _ ← sys E (Close (clfd c));
    finish c
  else
    fd ← sysv E (Open FILENAME O_RDONLY 0);
    if fd <? 0 then
      _ ← sys E (Close (clfd c));
      _ ← free E data_buffer;
      finish c
    else
      r ←? iterate fuel (recv_body fuel c fd) (data_buffer, 0);
      let '(n, p) := r : Z * Z in
      _ ← sys E (Close fd);
      _ ← free E p;
      if n <? 0 then
        _ ← sys E (Close (clfd c));
        finish c
      else
        _ ← sys E (Close (clfd c));
        finish c.
End handler.
