(* ===== verification/HandlerSpec.v ===== *)
(** * What a connection does

    The protocol of a connection is a function of the chunks received:
    [feed] collects bytes until a chunk completes a command, and says what
    is done to the file for it, an [Append] of the packet or a [Seek].  The
    theorems relate the trace of [handle_connection] to it, and state that
    the thread is memory safe, gives back its memory, its descriptors and
    its lock, and signals its end last. *)

From S2P Require Import Prelude Posix Handler.

(** ** Observations of a trace *)

(** The bytes a [recv] delivered, a [read] delivered, a [send] was given. *)
Definition recv_data (e : event) : option (list byte) :=
  match e with
  | (Recv _ _, a) => if 0 <? rv a then Some (take (Z.to_nat (rv a)) (rdata a)) else None
  | _ => None
  end.
Definition read_data (e : event) : option (list byte) :=
  match e with
  | (Read _ _, a) => if 0 <? rv a then Some (take (Z.to_nat (rv a)) (rdata a)) else None
  | _ => None
  end.
(** The bytes handed to [send], also when it takes fewer. *)
Definition send_data (e : event) : option (list byte) :=
  match e with
  | (Send _ d, _) => Some d
  | _ => None
  end.

Inductive action : Type :=
| Append (d : list byte)
| Seek (write_cmd write_cmd_offset : Z).

Definition file_action (e : event) : option action :=
  match e with
  | (Write _ d, _) => Some (Append d)
  | (Ioctl _ _ c o, _) => Some (Seek c o)
  | _ => None
  end.

Definition chunks (t : list event) : list (list byte) := omap recv_data t.
Definition reads (t : list event) : list (list byte) := omap read_data t.
Definition sends (t : list event) : list (list byte) := omap send_data t.
Definition actions (t : list event) : list action := omap file_action t.

(** The number of bytes a trace has read. *)
Definition consumed (u : list event) : nat := length (concat (reads u)).

Lemma reads_app t1 t2 : reads (t1 ++ t2) = reads t1 ++ reads t2.
Proof. apply omap_app. Qed.
Lemma sends_app t1 t2 : sends (t1 ++ t2) = sends t1 ++ sends t2.
Proof. apply omap_app. Qed.

(** One round of the echo loop: a read that returns data, and its send. *)
Lemma echo_round u fd cl n a b d v :
  0 < rv a -> d = take (Z.to_nat (rv a)) (rdata a) ->
  v = u ++ [(Read fd n, a); (Send cl d, b)] ->
  reads v = reads u ++ [d] /\ sends v = sends u ++ [d] /\
  consumed v = (consumed u + length d)%nat.
Proof.
  intros Hn Hd Hv. assert (reads v = reads u ++ [d]) as Hr.
  { rewrite Hv, Hd, reads_app. cbn. by destruct (Z.ltb_spec 0 (rv a)); [|lia]. }
  side. split; [rewrite Hv; apply sends_app|].
  unfold consumed. rewrite Hr, concat_app, length_app. simpl. by rewrite app_nil_r.
Qed.

(** When the round reads the next bytes of [rest], what was read is still a
    prefix of it. *)
Lemma echo_round_prefix u fd cl n a b d v rest :
  0 < rv a -> d = take (Z.to_nat (rv a)) (rdata a) ->
  v = u ++ [(Read fd n, a); (Send cl d, b)] ->
  d = take (Z.to_nat (rv a)) (drop (consumed u) rest) ->
  rv a <= zlen (drop (consumed u) rest) ->
  concat (reads u) = take (consumed u) rest ->
  zlen d = rv a /\ (consumed u < consumed v <= length rest)%nat /\
  concat (reads v) = take (consumed v) rest.
Proof.
  intros Hn Hd Hv Hd' Hle Hu. destruct (echo_round u fd cl n a b d v) as (Hr & _ & Hc); [done..|].
  rewrite length_drop in Hle.
  assert (zlen d = rv a) as Hl by (rewrite Hd', length_take, length_drop; lia).
  rewrite Hc. side. split; [lia|].
  rewrite Hr, concat_app, Hu. simpl. rewrite app_nil_r, Hd'.
  rewrite take_take_drop, length_take, length_drop. f_equal. lia.
Qed.

(** At the end of [rest] everything was read. *)
Lemma consumed_all u rest :
  drop (consumed u) rest = [] -> concat (reads u) = take (consumed u) rest ->
  concat (reads u) = rest.
Proof.
  intros Hnil ->. apply take_ge. apply (f_equal length) in Hnil.
  rewrite length_drop in Hnil. simpl in Hnil. lia.
Qed.

Lemma chunks_app t1 t2 : chunks (t1 ++ t2) = chunks t1 ++ chunks t2.
Proof. apply omap_app. Qed.
Lemma actions_app t1 t2 : actions (t1 ++ t2) = actions t1 ++ actions t2.
Proof. apply omap_app. Qed.

(** No [recv] among the events; none that found the connection closed or
    broken. *)
Definition no_recv (t : list event) : Prop :=
  forallb (fun e : event => match e.1 with Recv _ _ => false | _ => true end) t = true.
Definition connected (t : list event) : Prop :=
  forallb (fun e : event => match e.1 with Recv _ _ => 0 <? rv e.2 | _ => true end) t = true.

Lemma no_recv_app t1 t2 : no_recv (t1 ++ t2) <-> no_recv t1 /\ no_recv t2.
Proof. unfold no_recv. rewrite forallb_app. apply andb_true_iff. Qed.
Lemma connected_app t1 t2 : connected (t1 ++ t2) <-> connected t1 /\ connected t2.
Proof. unfold connected. rewrite forallb_app. apply andb_true_iff. Qed.

Lemma no_recv_quiet t : no_recv t -> chunks t = [] /\ connected t.
Proof.
  unfold no_recv, connected. induction t as [|[c a] t IH]; [done|]. simpl.
  intros [Hc Ht]%andb_true_iff. destruct (IH Ht) as [IH1 IH2]. destruct c; try done; by split.
Qed.

(** Every write to the file is made while holding [m]; [l] is what the
    thread holds at the start. *)
Fixpoint guarded (m : Z) (l : gset Z) (t : list event) : Prop :=
  match t with
  | [] => True
  | e :: t =>
      match e.1 with
      | Write _ _ => m ∈ l
      | _ => True
      end /\ guarded m (locks_step l e) t
  end.

(** The thread has not announced its end. *)
Definition is_running (e : event) : bool :=
  match e.1 with
  | StoreDone _ => false
  | _ => true
  end.
Definition running (t : list event) : Prop := forallb is_running t = true.

Lemma running_app t1 t2 : running (t1 ++ t2) <-> running t1 /\ running t2.
Proof. unfold running. rewrite forallb_app. apply andb_true_iff. Qed.

Lemma guarded_app m l t1 t2 :
  guarded m l (t1 ++ t2) <-> guarded m l t1 /\ guarded m (locks_from l t1) t2.
Proof. revert l. induction t1 as [|e t1 IH]; intros l; simpl; [tauto|]. rewrite IH. tauto. Qed.

(** ** The protocol *)

Section protocol.
Variable int_of : Z -> Z.

Definition seek_action (args : list byte) : list action :=
  match sscanf_d_d args with
  | Some (v1, v2) => [Seek (u32 (int_of v1)) (u32 (int_of v2))]
  | None => []
  end.

(** What is done so far and the bytes of the unfinished packet. *)
Definition feed (st : list action * list byte) (c : list byte) : list action * list byte :=
  let d := st.2 ++ c in
  if decide (SEEKTO `prefix_of` d) then
    (st.1 ++ seek_action (cstr (drop (length SEEKTO) d)), [])
  else if decide (newline ∈ d) then (st.1 ++ [Append d], [])
  else (st.1, d).

Definition session (cs : list (list byte)) : list action * list byte := foldl feed ([], []) cs.

Lemma session_snoc cs c : session (cs ++ [c]) = feed (session cs) c.
Proof. unfold session. by rewrite foldl_app. Qed.

Lemma feed_mono st c : st.1 `prefix_of` (feed st c).1.
Proof. unfold feed. repeat case_decide; simpl; by (apply prefix_app_r || done). Qed.

(** The state of the protocol after the events [t], as long as the
    connection is there. *)
Definition progress (t : list event) (st : list action * list byte) : Prop :=
  connected t /\ session (chunks t) = st.

Lemma progress_app t u st : no_recv u -> progress t st -> progress (t ++ u) st.
Proof.
  intros [Hc Ho]%no_recv_quiet [H1 H2]. split; [by apply connected_app|].
  by rewrite chunks_app, Hc, app_nil_r.
Qed.
End protocol.

(** ** Echoing *)

(** The events of [write_to_client]. *)
Definition is_echo (fd cl : Z) (e : event) : Prop :=
  match e.1 with
  | Read f _ => f = fd
  | Send f _ => f = cl
  | _ => False
  end.

(** Events that leave descriptors and locks alone, write nothing to the
    file and send what they read. *)
Record quiet (u : list event) : Prop := {
  quiet_fds l : fds_from l u = l;
  quiet_locks l : locks_from l u = l;
  quiet_guarded m l : guarded m l u;
  quiet_recv : no_recv u;
  quiet_actions : actions u = [];
  quiet_sends : sends u = reads u;
  quiet_running : running u;
}.

Lemma quiet_nil : quiet [].
Proof. done. Qed.

Lemma quiet_app u1 u2 : quiet u1 -> quiet u2 -> quiet (u1 ++ u2).
Proof.
  intros [A1 A2 A3 A4 A5 A6 A7] [B1 B2 B3 B4 B5 B6 B7].
  split; intros; unfold fds_from, locks_from, actions, sends, reads in *;
    rewrite ?foldl_app, ?omap_app.
  - by rewrite A1, B1.
  - by rewrite A2, B2.
  - apply guarded_app. by split.
  - by apply no_recv_app.
  - by rewrite A5, B5.
  - by rewrite A6, B6.
  - by apply running_app.
Qed.

Lemma echo_quiet fd cl t : Forall (is_echo fd cl) t -> sends t = reads t ->
  quiet t /\ forall l, live_from l t = l.
Proof.
  intros Ht Hs. enough ((forall l, live_from l t = l) /\ (forall l, fds_from l t = l) /\
    (forall l, locks_from l t = l) /\ (forall m l, guarded m l t) /\
    no_recv t /\ actions t = [] /\ running t) by (split; [by destruct_and!; split|tauto]).
  clear Hs. induction Ht as [|[c a] t He Ht (IH1 & IH2 & IH3 & IH4 & IH5 & IH6 & IH7)]; [done|].
  destruct c; try done; split_and!; intros; try done; try apply IH1; try apply IH2; try apply IH3;
    (split; [done|apply IH4]).
Qed.

Section echo.
Context {E : env} {EOk : EnvOk E}.

Lemma write_to_client_echo fuel fd cl tr m :
  wp (write_to_client E fuel fd cl) (fun _ s' => exists t,
    s' = mk_proc (tr ++ t) m /\ Forall (is_echo fd cl) t /\ sends t = reads t) (mk_proc tr m).
Proof.
  set (I := fun s' : proc => exists t,
    s' = mk_proc (tr ++ t) m /\ Forall (is_echo fd cl) t /\ sends t = reads t).
  apply (wp_iterate (fun _ : unit => I) (fun _ => I)); [|done|].
  2:{ exists []. by rewrite app_nil_r. }
  intros _ _ (t & -> & Ht & Hs). wp_step. apply wp_sys. intros a Ha. cbv beta zeta.
  destruct (Z.ltb_spec 0 (rv a)) as [Hn|Hn]; cbn [negb].
  - destruct (Z.ltb_spec (rv a) 0); [lia|].
    wp_step. apply wp_sysv. intros b _.
    assert (I (mk_proc (((tr ++ t) ++ [(Read fd BUFFER_SIZE, a)]) ++
              [(Send cl (take (Z.to_nat (rv a)) (rdata a)), b)]) m)) as HI.
    { exists (t ++ [(Read fd BUFFER_SIZE, a); (Send cl (take (Z.to_nat (rv a)) (rdata a)), b)]).
      rewrite <- !app_assoc. side. split; [by apply Forall_app; split; [|repeat constructor]|].
      unfold sends, reads in *. rewrite !omap_app, Hs. cbn.
      by destruct (Z.ltb_spec 0 (rv a)); [|lia]. }
    destruct (negb _); wp_step; done.
  - wp_step. exists (t ++ [(Read fd BUFFER_SIZE, a)]). rewrite app_assoc. side.
    split; [by apply Forall_app; split; [|repeat constructor]|].
    unfold sends, reads in *. rewrite !omap_app, Hs. cbn.
    by destruct (Z.ltb_spec 0 (rv a)); [lia|].
Qed.
End echo.

(** ** Appending *)

Section append.
Context {E : env} {EOk : EnvOk E}.

(** The heap of a thread with one block, which starts with [d]. *)
Definition buf (p : Z) (d : list byte) (tl : cells) : gmap Z cells :=
  {[p := (Some <$> d) ++ tl]}.

(** What [append_packet] leaves in the trace. *)
Record appended (fdset : gset Z) (d : list byte) (r : Z) (u : list event) : Prop := {
  app_live l : live_from l u = l;
  app_fds : fds_from fdset u = fdset;
  app_locks l : locks_from l u = l;
  app_guarded m l : m ∈ l -> guarded m l u;
  app_recv : no_recv u;
  app_sends : sends u = reads u;
  app_running : running u;
  app_actions : actions u = [Append d] \/ (actions u = [] /\ r <> 0);
}.

(** Its events: a failed open, or an open, the write of the whole packet
    and the close. *)
Definition append_events (fname d : list byte) (r : Z) (u : list event) : Prop :=
  let oc := Open fname (Z.lor (Z.lor O_WRONLY O_CREAT) O_APPEND) 420 in
  exists o, (u = [(oc, o)] /\ rv o = -1 /\ r = -1) \/
    (rv o <> -1 /\ exists w z, u = [(oc, o); (Write (rv o) d, w); (Close (rv o), z)] /\
       r = if rv w =? -1 then -1 else 0).

Lemma append_packet_ok fname p d tl fdset tr :
  fds tr = fdset ->
  wp (append_packet E fname p (zlen d)) (fun r s' => exists u,
    s' = mk_proc (tr ++ u) (buf p d tl) /\ appended fdset d r u /\ append_events fname d r u)
    (mk_proc tr (buf p d tl)).
Proof.
  intros Hf. unfold append_packet. wp_step. apply wp_sysv. intros a Ha. cbv beta.
  set (oc := Open fname _ _) in *.
  destruct (Z.eqb_spec (rv a) (-1)) as [Hm|Hm].
  { wp_step. exists [(oc, a)]. side. split; [|exists a; by left].
    split; try done; [|right; by split]. cbn. unfold fds_step. simpl. by rewrite Hm. }
  assert (0 <= rv a) as Hge.
  { pose proof (open_result (E := E) tr fname (Z.lor (Z.lor O_WRONLY O_CREAT) O_APPEND) 420).
    subst a. unfold oc in *. lia. }
  assert (rv a ∉ fdset) as Hnew by (subst a fdset; by apply open_fresh).
  wp_step. apply wp_load. wp_step. apply wp_sysv. intros b _. cbv beta.
  assert (forall z r, appended fdset d r [(oc, a); (Write (rv a) d, b); (Close (rv a), z)]) as Happ.
  { intros z r. split; try done; [|by left]. cbn. unfold fds_step. simpl.
    destruct (Z.ltb_spec (rv a) 0); [lia|]. set_solver. }
  destruct (rv b =? -1) eqn:Hb; wp_step; apply wp_sys; intros z _; wp_step;
    (eexists; split; [by rewrite <- !app_assoc|split; [apply Happ|]]);
    exists a; right; (side); exists b, z; by rewrite Hb.
Qed.
End append.

(** ** The buffer *)

(** Calls of the allocator. *)
Definition mem_event (e : event) : bool :=
  match e.1 with
  | Malloc _ | Realloc _ _ | Free _ => true
  | _ => false
  end.

Lemma mem_quiet u : forallb mem_event u = true -> quiet u.
Proof.
  induction u as [|[c a] u IH]; [intros _; apply quiet_nil|].
  simpl. intros [Hc Hu]%andb_true_iff. apply (quiet_app [(c, a)]); [|auto]. by destruct c.
Qed.

Section buffer.
Context {E : env} {EOk : EnvOk E}.
Implicit Types (tr : list event).

(** There is room for the terminator, and doubling does not overflow. *)
Definition room (d : list byte) (tl : cells) : Prop :=
  zlen d < BUFFER_SIZE <= zlen d + zlen tl \/
  BUFFER_SIZE <= zlen d /\ zlen d = zlen tl /\ zlen d + zlen tl <= PTRDIFF_MAX.

Definition heap_at (p : Z) : gset Z := if decide (p = NULL) then ∅ else {[p]}.

Lemma grow_ok p d tl n tr :
  p <> NULL -> room d tl -> 0 < n < BUFFER_SIZE ->
  wp (grow E p (zlen d) n) (fun q s' => exists u, forallb mem_event u = true /\
    ((q <> NULL /\ exists tl', s' = mk_proc (tr ++ u) (buf q d tl') /\
        n < zlen tl' /\ live_from {[p]} u = {[q]} /\
        (zlen d + n < BUFFER_SIZE <= zlen d + zlen tl' \/
         BUFFER_SIZE <= zlen d + n /\ zlen d + zlen tl' = 2 * (zlen d + n) /\
         2 * (zlen d + n) <= PTRDIFF_MAX)) \/
     (q = NULL /\ s' = mk_proc (tr ++ u) (buf p d tl) /\ live_from {[p]} u = {[p]})))
    (mk_proc tr (buf p d tl)).
Proof.
  intros Hp Hroom Hn. unfold grow, room, BUFFER_SIZE, PTRDIFF_MAX in *.
  rewrite !u64_small by (rewrite ?u64_small; lia).
  destruct (Z.leb_spec 1024 (zlen d + n)) as [Hbig|Hsmall].
  - eapply wp_realloc; [apply lookup_singleton_eq|..].
    + intros a Ha Hfresh Hmax. exists [(Realloc p (2 * (zlen d + n)), a)]. side.
      destruct (resize_prefix (Z.to_nat (2 * (zlen d + n))) d tl) as (tl' & Htl' & Hlen); [lia|].
      left. side. exists tl'. unfold buf, PTRDIFF_MAX in *.
      rewrite Htl', delete_singleton_eq, insert_empty.
      side. split; [lia|]. split; [|right; lia]. cbn. unfold live_step. simpl.
      rewrite (proj2 (Z.eqb_neq _ _) Ha). set_solver.
    + intros a Ha. exists [(Realloc p (2 * (zlen d + n)), a)]. side.
      right. side. side. cbn. unfold live_step. simpl. by rewrite Ha.
  - wp_step. exists []. side. left. side. exists tl.
    rewrite app_nil_r. side. split; [lia|]. side. left. lia.
Qed.

Lemma reset_buffer_ok p b tr :
  p <> NULL ->
  wp (reset_buffer E p) (fun q s' => exists u, forallb mem_event u = true /\
    live_from {[p]} u = heap_at q /\
    s' = mk_proc (tr ++ u)
      (if decide (q = NULL) then ∅ else buf q [] (replicate (Z.to_nat BUFFER_SIZE) None)))
    (mk_proc tr {[p := b]}).
Proof.
  intros Hp. unfold reset_buffer. wp_step.
  eapply wp_free; [done|apply lookup_singleton_eq|]. intros a. rewrite delete_singleton_eq.
  apply wp_malloc.
  - intros a' Ha' _. exists [(Free p, a); (Malloc BUFFER_SIZE, a')]. side.
    unfold heap_at. rewrite !decide_False, insert_empty, <- !app_assoc by done. split; [|done].
    cbn. unfold live_step. simpl. rewrite (proj2 (Z.eqb_neq _ _) Ha'). set_solver.
  - intros a' Ha'. exists [(Free p, a); (Malloc BUFFER_SIZE, a')]. side.
    unfold heap_at. rewrite !decide_True, <- !app_assoc by done. split; [|done].
    cbn. unfold live_step. simpl. rewrite Ha'. set_solver.
Qed.
End buffer.

(** ** The receive loop *)

Section conn.
Context {E : env} {EOk : EnvOk E}.
Variables (char_device : bool) (IOCSEEKTO : Z) (int_of : Z -> Z).
Variables (c : conn_info) (tr0 : list event).
Context {MOk : MutexOk E (file_mutex c)}.
Hypothesis mutex_free : file_mutex c ∉ locks tr0.

(** What the thread holds after [t]. *)
Record holds (heap fdset : gset Z) (t : list event) : Prop := {
  holds_live : live (tr0 ++ t) = heap;
  holds_fds : fds (tr0 ++ t) = fdset;
  holds_locks : locks (tr0 ++ t) = locks tr0;
  holds_guarded : char_device = false -> guarded (file_mutex c) (locks tr0) t;
  holds_sends : sends t = reads t;
  holds_running : running t;
}.

Lemma holds_app heap fdset t heap' fdset' u :
  holds heap fdset t -> live_from heap u = heap' -> fds_from fdset u = fdset' ->
  locks_from (locks tr0) u = locks tr0 ->
  (char_device = false -> guarded (file_mutex c) (locks tr0) u) -> sends u = reads u ->
  running u -> holds heap' fdset' (t ++ u).
Proof.
  intros [H1 H2 H3 H4 H5 H6] Hl Hf Hk Hg Hs Hr. split; rewrite ?app_assoc.
  - by rewrite live_app, H1.
  - by rewrite fds_app, H2.
  - by rewrite locks_app, H3.
  - intros Hc. apply guarded_app. split; [by apply H4|].
    rewrite locks_app in H3. rewrite H3. by apply Hg.
  - unfold sends, reads in *. by rewrite !omap_app, H5, Hs.
  - by apply running_app.
Qed.

Lemma holds_quiet heap fdset t heap' u :
  holds heap fdset t -> quiet u -> live_from heap u = heap' -> holds heap' fdset (t ++ u).
Proof.
  intros H [Q1 Q2 Q3 Q4 Q5 Q6 Q7] Hl.
  eapply holds_app; [done|done|apply Q1|apply Q2|by intros|done|done].
Qed.

(** At the head of the loop. *)
Definition at_head (fdset : gset Z) (x : locals) (s : proc) : Prop := exists t d tl,
  s = mk_proc (tr0 ++ t) (buf x.1 d tl) /\ x.1 <> NULL /\ x.2 = zlen d /\ room d tl /\
  holds {[x.1]} fdset t /\ progress int_of t (actions t, d).

(** The heap of a thread whose buffer is at [p], or gone. *)
Definition buf_at (p : Z) (m : gmap Z cells) : Prop :=
  if decide (p = NULL) then m = ∅ else exists b, m = {[p := b]}.

(** When the loop is left with [n]. *)
Definition at_exit (fdset : gset Z) (n p : Z) (s : proc) : Prop := exists t m,
  s = mk_proc (tr0 ++ t) m /\ buf_at p m /\ holds (heap_at p) fdset t /\
  actions t `prefix_of` (session int_of (chunks t)).1 /\
  (connected t \/ actions t = (session int_of (chunks t)).1).

(** The append with the lock around it. *)
Definition locked_set : gset Z :=
  if char_device then locks tr0 else {[file_mutex c]} ∪ locks tr0.

Lemma lock_file_ok t heap fdset m :
  holds heap fdset t ->
  wp (lock_file E char_device c) (fun _ s' => exists u,
    s' = mk_proc (tr0 ++ t ++ u) m /\ locks_from (locks tr0) u = locked_set /\
    (forall l, live_from l u = l) /\ (forall l, fds_from l u = l) /\
    (forall m l, guarded m l u) /\ no_recv u /\ actions u = [] /\ sends u = reads u /\
    running u)
    (mk_proc (tr0 ++ t) m).
Proof.
  intros [_ _ Hk _ _ _]. unfold lock_file, locked_set. destruct char_device.
  - wp_step. exists []. by rewrite app_nil_r.
  - wp_step. apply wp_sys. intros a Ha. wp_step. exists [(Lock (file_mutex c), a)].
    rewrite app_assoc. side. split; [|done].
    cbn. unfold locks_step. simpl. subst a. by rewrite lock_ok by by rewrite Hk.
Qed.

Lemma unlock_file_ok t u heap fdset m :
  holds heap fdset t -> live_from heap u = heap -> fds_from fdset u = fdset ->
  locks_from (locks tr0) u = locked_set ->
  (char_device = false -> guarded (file_mutex c) (locks tr0) u) -> sends u = reads u ->
  running u ->
  wp (unlock_file E char_device c) (fun _ s' => exists v,
    s' = mk_proc (tr0 ++ t ++ u ++ v) m /\ holds heap fdset (t ++ u ++ v) /\
    no_recv v /\ actions v = []) (mk_proc (tr0 ++ t ++ u) m).
Proof.
  intros Hh Hl Hf Hk Hg Hs Hr. unfold unlock_file, locked_set in *.
  destruct char_device eqn:Hcd.
  - wp_step. exists []. rewrite app_nil_r. side. split; [|done].
    eapply holds_app; try done. by rewrite Hcd.
  - wp_step. apply wp_sys. intros a Ha. wp_step. exists [(Unlock (file_mutex c), a)].
    rewrite <- !app_assoc. side. split; [|done].
    assert (rv a = 0) as Hz.
    { subst a. apply unlock_ok. rewrite app_assoc, locks_app, (holds_locks _ _ _ Hh), Hk. set_solver. }
    eapply holds_app; [done|..].
    + unfold live_from in *. rewrite foldl_app, Hl. done.
    + unfold fds_from in *. rewrite foldl_app, Hf. done.
    + unfold locks_from in *. rewrite foldl_app, Hk. cbn. unfold locks_step. simpl.
      rewrite Hz. simpl. set_solver.
    + intros Hc. apply guarded_app. split; [by apply Hg|done].
    + unfold sends, reads in *. by rewrite !omap_app, Hs.
    + by apply running_app.
Qed.

(** The loop for one descriptor.  [T] stands for the assumption that the
    echo loop comes to an end. *)
Section rounds.
Variables (fuel : nat) (fd : Z) (T : Prop) (fdset : gset Z).
Hypothesis echo_ok : forall tr m,
  wp (write_to_client E fuel fd (clfd c)) (fun r s' =>
    (r = None -> ~ T) /\ exists u, s' = mk_proc (tr ++ u) m /\
    Forall (is_echo fd (clfd c)) u /\ sends u = reads u) (mk_proc tr m).

(** After a round in which the chunks [cs] have been received. *)
Definition round (cs : list (list byte)) (r : option (locals + Z * Z)) (s' : proc) : Prop :=
  match r with
  | Some (inl x) => at_head fdset x s' /\ chunks (trace s') = cs
  | Some (inr (n, p)) => at_exit fdset n p s'
  | None => ~ T
  end.

Lemma chunks_quiet tr u : quiet u -> chunks (tr ++ u) = chunks tr.
Proof.
  intros [Hc _]%quiet_recv%no_recv_quiet. by rewrite chunks_app, Hc, app_nil_r.
Qed.

Lemma progress_quiet t u d : quiet u -> progress int_of t (actions t, d) ->
  progress int_of (t ++ u) (actions (t ++ u), d).
Proof.
  intros Hu Hp. rewrite actions_app, (quiet_actions u Hu), app_nil_r.
  apply progress_app; [by apply quiet_recv|done].
Qed.

Lemma actions_quiet tr u : quiet u -> actions (tr ++ u) = actions tr.
Proof. intros H. by rewrite actions_app, (quiet_actions u H), app_nil_r. Qed.

(** Leaving with the buffer in place. *)
Lemma leave_ok n p b t st cs :
  p <> NULL -> holds {[p]} fdset t -> progress int_of t st -> actions t `prefix_of` st.1 ->
  wp (leave n p) (round cs) (mk_proc (tr0 ++ t) {[p := b]}).
Proof.
  intros Hp Hh [Hco <-] Hpre. unfold leave. wp_step. exists t, {[p := b]}. side.
  unfold buf_at, heap_at. rewrite !decide_False by done.
  split; [by eexists|]. side. split; [done|by left].
Qed.

(** Going on, or leaving, with a new buffer. *)
Lemma after_reset n q t :
  holds (heap_at q) fdset t -> progress int_of t (actions t, []) ->
  wp (if q =? NULL then leave n q else go_on q 0) (round (chunks (tr0 ++ t)))
    (mk_proc (tr0 ++ t)
      (if decide (q = NULL) then ∅ else buf q [] (replicate (Z.to_nat BUFFER_SIZE) None))).
Proof.
  intros Hh Hs. destruct (decide (q = NULL)) as [Hq|Hq].
  - rewrite (proj2 (Z.eqb_eq _ _) Hq). unfold leave. wp_step. exists t, ∅.
    side. split; [by unfold buf_at; rewrite decide_True|]. side.
    destruct Hs as [Hco ->]. split; [done|by left].
  - rewrite (proj2 (Z.eqb_neq _ _) Hq). unfold heap_at in Hh. rewrite decide_False in Hh by done.
    unfold go_on. wp_step. split; [|done].
    exists t, [], (replicate (Z.to_nat BUFFER_SIZE) None). split_and!; try done.
    left. rewrite length_replicate. unfold BUFFER_SIZE. simpl. lia.
Qed.

Lemma seek_branch_ok n q d tl t :
  q <> NULL -> holds {[q]} fdset t -> SEEKTO `prefix_of` d ->
  progress int_of t (actions t ++ seek_action int_of (cstr (drop (length SEEKTO) d)), []) ->
  wp (seek_branch E IOCSEEKTO int_of fuel c fd n q) (round (chunks (tr0 ++ t)))
    (mk_proc (tr0 ++ t) (buf q d (Some nul :: tl))).
Proof.
  intros Hq Hh Hpre Hs. unfold seek_branch, obind. wp_step. unfold seek_command.
  wp_step. unfold cstring. wp_step. eapply wp_block; [apply lookup_singleton_eq|].
  apply wp_opt with (a := cstr (drop (length SEEKTO) d)).
  { rewrite drop_app_le by (rewrite length_fmap; by apply prefix_length).
    rewrite <- fmap_drop. apply cstring_cells_cstr. }
  cbv beta. unfold seek_action in Hs. destruct (sscanf_d_d _) as [[v1 v2]|].
  - cbv zeta. wp_step. apply wp_sysv. intros a _. cbv beta.
    set (io := (Ioctl fd IOCSEEKTO _ _, a)). rewrite <- app_assoc.
    assert (holds {[q]} fdset (t ++ [io])) as Hh1 by by eapply holds_app.
    assert (progress int_of (t ++ [io]) (actions (t ++ [io]), [])) as Hs1.
    { rewrite actions_app. by apply progress_app. }
    destruct (Z.eqb_spec (rv a) 0) as [Hz|Hz]; cbn [negb].
    + unfold obind. wp_step. eapply wp_mono; [apply echo_ok|].
      intros r s' (Hr & u & -> & He & Hsr). destruct (echo_quiet _ _ _ He Hsr) as [Hqu Hlu].
      destruct r as [r|]; [|wp_step; wp_step; by apply Hr].
      wp_step. cbv beta iota. rewrite <- app_assoc.
      assert (holds {[q]} fdset ((t ++ [io]) ++ u)) as Hh2 by by eapply holds_quiet.
      pose proof (progress_quiet _ _ _ Hqu Hs1) as Hs2.
      destruct (negb (r =? 0)).
      * by eapply leave_ok.
      * wp_step. eapply wp_mono; [by eapply reset_buffer_ok|].
        intros q' s' (v & Hqv%mem_quiet & Hlv & ->). rewrite <- app_assoc.
        replace (chunks (tr0 ++ t)) with (chunks (tr0 ++ ((t ++ [io]) ++ u) ++ v)).
        -- apply after_reset; [by eapply holds_quiet|by apply progress_quiet].
        -- rewrite !(chunks_app tr0), !chunks_quiet, chunks_app by done. by rewrite app_nil_r.
    + wp_step. cbv beta iota. by eapply leave_ok.
  - wp_step. cbv beta iota. wp_step. eapply wp_mono; [by eapply reset_buffer_ok|].
    intros q' s' (v & Hqv%mem_quiet & Hlv & ->). rewrite app_nil_r in Hs.
    rewrite <- (chunks_quiet (tr0 ++ t) v), <- app_assoc by done.
    apply after_reset; [by eapply holds_quiet|by apply progress_quiet].
Qed.

(** A new buffer, then the echo. *)
Lemma echo_after_reset n p b t :
  p <> NULL -> holds {[p]} fdset t -> progress int_of t (actions t, []) ->
  wp (q ← reset_buffer E p;
      if q =? NULL then leave n q
      else
        w ←? write_to_client E fuel fd (clfd c);
        if negb (w =? 0) then leave n q else go_on q 0)
    (round (chunks (tr0 ++ t))) (mk_proc (tr0 ++ t) {[p := b]}).
Proof.
  intros Hp Hh Hs. wp_step. eapply wp_mono; [by eapply reset_buffer_ok|].
  intros q s' (v & Hqv%mem_quiet & Hlv & ->). cbv beta.
  pose proof (holds_quiet _ _ _ _ _ Hh Hqv Hlv) as Hh1.
  pose proof (progress_quiet _ _ _ Hqv Hs) as Hs1.
  rewrite <- (chunks_quiet (tr0 ++ t) v), <- app_assoc by done.
  pose proof (after_reset n q (t ++ v) Hh1 Hs1) as Hend. unfold heap_at in Hh1.
  destruct (Z.eqb_spec q NULL) as [Hq|Hq]; [done|]. clear Hend.
  rewrite decide_False in Hh1 by done. rewrite decide_False by done.
  unfold obind. wp_step. eapply wp_mono; [apply echo_ok|].
  intros r s' (Hr & u & -> & He & Hsr). destruct (echo_quiet _ _ _ He Hsr) as [Hqu Hlu].
  destruct r as [w|]; [|wp_step; by apply Hr]. cbv beta iota. rewrite <- app_assoc.
  pose proof (holds_quiet _ _ _ _ _ Hh1 Hqu (Hlu _)) as Hh2.
  pose proof (progress_quiet _ _ _ Hqu Hs1) as Hs2.
  rewrite <- (chunks_quiet (tr0 ++ t ++ v) u), <- (app_assoc tr0) by done.
  destruct (negb (w =? 0)).
  - by eapply leave_ok.
  - pose proof (after_reset n q ((t ++ v) ++ u)) as Hgo. unfold heap_at in Hgo.
    rewrite !decide_False in Hgo by done. rewrite (proj2 (Z.eqb_neq _ _) Hq) in Hgo. by apply Hgo.
Qed.

Lemma packet_branch_ok n q d tl t :
  q <> NULL -> holds {[q]} fdset t ->
  progress int_of t (actions t ++ [Append d], []) ->
  wp (packet_branch E char_device fuel c fd n q (zlen d)) (round (chunks (tr0 ++ t)))
    (mk_proc (tr0 ++ t) (buf q d tl)).
Proof.
  intros Hq Hh Hs. unfold packet_branch. wp_step.
  eapply wp_mono; [by eapply lock_file_ok|].
  intros _ s' (u & -> & Hk & Hl & Hf & Hg & Hc & Ha & Hsr & Hru). wp_step.
  eapply wp_mono; [apply (append_packet_ok _ _ _ _ fdset)|].
  { by rewrite app_assoc, fds_app, (holds_fds _ _ _ Hh). }
  intros r s' (u' & -> & Happ & _). cbv beta.
  replace ((tr0 ++ t ++ u) ++ u') with (tr0 ++ t ++ (u ++ u')) by by rewrite !app_assoc.
  assert (wp (unlock_file E char_device c) (fun _ s' => exists v,
    s' = mk_proc (tr0 ++ t ++ (u ++ u') ++ v) (buf q d tl) /\
    holds {[q]} fdset (t ++ (u ++ u') ++ v) /\ no_recv v /\ actions v = [])
    (mk_proc (tr0 ++ t ++ u ++ u') (buf q d tl))) as Hunlock.
  { apply unlock_file_ok; [done|..]; unfold live_from, fds_from, locks_from, sends, reads in *;
      rewrite ?foldl_app, ?omap_app.
    - rewrite Hl. apply (app_live _ _ _ _ Happ).
    - rewrite Hf. apply (app_fds _ _ _ _ Happ).
    - rewrite Hk. apply (app_locks _ _ _ _ Happ).
    - intros Hcd. apply guarded_app. split; [apply Hg|]. apply (app_guarded _ _ _ _ Happ).
      unfold locks_from. rewrite Hk. unfold locked_set. rewrite Hcd. set_solver.
    - rewrite Hsr. f_equal. apply (app_sends _ _ _ _ Happ).
    - apply running_app. split; [done|apply (app_running _ _ _ _ Happ)]. }
  assert (forall v, no_recv v -> no_recv ((u ++ u') ++ v)) as Hrecv.
  { intros v Hv. rewrite !no_recv_app. split_and!; try done. apply (app_recv _ _ _ _ Happ). }
  assert (forall v, actions v = [] -> actions (t ++ (u ++ u') ++ v) = actions t ++ actions u') as Hacts.
  { intros v Hv. by rewrite !actions_app, Ha, Hv, app_nil_r. }
  destruct (Z.eqb_spec r 0) as [Hr|Hr]; cbn [negb]; wp_step; (eapply wp_mono; [apply Hunlock|]);
    intros _ s' (v & -> & Hh' & Hcv & Hav); cbv beta.
  - destruct (no_recv_quiet _ (Hrecv v Hcv)) as [Hno _].
    replace (chunks (tr0 ++ t)) with (chunks (tr0 ++ t ++ (u ++ u') ++ v))
      by (rewrite !(chunks_app tr0), (chunks_app t), Hno, app_nil_r; done).
    apply echo_after_reset; try done. rewrite Hacts by done.
    destruct (app_actions _ _ _ _ Happ) as [->|[_ ?]]; [|done]. apply progress_app; auto.
  - eapply leave_ok; [done|done|apply progress_app; [by apply Hrecv|done]|].
    rewrite Hacts by done. simpl. apply prefix_app.
    destruct (app_actions _ _ _ _ Happ) as [->|[-> _]]; [done|apply prefix_nil].
Qed.

Lemma nul_not_in_SEEKTO : nul ∉ SEEKTO.
Proof. apply (bool_decide_unpack _). vm_compute. exact I. Qed.

(** The buffer has the chunk and the terminator: what is done next. *)
Lemma dispatch_ok n q d tl t old acts :
  q <> NULL -> holds {[q]} fdset t -> room d (Some nul :: tl) ->
  progress int_of t (feed int_of (acts, old) (drop (length old) d)) ->
  acts = actions t -> old `prefix_of` d ->
  wp (is_seek ← strncmp_eq q SEEKTO;
      if (is_seek : bool) then seek_branch E IOCSEEKTO int_of fuel c fd n q
      else
        nl ← memchr q newline (zlen d);
        if (nl : bool) then packet_branch E char_device fuel c fd n q (zlen d)
        else go_on q (zlen d))
    (round (chunks (tr0 ++ t))) (mk_proc (tr0 ++ t) (buf q d (Some nul :: tl))).
Proof.
  intros Hq Hh Hroom Hs -> [new ->]. unfold feed in Hs. simpl in Hs.
  rewrite drop_app_length in Hs. set (d := old ++ new) in *.
  wp_step. unfold strncmp_eq. wp_step. eapply wp_block; [apply lookup_singleton_eq|].
  eapply wp_opt; [apply strncmp_cells_prefix, nul_not_in_SEEKTO|].
  case_bool_decide as Hpre.
  - rewrite decide_True in Hs by done. by apply (seek_branch_ok n q d tl).
  - rewrite decide_False in Hs by done. wp_step. apply wp_memchr. case_bool_decide as Hnl.
    + rewrite decide_True in Hs by done. by apply packet_branch_ok.
    + rewrite decide_False in Hs by done. unfold go_on. wp_step. split; [|done].
      exists t, d, (Some nul :: tl). by split_and!.
Qed.

(** A chunk that was received joins the collected bytes. *)
Lemma collect_ok n p d tl t ch :
  p <> NULL -> zlen ch = n -> 0 < n <= BUFFER_SIZE - 1 -> room d tl -> holds {[p]} fdset t ->
  progress int_of t (feed int_of (actions t, d) ch) ->
  wp (q ← grow E p (zlen d) n;
      if q =? NULL then leave n p
      else
        _ ← store q (zlen d) ch;
        let len' := zlen d +u64 n in
        _ ← store q len' [nul];
        is_seek ← strncmp_eq q SEEKTO;
        if (is_seek : bool) then seek_branch E IOCSEEKTO int_of fuel c fd n q
        else
          nl ← memchr q newline len';
          if (nl : bool) then packet_branch E char_device fuel c fd n q len'
          else go_on q len')
    (round (chunks (tr0 ++ t))) (mk_proc (tr0 ++ t) (buf p d tl)).
Proof.
  intros Hp Hch Hn Hroom Hh Hs. wp_step.
  eapply wp_mono; [eapply grow_ok; try done; unfold BUFFER_SIZE in *; lia|].
  intros q s' (u & Hqu%mem_quiet & [(Hq & tl' & -> & Hroom' & Hlv & Hcap)|(Hq & -> & Hlv)]); cbv beta zeta.
  - rewrite <- (app_assoc tr0). rewrite (proj2 (Z.eqb_neq _ _) Hq). wp_step. apply wp_store_end; [lia|].
    assert (zlen (d ++ ch) = zlen d + n) as Hl2 by (rewrite length_app; lia).
    unfold PTRDIFF_MAX, BUFFER_SIZE in *.
    rewrite u64_small by lia. rewrite <- Hl2. wp_step. apply wp_store_end.
    { rewrite length_drop. simpl. lia. }
    rewrite fmap_app, <- app_assoc. simpl. rewrite drop_drop.
    rewrite <- (chunks_quiet (tr0 ++ t) u), <- (app_assoc tr0) by done.
    eapply (dispatch_ok n q (d ++ ch) _ (t ++ u) d (actions t)); try done.
    + by eapply holds_quiet.
    + unfold room, BUFFER_SIZE, PTRDIFF_MAX. simpl. rewrite length_drop. lia.
    + rewrite drop_app_length. apply progress_app; [by apply quiet_recv|done].
    + by rewrite actions_quiet.
    + by apply prefix_app_r.
  - rewrite Hq, <- app_assoc. simpl. eapply leave_ok; [done|by eapply holds_quiet|..].
    + apply progress_app; [by apply quiet_recv|done].
    + rewrite actions_quiet by done. apply (feed_mono _ (actions t, d)).
Qed.

(** What a [recv] adds to a trace. *)
Lemma recv_event t fdc m a t1 :
  t1 = t ++ [(Recv fdc m, a)] ->
  actions t1 = actions t /\
  chunks t1 = chunks t ++ (if decide (0 < rv a) then [take (Z.to_nat (rv a)) (rdata a)] else []).
Proof.
  intros ->. split; [rewrite actions_app; apply app_nil_r|]. rewrite chunks_app. cbn.
  by destruct (Z.ltb_spec 0 (rv a)); case_decide; try lia.
Qed.

Lemma recv_body_ok x s :
  at_head fdset x s ->
  wp (recv_body E char_device IOCSEEKTO int_of fuel c fd x)
    (fun r s' => exists a, a = E (trace s) (Recv (clfd c) (BUFFER_SIZE - 1)) /\
       round (chunks (trace s) ++ [take (Z.to_nat (rv a)) (rdata a)]) r s' /\
       (rv a <= 0 -> exists p, r = Some (inr (rv a, p)))) s.
Proof.
  intros (t & d & tl & -> & Hp & Hlen & Hroom & Hh & Hs). destruct x as [p len]. simpl in *. subst len.
  unfold recv_body. wp_step. apply wp_sys. intros a Ha. cbv beta zeta.
  destruct (recv_ok (E := E) (tr0 ++ t) (clfd c) (BUFFER_SIZE - 1)) as [Hmax Hdata];
    [unfold BUFFER_SIZE; lia|]. rewrite <- Ha in Hmax, Hdata.
  rewrite <- app_assoc. set (rc := (Recv _ _, a)). set (t1 := t ++ [rc]).
  destruct (recv_event t (clfd c) (BUFFER_SIZE - 1) a t1) as [Ha1 Hc1]; [done|].
  assert (holds {[p]} fdset t1) as Hh1 by by eapply holds_app.
  set (n := rv a) in *. set (ch := take (Z.to_nat n) (rdata a)) in *.
  destruct (Z.ltb_spec 0 n) as [Hn|Hn]; cbn [negb].
  - rewrite decide_True in Hc1 by done.
    assert (zlen ch = n) as Hch by (unfold ch; rewrite length_take; specialize (Hdata Hn); lia).
    eapply wp_mono; [apply (collect_ok n p d tl t1 ch); try done|].
    + rewrite Ha1. destruct Hs as [Hco Hs]. split; [|by rewrite Hc1, session_snoc, Hs].
      unfold t1. apply connected_app. side. unfold connected, rc. simpl. fold n.
      by destruct (Z.ltb_spec 0 n); [|lia].
    + intros r s' Hr. exists a. side. fold n ch. split; [|lia].
      by rewrite !chunks_app, <- app_assoc, <- Hc1, <- chunks_app in *.
  - rewrite decide_False, app_nil_r in Hc1 by lia. unfold leave. wp_step. exists a. side.
    split; [|by eexists]. exists t1, (buf p d tl). side. unfold buf_at, heap_at.
    rewrite !decide_False by done. split; [by eexists|]. side. destruct Hs as [_ Hs].
    rewrite Hc1, Ha1, Hs. by auto.
Qed.

Hypothesis recv_bound : T -> forall tr n,
  (fuel <= S (length (chunks tr)))%nat -> rv (E tr (Recv (clfd c) n)) <= 0.

Lemma recv_loop_ok x s :
  at_head fdset x s -> (T -> (0 < fuel)%nat) ->
  wp (iterate fuel (recv_body E char_device IOCSEEKTO int_of fuel c fd) x)
    (fun r s' => match r with
                 | Some (n, p) => at_exit fdset n p s'
                 | None => ~ T
                 end) s.
Proof.
  intros Hx Hpos. enough (forall k x s, at_head fdset x s ->
    (T -> (0 < k /\ fuel <= k + length (chunks (trace s))))%nat ->
    wp (iterate k (recv_body E char_device IOCSEEKTO int_of fuel c fd) x)
      (fun r s' => match r with Some (n, p) => at_exit fdset n p s' | None => ~ T end) s) as H.
  { apply H; [done|]. intros HT. specialize (Hpos HT). lia. }
  clear x s Hx Hpos. induction k as [|k IH]; intros x s Hx Hk; simpl.
  { wp_step. intros HT. destruct (Hk HT). lia. }
  unfold obind. wp_step. eapply wp_mono; [by apply recv_body_ok|].
  intros r s' (a & Ha & Hround & Hneg). destruct r as [[x'|[n p]]|]; cbv beta iota; [|by wp_step..].
  destruct Hround as [Hx' Hch]. apply IH; [done|]. intros HT. destruct (Hk HT) as [_ Hle].
  rewrite Hch, length_app. simpl. split; [|lia]. destruct k; [|lia].
  destruct Hneg as [p Hp]; [|done]. rewrite Ha. apply recv_bound; [done|lia].
Qed.
End rounds.

(** ** The whole thread *)

(** The thread has ended: its memory, descriptors and lock are given
    back, the announcement is its last step, and the file saw the actions
    of the protocol, all of them if the client ended the connection. *)
Definition finished (s : proc) : Prop := exists t b,
  s = mk_proc (tr0 ++ t ++ [(StoreDone (conn_addr c), b)]) ∅ /\
  running t /\ live (trace s) = ∅ /\ fds (trace s) = fds tr0 ∖ {[clfd c]} /\
  locks (trace s) = locks tr0 /\
  (char_device = false -> guarded (file_mutex c) (locks tr0) t) /\ sends t = reads t /\
  actions t `prefix_of` (session int_of (chunks t)).1 /\
  (~ connected t -> actions t = (session int_of (chunks t)).1).

Lemma finish_ok t :
  holds ∅ (fds tr0 ∖ {[clfd c]}) t ->
  actions t `prefix_of` (session int_of (chunks t)).1 ->
  connected t \/ actions t = (session int_of (chunks t)).1 ->
  wp (finish E c) (fun r s' => r = Some tt /\ finished s') (mk_proc (tr0 ++ t) ∅).
Proof.
  intros [H1 H2 H3 H4 H5 H6] Hpre Hall. unfold finish. wp_step. apply wp_sys. intros b _.
  wp_step. side. exists t, b. rewrite <- !app_assoc. side. cbn [trace].
  rewrite (app_assoc tr0), live_app, fds_app, locks_app, H1, H2, H3.
  split_and!; try done. intros Hn. by destruct Hall.
Qed.

Lemma close_finish_ok t :
  holds ∅ (fds tr0) t ->
  actions t `prefix_of` (session int_of (chunks t)).1 ->
  connected t \/ actions t = (session int_of (chunks t)).1 ->
  wp (_ ← sys E (Close (clfd c)); finish E c) (fun r s' => r = Some tt /\ finished s')
    (mk_proc (tr0 ++ t) ∅).
Proof.
  intros Hh Hpre Hall. wp_step. apply wp_sys. intros a _. cbv beta. rewrite <- app_assoc.
  apply finish_ok.
  - by eapply holds_app.
  - rewrite actions_app, chunks_app, !app_nil_r. done.
  - rewrite actions_app, chunks_app, connected_app, !app_nil_r.
    by destruct Hall; [left|right].
Qed.

Lemma cleanup_ok fd n p s :
  fd ∉ fds tr0 -> at_exit ({[fd]} ∪ fds tr0) n p s ->
  wp (_ ← sys E (Close fd); _ ← free E p;
      if n <? 0 then _ ← sys E (Close (clfd c)); finish E c
      else _ ← sys E (Close (clfd c)); finish E c)
    (fun r s' => r = Some tt /\ finished s') s.
Proof.
  intros Hfd (t & m & -> & Hm & Hh & Hpre & Hall). wp_step. apply wp_sys. intros a _. cbv beta.
  rewrite <- app_assoc. set (cl := (Close fd, a)).
  assert (holds (heap_at p) (fds tr0) (t ++ [cl])) as Hh1.
  { eapply holds_app; try done. cbn. unfold fds_step. simpl. set_solver. }
  assert (forall u, no_recv u -> actions u = [] -> holds ∅ (fds tr0) (t ++ u) ->
    wp (if n <? 0 then _ ← sys E (Close (clfd c)); finish E c
        else _ ← sys E (Close (clfd c)); finish E c)
      (fun r s' => r = Some tt /\ finished s') (mk_proc (tr0 ++ t ++ u) ∅)) as Hend.
  { intros u [Hcu Hou]%no_recv_quiet Hau Hhu. destruct (n <? 0);
      (apply close_finish_ok; [done|..]; rewrite actions_app, chunks_app, Hau, Hcu, !app_nil_r; [done|];
       rewrite connected_app; tauto). }
  unfold buf_at, heap_at in *. wp_step. unfold free. destruct (decide (p = NULL)) as [Hp|Hp].
  - subst p m. rewrite Z.eqb_refl. wp_step. by apply Hend.
  - rewrite (proj2 (Z.eqb_neq _ _) Hp). destruct Hm as [b ->]. wp_step.
    eapply wp_block; [apply lookup_singleton_eq|]. wp_step. apply wp_sys. intros a' _.
    apply wp_modify. cbn [trace mem]. rewrite delete_singleton_eq, <- !app_assoc.
    apply Hend; [done|done|]. rewrite app_assoc.
    eapply holds_app; try done. cbn. unfold live_step. simpl. set_solver.
Qed.

Hypothesis no_heap : live tr0 = ∅.

Lemma holds_nil : holds ∅ (fds tr0) [].
Proof. split; rewrite ?app_nil_r; done. Qed.

Lemma progress_nil : progress int_of [] ([], []).
Proof. done. Qed.

(** The thread runs without undefined behaviour; if it ends, it is
    [finished]; it does end when the rounds of its loops are bounded. *)
Lemma handle_connection_ok fuel (T : Prop) :
  (forall fd tr m, wp (write_to_client E fuel fd (clfd c)) (fun r s' =>
      (r = None -> ~ T) /\ exists u, s' = mk_proc (tr ++ u) m /\
      Forall (is_echo fd (clfd c)) u /\ sends u = reads u) (mk_proc tr m)) ->
  (T -> forall tr n, (fuel <= S (length (chunks tr)))%nat -> rv (E tr (Recv (clfd c) n)) <= 0) ->
  (T -> (0 < fuel)%nat) ->
  wp (handle_connection E char_device IOCSEEKTO int_of fuel c) (fun r s' =>
    (r = Some tt /\ finished s') \/ (r = None /\ ~ T)) (start tr0).
Proof.
  intros Hecho Hbound Hpos. unfold handle_connection. wp_step. unfold start.
  apply wp_malloc.
  2:{ intros a Ha. simpl. eapply wp_mono; [apply close_finish_ok|by left]; [|done|by left].
      eapply (holds_app _ _ [] _ _ [(Malloc BUFFER_SIZE, a)]); [apply holds_nil|..]; try done.
      cbn. unfold live_step. simpl. by rewrite Ha. }
  intros a Ha _. rewrite (proj2 (Z.eqb_neq _ _) Ha), insert_empty. wp_step.
  set (ma := (Malloc BUFFER_SIZE, a)). set (p := rv a) in *.
  assert (holds {[p]} (fds tr0) [ma]) as Hh1.
  { eapply (holds_app _ _ [] _ _ [ma]); [apply holds_nil|..]; try done.
    cbn. unfold live_step. simpl. fold p. rewrite (proj2 (Z.eqb_neq _ _) Ha). set_solver. }
  apply wp_sysv. intros o Ho. cbv beta. set (op := Open _ _ _) in *. rewrite <- app_assoc.
  destruct (Z.ltb_spec (rv o) 0) as [Hneg|Hfd].
  - wp_step. apply wp_sys. intros b _. wp_step. eapply wp_free; [done|apply lookup_singleton_eq|].
    intros b'. rewrite delete_singleton_eq, <- !app_assoc.
    eapply wp_mono; [apply finish_ok|by left]; [|done|by left].
    eapply (holds_app _ _ [ma]); try done; cbn; unfold live_step, fds_step; simpl; [set_solver|].
    by rewrite (proj2 (Z.ltb_lt _ _) Hneg).
  - unfold obind. wp_step. set (fd := rv o) in *.
    assert (fd ∉ fds tr0) as Hnew.
    { unfold fd in *. subst o. rewrite <- (holds_fds _ _ _ Hh1). by apply open_fresh. }
    assert (at_head ({[fd]} ∪ fds tr0) (p, 0) (mk_proc (tr0 ++ [ma; (op, o)])
      {[p := replicate (Z.to_nat BUFFER_SIZE) None]})) as Hhead.
    { exists [ma; (op, o)], [], (replicate (Z.to_nat BUFFER_SIZE) None).
      split_and!; try done; [left; rewrite length_replicate; unfold BUFFER_SIZE; simpl; lia|].
      eapply (holds_app _ _ [ma] _ _ [(op, o)]); try done. cbn. unfold fds_step. simpl. fold fd.
      by rewrite (proj2 (Z.ltb_ge _ _) Hfd). }
    eapply wp_mono; [by apply (recv_loop_ok fuel fd T)|].
    intros [[n q]|] s'; cbv beta iota.
    + intros Hexit. eapply wp_mono; [by eapply cleanup_ok|by left].
    + intros HT. wp_step. by right.
Qed.
End conn.
