(* ===== verification/HandlerTheorems.v ===== *)
(** * The properties of the connection handler *)

From S2P Require Import Prelude Posix Handler HandlerSpec.

(** ** Facts about the echo loop *)

Section echo.
Context {E : env} {EOk : EnvOk E}.

(** The number of reads that return data is bounded: the loop ends. *)
Lemma write_to_client_ends fuel fd cl N tr m :
  (forall tr n, (N <= length (reads tr))%nat -> rv (E tr (Read fd n)) <= 0) -> (N < fuel)%nat ->
  wp (write_to_client E fuel fd cl) (fun r s' => exists z, r = Some z) (mk_proc tr m).
Proof.
  intros Hbound Hfuel.
  set (I := fun s => exists tr', s = mk_proc tr' m).
  eapply wp_mono; [apply (wp_iterate_total (fun _ : unit => I)
    (fun _ s => N - length (reads (trace s)))%nat (fun _ _ => True))|by intros r s (z & -> & _); eauto].
  - intros _ _ (tr' & ->). wp_step. apply wp_sys. intros a Ha. cbv beta zeta.
    destruct (Z.ltb_spec 0 (rv a)) as [Hn|Hn]; cbn [negb]; [|by wp_step].
    destruct (Z.ltb_spec (rv a) 0); [lia|].
    assert (length (reads tr') < N)%nat as Hlt.
    { destruct (decide (length (reads tr') < N)%nat); [done|].
      assert (rv a <= 0); [|lia]. subst a. apply Hbound. lia. }
    wp_step. apply wp_sysv. intros b _. destruct (negb _); wp_step; [done|].
    split; [by eexists|]. simpl. unfold reads in *. rewrite !omap_app. cbn.
    destruct (Z.ltb_spec 0 (rv a)); [|lia]. cbn. rewrite !length_app. simpl. lia.
  - by exists tr.
  - simpl. lia.
Qed.

(** Both facts about the loop, as the thread needs them. *)
Lemma write_to_client_both fuel fd cl (T : Prop) N tr m :
  (T -> (N < fuel)%nat /\
    forall tr n, (N <= length (reads tr))%nat -> rv (E tr (Read fd n)) <= 0) ->
  wp (write_to_client E fuel fd cl) (fun r s' =>
    (r = None -> ~ T) /\ exists u, s' = mk_proc (tr ++ u) m /\
    Forall (is_echo fd cl) u /\ sends u = reads u) (mk_proc tr m).
Proof.
  intros HT. destruct (wp_inv _ _ _ (write_to_client_echo (E := E) fuel fd cl tr m)) as (r & s' & Hrun & Hu).
  eapply wp_intro; [done|]. split; [|done]. intros -> HTT. destruct (HT HTT) as [Hf Hb].
  destruct (wp_inv _ _ _ (write_to_client_ends fuel fd cl N tr m Hb Hf)) as (r & s2 & Hrun2 & z & ->).
  congruence.
Qed.

(** *** A file whose remaining bytes are [rest] *)

(** Reads of [fd] after [tr] deliver [rest] piece by piece, and nothing
    only at its end. *)
Definition yields (tr : list event) (fd : Z) (rest : list byte) : Prop :=
  forall u n, 0 < n -> Forall (fun d => d <> []) (reads u) ->
    let a := E (tr ++ u) (Read fd n) in
    0 <= rv a <= n /\ (rv a = 0 <-> drop (consumed u) rest = []) /\
    (0 < rv a -> take (Z.to_nat (rv a)) (rdata a) =
                 take (Z.to_nat (rv a)) (drop (consumed u) rest) /\
                 rv a <= zlen (drop (consumed u) rest)).

(** The last event is a [send] that did not take all its bytes. *)
Definition short_send (u : list event) : Prop :=
  exists u' fd d a, u = u' ++ [(Send fd d, a)] /\ rv a <> zlen d.

Lemma write_to_client_yields fuel fd cl rest tr m :
  yields tr fd rest -> (length rest < fuel)%nat ->
  wp (write_to_client E fuel fd cl) (fun r s' => exists u z, r = Some z /\
    s' = mk_proc (tr ++ u) m /\
    ((z = 0 /\ concat (sends u) = rest) \/
     (z = -1 /\ concat (sends u) `prefix_of` rest /\ short_send u))) (mk_proc tr m).
Proof.
  intros Hy Hfuel.
  set (I := fun s => exists u, s = mk_proc (tr ++ u) m /\ sends u = reads u /\
                      concat (reads u) = take (consumed u) rest /\ Forall (fun d => d <> []) (reads u)).
  eapply wp_mono; [apply (wp_iterate_total (fun _ : unit => I)
    (fun _ s => length rest - consumed (drop (length tr) (trace s)))%nat
    (fun z s' => exists u, s' = mk_proc (tr ++ u) m /\
      ((z = 0 /\ concat (sends u) = rest) \/
       (z = -1 /\ concat (sends u) `prefix_of` rest /\ short_send u))))|..].
  - intros _ _ (u & -> & Hsr & Hpre & Hne). wp_step. apply wp_sys. intros a Ha. cbv beta zeta.
    destruct (Hy u BUFFER_SIZE) as (Hrange & Hzero & Hdata); [unfold BUFFER_SIZE; lia|done|].
    rewrite <- Ha in Hrange, Hzero, Hdata.
    destruct (Z.ltb_spec 0 (rv a)) as [Hn|Hn]; cbn [negb].
    + destruct (Z.ltb_spec (rv a) 0); [lia|]. destruct (Hdata Hn) as [Hd Hle].
      wp_step. apply wp_sysv. intros b _. cbv beta. rewrite <- !app_assoc.
      cbn [app]. set (d := take (Z.to_nat (rv a)) (rdata a)) in *. set (v := u ++ [(Read fd BUFFER_SIZE, a); (Send cl d, b)]).
      destruct (echo_round u fd cl BUFFER_SIZE a b d v) as (Hrv & Hsv & _); [done..|].
      destruct (echo_round_prefix u fd cl BUFFER_SIZE a b d v rest) as (Hlen & Hc & Hcat); [done..|].
      rewrite Hsr, <- Hrv in Hsv. destruct (Z.eqb_spec (rv b) (rv a)) as [Hb|Hb]; cbn [negb]; wp_step.
      * split; [|cbn [trace]; rewrite !drop_app_length;
                 by change (length rest - consumed v < length rest - consumed u)%nat; lia].
        exists v. side. side. side. rewrite Hrv. apply Forall_app. side.
        repeat constructor. intros Hd0. rewrite Hd0 in Hlen. simpl in Hlen. lia.
      * exists v. side. right. rewrite Hsv, Hcat. side. split; [apply prefix_take|].
        exists (u ++ [(Read fd BUFFER_SIZE, a)]), cl, d, b. rewrite <- app_assoc. split; [done|lia].
    + wp_step. exists (u ++ [(Read fd BUFFER_SIZE, a)]). rewrite app_assoc. side. left. side.
      rewrite sends_app, app_nil_r, Hsr. apply consumed_all; [apply Hzero; lia|done].
  - exists []. rewrite app_nil_r. by split_and!.
  - simpl. rewrite drop_all. simpl. lia.
  - intros r s' (z & -> & u & Hs). exists u, z. tauto.
Qed.
End echo.

(** ** Facts about the protocol *)

Section protocol.
Variable int_of : Z -> Z.

(** The packets among the actions. *)
Definition packet (a : action) : option (list byte) :=
  match a with
  | Append d => Some d
  | Seek _ _ => None
  end.

(** No packet starts with the seek command when none of its bytes occurs
    at the start of what is collected. *)
Lemma feed_no_seek st c : ~ SEEKTO `prefix_of` st.2 ++ c ->
  concat (omap packet (feed int_of st c).1) ++ (feed int_of st c).2 =
  concat (omap packet st.1) ++ st.2 ++ c.
Proof.
  intros Hs. unfold feed. rewrite decide_False by done. case_decide; simpl; [|done].
  rewrite omap_app, concat_app. simpl. by rewrite !app_nil_r.
Qed.

Lemma feed_buffer st c : newline ∉ (feed int_of st c).2.
Proof.
  unfold feed. repeat case_decide; simpl; try done; apply not_elem_of_nil.
Qed.
End protocol.

(** Decimal digits. *)
Definition digit (n : Z) : byte := default nul (Byte.of_N (Z.to_N (48 + n))).

Fixpoint decimal_fuel (fuel : nat) (n : Z) (acc : list byte) : list byte :=
  match fuel with
  | O => acc
  | S fuel =>
      let acc := digit (n `mod` 10) :: acc in
      if n <? 10 then acc else decimal_fuel fuel (n / 10) acc
  end.
(** [n] printed with ["%d"], for a number below [2 ^ 31]. *)
Definition decimal (n : Z) : list byte := decimal_fuel 10 n [].

Lemma digit_ok n : 0 <= n < 10 -> isdigit (digit n) = true /\ digit_of (digit n) = n.
Proof.
  intros H. destruct n as [|p|p]; [by split| |lia].
  do 4 try destruct p as [p|p|]; first [lia|done].
Qed.

Lemma digit_not_space b : isdigit b = true -> isspace b = false /\ b <> x2b /\ b <> x2d.
Proof. by destruct b. Qed.

(** Scanning what was printed. *)
Lemma scan_decimal_fuel fuel n acc rest : 0 <= n < 10 ^ Z.of_nat (S fuel) ->
  exists d ds, decimal_fuel (S fuel) n acc = d :: ds ++ acc /\
    Forall (fun b => isdigit b = true) (d :: ds) /\
    forall v, scan_digits v (d :: ds ++ rest) = scan_digits (v * 10 ^ zlen (d :: ds) + n) rest.
Proof.
  revert n acc rest. induction fuel as [|fuel IH]; intros n acc rest Hn;
    pose proof (Z.mod_pos_bound n 10 ltac:(lia)) as Hmod;
    destruct (digit_ok (n `mod` 10) Hmod) as [Hd Hv].
  { assert (n < 10) as Hlt by (simpl in Hn; lia). exists (digit (n `mod` 10)), [].
    split; [by cbn; destruct (Z.ltb_spec n 10); [|lia]|]. split; [by repeat constructor|].
    intros v. simpl. rewrite Hd, Hv, (Z.mod_small n 10) by lia. f_equal. lia. }
  change (decimal_fuel (S (S fuel)) n acc) with
    (if n <? 10 then digit (n `mod` 10) :: acc
     else decimal_fuel (S fuel) (n / 10) (digit (n `mod` 10) :: acc)).
  destruct (Z.ltb_spec n 10) as [Hlt|Hge].
  - exists (digit (n `mod` 10)), []. side. split; [by repeat constructor|].
    intros v. simpl. rewrite Hd, Hv, (Z.mod_small n 10) by lia. f_equal. lia.
  - destruct (IH (n / 10) (digit (n `mod` 10) :: acc) (digit (n `mod` 10) :: rest)) as (d & ds & Heq & Hall & Hscan).
    { rewrite (Nat2Z.inj_succ (S fuel)), Z.pow_succ_r in Hn by lia. pose proof (Z.div_mod n 10). nia. }
    exists d, (ds ++ [digit (n `mod` 10)]). rewrite <- app_assoc. side. split.
    { apply Forall_cons in Hall as [H1 H2]. constructor; [done|]. apply Forall_app. by split; [|repeat constructor]. }
    intros v. rewrite <- app_assoc. simpl app. rewrite Hscan. simpl. rewrite Hd, Hv. f_equal.
    pose proof (Z.div_mod n 10).
    replace (Z.of_nat (S (length (ds ++ [digit (n `mod` 10)])))) with (Z.succ (zlen (d :: ds)))
      by (simpl; rewrite length_app; simpl; lia).
    rewrite Z.pow_succ_r by lia. simpl length. lia.
Qed.

Lemma scan_digits_stop v rest :
  match rest with b :: _ => isdigit b = false | [] => True end -> scan_digits v rest = (v, rest).
Proof. destruct rest as [|b rest]; simpl; [done|]. by intros ->. Qed.

Lemma scan_int_decimal n rest :
  0 <= n < 2 ^ 31 -> match rest with b :: _ => isdigit b = false | [] => True end ->
  scan_int (decimal n ++ rest) = Some (n, rest).
Proof.
  intros Hn Hrest. destruct (scan_decimal_fuel 9 n [] rest) as (d & ds & Heq & Hall & Hscan); [lia|].
  unfold decimal. rewrite Heq, app_nil_r. apply Forall_cons in Hall as [Hd _].
  destruct (digit_not_space d Hd) as (Hsp & Hp & Hm). unfold scan_int. simpl. rewrite Hsp.
  assert (scan_unsigned (d :: ds ++ rest) = Some (n, rest)) as Hu.
  { unfold scan_unsigned. rewrite Hd, Hscan, scan_digits_stop by done. done. }
  destruct d; done.
Qed.

(** ** A concrete environment

    A client that sends the chunks of an inbox and then closes, a file with
    fixed contents, and calls that succeed. *)

Module SimEnv.
(** A number above every element of a set. *)
Definition above (X : gset Z) : Z := 1 + set_fold Z.max 0 X.

Lemma above_spec X : above X ∉ X /\ 0 < above X.
Proof.
  assert (0 <= set_fold Z.max 0 X /\ forall x, x ∈ X -> x <= set_fold Z.max 0 X) as [H1 H2].
  { apply (set_fold_ind_L (fun r X => 0 <= r /\ forall x : Z, x ∈ X -> x <= r)).
    - side. set_solver.
    - intros x Y r Hx [Hr HY]. split; [lia|]. intros y [->%elem_of_singleton|Hy]%elem_of_union; [lia|].
      specialize (HY y Hy). lia. }
  unfold above. split; [|lia]. intros Hin. specialize (H2 _ Hin). lia.
Qed.

Section env.
Variables (inbox : list (list byte)) (contents : list byte).

Definition sim_env : env := fun tr c =>
  match c with
  | Malloc _ => mk_answer (above (live tr)) []
  | Realloc _ n => mk_answer (if n <=? PTRDIFF_MAX then above (live tr) else NULL) []
  | Open _ _ _ | Accept _ | Socket => mk_answer (above (fds tr)) []
  | Recv _ n =>
      let d := default [] (inbox !! length (chunks tr)) in
      if zlen d <=? n then mk_answer (zlen d) d else mk_answer (-1) []
  | Read _ n =>
      let d := if decide (length contents < length (reads tr))%nat then []
               else take (Z.to_nat n) (drop (consumed tr) contents) in
      mk_answer (zlen d) d
  | Send _ d | Write _ d => mk_answer (zlen d) []
  | _ => mk_answer 0 []
  end.

#[export] Instance sim_env_ok : EnvOk sim_env.
Proof.
  split; intros; simpl in *.
  - apply above_spec.
  - case_match; [right; apply above_spec|done].
  - case_match; [lia|done].
  - apply above_spec.
  - pose proof (above_spec (fds tr)). lia.
  - case_match; simpl; lia.
  - case_decide; simpl; [lia|]. rewrite length_take. lia.
Qed.

#[export] Instance sim_mutex_ok m : MutexOk sim_env m.
Proof. by split. Qed.

Lemma sim_recv_bound tr fd n : (length inbox <= length (chunks tr))%nat ->
  rv (sim_env tr (Recv fd n)) <= 0.
Proof.
  intros H. simpl. rewrite lookup_ge_None_2 by done. simpl. case_match; simpl; lia.
Qed.

Lemma sim_read_bound tr fd n : (S (length contents) <= length (reads tr))%nat ->
  rv (sim_env tr (Read fd n)) <= 0.
Proof. intros H. simpl. rewrite decide_True by lia. done. Qed.

Lemma consumed_proper u : Forall (fun d => d <> []) (reads u) ->
  (length (reads u) <= consumed u)%nat.
Proof.
  unfold consumed. induction 1 as [|d l Hd _ IH]; simpl; [lia|]. rewrite length_app.
  destruct d; [done|]. simpl. lia.
Qed.

Lemma sim_yields fd : yields (E := sim_env) [] fd contents.
Proof.
  intros u n Hn Hu. pose proof (consumed_proper u Hu). simpl. case_decide as Hc.
  - assert (drop (consumed u) contents = []) as -> by (apply drop_ge; lia). simpl. split; [lia|].
    side. lia.
  - set (d := drop (consumed u) contents). rewrite length_take. split; [lia|]. split.
    + split; intros H0; [|rewrite H0; simpl; lia]. apply length_zero_iff_nil. lia.
    + intros _. rewrite take_take. split; [f_equal; lia|lia].
Qed.
End env.
End SimEnv.

(** ** Properties *)

Section theorems.
Context {E : env} {EOk : EnvOk E}.
Variables (char_device : bool) (IOCSEEKTO : Z) (int_of : Z -> Z).

(** The thread, without an assumption that it ends. *)
Lemma connection_run fuel c tr0 :
  MutexOk E (file_mutex c) -> file_mutex c ∉ locks tr0 -> live tr0 = ∅ ->
  exists r s', handle_connection E char_device IOCSEEKTO int_of fuel c (start tr0) = Some (r, s') /\
    (r = Some tt -> finished char_device int_of c tr0 s').
Proof.
  intros HM Hm Hl. destruct (wp_inv _ _ _ (handle_connection_ok char_device IOCSEEKTO int_of c tr0
    Hm Hl fuel False ltac:(intros fd tr m; by apply (write_to_client_both _ _ _ _ 0))
    ltac:(done) ltac:(done))) as (r & s' & Hrun & Hr).
  exists r, s'. side. intros ->. by destruct Hr as [[_ Hf]|[? _]].
Qed.

(** The thread, when its client and its file end. *)
Lemma connection_ends N c tr0 :
  MutexOk E (file_mutex c) -> file_mutex c ∉ locks tr0 -> live tr0 = ∅ ->
  (forall tr n, (N <= length (chunks tr))%nat -> rv (E tr (Recv (clfd c) n)) <= 0) ->
  (forall tr fd n, (N <= length (reads tr))%nat -> rv (E tr (Read fd n)) <= 0) ->
  exists s', handle_connection E char_device IOCSEEKTO int_of (S N) c (start tr0) = Some (Some tt, s').
Proof.
  intros HM Hm Hl Hrecv Hread.
  destruct (wp_inv _ _ _ (handle_connection_ok char_device IOCSEEKTO int_of c tr0 Hm Hl (S N) True
    ltac:(intros fd tr m; apply (write_to_client_both _ _ _ _ N); intros _; split; [lia|auto])
    ltac:(intros _ tr n Hle; apply Hrecv; lia) ltac:(intros _; lia))) as (r & s' & Hrun & Hr).
  exists s'. destruct Hr as [[-> _]|[_ ?]]; [done|tauto].
Qed.

(** C4. A connection thread is memory safe and gives back what it takes:
    whatever the client, the other threads and the system do, it never
    meets undefined behaviour (no access outside its buffer or to an
    uninitialised byte, no double free); and when it ends, its heap is
    empty, its descriptors are those it started with less the client's
    socket, the mutex is released, and setting [done] is its last step, so
    that the node can be freed. *)
Theorem connection_safe fuel c tr0 :
  MutexOk E (file_mutex c) -> file_mutex c ∉ locks tr0 -> live tr0 = ∅ ->
  exists r s', handle_connection E char_device IOCSEEKTO int_of fuel c (start tr0) = Some (r, s') /\
    (r = Some tt -> exists t b,
       s' = mk_proc (tr0 ++ t ++ [(StoreDone (conn_addr c), b)]) ∅ /\ running t /\
       live (trace s') = ∅ /\ fds (trace s') = fds tr0 ∖ {[clfd c]} /\
       locks (trace s') = locks tr0).
Proof.
  intros HM Hm Hl. destruct (connection_run fuel c tr0 HM Hm Hl) as (r & s' & Hrun & Hr).
  exists r, s'. side. intros ->. destruct (Hr eq_refl) as (t & b & Hf). exists t, b. tauto.
Qed.

(** C5. A connection implements the protocol: the writes and seeks it
    makes on the file are, in order, a prefix of the ones the protocol
    prescribes for the chunks received, and all of them when the client
    ended the connection; what it sends is what it read from the file, in
    order; and in the build with a mutex every write is made under it. *)
Theorem connection_protocol fuel c tr0 s' :
  MutexOk E (file_mutex c) -> file_mutex c ∉ locks tr0 -> live tr0 = ∅ ->
  handle_connection E char_device IOCSEEKTO int_of fuel c (start tr0) = Some (Some tt, s') ->
  exists t, trace s' = tr0 ++ t /\ sends t = reads t /\
    actions t `prefix_of` (session int_of (chunks t)).1 /\
    (~ connected t -> actions t = (session int_of (chunks t)).1) /\
    (char_device = false -> guarded (file_mutex c) (locks tr0) t).
Proof.
  intros HM Hm Hl Hrun. destruct (connection_run fuel c tr0 HM Hm Hl) as (r & s1 & Hrun1 & Hr).
  rewrite Hrun in Hrun1. injection Hrun1 as <- <-.
  destruct (Hr eq_refl) as (t & b & -> & _ & _ & _ & _ & Hg & Hsr & Hpre & Hall).
  exists (t ++ [(StoreDone (conn_addr c), b)]). side.
  unfold sends, reads in *. rewrite actions_app, chunks_app, connected_app, !omap_app, !app_nil_r.
  side. side. split; [intros Hn; apply Hall; intros Hc; by apply Hn|].
  intros Hc. apply guarded_app. by split; [apply Hg|].
Qed.

(** C26. A connection thread ends: if the client sends at most [N] chunks
    and the file delivers data at most [N] times, the loops end within
    [N + 1] rounds. *)
Theorem connection_terminates N c tr0 :
  MutexOk E (file_mutex c) -> file_mutex c ∉ locks tr0 -> live tr0 = ∅ ->
  (forall tr n, (N <= length (chunks tr))%nat -> rv (E tr (Recv (clfd c) n)) <= 0) ->
  (forall tr fd n, (N <= length (reads tr))%nat -> rv (E tr (Read fd n)) <= 0) ->
  exists s', handle_connection E char_device IOCSEEKTO int_of (S N) c (start tr0) = Some (Some tt, s').
Proof. apply connection_ends. Qed.

(** [write_to_client] delivers the rest of a file that nobody else
    changes: it ends, and either it returns 0 and has sent exactly the
    bytes from the position of the descriptor on, or it returns -1 after
    a [send] that was not complete, and has offered a prefix of them. *)
Theorem write_to_client_delivers fuel fd cl rest tr m :
  yields (E := E) tr fd rest -> (length rest < fuel)%nat ->
  exists u z, write_to_client E fuel fd cl (mk_proc tr m) = Some (Some z, mk_proc (tr ++ u) m) /\
    ((z = 0 /\ concat (sends u) = rest) \/
     (z = -1 /\ concat (sends u) `prefix_of` rest /\ short_send u)).
Proof.
  intros Hy Hf. destruct (wp_inv _ _ _ (write_to_client_yields fuel fd cl rest tr m Hy Hf))
    as (r & s' & Hrun & u & z & -> & -> & Hz). by exists u, z.
Qed.

(** A read error ends the echo like the end of the file does: the
    result is 0, although the code checks for the error inside the loop. *)
Theorem write_to_client_hides_error fuel fd cl s :
  rv (E (trace s) (Read fd BUFFER_SIZE)) < 0 ->
  exists s', write_to_client E (S fuel) fd cl s = Some (Some 0, s').
Proof.
  intros Hneg. eexists. unfold write_to_client. simpl. unfold obind, mbind, st_bind, sys.
  by destruct (Z.ltb_spec 0 (rv (E (trace s) (Read fd BUFFER_SIZE)))); [lia|].
Qed.

(** C37. [append_packet] opens the file for appending, hands the whole
    packet to one [write] and closes the file again on every path; it
    returns -1 exactly when the open or the write fails, so that a write
    that takes only a part of the packet counts as a success. *)
Theorem append_packet_outcomes fname p d tl tr :
  exists r u, append_packet E fname p (zlen d) (mk_proc tr {[p := (Some <$> d) ++ tl]}) =
      Some (r, mk_proc (tr ++ u) {[p := (Some <$> d) ++ tl]}) /\
    fds (tr ++ u) = fds tr /\
    exists o, (u = [(Open fname 1089 420, o)] /\ rv o = -1 /\ r = -1) \/
      (rv o <> -1 /\ exists w z, u = [(Open fname 1089 420, o); (Write (rv o) d, w); (Close (rv o), z)] /\
         r = if rv w =? -1 then -1 else 0).
Proof.
  destruct (wp_inv _ _ _ (append_packet_ok fname p d tl (fds tr) tr eq_refl))
    as (r & s' & Hrun & u & -> & Happ & Hev).
  exists r, u. side. rewrite fds_app. split; [apply (app_fds _ _ _ _ Happ)|done].
Qed.
End theorems.

(** The arguments of a seek command are parsed as they are printed: for
    two numbers below [2 ^ 31] in decimal, separated by a comma and followed
    by anything that does not start with a digit, sscanf gives them back. *)
Theorem seek_args_roundtrip a b rest :
  0 <= a < 2 ^ 31 -> 0 <= b < 2 ^ 31 ->
  match rest with x :: _ => isdigit x = false | [] => True end ->
  sscanf_d_d (decimal a ++ [x2c] ++ decimal b ++ rest) = Some (a, b).
Proof.
  intros Ha Hb Hr. unfold sscanf_d_d. rewrite scan_int_decimal by done. simpl.
  by rewrite scan_int_decimal by done.
Qed.

(** As long as what has been collected never starts with the seek command,
    the protocol appends what is received. *)
Definition no_seek (int_of : Z -> Z) (cs : list (list byte)) : Prop :=
  forall cs1 c, cs1 ++ [c] `prefix_of` cs -> ~ SEEKTO `prefix_of` (session int_of cs1).2 ++ c.

Lemma session_complete int_of cs : no_seek int_of cs ->
  concat (omap packet (session int_of cs).1) ++ (session int_of cs).2 = concat cs /\
  newline ∉ (session int_of cs).2.
Proof.
  induction cs as [|c cs IH] using rev_ind; intros Hno.
  { split; [done|apply not_elem_of_nil]. }
  destruct IH as [IH _].
  { intros cs1 c1 Hp. apply Hno. etrans; [exact Hp|]. by apply prefix_app_r. }
  rewrite session_snoc. split; [|apply feed_buffer].
  rewrite feed_no_seek by by apply Hno. by rewrite app_assoc, IH, concat_app; simpl; rewrite app_nil_r.
Qed.

(** No byte is lost or reordered: when the client has ended the
    connection and sent no seek command, the packets the thread wrote to the
    file, laid end to end, are the bytes received up to the last newline's
    packet; what is missing is an unfinished packet without a newline. *)
Theorem packets_complete {E : env} {EOk : EnvOk E} char_device IOCSEEKTO int_of fuel c tr0 s' t :
  MutexOk E (file_mutex c) -> file_mutex c ∉ locks tr0 -> live tr0 = ∅ ->
  handle_connection E char_device IOCSEEKTO int_of fuel c (start tr0) = Some (Some tt, s') ->
  trace s' = tr0 ++ t -> ~ connected t -> no_seek int_of (chunks t) ->
  exists rest, concat (omap packet (actions t)) ++ rest = concat (chunks t) /\ newline ∉ rest.
Proof.
  intros HM Hm Hl Hrun Ht Hn Hno.
  destruct (connection_run char_device IOCSEEKTO int_of fuel c tr0 HM Hm Hl) as (r & s1 & Hrun1 & Hr).
  rewrite Hrun in Hrun1. injection Hrun1 as <- <-.
  destruct (Hr eq_refl) as (t1 & b & -> & _ & _ & _ & _ & _ & _ & _ & Hall).
  simpl in Ht. apply app_inv_head in Ht as <-.
  rewrite connected_app, chunks_app, actions_app, !app_nil_r in *.
  rewrite Hall by (intros Hc; by apply Hn). exists (session int_of (chunks t1)).2.
  by apply session_complete.
Qed.

(** ** The theorems at a concrete environment *)

Module HandlerWitness.
Import SimEnv.

Definition inbox : list (list byte) :=
  [bytes_of "hel"; bytes_of "lo" ++ [newline]; SEEKTO ++ bytes_of "1,2" ++ [newline]].
Definition file_bytes : list byte := bytes_of "hello" ++ [newline].
Definition E0 : env := sim_env inbox file_bytes.
Definition conn0 : conn_info := mk_conn 64 4 128.
Definition tr00 : list event := [(Accept 3, mk_answer 4 [])].

#[local] Instance E0_ok : EnvOk E0 := sim_env_ok inbox file_bytes.
Definition E0_mutex : MutexOk E0 128 := sim_mutex_ok inbox file_bytes 128.

Lemma mutex_free0 : 128 ∉ locks tr00.
Proof. apply (bool_decide_unpack _). vm_compute. exact I. Qed.

Definition run0 := handle_connection E0 false 0 id 8 conn0 (start tr00).

Lemma connection_safe_witness :
  exists r s', run0 = Some (r, s') /\
    (r = Some tt -> exists t b,
       s' = mk_proc (tr00 ++ t ++ [(StoreDone 64, b)]) ∅ /\ running t /\
       live (trace s') = ∅ /\ fds (trace s') = fds tr00 ∖ {[4]} /\
       locks (trace s') = locks tr00).
Proof. apply (connection_safe false 0 id 8 conn0 tr00 E0_mutex mutex_free0 eq_refl). Defined.

Definition end0 : proc := match run0 with Some (_, s) => s | None => start [] end.

Lemma run0_ends : run0 = Some (Some tt, end0).
Proof. vm_compute. reflexivity. Qed.

Lemma connection_protocol_witness :
  exists t, trace end0 = tr00 ++ t /\ sends t = reads t /\
    actions t `prefix_of` (session id (chunks t)).1 /\
    (~ connected t -> actions t = (session id (chunks t)).1) /\
    (false = false -> guarded 128 (locks tr00) t).
Proof.
  apply (connection_protocol false 0 id 8 conn0 tr00 end0 E0_mutex mutex_free0 eq_refl run0_ends).
Defined.

Lemma connection_terminates_witness :
  exists s', handle_connection E0 false 0 id 8 conn0 (start tr00) = Some (Some tt, s').
Proof.
  apply (connection_terminates false 0 id 7 conn0 tr00 E0_mutex mutex_free0 eq_refl).
  - intros tr n H. apply sim_recv_bound. simpl. lia.
  - intros tr fd n H. apply sim_read_bound. simpl. lia.
Defined.

Lemma write_to_client_delivers_witness :
  exists u z, write_to_client E0 7 5 4 (mk_proc [] ∅) = Some (Some z, mk_proc u ∅) /\
    ((z = 0 /\ concat (sends u) = file_bytes) \/
     (z = -1 /\ concat (sends u) `prefix_of` file_bytes /\ short_send u)).
Proof.
  apply (write_to_client_delivers 7 5 4 file_bytes [] ∅ (sim_yields inbox file_bytes 5)).
  simpl. lia.
Defined.

Lemma write_to_client_hides_error_witness :
  exists s', write_to_client (fun _ _ => mk_answer (-1) []) 3 5 4 (start []) = Some (Some 0, s').
Proof. apply (write_to_client_hides_error 2 5 4 (start [])). simpl. lia. Defined.

Lemma append_packet_outcomes_witness :
  exists r u, append_packet E0 (bytes_of "f") 16 2 (mk_proc [] {[16 := [Some x61; Some newline; None]]}) =
      Some (r, mk_proc u {[16 := [Some x61; Some newline; None]]}) /\
    fds u = fds [] /\
    exists o, (u = [(Open (bytes_of "f") 1089 420, o)] /\ rv o = -1 /\ r = -1) \/
      (rv o <> -1 /\ exists w z,
         u = [(Open (bytes_of "f") 1089 420, o); (Write (rv o) [x61; newline], w); (Close (rv o), z)] /\
         r = if rv w =? -1 then -1 else 0).
Proof. apply (append_packet_outcomes (bytes_of "f") 16 [x61; newline] [None] []). Defined.

Lemma seek_args_roundtrip_witness :
  sscanf_d_d (bytes_of "12,345" ++ [newline]) = Some (12, 345).
Proof. apply (seek_args_roundtrip 12 345 [newline]); [lia|lia|reflexivity]. Defined.

(** A client that sends one packet in two chunks. *)
Definition E1 : env := sim_env (take 2 inbox) file_bytes.
#[local] Instance E1_ok : EnvOk E1 := sim_env_ok (take 2 inbox) file_bytes.
Definition end1 : proc :=
  match handle_connection E1 false 0 id 8 conn0 (start tr00) with Some (_, s) => s | None => start [] end.
Definition t1 : list event := drop 1 (trace end1).

Lemma no_seek1 : no_seek id (chunks t1).
Proof.
  replace (chunks t1) with (take 2 inbox) by (vm_compute; reflexivity).
  intros cs1 c1 Hp. destruct cs1 as [|x [|y cs1]].
  - apply prefix_cons_inv_1 in Hp as ->. apply (bool_decide_unpack _). vm_compute. exact I.
  - apply prefix_cons_inv_1 in Hp as Hx. apply prefix_cons_inv_2, prefix_cons_inv_1 in Hp. subst.
    apply (bool_decide_unpack _). vm_compute. exact I.
  - apply prefix_length in Hp. simpl in Hp. rewrite length_app in Hp. simpl in Hp. lia.
Qed.

Lemma packets_complete_witness :
  exists rest, concat (omap packet (actions t1)) ++ rest = concat (chunks t1) /\ newline ∉ rest.
Proof.
  apply (packets_complete (E := E1) false 0 id 8 conn0 tr00 end1 t1
    (sim_mutex_ok (take 2 inbox) file_bytes 128) mutex_free0 eq_refl).
  - vm_compute. reflexivity.
  - vm_compute. reflexivity.
  - vm_compute. discriminate.
  - apply no_seek1.
Defined.

(** What a connection that sends [cs] does to the file. *)
Definition file_actions (cs : list (list byte)) : list action :=
  match handle_connection (sim_env cs file_bytes) true 0 id 8 conn0 (start tr00) with
  | Some (Some tt, s) => actions (trace s)
  | _ => []
  end.

(** A seek command is carried out at the first chunk that starts with
    its name, complete or not: sent in one piece it seeks, but when it
    arrives in two chunks it is dropped, and its second part is appended
    to the file as a packet. *)
Theorem split_seek_command :
  file_actions [SEEKTO ++ bytes_of "1,2" ++ [newline]] = [Seek 1 2] /\
  file_actions [SEEKTO ++ bytes_of "1"; bytes_of ",2" ++ [newline]] =
    [Append (bytes_of ",2" ++ [newline])].
Proof. split; vm_compute; reflexivity. Qed.
End HandlerWitness.
