(* ===== verification/Queue.v ===== *)
(** * Singly-linked lists of queue.h

    Models the [SLIST] macros of [server/queue.h] on a heap of nodes: a node
    is its link and the rest of its structure, a pointer is an address, and
    following a link from an address that holds no node is undefined
    behaviour ([None]).  [slist h p l] says that the chain from [p] visits
    the addresses [l] and ends; each macro is specified as the operation on
    [l] it implements, with the footprint of its stores. *)

From S2P Require Import Prelude.

(** ** Data *)

Record node (A : Type) : Type := mk_node {
  sle_next : Z;
  val : A;
}.
Arguments mk_node {A} _ _.
Arguments sle_next {A} _.
Arguments val {A} _.

Abbreviation heap A := (gmap Z (node A)).

Section slist.
Context {A : Type}.
Implicit Types (h : heap A) (p elm : Z) (l : list Z).

(** ** The macros

    The head is the value of [slh_first]; a macro that changes it returns
    the new value. *)

Definition SLIST_INIT : Z := NULL.
Definition SLIST_EMPTY (first : Z) : bool := first =? NULL.
Definition SLIST_FIRST (first : Z) : Z := first.
Definition SLIST_NEXT h elm : option Z := sle_next <$> h !! elm.

(** [SLIST_NEXT(elm) = p] *)
Definition set_next h elm p : option (heap A) :=
  n ← h !! elm; Some (<[elm := mk_node p (val n)]> h).

Definition SLIST_INSERT_HEAD (first : Z) h elm : option (Z * heap A) :=
  h' ← set_next h elm (SLIST_FIRST first);
  Some (elm, h').

Definition SLIST_INSERT_AFTER h slistelm elm : option (heap A) :=
  nx ← SLIST_NEXT h slistelm;
  h' ← set_next h elm nx;
  set_next h' slistelm elm.

Definition SLIST_REMOVE_HEAD (first : Z) h : option Z := SLIST_NEXT h (SLIST_FIRST first).

Definition SLIST_REMOVE_AFTER h elm : option (heap A) :=
  nx ← SLIST_NEXT h elm;
  nx2 ← SLIST_NEXT h nx;
  set_next h elm nx2.

(** The loop of [SLIST_REMOVE]: the element before [elm].  A chain has no
    more links than the heap has nodes, so [fuel] is the size of the heap
    plus one. *)
Fixpoint find_prev (fuel : nat) h cur elm : option Z :=
  match fuel with
  | O => None
  | S fuel =>
      nx ← SLIST_NEXT h cur;
      if nx =? elm then Some cur else find_prev fuel h nx elm
  end.

Definition SLIST_REMOVE (first : Z) h elm : option (Z * heap A) :=
  if SLIST_FIRST first =? elm then
    first' ← SLIST_REMOVE_HEAD first h;
    Some (first', h)
  else
    cur ← find_prev (S (size h)) h (SLIST_FIRST first) elm;
    h' ← SLIST_REMOVE_AFTER h cur;
    Some (first, h').

(** The loop of [SLIST_CONCAT]: the last element. *)
Fixpoint find_last (fuel : nat) h cur : option Z :=
  match fuel with
  | O => None
  | S fuel =>
      nx ← SLIST_NEXT h cur;
      if nx =? NULL then Some cur else find_last fuel h nx
  end.

(** Returns both heads. *)
Definition SLIST_CONCAT (first1 first2 : Z) h : option (Z * Z * heap A) :=
  if first1 =? NULL then
    Some (first2, if negb (first2 =? NULL) then SLIST_INIT else first2, h)
  else if negb (first2 =? NULL) then
    cur ← find_last (S (size h)) h first1;
    h' ← set_next h cur first2;
    Some (first1, SLIST_INIT, h')
  else Some (first1, first2, h).

(** Returns the head of the rest. *)
Definition SLIST_SPLIT_AFTER h elm : option (Z * heap A) :=
  rest ← SLIST_NEXT h elm;
  h' ← set_next h elm NULL;
  Some (rest, h').

Definition SLIST_SWAP (first1 first2 : Z) : Z * Z := (first2, first1).

(** ** Chains *)

Fixpoint slist h p l : Prop :=
  match l with
  | [] => p = NULL
  | x :: l => p = x /\ x <> NULL /\ exists n, h !! x = Some n /\ slist h (sle_next n) l
  end.

Lemma slist_det h p l1 l2 : slist h p l1 -> slist h p l2 -> l1 = l2.
Proof.
  revert p l2. induction l1 as [|x l1 IH]; intros p [|y l2]; simpl; [done|naive_solver..|].
  intros (-> & Hx & n & Hn & H1) (-> & _ & n' & Hn' & H2). f_equal. simplify_eq. by eapply IH.
Qed.

Lemma slist_suffix h p l1 x l2 : slist h p (l1 ++ x :: l2) -> slist h x (x :: l2).
Proof.
  revert p. induction l1 as [|y l1 IH]; simpl; intros p.
  - intros (-> & H). done.
  - intros (_ & _ & n & _ & H). by eapply IH.
Qed.

(** A chain visits no node twice. *)
Lemma slist_nodup h p l : slist h p l -> NoDup l.
Proof.
  revert p. induction l as [|x l IH]; intros p; simpl; [constructor|].
  intros (-> & Hx & n & Hn & Hl). constructor; [|by eapply IH].
  intros Hin. apply list_elem_of_split in Hin as (l1 & l2 & ->).
  assert (slist h x (x :: l1 ++ x :: l2)) as H1 by (simpl; eauto).
  pose proof (slist_suffix h x (x :: l1) x l2 H1) as H2.
  pose proof (slist_det _ _ _ _ H1 H2) as Heq. apply (f_equal length) in Heq.
  simpl in Heq. rewrite length_app in Heq. simpl in Heq. lia.
Qed.

Lemma slist_lookup h p l x : slist h p l -> x ∈ l -> x <> NULL /\ is_Some (h !! x).
Proof.
  revert p. induction l as [|y l IH]; intros p; simpl; [by intros _ ?%not_elem_of_nil|].
  intros (-> & Hy & n & Hn & Hl) [->|Hin]%elem_of_cons; [by split; eauto|by eapply IH].
Qed.

(** Stores outside a chain do not change it. *)
Lemma slist_frame h h' p l :
  (forall x, x ∈ l -> sle_next <$> h' !! x = sle_next <$> h !! x) -> slist h p l -> slist h' p l.
Proof.
  revert p. induction l as [|x l IH]; intros p Hf; simpl; [done|].
  intros (-> & Hx & n & Hn & Hl). side. side.
  specialize (Hf x ltac:(left)) as Hfx. rewrite Hn in Hfx. simpl in Hfx.
  apply fmap_Some in Hfx as (n' & Hn' & Hnext). exists n'. side. rewrite <- Hnext.
  apply IH; [|done]. intros y Hy. apply Hf. by right.
Qed.

Lemma slist_insert_other h p l x n : x ∉ l -> slist h p l -> slist (<[x := n]> h) p l.
Proof. intros Hx. apply slist_frame. intros y Hy. rewrite lookup_insert_ne; [done|]. by intros ->. Qed.

Lemma slist_delete h p l x : x ∉ l -> slist h p l -> slist (delete x h) p l.
Proof. intros Hx. apply slist_frame. intros y Hy. rewrite lookup_delete_ne; [done|]. by intros ->. Qed.

Lemma slist_length h p l : slist h p l -> (length l <= size h)%nat.
Proof.
  intros Hl. rewrite <- (size_list_to_set (C := gset Z) l) by by eapply slist_nodup.
  rewrite <- (size_dom (D := gset Z) h). apply subseteq_size. intros x Hx.
  apply elem_of_list_to_set in Hx. apply elem_of_dom. by eapply slist_lookup.
Qed.

(** ** The macros implement the operations on the list *)

Lemma insert_head_ok h first l elm n :
  slist h first l -> elm <> NULL -> elm ∉ l -> h !! elm = Some n ->
  SLIST_INSERT_HEAD first h elm = Some (elm, <[elm := mk_node first (val n)]> h) /\
  slist (<[elm := mk_node first (val n)]> h) elm (elm :: l).
Proof.
  intros Hl He Hnin Hn. unfold SLIST_INSERT_HEAD, set_next. rewrite Hn. side.
  simpl. side. side. exists (mk_node first (val n)).
  rewrite lookup_insert_eq. side. by apply slist_insert_other.
Qed.

Lemma find_prev_ok h l1 : forall fuel cur x l2,
  slist h cur (cur :: l1 ++ x :: l2) -> (length l1 < fuel)%nat ->
  exists y, last (cur :: l1) = Some y /\ find_prev fuel h cur x = Some y.
Proof.
  induction l1 as [|y l1 IH]; intros [|fuel] cur x l2 Hl Hf; try (simpl in Hf; lia).
  - simpl in Hl. destruct Hl as (_ & _ & n & Hn & Hnx & Hx & _). exists cur. side.
    simpl. unfold SLIST_NEXT. rewrite Hn. simpl. by rewrite Hnx, Z.eqb_refl.
  - assert (x <> y) as Hne.
    { apply slist_nodup, NoDup_cons in Hl as [_ Hnd]. simpl in Hnd.
      apply NoDup_cons in Hnd as [Hy _]. intros ->. apply Hy, elem_of_app. right. left. }
    simpl in Hl. destruct Hl as (_ & _ & n & Hn & Hnx & Hrest).
    destruct (IH fuel y x l2) as (z & Hz & Hfind); [simpl; tauto|simpl in Hf; lia|].
    exists z. side. simpl. unfold SLIST_NEXT. rewrite Hn. simpl.
    destruct (Z.eqb_spec (sle_next n) x); [congruence|]. rewrite Hnx. done.
Qed.

(** Unlinking the node behind [y]. *)
Lemma slist_unlink h p l1 y x l2 ny nx :
  slist h p (l1 ++ y :: x :: l2) -> h !! y = Some ny -> h !! x = Some nx ->
  slist (<[y := mk_node (sle_next nx) (val ny)]> h) p (l1 ++ y :: l2).
Proof.
  intros Hl Hy Hx. pose proof (slist_nodup _ _ _ Hl) as Hnd. revert p Hl.
  induction l1 as [|z l1 IH]; intros p Hl.
  - simpl in *. destruct Hl as (-> & Hy0 & n & Hn & Hnx & Hx0 & n' & Hn' & Hl). simplify_eq.
    side. side. exists (mk_node (sle_next nx) (val ny)).
    rewrite lookup_insert_eq. side. apply slist_insert_other; [|done].
    apply NoDup_cons in Hnd as [Hnd _]. set_solver.
  - simpl in *. apply NoDup_cons in Hnd as [Hz Hnd]. destruct Hl as (-> & Hz0 & n & Hn & Hl).
    side. side. exists n. rewrite lookup_insert_ne by set_solver.
    side. by apply IH.
Qed.

(** Stores only to the link of another element of the list. *)
Definition only_links (l : list Z) h h' : Prop :=
  (forall x, x ∉ l -> h' !! x = h !! x) /\
  (forall x, val <$> h' !! x = val <$> h !! x).

Lemma remove_ok h first l1 x l2 :
  slist h first (l1 ++ x :: l2) ->
  exists first' h', SLIST_REMOVE first h x = Some (first', h') /\
    slist h' first' (l1 ++ l2) /\ only_links l1 h h'.
Proof.
  intros Hl. pose proof (slist_nodup _ _ _ Hl) as Hnd. pose proof (slist_length _ _ _ Hl) as Hsz.
  unfold SLIST_REMOVE, SLIST_REMOVE_HEAD, SLIST_FIRST. destruct l1 as [|c l1].
  - simpl in *. destruct Hl as (-> & Hx & n & Hn & Hl). rewrite Z.eqb_refl. unfold SLIST_NEXT.
    rewrite Hn. simpl. by exists (sle_next n), h.
  - assert (first = c) as -> by (simpl in Hl; tauto). simpl in Hnd. apply NoDup_cons in Hnd as [Hc Hnd].
    destruct (Z.eqb_spec c x) as [->|Hne]; [set_solver|].
    destruct (find_prev_ok h l1 (S (size h)) c x l2 Hl) as (y & Hlast & Hfind).
    { rewrite !length_app in Hsz. simpl in Hsz. lia. }
    rewrite Hfind. simpl. apply last_Some in Hlast as (l0 & Hl0).
    assert ((c :: l1) ++ x :: l2 = l0 ++ y :: x :: l2) as Heq.
    { rewrite Hl0, <- app_assoc. done. }
    rewrite Heq in Hl. destruct (slist_lookup _ _ _ y Hl) as [_ [ny Hy]]; [set_solver|].
    destruct (slist_lookup _ _ _ x Hl) as [_ [nx Hx]]; [set_solver|].
    assert (sle_next ny = x) as Hnext.
    { apply slist_suffix in Hl. simpl in Hl. destruct Hl as (_ & _ & n & Hn & Hnx & _). by simplify_eq. }
    unfold SLIST_REMOVE_AFTER, SLIST_NEXT, set_next. rewrite Hy. simpl. rewrite Hnext, Hx. simpl.
    eexists _, _. side. split.
    + match goal with |- context [<[y := ?n]> h] => change (slist (<[y := n]> h) c ((c :: l1) ++ l2)) end.
      rewrite Hl0, <- app_assoc. by eapply slist_unlink.
    + split; intros z.
      * intros Hz. rewrite lookup_insert_ne; [done|]. intros ->. apply Hz. rewrite Hl0. set_solver.
      * destruct (decide (z = y)) as [->|Hzy]; [by rewrite lookup_insert_eq, Hy|by rewrite lookup_insert_ne].
Qed.

Lemma find_last_ok h l : forall fuel cur,
  slist h cur (cur :: l) -> (length l < fuel)%nat ->
  exists y, last (cur :: l) = Some y /\ find_last fuel h cur = Some y.
Proof.
  induction l as [|x l IH]; intros [|fuel] cur Hl Hf; try (simpl in Hf; lia).
  - simpl in Hl. destruct Hl as (_ & _ & n & Hn & Hnx). exists cur. side.
    simpl. unfold SLIST_NEXT. rewrite Hn. simpl. by rewrite Hnx.
  - simpl in Hl. destruct Hl as (_ & _ & n & Hn & Hnx & Hx & Hrest).
    destruct (IH fuel x) as (z & Hz & Hfind); [by simpl|simpl in Hf; lia|].
    exists z. side. simpl. unfold SLIST_NEXT. rewrite Hn. simpl.
    by rewrite Hnx, (proj2 (Z.eqb_neq _ _) Hx).
Qed.

(** Linking the last node of a chain to another chain. *)
Lemma slist_link h p l1 y ny q l2 :
  slist h p (l1 ++ [y]) -> slist h q l2 -> y ∉ l2 -> h !! y = Some ny ->
  slist (<[y := mk_node q (val ny)]> h) p ((l1 ++ [y]) ++ l2).
Proof.
  intros Hl Hq Hy2 Hy. pose proof (slist_nodup _ _ _ Hl) as Hnd. revert p Hl.
  induction l1 as [|z l1 IH]; intros p Hl.
  - simpl in *. destruct Hl as (-> & Hy0 & _). side. side.
    eexists. rewrite lookup_insert_eq. side. by apply slist_insert_other.
  - simpl in *. apply NoDup_cons in Hnd as [Hz Hnd]. destruct Hl as (-> & Hz0 & n & Hn & Hl).
    side. side. exists n. rewrite lookup_insert_ne by set_solver.
    side. by apply IH.
Qed.

(** ** Properties *)

(** [SLIST_REMOVE] of an element of the list: the search loop ends and
    follows valid links only, and what is left is the list without that
    element, in order; no payload changes, and no node outside the list is
    touched. *)
Theorem slist_remove_correct h first l x :
  slist h first l -> x ∈ l ->
  exists first' h', SLIST_REMOVE first h x = Some (first', h') /\
    slist h' first' (filter (fun y => y <> x) l) /\
    (forall y, y ∉ l -> h' !! y = h !! y) /\
    (forall y, val <$> h' !! y = val <$> h !! y).
Proof.
  intros Hl Hx. apply list_elem_of_split in Hx as (l1 & l2 & ->).
  destruct (remove_ok _ _ _ _ _ Hl) as (first' & h' & Hrun & Hl' & Hout & Hval).
  exists first', h'. side.
  apply slist_nodup, NoDup_app in Hl as (_ & Hd & Hnd). apply NoDup_cons in Hnd as [Hx2 _].
  rewrite filter_app, filter_cons_False by naive_solver.
  rewrite !filter_Forall_id by (apply Forall_forall; set_solver).
  side. split; [|done]. intros y Hy. apply Hout. set_solver.
Qed.

(** [SLIST_INSERT_HEAD] puts a node that is not in the list in front
    of it; removing that node again gives back the list. *)
Theorem slist_insert_remove h first l elm n :
  slist h first l -> elm <> NULL -> elm ∉ l -> h !! elm = Some n ->
  exists h1 h2, SLIST_INSERT_HEAD first h elm = Some (elm, h1) /\ slist h1 elm (elm :: l) /\
    SLIST_REMOVE elm h1 elm = Some (first, h2) /\ slist h2 first l.
Proof.
  intros Hl He Hn Hnode. destruct (insert_head_ok _ _ _ _ _ Hl He Hn Hnode) as [Hins Hl1].
  eexists _, _. split; [exact Hins|]. side. unfold SLIST_REMOVE, SLIST_FIRST.
  rewrite Z.eqb_refl. unfold SLIST_REMOVE_HEAD, SLIST_NEXT, SLIST_FIRST. rewrite lookup_insert_eq.
  side. by apply slist_insert_other.
Qed.

(** [SLIST_CONCAT] of two lists without a common node: the first head
    has both, in order, and the second is empty. *)
Theorem slist_concat_correct h first1 first2 l1 l2 :
  slist h first1 l1 -> slist h first2 l2 -> (forall x, x ∈ l1 -> x ∉ l2) ->
  exists first1' first2' h', SLIST_CONCAT first1 first2 h = Some (first1', first2', h') /\
    slist h' first1' (l1 ++ l2) /\ slist h' first2' [].
Proof.
  intros H1 H2 Hd. unfold SLIST_CONCAT. destruct l1 as [|c l1].
  - simpl in H1. subst first1. simpl. exists first2, NULL, h. split; [|done].
    by destruct (Z.eqb_spec first2 NULL) as [->|].
  - assert (first1 = c) as -> by (simpl in H1; tauto).
    assert (c <> NULL) as Hc by (simpl in H1; tauto). rewrite (proj2 (Z.eqb_neq _ _) Hc).
    pose proof (slist_length _ _ _ H1) as Hsz. simpl in Hsz. destruct l2 as [|d l2].
    { simpl in H2. subst first2. simpl. exists c, NULL, h. by rewrite app_nil_r. }
    assert (first2 <> NULL) as Hf2 by (simpl in H2; naive_solver).
    rewrite (proj2 (Z.eqb_neq _ _) Hf2). cbn [negb].
    destruct (find_last_ok h l1 (S (size h)) c H1) as (y & Hlast & Hfind); [lia|].
    rewrite Hfind. apply last_Some in Hlast as (l0 & Hl0). rewrite Hl0 in H1, Hd.
    destruct (slist_lookup _ _ _ y H1) as [_ [ny Hy]]; [set_solver|].
    unfold set_next. simpl. rewrite Hy. simpl. eexists _, _, _. side. split; [|done].
    match goal with |- context [<[y := ?n]> h] => change (slist (<[y := n]> h) c ((c :: l1) ++ d :: l2)) end.
    rewrite Hl0. apply slist_link; try done. apply Hd. set_solver.
Qed.
End slist.

(** ** The theorems at concrete lists *)

Module QueueWitness.
Definition h0 : heap nat :=
  {[16 := mk_node 32 1%nat; 32 := mk_node 48 2%nat; 48 := mk_node 0 3%nat;
    64 := mk_node 0 4%nat; 80 := mk_node 0 5%nat]}.

Lemma chain0 : slist h0 16 [16; 32; 48].
Proof. simpl. split_and!; try done. repeat (eexists; split_and!; [reflexivity|done..|]). done. Qed.

Lemma chain1 : slist h0 64 [64].
Proof. simpl. split_and!; try done. eexists. by split; [reflexivity|]. Qed.

Lemma slist_remove_correct_witness :
  exists first' h', SLIST_REMOVE 16 h0 32 = Some (first', h') /\ slist h' first' [16; 48] /\
    (forall y, y ∉ [16; 32; 48] -> h' !! y = h0 !! y) /\
    (forall y, val <$> h' !! y = val <$> h0 !! y).
Proof. apply (slist_remove_correct h0 16 [16; 32; 48] 32 chain0). set_solver. Defined.

Lemma slist_insert_remove_witness :
  exists h1 h2, SLIST_INSERT_HEAD 16 h0 80 = Some (80, h1) /\ slist h1 80 [80; 16; 32; 48] /\
    SLIST_REMOVE 80 h1 80 = Some (16, h2) /\ slist h2 16 [16; 32; 48].
Proof.
  apply (slist_insert_remove h0 16 [16; 32; 48] 80 (mk_node 0 5%nat) chain0); [lia|set_solver|reflexivity].
Defined.

Lemma slist_concat_correct_witness :
  exists first1' first2' h', SLIST_CONCAT 16 64 h0 = Some (first1', first2', h') /\
    slist h' first1' [16; 32; 48; 64] /\ slist h' first2' [].
Proof. apply (slist_concat_correct h0 16 64 [16; 32; 48] [64] chain0 chain1). set_solver. Defined.
End QueueWitness.
