(* ===== verification/Words.v ===== *)
(** * Pointer variables in memory

    The macros of [server/queue.h] store pointers to pointers: the tail of a
    queue is the address of the last [next] member, and the back link of an
    element is the address of the member that points to it, in an element or
    in a head.  This file has the memory they work on, a finite map from the
    addresses of pointer variables to their values; an access to an address
    that holds none is undefined behaviour.

    [owns m cs] says that the words [cs], pairs of address and value, are at
    different addresses of [m] and have these values.  It plays the role of
    a separating conjunction: specifications mention the words of a data
    structure and an arbitrary rest, and the tactics [w_ld] and [w_st]
    execute loads and stores on the list of owned words. *)

From S2P Require Import Prelude.

Abbreviation words := (gmap Z Z).
Abbreviation wordlist := (list (Z * Z)).

(** The size of a pointer. *)
Definition WORD : Z := 8.

Definition ld (a : Z) : ST words Z := st_opt (fun m => m !! a).
Definition st (a v : Z) : ST words unit := fun m =>
  match m !! a with
  | Some _ => Some (tt, <[a := v]> m)
  | None => None
  end.

(** ** Owned words *)

Definition owns (m : words) (cs : wordlist) : Prop :=
  NoDup cs.*1 /\ forall a v, (a, v) ∈ cs -> m !! a = Some v.

#[export] Instance owns_perm m : Proper ((≡ₚ) ==> iff) (owns m).
Proof. intros cs cs' Hp. unfold owns. setoid_rewrite Hp. done. Qed.

Lemma owns_list_to_map cs : NoDup cs.*1 -> owns (list_to_map cs) cs.
Proof. intros Hnd. split; [done|]. intros a v. by apply elem_of_list_to_map_1. Qed.

Lemma owns_size m cs : owns m cs -> (length cs <= size m)%nat.
Proof.
  intros [Hnd Hm]. rewrite <- (length_fmap fst cs).
  rewrite <- (size_list_to_set (C := gset Z) cs.*1) by done.
  rewrite <- (size_dom (D := gset Z) m). apply subseteq_size. intros a.
  rewrite elem_of_list_to_set, list_elem_of_fmap. intros ([b v] & -> & Hin).
  apply elem_of_dom. simpl. eauto.
Qed.

Lemma owns_app_r m c1 c2 : owns m (c1 ++ c2) -> owns m c2.
Proof.
  intros [Hnd Hm]. rewrite fmap_app in Hnd. apply NoDup_app in Hnd as (_ & _ & Hnd).
  side. intros a v Hin. apply Hm, elem_of_app. by right.
Qed.

Lemma owns_apart m c1 c2 a v b w : owns m (c1 ++ c2) -> (a, v) ∈ c1 -> (b, w) ∈ c2 -> a <> b.
Proof.
  intros [Hnd _] H1 H2 ->. rewrite fmap_app in Hnd. apply NoDup_app in Hnd as (_ & Hd & _).
  by apply (Hd b); apply list_elem_of_fmap; [exists (b, v)|exists (b, w)].
Qed.

Lemma owns_ne m a v r b w : owns m ((a, v) :: r) -> (b, w) ∈ r -> a <> b.
Proof. intros Ho Hin. apply (owns_apart m [(a, v)] r a v b w Ho); set_solver. Qed.

(** [put a w cs cs']: the list [cs'] is [cs] with the value of the word at
    [a] replaced by [w]. *)
Inductive put (a w : Z) : wordlist -> wordlist -> Prop :=
| put_here v r : put a w ((a, v) :: r) ((a, w) :: r)
| put_there c r r' : put a w r r' -> put a w (c :: r) (c :: r')
| put_left l l' r : put a w l l' -> put a w (l ++ r) (l' ++ r)
| put_right l r r' : put a w r r' -> put a w (l ++ r) (l ++ r').

Lemma put_split a w cs cs' : put a w cs cs' ->
  exists c1 v c2, cs = c1 ++ (a, v) :: c2 /\ cs' = c1 ++ (a, w) :: c2.
Proof.
  induction 1 as [v r|c r r' _ (c1 & v & c2 & -> & ->)|l l' r _ (c1 & v & c2 & -> & ->)|l r r' _ (c1 & v & c2 & -> & ->)].
  - by exists [], v, r.
  - by exists (c :: c1), v, c2.
  - exists c1, v, (c2 ++ r). by rewrite <- !app_assoc.
  - exists (l ++ c1), v, c2. by rewrite <- !app_assoc.
Qed.

Lemma owns_put m a w cs cs' : owns m cs -> put a w cs cs' ->
  is_Some (m !! a) /\ owns (<[a := w]> m) cs'.
Proof.
  intros Ho (c1 & v & c2 & -> & ->)%put_split.
  rewrite <- Permutation_middle in Ho |- *. destruct Ho as [Hnd Hm].
  split; [exists v; apply Hm; left|]. split; [done|]. simpl in Hnd.
  apply NoDup_cons in Hnd as [Ha _]. intros b u [[= -> ->]|Hin]%elem_of_cons.
  - by rewrite lookup_insert_eq.
  - rewrite lookup_insert_ne; [apply Hm; by right|]. intros ->.
    apply Ha, list_elem_of_fmap. by exists (b, u).
Qed.

(** ** Rules for loads and stores *)

Lemma wp_ld m cs a v Q : owns m cs -> (a, v) ∈ cs -> Q v m -> wp (ld a) Q m.
Proof. intros [_ Hm] Hin HQ. eapply wp_opt; [by apply Hm|done]. Qed.

Lemma wp_st m cs cs' a w Q :
  owns m cs -> put a w cs cs' -> (forall m', owns m' cs' -> Q tt m') -> wp (st a w) Q m.
Proof.
  intros Ho Hp HQ. destruct (owns_put _ _ _ _ _ Ho Hp) as [[v Hv] Ho'].
  unfold wp, st. rewrite Hv. by apply HQ.
Qed.

(** Where a word is in a list of words. *)
Ltac in_words :=
  first
    [ apply list_elem_of_here
    | apply list_elem_of_further; in_words
    | apply elem_of_app; left; in_words
    | apply elem_of_app; right; in_words ].
Ltac put_words :=
  first
    [ apply put_here
    | apply put_there; put_words
    | apply put_left; put_words
    | apply put_right; put_words ].

(** Execute a load or a store on the words that the context owns. *)
Ltac w_ld :=
  match goal with
  | Ho : owns ?m _ |- wp (ld _) _ ?m => eapply (wp_ld _ _ _ _ _ Ho); [in_words|]
  end; cbv beta.
Ltac w_st :=
  match goal with
  | Ho : owns ?m _ |- wp (st _ _) _ ?m =>
      eapply (wp_st _ _ _ _ _ _ Ho); [put_words|]; clear Ho;
      let m' := fresh m in intros m' Ho; try (clear m; rename m' into m)
  end; cbv beta.
Ltac w_step := first [w_ld | w_st | wp_step].
Ltac w_steps := repeat w_step.

(** Conclude from the words owned at the end, in any order. *)
Ltac w_done :=
  match goal with
  | Ho : owns ?m _ |- owns ?m _ => eapply (owns_perm m); [|exact Ho]; solve_Permutation
  end.

(** A computation that only reads: its value. *)
Lemma wp_reads {A} (c : ST words A) u m : wp c (fun v m' => v = u /\ m' = m) m <-> c m = Some (u, m).
Proof. unfold wp. destruct (c m) as [[v m']|]; naive_solver. Qed.
