(* ===== verification/Links.v ===== *)
(** * What the queue macros promise

    [server/queue.h] has four families of intrusive lists.  This file states
    what they have in common.  [aqueues] is the abstract state of a program
    that uses two heads of one family and a pool of elements that are in
    neither list; [astep] says what each macro does to it, and is undefined
    where a macro may not be used.  A family promises class [QueueFamily]:
    its macros carry out these steps on the words of its heads and elements,
    and touch no other word.  [run_ops] runs a program of macros;
    [run_ops_ok] is proved once, against the class.

    [layout] has the place of the link structure in an element and two of the
    three debug options of the file, [QUEUE_MACRO_DEBUG_ASSERTIONS] and
    [QUEUE_MACRO_DEBUG_TRASH]; everything holds for all their values.  The
    third, [QUEUE_MACRO_DEBUG_TRACE], is the subject of [QueueTrace]. *)

From S2P Require Import Prelude Words.

Class layout : Type := mk_layout {
  (** [offsetof(type, field)] *)
  field : Z;
  QUEUE_MACRO_DEBUG_ASSERTIONS : bool;
  QUEUE_MACRO_DEBUG_TRASH : bool;
}.

(** ** Debug options *)

Section debug.
Context {L : layout}.

(** The message is printed and the program aborted: the run has no result. *)
Definition QMD_PANIC : ST words unit := st_ub.

Definition QMD_ASSERT (expression : ST words bool) : ST words unit :=
  if QUEUE_MACRO_DEBUG_ASSERTIONS then
    e ← expression;
    if negb e then QMD_PANIC else mret tt
  else mret tt.

(** [TRASHIT(x)] for the word [x] at an address that [QMD_SAVELINK] took. *)
Definition TRASHIT (a : Z) : ST words unit :=
  if QUEUE_MACRO_DEBUG_TRASH then st a (-1) else mret tt.

Definition QMD_IS_TRASHED (x : Z) : bool :=
  if QUEUE_MACRO_DEBUG_TRASH then x =? -1 else false.

(** An assertion that holds has no effect. *)
Lemma wp_assert e Q m :
  wp e (fun b m' => b = true /\ m' = m) m -> Q tt m -> wp (QMD_ASSERT e) Q m.
Proof.
  intros He HQ. unfold QMD_ASSERT. destruct QUEUE_MACRO_DEBUG_ASSERTIONS; [|done].
  apply wp_bind. eapply wp_mono; [exact He|]. intros b m' [-> ->]. done.
Qed.

(** *** Chains

    [snext a l]: the words from the pointer variable at [a] through the
    elements [l], up to the pointer variable [lastp a l] that ends them,
    exclusively; [dnext] has the back links too. *)

Fixpoint lastp (a : Z) (l : list Z) : Z :=
  match l with
  | [] => a
  | x :: l => lastp (x + field) l
  end.
Fixpoint snext (a : Z) (l : list Z) : wordlist :=
  match l with
  | [] => []
  | x :: l => (a, x) :: snext (x + field) l
  end.
Fixpoint dnext (a : Z) (l : list Z) : wordlist :=
  match l with
  | [] => []
  | x :: l => (a, x) :: (x + field + WORD, a) :: dnext (x + field) l
  end.

(** [elinks l e]: the [next] words of the elements [l], the last of which
    points to [e]. *)
Definition first_or (l : list Z) (e : Z) : Z := match l with [] => e | x :: _ => x end.
Fixpoint elinks (l : list Z) (e : Z) : wordlist :=
  match l with
  | [] => []
  | x :: l => (x + field, first_or l e) :: elinks l e
  end.

Lemma snext_elinks a l e : snext a l ++ [(lastp a l, e)] = (a, first_or l e) :: elinks l e.
Proof. revert a. induction l as [|x l IH]; intros a; simpl; [done|]. by rewrite IH. Qed.

Lemma lastp_app a l1 l2 : lastp a (l1 ++ l2) = lastp (lastp a l1) l2.
Proof. revert a. induction l1; simpl; auto. Qed.
Lemma snext_app a l1 l2 : snext a (l1 ++ l2) = snext a l1 ++ snext (lastp a l1) l2.
Proof. revert a. induction l1; intros; simpl; f_equal; auto. Qed.
Lemma dnext_app a l1 l2 : dnext a (l1 ++ l2) = dnext a l1 ++ dnext (lastp a l1) l2.
Proof. revert a. induction l1; intros; simpl; f_equal; f_equal; auto. Qed.

Lemma length_snext a l : length (snext a l) = length l.
Proof. revert a. induction l; intros; simpl; auto. Qed.
Lemma length_dnext a l : length (dnext a l) = (2 * length l)%nat.
Proof. revert a. induction l as [|x l IH]; intros; simpl; [done|]. rewrite IH. lia. Qed.
End debug.

(** The element that is first in [l]. *)
Abbreviation first_of l := (first_or l NULL).

(** ** Operations on lists of elements *)

Fixpoint insert_after (y x : Z) (l : list Z) : list Z :=
  match l with
  | [] => []
  | z :: l => if decide (z = y) then z :: x :: l else z :: insert_after y x l
  end.
Fixpoint insert_before (y x : Z) (l : list Z) : list Z :=
  match l with
  | [] => []
  | z :: l => if decide (z = y) then x :: z :: l else z :: insert_before y x l
  end.
Fixpoint remove_elem (y : Z) (l : list Z) : list Z :=
  match l with
  | [] => []
  | z :: l => if decide (z = y) then l else z :: remove_elem y l
  end.
Fixpoint replace_elem (y x : Z) (l : list Z) : list Z :=
  match l with
  | [] => []
  | z :: l => if decide (z = y) then x :: l else z :: replace_elem y x l
  end.
(** What follows the first [y]. *)
Fixpoint rest_after (y : Z) (l : list Z) : list Z :=
  match l with
  | [] => []
  | z :: l => if decide (z = y) then l else rest_after y l
  end.
Fixpoint upto (y : Z) (l : list Z) : list Z :=
  match l with
  | [] => []
  | z :: l => if decide (z = y) then [z] else z :: upto y l
  end.

Section at_element.
Context (y x : Z) (l1 l2 : list Z).
Hypothesis Hy : y ∉ l1.

Ltac at_element :=
  induction l1 as [|z l IH]; simpl;
  [by rewrite decide_True|rewrite decide_False by set_solver; rewrite ?IH by set_solver; done].

Lemma insert_after_app : insert_after y x (l1 ++ y :: l2) = l1 ++ y :: x :: l2.
Proof using Hy. at_element. Qed.
Lemma insert_before_app : insert_before y x (l1 ++ y :: l2) = l1 ++ x :: y :: l2.
Proof using Hy. at_element. Qed.
Lemma remove_elem_app : remove_elem y (l1 ++ y :: l2) = l1 ++ l2.
Proof using Hy. at_element. Qed.
Lemma replace_elem_app : replace_elem y x (l1 ++ y :: l2) = l1 ++ x :: l2.
Proof using Hy. at_element. Qed.
Lemma rest_after_app : rest_after y (l1 ++ y :: l2) = l2.
Proof using Hy. at_element. Qed.
Lemma upto_app : upto y (l1 ++ y :: l2) = l1 ++ [y].
Proof using Hy. at_element. Qed.
End at_element.

Lemma last_around (c y : Z) l1 : last (c :: l1) = Some y ->
  exists l0, forall r, c :: l1 ++ r = l0 ++ y :: r.
Proof.
  intros [l0 Hl0]%last_Some. exists l0. intros r.
  change (l0 ++ y :: r) with (l0 ++ [y] ++ r). by rewrite app_assoc, <- Hl0.
Qed.

(** ** Two queues and a pool *)

Record aqueues : Type := mk_aq {
  qa : list Z;
  qb : list Z;
  pool : list Z;
}.

Definition sel (i : bool) (a : aqueues) : list Z := if i then qa a else qb a.
Definition set_q (i : bool) (l : list Z) (a : aqueues) : aqueues :=
  if i then mk_aq l (qb a) (pool a) else mk_aq (qa a) l (pool a).
Definition set_pool (l : list Z) (a : aqueues) : aqueues := mk_aq (qa a) (qb a) l.

(** Uses of the macros; the queue is chosen by a Boolean.  [SPLIT_AFTER]
    moves what follows the element to the other head, [CONCAT] appends the
    other queue. *)
Inductive qop : Set :=
| INSERT_HEAD (i : bool) (x : Z)
| INSERT_TAIL (i : bool) (x : Z)
| INSERT_AFTER (i : bool) (y x : Z)
| INSERT_BEFORE (i : bool) (y x : Z)
| REMOVE_HEAD (i : bool)
| REMOVE (i : bool) (x : Z)
| REMOVE_AFTER (i : bool) (y : Z)
| REPLACE (i : bool) (y x : Z)
| CONCAT (i : bool)
| SPLIT_AFTER (i : bool) (y : Z)
| SWAP
| REVERSE (i : bool).

Definition insert_from_pool (i : bool) (x : Z) (l : list Z) (a : aqueues) : option aqueues :=
  if decide (x ∈ pool a) then Some (set_q i l (set_pool (remove_elem x (pool a)) a)) else None.
Definition remove_to_pool (i : bool) (x : Z) (l : list Z) (a : aqueues) : aqueues :=
  set_q i l (set_pool (x :: pool a) a).

Definition astep (o : qop) (a : aqueues) : option aqueues :=
  match o with
  | INSERT_HEAD i x => insert_from_pool i x (x :: sel i a) a
  | INSERT_TAIL i x => insert_from_pool i x (sel i a ++ [x]) a
  | INSERT_AFTER i y x =>
      if decide (y ∈ sel i a) then insert_from_pool i x (insert_after y x (sel i a)) a else None
  | INSERT_BEFORE i y x =>
      if decide (y ∈ sel i a) then insert_from_pool i x (insert_before y x (sel i a)) a else None
  | REMOVE_HEAD i =>
      match sel i a with
      | x :: l => Some (remove_to_pool i x l a)
      | [] => None
      end
  | REMOVE i x =>
      if decide (x ∈ sel i a)
      then Some (remove_to_pool i x (remove_elem x (sel i a)) a) else None
  | REMOVE_AFTER i y =>
      if decide (y ∈ sel i a) then
        match rest_after y (sel i a) with
        | x :: l => Some (remove_to_pool i x (upto y (sel i a) ++ l) a)
        | [] => None
        end
      else None
  | REPLACE i y x =>
      if decide (y ∈ sel i a) then
        a' ← insert_from_pool i x (replace_elem y x (sel i a)) a;
        Some (set_pool (y :: pool a') a')
      else None
  | CONCAT i => Some (set_q (negb i) [] (set_q i (sel i a ++ sel (negb i) a) a))
  | SPLIT_AFTER i y =>
      if decide (y ∈ sel i a /\ sel (negb i) a = []) then
        Some (set_q (negb i) (rest_after y (sel i a)) (set_q i (upto y (sel i a)) a))
      else None
  | SWAP => Some (mk_aq (qb a) (qa a) (pool a))
  | REVERSE i => Some (set_q i (reverse (sel i a)) a)
  end.

Fixpoint asteps (os : list qop) (a : aqueues) : option aqueues :=
  match os with
  | [] => Some a
  | o :: os => a' ← astep o a; asteps os a'
  end.

(** ** Representation

    Given the words [qwords] of a head and the elements of its list, and the
    words [ewords] of an element in no list, whose contents do not matter. *)

Definition nonnull (l : list Z) : Prop := Forall (fun x => x <> NULL) l.

Lemma nonnull_null l : nonnull l -> NULL ∉ l.
Proof. intros Hnn Hin. by eapply (proj1 (Forall_forall _ _) Hnn). Qed.

Section representation.
Context (qwords : Z -> list Z -> wordlist) (ewords : Z -> Z * Z -> wordlist).
Implicit Types (hd : bool -> Z) (a : aqueues) (F : wordlist) (m : words) (c : ST words unit).

Definition pool_words (p : list Z) (vs : list (Z * Z)) : wordlist :=
  concat (zip_with ewords p vs).

Definition qrep hd a F m : Prop :=
  nonnull (qa a ++ qb a ++ pool a) /\
  exists vs, length vs = length (pool a) /\
    owns m (qwords (hd true) (qa a) ++ qwords (hd false) (qb a) ++ pool_words (pool a) vs ++ F).

Lemma qrep_sel hd a F m i : qrep hd a F m <->
  nonnull (sel i a ++ sel (negb i) a ++ pool a) /\
  exists vs, length vs = length (pool a) /\
    owns m (qwords (hd i) (sel i a) ++ qwords (hd (negb i)) (sel (negb i) a) ++
            pool_words (pool a) vs ++ F).
Proof.
  unfold qrep, nonnull. destruct i; [done|]. simpl. rewrite !Forall_app.
  assert (forall vs, owns m (qwords (hd true) (qa a) ++ qwords (hd false) (qb a) ++ pool_words (pool a) vs ++ F) <->
    owns m (qwords (hd false) (qb a) ++ qwords (hd true) (qa a) ++ pool_words (pool a) vs ++ F)) as Hp.
  { intros vs. apply owns_perm. solve_Permutation. }
  setoid_rewrite Hp. tauto.
Qed.

(** An element leaves the pool. *)
Lemma pool_take p vs x : length vs = length p -> x ∈ p ->
  exists v vs', length vs' = length (remove_elem x p) /\
    pool_words p vs ≡ₚ ewords x v ++ pool_words (remove_elem x p) vs'.
Proof.
  unfold pool_words. revert vs. induction p as [|z p IH]; intros [|v vs] Hl Hx; simplify_eq/=;
    [by apply not_elem_of_nil in Hx..|].
  case_decide as Hz; [subst; by exists v, vs|].
  apply elem_of_cons in Hx as [?|Hx]; [done|].
  destruct (IH vs) as (u & vs' & Hl' & Hp); [lia|done|].
  exists u, (v :: vs'). simpl. split; [lia|]. rewrite Hp. solve_Permutation.
Qed.

Lemma remove_elem_subset x p z : z ∈ remove_elem x p -> z ∈ p.
Proof. induction p; simpl; [done|]. case_decide; set_solver. Qed.

Ltac pool_solver :=
  unfold nonnull in *; rewrite ?Forall_forall in *; simpl in *; set_solver.

(** *** From the words a macro works on to the whole state *)

Lemma lift_insert hd i x l' c a a' F m :
  insert_from_pool i x l' a = Some a' ->
  (forall z, z ∈ l' -> z ∈ x :: sel i a) ->
  (nonnull (x :: sel i a) -> forall v F, owns m (qwords (hd i) (sel i a) ++ ewords x v ++ F) ->
     wp c (fun _ m' => owns m' (qwords (hd i) l' ++ F)) m) ->
  qrep hd a F m -> wp c (fun _ => qrep hd a' F) m.
Proof.
  unfold insert_from_pool. intros Ha Hl' Hc Hr. case_decide as Hx; simplify_eq.
  apply (qrep_sel _ _ _ _ i) in Hr as (Hnn & vs & Hvs & Ho).
  destruct (pool_take _ _ _ Hvs Hx) as (v & vs' & Hvs' & Hp).
  eapply wp_mono; [apply (Hc ltac:(pool_solver) v (qwords (hd (negb i)) (sel (negb i) a) ++
    pool_words (remove_elem x (pool a)) vs' ++ F))|].
  - rewrite Hp in Ho. by w_done.
  - intros [] m' Ho'. apply (qrep_sel _ _ _ _ i). split.
    + pose proof (remove_elem_subset x (pool a)). destruct i; pool_solver.
    + exists vs'. by destruct i.
Qed.

Lemma lift_remove hd i x l' c a F m :
  x ∈ sel i a -> (forall z, z ∈ l' -> z ∈ sel i a) ->
  (nonnull (sel i a) -> forall F, owns m (qwords (hd i) (sel i a) ++ F) ->
     wp c (fun _ m' => exists v, owns m' (qwords (hd i) l' ++ ewords x v ++ F)) m) ->
  qrep hd a F m -> wp c (fun _ => qrep hd (remove_to_pool i x l' a) F) m.
Proof.
  intros Hx Hl' Hc Hr. apply (qrep_sel _ _ _ _ i) in Hr as (Hnn & vs & Hvs & Ho).
  eapply wp_mono; [apply (Hc ltac:(pool_solver) _ Ho)|].
  intros [] m' [v Ho']. apply (qrep_sel _ _ _ _ i). split; [destruct i; pool_solver|].
  exists (v :: vs). unfold remove_to_pool, pool_words. destruct i; simpl; (split; [lia|by w_done]).
Qed.

Lemma lift_replace hd i y x l' c a a' F m :
  insert_from_pool i x l' a = Some a' ->
  y ∈ sel i a -> (forall z, z ∈ l' -> z ∈ x :: sel i a) ->
  (nonnull (x :: sel i a) -> forall v F, owns m (qwords (hd i) (sel i a) ++ ewords x v ++ F) ->
     wp c (fun _ m' => exists v', owns m' (qwords (hd i) l' ++ ewords y v' ++ F)) m) ->
  qrep hd a F m -> wp c (fun _ => qrep hd (set_pool (y :: pool a') a') F) m.
Proof.
  unfold insert_from_pool. intros Ha Hy Hl' Hc Hr. case_decide as Hx; simplify_eq.
  apply (qrep_sel _ _ _ _ i) in Hr as (Hnn & vs & Hvs & Ho).
  destruct (pool_take _ _ _ Hvs Hx) as (v & vs' & Hvs' & Hp).
  eapply wp_mono; [apply (Hc ltac:(pool_solver) v (qwords (hd (negb i)) (sel (negb i) a) ++
    pool_words (remove_elem x (pool a)) vs' ++ F))|].
  - rewrite Hp in Ho. by w_done.
  - intros [] m' [v' Ho']. apply (qrep_sel _ _ _ _ i). split.
    + pose proof (remove_elem_subset x (pool a)). destruct i; pool_solver.
    + exists (v' :: vs'). unfold pool_words. destruct i; simpl; (split; [lia|by w_done]).
Qed.

Lemma lift_two hd i la lb c a F m :
  (forall z, z ∈ la ++ lb -> z ∈ sel i a ++ sel (negb i) a) ->
  (nonnull (sel i a) -> nonnull (sel (negb i) a) -> forall F,
     owns m (qwords (hd i) (sel i a) ++ qwords (hd (negb i)) (sel (negb i) a) ++ F) ->
     wp c (fun _ m' => owns m' (qwords (hd i) la ++ qwords (hd (negb i)) lb ++ F)) m) ->
  qrep hd a F m -> wp c (fun _ => qrep hd (set_q (negb i) lb (set_q i la a)) F) m.
Proof.
  intros Hl Hc Hr. apply (qrep_sel _ _ _ _ i) in Hr as (Hnn & vs & Hvs & Ho).
  eapply wp_mono; [apply (Hc ltac:(pool_solver) ltac:(pool_solver) _ Ho)|].
  intros [] m' Ho'. apply (qrep_sel _ _ _ _ i). split; [|exists vs; by destruct i].
  destruct i; pool_solver.
Qed.

Lemma lift_one hd i l' c a F m :
  (forall z, z ∈ l' -> z ∈ sel i a) ->
  (nonnull (sel i a) -> forall F, owns m (qwords (hd i) (sel i a) ++ F) ->
     wp c (fun _ m' => owns m' (qwords (hd i) l' ++ F)) m) ->
  qrep hd a F m -> wp c (fun _ => qrep hd (set_q i l' a) F) m.
Proof.
  intros Hl Hc Hr. apply (qrep_sel _ _ _ _ i) in Hr as (Hnn & vs & Hvs & Ho).
  eapply wp_mono; [apply (Hc ltac:(pool_solver) _ Ho)|].
  intros [] m' Ho'. apply (qrep_sel _ _ _ _ i). split; [destruct i; pool_solver|].
  exists vs. by destruct i.
Qed.

(** *** One rule for each step

    A macro that works on the words it is given, whatever the list around
    the element is, carries out the abstract step. *)

Ltac at_elem Hy :=
  let l1 := fresh "l1" in let l2 := fresh "l2" in let Hl := fresh "Hl" in let Hn := fresh "Hn" in
  destruct (list_elem_of_split_l _ _ Hy) as (l1 & l2 & Hl & Hn).
(** The list around the element in the goal, and the obligations about
    membership. *)
Ltac around Hl := rewrite ?Hl; intros; set_solver.

Section steps.
Context (hd : bool -> Z) (c : ST words unit) (a a' : aqueues) (F : wordlist) (m : words).
Hypothesis Hr : qrep hd a F m.
Abbreviation goal := (wp c (fun _ => qrep hd a' F) m).

Lemma step_insert_head i x : astep (INSERT_HEAD i x) a = Some a' ->
  (forall l v F, nonnull (x :: l) -> owns m (qwords (hd i) l ++ ewords x v ++ F) ->
     wp c (fun _ m' => owns m' (qwords (hd i) (x :: l) ++ F)) m) -> goal.
Proof using Hr. intros Ha Hc. eapply lift_insert; eauto. Qed.

Lemma step_insert_tail i x : astep (INSERT_TAIL i x) a = Some a' ->
  (forall l v F, nonnull (x :: l) -> owns m (qwords (hd i) l ++ ewords x v ++ F) ->
     wp c (fun _ m' => owns m' (qwords (hd i) (l ++ [x]) ++ F)) m) -> goal.
Proof using Hr. intros Ha Hc. eapply lift_insert; eauto. set_solver. Qed.

Lemma step_insert_after i y x : astep (INSERT_AFTER i y x) a = Some a' ->
  (forall l1 l2 v F, nonnull (x :: l1 ++ y :: l2) ->
     owns m (qwords (hd i) (l1 ++ y :: l2) ++ ewords x v ++ F) ->
     wp c (fun _ m' => owns m' (qwords (hd i) (l1 ++ y :: x :: l2) ++ F)) m) -> goal.
Proof using Hr.
  simpl. intros Ha Hc. case_decide as Hy; [|done]. at_elem Hy.
  rewrite Hl, insert_after_app in Ha by done.
  eapply lift_insert; [done|around Hl| |done]. rewrite Hl. eauto.
Qed.

Lemma step_insert_before i y x : astep (INSERT_BEFORE i y x) a = Some a' ->
  (forall l1 l2 v F, nonnull (x :: l1 ++ y :: l2) ->
     owns m (qwords (hd i) (l1 ++ y :: l2) ++ ewords x v ++ F) ->
     wp c (fun _ m' => owns m' (qwords (hd i) (l1 ++ x :: y :: l2) ++ F)) m) -> goal.
Proof using Hr.
  simpl. intros Ha Hc. case_decide as Hy; [|done]. at_elem Hy.
  rewrite Hl, insert_before_app in Ha by done.
  eapply lift_insert; [done|around Hl| |done]. rewrite Hl. eauto.
Qed.

Lemma step_remove_head i : astep (REMOVE_HEAD i) a = Some a' ->
  (forall x l F, nonnull (x :: l) -> owns m (qwords (hd i) (x :: l) ++ F) ->
     wp c (fun _ m' => exists v, owns m' (qwords (hd i) l ++ ewords x v ++ F)) m) -> goal.
Proof using Hr.
  simpl. intros Ha Hc. destruct (sel i a) as [|x l] eqn:Hl; simplify_eq.
  eapply lift_remove; [around Hl..| |done]. rewrite Hl. eauto.
Qed.

Lemma step_remove i x : astep (REMOVE i x) a = Some a' ->
  (forall l1 l2 F, nonnull (l1 ++ x :: l2) -> x ∉ l1 -> owns m (qwords (hd i) (l1 ++ x :: l2) ++ F) ->
     wp c (fun _ m' => exists v, owns m' (qwords (hd i) (l1 ++ l2) ++ ewords x v ++ F)) m) -> goal.
Proof using Hr.
  simpl. intros Ha Hc. case_decide as Hy; [|done]. at_elem Hy.
  rewrite Hl, remove_elem_app in Ha by done. simplify_eq.
  eapply lift_remove; [around Hl..| |done]. rewrite Hl. eauto.
Qed.

Lemma step_remove_after i y : astep (REMOVE_AFTER i y) a = Some a' ->
  (forall l1 x l2 F, nonnull (l1 ++ y :: x :: l2) ->
     owns m (qwords (hd i) (l1 ++ y :: x :: l2) ++ F) ->
     wp c (fun _ m' => exists v, owns m' (qwords (hd i) (l1 ++ y :: l2) ++ ewords x v ++ F)) m) -> goal.
Proof using Hr.
  simpl. intros Ha Hc. case_decide as Hy; [|done]. at_elem Hy.
  rewrite Hl, rest_after_app, upto_app in Ha by done. destruct l2 as [|x l2]; simplify_eq.
  eapply lift_remove; [around Hl..| |done]. rewrite Hl, <- app_assoc. eauto.
Qed.

Lemma step_replace i y x : astep (REPLACE i y x) a = Some a' ->
  (forall l1 l2 v F, nonnull (x :: l1 ++ y :: l2) ->
     owns m (qwords (hd i) (l1 ++ y :: l2) ++ ewords x v ++ F) ->
     wp c (fun _ m' => exists v', owns m' (qwords (hd i) (l1 ++ x :: l2) ++ ewords y v' ++ F)) m) -> goal.
Proof using Hr.
  simpl. intros Ha Hc. case_decide as Hy; [|done]. at_elem Hy.
  rewrite Hl, replace_elem_app in Ha by done.
  destruct (insert_from_pool _ _ _ _) as [a1|] eqn:Ha1; simplify_eq/=.
  eapply lift_replace; [done|around Hl..| |done]. rewrite Hl. eauto.
Qed.

Lemma step_concat i : astep (CONCAT i) a = Some a' ->
  (forall l1 l2 F, nonnull l1 -> nonnull l2 ->
     owns m (qwords (hd i) l1 ++ qwords (hd (negb i)) l2 ++ F) ->
     wp c (fun _ m' => owns m' (qwords (hd i) (l1 ++ l2) ++ qwords (hd (negb i)) [] ++ F)) m) -> goal.
Proof using Hr. simpl. intros [= <-] Hc. eapply lift_two; [set_solver|eauto|done]. Qed.

Lemma step_split_after i y : astep (SPLIT_AFTER i y) a = Some a' ->
  (forall l1 l2 F, nonnull (l1 ++ y :: l2) ->
     owns m (qwords (hd i) (l1 ++ y :: l2) ++ qwords (hd (negb i)) [] ++ F) ->
     wp c (fun _ m' => owns m' (qwords (hd i) (l1 ++ [y]) ++ qwords (hd (negb i)) l2 ++ F)) m) -> goal.
Proof using Hr.
  simpl. intros Ha Hc. case_decide as Hd; [|done]. destruct Hd as [Hy Hnil]. at_elem Hy.
  rewrite Hl, rest_after_app, upto_app in Ha by done. simplify_eq.
  eapply lift_two; [around Hl| |done]. rewrite Hl, Hnil. eauto.
Qed.

Lemma step_swap : astep SWAP a = Some a' ->
  (forall l1 l2 F, nonnull l1 -> nonnull l2 ->
     owns m (qwords (hd true) l1 ++ qwords (hd false) l2 ++ F) ->
     wp c (fun _ m' => owns m' (qwords (hd true) l2 ++ qwords (hd false) l1 ++ F)) m) -> goal.
Proof using Hr.
  simpl. intros [= <-] Hc. apply (lift_two hd true (qb a) (qa a)); [set_solver|eauto|done].
Qed.

Lemma step_reverse i : astep (REVERSE i) a = Some a' ->
  (forall l F, nonnull l -> owns m (qwords (hd i) l ++ F) ->
     wp c (fun _ m' => owns m' (qwords (hd i) (reverse l) ++ F)) m) -> goal.
Proof using Hr.
  simpl. intros [= <-] Hc. eapply lift_one; [|eauto|done]. intros z. by rewrite elem_of_reverse.
Qed.
End steps.
End representation.

(** ** The interface *)

Class QueueFamily : Type := {
  (** The words of a head with the elements of its list, and of an element
      in no list. *)
  qwords : Z -> list Z -> wordlist;
  ewords : Z -> Z * Z -> wordlist;
  (** The macro for a step on two heads, where the family has it. *)
  macro : (bool -> Z) -> qop -> option (ST words unit);
  macro_ok hd o c a a' F m :
    macro hd o = Some c -> astep o a = Some a' ->
    qrep qwords ewords hd a F m -> wp c (fun _ => qrep qwords ewords hd a' F) m;
}.

Section programs.
Context {Q : QueueFamily}.

(** A program of macros; undefined when the family lacks one of them. *)
Fixpoint run_ops (hd : bool -> Z) (os : list qop) : ST words unit :=
  match os with
  | [] => mret tt
  | o :: os =>
      match macro hd o with
      | Some c => _ ← c; run_ops hd os
      | None => st_ub
      end
  end.

Definition has_macros (hd : bool -> Z) (os : list qop) : bool :=
  forallb (fun o => bool_decide (is_Some (macro hd o))) os.

Lemma run_ops_ok hd os : forall a a' F m,
  has_macros hd os = true -> asteps os a = Some a' ->
  qrep qwords ewords hd a F m ->
  wp (run_ops hd os) (fun _ => qrep qwords ewords hd a' F) m.
Proof.
  induction os as [|o os IH]; simpl; intros a a' F m Hhas Hs Hr; [by simplify_eq|].
  apply andb_true_iff in Hhas as [[c Hc]%bool_decide_eq_true_1 Hhas]. rewrite Hc.
  destruct (astep o a) as [a1|] eqn:Ha; simplify_eq/=. wp_step.
  eapply wp_mono; [by eapply macro_ok|]. intros [] m' Hr'. by eapply IH.
Qed.
End programs.

(** ** Loops over a list

    The [FOREACH] macros are [for] loops around a statement of the program.
    Here the statement is [body]: it works on the variables of the program,
    [acc], and says with a Boolean whether the loop goes on or was left by
    [break].  The loops have no bound of their own; a list has fewer elements
    than the memory has words, which is the [fuel]. *)

Section loops.
Context (next : Z -> ST words Z).

(** [while (next(cur) != elm) cur = next(cur);] *)
Fixpoint find_link (fuel : nat) (cur elm : Z) : ST words Z :=
  match fuel with
  | O => st_ub
  | S fuel =>
      n ← next cur;
      if negb (n =? elm) then
        cur ← next cur;
        find_link fuel cur elm
      else mret cur
  end.

Definition fuel_of : ST words nat := st_gets size.

Context {A : Type} (body : Z -> A -> ST words (A * bool)).

(** [for (; (var); (var) = next(var))] *)
Fixpoint for_each (fuel : nat) (var : Z) (acc : A) : ST words A :=
  if negb (var =? NULL) then
    match fuel with
    | O => st_ub
    | S fuel =>
        '(acc, go) ← body var acc;
        if (go : bool) then
          var ← next var;
          for_each fuel var acc
        else mret acc
    end
  else mret acc.

(** [for (; (var) && ((tvar) = next(var), 1); (var) = (tvar))] *)
Fixpoint for_each_safe (fuel : nat) (var : Z) (acc : A) : ST words A :=
  if negb (var =? NULL) then
    match fuel with
    | O => st_ub
    | S fuel =>
        tvar ← next var;
        '(acc, go) ← body var acc;
        if (go : bool) then for_each_safe fuel tvar acc else mret acc
    end
  else mret acc.

(** The loop of [FOREACH] and [FOREACH_SAFE] from the first element, which
    [first] gives, and that of the [FROM] macros from [var]. *)
Definition foreach (first : ST words Z) (acc : A) : ST words A :=
  var ← first; fuel ← fuel_of; for_each fuel var acc.
Definition foreach_from (first : ST words Z) (var : Z) (acc : A) : ST words A :=
  var ← (if negb (var =? NULL) then mret var else first);
  fuel ← fuel_of; for_each fuel var acc.
Definition foreach_safe (first : ST words Z) (acc : A) : ST words A :=
  var ← first; fuel ← fuel_of; for_each_safe fuel var acc.
Definition foreach_from_safe (first : ST words Z) (var : Z) (acc : A) : ST words A :=
  var ← (if negb (var =? NULL) then mret var else first);
  fuel ← fuel_of; for_each_safe fuel var acc.


Lemma first_of_app l x l' : first_of ((l ++ [x]) ++ l') = first_of (l ++ [x]).
Proof. by destruct l. Qed.
Lemma first_of_nonnull l : nonnull l -> l <> [] -> first_of l <> NULL.
Proof. intros Hnn. by destruct Hnn. Qed.

Section rules.
Variables (I : list Z -> list Z -> A -> words -> Prop) (Q : A -> words -> Prop).
(** [I l1 l2 acc m]: the elements [l1] are done and [l2] are to come. *)
Hypothesis HQ : forall l1 acc m, I l1 [] acc m -> Q acc m.

Lemma wp_for_each :
  (forall l1 x l2 acc m, x <> NULL -> I l1 (x :: l2) acc m ->
     wp (body x acc) (fun '(acc', go) m' =>
       if (go : bool) then wp (next x) (fun v m'' => v = first_of l2 /\ I (l1 ++ [x]) l2 acc' m'') m'
       else Q acc' m') m) ->
  forall l2 fuel l1 acc m, nonnull l2 -> (length l2 <= fuel)%nat -> I l1 l2 acc m ->
    wp (for_each fuel (first_of l2) acc) Q m.
Proof using HQ.
  intros Hbody l2. induction l2 as [|x l2 IH]; intros fuel l1 acc m Hnn Hf Hi.
  - destruct fuel; apply wp_ret; eauto.
  - apply Forall_cons in Hnn as [Hx Hnn]. destruct fuel as [|fuel]; simpl in Hf |- *; [lia|].
    rewrite (proj2 (Z.eqb_neq _ _) Hx). cbn [negb]. wp_step.
    eapply wp_mono; [by eapply Hbody|]. intros [acc' []] m' Hm'; [|done]. wp_step.
    eapply wp_mono; [exact Hm'|]. intros v m'' [-> Hi']. eapply IH; [done|lia|done].
Qed.

Lemma wp_for_each_safe :
  (forall l1 x l2 acc m, x <> NULL -> I l1 (x :: l2) acc m ->
     wp (next x) (fun v m' => v = first_of l2 /\ wp (body x acc) (fun '(acc', go) m'' =>
       if (go : bool) then I (l1 ++ [x]) l2 acc' m'' else Q acc' m'') m') m) ->
  forall l2 fuel l1 acc m, nonnull l2 -> (length l2 <= fuel)%nat -> I l1 l2 acc m ->
    wp (for_each_safe fuel (first_of l2) acc) Q m.
Proof using HQ.
  intros Hbody l2. induction l2 as [|x l2 IH]; intros fuel l1 acc m Hnn Hf Hi.
  - destruct fuel; apply wp_ret; eauto.
  - apply Forall_cons in Hnn as [Hx Hnn]. destruct fuel as [|fuel]; simpl in Hf |- *; [lia|].
    rewrite (proj2 (Z.eqb_neq _ _) Hx). cbn [negb]. wp_step.
    eapply wp_mono; [by eapply Hbody|]. intros v m' [-> Hm']. wp_step.
    eapply wp_mono; [exact Hm'|]. intros [acc' []] m'' Hi'; [|done]. eapply IH; [done|lia|done].
Qed.
End rules.
End loops.

(** A statement that records the element. *)
Definition visit (x : Z) (acc : list Z) : ST words (list Z * bool) := mret (acc ++ [x], true).

Section search.
Context (next : Z -> ST words Z) (l : list Z) (m : words).
Hypothesis Hnext : forall l1 x l2, l = l1 ++ x :: l2 ->
  wp (next x) (fun v m' => v = first_of l2 /\ m' = m) m.

(** The search for the element whose successor is [first_of r]. *)
Lemma find_link_ok l1 r : forall l0 c fuel,
  l = l0 ++ c :: l1 ++ r -> first_of r ∉ l1 -> (length l1 < fuel)%nat ->
  wp (find_link next fuel c (first_of r)) (fun v m' => last (c :: l1) = Some v /\ m' = m) m.
Proof using Hnext.
  induction l1 as [|y l1 IH]; intros l0 c [|fuel] Hl Hr Hf; simpl in Hf; try lia; simpl; wp_step;
    (eapply wp_mono; [by eapply Hnext|]); intros v m' [-> ->]; simpl.
  - by rewrite Z.eqb_refl.
  - apply not_elem_of_cons in Hr as [Hne Hr]. rewrite (proj2 (Z.eqb_neq y _)) by done. simpl.
    wp_step. eapply wp_mono; [by eapply Hnext|]. intros v m' [-> ->].
    apply (IH (l0 ++ [c]) y); [by rewrite <- app_assoc|done|lia].
Qed.
End search.

(** Loops over a list that the statement does not change visit its elements
    in order; those of the [FROM] macros start at the element they are given. *)
Section visits.
Context (first : ST words Z) (next : Z -> ST words Z) (l : list Z) (m : words).
Hypothesis Hfirst : wp first (fun v m' => v = first_of l /\ m' = m) m.
Hypothesis Hnext : forall l1 x l2, l = l1 ++ x :: l2 ->
  wp (next x) (fun v m' => v = first_of l2 /\ m' = m) m.
Hypothesis Hnn : nonnull l.
Hypothesis Hlen : (length l <= size m)%nat.

Let I l1 (l0 l2 acc : list Z) (m' : words) : Prop := l = l1 ++ l0 ++ l2 /\ acc = l0 /\ m' = m.

Lemma for_each_visits l1 l2 : l = l1 ++ l2 ->
  for_each next visit (size m) (first_of l2) [] m = Some (l2, m).
Proof using Hnext Hnn Hlen.
  intros Hl. apply wp_reads. rewrite Hl in Hlen, Hnn. apply Forall_app in Hnn as [_ Hnn2].
  eapply wp_for_each with (I := I l1) (l1 := []); [..|done| |].
  - intros l0 acc m' (Hl' & -> & ->). rewrite Hl, app_nil_r in Hl'. by apply app_inv_head in Hl'.
  - intros l0 x l3 acc m' _ (Hl' & -> & ->). unfold visit. wp_step.
    eapply wp_mono; [apply (Hnext (l1 ++ l0) x l3); by rewrite <- app_assoc|].
    intros v m' [-> ->]. split; [done|]. split_and!; [|done..]. by rewrite <- app_assoc.
  - rewrite length_app in Hlen. lia.
  - split_and!; try done.
Qed.

Lemma for_each_safe_visits l1 l2 : l = l1 ++ l2 ->
  for_each_safe next visit (size m) (first_of l2) [] m = Some (l2, m).
Proof using Hnext Hnn Hlen.
  intros Hl. apply wp_reads. rewrite Hl in Hlen, Hnn. apply Forall_app in Hnn as [_ Hnn2].
  eapply wp_for_each_safe with (I := I l1) (l1 := []); [..|done| |].
  - intros l0 acc m' (Hl' & -> & ->). rewrite Hl, app_nil_r in Hl'. by apply app_inv_head in Hl'.
  - intros l0 x l3 acc m' _ (Hl' & -> & ->).
    eapply wp_mono; [apply (Hnext (l1 ++ l0) x l3); by rewrite <- app_assoc|].
    intros v m' [-> ->]. split; [done|]. unfold visit. wp_step. split_and!; [|done..].
    by rewrite <- app_assoc.
  - rewrite length_app in Hlen. lia.
  - split_and!; try done.
Qed.

Lemma foreach_visits :
  foreach next visit first [] m = Some (l, m) /\
  foreach_safe next visit first [] m = Some (l, m).
Proof using Hfirst Hnext Hnn Hlen.
  unfold foreach, foreach_safe, fuel_of. rewrite <- !wp_reads.
  split; wp_step; (eapply wp_mono; [exact Hfirst|]); intros v m' [-> ->]; wp_steps;
    apply wp_reads; [by apply (for_each_visits [])|by apply (for_each_safe_visits [])].
Qed.

Lemma foreach_from_visits l1 x l2 : l = l1 ++ x :: l2 ->
  foreach_from next visit first x [] m = Some (x :: l2, m) /\
  foreach_from_safe next visit first x [] m = Some (x :: l2, m).
Proof using Hnext Hnn Hlen.
  intros Hl. assert (x <> NULL) as Hx.
  { rewrite Hl in Hnn. by apply Forall_app in Hnn as [_ [? _]%Forall_cons]. }
  unfold foreach_from, foreach_from_safe, fuel_of. rewrite (proj2 (Z.eqb_neq _ _) Hx).
  rewrite <- !wp_reads. split; wp_steps; apply wp_reads;
    [by apply (for_each_visits l1 (x :: l2))|by apply (for_each_safe_visits l1 (x :: l2))].
Qed.
End visits.

(** ** Executing macros *)

(** Decide the comparisons a macro makes. *)
Ltac w_test :=
  match goal with
  | |- wp _ _ _ =>
      match goal with
      | |- context [?x =? ?x] => rewrite (Z.eqb_refl x)
      | H : ?x <> ?y |- context [?x =? ?y] => rewrite (proj2 (Z.eqb_neq x y) H)
      | |- context [negb true] => change (negb true) with false
      | |- context [negb false] => change (negb false) with true
      end
  end; cbn [negb]; cbv iota.
Ltac w_assert :=
  lazymatch goal with
  | |- wp (QMD_ASSERT _) _ _ =>
      apply wp_assert; [repeat first [w_test | w_step]; split; [by rewrite ?Z.eqb_refl|done]|cbv beta]
  end.
(** Execute a macro whose definition and checks are unfolded. *)
Ltac w_run := repeat first [w_test | w_assert | w_step].

(** Parts of a list of elements that are not null. *)
Ltac nonnull_solver :=
  unfold nonnull in *; rewrite ?Forall_cons, ?Forall_app, ?Forall_cons in *; tauto.

(** ** A concrete layout, two heads and four elements *)

Module QueueDemo.
Definition demo_layout : layout := mk_layout 24 true true.
Definition hd0 (i : bool) : Z := if i then 1000 else 1100.
Definition pool0 : list Z := [2000; 2100; 2200; 2300].
(** Links that were never written. *)
Definition junk : list (Z * Z) := [(7, 7); (7, 7); (7, 7); (7, 7)].

Section initial.
Context (qwords : Z -> list Z -> wordlist) (ewords : Z -> Z * Z -> wordlist).
Definition words0 : wordlist :=
  qwords (hd0 true) [] ++ qwords (hd0 false) [] ++ pool_words ewords pool0 junk ++ [(3000, 42)].
Definition mem0 : words := list_to_map words0.

Lemma initial_rep : bool_decide (NoDup words0.*1) = true ->
  qrep qwords ewords hd0 (mk_aq [] [] pool0) [(3000, 42)] mem0.
Proof.
  intros Hnd%bool_decide_eq_true_1. split; [by repeat constructor|].
  exists junk. side. by apply owns_list_to_map.
Qed.
End initial.
End QueueDemo.
