(* ===== verification/TailQueue.v ===== *)
(** * Tail queues of queue.h

    Models the [TAILQ] macros of [server/queue.h]: lists with a pointer to
    the last link in the head and back links in the elements.  The back link
    of an element is the address of the [next] member, or of the [first]
    member of the head, that points to it.  [TAILQ_LAST] and [TAILQ_PREV]
    read the word behind such an address as the [last] member of a head:
    the model has the addresses, so that this reuse of the layout is part of
    what is proved.  [QMD_TRACE_HEAD] and [QMD_TRACE_ELEM], which record line
    numbers, are left out. *)

From S2P Require Import Prelude Words Links.

Section tailq.
Context {L : layout}.

(** The addresses of the members. *)
Abbreviation tqh_first head := (head) (only parsing).
Abbreviation tqh_last head := (head + WORD) (only parsing).
Abbreviation tqe_next elm := (elm + field) (only parsing).
Abbreviation tqe_prev elm := (elm + field + WORD) (only parsing).

(** ** The macros *)

Definition TAILQ_FIRST (head : Z) : ST words Z := ld (tqh_first head).
Definition TAILQ_NEXT (elm : Z) : ST words Z := ld (tqe_next elm).
Definition TAILQ_EMPTY (head : Z) : ST words bool :=
  f ← TAILQ_FIRST head; mret (f =? NULL).
(** The load is atomic; here only one thread runs. *)
Definition TAILQ_EMPTY_ATOMIC (head : Z) : ST words bool :=
  f ← ld (tqh_first head); mret (f =? NULL).
Definition TAILQ_END : Z := NULL.

(** The initial values of the members of a head. *)
Definition TAILQ_HEAD_INITIALIZER (head : Z) : wordlist :=
  [(tqh_first head, NULL); (tqh_last head, tqh_first head)].

Definition QMD_TAILQ_CHECK_HEAD (head : Z) : ST words unit :=
  QMD_ASSERT (e ← TAILQ_EMPTY head;
              if (e : bool) then mret true
              else f ← TAILQ_FIRST head; p ← ld (tqe_prev f); mret (p =? tqh_first head)).
Definition QMD_TAILQ_CHECK_TAIL (head : Z) : ST words unit :=
  QMD_ASSERT (p ← ld (tqh_last head); v ← ld p; mret (v =? NULL)).
Definition QMD_TAILQ_CHECK_NEXT (elm : Z) : ST words unit :=
  QMD_ASSERT (n ← TAILQ_NEXT elm;
              if n =? NULL then mret true
              else n ← TAILQ_NEXT elm; p ← ld (tqe_prev n); mret (p =? tqe_next elm)).
Definition QMD_TAILQ_CHECK_PREV (elm : Z) : ST words unit :=
  QMD_ASSERT (p ← ld (tqe_prev elm); v ← ld p; mret (v =? elm)).

Definition TAILQ_ASSERT_EMPTY (head : Z) : ST words unit := QMD_ASSERT (TAILQ_EMPTY head).
Definition TAILQ_ASSERT_NONEMPTY (head : Z) : ST words unit :=
  QMD_ASSERT (e ← TAILQ_EMPTY head; mret (negb e)).

Definition TAILQ_INIT (head : Z) : ST words unit :=
  _ ← st (tqh_first head) NULL;
  st (tqh_last head) (tqh_first head).

Definition TAILQ_CONCAT (head1 head2 : Z) : ST words unit :=
  e ← TAILQ_EMPTY head2;
  if negb e then
    last1 ← ld (tqh_last head1);
    first2 ← ld (tqh_first head2);
    _ ← st last1 first2;
    first2 ← ld (tqh_first head2);
    last1 ← ld (tqh_last head1);
    _ ← st (tqe_prev first2) last1;
    last2 ← ld (tqh_last head2);
    _ ← st (tqh_last head1) last2;
    TAILQ_INIT head2
  else mret tt.

Definition TAILQ_INSERT_AFTER (head listelm elm : Z) : ST words unit :=
  _ ← QMD_TAILQ_CHECK_NEXT listelm;
  next ← TAILQ_NEXT listelm;
  _ ← st (tqe_next elm) next;
  _ ← (if negb (next =? NULL) then
         next ← TAILQ_NEXT elm;
         st (tqe_prev next) (tqe_next elm)
       else st (tqh_last head) (tqe_next elm));
  _ ← st (tqe_next listelm) elm;
  st (tqe_prev elm) (tqe_next listelm).

Definition TAILQ_INSERT_BEFORE (listelm elm : Z) : ST words unit :=
  _ ← QMD_TAILQ_CHECK_PREV listelm;
  prev ← ld (tqe_prev listelm);
  _ ← st (tqe_prev elm) prev;
  _ ← st (tqe_next elm) listelm;
  prev ← ld (tqe_prev listelm);
  _ ← st prev elm;
  st (tqe_prev listelm) (tqe_next elm).

Definition TAILQ_INSERT_HEAD (head elm : Z) : ST words unit :=
  _ ← QMD_TAILQ_CHECK_HEAD head;
  first ← TAILQ_FIRST head;
  _ ← st (tqe_next elm) first;
  _ ← (if negb (first =? NULL) then
         first ← TAILQ_FIRST head;
         st (tqe_prev first) (tqe_next elm)
       else st (tqh_last head) (tqe_next elm));
  _ ← st (tqh_first head) elm;
  st (tqe_prev elm) (tqh_first head).

Definition TAILQ_INSERT_TAIL (head elm : Z) : ST words unit :=
  _ ← QMD_TAILQ_CHECK_TAIL head;
  _ ← st (tqe_next elm) NULL;
  last ← ld (tqh_last head);
  _ ← st (tqe_prev elm) last;
  last ← ld (tqh_last head);
  _ ← st last elm;
  st (tqh_last head) (tqe_next elm).

(** [*(((struct headname * )((head)->tqh_last))->tqh_last)]: the address of
    the last link, taken for that of a head. *)
Definition TAILQ_LAST (head : Z) : ST words Z :=
  p ← ld (tqh_last head);
  q ← ld (tqh_last p);
  ld q.

(** [__containerof(p, type, field.tqe_next)] *)
Definition containerof_next (p : Z) : Z := p - field.

Definition TAILQ_LAST_FAST (head : Z) : ST words Z :=
  e ← TAILQ_EMPTY head;
  if (e : bool) then mret NULL else p ← ld (tqh_last head); mret (containerof_next p).

Definition TAILQ_PREV (elm : Z) : ST words Z :=
  p ← ld (tqe_prev elm);
  q ← ld (tqh_last p);
  ld q.

Definition TAILQ_PREV_FAST (elm head : Z) : ST words Z :=
  p ← ld (tqe_prev elm);
  if p =? tqh_first head then mret NULL
  else p ← ld (tqe_prev elm); mret (containerof_next p).

Definition TAILQ_REMOVE (head elm : Z) : ST words unit :=
  _ ← QMD_TAILQ_CHECK_NEXT elm;
  _ ← QMD_TAILQ_CHECK_PREV elm;
  next ← TAILQ_NEXT elm;
  _ ← (if negb (next =? NULL) then
         next ← TAILQ_NEXT elm;
         prev ← ld (tqe_prev elm);
         st (tqe_prev next) prev
       else
         prev ← ld (tqe_prev elm);
         st (tqh_last head) prev);
  prev ← ld (tqe_prev elm);
  next ← TAILQ_NEXT elm;
  _ ← st prev next;
  _ ← TRASHIT (tqe_next elm);
  TRASHIT (tqe_prev elm).

(** [TAILQ_REMOVE] with [TAILQ_FIRST(head)] as its [elm]: the expression is
    evaluated wherever the macro has [elm]; [_Oldnext] and [_Oldprev] are
    addresses from the beginning. *)
Definition TAILQ_REMOVE_HEAD (head : Z) : ST words unit :=
  old ← TAILQ_FIRST head;
  elm ← TAILQ_FIRST head;
  _ ← QMD_TAILQ_CHECK_NEXT elm;
  elm ← TAILQ_FIRST head;
  _ ← QMD_TAILQ_CHECK_PREV elm;
  elm ← TAILQ_FIRST head;
  next ← TAILQ_NEXT elm;
  _ ← (if negb (next =? NULL) then
         elm ← TAILQ_FIRST head;
         next ← TAILQ_NEXT elm;
         elm ← TAILQ_FIRST head;
         prev ← ld (tqe_prev elm);
         st (tqe_prev next) prev
       else
         elm ← TAILQ_FIRST head;
         prev ← ld (tqe_prev elm);
         st (tqh_last head) prev);
  elm ← TAILQ_FIRST head;
  prev ← ld (tqe_prev elm);
  elm ← TAILQ_FIRST head;
  next ← TAILQ_NEXT elm;
  _ ← st prev next;
  _ ← TRASHIT (tqe_next old);
  TRASHIT (tqe_prev old).

Definition TAILQ_REPLACE (head elm elm2 : Z) : ST words unit :=
  _ ← QMD_TAILQ_CHECK_NEXT elm;
  _ ← QMD_TAILQ_CHECK_PREV elm;
  next ← TAILQ_NEXT elm;
  _ ← st (tqe_next elm2) next;
  next ← TAILQ_NEXT elm2;
  _ ← (if negb (next =? TAILQ_END) then
         next ← TAILQ_NEXT elm2;
         st (tqe_prev next) (tqe_next elm2)
       else st (tqh_last head) (tqe_next elm2));
  prev ← ld (tqe_prev elm);
  _ ← st (tqe_prev elm2) prev;
  prev ← ld (tqe_prev elm2);
  _ ← st prev elm2;
  _ ← TRASHIT (tqe_next elm);
  TRASHIT (tqe_prev elm).

Definition TAILQ_SPLIT_AFTER (head elm rest : Z) : ST words unit :=
  _ ← TAILQ_ASSERT_NONEMPTY head;
  _ ← QMD_TAILQ_CHECK_TAIL head;
  next ← TAILQ_NEXT elm;
  if next =? NULL then TAILQ_INIT rest
  else
    next ← TAILQ_NEXT elm;
    _ ← st (tqh_first rest) next;
    last ← ld (tqh_last head);
    _ ← st (tqh_last rest) last;
    next ← TAILQ_NEXT elm;
    _ ← st (tqe_prev next) (tqh_first rest);
    _ ← st (tqe_next elm) NULL;
    st (tqh_last head) (tqe_next elm).

Definition TAILQ_SWAP (head1 head2 : Z) : ST words unit :=
  swap_first ← ld (tqh_first head1);
  swap_last ← ld (tqh_last head1);
  first2 ← ld (tqh_first head2);
  _ ← st (tqh_first head1) first2;
  last2 ← ld (tqh_last head2);
  _ ← st (tqh_last head1) last2;
  _ ← st (tqh_first head2) swap_first;
  _ ← st (tqh_last head2) swap_last;
  swap_first ← ld (tqh_first head1);
  _ ← (if negb (swap_first =? NULL) then st (tqe_prev swap_first) (tqh_first head1)
       else st (tqh_last head1) (tqh_first head1));
  swap_first ← ld (tqh_first head2);
  if negb (swap_first =? NULL) then st (tqe_prev swap_first) (tqh_first head2)
  else st (tqh_last head2) (tqh_first head2).

(** *** Loops *)

Section foreach.
Context {A : Type} (body : Z -> A -> ST words (A * bool)).

Definition TAILQ_FOREACH (head : Z) : A -> ST words A :=
  foreach TAILQ_NEXT body (TAILQ_FIRST head).
Definition TAILQ_FOREACH_FROM (var head : Z) : A -> ST words A :=
  foreach_from TAILQ_NEXT body (TAILQ_FIRST head) var.
Definition TAILQ_FOREACH_SAFE (head : Z) : A -> ST words A :=
  foreach_safe TAILQ_NEXT body (TAILQ_FIRST head).
Definition TAILQ_FOREACH_FROM_SAFE (var head : Z) : A -> ST words A :=
  foreach_from_safe TAILQ_NEXT body (TAILQ_FIRST head) var.
Definition TAILQ_FOREACH_REVERSE (head : Z) : A -> ST words A :=
  foreach TAILQ_PREV body (TAILQ_LAST head).
Definition TAILQ_FOREACH_REVERSE_FROM (var head : Z) : A -> ST words A :=
  foreach_from TAILQ_PREV body (TAILQ_LAST head) var.
Definition TAILQ_FOREACH_REVERSE_SAFE (head : Z) : A -> ST words A :=
  foreach_safe TAILQ_PREV body (TAILQ_LAST head).
Definition TAILQ_FOREACH_REVERSE_FROM_SAFE (var head : Z) : A -> ST words A :=
  foreach_from_safe TAILQ_PREV body (TAILQ_LAST head) var.
End foreach.

(** ** Words of a queue *)

Definition tailq (head : Z) (l : list Z) : wordlist :=
  dnext head l ++ [(lastp head l, NULL); (tqh_last head, lastp head l)].
Definition tqe (elm : Z) (v : Z * Z) : wordlist := [(tqe_next elm, v.1); (tqe_prev elm, v.2)].

(** ** The macros implement the operations on the list *)

Ltac tq_words :=
  unfold tailq, tqe in *; rewrite ?dnext_app, ?lastp_app in *; cbn [dnext lastp fst snd] in *.
Ltac tq_unfold :=
  unfold TAILQ_INSERT_HEAD, TAILQ_INSERT_TAIL, TAILQ_INSERT_AFTER, TAILQ_INSERT_BEFORE,
    TAILQ_REMOVE_HEAD, TAILQ_REMOVE, TAILQ_REPLACE, TAILQ_CONCAT, TAILQ_SPLIT_AFTER, TAILQ_SWAP,
    TAILQ_INIT, TAILQ_ASSERT_NONEMPTY, QMD_TAILQ_CHECK_HEAD, QMD_TAILQ_CHECK_TAIL,
    QMD_TAILQ_CHECK_NEXT, QMD_TAILQ_CHECK_PREV, TAILQ_EMPTY, TAILQ_FIRST, TAILQ_NEXT, TAILQ_END,
    TRASHIT.
(** Execute a macro on the words of its queues. *)
Ltac tq_run := tq_words; tq_unfold; w_run; try by w_done.

Implicit Types (head x y : Z) (l : list Z) (F : wordlist) (m : words).

Lemma tq_init_ok head v w F m :
  owns m ([(tqh_first head, v); (tqh_last head, w)] ++ F) ->
  wp (TAILQ_INIT head) (fun _ m' => owns m' (TAILQ_HEAD_INITIALIZER head ++ F) /\
    TAILQ_HEAD_INITIALIZER head = tailq head []) m.
Proof. intros Ho. unfold TAILQ_INIT. by w_run. Qed.

Lemma tq_insert_head_ok head x l v F m :
  nonnull (x :: l) -> owns m (tailq head l ++ tqe x v ++ F) ->
  wp (TAILQ_INSERT_HEAD head x) (fun _ m' => owns m' (tailq head (x :: l) ++ F)) m.
Proof.
  intros Hnn Ho. destruct l as [|y l]; [tq_run|].
  apply Forall_cons in Hnn as [_ [Hy _]%Forall_cons]. tq_run.
Qed.

Lemma tq_insert_tail_ok head x l v F m :
  owns m (tailq head l ++ tqe x v ++ F) ->
  wp (TAILQ_INSERT_TAIL head x) (fun _ m' => owns m' (tailq head (l ++ [x]) ++ F)) m.
Proof. intros Ho. tq_run. Qed.

Lemma tq_insert_after_ok head l1 y l2 x v F m :
  nonnull l2 -> owns m (tailq head (l1 ++ y :: l2) ++ tqe x v ++ F) ->
  wp (TAILQ_INSERT_AFTER head y x) (fun _ m' => owns m' (tailq head (l1 ++ y :: x :: l2) ++ F)) m.
Proof.
  intros Hnn Ho. destruct l2 as [|z l2]; [tq_run|].
  apply Forall_cons in Hnn as [Hz _]. tq_run.
Qed.

Lemma tq_insert_before_ok head l1 y l2 x v F m :
  owns m (tailq head (l1 ++ y :: l2) ++ tqe x v ++ F) ->
  wp (TAILQ_INSERT_BEFORE y x) (fun _ m' => owns m' (tailq head (l1 ++ x :: y :: l2) ++ F)) m.
Proof. intros Ho. tq_run. Qed.

(** The element that leaves a queue keeps words of its own. *)
Ltac tq_run_out :=
  tq_words; tq_unfold; destruct QUEUE_MACRO_DEBUG_TRASH; w_run; eexists (_, _); by w_done.

Lemma tq_remove_ok head l1 x l2 F m :
  nonnull l2 -> owns m (tailq head (l1 ++ x :: l2) ++ F) ->
  wp (TAILQ_REMOVE head x)
    (fun _ m' => exists v, owns m' (tailq head (l1 ++ l2) ++ tqe x v ++ F)) m.
Proof.
  intros Hnn Ho. destruct l2 as [|z l2]; [tq_run_out|].
  apply Forall_cons in Hnn as [Hz _]. tq_run_out.
Qed.

Lemma tq_remove_head_ok head x l F m :
  nonnull l -> owns m (tailq head (x :: l) ++ F) ->
  wp (TAILQ_REMOVE_HEAD head) (fun _ m' => exists v, owns m' (tailq head l ++ tqe x v ++ F)) m.
Proof.
  intros Hnn Ho. destruct l as [|z l]; [tq_run_out|].
  apply Forall_cons in Hnn as [Hz _]. tq_run_out.
Qed.

Lemma tq_replace_ok head l1 y l2 x v F m :
  nonnull l2 -> owns m (tailq head (l1 ++ y :: l2) ++ tqe x v ++ F) ->
  wp (TAILQ_REPLACE head y x)
    (fun _ m' => exists v', owns m' (tailq head (l1 ++ x :: l2) ++ tqe y v' ++ F)) m.
Proof.
  intros Hnn Ho. destruct l2 as [|z l2]; [tq_run_out|].
  apply Forall_cons in Hnn as [Hz _]. tq_run_out.
Qed.

Lemma tq_concat_ok head1 head2 l1 l2 F m :
  nonnull l2 -> owns m (tailq head1 l1 ++ tailq head2 l2 ++ F) ->
  wp (TAILQ_CONCAT head1 head2) (fun _ m' => owns m' (tailq head1 (l1 ++ l2) ++ tailq head2 [] ++ F)) m.
Proof.
  intros Hnn Ho. destruct l2 as [|z l2]; [tq_run|].
  apply Forall_cons in Hnn as [Hz _]. tq_run.
Qed.

Lemma tq_split_after_ok head1 head2 l1 y l2 F m :
  nonnull (l1 ++ y :: l2) -> owns m (tailq head1 (l1 ++ y :: l2) ++ tailq head2 [] ++ F) ->
  wp (TAILQ_SPLIT_AFTER head1 y head2)
    (fun _ m' => owns m' (tailq head1 (l1 ++ [y]) ++ tailq head2 l2 ++ F)) m.
Proof.
  intros Hnn Ho. apply Forall_app in Hnn as [H1 [Hy H2]%Forall_cons].
  destruct l1 as [|x l1]; [|apply Forall_cons in H1 as [Hx _]];
    (destruct l2 as [|z l2]; [|apply Forall_cons in H2 as [Hz _]]); tq_run.
Qed.

Lemma tq_swap_ok head1 head2 l1 l2 F m :
  nonnull l1 -> nonnull l2 -> owns m (tailq head1 l1 ++ tailq head2 l2 ++ F) ->
  wp (TAILQ_SWAP head1 head2) (fun _ m' => owns m' (tailq head1 l2 ++ tailq head2 l1 ++ F)) m.
Proof.
  intros H1 H2 Ho. destruct l1 as [|x l1], l2 as [|y l2];
    try (apply Forall_cons in H1 as [Hx _]); try (apply Forall_cons in H2 as [Hy _]); tq_run.
Qed.

(** ** Access to the elements *)

Lemma tq_first_ok head l F m :
  owns m (tailq head l ++ F) -> wp (TAILQ_FIRST head) (fun v m' => v = first_of l /\ m' = m) m.
Proof. intros Ho. unfold TAILQ_FIRST. destruct l; tq_words; by w_ld. Qed.

Lemma tq_next_ok head l1 x l2 F m :
  owns m (tailq head (l1 ++ x :: l2) ++ F) ->
  wp (TAILQ_NEXT x) (fun v m' => v = first_of l2 /\ m' = m) m.
Proof. intros Ho. unfold TAILQ_NEXT. destruct l2; tq_words; by w_ld. Qed.

Lemma tq_last_ok head l F m :
  owns m (tailq head l ++ F) ->
  wp (TAILQ_LAST head) (fun v m' => v = first_of (reverse l) /\ m' = m) m.
Proof.
  intros Ho. unfold TAILQ_LAST. destruct l as [|x l _] using rev_ind; [tq_words; by w_steps|].
  rewrite reverse_snoc. tq_words. by w_steps.
Qed.

Lemma tq_prev_ok head l1 x l2 F m :
  owns m (tailq head (l1 ++ x :: l2) ++ F) ->
  wp (TAILQ_PREV x) (fun v m' => v = first_of (reverse l1) /\ m' = m) m.
Proof.
  intros Ho. unfold TAILQ_PREV. destruct l1 as [|y l1 _] using rev_ind; [tq_words; by w_steps|].
  rewrite reverse_snoc. tq_words. by w_steps.
Qed.

(** The address of the link of an element is not that of the head. *)
Lemma tq_link_not_head head l1 y x l2 F m :
  owns m (tailq head ((l1 ++ [y]) ++ x :: l2) ++ F) -> head <> y + field.
Proof.
  intros Ho. destruct l1 as [|z l1]; tq_words; eapply (owns_ne m _ _ _ _ x Ho); in_words.
Qed.

(** ** Tail queues are a family *)

Definition tailq_macro (hd : bool -> Z) (o : qop) : option (ST words unit) :=
  match o with
  | INSERT_HEAD i x => Some (TAILQ_INSERT_HEAD (hd i) x)
  | INSERT_TAIL i x => Some (TAILQ_INSERT_TAIL (hd i) x)
  | INSERT_AFTER i y x => Some (TAILQ_INSERT_AFTER (hd i) y x)
  | INSERT_BEFORE i y x => Some (TAILQ_INSERT_BEFORE y x)
  | REMOVE_HEAD i => Some (TAILQ_REMOVE_HEAD (hd i))
  | REMOVE i x => Some (TAILQ_REMOVE (hd i) x)
  | REPLACE i y x => Some (TAILQ_REPLACE (hd i) y x)
  | CONCAT i => Some (TAILQ_CONCAT (hd i) (hd (negb i)))
  | SPLIT_AFTER i y => Some (TAILQ_SPLIT_AFTER (hd i) y (hd (negb i)))
  | SWAP => Some (TAILQ_SWAP (hd true) (hd false))
  | REMOVE_AFTER _ _ | REVERSE _ => None
  end.

#[export] Program Instance tailq_family : QueueFamily := {
  qwords := tailq; ewords := tqe; macro := tailq_macro;
}.
Next Obligation.
  intros hd o c a a' F m Hc Ha Hr. destruct o; simplify_eq/=.
  - eapply step_insert_head; eauto using tq_insert_head_ok.
  - eapply step_insert_tail; eauto using tq_insert_tail_ok.
  - eapply step_insert_after; eauto. intros. eapply tq_insert_after_ok; [nonnull_solver|done].
  - eapply step_insert_before; eauto using tq_insert_before_ok.
  - eapply step_remove_head; eauto. intros. eapply tq_remove_head_ok; [nonnull_solver|done].
  - eapply step_remove; eauto. intros. eapply tq_remove_ok; [nonnull_solver|done].
  - eapply step_replace; eauto. intros. eapply tq_replace_ok; [nonnull_solver|done].
  - eapply step_concat; eauto using tq_concat_ok.
  - eapply step_split_after; eauto using tq_split_after_ok.
  - eapply step_swap; eauto using tq_swap_ok.
Qed.

(** ** Properties *)

(** C30. Any program of tail queue macros on two heads and a pool of
    elements, used as documented (an element is inserted when it is in no
    queue, removed from the queue it is in), runs without an invalid access
    or a failed assertion, with or without assertions and trashing; it leaves
    the two queues that the operations on lists give, and no other word
    changes.  Tracing is off. *)
Theorem tailq_programs hd os a a' F m :
  has_macros hd os = true -> asteps os a = Some a' ->
  qrep tailq tqe hd a F m ->
  wp (run_ops hd os) (fun _ => qrep tailq tqe hd a' F) m.
Proof. apply (run_ops_ok (Q := tailq_family)). Qed.

(** C34. [TAILQ_LAST] and [TAILQ_PREV], which take the address of a link for
    the address of a head, find the last element and the element before;
    the variants [TAILQ_LAST_FAST] and [TAILQ_PREV_FAST], which compute the
    element from the address of its link, agree with them. *)
Theorem tailq_fast_equiv head l1 x l2 F m :
  owns m (tailq head (l1 ++ x :: l2) ++ F) -> nonnull (l1 ++ x :: l2) ->
  TAILQ_PREV x m = Some (first_of (reverse l1), m) /\
  TAILQ_PREV_FAST x head m = TAILQ_PREV x m /\
  TAILQ_LAST head m = Some (first_of (reverse (x :: l2)), m) /\
  TAILQ_LAST_FAST head m = TAILQ_LAST head m.
Proof.
  intros Ho Hnn. pose proof (tq_prev_ok _ _ _ _ _ _ Ho) as ->%wp_reads.
  pose proof (tq_last_ok _ _ _ _ Ho) as Hlast%wp_reads. rewrite Hlast. side.
  split; [|split].
  - apply wp_reads. unfold TAILQ_PREV_FAST. destruct l1 as [|y l1 _] using rev_ind.
    + tq_words. w_steps. by rewrite Z.eqb_refl.
    + pose proof (tq_link_not_head _ _ _ _ _ _ _ Ho) as Hne. rewrite reverse_snoc. tq_words. w_step. w_ld.
      rewrite (proj2 (Z.eqb_neq (y + field) head)) by done. w_steps.
      unfold containerof_next. simpl. split; [lia|done].
  - by rewrite reverse_app, reverse_cons, first_of_app.
  - apply wp_reads. unfold TAILQ_LAST_FAST, TAILQ_EMPTY. do 2 wp_step.
    eapply wp_mono; [by eapply tq_first_ok|]. intros f m' [-> ->]. wp_step.
    rewrite (proj2 (Z.eqb_neq _ _)) by (apply first_of_nonnull; [done|by destruct l1]).
    destruct (l1 ++ x :: l2) as [|y l _] eqn:Hl using rev_ind; [by destruct l1|].
    rewrite reverse_snoc. tq_words. w_steps. unfold containerof_next. simpl. split; [lia|done].
Qed.

Lemma tailq_size head l F m : owns m (tailq head l ++ F) -> (length l <= size m)%nat.
Proof.
  intros Ho%owns_size. unfold tailq in Ho. rewrite !length_app, length_dnext in Ho. lia.
Qed.

(** [TAILQ_FOREACH] and [TAILQ_FOREACH_REVERSE] visit the elements in
    order and in reverse order; the [FROM] variants start at the element they
    are given; the [SAFE] variants visit the same elements. *)
Theorem tailq_traversals head l1 x l2 F m :
  let l := l1 ++ x :: l2 in
  owns m (tailq head l ++ F) -> nonnull l ->
  TAILQ_FOREACH visit head [] m = Some (l, m) /\
  TAILQ_FOREACH_SAFE visit head [] m = Some (l, m) /\
  TAILQ_FOREACH_FROM visit x head [] m = Some (x :: l2, m) /\
  TAILQ_FOREACH_FROM_SAFE visit x head [] m = Some (x :: l2, m) /\
  TAILQ_FOREACH_REVERSE visit head [] m = Some (reverse l, m) /\
  TAILQ_FOREACH_REVERSE_SAFE visit head [] m = Some (reverse l, m) /\
  TAILQ_FOREACH_REVERSE_FROM visit x head [] m = Some (x :: reverse l1, m) /\
  TAILQ_FOREACH_REVERSE_FROM_SAFE visit x head [] m = Some (x :: reverse l1, m).
Proof.
  intros l Ho Hnn. pose proof (tailq_size _ _ _ _ Ho) as Hsz.
  assert (forall l1 x l2, l = l1 ++ x :: l2 ->
    wp (TAILQ_NEXT x) (fun v m' => v = first_of l2 /\ m' = m) m) as Hnext.
  { intros k1 y k2 Hl. rewrite Hl in Ho. by eapply tq_next_ok. }
  assert (forall l1 x l2, reverse l = l1 ++ x :: l2 ->
    wp (TAILQ_PREV x) (fun v m' => v = first_of l2 /\ m' = m) m) as Hprev.
  { intros k1 y k2 Hl%(f_equal reverse). rewrite reverse_involutive, reverse_app, reverse_cons, <- app_assoc in Hl.
    rewrite Hl in Ho. rewrite <- (reverse_involutive k2). by eapply tq_prev_ok. }
  pose proof (tq_first_ok _ _ _ _ Ho) as Hfirst. pose proof (tq_last_ok _ _ _ _ Ho) as Hlast.
  assert (nonnull (reverse l)) as Hrn by by apply Forall_reverse.
  assert (length (reverse l) <= size m)%nat as Hrs by by rewrite length_reverse.
  destruct (foreach_visits _ _ _ _ Hfirst Hnext Hnn Hsz) as [H1 H2].
  destruct (foreach_visits _ _ _ _ Hlast Hprev Hrn Hrs) as [H3 H4].
  destruct (foreach_from_visits (TAILQ_FIRST head) _ _ _ Hnext Hnn Hsz l1 x l2 eq_refl) as [H5 H6].
  destruct (foreach_from_visits (TAILQ_LAST head) _ _ _ Hprev Hrn Hrs (reverse l2) x (reverse l1)) as [H7 H8].
  { unfold l. by rewrite reverse_app, reverse_cons, <- app_assoc. }
  by split_and!.
Qed.

(** The statement [if (test(var)) TAILQ_REMOVE(head, var, field)]. *)
Definition remove_if (test : Z -> bool) (head var : Z) (acc : list Z) : ST words (list Z * bool) :=
  if test var then
    _ ← TAILQ_REMOVE head var;
    mret (acc ++ [var], true)
  else mret (acc, true).

(** C35. [TAILQ_FOREACH_SAFE] allows the current element to be removed: the
    loop that removes the elements that pass a test ends, removes exactly
    these, each once and in order, and leaves the others in order. *)
Theorem tailq_foreach_safe_remove test head l F m :
  owns m (tailq head l ++ F) -> nonnull l ->
  wp (TAILQ_FOREACH_SAFE (remove_if test head) head []) (fun acc m' =>
    acc = filter (fun x => test x = true) l /\
    exists vs, length vs = length acc /\
      owns m' (tailq head (filter (fun x => test x = false) l) ++ pool_words tqe acc vs ++ F)) m.
Proof.
  intros Ho Hnn. unfold TAILQ_FOREACH_SAFE, foreach_safe, fuel_of. wp_step.
  eapply wp_mono; [by eapply tq_first_ok|]. intros f m' [-> ->]. do 2 wp_step.
  eapply wp_for_each_safe with (l1 := []) (I := fun l1 l2 acc m' => l = l1 ++ l2 /\
    acc = filter (fun x => test x = true) l1 /\ exists vs, length vs = length acc /\
    owns m' (tailq head (filter (fun x => test x = false) l1 ++ l2) ++ pool_words tqe acc vs ++ F)).
  - intros l1 acc m' (Hl & -> & vs & Hvs & Ho'). rewrite app_nil_r in *. subst. eauto.
  - intros l1 x l2 acc m' Hx (Hl & -> & vs & Hvs & Ho').
    eapply wp_mono; [by eapply tq_next_ok|]. intros v m2 [-> ->]. side.
    assert (nonnull l2) as Hn2 by (subst l; nonnull_solver).
    unfold remove_if. rewrite !filter_app. destruct (test x) eqn:Ht.
    + wp_step. eapply wp_mono; [by eapply tq_remove_ok|]. intros [] m2 [v Ho2]. wp_step.
      rewrite filter_cons_True, filter_cons_False by congruence.
      split; [by rewrite <- app_assoc|]. side. exists (vs ++ [v]). rewrite !length_app. split; [simpl; lia|].
      unfold pool_words in *. rewrite zip_with_app, concat_app by done. rewrite !app_nil_r.
      cbn [concat zip_with]. w_done.
    + wp_step. rewrite filter_cons_False, filter_cons_True, !app_nil_r by congruence.
      split; [by rewrite <- app_assoc|]. side. exists vs. side. by rewrite <- app_assoc.
  - done.
  - by eapply tailq_size.
  - side. side. by exists [].
Qed.
End tailq.

(** ** The theorems at concrete queues *)

Module TailQueueWitness.
Import QueueDemo.
#[local] Existing Instance demo_layout.

(** Every macro of the family is used. *)
Definition prog : list qop :=
  [INSERT_TAIL true 2000; INSERT_HEAD true 2100; INSERT_AFTER true 2100 2200;
   SPLIT_AFTER true 2200; INSERT_BEFORE false 2000 2300; SWAP; CONCAT true;
   REMOVE true 2000; REPLACE true 2100 2000; REMOVE_HEAD true].

Lemma tailq_programs_witness :
  wp (run_ops hd0 prog)
    (fun _ => qrep tailq tqe hd0 (mk_aq [2000; 2200] [] [2300; 2100]) [(3000, 42)]) (mem0 tailq tqe).
Proof.
  apply (tailq_programs hd0 prog (mk_aq [] [] pool0)); [vm_compute; reflexivity..|].
  apply initial_rep. vm_compute. reflexivity.
Defined.

Definition queue3 : wordlist := tailq 1000 [2100; 2000; 2200].
Lemma queue3_owned : owns (list_to_map queue3) (queue3 ++ []).
Proof.
  rewrite app_nil_r. apply owns_list_to_map. apply (bool_decide_eq_true_1 _). vm_compute. reflexivity.
Qed.

Lemma tailq_fast_equiv_witness :
  let m : words := list_to_map queue3 in
  TAILQ_PREV 2000 m = Some (2100, m) /\ TAILQ_PREV_FAST 2000 1000 m = TAILQ_PREV 2000 m /\
  TAILQ_LAST 1000 m = Some (2200, m) /\ TAILQ_LAST_FAST 1000 m = TAILQ_LAST 1000 m.
Proof.
  apply (tailq_fast_equiv 1000 [2100] 2000 [2200] []); [apply queue3_owned|by repeat constructor].
Defined.

Lemma tailq_traversals_witness :
  let m : words := list_to_map queue3 in
  TAILQ_FOREACH visit 1000 [] m = Some ([2100; 2000; 2200], m) /\
  TAILQ_FOREACH_REVERSE visit 1000 [] m = Some ([2200; 2000; 2100], m).
Proof.
  destruct (tailq_traversals 1000 [2100] 2000 [2200] [] (list_to_map queue3))
    as (H1 & _ & _ & _ & H2 & _); [apply queue3_owned|by repeat constructor|]. split; [exact H1|exact H2].
Defined.

Lemma tailq_foreach_safe_remove_witness :
  wp (TAILQ_FOREACH_SAFE (remove_if (fun x => x <? 2150) 1000) 1000 []) (fun acc m' =>
    acc = [2100; 2000] /\ exists vs, length vs = length acc /\
      owns m' (tailq 1000 [2200] ++ pool_words tqe acc vs ++ [])) (list_to_map queue3).
Proof.
  apply (tailq_foreach_safe_remove (fun x => x <? 2150) 1000 [2100; 2000; 2200] []);
    [apply queue3_owned|by repeat constructor].
Defined.
End TailQueueWitness.
