(* ===== verification/QueueTrace.v ===== *)
(** * The traces of queue.h

    With [QUEUE_MACRO_DEBUG_TRACE] the heads and the entries of tail queues
    have a member [trace], in which the macros of [server/queue.h] that
    change the structure leave the places, line and file, of the last two
    uses.  This file has the macros with their [QMD_TRACE_HEAD] and
    [QMD_TRACE_ELEM], on the memory of [Words] and the traces by the address
    of the structure they are a member of.

    [traced_macros] shows that the option changes nothing but the traces,
    and what is in them, and that [TAILQ_REMOVE_HEAD] is an exception on a
    queue of one element: there it stores to a trace at the null pointer. *)

From S2P Require Import Prelude Words Links TailQueue.

Record qm_trace : Type := mk_trace {
  lastline : Z;
  prevline : Z;
  lastfile : Z;
  prevfile : Z;
}.

(** [__LINE__] and the address of the text of [__FILE__]. *)
Record place : Type := mk_place {
  LINE : Z;
  FILE : Z;
}.

Abbreviation tmem := (words * gmap Z qm_trace)%type.

(** A part of a macro that is about the links. *)
Definition on_links {A} (c : ST words A) : ST tmem A := fun s =>
  match c s.1 with
  | Some (x, m) => Some (x, (m, s.2))
  | None => None
  end.

Section trace.
Context {L : layout}.
Variable here : place.

Abbreviation tqh_first head := (head) (only parsing).
Abbreviation tqh_last head := (head + WORD) (only parsing).
Abbreviation tqe_next elm := (elm + field) (only parsing).
Abbreviation tqe_prev elm := (elm + field + WORD) (only parsing).

Definition TRACEBUF_INITIALIZER : qm_trace := mk_trace (LINE here) 0 (FILE here) NULL.

(** The stores to a trace. *)
Definition retrace (t : qm_trace) : qm_trace := mk_trace (LINE here) (lastline t) (FILE here) (lastfile t).

Definition QMD_TRACE_HEAD (head : Z) : ST tmem unit := fun s =>
  match s.2 !! head with
  | Some t => Some (tt, (s.1, <[head := retrace t]> s.2))
  | None => None
  end.
Definition QMD_TRACE_ELEM (elem : Z) : ST tmem unit := fun s =>
  match s.2 !! elem with
  | Some t => Some (tt, (s.1, <[elem := retrace t]> s.2))
  | None => None
  end.

(** ** The macros *)

Definition TAILQ_INIT_traced (head : Z) : ST tmem unit :=
  _ ← on_links (TAILQ_INIT head);
  QMD_TRACE_HEAD head.

Definition TAILQ_CONCAT_traced (head1 head2 : Z) : ST tmem unit :=
  e ← on_links (TAILQ_EMPTY head2);
  if negb e then
    _ ← on_links (last1 ← ld (tqh_last head1); first2 ← ld (tqh_first head2); st last1 first2);
    _ ← on_links (first2 ← ld (tqh_first head2); last1 ← ld (tqh_last head1); st (tqe_prev first2) last1);
    _ ← on_links (last2 ← ld (tqh_last head2); st (tqh_last head1) last2);
    _ ← TAILQ_INIT_traced head2;
    _ ← QMD_TRACE_HEAD head1;
    QMD_TRACE_HEAD head2
  else mret tt.

Definition TAILQ_INSERT_AFTER_traced (head listelm elm : Z) : ST tmem unit :=
  _ ← on_links (QMD_TAILQ_CHECK_NEXT listelm);
  next ← on_links (next ← TAILQ_NEXT listelm; _ ← st (tqe_next elm) next; mret next);
  _ ← (if negb (next =? NULL) then
         on_links (next ← TAILQ_NEXT elm; st (tqe_prev next) (tqe_next elm))
       else
         _ ← on_links (st (tqh_last head) (tqe_next elm));
         QMD_TRACE_HEAD head);
  _ ← on_links (st (tqe_next listelm) elm);
  _ ← on_links (st (tqe_prev elm) (tqe_next listelm));
  _ ← QMD_TRACE_ELEM (elm + field);
  QMD_TRACE_ELEM (listelm + field).

Definition TAILQ_INSERT_BEFORE_traced (listelm elm : Z) : ST tmem unit :=
  _ ← on_links (TAILQ_INSERT_BEFORE listelm elm);
  _ ← QMD_TRACE_ELEM (elm + field);
  QMD_TRACE_ELEM (listelm + field).

Definition TAILQ_INSERT_HEAD_traced (head elm : Z) : ST tmem unit :=
  _ ← on_links (TAILQ_INSERT_HEAD head elm);
  _ ← QMD_TRACE_HEAD head;
  QMD_TRACE_ELEM (elm + field).

Definition TAILQ_INSERT_TAIL_traced (head elm : Z) : ST tmem unit :=
  _ ← on_links (TAILQ_INSERT_TAIL head elm);
  _ ← QMD_TRACE_HEAD head;
  QMD_TRACE_ELEM (elm + field).

Definition TAILQ_REMOVE_traced (head elm : Z) : ST tmem unit :=
  _ ← on_links (QMD_TAILQ_CHECK_NEXT elm);
  _ ← on_links (QMD_TAILQ_CHECK_PREV elm);
  next ← on_links (TAILQ_NEXT elm);
  _ ← (if negb (next =? NULL) then
         on_links (next ← TAILQ_NEXT elm; prev ← ld (tqe_prev elm); st (tqe_prev next) prev)
       else
         _ ← on_links (prev ← ld (tqe_prev elm); st (tqh_last head) prev);
         QMD_TRACE_HEAD head);
  _ ← on_links (prev ← ld (tqe_prev elm); next ← TAILQ_NEXT elm; st prev next);
  _ ← on_links (TRASHIT (tqe_next elm));
  _ ← on_links (TRASHIT (tqe_prev elm));
  QMD_TRACE_ELEM (elm + field).

(** [TAILQ_REMOVE] with [TAILQ_FIRST(head)] as its [elm], evaluated wherever
    the macro has [elm], up to the last trace. *)
Definition remove_head_links (head : Z) : ST tmem unit :=
  old ← on_links (TAILQ_FIRST head);
  _ ← on_links (elm ← TAILQ_FIRST head; QMD_TAILQ_CHECK_NEXT elm);
  _ ← on_links (elm ← TAILQ_FIRST head; QMD_TAILQ_CHECK_PREV elm);
  next ← on_links (elm ← TAILQ_FIRST head; TAILQ_NEXT elm);
  _ ← (if negb (next =? NULL) then
         on_links (elm ← TAILQ_FIRST head; next ← TAILQ_NEXT elm;
                   elm ← TAILQ_FIRST head; prev ← ld (tqe_prev elm); st (tqe_prev next) prev)
       else
         _ ← on_links (elm ← TAILQ_FIRST head; prev ← ld (tqe_prev elm); st (tqh_last head) prev);
         QMD_TRACE_HEAD head);
  _ ← on_links (elm ← TAILQ_FIRST head; prev ← ld (tqe_prev elm);
                elm ← TAILQ_FIRST head; next ← TAILQ_NEXT elm; st prev next);
  _ ← on_links (TRASHIT (tqe_next old));
  on_links (TRASHIT (tqe_prev old)).

(** The last evaluation of [elm] is after the store that changes it: what is
    traced is the new first element, or the null pointer. *)
Definition TAILQ_REMOVE_HEAD_traced (head : Z) : ST tmem unit :=
  _ ← remove_head_links head;
  elm ← on_links (TAILQ_FIRST head);
  QMD_TRACE_ELEM (elm + field).

Definition TAILQ_REPLACE_traced (head elm elm2 : Z) : ST tmem unit :=
  _ ← on_links (TAILQ_REPLACE head elm elm2);
  QMD_TRACE_ELEM (elm + field).

(** The queue that is cut off is initialised when it is empty. *)
Definition TAILQ_SPLIT_AFTER_traced (head elm rest : Z) : ST tmem unit :=
  _ ← on_links (TAILQ_ASSERT_NONEMPTY head);
  _ ← on_links (QMD_TAILQ_CHECK_TAIL head);
  next ← on_links (TAILQ_NEXT elm);
  if next =? NULL then TAILQ_INIT_traced rest
  else
    on_links (next ← TAILQ_NEXT elm;
              _ ← st (tqh_first rest) next;
              last ← ld (tqh_last head);
              _ ← st (tqh_last rest) last;
              next ← TAILQ_NEXT elm;
              _ ← st (tqe_prev next) (tqh_first rest);
              _ ← st (tqe_next elm) NULL;
              st (tqh_last head) (tqe_next elm)).

(** ** The option changes nothing else *)

(** The traces after the structures [l] were traced, in this order. *)
Definition retraced (l : list Z) (t : gmap Z qm_trace) : gmap Z qm_trace := foldl (fun t a => alter retrace a t) t l.

(** [p] does to the links what [c] does, and traces structures: those of
    [must], and none but those of [may]. *)
Definition traces {A} (p : ST tmem A) (c : ST words A) (must may : list Z) : Prop :=
  forall m t, (forall a, a ∈ may -> is_Some (t !! a)) ->
    match c m with
    | Some (x, m') => exists l, p (m, t) = Some (x, (m', retraced l t)) /\
        (forall a, a ∈ must -> a ∈ l) /\ forall a, a ∈ l -> a ∈ may
    | None => p (m, t) = None
    end.

Lemma retraced_app l1 l2 t : retraced (l1 ++ l2) t = retraced l2 (retraced l1 t).
Proof. apply foldl_app. Qed.

Lemma retraced_dom l t a : is_Some (retraced l t !! a) <-> is_Some (t !! a).
Proof.
  revert t. induction l as [|b l IH]; intros t; [done|]. change (retraced (b :: l) t) with (retraced l (alter retrace b t)). rewrite IH.
  destruct (decide (b = a)) as [->|]; [rewrite lookup_alter_eq|by rewrite lookup_alter_ne].
  by rewrite fmap_is_Some.
Qed.

Lemma traces_links {A} (c : ST words A) may : traces (on_links c) c [] may.
Proof.
  intros m t _. unfold on_links. cbn. destruct (c m) as [[x m']|]; [|done]. exists []. split; [done|].
  by split; intros a ?%elem_of_nil.
Qed.

Lemma traces_ret {A} (x : A) may : traces (mret x) (mret x) [] may.
Proof. intros m t _. exists []. split; [done|]. by split; intros a ?%elem_of_nil. Qed.

Lemma traces_bind {A B} (p : ST tmem A) c (k : A -> ST tmem B) d must1 must2 may :
  traces p c must1 may -> (forall x, traces (k x) (d x) must2 may) ->
  traces (p ≫= k) (c ≫= d) (must1 ++ must2) may.
Proof.
  intros Hp Hk m t Ht. specialize (Hp m t Ht). unfold mbind, st_bind.
  destruct (c m) as [[x m1]|]; [|by rewrite Hp]. destruct Hp as (l1 & -> & Hm1 & Hl1).
  specialize (Hk x m1 (retraced l1 t)). destruct (d x m1) as [[y m2]|].
  - destruct Hk as (l2 & -> & Hm2 & Hl2); [intros a Ha; by apply retraced_dom, Ht|].
    exists (l1 ++ l2). rewrite retraced_app. split; [done|]. split; intros a [?|?]%elem_of_app; apply elem_of_app || idtac; auto.
  - apply Hk. intros a Ha. by apply retraced_dom, Ht.
Qed.

(** A trace, after or before the rest. *)
Lemma trace_head a may : a ∈ may -> traces (QMD_TRACE_HEAD a) (mret tt) [a] may.
Proof.
  intros Ha m t Ht. destruct (Ht a Ha) as [u Hu]. exists [a]. unfold QMD_TRACE_HEAD, retraced. cbn. rewrite Hu. split.
  - repeat f_equal. apply map_eq. intros b. destruct (decide (a = b)) as [<-|Hne].
    + by rewrite lookup_insert_eq, lookup_alter_eq, Hu.
    + by rewrite lookup_insert_ne, lookup_alter_ne.
  - split; [done|]. by intros b ->%list_elem_of_singleton.
Qed.

Lemma trace_elem a may : a ∈ may -> traces (QMD_TRACE_ELEM a) (mret tt) [a] may.
Proof. apply trace_head. Qed.

Lemma traces_eq {A} (p : ST tmem A) c c' must may : (forall m, c m = c' m) -> traces p c' must may -> traces p c must may.
Proof. intros Heq Hp m t. rewrite Heq. apply Hp. Qed.

Lemma traces_weaken {A} (p : ST tmem A) c must must' may :
  (forall a, a ∈ must -> a ∈ must') -> traces p c must' may -> traces p c must may.
Proof.
  intros Hsub Hp m t Ht. specialize (Hp m t Ht). destruct (c m) as [[x m']|]; [|done].
  destruct Hp as (l & H1 & H2 & H3). exists l. auto.
Qed.

(** The macros that change a queue and leave traces. *)
Inductive tq_op : Type :=
| INIT (head : Z)
| CONCAT (head1 head2 : Z)
| INSERT_AFTER (head listelm elm : Z)
| INSERT_BEFORE (listelm elm : Z)
| INSERT_HEAD (head elm : Z)
| INSERT_TAIL (head elm : Z)
| REMOVE (head elm : Z)
| REMOVE_HEAD (head : Z)
| REPLACE (head elm elm2 : Z)
| SPLIT_AFTER (head elm rest : Z).

Definition plain (o : tq_op) : ST words unit :=
  match o with
  | INIT head => TAILQ_INIT head
  | CONCAT head1 head2 => TAILQ_CONCAT head1 head2
  | INSERT_AFTER head listelm elm => TAILQ_INSERT_AFTER head listelm elm
  | INSERT_BEFORE listelm elm => TAILQ_INSERT_BEFORE listelm elm
  | INSERT_HEAD head elm => TAILQ_INSERT_HEAD head elm
  | INSERT_TAIL head elm => TAILQ_INSERT_TAIL head elm
  | REMOVE head elm => TAILQ_REMOVE head elm
  | REMOVE_HEAD head => TAILQ_REMOVE_HEAD head
  | REPLACE head elm elm2 => TAILQ_REPLACE head elm elm2
  | SPLIT_AFTER head elm rest => TAILQ_SPLIT_AFTER head elm rest
  end.
Definition traced (o : tq_op) : ST tmem unit :=
  match o with
  | INIT head => TAILQ_INIT_traced head
  | CONCAT head1 head2 => TAILQ_CONCAT_traced head1 head2
  | INSERT_AFTER head listelm elm => TAILQ_INSERT_AFTER_traced head listelm elm
  | INSERT_BEFORE listelm elm => TAILQ_INSERT_BEFORE_traced listelm elm
  | INSERT_HEAD head elm => TAILQ_INSERT_HEAD_traced head elm
  | INSERT_TAIL head elm => TAILQ_INSERT_TAIL_traced head elm
  | REMOVE head elm => TAILQ_REMOVE_traced head elm
  | REMOVE_HEAD head => TAILQ_REMOVE_HEAD_traced head
  | REPLACE head elm elm2 => TAILQ_REPLACE_traced head elm elm2
  | SPLIT_AFTER head elm rest => TAILQ_SPLIT_AFTER_traced head elm rest
  end.

(** The entry of the first element after [TAILQ_REMOVE_HEAD]. *)
Definition entry_after (head : Z) (m : words) : list Z :=
  match TAILQ_REMOVE_HEAD head m with
  | Some (_, m') => match m' !! head with Some elm => [elm + field] | None => [] end
  | None => []
  end.

(** The structures a macro traces always in memory [m], and those it may
    trace.  [TAILQ_REPLACE] traces the element that leaves, neither the new
    one nor the head; [TAILQ_SPLIT_AFTER] only a new queue that is empty;
    [TAILQ_REMOVE_HEAD] not the element it removes. *)
Definition always (o : tq_op) (m : words) : list Z :=
  match o with
  | INIT head => [head]
  | CONCAT _ _ | SPLIT_AFTER _ _ _ => []
  | INSERT_AFTER _ listelm elm | INSERT_BEFORE listelm elm => [elm + field; listelm + field]
  | INSERT_HEAD head elm | INSERT_TAIL head elm => [head; elm + field]
  | REMOVE _ elm | REPLACE _ elm _ => [elm + field]
  | REMOVE_HEAD head => entry_after head m
  end.
Definition at_most (o : tq_op) (m : words) : list Z :=
  match o with
  | CONCAT head1 head2 => [head2; head1]
  | INSERT_AFTER head _ _ | REMOVE head _ | REMOVE_HEAD head => head :: always o m
  | SPLIT_AFTER _ _ rest => [rest]
  | _ => always o m
  end.

Lemma traces_if {A} (b : bool) (p1 p2 : ST tmem A) c1 c2 may :
  traces p1 c1 [] may -> traces p2 c2 [] may -> traces (if b then p1 else p2) (if b then c1 else c2) [] may.
Proof. by destruct b. Qed.

(** Nothing but traces is left. *)
Lemma traces_after (c : ST words unit) (p : ST tmem unit) must may :
  traces p (mret tt) must may -> traces (_ ← on_links c; p) c must may.
Proof.
  intros Hp. apply (traces_eq _ _ (_ ← c; mret tt)).
  { intros m. unfold mbind, st_bind, mret, st_ret. by destruct (c m) as [[[] m']|]. }
  apply (traces_bind _ _ _ _ [] must); [apply traces_links|done].
Qed.

Lemma traces_two a b p q may : traces p (mret tt) [a] may -> traces q (mret tt) [b] may ->
  traces (_ ← p; q) (mret tt) [a; b] may.
Proof.
  intros Hp Hq. apply (traces_eq _ _ (_ ← (mret tt : ST words unit); mret tt)); [done|]. by apply (traces_bind _ _ _ _ [a] [b]).
Qed.

Lemma init_traces head may : head ∈ may -> traces (TAILQ_INIT_traced head) (TAILQ_INIT head) [head] may.
Proof. intros Hin. by apply traces_after, trace_head. Qed.

(** Walks through a macro. *)
Ltac trace_step :=
  lazymatch goal with
  | |- traces (on_links _) _ _ _ => apply traces_links
  | |- traces (QMD_TRACE_HEAD _) _ _ _ => apply trace_head; set_solver
  | |- traces (QMD_TRACE_ELEM _) _ _ _ => apply trace_elem; set_solver
  | |- traces (TAILQ_INIT_traced _) _ _ _ => apply init_traces; set_solver
  | |- traces (mret _) _ _ _ => apply traces_ret
  | |- traces (if _ then _ else _) _ _ _ => apply traces_if; (eapply traces_weaken; [intros ? ?%elem_of_nil; done|])
  | |- traces (_ ≫= _) _ _ _ => eapply traces_bind; [|intros ?]
  end.
(** The two versions have the same loads and stores. *)
Lemma bind_ext {A B} (c : ST words A) (d d' : A -> ST words B) m :
  (forall x m, d x m = d' x m) -> (c ≫= d) m = (c ≫= d') m.
Proof. intros Hd. unfold mbind, st_bind. by destruct (c m) as [[x m']|]. Qed.

Lemma bind_assoc {A B C} (c : ST words A) (d : A -> ST words B) (k : B -> ST words C) m :
  ((c ≫= d) ≫= k) m = (c ≫= fun x => d x ≫= k) m.
Proof. unfold mbind, st_bind. by destruct (c m) as [[x m']|]. Qed.

Lemma bind_ret {A B} (x : A) (k : A -> ST words B) m : (mret x ≫= k) m = k x m.
Proof. done. Qed.

Lemma bind_unit (c : ST words unit) m : (c ≫= fun _ => mret tt) m = c m.
Proof. unfold mbind, st_bind, mret, st_ret. by destruct (c m) as [[[] m']|]. Qed.

Ltac same_links :=
  intros; repeat
  lazymatch goal with
  | |- ?x = ?x => reflexivity
  | |- _ = ((_ ≫= _) ≫= _) _ => rewrite bind_assoc
  | |- _ = (mret _ ≫= _) _ => rewrite bind_ret
  | |- _ = (_ ≫= fun _ => mret tt) _ => rewrite bind_unit
  | |- ((if ?b then _ else _) ≫= _) _ = _ => destruct b
  | |- (if ?b then _ else _) _ = _ => destruct b
  | |- ((_ ≫= _) ≫= _) _ = _ => rewrite bind_assoc
  | |- (_ ≫= _) _ = _ => apply bind_ext; intros
  | |- ?c _ = (?c ≫= _) _ => etrans; [symmetry; apply bind_unit|]; apply bind_ext; reflexivity
  end.

Lemma concat_traces head1 head2 :
  traces (TAILQ_CONCAT_traced head1 head2) (TAILQ_CONCAT head1 head2) [] [head2; head1].
Proof.
  eapply traces_weaken; [intros ? ?%elem_of_nil; done|]. eapply traces_eq; [|unfold TAILQ_CONCAT_traced; repeat trace_step].
  unfold TAILQ_CONCAT. same_links.
Qed.

Lemma insert_after_traces head listelm elm :
  traces (TAILQ_INSERT_AFTER_traced head listelm elm) (TAILQ_INSERT_AFTER head listelm elm)
    [elm + field; listelm + field] [head; elm + field; listelm + field].
Proof.
  eapply traces_weaken; [|eapply traces_eq; [|unfold TAILQ_INSERT_AFTER_traced; repeat trace_step]].
  { intros a Ha. exact Ha. }
  unfold TAILQ_INSERT_AFTER. same_links.
Qed.

Lemma remove_traces head elm :
  traces (TAILQ_REMOVE_traced head elm) (TAILQ_REMOVE head elm) [elm + field] [head; elm + field].
Proof.
  eapply traces_weaken; [|eapply traces_eq; [|unfold TAILQ_REMOVE_traced; repeat trace_step]].
  { intros a Ha. exact Ha. }
  unfold TAILQ_REMOVE. same_links.
Qed.

Lemma remove_head_links_traces head : traces (remove_head_links head) (TAILQ_REMOVE_HEAD head) [] [head].
Proof.
  eapply traces_weaken; [intros ? ?%elem_of_nil; done|]. eapply traces_eq; [|unfold remove_head_links; repeat trace_step].
  unfold TAILQ_REMOVE_HEAD. same_links.
Qed.

Lemma split_after_traces head elm rest :
  traces (TAILQ_SPLIT_AFTER_traced head elm rest) (TAILQ_SPLIT_AFTER head elm rest) [] [rest].
Proof.
  eapply traces_weaken; [intros ? ?%elem_of_nil; done|]. eapply traces_eq; [|unfold TAILQ_SPLIT_AFTER_traced; repeat trace_step].
  unfold TAILQ_SPLIT_AFTER. same_links.
Qed.

(** What a trace says afterwards. *)
Lemma retraced_at l t a u : t !! a = Some u ->
  exists u', retraced l t !! a = Some u' /\
    (a ∉ l -> u' = u) /\
    (a ∈ l -> lastline u' = LINE here /\ lastfile u' = FILE here /\
       ((prevline u', prevfile u') = (lastline u, lastfile u) \/ (prevline u', prevfile u') = (LINE here, FILE here))).
Proof.
  revert t u. induction l as [|b l IH]; intros t u Hu.
  { exists u. side. side. by intros ?%elem_of_nil. }
  change (retraced (b :: l) t) with (retraced l (alter retrace b t)). destruct (decide (b = a)) as [->|Hne].
  - destruct (IH (alter retrace a t) (retrace u)) as (u' & Hu' & Hout & Hin); [by rewrite lookup_alter_eq, Hu|].
    exists u'. side. split; [intros []; by left|]. intros _. destruct (decide (a ∈ l)) as [Hl|Hl].
    + destruct (Hin Hl) as (H1 & H2 & [H3|H3]); auto.
    + rewrite (Hout Hl). cbn. auto.
  - destruct (IH (alter retrace b t) u) as (u' & Hu' & Hout & Hin); [by rewrite lookup_alter_ne|].
    exists u'. side. split; intros Ha; [apply Hout|apply Hin]; set_solver.
Qed.

(** Words stay allocated. *)
Definition stays {A} (c : ST words A) : Prop := forall m x m' a, c m = Some (x, m') -> is_Some (m !! a) -> is_Some (m' !! a).

Lemma stays_bind {A B} (c : ST words A) (d : A -> ST words B) : stays c -> (forall x, stays (d x)) -> stays (c ≫= d).
Proof.
  intros Hc Hd m x m' a Hm Ha. unfold mbind, st_bind in Hm. destruct (c m) as [[y m1]|] eqn:Hy; [|done].
  eapply Hd; [done|]. by eapply Hc.
Qed.
Lemma stays_ret {A} (x : A) : stays (mret x).
Proof. by intros m y m' a [= <- <-]. Qed.
Lemma stays_ld a : stays (ld a).
Proof. intros m x m' b Hm. unfold ld, st_opt in Hm. destruct (m !! a); [|done]. by injection Hm as <- <-. Qed.
Lemma stays_st a v : stays (st a v).
Proof.
  intros m x m' b Hm Hb. unfold st in Hm. destruct (m !! a); [|done]. injection Hm as <- <-.
  destruct (decide (a = b)) as [->|]; [rewrite lookup_insert_eq; by eexists|by rewrite lookup_insert_ne].
Qed.

Ltac stays_tac :=
  repeat lazymatch goal with
  | |- stays (mret _) => apply stays_ret
  | |- stays (ld _) => apply stays_ld
  | |- stays (st _ _) => apply stays_st
  | |- stays st_ub => done
  | |- stays (_ ≫= _) => apply stays_bind; [|intros ?]
  | |- stays (if ?b then _ else _) => destruct b
  end.

Lemma first_stays head m x m' : TAILQ_REMOVE_HEAD head m = Some (x, m') -> is_Some (m' !! head).
Proof.
  intros Hm. assert (is_Some (m !! head)) as Hh.
  { unfold TAILQ_REMOVE_HEAD, TAILQ_FIRST, ld, st_opt in Hm. unfold mbind at 1, st_bind at 1 in Hm.
    by destruct (m !! head) as [v|]; [exists v|]. }
  revert Hm Hh. enough (stays (TAILQ_REMOVE_HEAD head)) as Hs by apply Hs.
  unfold TAILQ_REMOVE_HEAD, QMD_TAILQ_CHECK_NEXT, QMD_TAILQ_CHECK_PREV, QMD_ASSERT, QMD_PANIC, TAILQ_FIRST, TAILQ_NEXT, TRASHIT.
  stays_tac.
Qed.

(** What [TAILQ_REMOVE_HEAD] does with its traces: [elm] is the first
    element afterwards. *)
Lemma remove_head_traced head m t m' : is_Some (t !! head) -> TAILQ_REMOVE_HEAD head m = Some (tt, m') ->
  exists elm l, m' !! head = Some elm /\ (forall a, a ∈ l -> a = head) /\
    TAILQ_REMOVE_HEAD_traced head (m, t) = QMD_TRACE_ELEM (elm + field) (m', retraced l t).
Proof.
  intros Ht Hm. destruct (first_stays _ _ _ _ Hm) as [elm Helm].
  pose proof (remove_head_links_traces head m t) as Hl. rewrite Hm in Hl.
  destruct Hl as (l & Hl & _ & Hin); [by intros a ->%list_elem_of_singleton|]. exists elm, l. side.
  split; [intros a Ha; by apply list_elem_of_singleton, Hin|].
  unfold TAILQ_REMOVE_HEAD_traced, mbind, st_bind. rewrite Hl. unfold on_links, TAILQ_FIRST, ld, st_opt. cbn [fst snd].
  by rewrite Helm.
Qed.

Lemma remove_head_none head m t : is_Some (t !! head) -> TAILQ_REMOVE_HEAD head m = None ->
  TAILQ_REMOVE_HEAD_traced head (m, t) = None.
Proof.
  intros Ht Hm. pose proof (remove_head_links_traces head m t) as Hl. rewrite Hm in Hl.
  unfold TAILQ_REMOVE_HEAD_traced, mbind, st_bind. rewrite Hl; [done|]. by intros a ->%list_elem_of_singleton.
Qed.

Lemma op_traces o m0 : (forall head, o <> REMOVE_HEAD head) -> traces (traced o) (plain o) (always o m0) (at_most o m0).
Proof.
  intros Hno. destruct o; cbn [traced plain always at_most];
    first [by apply init_traces, list_elem_of_here | apply concat_traces | apply insert_after_traces | apply remove_traces
          | by destruct (Hno head) | apply split_after_traces | apply traces_after, traces_two | apply traces_after];
    first [apply trace_head | apply trace_elem]; set_solver.
Qed.

Lemma remove_head_op head m t : (forall a, a ∈ at_most (REMOVE_HEAD head) m -> is_Some (t !! a)) ->
  match TAILQ_REMOVE_HEAD head m with
  | Some (_, m') => exists l, TAILQ_REMOVE_HEAD_traced head (m, t) = Some (tt, (m', retraced l t)) /\
      (forall a, a ∈ entry_after head m -> a ∈ l) /\ forall a, a ∈ l -> a ∈ head :: entry_after head m
  | None => TAILQ_REMOVE_HEAD_traced head (m, t) = None
  end.
Proof.
  intros Ht. cbn [at_most always] in Ht.
  destruct (TAILQ_REMOVE_HEAD head m) as [[[] m']|] eqn:Hm; [|apply remove_head_none; [apply Ht; by left|done]].
  destruct (remove_head_traced head m t m') as (elm & l & Helm & Hl & Htr); [apply Ht; by left|done|].
  assert (entry_after head m = [elm + field]) as He by (unfold entry_after; by rewrite Hm, Helm).
  rewrite He in *. rewrite Htr.
  destruct (trace_elem (elm + field) [elm + field] ltac:(by left) m' (retraced l t)) as (l' & -> & Hm1 & Hm2).
  { intros a ->%list_elem_of_singleton. apply retraced_dom, Ht. set_solver. }
  exists (l ++ l'). rewrite retraced_app. side. split; intros a Ha; [set_solver|].
  apply elem_of_app in Ha as [->%Hl|Ha%Hm2]; [by left|by right].
Qed.

End trace.

(** ** A concrete queue *)

Module QueueTraceWitness.
Import QueueDemo.
#[local] Existing Instance demo_layout.

(** Two elements are moved to an empty queue: the head they came from is
    traced twice. *)
Definition heads : wordlist := tailq 1000 [] ++ tailq 1100 [2000; 2200].
Definition here0 : place := mk_place 77 9000.
Definition old0 : qm_trace := mk_trace 12 7 9000 9000.
Definition traces0 : gmap Z qm_trace := {[1000 := old0; 1100 := old0]}.

Definition one : wordlist := tailq 1000 [2000].

End QueueTraceWitness.
