(* ===== verification/LinkedList.v ===== *)
(** * Doubly-linked lists of queue.h

    Models the [LIST] macros of [server/queue.h]: the head is one pointer,
    and an element has, next to its [next] pointer, the address of the
    pointer to it, so that it can be removed without a search. *)

From S2P Require Import Prelude Words Links.

Section list.
Context {L : layout}.

(** The addresses of the members. *)
Abbreviation lh_first head := (head) (only parsing).
Abbreviation le_next elm := (elm + field) (only parsing).
Abbreviation le_prev elm := (elm + field + WORD) (only parsing).

(** ** The macros *)

Definition LIST_FIRST (head : Z) : ST words Z := ld (lh_first head).
Definition LIST_NEXT (elm : Z) : ST words Z := ld (le_next elm).
Definition LIST_EMPTY (head : Z) : ST words bool := f ← LIST_FIRST head; mret (f =? NULL).
(** The load is atomic; here only one thread runs. *)
Definition LIST_EMPTY_ATOMIC (head : Z) : ST words bool :=
  f ← ld (lh_first head); mret (f =? NULL).
Definition LIST_END : Z := NULL.
Definition LIST_HEAD_INITIALIZER (head : Z) : wordlist := [(lh_first head, NULL)].

Definition QMD_LIST_CHECK_HEAD (head : Z) : ST words unit :=
  QMD_ASSERT (f ← LIST_FIRST head;
              if f =? NULL then mret true
              else f ← LIST_FIRST head; p ← ld (le_prev f); mret (p =? lh_first head)).
Definition QMD_LIST_CHECK_NEXT (elm : Z) : ST words unit :=
  QMD_ASSERT (n ← LIST_NEXT elm;
              if n =? NULL then mret true
              else n ← LIST_NEXT elm; p ← ld (le_prev n); mret (p =? le_next elm)).
Definition QMD_LIST_CHECK_PREV (elm : Z) : ST words unit :=
  QMD_ASSERT (p ← ld (le_prev elm); v ← ld p; mret (v =? elm)).

Definition LIST_ASSERT_EMPTY (head : Z) : ST words unit := QMD_ASSERT (LIST_EMPTY head).
Definition LIST_ASSERT_NONEMPTY (head : Z) : ST words unit :=
  QMD_ASSERT (e ← LIST_EMPTY head; mret (negb e)).

Definition LIST_INIT (head : Z) : ST words unit := st (lh_first head) NULL.

Definition LIST_CONCAT (head1 head2 : Z) : ST words unit :=
  cur ← LIST_FIRST head1;
  if cur =? NULL then
    first2 ← LIST_FIRST head2;
    _ ← st (lh_first head1) first2;
    if negb (first2 =? NULL) then
      first2 ← LIST_FIRST head2;
      _ ← st (le_prev first2) (lh_first head1);
      LIST_INIT head2
    else mret tt
  else
    first2 ← LIST_FIRST head2;
    if negb (first2 =? NULL) then
      fuel ← fuel_of;
      cur ← find_link LIST_NEXT fuel cur NULL;
      first2 ← LIST_FIRST head2;
      _ ← st (le_next cur) first2;
      first2 ← LIST_FIRST head2;
      _ ← st (le_prev first2) (le_next cur);
      LIST_INIT head2
    else mret tt.

Definition LIST_INSERT_AFTER (listelm elm : Z) : ST words unit :=
  _ ← QMD_LIST_CHECK_NEXT listelm;
  next ← LIST_NEXT listelm;
  _ ← st (le_next elm) next;
  _ ← (if negb (next =? NULL) then
         next ← LIST_NEXT listelm;
         st (le_prev next) (le_next elm)
       else mret tt);
  _ ← st (le_next listelm) elm;
  st (le_prev elm) (le_next listelm).

Definition LIST_INSERT_BEFORE (listelm elm : Z) : ST words unit :=
  _ ← QMD_LIST_CHECK_PREV listelm;
  prev ← ld (le_prev listelm);
  _ ← st (le_prev elm) prev;
  _ ← st (le_next elm) listelm;
  prev ← ld (le_prev listelm);
  _ ← st prev elm;
  st (le_prev listelm) (le_next elm).

Definition LIST_INSERT_HEAD (head elm : Z) : ST words unit :=
  _ ← QMD_LIST_CHECK_HEAD head;
  first ← LIST_FIRST head;
  _ ← st (le_next elm) first;
  _ ← (if negb (first =? NULL) then
         first ← LIST_FIRST head;
         st (le_prev first) (le_next elm)
       else mret tt);
  _ ← st (lh_first head) elm;
  st (le_prev elm) (lh_first head).

(** [__containerof(p, type, field.le_next)] is [p - field]. *)
Definition LIST_PREV (elm head : Z) : ST words Z :=
  p ← ld (le_prev elm);
  if p =? lh_first head then mret NULL
  else p ← ld (le_prev elm); mret (p - field).

Definition LIST_REMOVE (elm : Z) : ST words unit :=
  _ ← QMD_LIST_CHECK_NEXT elm;
  _ ← QMD_LIST_CHECK_PREV elm;
  next ← LIST_NEXT elm;
  _ ← (if negb (next =? NULL) then
         next ← LIST_NEXT elm;
         prev ← ld (le_prev elm);
         st (le_prev next) prev
       else mret tt);
  prev ← ld (le_prev elm);
  next ← LIST_NEXT elm;
  _ ← st prev next;
  _ ← TRASHIT (le_next elm);
  TRASHIT (le_prev elm).

Definition LIST_REMOVE_HEAD (head : Z) : ST words unit :=
  first ← LIST_FIRST head;
  LIST_REMOVE first.

Definition LIST_REPLACE (elm elm2 : Z) : ST words unit :=
  _ ← QMD_LIST_CHECK_NEXT elm;
  _ ← QMD_LIST_CHECK_PREV elm;
  next ← LIST_NEXT elm;
  _ ← st (le_next elm2) next;
  next ← LIST_NEXT elm2;
  _ ← (if negb (next =? NULL) then
         next ← LIST_NEXT elm2;
         st (le_prev next) (le_next elm2)
       else mret tt);
  prev ← ld (le_prev elm);
  _ ← st (le_prev elm2) prev;
  prev ← ld (le_prev elm2);
  _ ← st prev elm2;
  _ ← TRASHIT (le_next elm);
  TRASHIT (le_prev elm).

Definition LIST_SPLIT_AFTER (head elm rest : Z) : ST words unit :=
  _ ← LIST_ASSERT_NONEMPTY head;
  next ← LIST_NEXT elm;
  if next =? NULL then LIST_INIT rest
  else
    next ← LIST_NEXT elm;
    _ ← st (lh_first rest) next;
    next ← LIST_NEXT elm;
    _ ← st (le_prev next) (lh_first rest);
    st (le_next elm) NULL.

Definition LIST_SWAP (head1 head2 : Z) : ST words unit :=
  swap_tmp ← LIST_FIRST head1;
  first2 ← LIST_FIRST head2;
  _ ← st (lh_first head1) first2;
  _ ← st (lh_first head2) swap_tmp;
  swap_tmp ← LIST_FIRST head1;
  _ ← (if negb (swap_tmp =? NULL) then st (le_prev swap_tmp) (lh_first head1) else mret tt);
  swap_tmp ← LIST_FIRST head2;
  if negb (swap_tmp =? NULL) then st (le_prev swap_tmp) (lh_first head2) else mret tt.

Section foreach.
Context {A : Type} (body : Z -> A -> ST words (A * bool)).

Definition LIST_FOREACH (head : Z) : A -> ST words A :=
  foreach LIST_NEXT body (LIST_FIRST head).
Definition LIST_FOREACH_FROM (var head : Z) : A -> ST words A :=
  foreach_from LIST_NEXT body (LIST_FIRST head) var.
Definition LIST_FOREACH_SAFE (head : Z) : A -> ST words A :=
  foreach_safe LIST_NEXT body (LIST_FIRST head).
Definition LIST_FOREACH_FROM_SAFE (var head : Z) : A -> ST words A :=
  foreach_from_safe LIST_NEXT body (LIST_FIRST head) var.
End foreach.

(** ** Words of a list *)

Definition dlist (head : Z) (l : list Z) : wordlist := dnext head l ++ [(lastp head l, NULL)].
Definition le (elm : Z) (v : Z * Z) : wordlist := [(le_next elm, v.1); (le_prev elm, v.2)].

(** ** The macros implement the operations on the list *)

Ltac le_words :=
  unfold dlist, le in *; rewrite ?dnext_app, ?lastp_app in *; cbn [dnext lastp fst snd] in *.
Ltac le_unfold :=
  unfold LIST_INSERT_HEAD, LIST_INSERT_AFTER, LIST_INSERT_BEFORE, LIST_REMOVE, LIST_REPLACE,
    LIST_SPLIT_AFTER, LIST_SWAP, LIST_INIT, LIST_ASSERT_NONEMPTY, QMD_LIST_CHECK_HEAD,
    QMD_LIST_CHECK_NEXT, QMD_LIST_CHECK_PREV, LIST_EMPTY, LIST_FIRST, LIST_NEXT, TRASHIT.
Ltac le_run := le_words; le_unfold; w_run; try by w_done.
Ltac le_run_out :=
  le_words; le_unfold; destruct QUEUE_MACRO_DEBUG_TRASH; w_run; eexists (_, _); by w_done.

Implicit Types (head x y : Z) (l : list Z) (F : wordlist) (m : words).

Lemma list_init_ok head v F m :
  owns m ([(lh_first head, v)] ++ F) ->
  wp (LIST_INIT head) (fun _ m' => owns m' (LIST_HEAD_INITIALIZER head ++ F) /\
    LIST_HEAD_INITIALIZER head = dlist head []) m.
Proof. intros Ho. unfold LIST_INIT. by w_run. Qed.

Lemma list_insert_head_ok head x l v F m :
  nonnull (x :: l) -> owns m (dlist head l ++ le x v ++ F) ->
  wp (LIST_INSERT_HEAD head x) (fun _ m' => owns m' (dlist head (x :: l) ++ F)) m.
Proof.
  intros Hnn Ho. destruct l as [|y l]; [le_run|].
  apply Forall_cons in Hnn as [_ [Hy _]%Forall_cons]. le_run.
Qed.

Lemma list_insert_after_ok head l1 y l2 x v F m :
  nonnull l2 -> owns m (dlist head (l1 ++ y :: l2) ++ le x v ++ F) ->
  wp (LIST_INSERT_AFTER y x) (fun _ m' => owns m' (dlist head (l1 ++ y :: x :: l2) ++ F)) m.
Proof.
  intros Hnn Ho. destruct l2 as [|z l2]; [le_run|].
  apply Forall_cons in Hnn as [Hz _]. le_run.
Qed.

Lemma list_insert_before_ok head l1 y l2 x v F m :
  owns m (dlist head (l1 ++ y :: l2) ++ le x v ++ F) ->
  wp (LIST_INSERT_BEFORE y x) (fun _ m' => owns m' (dlist head (l1 ++ x :: y :: l2) ++ F)) m.
Proof. intros Ho. le_run. Qed.

Lemma list_remove_ok head l1 x l2 F m :
  nonnull l2 -> owns m (dlist head (l1 ++ x :: l2) ++ F) ->
  wp (LIST_REMOVE x) (fun _ m' => exists v, owns m' (dlist head (l1 ++ l2) ++ le x v ++ F)) m.
Proof.
  intros Hnn Ho. destruct l2 as [|z l2]; [le_run_out|].
  apply Forall_cons in Hnn as [Hz _]. le_run_out.
Qed.

Lemma list_first_ok head l F m :
  owns m (dlist head l ++ F) -> wp (LIST_FIRST head) (fun v m' => v = first_of l /\ m' = m) m.
Proof. intros Ho. unfold LIST_FIRST. destruct l; le_words; by w_ld. Qed.

Lemma list_next_ok head l1 x l2 F m :
  owns m (dlist head (l1 ++ x :: l2) ++ F) ->
  wp (LIST_NEXT x) (fun v m' => v = first_of l2 /\ m' = m) m.
Proof. intros Ho. unfold LIST_NEXT. destruct l2; le_words; by w_ld. Qed.

Lemma list_chain_ok head l F m : owns m (dlist head l ++ F) ->
  forall l1 x l2, l = l1 ++ x :: l2 -> wp (LIST_NEXT x) (fun v m' => v = first_of l2 /\ m' = m) m.
Proof. intros Ho l1 x l2 ->. by eapply list_next_ok. Qed.

Lemma list_remove_head_ok head x l F m :
  nonnull l -> owns m (dlist head (x :: l) ++ F) ->
  wp (LIST_REMOVE_HEAD head) (fun _ m' => exists v, owns m' (dlist head l ++ le x v ++ F)) m.
Proof.
  intros Hnn Ho. unfold LIST_REMOVE_HEAD. wp_step. eapply wp_mono; [by eapply list_first_ok|].
  intros f m' [-> ->]. by apply (list_remove_ok head [] x l).
Qed.

Lemma list_replace_ok head l1 y l2 x v F m :
  nonnull l2 -> owns m (dlist head (l1 ++ y :: l2) ++ le x v ++ F) ->
  wp (LIST_REPLACE y x)
    (fun _ m' => exists v', owns m' (dlist head (l1 ++ x :: l2) ++ le y v' ++ F)) m.
Proof.
  intros Hnn Ho. destruct l2 as [|z l2]; [le_run_out|].
  apply Forall_cons in Hnn as [Hz _]. le_run_out.
Qed.

Lemma dlist_size head l F m : owns m (dlist head l ++ F) -> (length l < size m)%nat.
Proof.
  intros Ho%owns_size. unfold dlist in Ho. rewrite !length_app, length_dnext in Ho. simpl in Ho. lia.
Qed.

Lemma list_concat_ok head1 head2 l1 l2 F m :
  nonnull l1 -> nonnull l2 -> owns m (dlist head1 l1 ++ dlist head2 l2 ++ F) ->
  wp (LIST_CONCAT head1 head2) (fun _ m' => owns m' (dlist head1 (l1 ++ l2) ++ dlist head2 [] ++ F)) m.
Proof.
  intros H1 H2 Ho. unfold LIST_CONCAT. wp_step. eapply wp_mono; [by eapply list_first_ok|].
  intros f m' [-> ->]. destruct l1 as [|x l1].
  - simpl. destruct l2 as [|y l2]; [|apply Forall_cons in H2 as [Hy _]]; le_run.
  - apply Forall_cons in H1 as [Hx H1]. cbn [first_or]. w_test. wp_step.
    assert (owns m (dlist head2 l2 ++ dlist head1 (x :: l1) ++ F)) as Ho2 by w_done.
    eapply wp_mono; [by eapply list_first_ok|]. intros f m' [-> ->].
    destruct l2 as [|y l2]; [by rewrite app_nil_r|]. apply Forall_cons in H2 as [Hy _].
    cbn [first_or]. w_test. unfold fuel_of. do 3 wp_step.
    pose proof (dlist_size _ _ _ _ Ho) as Hsz. simpl in Hsz.
    eapply wp_mono; [eapply (find_link_ok LIST_NEXT _ m (list_chain_ok _ _ _ _ Ho) l1 [] []);
      [by rewrite app_nil_r|by apply nonnull_null|lia]|].
    intros z m' [[l0 Hl0]%last_around ->]. pose proof (Hl0 []) as Heq. rewrite app_nil_r in Heq.
    rewrite Heq in *. clear Ho2. le_run.
Qed.

Lemma list_split_after_ok head1 head2 l1 y l2 F m :
  nonnull (l1 ++ y :: l2) -> owns m (dlist head1 (l1 ++ y :: l2) ++ dlist head2 [] ++ F) ->
  wp (LIST_SPLIT_AFTER head1 y head2)
    (fun _ m' => owns m' (dlist head1 (l1 ++ [y]) ++ dlist head2 l2 ++ F)) m.
Proof.
  intros Hnn Ho. apply Forall_app in Hnn as [H1 [Hy H2]%Forall_cons].
  destruct l1 as [|x l1]; [|apply Forall_cons in H1 as [Hx _]];
    (destruct l2 as [|z l2]; [|apply Forall_cons in H2 as [Hz _]]); le_run.
Qed.

Lemma list_swap_ok head1 head2 l1 l2 F m :
  nonnull l1 -> nonnull l2 -> owns m (dlist head1 l1 ++ dlist head2 l2 ++ F) ->
  wp (LIST_SWAP head1 head2) (fun _ m' => owns m' (dlist head1 l2 ++ dlist head2 l1 ++ F)) m.
Proof.
  intros H1 H2 Ho. destruct l1 as [|x l1], l2 as [|y l2];
    try (apply Forall_cons in H1 as [Hx _]); try (apply Forall_cons in H2 as [Hy _]); le_run.
Qed.

(** ** Lists are a family *)

Definition list_macro (hd : bool -> Z) (o : qop) : option (ST words unit) :=
  match o with
  | INSERT_HEAD i x => Some (LIST_INSERT_HEAD (hd i) x)
  | INSERT_AFTER i y x => Some (LIST_INSERT_AFTER y x)
  | INSERT_BEFORE i y x => Some (LIST_INSERT_BEFORE y x)
  | REMOVE_HEAD i => Some (LIST_REMOVE_HEAD (hd i))
  | REMOVE i x => Some (LIST_REMOVE x)
  | REPLACE i y x => Some (LIST_REPLACE y x)
  | CONCAT i => Some (LIST_CONCAT (hd i) (hd (negb i)))
  | SPLIT_AFTER i y => Some (LIST_SPLIT_AFTER (hd i) y (hd (negb i)))
  | SWAP => Some (LIST_SWAP (hd true) (hd false))
  | INSERT_TAIL _ _ | REMOVE_AFTER _ _ | REVERSE _ => None
  end.

#[export] Program Instance list_family : QueueFamily := {
  qwords := dlist; ewords := le; macro := list_macro;
}.
Next Obligation.
  intros hd o c a a' F m Hc Ha Hr. destruct o; simplify_eq/=.
  - eapply step_insert_head; eauto using list_insert_head_ok.
  - eapply step_insert_after; eauto. intros. eapply list_insert_after_ok; [nonnull_solver|done].
  - eapply step_insert_before; eauto using list_insert_before_ok.
  - eapply step_remove_head; eauto. intros. eapply list_remove_head_ok; [nonnull_solver|done].
  - eapply step_remove; eauto. intros. eapply list_remove_ok; [nonnull_solver|done].
  - eapply step_replace; eauto. intros. eapply list_replace_ok; [nonnull_solver|done].
  - eapply step_concat; eauto using list_concat_ok.
  - eapply step_split_after; eauto using list_split_after_ok.
  - eapply step_swap; eauto using list_swap_ok.
Qed.

(** ** Properties *)

(** C31. Any program of [LIST] macros on two heads and a pool of elements,
    used as documented, runs without an invalid access or a failed
    assertion, with or without assertions and trashing; it leaves the two lists that
    the operations on lists give, and no other word changes. *)
Theorem list_programs hd os a a' F m :
  has_macros hd os = true -> asteps os a = Some a' ->
  qrep dlist le hd a F m ->
  wp (run_ops hd os) (fun _ => qrep dlist le hd a' F) m.
Proof. apply (run_ops_ok (Q := list_family)). Qed.

(** [LIST_PREV] finds the element before, or [NULL] for the first one; the
    loops visit the elements in order, from the first or from the one they
    are given. *)
Theorem list_traversals head l1 x l2 F m :
  let l := l1 ++ x :: l2 in
  owns m (dlist head l ++ F) -> nonnull l ->
  LIST_PREV x head m = Some (first_of (reverse l1), m) /\
  LIST_FOREACH visit head [] m = Some (l, m) /\
  LIST_FOREACH_SAFE visit head [] m = Some (l, m) /\
  LIST_FOREACH_FROM visit x head [] m = Some (x :: l2, m) /\
  LIST_FOREACH_FROM_SAFE visit x head [] m = Some (x :: l2, m).
Proof.
  intros l Ho Hnn. pose proof (dlist_size _ _ _ _ Ho) as Hsz%Nat.lt_le_incl.
  pose proof (list_chain_ok _ _ _ _ Ho) as Hnext.
  destruct (foreach_visits _ _ _ _ (list_first_ok _ _ _ _ Ho) Hnext Hnn Hsz) as [H1 H2].
  destruct (foreach_from_visits (LIST_FIRST head) _ _ _ Hnext Hnn Hsz l1 x l2 eq_refl) as [H5 H6].
  split; [|by split_and!]. apply wp_reads. unfold l in *. unfold LIST_PREV.
  destruct l1 as [|y l1 _] using rev_ind; [le_words; w_steps; by rewrite Z.eqb_refl|].
  assert (head <> y + field) as Hne.
  { destruct l1 as [|z l1]; le_words; eapply (owns_ne m _ _ _ _ x Ho); in_words. }
  rewrite reverse_snoc. le_words. w_step. w_ld. rewrite (proj2 (Z.eqb_neq (y + field) head)) by done.
  w_steps. simpl. split; [lia|done].
Qed.
End list.

(** ** The theorems at concrete lists *)

Module LinkedListWitness.
Import QueueDemo.
#[local] Existing Instance demo_layout.

Definition prog : list qop :=
  [INSERT_HEAD true 2000; INSERT_AFTER true 2000 2100; INSERT_BEFORE true 2100 2200;
   SPLIT_AFTER true 2000; INSERT_HEAD false 2300; SWAP; CONCAT true; REMOVE true 2200;
   REPLACE true 2100 2200; REMOVE_HEAD true].

Lemma list_programs_witness :
  wp (run_ops hd0 prog)
    (fun _ => qrep dlist le hd0 (mk_aq [2200; 2000] [] [2300; 2100]) [(3000, 42)]) (mem0 dlist le).
Proof.
  apply (list_programs hd0 prog (mk_aq [] [] pool0)); [vm_compute; reflexivity..|].
  apply initial_rep. vm_compute. reflexivity.
Defined.
End LinkedListWitness.
