(* ===== verification/StailQueue.v ===== *)
(** * Singly-linked tail queues of queue.h

    Models the [STAILQ] macros of [server/queue.h]: the head has a pointer to
    the first element and the address of the last [next] pointer, which is
    that of its own first member when the queue is empty. *)

From S2P Require Import Prelude Words Links.

Section stailq.
Context {L : layout}.

(** The addresses of the members. *)
Abbreviation stqh_first head := (head) (only parsing).
Abbreviation stqh_last head := (head + WORD) (only parsing).
Abbreviation stqe_next elm := (elm + field) (only parsing).

(** ** The macros *)

Definition STAILQ_FIRST (head : Z) : ST words Z := ld (stqh_first head).
Definition STAILQ_NEXT (elm : Z) : ST words Z := ld (stqe_next elm).
(** The load is atomic; here only one thread runs. *)
Definition STAILQ_EMPTY_ATOMIC (head : Z) : ST words bool :=
  f ← ld (stqh_first head); mret (f =? NULL).
Definition STAILQ_END : Z := NULL.
Definition STAILQ_HEAD_INITIALIZER (head : Z) : wordlist :=
  [(stqh_first head, NULL); (stqh_last head, stqh_first head)].

Definition QMD_STAILQ_CHECK_EMPTY (head : Z) : ST words unit :=
  QMD_ASSERT (p ← ld (stqh_last head); mret (p =? stqh_first head)).
Definition QMD_STAILQ_CHECK_TAIL (head : Z) : ST words unit :=
  QMD_ASSERT (p ← ld (stqh_last head); v ← ld p; mret (v =? NULL)).

Definition STAILQ_EMPTY (head : Z) : ST words bool :=
  f ← STAILQ_FIRST head;
  _ ← (if f =? NULL then QMD_STAILQ_CHECK_EMPTY head else mret tt);
  f ← STAILQ_FIRST head;
  mret (f =? NULL).

Definition STAILQ_ASSERT_EMPTY (head : Z) : ST words unit := QMD_ASSERT (STAILQ_EMPTY head).
Definition STAILQ_ASSERT_NONEMPTY (head : Z) : ST words unit :=
  QMD_ASSERT (e ← STAILQ_EMPTY head; mret (negb e)).

Definition STAILQ_INIT (head : Z) : ST words unit :=
  _ ← st (stqh_first head) NULL;
  st (stqh_last head) (stqh_first head).

Definition STAILQ_CONCAT (head1 head2 : Z) : ST words unit :=
  e ← STAILQ_EMPTY head2;
  if negb e then
    last1 ← ld (stqh_last head1);
    first2 ← ld (stqh_first head2);
    _ ← st last1 first2;
    last2 ← ld (stqh_last head2);
    _ ← st (stqh_last head1) last2;
    STAILQ_INIT head2
  else mret tt.

Definition STAILQ_INSERT_AFTER (head tqelm elm : Z) : ST words unit :=
  next ← STAILQ_NEXT tqelm;
  _ ← st (stqe_next elm) next;
  _ ← (if next =? NULL then st (stqh_last head) (stqe_next elm) else mret tt);
  st (stqe_next tqelm) elm.

Definition STAILQ_INSERT_HEAD (head elm : Z) : ST words unit :=
  first ← STAILQ_FIRST head;
  _ ← st (stqe_next elm) first;
  _ ← (if first =? NULL then st (stqh_last head) (stqe_next elm) else mret tt);
  st (stqh_first head) elm.

Definition STAILQ_INSERT_TAIL (head elm : Z) : ST words unit :=
  _ ← QMD_STAILQ_CHECK_TAIL head;
  prevlast ← ld (stqh_last head);
  _ ← st (stqe_next elm) NULL;
  _ ← st (stqh_last head) (stqe_next elm);
  st prevlast elm.

(** [__containerof(p, type, field.stqe_next)] is [p - field]. *)
Definition STAILQ_LAST (head : Z) : ST words Z :=
  e ← STAILQ_EMPTY head;
  if (e : bool) then mret NULL else p ← ld (stqh_last head); mret (p - field).

Definition STAILQ_REMOVE_AFTER (head elm : Z) : ST words unit :=
  next ← STAILQ_NEXT elm;
  next2 ← STAILQ_NEXT next;
  _ ← st (stqe_next elm) next2;
  if next2 =? NULL then st (stqh_last head) (stqe_next elm) else mret tt.

Definition STAILQ_REMOVE_HEAD (head : Z) : ST words unit :=
  first ← STAILQ_FIRST head;
  next ← STAILQ_NEXT first;
  _ ← st (stqh_first head) next;
  if next =? NULL then st (stqh_last head) (stqh_first head) else mret tt.

Definition STAILQ_REMOVE (head elm : Z) : ST words unit :=
  first ← STAILQ_FIRST head;
  _ ← (if first =? elm then STAILQ_REMOVE_HEAD head
       else
         cur ← STAILQ_FIRST head;
         fuel ← fuel_of;
         cur ← find_link STAILQ_NEXT fuel cur elm;
         STAILQ_REMOVE_AFTER head cur);
  TRASHIT (stqe_next elm).

Definition STAILQ_SPLIT_AFTER (head elm rest : Z) : ST words unit :=
  _ ← STAILQ_ASSERT_NONEMPTY head;
  _ ← QMD_STAILQ_CHECK_TAIL head;
  next ← STAILQ_NEXT elm;
  if next =? NULL then STAILQ_INIT rest
  else
    next ← STAILQ_NEXT elm;
    _ ← st (stqh_first rest) next;
    last ← ld (stqh_last head);
    _ ← st (stqh_last rest) last;
    _ ← st (stqe_next elm) NULL;
    st (stqh_last head) (stqe_next elm).

Definition STAILQ_SWAP (head1 head2 : Z) : ST words unit :=
  swap_first ← STAILQ_FIRST head1;
  swap_last ← ld (stqh_last head1);
  first2 ← STAILQ_FIRST head2;
  _ ← st (stqh_first head1) first2;
  last2 ← ld (stqh_last head2);
  _ ← st (stqh_last head1) last2;
  _ ← st (stqh_first head2) swap_first;
  _ ← st (stqh_last head2) swap_last;
  first1 ← STAILQ_FIRST head1;
  _ ← (if first1 =? NULL then st (stqh_last head1) (stqh_first head1) else mret tt);
  first2 ← STAILQ_FIRST head2;
  if first2 =? NULL then st (stqh_last head2) (stqh_first head2) else mret tt.

(** The loop of [STAILQ_REVERSE]; returns [_Varp]. *)
Fixpoint stailq_reverse_loop (fuel : nat) (var varp : Z) : ST words Z :=
  if negb (var =? NULL) then
    match fuel with
    | O => st_ub
    | S fuel =>
        varn ← STAILQ_NEXT var;
        _ ← st (stqe_next var) varp;
        stailq_reverse_loop fuel varn var
    end
  else mret varp.

Definition STAILQ_REVERSE (head : Z) : ST words unit :=
  e ← STAILQ_EMPTY head;
  if (e : bool) then mret tt
  else
    var ← STAILQ_FIRST head;
    fuel ← fuel_of;
    varp ← stailq_reverse_loop fuel var NULL;
    first ← STAILQ_FIRST head;
    _ ← st (stqh_last head) (stqe_next first);
    st (stqh_first head) varp.

Section foreach.
Context {A : Type} (body : Z -> A -> ST words (A * bool)).

Definition STAILQ_FOREACH (head : Z) : A -> ST words A :=
  foreach STAILQ_NEXT body (STAILQ_FIRST head).
Definition STAILQ_FOREACH_FROM (var head : Z) : A -> ST words A :=
  foreach_from STAILQ_NEXT body (STAILQ_FIRST head) var.
Definition STAILQ_FOREACH_SAFE (head : Z) : A -> ST words A :=
  foreach_safe STAILQ_NEXT body (STAILQ_FIRST head).
Definition STAILQ_FOREACH_FROM_SAFE (var head : Z) : A -> ST words A :=
  foreach_from_safe STAILQ_NEXT body (STAILQ_FIRST head) var.
End foreach.

(** ** Words of a queue *)

Definition stailq (head : Z) (l : list Z) : wordlist :=
  snext head l ++ [(lastp head l, NULL); (stqh_last head, lastp head l)].
Definition stqe (elm : Z) (v : Z * Z) : wordlist := [(stqe_next elm, v.1)].

(** ** The macros implement the operations on the list *)

Ltac stq_words :=
  unfold stailq, stqe in *; rewrite ?snext_app, ?lastp_app in *; cbn [snext lastp fst snd] in *.
Ltac stq_unfold :=
  unfold STAILQ_CONCAT, STAILQ_INSERT_AFTER, STAILQ_INSERT_HEAD, STAILQ_INSERT_TAIL,
    STAILQ_REMOVE_AFTER, STAILQ_REMOVE_HEAD, STAILQ_SPLIT_AFTER, STAILQ_SWAP, STAILQ_INIT,
    STAILQ_ASSERT_NONEMPTY, STAILQ_EMPTY, QMD_STAILQ_CHECK_EMPTY, QMD_STAILQ_CHECK_TAIL,
    STAILQ_FIRST, STAILQ_NEXT.
Ltac stq_run := stq_words; stq_unfold; w_run; try by w_done.
Ltac stq_run_out := stq_words; stq_unfold; w_run; eexists (_, NULL); cbn [fst]; by w_done.

Implicit Types (head x y : Z) (l : list Z) (F : wordlist) (m : words).

Lemma stq_first_ok head l F m :
  owns m (stailq head l ++ F) -> wp (STAILQ_FIRST head) (fun v m' => v = first_of l /\ m' = m) m.
Proof. intros Ho. unfold STAILQ_FIRST. destruct l; stq_words; by w_ld. Qed.

Lemma stq_next_ok head l1 x l2 F m :
  owns m (stailq head (l1 ++ x :: l2) ++ F) ->
  wp (STAILQ_NEXT x) (fun v m' => v = first_of l2 /\ m' = m) m.
Proof. intros Ho. unfold STAILQ_NEXT. destruct l2; stq_words; by w_ld. Qed.

Lemma stq_chain_ok head l F m : owns m (stailq head l ++ F) ->
  forall l1 x l2, l = l1 ++ x :: l2 -> wp (STAILQ_NEXT x) (fun v m' => v = first_of l2 /\ m' = m) m.
Proof. intros Ho l1 x l2 ->. by eapply stq_next_ok. Qed.

Lemma stailq_size head l F m : owns m (stailq head l ++ F) -> (length l < size m)%nat.
Proof.
  intros Ho%owns_size. unfold stailq in Ho. rewrite !length_app, length_snext in Ho. simpl in Ho. lia.
Qed.

Lemma stq_init_ok head v w F m :
  owns m ([(stqh_first head, v); (stqh_last head, w)] ++ F) ->
  wp (STAILQ_INIT head) (fun _ m' => owns m' (STAILQ_HEAD_INITIALIZER head ++ F) /\
    STAILQ_HEAD_INITIALIZER head = stailq head []) m.
Proof. intros Ho. unfold STAILQ_INIT. by w_run. Qed.

Lemma stq_insert_head_ok head x l v F m :
  nonnull (x :: l) -> owns m (stailq head l ++ stqe x v ++ F) ->
  wp (STAILQ_INSERT_HEAD head x) (fun _ m' => owns m' (stailq head (x :: l) ++ F)) m.
Proof.
  intros Hnn Ho. destruct l as [|y l]; [stq_run|].
  apply Forall_cons in Hnn as [_ [Hy _]%Forall_cons]. stq_run.
Qed.

Lemma stq_insert_tail_ok head x l v F m :
  owns m (stailq head l ++ stqe x v ++ F) ->
  wp (STAILQ_INSERT_TAIL head x) (fun _ m' => owns m' (stailq head (l ++ [x]) ++ F)) m.
Proof. intros Ho. stq_run. Qed.

Lemma stq_insert_after_ok head l1 y l2 x v F m :
  nonnull l2 -> owns m (stailq head (l1 ++ y :: l2) ++ stqe x v ++ F) ->
  wp (STAILQ_INSERT_AFTER head y x) (fun _ m' => owns m' (stailq head (l1 ++ y :: x :: l2) ++ F)) m.
Proof.
  intros Hnn Ho. destruct l2 as [|z l2]; [stq_run|].
  apply Forall_cons in Hnn as [Hz _]. stq_run.
Qed.

Lemma stq_remove_head_ok head x l F m :
  nonnull l -> owns m (stailq head (x :: l) ++ F) ->
  wp (STAILQ_REMOVE_HEAD head) (fun _ m' => exists v, owns m' (stailq head l ++ stqe x v ++ F)) m.
Proof.
  intros Hnn Ho. destruct l as [|z l]; [stq_run_out|].
  apply Forall_cons in Hnn as [Hz _]. stq_run_out.
Qed.

Lemma stq_remove_after_ok head l1 y x l2 F m :
  nonnull l2 -> owns m (stailq head (l1 ++ y :: x :: l2) ++ F) ->
  wp (STAILQ_REMOVE_AFTER head y)
    (fun _ m' => exists v, owns m' (stailq head (l1 ++ y :: l2) ++ stqe x v ++ F)) m.
Proof.
  intros Hnn Ho. destruct l2 as [|z l2]; [stq_run_out|].
  apply Forall_cons in Hnn as [Hz _]. stq_run_out.
Qed.

Lemma stq_concat_ok head1 head2 l1 l2 F m :
  nonnull l2 -> owns m (stailq head1 l1 ++ stailq head2 l2 ++ F) ->
  wp (STAILQ_CONCAT head1 head2) (fun _ m' => owns m' (stailq head1 (l1 ++ l2) ++ stailq head2 [] ++ F)) m.
Proof.
  intros Hnn Ho. destruct l2 as [|z l2]; [stq_run|].
  apply Forall_cons in Hnn as [Hz _]. stq_run.
Qed.

Lemma stq_split_after_ok head1 head2 l1 y l2 F m :
  nonnull (l1 ++ y :: l2) -> owns m (stailq head1 (l1 ++ y :: l2) ++ stailq head2 [] ++ F) ->
  wp (STAILQ_SPLIT_AFTER head1 y head2)
    (fun _ m' => owns m' (stailq head1 (l1 ++ [y]) ++ stailq head2 l2 ++ F)) m.
Proof.
  intros Hnn Ho. apply Forall_app in Hnn as [H1 [Hy H2]%Forall_cons].
  destruct l1 as [|x l1]; [|apply Forall_cons in H1 as [Hx _]];
    (destruct l2 as [|z l2]; [|apply Forall_cons in H2 as [Hz _]]); stq_run.
Qed.

Lemma stq_swap_ok head1 head2 l1 l2 F m :
  nonnull l1 -> nonnull l2 -> owns m (stailq head1 l1 ++ stailq head2 l2 ++ F) ->
  wp (STAILQ_SWAP head1 head2) (fun _ m' => owns m' (stailq head1 l2 ++ stailq head2 l1 ++ F)) m.
Proof.
  intros H1 H2 Ho. destruct l1 as [|x l1], l2 as [|y l2];
    try (apply Forall_cons in H1 as [Hx _]); try (apply Forall_cons in H2 as [Hy _]); stq_run.
Qed.

(** *** Removal by search *)

(** Overwriting the link of an element that has left its queue. *)
Lemma stq_trash_ok head l x v F m :
  owns m (stailq head l ++ stqe x v ++ F) ->
  wp (TRASHIT (stqe_next x)) (fun _ m' => exists v', owns m' (stailq head l ++ stqe x v' ++ F)) m.
Proof.
  intros Ho. unfold TRASHIT. destruct QUEUE_MACRO_DEBUG_TRASH; [|wp_step; eauto].
  unfold stqe in *. w_st. by exists (-1, NULL).
Qed.

Lemma stq_remove_ok head l1 x l2 F m :
  nonnull l2 -> x ∉ l1 -> owns m (stailq head (l1 ++ x :: l2) ++ F) ->
  wp (STAILQ_REMOVE head x)
    (fun _ m' => exists v, owns m' (stailq head (l1 ++ l2) ++ stqe x v ++ F)) m.
Proof.
  intros Hnn Hx Ho. unfold STAILQ_REMOVE. wp_step.
  assert (forall m', (exists v, owns m' (stailq head (l1 ++ l2) ++ stqe x v ++ F)) ->
    wp (TRASHIT (stqe_next x)) (fun _ m'' => exists v, owns m'' (stailq head (l1 ++ l2) ++ stqe x v ++ F)) m')
    as Htrash by (intros m' [v Hv]; by eapply stq_trash_ok).
  eapply wp_mono; [by eapply stq_first_ok|]. intros f m' [-> ->]. destruct l1 as [|c l1].
  - simpl. rewrite Z.eqb_refl. wp_step. eapply wp_mono; [by eapply stq_remove_head_ok|].
    intros [] m' Ho'. by apply Htrash.
  - apply not_elem_of_cons in Hx as [Hxc Hx]. cbn [first_or app]. rewrite (proj2 (Z.eqb_neq c x)) by done.
    do 2 wp_step. eapply wp_mono; [by eapply stq_first_ok|]. intros f m' [-> ->].
    unfold fuel_of. do 3 wp_step. pose proof (stailq_size _ _ _ _ Ho) as Hsz.
    rewrite length_app in Hsz. simpl in Hsz.
    eapply wp_mono; [eapply (find_link_ok STAILQ_NEXT _ m (stq_chain_ok _ _ _ _ Ho) l1 (x :: l2) []);
      [done..|lia]|].
    intros y m' [[l0 Heq]%last_around ->]. cbn [app] in Ho, Htrash. rewrite Heq in Ho. rewrite Heq in Htrash.
    eapply wp_mono; [by eapply stq_remove_after_ok|]. intros [] m' Ho'. rewrite Heq. by apply Htrash.
Qed.

(** *** Reversal *)

Lemma stq_reverse_loop_ok l2 F : forall l1 fuel m,
  nonnull l2 -> (length l2 <= fuel)%nat -> owns m (elinks l2 NULL ++ elinks l1 NULL ++ F) ->
  wp (stailq_reverse_loop fuel (first_of l2) (first_of l1))
    (fun v m' => v = first_of (reverse l2 ++ l1) /\ owns m' (elinks (reverse l2 ++ l1) NULL ++ F)) m.
Proof.
  induction l2 as [|x l2 IH]; intros l1 fuel m Hnn Hf Ho.
  - destruct fuel; by apply wp_ret.
  - apply Forall_cons in Hnn as [Hx Hnn]. destruct fuel as [|fuel]; simpl in Hf; [lia|].
    cbn [stailq_reverse_loop first_or elinks] in *. w_test. unfold STAILQ_NEXT. w_run.
    rewrite reverse_cons, <- app_assoc. apply (IH (x :: l1)); [done|lia|]. simpl. w_done.
Qed.

Lemma stailq_elinks head l :
  stailq head l = (head, first_of l) :: elinks l NULL ++ [(stqh_last head, lastp head l)].
Proof.
  unfold stailq. rewrite (app_assoc (snext head l) [_] [_] : snext head l ++ [_; _] = _).
  by rewrite snext_elinks.
Qed.

Lemma stq_reverse_ok head l F m :
  nonnull l -> owns m (stailq head l ++ F) ->
  wp (STAILQ_REVERSE head) (fun _ m' => owns m' (stailq head (reverse l) ++ F)) m.
Proof.
  intros Hnn Ho. pose proof (stailq_size _ _ _ _ Ho) as Hsz.
  destruct l as [|x l]; [unfold STAILQ_REVERSE; stq_run|].
  assert (x <> NULL) as Hx by by apply Forall_cons in Hnn as [? _].
  rewrite stailq_elinks in Ho |- *. rewrite reverse_cons, lastp_app, <- reverse_cons.
  cbn [first_or app lastp] in *.
  unfold STAILQ_REVERSE, STAILQ_EMPTY, STAILQ_FIRST, fuel_of. w_run.
  eapply wp_mono; [apply (stq_reverse_loop_ok (x :: l) ((head, x) ::
    (stqh_last head, lastp (x + field) l) :: F) []); [done|simpl in *; lia|simpl; w_done]|].
  intros v m' [-> Ho']. clear Ho. rewrite app_nil_r in *. w_run. w_done.
Qed.

(** ** Singly-linked tail queues are a family *)

Definition stailq_macro (hd : bool -> Z) (o : qop) : option (ST words unit) :=
  match o with
  | INSERT_HEAD i x => Some (STAILQ_INSERT_HEAD (hd i) x)
  | INSERT_TAIL i x => Some (STAILQ_INSERT_TAIL (hd i) x)
  | INSERT_AFTER i y x => Some (STAILQ_INSERT_AFTER (hd i) y x)
  | REMOVE_HEAD i => Some (STAILQ_REMOVE_HEAD (hd i))
  | REMOVE i x => Some (STAILQ_REMOVE (hd i) x)
  | REMOVE_AFTER i y => Some (STAILQ_REMOVE_AFTER (hd i) y)
  | CONCAT i => Some (STAILQ_CONCAT (hd i) (hd (negb i)))
  | SPLIT_AFTER i y => Some (STAILQ_SPLIT_AFTER (hd i) y (hd (negb i)))
  | SWAP => Some (STAILQ_SWAP (hd true) (hd false))
  | REVERSE i => Some (STAILQ_REVERSE (hd i))
  | INSERT_BEFORE _ _ _ | REPLACE _ _ _ => None
  end.

#[export] Program Instance stailq_family : QueueFamily := {
  qwords := stailq; ewords := stqe; macro := stailq_macro;
}.
Next Obligation.
  intros hd o c a a' F m Hc Ha Hr. destruct o; simplify_eq/=.
  - eapply step_insert_head; eauto using stq_insert_head_ok.
  - eapply step_insert_tail; eauto using stq_insert_tail_ok.
  - eapply step_insert_after; eauto. intros. eapply stq_insert_after_ok; [nonnull_solver|done].
  - eapply step_remove_head; eauto. intros. eapply stq_remove_head_ok; [nonnull_solver|done].
  - eapply step_remove; eauto. intros. eapply stq_remove_ok; [nonnull_solver|done..].
  - eapply step_remove_after; eauto. intros. eapply stq_remove_after_ok; [nonnull_solver|done].
  - eapply step_concat; eauto using stq_concat_ok.
  - eapply step_split_after; eauto using stq_split_after_ok.
  - eapply step_swap; eauto using stq_swap_ok.
  - eapply step_reverse; eauto using stq_reverse_ok.
Qed.

(** ** Properties *)

(** C32. Any program of [STAILQ] macros on two heads and a pool of elements,
    used as documented, runs without an invalid access or a failed
    assertion, with or without assertions and trashing: the search of
    [STAILQ_REMOVE] and the loop of [STAILQ_REVERSE] end, the two queues are
    those that the operations on lists give, and no other word changes. *)
Theorem stailq_programs hd os a a' F m :
  has_macros hd os = true -> asteps os a = Some a' ->
  qrep stailq stqe hd a F m ->
  wp (run_ops hd os) (fun _ => qrep stailq stqe hd a' F) m.
Proof. apply (run_ops_ok (Q := stailq_family)). Qed.

(** [STAILQ_LAST] finds the last element, or [NULL]; the loops visit the
    elements in order. *)
Theorem stailq_traversals head l F m :
  owns m (stailq head l ++ F) -> nonnull l ->
  STAILQ_LAST head m = Some (first_of (reverse l), m) /\
  STAILQ_FOREACH visit head [] m = Some (l, m) /\
  STAILQ_FOREACH_SAFE visit head [] m = Some (l, m) /\
  forall l1 x l2, l = l1 ++ x :: l2 ->
    STAILQ_FOREACH_FROM visit x head [] m = Some (x :: l2, m) /\
    STAILQ_FOREACH_FROM_SAFE visit x head [] m = Some (x :: l2, m).
Proof.
  intros Ho Hnn. pose proof (stailq_size _ _ _ _ Ho) as Hsz%Nat.lt_le_incl.
  pose proof (stq_chain_ok _ _ _ _ Ho) as Hnext.
  destruct (foreach_visits _ _ _ _ (stq_first_ok _ _ _ _ Ho) Hnext Hnn Hsz) as [H1 H2].
  split; [|split_and!; [done..|]].
  - apply wp_reads. destruct l as [|x l]; [unfold STAILQ_LAST; stq_run; done|].
    apply Forall_cons in Hnn as [Hx _]. unfold STAILQ_LAST, STAILQ_EMPTY. do 2 wp_step.
    eapply wp_mono; [by eapply stq_first_ok|]. intros f m' [-> ->]. cbn [first_or]. w_test. do 3 wp_step.
    eapply wp_mono; [by eapply stq_first_ok|]. intros f m' [-> ->]. wp_step. cbn [first_or]. w_test.
    destruct (x :: l) as [|y k _] eqn:Hl using rev_ind; [done|]. rewrite reverse_snoc.
    stq_words. w_steps. simpl. split; [lia|done].
  - intros l1 x l2 Hl. by eapply foreach_from_visits.
Qed.
End stailq.

(** ** The theorems at concrete queues *)

Module StailQueueWitness.
Import QueueDemo.
#[local] Existing Instance demo_layout.

Definition prog : list qop :=
  [INSERT_TAIL true 2000; INSERT_HEAD true 2100; INSERT_AFTER true 2100 2200; INSERT_TAIL true 2300;
   REVERSE true; SPLIT_AFTER true 2000; SWAP; CONCAT false; REMOVE false 2200;
   REMOVE_AFTER false 2300; REMOVE_HEAD false].

Lemma stailq_programs_witness :
  wp (run_ops hd0 prog)
    (fun _ => qrep stailq stqe hd0 (mk_aq [] [2100] [2300; 2000; 2200]) [(3000, 42)]) (mem0 stailq stqe).
Proof.
  apply (stailq_programs hd0 prog (mk_aq [] [] pool0)); [vm_compute; reflexivity..|].
  apply initial_rep. vm_compute. reflexivity.
Defined.
End StailQueueWitness.
