(* ===== verification/SList.v ===== *)
(** * Singly-linked lists of queue.h, word by word

    Models the [SLIST] macros of [server/queue.h] on memory words, like the
    other three families; [Queue] has the view of the server, in which a
    list element is one object.  [SLIST_FOREACH_PREVPTR] and
    [SLIST_REMOVE_PREVPTR], which work on the address of the pointer to an
    element, can only be stated here.  The last section relates the two
    models: what the macros do to the elements of [Queue], they do to the
    words. *)

From S2P Require Import Prelude Queue Words Links.

Section slist_words.
Context {L : layout}.

(** The addresses of the members. *)
Abbreviation slh_first head := (head) (only parsing).
Abbreviation sle_next elm := (elm + field) (only parsing).

(** ** The macros *)

Definition SLIST_FIRST (head : Z) : ST words Z := ld (slh_first head).
Definition SLIST_NEXT (elm : Z) : ST words Z := ld (sle_next elm).
Definition SLIST_EMPTY (head : Z) : ST words bool := f ← SLIST_FIRST head; mret (f =? NULL).
(** The load is atomic; here only one thread runs. *)
Definition SLIST_EMPTY_ATOMIC (head : Z) : ST words bool :=
  f ← ld (slh_first head); mret (f =? NULL).
Definition SLIST_END : Z := NULL.
Definition SLIST_HEAD_INITIALIZER (head : Z) : wordlist := [(slh_first head, NULL)].

Definition QMD_SLIST_CHECK_PREVPTR (prevp elm : Z) : ST words unit :=
  QMD_ASSERT (v ← ld prevp; mret (v =? elm)).
Definition SLIST_ASSERT_EMPTY (head : Z) : ST words unit := QMD_ASSERT (SLIST_EMPTY head).
Definition SLIST_ASSERT_NONEMPTY (head : Z) : ST words unit :=
  QMD_ASSERT (e ← SLIST_EMPTY head; mret (negb e)).

(** [QMD_SAVELINK(name, link)] where the link is reached through another:
    its address is computed in the build that overwrites it later. *)
Definition QMD_SAVELINK (link : ST words Z) : ST words Z :=
  if QUEUE_MACRO_DEBUG_TRASH then link else mret NULL.

Definition SLIST_INIT (head : Z) : ST words unit := st (slh_first head) NULL.

Definition SLIST_CONCAT (head1 head2 : Z) : ST words unit :=
  cur ← SLIST_FIRST head1;
  if cur =? NULL then
    first2 ← SLIST_FIRST head2;
    _ ← st (slh_first head1) first2;
    if negb (first2 =? NULL) then SLIST_INIT head2 else mret tt
  else
    first2 ← SLIST_FIRST head2;
    if negb (first2 =? NULL) then
      fuel ← fuel_of;
      cur ← find_link SLIST_NEXT fuel cur NULL;
      first2 ← SLIST_FIRST head2;
      _ ← st (sle_next cur) first2;
      SLIST_INIT head2
    else mret tt.

Definition SLIST_INSERT_AFTER (slistelm elm : Z) : ST words unit :=
  next ← SLIST_NEXT slistelm;
  _ ← st (sle_next elm) next;
  st (sle_next slistelm) elm.

Definition SLIST_INSERT_HEAD (head elm : Z) : ST words unit :=
  first ← SLIST_FIRST head;
  _ ← st (sle_next elm) first;
  st (slh_first head) elm.

Definition SLIST_REMOVE_AFTER (elm : Z) : ST words unit :=
  oldnext ← QMD_SAVELINK (next ← SLIST_NEXT elm; mret (sle_next next));
  next ← SLIST_NEXT elm;
  next2 ← SLIST_NEXT next;
  _ ← st (sle_next elm) next2;
  TRASHIT oldnext.

Definition SLIST_REMOVE_HEAD (head : Z) : ST words unit :=
  oldnext ← QMD_SAVELINK (first ← SLIST_FIRST head; mret (sle_next first));
  first ← SLIST_FIRST head;
  next ← SLIST_NEXT first;
  _ ← st (slh_first head) next;
  TRASHIT oldnext.

Definition SLIST_REMOVE (head elm : Z) : ST words unit :=
  first ← SLIST_FIRST head;
  if first =? elm then SLIST_REMOVE_HEAD head
  else
    cur ← SLIST_FIRST head;
    fuel ← fuel_of;
    cur ← find_link SLIST_NEXT fuel cur elm;
    SLIST_REMOVE_AFTER cur.

Definition SLIST_REMOVE_PREVPTR (prevp elm : Z) : ST words unit :=
  _ ← QMD_SLIST_CHECK_PREVPTR prevp elm;
  next ← SLIST_NEXT elm;
  _ ← st prevp next;
  TRASHIT (sle_next elm).

Definition SLIST_SPLIT_AFTER (head elm rest : Z) : ST words unit :=
  _ ← SLIST_ASSERT_NONEMPTY head;
  next ← SLIST_NEXT elm;
  _ ← st (slh_first rest) next;
  st (sle_next elm) NULL.

Definition SLIST_SWAP (head1 head2 : Z) : ST words unit :=
  swap_first ← SLIST_FIRST head1;
  first2 ← SLIST_FIRST head2;
  _ ← st (slh_first head1) first2;
  st (slh_first head2) swap_first.

Section foreach.
Context {A : Type} (body : Z -> A -> ST words (A * bool)).

Definition SLIST_FOREACH (head : Z) : A -> ST words A :=
  foreach SLIST_NEXT body (SLIST_FIRST head).
Definition SLIST_FOREACH_FROM (var head : Z) : A -> ST words A :=
  foreach_from SLIST_NEXT body (SLIST_FIRST head) var.
Definition SLIST_FOREACH_SAFE (head : Z) : A -> ST words A :=
  foreach_safe SLIST_NEXT body (SLIST_FIRST head).
Definition SLIST_FOREACH_FROM_SAFE (var head : Z) : A -> ST words A :=
  foreach_from_safe SLIST_NEXT body (SLIST_FIRST head) var.

(** [for (varp = ...; (var = *varp) != NULL; varp = &SLIST_NEXT(var))], with
    a statement that gets the element and the address of the pointer to it. *)
Variable bodyp : Z -> Z -> A -> ST words (A * bool).
Fixpoint foreach_prevptr (fuel : nat) (varp : Z) (acc : A) : ST words A :=
  match fuel with
  | O => st_ub
  | S fuel =>
      var ← ld varp;
      if negb (var =? NULL) then
        '(acc, go) ← bodyp var varp acc;
        if (go : bool) then foreach_prevptr fuel (sle_next var) acc else mret acc
      else mret acc
  end.
Definition SLIST_FOREACH_PREVPTR (head : Z) (acc : A) : ST words A :=
  fuel ← fuel_of; foreach_prevptr fuel (slh_first head) acc.
End foreach.

(** ** Words of a list *)

Definition sllist (head : Z) (l : list Z) : wordlist := snext head l ++ [(lastp head l, NULL)].
Definition sle (elm : Z) (v : Z * Z) : wordlist := [(sle_next elm, v.1)].

(** ** The macros implement the operations on the list *)

Ltac sl_words :=
  unfold sllist, sle in *; rewrite ?snext_app, ?lastp_app in *; cbn [snext lastp fst snd] in *.
Ltac sl_unfold :=
  unfold SLIST_INSERT_HEAD, SLIST_INSERT_AFTER, SLIST_REMOVE_AFTER, SLIST_REMOVE_HEAD,
    SLIST_REMOVE_PREVPTR, SLIST_SPLIT_AFTER, SLIST_SWAP, SLIST_INIT, SLIST_ASSERT_NONEMPTY,
    QMD_SLIST_CHECK_PREVPTR, SLIST_EMPTY, SLIST_FIRST, SLIST_NEXT, QMD_SAVELINK, TRASHIT.
Ltac sl_run := sl_words; sl_unfold; w_run; try by w_done.
Ltac sl_run_out :=
  sl_words; sl_unfold; destruct QUEUE_MACRO_DEBUG_TRASH; w_run; eexists (_, NULL); cbn [fst]; by w_done.

Implicit Types (head x y : Z) (l : list Z) (F : wordlist) (m : words).

Lemma sl_first_ok head l F m :
  owns m (sllist head l ++ F) -> wp (SLIST_FIRST head) (fun v m' => v = first_of l /\ m' = m) m.
Proof. intros Ho. unfold SLIST_FIRST. destruct l; sl_words; by w_ld. Qed.

Lemma sl_next_ok head l1 x l2 F m :
  owns m (sllist head (l1 ++ x :: l2) ++ F) ->
  wp (SLIST_NEXT x) (fun v m' => v = first_of l2 /\ m' = m) m.
Proof. intros Ho. unfold SLIST_NEXT. destruct l2; sl_words; by w_ld. Qed.

Lemma sl_chain_ok head l F m : owns m (sllist head l ++ F) ->
  forall l1 x l2, l = l1 ++ x :: l2 -> wp (SLIST_NEXT x) (fun v m' => v = first_of l2 /\ m' = m) m.
Proof. intros Ho l1 x l2 ->. by eapply sl_next_ok. Qed.

Lemma sllist_size head l F m : owns m (sllist head l ++ F) -> (length l < size m)%nat.
Proof.
  intros Ho%owns_size. unfold sllist in Ho. rewrite !length_app, length_snext in Ho. simpl in Ho. lia.
Qed.

Lemma sl_init_ok head v F m :
  owns m ([(slh_first head, v)] ++ F) ->
  wp (SLIST_INIT head) (fun _ m' => owns m' (SLIST_HEAD_INITIALIZER head ++ F) /\
    SLIST_HEAD_INITIALIZER head = sllist head []) m.
Proof. intros Ho. unfold SLIST_INIT. by w_run. Qed.

Lemma sl_insert_head_ok head x l v F m :
  owns m (sllist head l ++ sle x v ++ F) ->
  wp (SLIST_INSERT_HEAD head x) (fun _ m' => owns m' (sllist head (x :: l) ++ F)) m.
Proof. intros Ho. destruct l; sl_run. Qed.

Lemma sl_insert_after_ok head l1 y l2 x v F m :
  owns m (sllist head (l1 ++ y :: l2) ++ sle x v ++ F) ->
  wp (SLIST_INSERT_AFTER y x) (fun _ m' => owns m' (sllist head (l1 ++ y :: x :: l2) ++ F)) m.
Proof. intros Ho. destruct l2; sl_run. Qed.

Lemma sl_remove_head_ok head x l F m :
  owns m (sllist head (x :: l) ++ F) ->
  wp (SLIST_REMOVE_HEAD head) (fun _ m' => exists v, owns m' (sllist head l ++ sle x v ++ F)) m.
Proof. intros Ho. destruct l; sl_run_out. Qed.

Lemma sl_remove_after_ok head l1 y x l2 F m :
  owns m (sllist head (l1 ++ y :: x :: l2) ++ F) ->
  wp (SLIST_REMOVE_AFTER y)
    (fun _ m' => exists v, owns m' (sllist head (l1 ++ y :: l2) ++ sle x v ++ F)) m.
Proof. intros Ho. destruct l2; sl_run_out. Qed.

(** Removal through the pointer to the element, in the head or in the
    element before. *)
Lemma sl_remove_prevptr_ok head l1 x l2 F m :
  owns m (sllist head (l1 ++ x :: l2) ++ F) ->
  wp (SLIST_REMOVE_PREVPTR (lastp head l1) x)
    (fun _ m' => exists v, owns m' (sllist head (l1 ++ l2) ++ sle x v ++ F)) m.
Proof. intros Ho. destruct l2; sl_run_out. Qed.

Lemma sl_split_after_ok head1 head2 l1 y l2 F m :
  nonnull (l1 ++ y :: l2) -> owns m (sllist head1 (l1 ++ y :: l2) ++ sllist head2 [] ++ F) ->
  wp (SLIST_SPLIT_AFTER head1 y head2)
    (fun _ m' => owns m' (sllist head1 (l1 ++ [y]) ++ sllist head2 l2 ++ F)) m.
Proof.
  intros Hnn Ho. apply Forall_app in Hnn as [H1 [Hy H2]%Forall_cons].
  destruct l1 as [|x l1]; [|apply Forall_cons in H1 as [Hx _]]; destruct l2; sl_run.
Qed.

Lemma sl_swap_ok head1 head2 l1 l2 F m :
  owns m (sllist head1 l1 ++ sllist head2 l2 ++ F) ->
  wp (SLIST_SWAP head1 head2) (fun _ m' => owns m' (sllist head1 l2 ++ sllist head2 l1 ++ F)) m.
Proof. intros Ho. destruct l1, l2; sl_run. Qed.

Lemma sl_remove_ok head l1 x l2 F m :
  x ∉ l1 -> owns m (sllist head (l1 ++ x :: l2) ++ F) ->
  wp (SLIST_REMOVE head x)
    (fun _ m' => exists v, owns m' (sllist head (l1 ++ l2) ++ sle x v ++ F)) m.
Proof.
  intros Hx Ho. unfold SLIST_REMOVE. wp_step.
  eapply wp_mono; [by eapply sl_first_ok|]. intros f m' [-> ->]. destruct l1 as [|c l1].
  - cbn [first_or app]. rewrite Z.eqb_refl. by eapply sl_remove_head_ok.
  - apply not_elem_of_cons in Hx as [Hxc Hx]. cbn [first_or app].
    rewrite (proj2 (Z.eqb_neq c x)) by done. wp_step.
    eapply wp_mono; [by eapply sl_first_ok|]. intros f m' [-> ->]. cbn [first_or app].
    unfold fuel_of. do 3 wp_step. pose proof (sllist_size _ _ _ _ Ho) as Hsz.
    rewrite length_app in Hsz. simpl in Hsz.
    eapply wp_mono; [eapply (find_link_ok SLIST_NEXT _ m (sl_chain_ok _ _ _ _ Ho) l1 (x :: l2) []);
      [done..|lia]|].
    intros y m' [[l0 Heq]%last_around ->]. cbn [app] in Ho. rewrite Heq in Ho |- *.
    by eapply sl_remove_after_ok.
Qed.

Lemma sl_concat_ok head1 head2 l1 l2 F m :
  nonnull l1 -> nonnull l2 -> owns m (sllist head1 l1 ++ sllist head2 l2 ++ F) ->
  wp (SLIST_CONCAT head1 head2) (fun _ m' => owns m' (sllist head1 (l1 ++ l2) ++ sllist head2 [] ++ F)) m.
Proof.
  intros H1 H2 Ho. unfold SLIST_CONCAT. wp_step. eapply wp_mono; [by eapply sl_first_ok|].
  intros f m' [-> ->]. destruct l1 as [|x l1].
  - simpl. destruct l2 as [|y l2]; [|apply Forall_cons in H2 as [Hy _]]; sl_run.
  - apply Forall_cons in H1 as [Hx H1]. cbn [first_or]. w_test. wp_step.
    assert (owns m (sllist head2 l2 ++ sllist head1 (x :: l1) ++ F)) as Ho2 by w_done.
    eapply wp_mono; [by eapply sl_first_ok|]. intros f m' [-> ->].
    destruct l2 as [|y l2]; [by rewrite app_nil_r|]. apply Forall_cons in H2 as [Hy _].
    cbn [first_or]. w_test. unfold fuel_of. do 3 wp_step.
    pose proof (sllist_size _ _ _ _ Ho) as Hsz. simpl in Hsz.
    eapply wp_mono; [eapply (find_link_ok SLIST_NEXT _ m (sl_chain_ok _ _ _ _ Ho) l1 [] []);
      [by rewrite app_nil_r|by apply nonnull_null|lia]|].
    intros z m' [[l0 Hl0]%last_around ->]. pose proof (Hl0 []) as Heq. rewrite app_nil_r in Heq.
    rewrite Heq in *. clear Ho2. sl_run.
Qed.

(** *** Removal with the address of the pointer *)

(** The statement [if (var == elm) { SLIST_REMOVE_PREVPTR(varp, var, field); break; }]. *)
Definition remove_found (elm var varp : Z) (acc : unit) : ST words (unit * bool) :=
  if var =? elm then
    _ ← SLIST_REMOVE_PREVPTR varp var;
    mret (acc, false)
  else mret (acc, true).

Lemma sl_deref_ok head l0 r F m :
  owns m (sllist head (l0 ++ r) ++ F) ->
  wp (ld (lastp head l0)) (fun v m' => v = first_of r /\ m' = m) m.
Proof. intros Ho. destruct r; sl_words; by w_ld. Qed.

Lemma sl_foreach_prevptr_ok head x l2 F m : forall l1 l0 fuel,
  x ∉ l1 -> nonnull (l1 ++ x :: l2) -> (length l1 < fuel)%nat ->
  owns m (sllist head (l0 ++ l1 ++ x :: l2) ++ F) ->
  wp (foreach_prevptr (remove_found x) fuel (lastp head l0) tt)
    (fun _ m' => exists v, owns m' (sllist head (l0 ++ l1 ++ l2) ++ sle x v ++ F)) m.
Proof.
  induction l1 as [|y l1 IH]; intros l0 [|fuel] Hx Hnn Hf Ho; simpl in Hf; try lia;
    apply Forall_cons in Hnn as [Hz Hnn]; cbn [foreach_prevptr]; wp_step;
    (eapply wp_mono; [by eapply sl_deref_ok|]); intros v m' [-> ->]; cbn [first_or app]; w_test; wp_step;
    unfold remove_found at 1.
  - rewrite Z.eqb_refl. wp_step. eapply wp_mono; [by eapply (sl_remove_prevptr_ok head l0)|].
    intros [] m' Ho'. by wp_steps.
  - apply not_elem_of_cons in Hx as [Hxy Hx]. rewrite (proj2 (Z.eqb_neq y x)) by done. wp_step.
    specialize (IH (l0 ++ [y]) fuel Hx Hnn). rewrite lastp_app, <- !app_assoc in IH.
    apply IH; [lia|exact Ho].
Qed.

(** ** Singly-linked lists are a family *)

Definition slist_macro (hd : bool -> Z) (o : qop) : option (ST words unit) :=
  match o with
  | INSERT_HEAD i x => Some (SLIST_INSERT_HEAD (hd i) x)
  | INSERT_AFTER i y x => Some (SLIST_INSERT_AFTER y x)
  | REMOVE_HEAD i => Some (SLIST_REMOVE_HEAD (hd i))
  | REMOVE i x => Some (SLIST_REMOVE (hd i) x)
  | REMOVE_AFTER i y => Some (SLIST_REMOVE_AFTER y)
  | CONCAT i => Some (SLIST_CONCAT (hd i) (hd (negb i)))
  | SPLIT_AFTER i y => Some (SLIST_SPLIT_AFTER (hd i) y (hd (negb i)))
  | SWAP => Some (SLIST_SWAP (hd true) (hd false))
  | INSERT_TAIL _ _ | INSERT_BEFORE _ _ _ | REPLACE _ _ _ | REVERSE _ => None
  end.

#[export] Program Instance slist_family : QueueFamily := {
  qwords := sllist; ewords := sle; macro := slist_macro;
}.
Next Obligation.
  intros hd o c a a' F m Hc Ha Hr. destruct o; simplify_eq/=.
  - eapply step_insert_head; eauto using sl_insert_head_ok.
  - eapply step_insert_after; eauto using sl_insert_after_ok.
  - eapply step_remove_head; eauto using sl_remove_head_ok.
  - eapply step_remove; eauto using sl_remove_ok.
  - eapply step_remove_after; eauto using sl_remove_after_ok.
  - eapply step_concat; eauto using sl_concat_ok.
  - eapply step_split_after; eauto using sl_split_after_ok.
  - eapply step_swap; eauto using sl_swap_ok.
Qed.

(** ** Properties *)

(** C33. Any program of [SLIST] macros on two heads and a pool of elements,
    used as documented, runs without an invalid access or a failed
    assertion, with or without assertions and trashing: the searches of
    [SLIST_REMOVE] and [SLIST_CONCAT] end, the two lists are those that the
    operations on lists give, and no other word changes. *)
Theorem slist_programs hd os a a' F m :
  has_macros hd os = true -> asteps os a = Some a' ->
  qrep sllist sle hd a F m ->
  wp (run_ops hd os) (fun _ => qrep sllist sle hd a' F) m.
Proof. apply (run_ops_ok (Q := slist_family)). Qed.

(** Removing an element while walking the list with the address of the
    pointer to each element does what [SLIST_REMOVE] does with a search. *)
Theorem slist_prevptr_equiv head l1 x l2 F m :
  x ∉ l1 -> nonnull (l1 ++ x :: l2) -> owns m (sllist head (l1 ++ x :: l2) ++ F) ->
  let removed (_ : unit) m' := exists v, owns m' (sllist head (l1 ++ l2) ++ sle x v ++ F) in
  wp (SLIST_FOREACH_PREVPTR (remove_found x) head tt) removed m /\
  wp (SLIST_REMOVE head x) removed m.
Proof.
  intros Hx Hnn Ho removed. split; [|by apply sl_remove_ok].
  unfold SLIST_FOREACH_PREVPTR, fuel_of. do 2 wp_step.
  apply (sl_foreach_prevptr_ok head x l2 F m l1 []); try done.
  pose proof (sllist_size _ _ _ _ Ho) as Hsz. rewrite length_app in Hsz. simpl in Hsz. lia.
Qed.
End slist_words.

(** ** The two models of SLIST

    [view m head first h F]: the words of [m] are the head with the value
    [first], the links of the elements of the heap [h], and [F].  The build of
    the server does not overwrite the links of removed elements. *)

Section simulation.
Context {L : layout} {A : Type}.
Implicit Types (h : heap A) (m : words) (F : wordlist).

Definition node_words h : wordlist :=
  (fun '(x, n) => (x + field, Queue.sle_next n)) <$> map_to_list h.
Definition view m head first h F : Prop := owns m ((head, first) :: node_words h ++ F).

Lemma node_words_at h x n : h !! x = Some n ->
  node_words h ≡ₚ (x + field, Queue.sle_next n) :: node_words (delete x h).
Proof. intros Hx. unfold node_words. by rewrite <- (map_to_list_delete h x n Hx). Qed.

Lemma node_words_set h x n n' : h !! x = Some n ->
  node_words (<[x := n']> h) ≡ₚ (x + field, Queue.sle_next n') :: node_words (delete x h).
Proof.
  intros Hx. unfold node_words. rewrite <- insert_delete_eq.
  by rewrite map_to_list_insert by apply lookup_delete_eq.
Qed.

Lemma view_next m head first h F x p :
  view m head first h F -> Queue.SLIST_NEXT h x = Some p ->
  wp (SLIST_NEXT x) (fun v m' => v = p /\ m' = m) m.
Proof.
  unfold view, Queue.SLIST_NEXT. intros Ho Hx. apply fmap_Some in Hx as (n & Hx & ->).
  rewrite (node_words_at _ _ _ Hx) in Ho. unfold SLIST_NEXT. by w_ld.
Qed.

Lemma view_set_next m head first h F x p h' :
  view m head first h F -> set_next h x p = Some h' ->
  wp (st (x + field) p) (fun _ m' => view m' head first h' F) m.
Proof.
  unfold view, set_next. intros Ho Hs. destruct (h !! x) as [n|] eqn:Hx; simplify_eq/=.
  rewrite (node_words_at _ _ _ Hx) in Ho. w_st.
  by rewrite (node_words_set _ _ _ _ Hx).
Qed.

Lemma view_size m head first h F : view m head first h F -> (S (size h) <= size m)%nat.
Proof.
  intros Ho%owns_size. simpl in Ho. unfold node_words in Ho.
  rewrite length_app, length_fmap, length_map_to_list in Ho. lia.
Qed.

Lemma view_find_prev m head first h F elm y : view m head first h F ->
  forall fuel fuel' cur, (fuel <= fuel')%nat -> Queue.find_prev fuel h cur elm = Some y ->
    wp (find_link SLIST_NEXT fuel' cur elm) (fun v m' => v = y /\ m' = m) m.
Proof.
  intros Hv. induction fuel as [|fuel IH]; intros [|fuel'] cur Hf Hp; simpl in Hp; try done; [lia|].
  destruct (Queue.SLIST_NEXT h cur) as [nx|] eqn:Hn; simpl in Hp; [|done]. simpl. wp_step.
  eapply wp_mono; [by eapply view_next|]. intros v m' [-> ->].
  destruct (nx =? elm); simplify_eq; [done|]. simpl. wp_step.
  eapply wp_mono; [by eapply view_next|]. intros v m' [-> ->]. apply IH; [lia|done].
Qed.

Lemma view_first m head first h F : view m head first h F ->
  wp (SLIST_FIRST head) (fun v m' => v = first /\ m' = m) m.
Proof. unfold SLIST_FIRST, view. intros Ho. by w_ld. Qed.

Lemma view_set_first m head first h F p : view m head first h F ->
  wp (st head p) (fun _ m' => view m' head p h F) m.
Proof. unfold view. intros Ho. by w_st. Qed.

(** Use a fact about a computation that only reads. *)
Ltac w_reads H := wp_step; eapply wp_mono; [by eapply H|]; intros ? ? [-> ->].

Lemma view_remove_head m head first h F first' :
  QUEUE_MACRO_DEBUG_TRASH = false -> view m head first h F ->
  Queue.SLIST_REMOVE_HEAD first h = Some first' ->
  wp (SLIST_REMOVE_HEAD head) (fun _ m' => view m' head first' h F) m.
Proof.
  unfold Queue.SLIST_REMOVE_HEAD, Queue.SLIST_FIRST. intros Htrash Hv Hn.
  unfold SLIST_REMOVE_HEAD, QMD_SAVELINK, TRASHIT. rewrite Htrash. do 2 wp_step.
  w_reads view_first. w_reads view_next. wp_step.
  eapply wp_mono; [by eapply view_set_first|]. by intros [] m' Hv'.
Qed.

Lemma view_remove_after m head first h F cur h' :
  QUEUE_MACRO_DEBUG_TRASH = false -> view m head first h F ->
  Queue.SLIST_REMOVE_AFTER h cur = Some h' ->
  wp (SLIST_REMOVE_AFTER cur) (fun _ m' => view m' head first h' F) m.
Proof.
  unfold Queue.SLIST_REMOVE_AFTER. intros Htrash Hv Hra.
  destruct (Queue.SLIST_NEXT h cur) as [nx|] eqn:Hn; simplify_eq/=.
  destruct (Queue.SLIST_NEXT h nx) as [nx2|] eqn:Hn2; simplify_eq/=.
  unfold SLIST_REMOVE_AFTER, QMD_SAVELINK, TRASHIT. rewrite Htrash. do 2 wp_step.
  w_reads view_next. w_reads view_next. wp_step.
  eapply wp_mono; [by eapply view_set_next|]. by intros [] m' Hv'.
Qed.

(** The macros as the server's model has them, on a heap of list
    elements, are what the macros do to the words in memory: wherever the
    model of an insertion, a removal or a link has a result, the run on the
    words ends and leaves the words of that result. *)
Theorem slist_view_simulation m head first h F elm :
  QUEUE_MACRO_DEBUG_TRASH = false -> view m head first h F ->
  (forall p, Queue.SLIST_NEXT h elm = Some p -> SLIST_NEXT elm m = Some (p, m)) /\
  SLIST_FIRST head m = Some (Queue.SLIST_FIRST first, m) /\
  (forall first' h', Queue.SLIST_INSERT_HEAD first h elm = Some (first', h') ->
     wp (SLIST_INSERT_HEAD head elm) (fun _ m' => view m' head first' h' F) m) /\
  (forall first' h', Queue.SLIST_REMOVE first h elm = Some (first', h') ->
     wp (SLIST_REMOVE head elm) (fun _ m' => view m' head first' h' F) m).
Proof.
  intros Htrash Hv. split; [intros p Hp; apply wp_reads; by eapply view_next|].
  split; [apply wp_reads; by eapply view_first|]. split; intros first' h' Hop.
  - unfold Queue.SLIST_INSERT_HEAD, Queue.SLIST_FIRST in Hop.
    destruct (set_next h elm first) as [h1|] eqn:Hs; simplify_eq/=. unfold SLIST_INSERT_HEAD.
    w_reads view_first. wp_step. eapply wp_mono; [by eapply view_set_next|].
    intros [] m' Hv'. by eapply view_set_first.
  - unfold Queue.SLIST_REMOVE in Hop. change (Queue.SLIST_FIRST first) with first in Hop.
    unfold SLIST_REMOVE. w_reads view_first. destruct (first =? elm).
    + destruct (Queue.SLIST_REMOVE_HEAD first h) as [p|] eqn:Hn; simplify_eq/=.
      by eapply view_remove_head.
    + destruct (find_prev _ _ _ _) as [cur|] eqn:Hp; simplify_eq/=.
      destruct (Queue.SLIST_REMOVE_AFTER h cur) as [h1|] eqn:Hra; simplify_eq/=.
      w_reads view_first. unfold fuel_of. do 3 wp_step.
      eapply wp_mono; [eapply view_find_prev; [done|by eapply view_size|done]|]. intros v m' [-> ->].
      by eapply view_remove_after.
Qed.
End simulation.

(** ** The theorems at concrete lists *)

Module SListWitness.
Import QueueDemo.
#[local] Existing Instance demo_layout.

Definition prog : list qop :=
  [INSERT_HEAD true 2000; INSERT_AFTER true 2000 2100; INSERT_HEAD false 2200; INSERT_HEAD false 2300;
   SWAP; CONCAT true; REMOVE true 2000; REMOVE_AFTER true 2300; SPLIT_AFTER true 2300; REMOVE_HEAD false].

Lemma slist_programs_witness :
  wp (run_ops hd0 prog)
    (fun _ => qrep sllist sle hd0 (mk_aq [2300] [] [2100; 2200; 2000]) [(3000, 42)]) (mem0 sllist sle).
Proof.
  apply (slist_programs hd0 prog (mk_aq [] [] pool0)); [vm_compute; reflexivity..|].
  apply initial_rep. vm_compute. reflexivity.
Defined.

Definition list3 : wordlist := sllist 1000 [2100; 2000; 2200].

Lemma slist_prevptr_equiv_witness :
  let removed (_ : unit) m' := exists v, owns m' (sllist 1000 [2100; 2200] ++ sle 2000 v ++ []) in
  wp (SLIST_FOREACH_PREVPTR (remove_found 2000) 1000 tt) removed (list_to_map list3) /\
  wp (SLIST_REMOVE 1000 2000) removed (list_to_map list3).
Proof.
  apply (slist_prevptr_equiv 1000 [2100] 2000 [2200] []); [set_solver|by repeat constructor|].
  rewrite app_nil_r. apply owns_list_to_map. apply (bool_decide_eq_true_1 _). vm_compute. reflexivity.
Defined.

(** The list of [Queue.QueueWitness] in memory, in a build without debug
    options. *)
Definition plain : layout := mk_layout 8 false false.
Lemma slist_view_simulation_witness :
  exists first' h', Queue.SLIST_REMOVE 16 QueueWitness.h0 32 = Some (first', h') /\
    wp (@SLIST_REMOVE plain 8 32) (fun _ m' => @view plain _ m' 8 first' h' [])
      (list_to_map ((8, 16) :: @node_words plain _ QueueWitness.h0)).
Proof.
  destruct (Queue.remove_ok _ 16 [16] 32 [48] QueueWitness.chain0) as (first' & h' & Hrun & _).
  exists first', h'. split; [exact Hrun|].
  eapply (@slist_view_simulation plain _ _ 8 16 QueueWitness.h0 [] 32); [reflexivity| |exact Hrun].
  unfold view. rewrite app_nil_r. apply owns_list_to_map. apply (bool_decide_eq_true_1 _). vm_compute. reflexivity.
Defined.
End SListWitness.
