(* ===== verification/Server.v ===== *)
(** * The socket server's main thread

    Models [server/aesdsocket.c] and the structures of
    [server/aesdsocket.h]: the signal handlers, [reap_threads] and [main]
    with its setup, its accept loop and its shutdown.  The state is the
    trace of calls and the list of connection nodes, on the heap of nodes of
    [Queue]; the member [done] of a node and the flag [server_running] are
    shared with other threads and signal handlers, so that reading them is
    an event the environment answers.  Logging calls are left out. *)

From S2P Require Import Prelude Posix Queue Handler.

(** ** Data *)

Definition SERVER_PORT : Z := 9000.
Definition EXIT_FAILURE : Z := 1.
Definition SIGINT : Z := 2.
Definition SIGALRM : Z := 14.
Definition SIGTERM : Z := 15.
Definition EINTR : Z := 4.
Definition sizeof_conn_node : Z := 56.

(** The members of [conn_node_t] a thread does not share; the link is that
    of [node], [done] is read and written by events. *)
Record conn_node : Type := mk_conn_node {
  thread_id : Z;
  cn_clfd : Z;
  cn_file_mutex : Z;
}.

(** The state of the main thread: [server_info.conn_node_head], the nodes,
    and the trace. *)
Record server : Type := mk_server {
  s_trace : list event;
  conn_node_head : Z;
  nodes : heap conn_node;
}.

(** ** Signal handlers *)

(** The new value of [server_running]. *)
Definition signal_handler (signum server_running : Z) : Z :=
  if negb (signum =? SIGINT) && negb (signum =? SIGTERM) then server_running else 0.

Section server.
Variable E : env.
Variable char_device : bool.
(** The id [pthread_create] or [timer_create] stores. *)
Variable id_of : answer -> Z.
(** The addresses of [main]'s [file_mutex] and of the member of the same
    name of [server_info]. *)
Variables (file_mutex server_info_file_mutex : Z).

(** The text of the time stamp is what [strftime] makes of the time. *)
Definition alarm_handler (sig : Z) (timestamp : list byte) : ST proc unit :=
  if negb (sig =? SIGALRM) then mret tt
  else
    _ ← sys E (Lock server_info_file_mutex);
    fd ← sysv E (Open (FILENAME char_device) (Z.lor (Z.lor O_WRONLY O_CREAT) O_APPEND) 420);
    if fd <? 0 then
      _ ← sys E (Unlock server_info_file_mutex);
      mret tt
    else
      _ ← sys E (Write fd (timestamp ++ [newline]));
      _ ← sys E (Close fd);
      _ ← sys E (Unlock server_info_file_mutex);
      mret tt.

(** ** Calls of the main thread *)

Definition ssys (c : syscall) : ST server answer := fun s =>
  let a := E (s_trace s) c in
  Some (a, mk_server (s_trace s ++ [(c, a)]) (conn_node_head s) (nodes s)).
Definition ssysv (c : syscall) : ST server Z := a ← ssys c; mret (rv a).

Definition set_list (first : Z) (h : heap conn_node) : ST server unit :=
  st_modify (fun s => mk_server (s_trace s) first h).
Definition get_node (p : Z) : ST server (node conn_node) := st_opt (fun s => nodes s !! p).
(** Store to a node, the link apart. *)
Definition put_node (p : Z) (v : conn_node) : ST server unit :=
  n ← get_node p;
  st_modify (fun s => mk_server (s_trace s) (conn_node_head s)
                        (<[p := mk_node (sle_next n) v]> (nodes s))).

Definition free_node (p : Z) : ST server unit :=
  _ ← get_node p;
  _ ← ssys (Free p);
  st_modify (fun s => mk_server (s_trace s) (conn_node_head s) (delete p (nodes s))).

Definition list_remove (p : Z) : ST server unit :=
  '(first, h) ← st_opt (fun s => SLIST_REMOVE (conn_node_head s) (nodes s) p);
  set_list first h.

Definition list_insert_head (p : Z) : ST server unit :=
  '(first, h) ← st_opt (fun s => SLIST_INSERT_HEAD (conn_node_head s) (nodes s) p);
  set_list first h.

(** ** [reap_threads]

    The locals of the loop are [cur_node] and [reaped_count]. *)

Definition reap_body (x : Z * Z) : ST server (option (Z * Z + Z)) :=
  let '(cur_node, reaped_count) := x in
  if cur_node =? NULL then mret (Some (inr reaped_count))
  else
    tmp_node ← st_opt (fun s => SLIST_NEXT (nodes s) cur_node);
    done ← ssysv (LoadDone cur_node);
    if negb (done =? 0) then
      n ← get_node cur_node;
      _ ← ssys (Join (thread_id (val n)));
      _ ← list_remove cur_node;
      _ ← free_node cur_node;
      mret (Some (inl (tmp_node, s32 (reaped_count + 1))))
    else mret (Some (inl (tmp_node, reaped_count))).

(** A list has no more elements than there are nodes. *)
Definition reap_threads : ST server (option Z) :=
  s ← st_get;
  iterate (S (S (size (nodes s)))) reap_body (SLIST_FIRST (conn_node_head s), 0).

(** ** [main] *)

(** One round of the accept loop, [server_running] having been read. *)
Definition accept_round (sockfd : Z) : ST server (option (unit + unit)) :=
  clfd ← ssysv (Accept sockfd);
  if clfd <? 0 then
    errno ← ssysv LoadErrno;
    running ← (if errno =? EINTR then ssysv LoadRunning else mret 1);
    if running =? 0 then mret (Some (inr tt)) else mret (Some (inl tt))
  else
    new_node ← ssysv (Malloc sizeof_conn_node);
    if new_node =? NULL then
      _ ← ssys (Close clfd);
      mret (Some (inl tt))
    else
      _ ← st_modify (fun s => mk_server (s_trace s) (conn_node_head s)
            (<[new_node := mk_node NULL
                 (mk_conn_node 0 clfd (if char_device then NULL else file_mutex))]> (nodes s)));
      _ ← ssys (ClearDone new_node);
      _ ← list_insert_head new_node;
      r ← ssys (Create new_node);
      if negb (rv r =? 0) then
        _ ← list_remove new_node;
        _ ← free_node new_node;
        _ ← ssys (Close clfd);
        mret (Some (inl tt))
      else
        _ ← put_node new_node
              (mk_conn_node (id_of r) clfd (if char_device then NULL else file_mutex));
        _ ←? reap_threads;
        mret (Some (inl tt)).

Definition accept_body (sockfd : Z) (_ : unit) : ST server (option (unit + unit)) :=
  running ← ssysv LoadRunning;
  if running =? 0 then mret (Some (inr tt)) else accept_round sockfd.

(** The timer of the build without the device. *)
Definition setup_alarm : ST server (option Z) :=
  if char_device then mret None
  else
    r ← ssysv (Sigaction SIGALRM);
    if negb (r =? 0) then mret (Some EXIT_FAILURE)
    else
      a ← ssys TimerCreate;
      if negb (rv a =? 0) then mret (Some EXIT_FAILURE)
      else
        r ← ssysv (TimerSettime (id_of a) 10);
        if negb (r =? 0) then mret (Some EXIT_FAILURE) else mret None.

(** Socket, address, daemon and signals: the status with which the
    process leaves, or the socket. *)
Definition setup (argc : Z) (dash_d : bool) : ST server (Z + Z) :=
  if 2 <? argc then mret (inl EXIT_FAILURE)
  else
    _ ← st_modify (fun s => mk_server (s_trace s) SLIST_INIT (nodes s));
    sockfd ← ssysv Socket;
    if sockfd <? 0 then mret (inl EXIT_FAILURE)
    else
      r ← ssysv (Bind sockfd SERVER_PORT);
      if r <? 0 then
        _ ← ssys (Close sockfd);
        mret (inl EXIT_FAILURE)
      else
        d ← (if (1 <? argc) && dash_d then ssysv Daemon else mret 0);
        if d <? 0 then
          _ ← ssys (Close sockfd);
          mret (inl EXIT_FAILURE)
        else
          r ← ssysv (Sigaction SIGINT);
          if negb (r =? 0) then mret (inl EXIT_FAILURE)
          else
            r ← ssysv (Sigaction SIGTERM);
            if negb (r =? 0) then mret (inl EXIT_FAILURE)
            else
              e ← setup_alarm;
              match e with
              | Some status => mret (inl status)
              | None =>
                  _ ← ssys (Listen sockfd 5);
                  mret (inr sockfd)
              end.

Definition shutdown (sockfd : Z) : ST server Z :=
  _ ← ssys (Close sockfd);
  _ ← (if char_device then mret tt
       else
         _ ← ssys (DestroyMutex file_mutex);
         _ ← ssys (Unlink (FILENAME char_device));
         mret tt);
  mret 0.

(** The exit status; [None] when the accept loop is cut off. *)
Definition main (fuel : nat) (argc : Z) (dash_d : bool) : ST server (option Z) :=
  r ← setup argc dash_d;
  match r with
  | inl status => mret (Some status)
  | inr sockfd =>
      _ ←? iterate fuel (accept_body sockfd) tt;
      _ ←? reap_threads;
      r ← shutdown sockfd;
      mret (Some r)
  end.
End server.
