(* ===== verification/ServerSpec.v ===== *)
(** * Correctness of the main thread

    [owns s l] is the invariant of the main thread: the list of connections
    is well formed, has the addresses [l], and these are exactly the nodes
    the thread has allocated and not freed.  [reaped] says what a pass of
    [reap_threads] does to a list.  The theorems show that the main thread
    never follows an invalid pointer, joins and frees a node exactly when
    its thread has announced its end, and gives back everything on its error
    paths. *)

From S2P Require Import Prelude Posix Queue Handler HandlerSpec Server.

(** How often [server_running] was read. *)
Definition is_load (e : event) : bool :=
  match e.1 with
  | LoadRunning => true
  | _ => false
  end.
Definition loads (t : list event) : nat := length (List.filter is_load t).

Lemma loads_app t1 t2 : loads (t1 ++ t2) = (loads t1 + loads t2)%nat.
Proof. unfold loads. by rewrite List.filter_app, length_app. Qed.

Section reaping.
Context {E : env} {EOk : EnvOk E}.
Implicit Types (s : server) (tr : list event) (h : heap conn_node) (l : list Z).

(** ** Rules *)

Lemma wp_ssys c Q tr first h :
  (forall a, a = E tr c -> Q a (mk_server (tr ++ [(c, a)]) first h)) ->
  wp (ssys E c) Q (mk_server tr first h).
Proof. intros H. by apply (H (E tr c)). Qed.

Lemma wp_ssysv c Q tr first h :
  (forall a, a = E tr c -> Q (rv a) (mk_server (tr ++ [(c, a)]) first h)) ->
  wp (ssysv E c) Q (mk_server tr first h).
Proof. intros H. by apply (H (E tr c)). Qed.

Record owns (s : server) (l : list Z) : Prop := {
  owns_list : slist (nodes s) (conn_node_head s) l;
  owns_dom : dom (nodes s) = list_to_set l;
  owns_live : live (s_trace s) = dom (nodes s);
}.

Lemma owns_nodup s l : owns s l -> NoDup l.
Proof. intros H. eapply slist_nodup, owns_list, H. Qed.

(** Calls that neither allocate nor free. *)
Lemma owns_event tr u first h l :
  (forall x, live_from x u = x) -> owns (mk_server tr first h) l -> owns (mk_server (tr ++ u) first h) l.
Proof. intros Hu [H1 H2 H3]. split; try done. simpl in *. by rewrite live_app, Hu. Qed.

(** Removing a node from the list and freeing it. *)
Lemma unlink_free_ok {B} (K : ST server B) tr first h l1 p l2 Q :
  owns (mk_server tr first h) (l1 ++ p :: l2) ->
  (forall a first' h', owns (mk_server (tr ++ [(Free p, a)]) first' h') (l1 ++ l2) ->
     (forall x, x <> p -> val <$> h' !! x = val <$> h !! x) ->
     (l1 = [] -> first' = default NULL (head l2)) ->
     wp K Q (mk_server (tr ++ [(Free p, a)]) first' h')) ->
  wp (_ ← list_remove p; _ ← free_node E p; K) Q (mk_server tr first h).
Proof.
  intros Hown HQ. pose proof (owns_nodup _ _ Hown) as Hnd. destruct Hown as [Hl Hdom Hlive]. simpl in *.
  destruct (remove_ok _ _ _ _ _ Hl) as (first' & h' & Hrun & Hl' & Hout & Hval).
  assert (p ∉ l1 ++ l2) as Hp.
  { apply NoDup_app in Hnd as (_ & Hd & Hn2). apply NoDup_cons in Hn2 as [Hn2 _]. set_solver. }
  destruct (slist_lookup _ _ _ p Hl) as [Hp0 [n Hn]]; [set_solver|].
  assert (is_Some (h' !! p)) as [n' Hn'].
  { specialize (Hval p). rewrite Hn in Hval. apply fmap_Some in Hval as (n' & ? & _). eauto. }
  assert (dom h' = dom h) as Hdom'.
  { apply set_eq. intros x. rewrite !elem_of_dom. specialize (Hval x).
    destruct (h' !! x), (h !! x); simpl in Hval; simplify_eq; split; by eauto. }
  wp_step. unfold list_remove. wp_step. eapply wp_opt; [exact Hrun|]. apply wp_modify.
  wp_step. unfold free_node. wp_step. eapply wp_opt; [exact Hn'|]. wp_step. apply wp_ssys. intros a _.
  apply wp_modify. apply HQ.
  - split; simpl.
    + by apply slist_delete.
    + rewrite dom_delete_L, Hdom', Hdom. set_solver.
    + rewrite live_app, Hlive, dom_delete_L, Hdom'. done.
  - intros x Hx. rewrite lookup_delete_ne by done. apply Hval.
  - intros ->. simpl in Hl'. destruct l2 as [|y l2]; simpl in *; tauto.
Qed.

(** ** Reaping *)

(** A pass over the list [l]: its events, the nodes left, the number of
    nodes freed. *)
Inductive reaped h : list Z -> list event -> list Z -> Z -> Prop :=
| reaped_end : reaped h [] [] [] 0
| reaped_keep p l t l' k a :
    rv a = 0 -> reaped h l t l' k ->
    reaped h (p :: l) ((LoadDone p, a) :: t) (p :: l') k
| reaped_free p l t l' k a b c v :
    rv a <> 0 -> val <$> h !! p = Some v -> reaped h l t l' k ->
    reaped h (p :: l)
      ((LoadDone p, a) :: (Join (thread_id v), b) :: (Free p, c) :: t) l' (1 + k).

Lemma reaped_ext h h' l t l' k :
  (forall x, x ∈ l -> val <$> h' !! x = val <$> h !! x) -> reaped h' l t l' k -> reaped h l t l' k.
Proof.
  intros Hext Hr. induction Hr as [|p l t l' k a Ha Hr IH|p l t l' k a b c v Ha Hv Hr IH].
  - constructor.
  - constructor; [done|]. apply IH. intros x Hx. apply Hext. by right.
  - eapply reaped_free; [done| |].
    + rewrite <- Hext; [done|left].
    + apply IH. intros x Hx. apply Hext. by right.
Qed.

Lemma reaped_subset h l t l' k x : reaped h l t l' k -> x ∈ l' -> x ∈ l.
Proof. induction 1; set_solver. Qed.

(** The loop with [rem] ahead and [kept] behind. *)
Lemma reap_loop_ok rem : forall fuel kept cur k tr first h,
  owns (mk_server tr first h) (kept ++ rem) -> cur = default NULL (head rem) ->
  (length rem < fuel)%nat ->
  wp (iterate fuel (reap_body E) (cur, s32 k)) (fun r s' => exists t rem' k' first' h',
    r = Some (s32 (k + k')) /\ s' = mk_server (tr ++ t) first' h' /\ reaped h rem t rem' k' /\
    owns s' (kept ++ rem') /\ (forall x, x ∈ kept ++ rem' -> val <$> h' !! x = val <$> h !! x))
    (mk_server tr first h).
Proof.
  induction rem as [|p rem IH]; intros [|fuel] kept cur k tr first h Hown -> Hf;
    try (simpl in Hf; lia); cbn [iterate head default from_option id]; unfold obind; wp_step; cbn [reap_body].
  - rewrite Z.eqb_refl. wp_step. wp_step. exists [], [], 0, first, h. rewrite !app_nil_r, Z.add_0_r in *.
    split_and!; try done. constructor.
  - pose proof (owns_list _ _ Hown) as Hl. simpl in Hl.
    destruct (slist_lookup _ _ _ p Hl) as [Hp [n Hn]]; [set_solver|].
    assert (sle_next n = default NULL (head rem)) as Hnext.
    { apply slist_suffix in Hl. simpl in Hl. destruct Hl as (_ & _ & n' & Hn' & Hl). simplify_eq.
      destruct rem; simpl in *; tauto. }
    rewrite (proj2 (Z.eqb_neq _ _) Hp). wp_step. apply wp_opt with (a := sle_next n).
    { simpl. unfold SLIST_NEXT. by rewrite Hn. }
    wp_step. apply wp_ssysv. intros a _. cbv beta.
    assert (owns (mk_server (tr ++ [(LoadDone p, a)]) first h) (kept ++ p :: rem)) as Hown1
      by by apply owns_event.
    simpl in Hf. destruct (Z.eqb_spec (rv a) 0) as [Ha|Ha]; cbn [negb].
    + wp_step. cbv iota. change (p :: rem) with ([p] ++ rem) in Hown1. rewrite app_assoc in Hown1.
      eapply wp_mono; [eapply (IH fuel (kept ++ [p])); [done|done|lia]|].
      intros r s' (t & rem' & k' & first' & h' & -> & -> & Hr & Ho & Hv).
      exists ((LoadDone p, a) :: t), (p :: rem'), k', first', h'.
      rewrite <- !app_assoc in *. split_and!; try done. by constructor.
    + wp_step. eapply wp_opt; [exact Hn|]. wp_step. apply wp_ssys. intros b _. cbv beta.
      assert (owns (mk_server ((tr ++ [(LoadDone p, a)]) ++ [(Join (thread_id (val n)), b)]) first h)
        (kept ++ p :: rem)) as Hown2 by by apply owns_event.
      rewrite s32_add.
      apply (unlink_free_ok _ _ _ _ _ _ _ _ Hown2). intros c first1 h1 Hown3 Hv1 _. wp_step. cbv iota.
      eapply wp_mono; [eapply (IH fuel kept); [done|done|lia]|].
      intros r s' (t & rem' & k' & first' & h' & -> & -> & Hr & Ho & Hv).
      exists ((LoadDone p, a) :: (Join (thread_id (val n)), b) :: (Free p, c) :: t), rem', (1 + k'), first', h'.
      pose proof (owns_nodup _ _ Hown) as Hnd. apply NoDup_app in Hnd as (_ & Hdis & Hnd).
      apply NoDup_cons in Hnd as [Hnin _].
      split; [do 2 f_equal; lia|]. rewrite <- !app_assoc in *. side. split; [|side].
      * eapply reaped_free; [done|by rewrite Hn|]. eapply reaped_ext; [|exact Hr].
        intros x Hx. apply Hv1. by intros ->.
      * intros x Hx. rewrite Hv by done. apply Hv1. intros ->.
        apply elem_of_app in Hx as [Hx|Hx]; [apply (Hdis p Hx); left|].
        apply Hnin. by eapply reaped_subset.
Qed.

Lemma reap_threads_ok tr first h l :
  owns (mk_server tr first h) l ->
  wp (reap_threads E) (fun r s' => exists t l' k first' h',
    r = Some (s32 k) /\ s' = mk_server (tr ++ t) first' h' /\ reaped h l t l' k /\
    owns s' l' /\ (forall x, x ∈ l' -> val <$> h' !! x = val <$> h !! x)) (mk_server tr first h).
Proof.
  intros Hown. unfold reap_threads. wp_step. change (wp st_get ?Q ?s) with (Q s s). cbv beta.
  pose proof (owns_list _ _ Hown) as Hl. simpl in Hl. pose proof (slist_length _ _ _ Hl).
  eapply wp_mono; [eapply (reap_loop_ok l _ [] _ 0 tr first h Hown); [|simpl; lia]|].
  - destruct l; simpl in *; tauto.
  - intros r s' (t & l' & k & first' & h' & H1 & H2 & H3 & H4 & H5). exists t, l', k, first', h'.
    rewrite Z.add_0_l in H1. done.
Qed.

Lemma reaped_quiet h l t l' k : reaped h l t l' k -> (forall x, fds_from x t = x).
Proof. induction 1; intros x; simpl; auto. Qed.

Definition good (s : server) : Prop := exists l, owns s l.
End reaping.

(** ** The accept loop *)

Section server_spec.
Context {E : env} {EOk : EnvOk E}.
Variables (char_device : bool) (id_of : answer -> Z) (file_mutex : Z).
Implicit Types (s : server) (tr : list event) (h : heap conn_node) (l : list Z).

(** A new node at the head of the list. *)
Lemma insert_ok tr first h l a v :
  owns (mk_server tr first h) l -> rv a <> NULL -> rv a ∉ live tr ->
  exists h', SLIST_INSERT_HEAD first (<[rv a := mk_node NULL v]> h) (rv a) = Some (rv a, h') /\
    owns (mk_server (tr ++ [(Malloc sizeof_conn_node, a)]) (rv a) h') (rv a :: l).
Proof.
  intros [Hl Hdom Hlive] Hp Hnew. simpl in *.
  assert (rv a ∉ l) as Hnin.
  { rewrite Hlive, Hdom in Hnew. by rewrite elem_of_list_to_set in Hnew. }
  destruct (insert_head_ok (<[rv a := mk_node NULL v]> h) first l (rv a) (mk_node NULL v))
    as [Hins Hl']; [by apply slist_insert_other|done|done|apply lookup_insert_eq|].
  eexists. split; [exact Hins|]. split; simpl.
  - exact Hl'.
  - rewrite !dom_insert_L, Hdom. simpl. set_solver.
  - rewrite live_app, Hlive. cbn. unfold live_step. simpl.
    rewrite (proj2 (Z.eqb_neq _ _) Hp), !dom_insert_L. set_solver.
Qed.

Lemma put_node_ok tr first h l p v :
  owns (mk_server tr first h) l -> p ∈ l ->
  wp (put_node p v) (fun _ s' => exists h', s' = mk_server tr first h' /\ owns s' l)
    (mk_server tr first h).
Proof.
  intros Hown Hp. destruct Hown as [Hl Hdom Hlive]. simpl in *.
  destruct (slist_lookup _ _ _ p Hl Hp) as [_ [n Hn]]. unfold put_node. wp_step.
  eapply wp_opt; [exact Hn|]. apply wp_modify. eexists. side. split; simpl.
  - eapply slist_frame; [|done]. intros x _. destruct (decide (x = p)) as [->|].
    + by rewrite lookup_insert_eq, Hn.
    + by rewrite lookup_insert_ne.
  - rewrite dom_insert_L, Hdom. set_solver.
  - rewrite dom_insert_L, Hlive. apply (elem_of_dom_2 h p) in Hn. set_solver.
Qed.

(** What a round does with descriptors: it keeps none, or it has started
    a thread for the one it accepted. *)
Definition handed_over (sockfd : Z) (t : list event) : Prop :=
  (forall x, fds_from x t ⊆ x) \/
  exists p r a, (Accept sockfd, a) ∈ t /\ 0 <= rv a /\ (Create p, r) ∈ t /\ rv r = 0 /\
    forall x, fds_from x t = {[rv a]} ∪ x.

Definition round_post (sockfd : Z) (tr : list event) (r : option (unit + unit)) (s' : server) : Prop :=
  r <> None /\ good s' /\ exists t, s_trace s' = tr ++ t /\ handed_over sockfd t.

(** The thread could not be started: everything is undone. *)
Lemma undo_ok sockfd tr u first h p l clfd :
  owns (mk_server (tr ++ u) first h) (p :: l) -> (forall x, fds_from x u = {[clfd]} ∪ x) ->
  wp (_ ← list_remove p; _ ← free_node E p; _ ← ssys E (Close clfd); mret (Some (inl tt)))
    (round_post sockfd tr) (mk_server (tr ++ u) first h).
Proof.
  intros Hown Hfds. apply (unlink_free_ok _ _ _ _ [] p l _ Hown).
  intros a first' h' Hown' _ _. wp_step. apply wp_ssys. intros b _. wp_step.
  side. split; [exists l; by apply owns_event|].
  eexists. rewrite <- !app_assoc. side. left. intros x.
  unfold fds_from in *. rewrite foldl_app, Hfds. cbn. unfold fds_step. simpl. set_solver.
Qed.

Lemma start_thread_ok sockfd tr u first h l a v :
  owns (mk_server (tr ++ u) first h) l -> (forall x, live_from x u = x) ->
  (Accept sockfd, a) ∈ u -> 0 <= rv a -> (forall x, fds_from x u = {[rv a]} ∪ x) ->
  wp (new_node ← ssysv E (Malloc sizeof_conn_node);
      if new_node =? NULL then
        _ ← ssys E (Close (rv a)); mret (Some (inl tt))
      else
        _ ← st_modify (fun s => mk_server (s_trace s) (conn_node_head s)
              (<[new_node := mk_node NULL (v 0)]> (nodes s)));
        _ ← ssys E (ClearDone new_node);
        _ ← list_insert_head new_node;
        r ← ssys E (Create new_node);
        if negb (rv r =? 0) then
          _ ← list_remove new_node; _ ← free_node E new_node;
          _ ← ssys E (Close (rv a)); mret (Some (inl tt))
        else
          _ ← put_node new_node (v (id_of r));
          _ ←? reap_threads E;
          mret (Some (inl tt)))
    (round_post sockfd tr) (mk_server (tr ++ u) first h).
Proof.
  intros Hown Hlu Ha Hge Hfds. wp_step. apply wp_ssysv. intros m Hm. cbv beta.
  destruct (Z.eqb_spec (rv m) NULL) as [Hn|Hn].
  - wp_step. apply wp_ssys. intros b _. wp_step. side. split.
    + exists l. apply owns_event; [done|]. destruct Hown as [H1 H2 H3]. split; try done. simpl in *.
      rewrite live_app, H3. cbn. unfold live_step. simpl. by rewrite Hn.
    + eexists. rewrite <- !app_assoc. side. left. intros x.
      unfold fds_from in *. rewrite foldl_app, Hfds. cbn. unfold fds_step. simpl. set_solver.
  - assert (rv m ∉ live (tr ++ u)) as Hnew by (subst m; by apply malloc_fresh).
    destruct (insert_ok _ _ _ _ m (v 0) Hown Hn Hnew) as (h1 & Hins & Hown1).
    wp_step. apply wp_modify. wp_step. apply wp_ssys. intros cd _. wp_step.
    unfold list_insert_head. wp_step. eapply wp_opt; [exact Hins|]. apply wp_modify. simpl.
    wp_step. apply wp_ssys. intros r _. cbv beta.
    set (p := rv m) in *. set (u' := [(Malloc sizeof_conn_node, m); (ClearDone p, cd); (Create p, r)]).
    assert (owns (mk_server (tr ++ (u ++ u')) p h1) (p :: l)) as Hown2.
    { rewrite app_assoc. change u' with ([(Malloc sizeof_conn_node, m)] ++ [(ClearDone p, cd); (Create p, r)]).
      rewrite (app_assoc (tr ++ u)). by apply owns_event. }
    assert (forall x, fds_from x (u ++ u') = {[rv a]} ∪ x) as Hfds'.
    { intros x. unfold fds_from in *. by rewrite foldl_app, Hfds. }
    replace ((((tr ++ u) ++ [(Malloc sizeof_conn_node, m)]) ++ [(ClearDone p, cd)]) ++ [(Create p, r)])
      with (tr ++ (u ++ u')) by by rewrite <- !app_assoc.
    destruct (Z.eqb_spec (rv r) 0) as [Hr|Hr]; cbn [negb]; [|by eapply undo_ok].
    wp_step. eapply wp_mono; [eapply put_node_ok; [done|left]|]. intros _ s' (h2 & -> & Hown3).
    unfold obind. wp_step. eapply wp_mono; [by apply reap_threads_ok|].
    intros k s' (t & l' & k' & first' & h' & -> & -> & Hreap & Hown4 & _). wp_step.
    side. split; [by exists l'|]. exists ((u ++ u') ++ t). simpl. rewrite <- !app_assoc.
    side. right. exists p, r, a. split; [set_solver|]. side.
    split; [set_solver|]. side. intros x. rewrite app_assoc. unfold fds_from in *.
    rewrite foldl_app, Hfds'. apply (reaped_quiet _ _ _ _ _ Hreap).
Qed.

Lemma accept_round_ok sockfd s :
  good s -> wp (accept_round E char_device id_of file_mutex sockfd) (round_post sockfd (s_trace s)) s.
Proof.
  intros [l Hown]. destruct s as [tr first h]. unfold accept_round. wp_step. apply wp_ssysv.
  intros a _. cbv beta. cbn [s_trace].
  assert (owns (mk_server (tr ++ [(Accept sockfd, a)]) first h) l) as Hown1 by by apply owns_event.
  destruct (Z.ltb_spec (rv a) 0) as [Hneg|Hge].
  - wp_step. apply wp_ssysv. intros b _. wp_step.
    assert (forall t, (forall x, live_from x t = x) -> (forall x, fds_from x t = x) ->
      forall r, r <> None -> round_post sockfd tr r
        (mk_server (tr ++ [(Accept sockfd, a)] ++ [(LoadErrno, b)] ++ t) first h)) as Hend.
    { intros t Hlt Hft r Hr. side. split.
      - exists l. rewrite app_assoc. by apply owns_event.
      - eexists. side. left. intros x. unfold fds_from in *. rewrite !foldl_app, Hft. cbn.
        unfold fds_step. simpl. by rewrite (proj2 (Z.ltb_lt _ _) Hneg). }
    destruct (rv b =? EINTR).
    + apply wp_ssysv. intros d _. cbv beta. rewrite <- !app_assoc. destruct (rv d =? 0); wp_step; by apply Hend.
    + wp_step. rewrite <- !app_assoc. simpl. wp_step. by apply (Hend []).
  - apply start_thread_ok with (v := fun i => mk_conn_node i (rv a) (if char_device then NULL else file_mutex)) (l := l);
      try done; [set_solver|]. intros x. cbn. unfold fds_step. simpl.
    by rewrite (proj2 (Z.ltb_ge _ _) Hge).
Qed.

Lemma accept_body_ok sockfd s :
  good s -> wp (accept_body E char_device id_of file_mutex sockfd tt) (fun r s' =>
    exists a, a = E (s_trace s) LoadRunning /\ r <> None /\ good s' /\
      (loads (s_trace s) < loads (s_trace s'))%nat /\
      (rv a = 0 -> r = Some (inr tt))) s.
Proof.
  intros [l Hown]. destruct s as [tr first h]. unfold accept_body. wp_step. apply wp_ssysv.
  intros a Ha. cbv beta. cbn [s_trace].
  assert (owns (mk_server (tr ++ [(LoadRunning, a)]) first h) l) as Hown1 by by apply owns_event.
  destruct (Z.eqb_spec (rv a) 0) as [Hz|Hz].
  - wp_step. exists a. split_and!; try done; [by exists l|]. simpl. rewrite loads_app. cbn. lia.
  - eapply wp_mono; [apply accept_round_ok; by exists l|]. intros r s' (Hr & Hg & t & Ht & _).
    exists a. split_and!; try done. rewrite Ht. simpl. rewrite !loads_app. cbn. lia.
Qed.

(** The loop keeps the invariant; it ends when the flag is cleared. *)
Lemma accept_loop_ok sockfd N (T : Prop) : forall fuel s,
  (T -> forall tr, (N <= loads tr)%nat -> rv (E tr LoadRunning) = 0) ->
  (T -> (0 < fuel /\ N < fuel + loads (s_trace s)))%nat -> good s ->
  wp (iterate fuel (accept_body E char_device id_of file_mutex sockfd) tt)
    (fun r s' => good s' /\ (r = None -> ~ T)) s.
Proof.
  induction fuel as [|fuel IH]; intros s HN HT Hg; simpl.
  { wp_step. side. intros _ HT'. destruct (HT HT'). lia. }
  unfold obind. wp_step. eapply wp_mono; [by apply accept_body_ok|].
  intros r s' (a & Ha & Hr & Hg' & Hlt & Hz). destruct r as [[[]|[]]|]; [|by wp_step|done].
  apply IH; [done| |done]. intros HT'. destruct (HT HT') as [_ Hf]. split; [|lia].
  destruct fuel; [|lia]. exfalso.
  assert (rv a = 0) as H0 by (rewrite Ha; apply HN; [done|lia]). specialize (Hz H0). done.
Qed.

Lemma good_event tr u first h :
  (forall x, live_from x u = x) -> good (mk_server tr first h) -> good (mk_server (tr ++ u) first h).
Proof. intros Hu [l Hl]. exists l. by apply owns_event. Qed.

(** A call that neither allocates nor frees keeps the invariant. *)
Ltac call_step a :=
  (apply wp_ssysv || apply wp_ssys); intros a _; cbv beta;
  match goal with
  | H : good (mk_server ?t ?f ?h) |- context [mk_server (?t ++ ?e) ?f ?h] =>
      apply (good_event t e f h ltac:(done)) in H
  end.

(** [setup] ends with a status of one, or with the socket. *)
Lemma setup_ok argc dash_d tr first :
  live tr = ∅ ->
  wp (setup E char_device id_of argc dash_d) (fun r s' =>
    match r with
    | inl status => status = EXIT_FAILURE
    | inr sockfd => 0 <= sockfd /\ good s' /\ (loads tr <= loads (s_trace s'))%nat
    end) (mk_server tr first ∅).
Proof.
  intros Hlive. unfold setup, setup_alarm. destruct (2 <? argc); [by wp_step|].
  wp_step. apply wp_modify. simpl.
  assert (good (mk_server tr SLIST_INIT ∅)) as Hg by (exists []; split; simpl; [done|set_solver|done]).
  wp_step. call_step a. destruct (Z.ltb_spec (rv a) 0) as [|Hge]; [by wp_step|].
  wp_step. call_step b. destruct (rv b <? 0); [by wp_step; call_step b'; wp_step|]. wp_step.
  eapply wp_mono with (P := fun _ s' => exists u, s' = mk_server (tr ++ u) SLIST_INIT ∅ /\ good s').
  { destruct ((1 <? argc) && dash_d).
    - call_step d. eexists. rewrite <- !app_assoc in *. by split.
    - wp_step. eexists. rewrite <- !app_assoc in *. by split. }
  intros d s' (u & -> & Hg'). clear Hg. cbv beta. destruct (d <? 0); [by wp_step; call_step b'; wp_step|].
  wp_step. call_step e. destruct (negb _); [by wp_step|].
  wp_step. call_step f. destruct (negb _); [by wp_step|]. wp_step.
  destruct char_device.
  - wp_step. wp_step. call_step g. wp_step. cbn [s_trace]. rewrite !loads_app. split_and!; try done. lia.
  - wp_step. call_step g. destruct (negb _); [by do 2 wp_step|].
    wp_step. call_step i. destruct (negb _); [by do 2 wp_step|].
    wp_step. call_step j. destruct (negb _); wp_step; wp_step; [done|].
    call_step k. wp_step. simpl. rewrite !loads_app. split_and!; try done. lia.
Qed.

Lemma shutdown_ok sockfd s : good s ->
  wp (shutdown E char_device file_mutex sockfd) (fun r s' => r = 0 /\ good s') s.
Proof.
  destruct s as [tr first h]. intros Hg. unfold shutdown. wp_step. call_step a. wp_step.
  destruct char_device; [by do 2 wp_step|].
  wp_step. call_step b. wp_step. call_step d. by do 2 wp_step.
Qed.

Lemma main_ok fuel N (T : Prop) argc dash_d tr first :
  live tr = ∅ -> (T -> forall tr, (N <= loads tr)%nat -> rv (E tr LoadRunning) = 0) ->
  (T -> (N < fuel)%nat) ->
  wp (main E char_device id_of file_mutex fuel argc dash_d)
    (fun r s' => r = Some EXIT_FAILURE \/ (good s' /\ (r = Some 0 \/ (r = None /\ ~ T))))
    (mk_server tr first ∅).
Proof.
  intros Hlive HN Hfuel. unfold main. wp_step. eapply wp_mono; [by apply setup_ok|].
  intros [status|sockfd] s'; [intros ->; wp_step; by left|]. intros (_ & Hg & _). cbv beta iota.
  unfold obind. wp_step. eapply wp_mono; [apply (accept_loop_ok sockfd N T fuel s' HN); [|done]|].
  { intros HT. specialize (Hfuel HT). lia. }
  intros [[]|] s1 (Hg1 & HT1); cbv beta iota; [|by wp_step; right; auto].
  destruct s1 as [tr1 first1 h1]. destruct Hg1 as [l Hown]. wp_step.
  eapply wp_mono; [by apply reap_threads_ok|].
  intros k s2 (t & l' & k' & first2 & h2 & -> & -> & _ & Hown2 & _). cbv beta iota. wp_step.
  eapply wp_mono; [apply shutdown_ok; by exists l'|]. intros r s3 [-> Hg3]. wp_step. right. auto.
Qed.
End server_spec.
