(* ===== verification/ServerTheorems.v ===== *)
(** * The properties of the main thread and of the signal handlers *)

From S2P Require Import Prelude Posix Queue Handler HandlerSpec HandlerTheorems Server ServerSpec.

Section theorems.
Context {E : env} {EOk : EnvOk E}.
Variables (char_device : bool) (id_of : answer -> Z) (file_mutex : Z).

(** C28. A pass of [reap_threads] over a well-formed list ends without
    following an invalid pointer, joins and frees exactly the nodes whose
    [done] flag it finds set, each once and after its removal from the
    list, keeps the others in order, and returns how many it freed. *)
Theorem reap_threads_correct tr first h l :
  owns (mk_server tr first h) l -> zlen l < 2 ^ 31 ->
  exists t l' k first' h',
    reap_threads E (mk_server tr first h) = Some (Some k, mk_server (tr ++ t) first' h') /\
    reaped h l t l' k /\ owns (mk_server (tr ++ t) first' h') l' /\
    k = zlen l - zlen l'.
Proof.
  intros Hown Hlen. destruct (wp_inv _ _ _ (reap_threads_ok tr first h l Hown))
    as (r & s' & Hrun & t & l' & k & first' & h' & -> & -> & Hr & Hown' & _).
  assert (k = zlen l - zlen l') as Hk.
  { clear Hrun Hown Hown' Hlen. induction Hr; simpl; lia. }
  assert (0 <= k <= zlen l) as Hle.
  { clear Hrun Hown Hown' Hlen Hk. induction Hr; simpl; lia. }
  rewrite s32_small in Hrun by lia. exists t, l', k, first', h'. done.
Qed.

(** C27. The main thread is memory safe: whatever the system, the clients
    and the connection threads do, it follows only valid links and frees
    only nodes it allocated and still owns; it returns 0 or 1, and in the
    end the nodes it has not freed are exactly those still in its list. *)
Theorem main_safe fuel argc dash_d tr first :
  live tr = ∅ ->
  exists r s', main E char_device id_of file_mutex fuel argc dash_d (mk_server tr first ∅) = Some (r, s') /\
    (r = Some EXIT_FAILURE \/ ((r = Some 0 \/ r = None) /\ exists l, owns s' l)).
Proof.
  intros Hl. destruct (wp_inv _ _ _ (main_ok char_device id_of file_mutex fuel 0 False argc dash_d tr first Hl
    ltac:(done) ltac:(done))) as (r & s' & Hrun & Hr).
  exists r, s'. side. unfold good in Hr. tauto.
Qed.

(** C29. The server stops when it is told to: if [server_running] reads as
    zero once it has been read [N] times, [main] returns. *)
Theorem main_terminates N argc dash_d tr first :
  live tr = ∅ -> (forall tr, (N <= loads tr)%nat -> rv (E tr LoadRunning) = 0) ->
  exists z s', main E char_device id_of file_mutex (S N) argc dash_d (mk_server tr first ∅) = Some (Some z, s') /\
    (z = 0 \/ z = EXIT_FAILURE).
Proof.
  intros Hl HN. destruct (wp_inv _ _ _ (main_ok char_device id_of file_mutex (S N) N True argc dash_d tr first Hl
    (fun _ => HN) ltac:(intros; lia))) as (r & s' & Hrun & Hr).
  destruct Hr as [->|[_ [->|[_ Hr]]]]; [eauto..|tauto].
Qed.

(** A round of the accept loop keeps the invariant of the list, and
    loses no descriptor: either it holds none more than before, having
    closed the client's socket on every error path, or a thread has been
    started for it. *)
Theorem accept_round_resources sockfd s l :
  owns s l ->
  exists r s', accept_round E char_device id_of file_mutex sockfd s = Some (Some r, s') /\
    (exists l', owns s' l') /\
    exists t, s_trace s' = s_trace s ++ t /\
      ((forall x, fds_from x t ⊆ x) \/
       exists p c a, (Accept sockfd, a) ∈ t /\ 0 <= rv a /\ (Create p, c) ∈ t /\ rv c = 0 /\
         forall x, fds_from x t = {[rv a]} ∪ x).
Proof.
  intros Hown. destruct (wp_inv _ _ _ (accept_round_ok char_device id_of file_mutex sockfd s (ex_intro _ l Hown)))
    as ([r|] & s' & Hrun & Hr & Hg & Ht); [|done]. by exists r, s'.
Qed.

End theorems.

Section alarm.
Context {E : env}.
Variables (char_device : bool) (file_mutex server_info_file_mutex : Z).

(** The time stamp is written under the wrong mutex: when the alarm
    handler writes, it holds the mutex inside [server_info] and not the
    one the connection threads use, which is a different object. *)
Theorem alarm_handler_mutex timestamp tr s' :
  file_mutex <> server_info_file_mutex -> file_mutex ∉ locks tr ->
  rv (E tr (Lock server_info_file_mutex)) = 0 ->
  alarm_handler E char_device server_info_file_mutex SIGALRM timestamp (start tr) = Some (tt, s') ->
  exists t, trace s' = tr ++ t /\
    forall t1 fd d a t2, t = t1 ++ (Write fd d, a) :: t2 ->
      server_info_file_mutex ∈ locks (tr ++ t1) /\ file_mutex ∉ locks (tr ++ t1).
Proof.
  intros Hne Hm Hlock. unfold alarm_handler, start, mbind, st_bind, sysv, sys, mret, st_ret. simpl.
  set (la := E tr (Lock _)) in *. set (o := E _ (Open _ _ _)).
  assert (forall t1, t1 = [(Lock server_info_file_mutex, la);
      (Open (FILENAME char_device) (Z.lor (Z.lor O_WRONLY O_CREAT) O_APPEND) 420, o)] ->
    server_info_file_mutex ∈ locks (tr ++ t1) /\ file_mutex ∉ locks (tr ++ t1)) as Hlocks.
  { intros t1 ->. rewrite locks_app. cbn. unfold locks_step. simpl. rewrite Hlock. simpl. set_solver. }
  destruct (rv o <? 0); intros [= <-]; eexists; rewrite <- !app_assoc; (side);
    intros t1 fd d a t2 Ht; apply Hlocks; simpl in Ht.
  - do 3 (destruct t1 as [|? t1]; [done|]; injection Ht as <- Ht). by destruct t1.
  - do 2 (destruct t1 as [|? t1]; [done|]; injection Ht as <- Ht).
    destruct t1 as [|? t1]; [done|]. injection Ht as _ Ht.
    do 2 (destruct t1 as [|? t1]; [done|]; injection Ht as _ Ht). by destruct t1.
Qed.
End alarm.

(** ** Concrete runs *)

Module ServerWitness.
Import SimEnv.

(** Accepts a client whenever asked; the flag [server_running] reads as
    one [n] times, and every thread that has announced its end is one of
    [ended]. *)
Definition server_env (n : nat) (ended : list Z) : env := fun tr c =>
  match c with
  | Malloc _ => mk_answer (above (live tr)) []
  | Realloc _ _ => mk_answer NULL []
  | Open _ _ _ | Accept _ | Socket => mk_answer (above (fds tr)) []
  | LoadRunning => mk_answer (if decide (loads tr < n)%nat then 1 else 0) []
  | LoadDone p => mk_answer (if decide (p ∈ ended) then 1 else 0) []
  | Send _ d | Write _ d => mk_answer (zlen d) []
  | _ => mk_answer 0 []
  end.

#[export] Instance server_env_ok n ended : EnvOk (server_env n ended).
Proof.
  split; intros; simpl in *; try done; try lia; try apply above_spec.
  pose proof (above_spec (fds tr)). lia.
Qed.

Lemma server_env_stops n ended tr : (n <= loads tr)%nat ->
  rv (server_env n ended tr LoadRunning) = 0.
Proof. intros H. simpl. by rewrite decide_False by lia. Qed.

(** Two clients; the first node, at address 1, has ended. *)
Definition two : env := server_env 2 [1].
Definition main2 := main two true rv 4096 3 1 false (mk_server [] 0 ∅).

Lemma main_safe_witness :
  exists r s', main2 = Some (r, s') /\
    (r = Some EXIT_FAILURE \/ ((r = Some 0 \/ r = None) /\ exists l, owns s' l)).
Proof. apply (main_safe true rv 4096 3 1 false [] 0 eq_refl). Defined.

Lemma main_terminates_witness :
  exists z s', main2 = Some (Some z, s') /\ (z = 0 \/ z = EXIT_FAILURE).
Proof.
  apply (main_terminates true rv 4096 2 1 false [] 0 eq_refl). apply server_env_stops.
Defined.

(** A list of two nodes. *)
Definition two_nodes : heap conn_node :=
  {[16 := mk_node 32 (mk_conn_node 7 4 0); 32 := mk_node 0 (mk_conn_node 8 5 0)]}.
Definition tr2 : list event :=
  [(Malloc 56, mk_answer 32 []); (Malloc 56, mk_answer 16 [])].

Lemma two_owned : owns (mk_server tr2 16 two_nodes) [16; 32].
Proof.
  split; simpl.
  - split_and!; try done. eexists. split; [reflexivity|]. split_and!; try done. by eexists.
  - apply (bool_decide_unpack _). vm_compute. exact I.
  - apply (bool_decide_unpack _). vm_compute. exact I.
Qed.

Lemma reap_threads_correct_witness :
  exists t l' k first' h',
    reap_threads (server_env 0 [32]) (mk_server tr2 16 two_nodes) =
      Some (Some k, mk_server (tr2 ++ t) first' h') /\
    reaped two_nodes [16; 32] t l' k /\ owns (mk_server (tr2 ++ t) first' h') l' /\
    k = 2 - zlen l'.
Proof.
  apply (reap_threads_correct (E := server_env 0 [32]) tr2 16 two_nodes [16; 32] two_owned).
  simpl. lia.
Defined.

Lemma accept_round_resources_witness :
  exists r s', accept_round two true rv 4096 3 (mk_server tr2 16 two_nodes) = Some (Some r, s') /\
    (exists l', owns s' l') /\
    exists t, s_trace s' = tr2 ++ t /\
      ((forall x, fds_from x t ⊆ x) \/
       exists p c a, (Accept 3, a) ∈ t /\ 0 <= rv a /\ (Create p, c) ∈ t /\ rv c = 0 /\
         forall x, fds_from x t = {[rv a]} ∪ x).
Proof. apply (accept_round_resources true rv 4096 3 (mk_server tr2 16 two_nodes) [16; 32] two_owned). Defined.

Definition stamp : list byte := bytes_of "timestamp:now".
Definition alarm_end : proc :=
  match alarm_handler two false 8192 SIGALRM stamp (start []) with
  | Some (_, s) => s
  | None => start []
  end.

Lemma alarm_handler_mutex_witness :
  exists t, trace alarm_end = [] ++ t /\
    forall t1 fd d a t2, t = t1 ++ (Write fd d, a) :: t2 ->
      8192 ∈ locks ([] ++ t1) /\ 4096 ∉ locks ([] ++ t1).
Proof.
  apply (alarm_handler_mutex (E := two) false 4096 8192 stamp [] alarm_end); try done.
Defined.

(** Whether a trace joins a thread, or starts one. *)
Definition is_join (e : event) : bool := match e.1 with Join _ => true | _ => false end.
Definition is_create (e : event) : bool :=
  match e with (Create _, a) => rv a =? 0 | _ => false end.

(** At shutdown a connection that is still being served is abandoned:
    there is a run in which [main] starts a thread and returns 0 without
    joining it, its node still allocated. *)
Theorem shutdown_abandons_threads : exists s',
  main (server_env 1 []) true rv 4096 2 1 false (mk_server [] 0 ∅) = Some (Some 0, s') /\
  existsb is_create (s_trace s') = true /\ existsb is_join (s_trace s') = false /\
  live (s_trace s') <> ∅.
Proof.
  eexists. split; [vm_compute; reflexivity|]. split; [reflexivity|]. split; [reflexivity|].
  vm_compute. discriminate.
Qed.
End ServerWitness.
