(* ===== verification/SystemCalls.v ===== *)
(** * Running commands

    Models [examples/systemcalls/systemcalls.c]: [do_system], [do_exec] and
    [do_exec_redirect].  [fork] returns twice; a run of the model is a run
    of one of the two processes, chosen by the answer to [Fork], and ends by
    returning to the caller, by leaving the process, or by [execv] replacing
    it. *)

From S2P Require Import Prelude Posix.

Inductive outcome : Type :=
| Returns (b : bool)
| Exits (status : Z)
| Replaced.

Definition STDOUT_FILENO : Z := 1.

(** The status words of [waitpid]. *)
Definition WIFEXITED (status : Z) : bool := Z.land status 127 =? 0.
Definition WEXITSTATUS (status : Z) : Z := Z.shiftr (Z.land status 65280) 8.

Abbreviation arg := (option (list byte)).

(** The loop that copies [count] arguments to the array [command]; [None]
    when there are fewer arguments or the array is too small. *)
Fixpoint copy_args (count i : nat) (args command : list arg) : option (list arg) :=
  match count with
  | O => Some command
  | S count =>
      match args with
      | a :: args =>
          if decide (i < length command)%nat
          then copy_args count (S i) args (<[i := a]> command)
          else None
      | [] => None
      end
  end.

Section systemcalls.
Variable E : env.

Definition do_system (cmd : arg) : ST proc bool :=
  ret ← sysv E (System cmd);
  if bool_decide (cmd = None) && (ret =? 0) then mret false
  else mret (ret =? 0).

(** The array of [count + 1] arguments, its cells filled from the variable
    arguments and ended by a null pointer. *)
Definition make_command (count : nat) (args : list arg) : ST proc (list arg) :=
  st_opt (fun _ =>
    command ← copy_args count 0 args (replicate (S count) None);
    Some (<[count := None]> command)).

(** Wait for the child: the result when the function returns here. *)
Definition wait_child (pid : Z) : ST proc (option bool) :=
  a ← sys E (Waitpid pid);
  if rv a =? -1 then mret (Some false)
  else
    let status := u32_at 0 (rdata a) in
    if WIFEXITED status && (WEXITSTATUS status =? 0) then mret (Some true) else mret None.

Definition do_exec (count : nat) (args : list arg) : ST proc outcome :=
  command ← make_command count args;
  pid ← sysv E Fork;
  if pid =? -1 then mret (Returns false)
  else if pid =? 0 then
    ret ← sysv E (Execv (mjoin (head command)) command);
    if ret =? -1 then
      _ ← sys E (Exit 1);
      mret (Exits 1)
    else mret Replaced
  else if 0 <? pid then
    r ← wait_child pid;
    match r with
    | Some b => mret (Returns b)
    | None => mret (Returns false)
    end
  else mret (Returns false).

Definition do_exec_redirect (outputfile : list byte) (count : nat) (args : list arg) :
    ST proc outcome :=
  command ← make_command count args;
  fd ← sysv E (Open outputfile (Z.lor (Z.lor O_WRONLY O_TRUNC) O_CREAT) 420);
  if fd =? -1 then mret (Returns false)
  else
    pid ← sysv E Fork;
    if pid =? -1 then mret (Returns false)
    else if pid =? 0 then
      r ← sysv E (Dup2 fd STDOUT_FILENO);
      if r =? -1 then mret (Returns false)
      else
        _ ← sys E (Close fd);
        ret ← sysv E (Execv (mjoin (head command)) command);
        if ret =? -1 then mret (Returns false) else mret Replaced
    else if 0 <? pid then
      _ ← sys E (Close fd);
      r ← wait_child pid;
      match r with
      | Some b => mret (Returns b)
      | None => mret (Returns true)
      end
    else mret (Returns true).
End systemcalls.

(** ** Lemmas *)

Lemma copy_args_ok count : forall i args command,
  (count <= length args)%nat -> (i + count <= length command)%nat ->
  copy_args count i args command = Some (take i command ++ take count args ++ drop (i + count) command).
Proof.
  induction count as [|count IH]; intros i args command Ha Hc; simpl.
  { by rewrite Nat.add_0_r, take_drop. }
  destruct args as [|a args]; simpl in Ha; [lia|]. rewrite decide_True by lia.
  rewrite IH by (rewrite ?length_insert; lia).
  rewrite (take_S_insert command i a) by lia. rewrite drop_insert_lt by lia.
  rewrite <- app_assoc. simpl. by rewrite Nat.add_succ_r.
Qed.

(** [command] is the arguments and a null pointer. *)
Lemma make_command_ok count args s :
  (count <= length args)%nat -> make_command count args s = Some (take count args ++ [None], s).
Proof.
  intros H. unfold make_command, st_opt.
  rewrite copy_args_ok by (rewrite ?length_replicate; lia). cbn [mbind option_bind take app].
  rewrite drop_replicate. replace (S count - (0 + count))%nat with 1%nat by lia. simpl.
  assert (length (take count args) = count) as Hl by (rewrite length_take; lia).
  rewrite insert_app_r_alt, Hl, Nat.sub_diag by lia. done.
Qed.

Section theorems.
Context {E : env}.

(** The exit status a parent waits for is zero. *)
Definition exited_zero (a : answer) : bool :=
  WIFEXITED (u32_at 0 (rdata a)) && (WEXITSTATUS (u32_at 0 (rdata a)) =? 0).

(** [do_system] reports success exactly when there is a command and
    [system] returned zero. *)
Theorem do_system_result cmd s :
  exists b s', do_system E cmd s = Some (b, s') /\
    (b = true <-> cmd <> None /\ rv (E (trace s) (System cmd)) = 0).
Proof.
  unfold do_system, mbind, st_bind, sysv, sys, mret, st_ret. simpl. set (r := rv _).
  destruct cmd as [c|]; destruct (Z.eqb_spec r 0); simpl; eexists _, _; (side);
    naive_solver.
Qed.

(** C39. [do_exec] passes the command line on unchanged, ended by a null
    pointer; in the parent it returns true exactly when the child was
    started, waited for, and left with status zero; the child never
    returns to the caller. *)
Theorem do_exec_outcomes count args tr m :
  (count <= length args)%nat ->
  let pid := rv (E tr Fork) in
  let command := take count args ++ [None] in
  exists r s', do_exec E count args (mk_proc tr m) = Some (r, s') /\
    (pid = 0 -> (r = Exits 1 \/ r = Replaced) /\
       exists a, (Execv (mjoin (head command)) command, a) ∈ trace s') /\
    (pid <> 0 -> exists b, r = Returns b /\
       (b = true <-> 0 < pid /\
          let a := E (tr ++ [(Fork, E tr Fork)]) (Waitpid pid) in
          rv a <> -1 /\ exited_zero a = true)).
Proof.
  intros Hc. simpl. unfold do_exec. unfold mbind at 1, st_bind at 1. rewrite make_command_ok by done.
  unfold wait_child, exited_zero, mbind, st_bind, sysv, sys, mret, st_ret. simpl. set (f := E tr Fork).
  destruct (Z.eqb_spec (rv f) (-1)) as [H1|H1].
  { eexists _, _. side. split; [lia|]. intros _. exists false. side. split; [done|lia]. }
  destruct (Z.eqb_spec (rv f) 0) as [H2|H2].
  { set (x := E _ (Execv _ _)). destruct (Z.eqb_spec (rv x) (-1)); (eexists _, _; side);
      (split; [|done]); intros _; (split; [by auto|]); exists x; simpl; set_solver. }
  destruct (Z.ltb_spec 0 (rv f)) as [H3|H3].
  - set (a := E _ (Waitpid _)). destruct (Z.eqb_spec (rv a) (-1)) as [H4|H4].
    + eexists _, _. side. side. intros _. exists false. side.
      side. intros (_ & ? & _). done.
    + destruct (WIFEXITED _ && _) eqn:Hs; (eexists _, _; side; side);
        intros _; eexists; (side); split; [done|done|done|].
      intros (_ & _ & ?). congruence.
  - eexists _, _. side. side. intros _. exists false. side. split; [done|lia].
Qed.

(** [do_exec_redirect] does not report the failure of the command: a
    parent that could open the file, start the child and wait for it
    returns true whatever the child's exit status is. *)
Theorem redirect_ignores_status out count args tr m :
  (count <= length args)%nat ->
  let o := E tr (Open out 577 420) in
  let tr1 := tr ++ [(Open out 577 420, o)] in
  let pid := rv (E tr1 Fork) in
  let tr2 := tr1 ++ [(Fork, E tr1 Fork)] in
  let tr3 := tr2 ++ [(Close (rv o), E tr2 (Close (rv o)))] in
  rv o <> -1 -> 0 < pid -> rv (E tr3 (Waitpid pid)) <> -1 ->
  exists s', do_exec_redirect E out count args (mk_proc tr m) = Some (Returns true, s').
Proof.
  intros Hc. simpl. unfold do_exec_redirect. unfold mbind at 1, st_bind at 1.
  rewrite make_command_ok by done.
  unfold wait_child, mbind, st_bind, sysv, sys, mret, st_ret. simpl.
  change (Z.lor (Z.lor O_WRONLY O_TRUNC) O_CREAT) with 577. set (o := E tr _). set (f := E _ Fork).
  intros Ho Hf Hw. rewrite (proj2 (Z.eqb_neq _ _) Ho). cbn [trace mem]. fold f.
  destruct (Z.eqb_spec (rv f) (-1)); [lia|]. destruct (Z.eqb_spec (rv f) 0); [lia|].
  destruct (Z.ltb_spec 0 (rv f)); [|lia].
  cbn [trace mem]. fold f. rewrite (proj2 (Z.eqb_neq _ _) Hw).
  destruct (WIFEXITED _ && _); by eexists.
Qed.

(** The child of [do_exec_redirect] returns to the caller when the
    command cannot be executed, so that two processes go on from the
    call. *)
Theorem redirect_child_returns out count args tr m :
  (count <= length args)%nat ->
  (forall tr, rv (E tr (Open out 577 420)) = 3) -> (forall tr, rv (E tr Fork) = 0) ->
  (forall tr, rv (E tr (Dup2 3 STDOUT_FILENO)) = 1) ->
  (forall tr p a, rv (E tr (Execv p a)) = -1) ->
  exists s', do_exec_redirect E out count args (mk_proc tr m) = Some (Returns false, s').
Proof.
  intros Hc Ho Hf Hd Hx. unfold do_exec_redirect. unfold mbind at 1, st_bind at 1.
  rewrite make_command_ok by done. unfold mbind, st_bind, sysv, sys, mret, st_ret. simpl.
  change (Z.lor (Z.lor O_WRONLY O_TRUNC) O_CREAT) with 577. rewrite Ho. simpl. rewrite Hf. simpl.
  rewrite Hd. simpl. rewrite Hx. simpl. by eexists.
Qed.

(** When [fork] fails, [do_exec_redirect] returns false and keeps the
    output file open. *)
Theorem redirect_fork_leak out count args tr m :
  (count <= length args)%nat -> 0 <= rv (E tr (Open out 577 420)) ->
  (forall tr, rv (E tr Fork) = -1) ->
  exists s', do_exec_redirect E out count args (mk_proc tr m) = Some (Returns false, s') /\
    rv (E tr (Open out 577 420)) ∈ fds (trace s').
Proof.
  intros Hc Ho Hf. unfold do_exec_redirect. unfold mbind at 1, st_bind at 1.
  rewrite make_command_ok by done. unfold mbind, st_bind, sysv, sys, mret, st_ret. simpl.
  change (Z.lor (Z.lor O_WRONLY O_TRUNC) O_CREAT) with 577 in *. set (o := E tr _) in *.
  destruct (Z.eqb_spec (rv o) (-1)); [lia|]. rewrite Hf. simpl. eexists. side.
  simpl. rewrite !fds_app. cbn. unfold fds_step. simpl.
  destruct (Z.ltb_spec (rv o) 0); [lia|]. set_solver.
Qed.
End theorems.

(** ** The theorems at concrete environments *)

Module SystemCallsWitness.
Definition ls : list arg := [Some (bytes_of "/bin/ls"); Some (bytes_of "-l")].

(** A parent whose child, 42, leaves with [status]. *)
Definition parent_env (status : byte) : env := fun _ c =>
  match c with
  | Open _ _ _ => mk_answer 3 []
  | Fork => mk_answer 42 []
  | Waitpid _ => mk_answer 42 [nul; status; nul; nul]
  | _ => mk_answer 0 []
  end.
(** A child in which [execv] fails. *)
Definition child_env : env := fun _ c =>
  match c with
  | Open _ _ _ => mk_answer 3 []
  | Fork => mk_answer 0 []
  | Dup2 _ _ => mk_answer 1 []
  | Execv _ _ => mk_answer (-1) []
  | _ => mk_answer 0 []
  end.
Definition no_fork_env : env := fun _ c =>
  match c with
  | Open _ _ _ => mk_answer 3 []
  | Fork => mk_answer (-1) []
  | _ => mk_answer 0 []
  end.

Lemma do_exec_outcomes_witness :
  exists r s', do_exec (parent_env nul) 2 ls (mk_proc [] ∅) = Some (r, s') /\
    (42 <> 0 -> exists b, r = Returns b /\
       (b = true <-> 0 < 42 /\ 42 <> -1 /\
          exited_zero (mk_answer 42 [nul; nul; nul; nul]) = true)).
Proof.
  destruct (do_exec_outcomes (E := parent_env nul) 2 ls [] ∅ ltac:(simpl; lia)) as (r & s' & H1 & _ & H2).
  exists r, s'. by split.
Defined.

Lemma redirect_ignores_status_witness :
  exists s', do_exec_redirect (parent_env x01) (bytes_of "out") 2 ls (mk_proc [] ∅) =
    Some (Returns true, s').
Proof.
  apply (redirect_ignores_status (E := parent_env x01) (bytes_of "out") 2 ls [] ∅); simpl; lia.
Defined.

Lemma redirect_child_returns_witness :
  exists s', do_exec_redirect child_env (bytes_of "out") 2 ls (mk_proc [] ∅) = Some (Returns false, s').
Proof.
  apply (redirect_child_returns (E := child_env) (bytes_of "out") 2 ls [] ∅); reflexivity || (simpl; lia).
Defined.

Lemma redirect_fork_leak_witness :
  exists s', do_exec_redirect no_fork_env (bytes_of "out") 2 ls (mk_proc [] ∅) =
    Some (Returns false, s') /\ 3 ∈ fds (trace s').
Proof.
  apply (redirect_fork_leak (E := no_fork_env) (bytes_of "out") 2 ls [] ∅); try reflexivity; simpl; lia.
Defined.
End SystemCallsWitness.
