(* ===== verification/Threading.v ===== *)
(** * A thread that holds a mutex for a while

    Models [examples/threading/threading.c] and [threading.h]:
    [start_thread_obtaining_mutex], which allocates the parameters of a
    thread and starts it, and [threadfunc], the thread.  The state is the
    trace and the heap of [struct thread_data]. *)

From S2P Require Import Prelude Posix.

Record thread_data : Type := mk_data {
  mutex : Z;
  wait_to_obtain_ms : Z;
  wait_to_release_ms : Z;
  thread_complete_success : bool;
}.
Definition sizeof_thread_data : Z := 24.

Record threads : Type := mk_threads {
  t_trace : list event;
  datas : gmap Z thread_data;
}.

Section threading.
Variable E : env.

Definition tsys (c : syscall) : ST threads Z := fun s =>
  let a := E (t_trace s) c in
  Some (rv a, mk_threads (t_trace s ++ [(c, a)]) (datas s)).

Definition get_data (p : Z) : ST threads thread_data := st_opt (fun s => datas s !! p).
Definition put_data (p : Z) (d : thread_data) : ST threads unit :=
  st_modify (fun s => mk_threads (t_trace s) (<[p := d]> (datas s))).

(** [thread_func_args->thread_complete_success = b; return thread_func_args] *)
Definition complete (p : Z) (b : bool) : ST threads Z :=
  d ← get_data p;
  _ ← put_data p (mk_data (mutex d) (wait_to_obtain_ms d) (wait_to_release_ms d) b);
  mret p.

(** The product of an [unsigned int] and an [int] is an [unsigned int]. *)
Definition threadfunc (p : Z) : ST threads Z :=
  d ← get_data p;
  rv ← tsys (Usleep (u32 (wait_to_obtain_ms d * 1000)));
  if negb (rv =? 0) then complete p false
  else
    rv ← tsys (Lock (mutex d));
    if negb (rv =? 0) then complete p false
    else
      rv ← tsys (Usleep (u32 (wait_to_release_ms d * 1000)));
      if negb (rv =? 0) then complete p false
      else
        rv ← tsys (Unlock (mutex d));
        if negb (rv =? 0) then complete p false else complete p true.

Definition start_thread_obtaining_mutex (mutex wait_to_obtain_ms wait_to_release_ms : Z) :
    ST threads bool :=
  data ← tsys (Malloc sizeof_thread_data);
  if data =? NULL then mret false
  else
    _ ← put_data data (mk_data mutex (u32 wait_to_obtain_ms) (u32 wait_to_release_ms) false);
    rv ← tsys (Create data);
    if negb (rv =? 0) then mret false else mret true.
End threading.

(** ** Rules *)

Section rules.
Context {E : env}.

Lemma wp_tsys c Q tr m :
  (forall a, a = E tr c -> Q (rv a) (mk_threads (tr ++ [(c, a)]) m)) ->
  wp (tsys E c) Q (mk_threads tr m).
Proof. intros H. by apply (H (E tr c)). Qed.

Lemma wp_complete p b d Q tr m : m !! p = Some d ->
  Q p (mk_threads tr (<[p := mk_data (mutex d) (wait_to_obtain_ms d) (wait_to_release_ms d) b]> m)) ->
  wp (complete p b) Q (mk_threads tr m).
Proof.
  intros Hd HQ. unfold complete. wp_step. eapply wp_opt; [exact Hd|]. wp_step. apply wp_modify. by wp_step.
Qed.

(** What the thread has done when it returns with [b]: the calls, each
    made when the one before succeeded. *)
Inductive thread_run (d : thread_data) : list event -> bool -> Prop :=
| run_sleep1 a : rv a <> 0 ->
    thread_run d [(Usleep (u32 (wait_to_obtain_ms d * 1000)), a)] false
| run_lock a b : rv a = 0 -> rv b <> 0 ->
    thread_run d [(Usleep (u32 (wait_to_obtain_ms d * 1000)), a); (Lock (mutex d), b)] false
| run_sleep2 a b c : rv a = 0 -> rv b = 0 -> rv c <> 0 ->
    thread_run d [(Usleep (u32 (wait_to_obtain_ms d * 1000)), a); (Lock (mutex d), b);
                  (Usleep (u32 (wait_to_release_ms d * 1000)), c)] false
| run_unlock a b c e : rv a = 0 -> rv b = 0 -> rv c = 0 -> rv e <> 0 ->
    thread_run d [(Usleep (u32 (wait_to_obtain_ms d * 1000)), a); (Lock (mutex d), b);
                  (Usleep (u32 (wait_to_release_ms d * 1000)), c); (Unlock (mutex d), e)] false
| run_all a b c e : rv a = 0 -> rv b = 0 -> rv c = 0 -> rv e = 0 ->
    thread_run d [(Usleep (u32 (wait_to_obtain_ms d * 1000)), a); (Lock (mutex d), b);
                  (Usleep (u32 (wait_to_release_ms d * 1000)), c); (Unlock (mutex d), e)] true.

Lemma threadfunc_ok p d tr m : m !! p = Some d ->
  wp (threadfunc E p) (fun q s' => exists t b, q = p /\ thread_run d t b /\
    s' = mk_threads (tr ++ t)
           (<[p := mk_data (mutex d) (wait_to_obtain_ms d) (wait_to_release_ms d) b]> m))
    (mk_threads tr m).
Proof.
  intros Hd. unfold threadfunc. wp_step. eapply wp_opt; [exact Hd|].
  wp_step. apply wp_tsys. intros a _. cbv beta. destruct (Z.eqb_spec (rv a) 0) as [Ha|Ha]; cbn [negb].
  2:{ eapply wp_complete; [done|]. eexists _, _. side. split; [|done]. by apply run_sleep1. }
  wp_step. apply wp_tsys. intros b _. cbv beta. destruct (Z.eqb_spec (rv b) 0) as [Hb|Hb]; cbn [negb].
  2:{ eapply wp_complete; [done|]. eexists _, _. rewrite <- !app_assoc.
      side. split; [|done]. by apply run_lock. }
  wp_step. apply wp_tsys. intros c _. cbv beta. destruct (Z.eqb_spec (rv c) 0) as [Hc|Hc]; cbn [negb].
  2:{ eapply wp_complete; [done|]. eexists _, _. rewrite <- !app_assoc.
      side. split; [|done]. by apply run_sleep2. }
  wp_step. apply wp_tsys. intros e _. cbv beta.
  destruct (Z.eqb_spec (rv e) 0) as [He|He]; cbn [negb]; (eapply wp_complete; [done|]);
    eexists _, _; rewrite <- !app_assoc; (side); (split; [|done]);
    [by apply run_all|by apply run_unlock].
Qed.
End rules.

(** ** Properties *)

Section theorems.
Context {E : env}.

(** C40. [threadfunc] sleeps, takes the mutex, sleeps and releases it, in
    this order and stopping at the first failure; it returns its argument,
    with [thread_complete_success] set exactly when all four calls
    succeeded. *)
Theorem threadfunc_sequence p d tr m :
  m !! p = Some d ->
  exists t b, threadfunc E p (mk_threads tr m) =
    Some (p, mk_threads (tr ++ t)
      (<[p := mk_data (mutex d) (wait_to_obtain_ms d) (wait_to_release_ms d) b]> m)) /\
    thread_run d t b /\
    (b = true <-> length t = 4%nat /\ Forall (fun e => rv e.2 = 0) t).
Proof.
  intros Hd. destruct (wp_inv _ _ _ (threadfunc_ok (E := E) p d tr m Hd)) as (q & s' & Hrun & t & b & -> & Ht & ->).
  exists t, b. side. side.
  destruct Ht; simpl; rewrite ?Forall_cons; simpl; naive_solver.
Qed.

(** The mutex after the thread: it is free again when the thread
    completed or never got it, and stays locked for good when the sleep
    that holds it is interrupted. *)
Theorem threadfunc_mutex p d tr m q s' :
  m !! p = Some d -> mutex d ∉ locks tr ->
  threadfunc E p (mk_threads tr m) = Some (q, s') ->
  exists t b, t_trace s' = tr ++ t /\ thread_run d t b /\
    (mutex d ∈ locks (tr ++ t) <->
       (length t = 3%nat \/ (length t = 4%nat /\ b = false))).
Proof.
  intros Hd Hm Hrun. destruct (wp_inv _ _ _ (threadfunc_ok (E := E) p d tr m Hd)) as (q' & s1 & Hrun' & t & b & -> & Ht & ->).
  rewrite Hrun in Hrun'. injection Hrun' as <- ->. exists t, b. side. side.
  rewrite locks_app. unfold locks_from.
  destruct Ht as [a Ha|a b Ha Hb|a b c Ha Hb Hc|a b c e Ha Hb Hc He|a b c e Ha Hb Hc He];
    cbn [foldl locks_step fst snd length]; rewrite ?Hb; rewrite ?He; cbn [Z.eqb];
    rewrite ?(proj2 (Z.eqb_neq _ _) Hb), ?(proj2 (Z.eqb_neq _ _) He);
    rewrite ?elem_of_difference, ?elem_of_union, ?elem_of_singleton; intuition lia.
Qed.

(** The sleeping times wrap around: a time of [ms] milliseconds is
    passed on as [1000 * ms] microseconds exactly when that fits 32 bits. *)
Theorem sleep_time_wraps d t b us a :
  thread_run d t b -> 0 <= wait_to_obtain_ms d < 2 ^ 32 -> t !! 0%nat = Some (Usleep us, a) ->
  (us = 1000 * wait_to_obtain_ms d <-> wait_to_obtain_ms d <= 4294967).
Proof.
  intros Ht Hd Hus. assert (us = u32 (wait_to_obtain_ms d * 1000)) as ->.
  { by destruct Ht; simpl in Hus; simplify_eq. }
  unfold u32. pose proof (Z.mod_pos_bound (wait_to_obtain_ms d * 1000) (2 ^ 32) ltac:(lia)).
  split; [lia|]. intros. rewrite Z.mod_small; lia.
Qed.

(** Starting a thread: the result is true exactly when the parameters
    could be allocated and the thread created, and then they are the ones
    given, as unsigned 32-bit numbers; when the thread cannot be created
    the parameters stay allocated. *)
Theorem start_thread_outcomes mx w1 w2 tr m :
  EnvOk E ->
  exists b t m', start_thread_obtaining_mutex E mx w1 w2 (mk_threads tr m) = Some (b, mk_threads (tr ++ t) m') /\
    exists a, (Malloc sizeof_thread_data, a) ∈ t /\
      (rv a = NULL -> b = false /\ m' = m /\ live (tr ++ t) = live tr) /\
      (rv a <> NULL -> rv a ∉ live tr /\ live (tr ++ t) = {[rv a]} ∪ live tr /\
         m' = <[rv a := mk_data mx (u32 w1) (u32 w2) false]> m /\
         exists c, (Create (rv a), c) ∈ t /\ (b = true <-> rv c = 0)).
Proof.
  intros EOk. unfold start_thread_obtaining_mutex, put_data, st_modify, mbind, st_bind, tsys, mret, st_ret. simpl.
  set (a := E tr _). destruct (Z.eqb_spec (rv a) NULL) as [Ha|Ha].
  - eexists _, [_], _. side. exists a. split; [set_solver|]. split; [|done].
    intros _. split_and!; try done. rewrite live_app. cbn. unfold live_step. simpl. by rewrite Ha.
  - set (c := E _ (Create _)).
    assert (forall b, (b = true <-> rv c = 0) -> exists b0 t m',
      Some (b, mk_threads ((tr ++ [(Malloc sizeof_thread_data, a)]) ++ [(Create (rv a), c)])
        (<[rv a := mk_data mx (u32 w1) (u32 w2) false]> m)) = Some (b0, mk_threads (tr ++ t) m') /\
      exists a0, (Malloc sizeof_thread_data, a0) ∈ t /\
        (rv a0 = NULL -> b0 = false /\ m' = m /\ live (tr ++ t) = live tr) /\
        (rv a0 <> NULL -> rv a0 ∉ live tr /\ live (tr ++ t) = {[rv a0]} ∪ live tr /\
           m' = <[rv a0 := mk_data mx (u32 w1) (u32 w2) false]> m /\
           exists c, (Create (rv a0), c) ∈ t /\ (b0 = true <-> rv c = 0))) as Hend.
    { intros b Hb. exists b, [(Malloc sizeof_thread_data, a); (Create (rv a), c)].
      eexists. rewrite <- app_assoc. side. exists a. split; [set_solver|]. side.
      intros _. split; [by apply malloc_fresh|]. split; [|split; [done|exists c; split; [set_solver|done]]].
      rewrite live_app. cbn. unfold live_step. simpl. by rewrite (proj2 (Z.eqb_neq _ _) Ha). }
    destruct (Z.eqb_spec (rv c) 0) as [Hc|Hc]; apply Hend; naive_solver.
Qed.
End theorems.

(** ** The theorems at concrete environments *)

Module ThreadingWitness.
(** Every call succeeds, but for the second sleep when [interrupted]. *)
Definition thread_env (interrupted : bool) : env := fun tr c =>
  match c with
  | Malloc _ => mk_answer (if decide (4096 ∈ live tr) then NULL else 4096) []
  | Open _ _ _ => mk_answer (-1) []
  | Usleep _ => mk_answer (if interrupted && negb (length tr =? 0)%nat then -1 else 0) []
  | _ => mk_answer 0 []
  end.
Definition d0 : thread_data := mk_data 64 10 20 false.
Definition m0 : gmap Z thread_data := {[4096 := d0]}.

Lemma threadfunc_sequence_witness :
  exists t b, threadfunc (thread_env false) 4096 (mk_threads [] m0) =
    Some (4096, mk_threads t (<[4096 := mk_data 64 10 20 b]> m0)) /\
    thread_run d0 t b /\ (b = true <-> length t = 4%nat /\ Forall (fun e => rv e.2 = 0) t).
Proof. apply (threadfunc_sequence (E := thread_env false) 4096 d0 [] m0 eq_refl). Defined.

Definition interrupted_end : threads :=
  mk_threads [(Usleep 10000, mk_answer 0 []); (Lock 64, mk_answer 0 []); (Usleep 20000, mk_answer (-1) [])]
    (<[4096 := mk_data 64 10 20 false]> m0).

Lemma threadfunc_mutex_witness :
  exists t b, t_trace interrupted_end = [] ++ t /\ thread_run d0 t b /\
    (64 ∈ locks ([] ++ t) <-> (length t = 3%nat \/ (length t = 4%nat /\ b = false))).
Proof.
  apply (threadfunc_mutex (E := thread_env true) 4096 d0 [] m0 4096 interrupted_end eq_refl).
  - apply (bool_decide_unpack _). vm_compute. exact I.
  - vm_compute. reflexivity.
Defined.

Lemma sleep_time_wraps_witness :
  705032704 = 1000 * 5000000 <-> 5000000 <= 4294967.
Proof.
  apply (sleep_time_wraps (mk_data 64 5000000 20 false)
    [(Usleep 705032704, mk_answer (-1) [])] false 705032704 (mk_answer (-1) [])).
  - apply (run_sleep1 (mk_data 64 5000000 20 false) (mk_answer (-1) [])). discriminate.
  - simpl. lia.
  - reflexivity.
Defined.

#[local] Instance thread_env_ok b : EnvOk (thread_env b).
Proof. split; intros; simpl in *; try done; try lia; case_decide; done. Qed.

Lemma start_thread_outcomes_witness :
  exists b t m', start_thread_obtaining_mutex (thread_env false) 64 10 20 (mk_threads [] ∅) =
      Some (b, mk_threads t m') /\
    exists a, (Malloc sizeof_thread_data, a) ∈ t /\
      (rv a = NULL -> b = false /\ m' = ∅ /\ live t = live []) /\
      (rv a <> NULL -> rv a ∉ live [] /\ live t = {[rv a]} ∪ live [] /\
         m' = <[rv a := mk_data 64 (u32 10) (u32 20) false]> ∅ /\
         exists c, (Create (rv a), c) ∈ t /\ (b = true <-> rv c = 0)).
Proof. apply (start_thread_outcomes (E := thread_env false) 64 10 20 [] ∅). apply thread_env_ok. Defined.
End ThreadingWitness.
