(* ===== verification/Tools.v ===== *)
(** * The command-line programs

    Models [finder-app/writer.c], which writes a string to a file, and
    [aesd-char-driver/ioctl_test.c], which seeks in the device and reads one
    character.  Messages to the terminal and the log are left out, apart
    from the character [ioctl_test] prints.  At the end is the program of
    [examples/autotest-validate], which checks that the automated tests are
    set up. *)

From S2P Require Import Prelude Posix Handler.

Section tools.
Variable E : env.

(** [argv] holds the arguments without their terminators. *)
Definition writer_main (argv : list (list byte)) : ST proc Z :=
  match argv with
  | [_; filename; string] =>
      fd ← sysv E (Open filename (Z.lor (Z.lor O_WRONLY O_CREAT) O_TRUNC) 420);
      if fd =? -1 then mret 1
      else
        res ← sysv E (Write fd string);
        if res =? -1 then mret 1
        else
          _ ← sys E (Close fd);
          mret 0
  | _ => mret 1
  end.

(** The value of the macro [AESDCHAR_IOCSEEKTO]. *)
Variable IOCSEEKTO : Z.
(** What [atoi] makes of a number that is not an [int]. *)
Variable int_of : Z -> Z.

Definition atoi (s : list byte) : Z :=
  match scan_int s with
  | Some (v, _) => int_of v
  | None => 0
  end.

Definition DEVICE_PATH : list byte := bytes_of "/dev/aesdchar".

(** The exit status, and what is printed as the character read: [Some
    None] is an uninitialised variable. *)
Definition ioctl_test_main (argv : list (list byte)) : ST proc (Z * option (option byte)) :=
  match argv with
  | [_; a1; a2] =>
      fd ← sysv E (Open DEVICE_PATH O_RDWR 0);
      if fd <? 0 then mret (1, None)
      else
        result ← sysv E (Ioctl fd IOCSEEKTO (u32 (atoi a1)) (u32 (atoi a2)));
        if negb (result =? 0) then
          _ ← sys E (Close fd);
          mret (1, None)
        else
          a ← sys E (Read fd 1);
          if rv a <? 0 then
            _ ← sys E (Close fd);
            mret (1, None)
          else
            let buf := if 0 <? rv a then rdata a !! 0%nat else None in
            _ ← sys E (Close fd);
            mret (0, Some buf)
  | _ => mret (1, None)
  end.
End tools.

(** ** Properties *)

Section theorems.
Context {E : env}.

(** [writer] replaces the file by the string in one [write] and closes
    it; it returns 0 exactly when the file could be opened and the write
    did not fail, even if it took only a part of the string, and leaves
    the file open when the write failed. *)
Theorem writer_outcomes prog filename string tr m :
  exists r t, writer_main E [prog; filename; string] (mk_proc tr m) = Some (r, mk_proc (tr ++ t) m) /\
    exists o, let oc := (Open filename 577 420, o) in
      (t = [oc] /\ rv o = -1 /\ r = 1) \/
      (exists w, t = [oc; (Write (rv o) string, w)] /\ rv o <> -1 /\ rv w = -1 /\ r = 1) \/
      (exists w z, t = [oc; (Write (rv o) string, w); (Close (rv o), z)] /\ rv o <> -1 /\
         rv w <> -1 /\ r = 0).
Proof.
  unfold writer_main, mbind, st_bind, sysv, sys, mret, st_ret. simpl.
  change (Z.lor (Z.lor O_WRONLY O_CREAT) O_TRUNC) with 577. set (o := E tr _).
  destruct (Z.eqb_spec (rv o) (-1)) as [Ho|Ho].
  { eexists _, _. side. exists o. by left. }
  simpl. set (w := E _ (Write _ _)). destruct (Z.eqb_spec (rv w) (-1)) as [Hw|Hw]; simpl;
    eexists _, _; rewrite <- !app_assoc; (side); exists o; right.
  - left. by exists w.
  - right. eexists w, _. by split.
Qed.

(** A wrong number of arguments: status 1 and no call. *)
Theorem writer_usage argv s : length argv <> 3%nat -> writer_main E argv s = Some (1, s).
Proof. by destruct argv as [|a [|b [|c [|d argv]]]]. Qed.

(** [ioctl_test] closes the device on every path on which it opened
    it, asks for the two numbers of its command line, and prints a
    character it did not read when the position is at the end of the
    device. *)
Theorem ioctl_test_outcomes IOCSEEKTO int_of prog a1 a2 tr m :
  let o := E tr (Open DEVICE_PATH O_RDWR 0) in
  EnvOk E -> 0 <= rv o ->
  exists r c t, ioctl_test_main E IOCSEEKTO int_of [prog; a1; a2] (mk_proc tr m) =
      Some ((r, c), mk_proc (tr ++ t) m) /\
    fds (tr ++ t) = fds tr /\
    (exists i, (Ioctl (rv o) IOCSEEKTO (u32 (atoi int_of a1)) (u32 (atoi int_of a2)), i) ∈ t /\
       (rv i <> 0 -> r = 1)) /\
    (forall a, (Read (rv o) 1, a) ∈ t -> rv a = 0 -> r = 0 /\ c = Some None).
Proof.
  intros o EOk Ho. unfold ioctl_test_main, mbind, st_bind, sysv, sys, mret, st_ret. simpl. fold o.
  assert (rv o ∉ fds tr) as Hnew by by apply open_fresh.
  assert (forall u, (forall x, fds_from x u = x) -> forall z,
    fds (tr ++ (Open DEVICE_PATH O_RDWR 0, o) :: u ++ [(Close (rv o), z)]) = fds tr) as Hfds.
  { intros u Hu z. rewrite fds_app. unfold fds_from in *. simpl. rewrite foldl_app, Hu. simpl.
    unfold fds_step. simpl. destruct (Z.ltb_spec (rv o) 0); [lia|]. set_solver. }
  destruct (Z.ltb_spec (rv o) 0); [lia|]. simpl. set (i := E _ (Ioctl _ _ _ _)).
  destruct (Z.eqb_spec (rv i) 0) as [Hi|Hi]; simpl.
  - set (a := E _ (Read _ _)). destruct (Z.ltb_spec (rv a) 0) as [Ha|Ha]; simpl;
      eexists _, _, _; rewrite <- !app_assoc; (side).
    + split; [by apply (Hfds [_; (Read (rv o) 1, a)])|]. split; [exists i; set_solver|].
      intros b Hb Hb0. assert (b = a) as -> by set_solver. lia.
    + split; [by apply (Hfds [_; (Read (rv o) 1, a)])|]. split; [exists i; set_solver|].
      intros b Hb Hb0. side. assert (b = a) as -> by set_solver.
      by destruct (Z.ltb_spec 0 (rv a)); [lia|].
  - eexists _, _, _. rewrite <- !app_assoc. side. split; [by apply (Hfds [_])|].
    split; [exists i; set_solver|]. set_solver.
Qed.
End theorems.

(** ** The theorems at concrete environments *)

Module ToolsWitness.
(** A device at whose end every read is. *)
Definition tools_env : env := fun tr c =>
  match c with
  | Open _ _ _ => mk_answer (if decide (3 ∈ fds tr) then -1 else 3) []
  | _ => mk_answer 0 []
  end.

#[local] Instance tools_env_ok : EnvOk tools_env.
Proof. split; intros; simpl in *; try done; try lia; case_decide; done. Qed.

Lemma writer_usage_witness : writer_main tools_env [bytes_of "writer"] (start []) = Some (1, start []).
Proof. apply (writer_usage (E := tools_env) [bytes_of "writer"] (start [])). discriminate. Defined.

Lemma ioctl_test_outcomes_witness :
  exists r c t, ioctl_test_main tools_env 0 id [bytes_of "ioctl_test"; bytes_of "1"; bytes_of "2"] (start []) =
      Some ((r, c), mk_proc t ∅) /\
    fds t = fds [] /\
    (exists i, (Ioctl 3 0 1 2, i) ∈ t /\ (rv i <> 0 -> r = 1)) /\
    (forall a, (Read 3 1, a) ∈ t -> rv a = 0 -> r = 0 /\ c = Some None).
Proof.
  apply (ioctl_test_outcomes (E := tools_env) 0 id (bytes_of "ioctl_test") (bytes_of "1") (bytes_of "2") [] ∅).
  - apply tools_env_ok.
  - vm_compute. discriminate.
Defined.
End ToolsWitness.

(** ** autotest-validate *)

Definition this_function_returns_true : bool := true.
Definition this_function_returns_false : bool := false.
Definition my_username : list byte := bytes_of "lynchrl".

(** [printf] with the conversion [%s] at the end of a line. *)
Definition printf_line (text arg : list byte) : list byte := text ++ arg ++ [newline].
Definition bool_name (b : bool) : list byte := if b then bytes_of "true" else bytes_of "false".

(** What the program prints. *)
Definition autotest_main : list byte :=
  printf_line (bytes_of "this_function_returns_true returned ") (bool_name this_function_returns_true) ++
  printf_line (bytes_of "this_function_returns_false returned ") (bool_name this_function_returns_false).
