(* ===== verification/FileInterface.v ===== *)
(** * The file the server reads

    What the server's echo loop needs of the file behind its descriptor is
    class [Readable]: a state that can be read, and the bytes that are left
    in it.  [reader_env] is the environment of a thread whose descriptor is
    such a state.  The echo loop is proved against the class; the instances
    are the character driver ([device_readable], on the handlers of
    [CharDriver]) and a regular file ([regular_readable]), the two builds of
    the server. *)

From S2P Require Import Prelude CircularBuffer KernelApi CharDriver CharDriverSpec CharDriverTheorems.
From S2P Require Import Posix Handler HandlerSpec HandlerTheorems.

(** ** The interface *)

Class Readable (St : Type) : Type := {
  rd : Z -> St -> answer * St;
  (** The bytes from the position on. *)
  rests : St -> list byte -> Prop;
  rd_ok n s l : 0 < n < 2 ^ 63 -> rests s l ->
    let a := (rd n s).1 in
    0 <= rv a <= n /\ (rv a = 0 <-> l = []) /\ rv a <= zlen l /\
    (0 < rv a -> rdata a = take (Z.to_nat (rv a)) l) /\
    rests (rd n s).2 (drop (Z.to_nat (rv a)) l);
}.

Section reader.
Context {St : Type} {R : Readable St}.

(** The state after the reads of a trace. *)
Definition reader_step (s : St) (e : event) : St :=
  match e.1 with
  | Posix.Read _ n => (rd n s).2
  | _ => s
  end.
Definition reader_env (s0 : St) : env := fun tr c =>
  match c with
  | Posix.Read _ n => (rd n (foldl reader_step s0 tr)).1
  | Send _ d | Posix.Write _ d => mk_answer (zlen d) []
  | Open _ _ _ => mk_answer (-1) []
  | _ => mk_answer 0 []
  end.

(** *** Traces the loop leaves: reads answered by the state, and sends *)

Inductive reads_of (s0 : St) : list event -> Prop :=
| reads_nil : reads_of s0 []
| reads_read u fd n : 0 < n < 2 ^ 63 -> reads_of s0 u ->
    reads_of s0 (u ++ [(Posix.Read fd n, (rd n (foldl reader_step s0 u)).1)])
| reads_send u fd d a : reads_of s0 u -> reads_of s0 (u ++ [(Send fd d, a)]).

(** What is left after such a trace. *)
Lemma reads_of_rests s0 l u : rests s0 l -> reads_of s0 u ->
  rests (foldl reader_step s0 u) (drop (consumed u) l).
Proof.
  intros Hl. induction 1 as [|u fd n Hn Hu IH|u fd d a Hu IH]; [done|..].
  - rewrite foldl_app. cbn. set (s := foldl reader_step s0 u) in *.
    destruct (rd_ok n s _ Hn IH) as (Hr & Hz & Hle & Hd & Hrest).
    unfold reader_step. simpl. set (a := (rd n s).1) in *.
    assert (consumed (u ++ [(Posix.Read fd n, a)]) = (consumed u + Z.to_nat (rv a))%nat) as ->;
      [|by rewrite <- drop_drop].
    unfold consumed. rewrite reads_app, concat_app, length_app. cbn.
    destruct (Z.ltb_spec 0 (rv a)) as [Hp|Hp]; cbn; [|lia].
    rewrite app_nil_r, Hd, length_take, length_take by done. lia.
  - rewrite foldl_app. unfold consumed. rewrite reads_app. simpl. by rewrite app_nil_r.
Qed.

(** A further read gets the next of the bytes left. *)
Lemma reader_read s0 l u fd n a :
  0 < n < 2 ^ 63 -> rests s0 l -> reads_of s0 u -> a = reader_env s0 u (Posix.Read fd n) ->
  (rv a <= 0 -> drop (consumed u) l = []) /\
  (0 < rv a -> take (Z.to_nat (rv a)) (rdata a) = take (Z.to_nat (rv a)) (drop (consumed u) l) /\
     rv a <= zlen (drop (consumed u) l)) /\
  reads_of s0 (u ++ [(Posix.Read fd n, a)]) /\
  (rv a <= 0 -> rests (foldl reader_step s0 (u ++ [(Posix.Read fd n, a)])) []).
Proof.
  intros Hn Hl Hu Ha. pose proof (reads_of_rests s0 l u Hl Hu) as Hrest.
  destruct (rd_ok n _ _ Hn Hrest) as (Hr & Hz & Hlen & Hd & Hrest'). simpl in Ha.
  rewrite <- Ha in Hr, Hz, Hlen, Hd, Hrest'. split; [intros; apply Hz; lia|].
  split; [intros Hp; split; [by rewrite Hd, take_take, Nat.min_id|done]|].
  split; [by rewrite Ha; apply reads_read|]. intros Hp.
  rewrite foldl_app. cbn. rewrite (proj1 Hz), drop_nil in Hrest' by lia. exact Hrest'.
Qed.

(** ** The echo loop delivers what is left *)

Lemma echo_loop fuel fd cl s0 l m :
  rests s0 l -> (length l < fuel)%nat ->
  wp (write_to_client (reader_env s0) fuel fd cl) (fun r s' => exists u, r = Some 0 /\
    s' = mk_proc u m /\ reads_of s0 u /\ concat (sends u) = l /\
    rests (foldl reader_step s0 u) []) (mk_proc [] m).
Proof.
  intros Hl Hfuel.
  set (I := fun s => exists u, s = mk_proc u m /\ reads_of s0 u /\ sends u = reads u /\
              concat (reads u) = take (consumed u) l).
  eapply wp_mono; [apply (wp_iterate_total (fun _ : unit => I)
    (fun _ s => length l - consumed (trace s))%nat
    (fun z s' => exists u, z = 0 /\ s' = mk_proc u m /\ reads_of s0 u /\ concat (sends u) = l /\
                   rests (foldl reader_step s0 u) []))|..].
  - intros _ _ (u & -> & Hu & Hsr & Hcat). wp_step. apply wp_sys. intros a Ha. cbv beta zeta.
    destruct (reader_read s0 l u fd BUFFER_SIZE a) as (Hz & Hd & Hu1 & Hend); [unfold BUFFER_SIZE; lia|done..|].
    destruct (Z.ltb_spec 0 (rv a)) as [Hn|Hn]; cbn [negb].
    + destruct (Z.ltb_spec (rv a) 0); [lia|]. destruct (Hd Hn) as [Hdd Hle].
      wp_step. apply wp_sysv. intros b Hb. cbv beta. simpl in Hb.
      set (d := take (Z.to_nat (rv a)) (rdata a)) in *.
      set (v := u ++ [(Posix.Read fd BUFFER_SIZE, a); (Send cl d, b)]).
      destruct (echo_round u fd cl BUFFER_SIZE a b d v) as (Hrv & Hsv & _); [done..|].
      destruct (echo_round_prefix u fd cl BUFFER_SIZE a b d v l) as (Hlen & Hc & Hcat'); [done..|].
      assert (rv b = rv a) as -> by by rewrite Hb. rewrite Z.eqb_refl. cbn [negb]. wp_step.
      split; [|cbn [trace]; rewrite <- app_assoc;
               by change (length l - consumed v < length l - consumed u)%nat; lia].
      exists v. split; [by rewrite <- app_assoc|]. split; [|split; [by rewrite Hsv, Hrv, Hsr|done]].
      unfold v. rewrite (app_assoc u [_] [_] : u ++ [_; _] = _). by apply reads_send.
    + wp_step. eexists. side. side. side. split; [|apply Hend; lia].
      rewrite sends_app, app_nil_r, Hsr. apply consumed_all; [apply Hz; lia|done].
  - exists []. side. split; [apply reads_nil|done].
  - unfold consumed. simpl. lia.
  - intros r s' (z & -> & u & -> & H). exists u. by destruct H.
Qed.
End reader.

(** ** A regular file *)

Record regular : Type := mk_regular {
  file_contents : list byte;
  file_pos : nat;
}.

Definition regular_read (n : Z) (s : regular) : answer * regular :=
  let d := take (Z.to_nat n) (drop (file_pos s) (file_contents s)) in
  (mk_answer (zlen d) d, mk_regular (file_contents s) (file_pos s + length d)).

#[export] Program Instance regular_readable : Readable regular := {
  rd := regular_read;
  rests s l := l = drop (file_pos s) (file_contents s);
}.
Next Obligation.
  intros n s l Hn ->. simpl. rewrite length_take, <- drop_drop. split; [lia|]. split.
  { rewrite <- length_zero_iff_nil. lia. }
  split; [lia|]. split; [|f_equal; lia].
  intros _. rewrite Nat2Z.id. apply take_min_length.
Qed.

(** Reading does not go past the end. *)
Lemma regular_pos c u : reads_of (mk_regular c 0) u ->
  file_contents (foldl reader_step (mk_regular c 0) u) = c /\
  (file_pos (foldl reader_step (mk_regular c 0) u) <= length c)%nat.
Proof.
  induction 1 as [|u fd n Hn Hu [IH1 IH2]|u fd d a Hu [IH1 IH2]]; simpl; [split; [done|lia]|..];
    rewrite foldl_app; cbn; [|done].
  side. rewrite length_take, length_drop, IH1. lia.
Qed.

(** ** The device *)

(** Kernel states in which the reading process is not interrupted and its
    buffer is valid. *)
Class QuietKernel (K : Kernel) : Type := {
  calm : kst -> Prop;
  calm_lock m k : calm k -> held m = false ->
    (mutex_lock_interruptible m k).1.1 = 0 /\ calm (mutex_lock_interruptible m k).2;
  calm_copy dst src off n k : calm k ->
    (copy_to_user dst src off n k).1 = 0 /\ calm (copy_to_user dst src off n k).2;
}.

Section device.
Context {K : Kernel} {KOk : KernelOk K} {KQ : QuietKernel K}.

(** The address of the thread's [read_buffer]. *)
Definition read_buffer : Z := 4096.

(** A descriptor of the device: the world and the open file. *)
Definition device : Type := world * file.

(** What the C library makes of the result of a handler: -1 for every
    error. *)
Definition libc (ret : Z) : Z := if ret <? 0 then -1 else ret.

Lemma libc_nonneg ret : 0 <= ret -> libc ret = ret.
Proof. intros. unfold libc. by destruct (Z.ltb_spec ret 0); [lia|]. Qed.

(** [read(fd, read_buffer, n)] as the file system makes it: the handler
    of the table of operations gets the position of the file. *)
Definition device_read (n : Z) (s : device) : answer * device :=
  match exec aesd_fops s.2 (CharDriverTheorems.Read read_buffer n) s.1 with
  | Some ((ret, f), w') => (mk_answer (libc ret) (ubytes (kern w') read_buffer (libc ret)), (w', f))
  | None => (mk_answer (-1) [], s)
  end.

(** Without interruption and faults a read returns no error. *)
Lemma aesd_read_quiet filp buf count pos w ret pos' w' :
  held (lock (aesd_device w)) = false -> calm (kern w) -> 0 <= count < 2 ^ 63 ->
  aesd_read filp buf count pos w = Some ((ret, pos'), w') -> 0 <= ret /\ calm (kern w').
Proof.
  intros Hheld Hcalm Hc. unfold aesd_read, mbind, st_bind.
  destruct (get_dev filp w) as [[[] w0]|] eqn:Hg; [|done].
  assert (w0 = w) as ->.
  { unfold get_dev in Hg. destruct (private_data filp) as [[]|]; [|done]. by injection Hg. }
  unfold lock_dev. pose proof (calm_lock (lock (aesd_device w)) (kern w) Hcalm Hheld) as [Hl Hk].
  destruct (mutex_lock_interruptible _ _) as [[r m] k]. simpl in Hl, Hk. subst r. simpl.
  set (w1 := set_dev _ _). destruct (aesd_read_locked buf count pos w1) as [[[r p] w2]|] eqn:Hr; [|done].
  destruct (unlock_dev w2) as [[[] w3]|] eqn:Hu; [|done]. unfold mret, st_ret. intros [= <- <- <-].
  assert (kern w3 = kern w2) as ->.
  { unfold unlock_dev in Hu. destruct (held (lock (aesd_device w2))); [|done]. by injection Hu as <-. }
  assert (calm (kern w1)) as Hcalm1 by exact Hk. clearbody w1. clear Hu w3 Hk k m.
  revert Hr. unfold aesd_read_locked, mbind, st_bind, st_opt.
  destruct (aesd_circular_buffer_find_entry_offset_for_fpos _ _) as [[[i o]|]|]; [|by intros [= <- <- <-]|done].
  destruct (entry_at _ _) as [e|]; [|done]. destruct (entry_size e <=? o); [by intros [= <- <- <-]|].
  unfold do_copy_to_user, mbind, st_bind. destruct (check_range _ _ _ _) as [[b w4]|] eqn:Hcr; [|done].
  assert (w4 = w1) as ->.
  { revert Hcr. unfold check_range, mbind, st_bind, st_opt. destruct (blk _ _); [|done].
    case_decide; [|done]. by intros [= _ <-]. }
  unfold on_kern.
  pose proof (calm_copy buf (buffptr e) o (count `min` (entry_size e -u64 o)) (kern w1) Hcalm1) as [Hq Hk].
  destruct (copy_to_user _ _ _ _ _) as [x k']. simpl in Hq, Hk. subst x. simpl. intros [= <- _ <-].
  pose proof (u64_range (entry_size e - o)). split; [rewrite s64_small; lia|done].
Qed.

Definition device_rests (s : device) (l : list byte) : Prop :=
  exists a, device_rep s.1 a /\ calm (kern s.1) /\ is_Some (private_data s.2) /\
    0 <= f_pos s.2 < 2 ^ 63 /\
    l = drop (Z.to_nat (f_pos s.2)) (stream a).

(** The bytes a successful read delivers are the next bytes of the stream. *)
Lemma aread_stream a pos n ret data :
  aread a pos n ret data -> 0 <= ret -> 0 < n -> 0 <= pos ->
  let l := drop (Z.to_nat pos) (stream a) in
  0 <= ret <= n /\ (ret = 0 <-> l = []) /\ ret <= zlen l /\ data = take (Z.to_nat ret) l.
Proof.
  intros Har Hret Hn Hpos. simpl.
  destruct (aread_success _ _ _ _ _ Har Hret) as [(-> & -> & Hend)|(i & off & c & Hloc & Hc & Hr & ->)].
  - rewrite drop_ge by lia. simpl. split; [lia|]. side. split; [lia|done].
  - unfold stream. rewrite (locate_concat _ _ _ _ _ Hpos Hloc Hc).
    apply locate_Some in Hloc as (s & Hs & Hoff & _); [|apply zlens_nonneg|done].
    apply list_lookup_fmap_Some in Hs as (c' & -> & Hc'). rewrite Hc in Hc'. injection Hc' as <-.
    assert (zlen (drop (Z.to_nat off) c) = zlen c - off) as Hlen by (rewrite length_drop; lia).
    rewrite length_app. split; [lia|]. split.
    { split; [lia|]. intros Hnil. apply (f_equal length) in Hnil. rewrite length_app in Hnil. simpl in Hnil. lia. }
    split; [lia|]. by rewrite take_app_le by lia.
Qed.

(** A read in a calm kernel: the next bytes, and the position after them. *)
Lemma device_read_run w f a n :
  device_rep w a -> calm (kern w) -> is_Some (private_data f) -> 0 <= f_pos f < 2 ^ 63 ->
  0 < n < 2 ^ 63 ->
  let l := drop (Z.to_nat (f_pos f)) (stream a) in
  exists ret w', aesd_read f read_buffer n (f_pos f) w = Some ((ret, f_pos f + ret), w') /\
    device_rep w' a /\ calm (kern w') /\
    0 <= ret <= n /\ (ret = 0 <-> l = []) /\ ret <= zlen l /\
    ubytes (kern w') read_buffer ret = take (Z.to_nat ret) l /\ f_pos f + ret < 2 ^ 63.
Proof.
  intros Hd Hcalm Hopen Hpos Hn l.
  destruct (wp_inv _ _ _ (aesd_read_correct w a f read_buffer n (f_pos f) Hd Hopen ltac:(lia) Hpos))
    as ([ret pos'] & w' & Hrun & _ & a' & Hd' & -> & Hp & data & Har & Hdata).
  cbn [fst snd] in Hp, Har, Hdata.
  pose proof (aesd_read_quiet f read_buffer n (f_pos f) w ret pos' w'
    (dev_unlocked _ _ Hd) Hcalm ltac:(lia) Hrun) as [Hret Hcalm'].
  destruct (aread_stream _ _ _ _ _ Har Hret ltac:(lia) ltac:(lia)) as (H1 & H2 & H3 & H4).
  fold l in H2, H3, H4. unfold advance_pos in Hp. destruct (Z.ltb_spec ret 0); [lia|].
  destruct (buf_rep_total _ _ _ (proj1 (dev_rep _ _ Hd))) as [_ Hmax].
  fold (stream a) in Hmax. unfold l in H3. rewrite length_drop in H3.
  assert (pos' = f_pos f + ret) as -> by (rewrite Hp, s64_small; [done|]; lia).
  exists ret, w'. side. side. side. side. side. split; [unfold l; by rewrite length_drop|].
  split; [by rewrite Hdata|lia].
Qed.

Lemma device_read_eq w f n ret p w' :
  aesd_read f read_buffer n (f_pos f) w = Some ((ret, p), w') -> 0 <= ret ->
  device_read n (w, f) =
    (mk_answer ret (ubytes (kern w') read_buffer ret), (w', mk_file p (private_data f))).
Proof.
  intros Hrun Hret. unfold device_read. cbn [exec aesd_fops fop_read fst snd].
  unfold mbind, st_bind. rewrite Hrun. cbn [mret st_ret]. by rewrite libc_nonneg.
Qed.

#[export] Program Instance device_readable : Readable device := {
  rd := device_read;
  rests := device_rests;
}.
Next Obligation.
  intros n [w f] l Hn (a & Hd & Hcalm & Hopen & Hpos & ->). cbn [fst snd] in *.
  destruct (device_read_run w f a n Hd Hcalm Hopen Hpos Hn)
    as (ret & w' & Hrun & Hd' & Hcalm' & H1 & H2 & H3 & H4 & Hlt).
  rewrite (device_read_eq _ _ _ _ _ _ Hrun) by lia. cbn [rv rdata fst snd].
  side. side. side. side. exists a. cbn [fst snd f_pos private_data]. side. side. side. split; [lia|].
  rewrite drop_drop. f_equal. lia.
Qed.
End device.

(** ** Properties *)

(** The echo of the server over the driver: for a thread whose
    descriptor is an open file of the device at position [pos], the loop of
    [write_to_client], its reads served by [aesd_read], ends and has sent
    exactly the bytes of the stored commands from [pos] on; the position is
    then at the end, and the device is unchanged. *)
Theorem device_echo {K : Kernel} {KOk : KernelOk K} {KQ : QuietKernel K} w a filp cl fd fuel m :
  device_rep w a -> calm (kern w) -> is_Some (private_data filp) -> 0 <= f_pos filp < 2 ^ 63 ->
  (length (stream a) < fuel)%nat ->
  exists u, write_to_client (reader_env ((w, filp) : device)) fuel fd cl (mk_proc [] m) =
      Some (Some 0, mk_proc u m) /\
    concat (sends u) = drop (Z.to_nat (f_pos filp)) (stream a) /\
    exists w' filp', foldl reader_step ((w, filp) : device) u = (w', filp') /\
      device_rests (w', filp') [].
Proof.
  intros Hd Hcalm Hopen Hpos Hfuel.
  assert (rests ((w, filp) : device) (drop (Z.to_nat (f_pos filp)) (stream a))) as Hr by by exists a.
  destruct (wp_inv _ _ _ (echo_loop fuel fd cl _ _ m Hr ltac:(rewrite length_drop; lia)))
    as (r & s' & Hrun & u & -> & -> & _ & Hs & Hend).
  exists u. side. side.
  destruct (foldl reader_step _ u) as [w' filp'] eqn:Hf. by exists w', filp'.
Qed.

(** The echo over a regular file sends what follows the position of the
    descriptor, not the whole file: after a complete echo and the append of
    another packet, the next echo sends that packet only. *)
Theorem second_echo_partial contents d cl fd fuel m :
  (length contents + length d < fuel)%nat ->
  exists u1 u2,
    write_to_client (reader_env (mk_regular contents 0)) fuel fd cl (mk_proc [] m) =
      Some (Some 0, mk_proc u1 m) /\ concat (sends u1) = contents /\
    let s1 := foldl reader_step (mk_regular contents 0) u1 in
    write_to_client (reader_env (mk_regular (contents ++ d) (file_pos s1))) fuel fd cl (mk_proc [] m) =
      Some (Some 0, mk_proc u2 m) /\ concat (sends u2) = d.
Proof.
  intros Hfuel.
  assert (rests (mk_regular contents 0) contents) as Hr1 by reflexivity.
  assert (rests (mk_regular (contents ++ d) (length contents)) d) as Hr2
    by (simpl; by rewrite drop_app_length).
  destruct (wp_inv _ _ _ (echo_loop fuel fd cl (mk_regular contents 0) contents m Hr1 ltac:(lia)))
    as (r & s' & Hrun & u1 & -> & -> & Hreads & Hs & Hend).
  destruct (regular_pos contents u1 Hreads) as [Hc Hle].
  assert (file_pos (foldl reader_step (mk_regular contents 0) u1) = length contents) as Hpos.
  { simpl in Hend. rewrite Hc in Hend. apply (f_equal length) in Hend. rewrite length_drop in Hend.
    simpl in Hend. lia. }
  destruct (wp_inv _ _ _ (echo_loop fuel fd cl (mk_regular (contents ++ d) (length contents)) d m
    Hr2 ltac:(lia))) as (r2 & s2 & Hrun2 & u2 & -> & -> & _ & Hs2 & _).
  exists u1, u2. side. side. cbv zeta. by rewrite Hpos.
Qed.

(** ** The theorems at concrete files *)

Module FileWitness.
Import SimKernel.

(** Nothing fails any more when the script is used up. *)
#[export] Program Instance sim_quiet : QuietKernel sim_kernel := { calm s := s_script s = [] }.
Next Obligation. intros m [h u s r c] Hs _. simpl in *. by subst s. Qed.
Next Obligation. intros dst src off n [h u s r c] Hs. simpl in *. by subst s. Qed.

Lemma device_echo_witness :
  exists u, write_to_client
      (reader_env ((DriverWitness.dev0, Demo.opened 3) : device)) 20 5 4 (mk_proc [] ∅) =
      Some (Some 0, mk_proc u ∅) /\
    concat (sends u) = bytes_of "te1" ++ [newline] ++ bytes_of "swrite2" ++ [newline] /\
    exists w' filp', foldl reader_step ((DriverWitness.dev0, Demo.opened 3) : device) u = (w', filp') /\
      device_rests (w', filp') [].
Proof.
  apply (device_echo DriverWitness.dev0 DriverWitness.adev0 (Demo.opened 3) 4 5 20 ∅
    DriverWitness.dev0_rep).
  - vm_compute. reflexivity.
  - apply DriverWitness.opened_some.
  - simpl. lia.
  - apply (bool_decide_unpack _). vm_compute. exact I.
Defined.

Lemma second_echo_partial_witness :
  exists u1 u2,
    write_to_client (reader_env (mk_regular (bytes_of "one") 0)) 9 5 4 (mk_proc [] ∅) =
      Some (Some 0, mk_proc u1 ∅) /\ concat (sends u1) = bytes_of "one" /\
    let s1 := foldl reader_step (mk_regular (bytes_of "one") 0) u1 in
    write_to_client (reader_env (mk_regular (bytes_of "one" ++ bytes_of "two") (file_pos s1))) 9 5 4
      (mk_proc [] ∅) = Some (Some 0, mk_proc u2 ∅) /\ concat (sends u2) = bytes_of "two".
Proof. apply (second_echo_partial (bytes_of "one") (bytes_of "two") 4 5 9 ∅). simpl. lia. Defined.
End FileWitness.
