(* ===== verification/Conversation.v ===== *)
(** * A whole conversation with a client

    Class [Storage] is what a connection needs of the file system: calls on
    descriptors, and what they do to the bytes of the file and to the
    positions of the descriptors.  [serve] says what the client gets back
    for the actions of the protocol: after each packet and each seek the
    bytes from the position on.  [conversation] is proved against the class:
    the thread of [handle_connection], in a system in which nothing fails
    and whose file is such a storage, ends, has sent what [serve] says, and
    leaves the file with the contents [serve] says.

    The instances are a regular file, here, and the character driver, in
    [DeviceFile]: the two builds of the server. *)

From S2P Require Import Prelude Posix Handler HandlerSpec HandlerTheorems.

(** ** The interface *)

Class Storage (St : Type) : Type := {
  (** What the file holds: the bytes a reader sees, what a write does to
      them, the position a seek command leads to. *)
  image : Type;
  image_bytes : image -> list byte;
  image_append : list byte -> image -> option image;
  image_seek : forall write_cmd write_cmd_offset : Z, image -> option nat;
  (** A bound on the bytes. *)
  image_size : image -> nat;
  (** The request code of the seek command. *)
  seek_request : Z;

  (** The calls, on the descriptor they are made on. *)
  do_open : Z -> St -> St;
  do_close : Z -> St -> St;
  do_read : Z -> Z -> St -> answer * St;
  do_write : Z -> list byte -> St -> answer * St;
  do_ioctl : Z -> Z -> Z -> Z -> St -> answer * St;

  (** The contents; that a descriptor is open, and its position. *)
  keeps : St -> image -> Prop;
  is_open : St -> Z -> Prop;
  offset_of : St -> Z -> nat -> Prop;
  offset_open s fd n : offset_of s fd n -> is_open s fd;

  bytes_size i : (length (image_bytes i) <= image_size i)%nat;
  append_size d i i' : image_append d i = Some i' -> (image_size i' <= image_size i + length d)%nat;

  open_keeps fd s i : keeps s i -> keeps (do_open fd s) i;
  open_offset fd s : offset_of (do_open fd s) fd 0;
  open_other fd fd' s n : fd' <> fd -> offset_of s fd' n -> offset_of (do_open fd s) fd' n;
  close_keeps fd s i : keeps s i -> keeps (do_close fd s) i;
  close_other fd fd' s n : fd' <> fd -> offset_of s fd' n -> offset_of (do_close fd s) fd' n;

  do_read_ok fd n s i pos : 0 < n < 2 ^ 63 -> keeps s i -> offset_of s fd pos ->
    let a := (do_read fd n s).1 in
    let l := drop pos (image_bytes i) in
    0 <= rv a <= n /\ (rv a = 0 <-> l = []) /\ rv a <= zlen l /\
    (0 < rv a -> rdata a = take (Z.to_nat (rv a)) l) /\
    keeps (do_read fd n s).2 i /\ offset_of (do_read fd n s).2 fd (pos + Z.to_nat (rv a));
  do_read_max fd n s : 0 <= n ->
    rv (do_read fd n s).1 <= n /\
    (0 < rv (do_read fd n s).1 -> zlen (rdata (do_read fd n s).1) = rv (do_read fd n s).1);

  do_write_ok fd d s i : newline ∈ d -> zlen d < 2 ^ 63 -> keeps s i -> is_open s fd ->
    match image_append d i with
    | Some i' => rv (do_write fd d s).1 <> -1 /\ keeps (do_write fd d s).2 i'
    | None => rv (do_write fd d s).1 = -1 /\ keeps (do_write fd d s).2 i
    end;
  do_write_other fd fd' d s n : fd' <> fd -> offset_of s fd' n ->
    offset_of (do_write fd d s).2 fd' n;

  do_seek_ok fd wc wo s i pos : 0 <= wc < 2 ^ 32 -> 0 <= wo < 2 ^ 32 ->
    keeps s i -> offset_of s fd pos ->
    let r := do_ioctl fd seek_request wc wo s in
    keeps r.2 i /\
    match image_seek wc wo i with
    | Some p => rv r.1 = 0 /\ offset_of r.2 fd p
    | None => rv r.1 <> 0 /\ offset_of r.2 fd pos
    end;

  (** A call leaves the other descriptors alone. *)
  do_read_other fd fd' n s m : fd' <> fd -> offset_of s fd' m -> offset_of (do_read fd n s).2 fd' m;
  do_ioctl_other fd fd' r wc wo s m : fd' <> fd -> offset_of s fd' m -> offset_of (do_ioctl fd r wc wo s).2 fd' m;
  open_stays fd fd' s : fd' <> fd -> is_open s fd' -> is_open (do_open fd s) fd';
  close_stays fd fd' s : fd' <> fd -> is_open s fd' -> is_open (do_close fd s) fd';
  read_stays fd fd' n s : fd' <> fd -> is_open s fd' -> is_open (do_read fd n s).2 fd';
  write_stays fd fd' d s : is_open s fd' -> is_open (do_write fd d s).2 fd';
  ioctl_stays fd fd' r wc wo s : fd' <> fd -> is_open s fd' -> is_open (do_ioctl fd r wc wo s).2 fd';
}.

(** ** What the client gets back *)

Section spec.
Context {St : Type} {F : Storage St}.

(** The position after everything was read. *)
Definition read_up (i : image) (pos : nat) : nat := (pos `max` length (image_bytes i))%nat.

(** The bytes sent and the contents in the end, for the actions [acts] of a
    connection whose descriptor is at [pos]: an action that fails ends the
    connection. *)
Fixpoint serve (acts : list action) (i : image) (pos : nat) : list byte * image :=
  match acts with
  | [] => ([], i)
  | Append d :: acts =>
      match image_append d i with
      | Some i' =>
          let r := serve acts i' (read_up i' pos) in
          (drop pos (image_bytes i') ++ r.1, r.2)
      | None => ([], i)
      end
  | Seek wc wo :: acts =>
      match image_seek wc wo i with
      | Some p =>
          let r := serve acts i (read_up i p) in
          (drop p (image_bytes i) ++ r.1, r.2)
      | None => ([], i)
      end
  end.

(** The actions of the chunks [cs] when [d] has been collected. *)
Fixpoint plan (int_of : Z -> Z) (d : list byte) (cs : list (list byte)) : list action :=
  match cs with
  | [] => []
  | ch :: cs =>
      let st := feed int_of ([], d) ch in
      st.1 ++ plan int_of st.2 cs
  end.

Lemma feed_acts int_of acts d ch :
  feed int_of (acts, d) ch = (acts ++ (feed int_of ([], d) ch).1, (feed int_of ([], d) ch).2).
Proof. unfold feed. simpl. repeat case_decide; simpl; by rewrite ?app_nil_r. Qed.

Lemma feed_short int_of d ch : (length (feed int_of ([], d) ch).2 <= length d + length ch)%nat.
Proof. unfold feed. simpl. repeat case_decide; simpl; rewrite ?length_app; lia. Qed.

Lemma plan_session int_of cs acts d :
  (foldl (feed int_of) (acts, d) cs).1 = acts ++ plan int_of d cs.
Proof.
  revert acts d. induction cs as [|ch cs IH]; intros acts d; cbn [foldl plan]; [by rewrite app_nil_r|].
  by rewrite feed_acts, IH, app_assoc.
Qed.

(** The state of the file after the events of a trace. *)
Definition file_step (s : St) (e : event) : St :=
  match e.1 with
  | Open _ _ _ => if rv e.2 <? 0 then s else do_open (rv e.2) s
  | Close fd => do_close fd s
  | Read fd n => (do_read fd n s).2
  | Write fd d => (do_write fd d s).2
  | Ioctl fd r wc wo => (do_ioctl fd r wc wo s).2
  | _ => s
  end.
Definition file_after (s0 : St) (tr : list event) : St := foldl file_step s0 tr.

(** The system of a connection to the client [cl]: memory and descriptors
    are there, the client sends the chunks [inbox], ends the connection and
    takes what it is sent, and the calls on the file are those of the
    storage. *)
Record served (E : env) (s0 : St) (cl : Z) (inbox : list (list byte)) : Prop := {
  sv_env : EnvOk E;
  sv_malloc tr n : rv (E tr (Malloc n)) <> NULL;
  sv_realloc tr p n : n <= PTRDIFF_MAX -> rv (E tr (Realloc p n)) <> NULL;
  sv_open tr path flags mode : 0 <= rv (E tr (Open path flags mode));
  sv_read tr fd n : E tr (Read fd n) = (do_read fd n (file_after s0 tr)).1;
  sv_write tr fd d : E tr (Write fd d) = (do_write fd d (file_after s0 tr)).1;
  sv_ioctl tr fd r wc wo : E tr (Ioctl fd r wc wo) = (do_ioctl fd r wc wo (file_after s0 tr)).1;
  sv_send tr d : rv (E tr (Send cl d)) = zlen d;
  sv_recv tr : E tr (Recv cl (BUFFER_SIZE - 1)) =
    match inbox !! length (chunks tr) with
    | Some ch => mk_answer (zlen ch) ch
    | None => mk_answer 0 []
    end;
  sv_chunks : Forall (fun ch => 0 < zlen ch < BUFFER_SIZE) inbox;
}.
End spec.

(** ** The thread in such a system *)

Section conversation.
Context {St : Type} {F : Storage St}.
Context {E : env} {s0 : St} {cl : Z} {inbox : list (list byte)}.
Hypothesis SV : served E s0 cl inbox.
#[local] Instance served_env : EnvOk E := sv_env _ _ _ _ SV.
Implicit Types (tr u : list event) (i : image).

(** Where the file and the client stand after a trace: the contents [i],
    the descriptor [fd] at [pos], [out] sent, [cs] received. *)
Record stands (fd : Z) (tr : list event) (i : image) (pos : nat) (out : list byte)
    (cs : list (list byte)) : Prop := {
  st_keeps : keeps (file_after s0 tr) i;
  st_offset : offset_of (file_after s0 tr) fd pos;
  st_out : concat (sends tr) = out;
  st_chunks : chunks tr = cs;
  st_fd : fd ∈ fds tr;
}.

(** Events that change none of this. *)
Definition aside (e : event) : bool :=
  match e.1 with
  | Malloc _ | Realloc _ _ | Free _ | Lock _ | Unlock _ | StoreDone _ => true
  | _ => false
  end.

Lemma stands_aside fd tr i pos out cs u :
  forallb aside u = true -> stands fd tr i pos out cs -> stands fd (tr ++ u) i pos out cs.
Proof.
  intros Hu. revert tr. induction u as [|[c a] u IH]; intros tr Hs; [by rewrite app_nil_r|].
  simpl in Hu. apply andb_true_iff in Hu as [Hc Hu].
  rewrite (app_assoc tr [(c, a)] u : tr ++ _ :: _ = _). apply (IH Hu).
  assert (forall s, file_step s (c, a) = s) as Hstep by by destruct c.
  assert (forall s, fds_step s (c, a) = s) as Hfds by by destruct c.
  destruct Hs as [H1 H2 H3 H4 H5]. split.
  - unfold file_after. rewrite foldl_app. cbn. by rewrite Hstep.
  - unfold file_after. rewrite foldl_app. cbn. by rewrite Hstep.
  - rewrite sends_app. replace (sends [(c, a)]) with (@nil (list byte)) by by destruct c.
    by rewrite app_nil_r.
  - rewrite chunks_app. replace (chunks [(c, a)]) with (@nil (list byte)) by by destruct c.
    by rewrite app_nil_r.
  - rewrite fds_app. cbn. by rewrite Hfds.
Qed.

Lemma mem_aside u : forallb mem_event u = true -> forallb aside u = true.
Proof.
  induction u as [|[c a] u IH]; [done|]. simpl. intros [Hc Hu]%andb_true_iff.
  rewrite (IH Hu). by destruct c.
Qed.

Lemma file_after_snoc tr c a : file_after s0 (tr ++ [(c, a)]) = file_step (file_after s0 tr) (c, a).
Proof. unfold file_after. by rewrite foldl_app. Qed.

Lemma fds_snoc_in fd tr c a : fd ∈ fds tr -> (forall x, c = Close x -> x <> fd) ->
  fd ∈ fds (tr ++ [(c, a)]).
Proof.
  intros Hin Hc. rewrite fds_app. cbn. unfold fds_step.
  destruct c; simpl; try done; try (case_match; set_solver). specialize (Hc _ eq_refl). set_solver.
Qed.

(** *** The echo *)

Lemma stands_read fd tr i pos out cs a :
  stands fd tr i pos out cs -> a = E tr (Read fd BUFFER_SIZE) ->
  let l := drop pos (image_bytes i) in
  (rv a <= 0 -> l = []) /\
  (0 < rv a -> rdata a = take (Z.to_nat (rv a)) l /\ rv a <= zlen l) /\
  stands fd (tr ++ [(Read fd BUFFER_SIZE, a)]) i (pos + Z.to_nat (rv a)) out cs.
Proof.
  intros [H1 H2 H3 H4 H5] Ha l. rewrite (sv_read _ _ _ _ SV) in Ha.
  destruct (do_read_ok fd BUFFER_SIZE (file_after s0 tr) i pos) as (Hr & Hz & Hle & Hd & Hk & Ho);
    [unfold BUFFER_SIZE; lia|done..|]. rewrite <- Ha in Hr, Hz, Hle, Hd, Ho.
  split; [intros; apply Hz; lia|]. split; [by intros; split; [apply Hd|]|].
  split; rewrite ?file_after_snoc; [done|done|..].
  - by rewrite sends_app, app_nil_r.
  - by rewrite chunks_app, app_nil_r.
  - by apply fds_snoc_in.
Qed.

Lemma stands_send fd tr i pos out cs d a :
  stands fd tr i pos out cs -> stands fd (tr ++ [(Send cl d, a)]) i pos (out ++ d) cs.
Proof.
  intros [H1 H2 H3 H4 H5]. split; rewrite ?file_after_snoc; [done|done|..].
  - rewrite sends_app, concat_app, H3. simpl. by rewrite app_nil_r.
  - by rewrite chunks_app, app_nil_r.
  - by apply fds_snoc_in.
Qed.

Lemma echo_stands fuel fd tr m i pos out cs :
  stands fd tr i pos out cs -> (length (image_bytes i) < fuel)%nat ->
  wp (write_to_client E fuel fd cl) (fun r s' => r = Some 0 /\ exists tr',
    s' = mk_proc tr' m /\
    stands fd tr' i (read_up i pos) (out ++ drop pos (image_bytes i)) cs) (mk_proc tr m).
Proof.
  intros Hs Hfuel. set (B := image_bytes i) in *.
  set (I := fun (k : nat) s => exists tr', s = mk_proc tr' m /\ (pos + k <= read_up i pos)%nat /\
              stands fd tr' i (pos + k) (out ++ take k (drop pos B)) cs).
  enough (forall f k s, I k s -> (length B - (pos + k) < f)%nat ->
    wp (write_to_client E f fd cl) (fun r s' => r = Some 0 /\ exists tr',
      s' = mk_proc tr' m /\ stands fd tr' i (read_up i pos) (out ++ drop pos B) cs) s) as H.
  { apply (H fuel 0%nat); [|lia]. exists tr. rewrite Nat.add_0_r, app_nil_r. side.
    split; [unfold read_up; lia|done]. }
  unfold write_to_client. induction f as [|f IH]; intros k s (tr' & -> & Hle & Hs') Hf; [lia|].
  cbn [iterate]. unfold obind at 1. wp_step. wp_step. apply wp_sys. intros a Ha. cbv beta zeta.
  destruct (stands_read _ _ _ _ _ _ a Hs' Ha) as (Hz & Hd & Hs1). fold B in Hz, Hd.
  unfold read_up in *. fold B in Hle |- *.
  destruct (Z.ltb_spec 0 (rv a)) as [Hn|Hn]; cbn [negb].
  - destruct (Z.ltb_spec (rv a) 0); [lia|]. destruct (Hd Hn) as [Hdd Hlen].
    rewrite length_drop in Hlen. wp_step. apply wp_sysv. intros b Hb. cbv beta.
    rewrite Hdd, take_take, Nat.min_id in Hb |- *.
    assert (rv b = rv a) as ->.
    { rewrite Hb, (sv_send _ _ _ _ SV), length_take, length_drop. lia. }
    rewrite Z.eqb_refl. cbn [negb]. wp_step. apply (IH (k + Z.to_nat (rv a))%nat); [|lia].
    eexists. side. split; [unfold read_up; fold B; lia|].
    pose proof (stands_send _ _ _ _ _ _ (take (Z.to_nat (rv a)) (drop (pos + k) B)) b Hs1) as Hs2.
    rewrite <- (drop_drop B k pos), <- (app_assoc out), take_take_drop, <- Nat.add_assoc, drop_drop in Hs2. exact Hs2.
  - wp_step. side. eexists. side. specialize (Hz Hn).
    assert (length B <= pos + k)%nat as HB.
    { apply (f_equal length) in Hz. rewrite length_drop in Hz. simpl in Hz. lia. }
    replace (Z.to_nat (rv a)) with 0%nat in Hs1 by lia. rewrite take_ge in Hs1 by (rewrite length_drop; lia).
    by replace (pos `max` length B)%nat with (pos + k + 0)%nat by lia.
Qed.

(** *** Appending a packet *)

Lemma stands_open fd tr i pos out cs path flags mode a :
  stands fd tr i pos out cs -> a = E tr (Open path flags mode) ->
  let tr' := tr ++ [(Open path flags mode, a)] in
  0 <= rv a /\ rv a <> fd /\ stands fd tr' i pos out cs /\ offset_of (file_after s0 tr') (rv a) 0.
Proof.
  intros [H1 H2 H3 H4 H5] Ha tr'. pose proof (sv_open _ _ _ _ SV tr path flags mode) as Hge.
  pose proof (open_fresh tr path flags mode Hge) as Hnew. rewrite <- Ha in Hge, Hnew.
  assert (file_after s0 tr' = do_open (rv a) (file_after s0 tr)) as Hst.
  { unfold tr'. rewrite file_after_snoc. unfold file_step. simpl. by destruct (Z.ltb_spec (rv a) 0); [lia|]. }
  side. split; [set_solver|]. split; [|rewrite Hst; apply open_offset].
  split; rewrite ?Hst; [by apply open_keeps|apply open_other; set_solver|..].
  - unfold tr'. by rewrite sends_app, app_nil_r.
  - unfold tr'. by rewrite chunks_app, app_nil_r.
  - by apply fds_snoc_in.
Qed.

Lemma stands_write fd fd' tr i pos pos' out cs d b :
  stands fd tr i pos out cs -> offset_of (file_after s0 tr) fd' pos' -> fd' <> fd ->
  newline ∈ d -> zlen d < 2 ^ 63 -> b = E tr (Write fd' d) ->
  let tr' := tr ++ [(Write fd' d, b)] in
  match image_append d i with
  | Some i' => rv b <> -1 /\ stands fd tr' i' pos out cs
  | None => rv b = -1 /\ stands fd tr' i pos out cs
  end.
Proof.
  intros [H1 H2 H3 H4 H5] Ho Hne Hnl Hlen Hb tr'. rewrite (sv_write _ _ _ _ SV) in Hb.
  pose proof (do_write_ok fd' d (file_after s0 tr) i Hnl Hlen H1 (offset_open _ _ _ Ho)) as Hw. rewrite <- Hb in Hw.
  assert (file_after s0 tr' = (do_write fd' d (file_after s0 tr)).2) as Hst by apply file_after_snoc.
  assert (forall i', keeps (file_after s0 tr') i' -> stands fd tr' i' pos out cs) as Hs.
  { intros i' Hi'. split; [done|rewrite Hst; by apply do_write_other|..].
    - unfold tr'. by rewrite sends_app, app_nil_r.
    - unfold tr'. by rewrite chunks_app, app_nil_r.
    - by apply fds_snoc_in. }
  rewrite <- Hst in Hw. destruct (image_append d i); destruct Hw; split; auto.
Qed.

Lemma stands_close fd fd' tr i pos out cs z :
  stands fd tr i pos out cs -> fd' <> fd -> stands fd (tr ++ [(Close fd', z)]) i pos out cs.
Proof.
  intros [H1 H2 H3 H4 H5] Hne. split; rewrite ?file_after_snoc.
  - by apply close_keeps.
  - by apply close_other.
  - by rewrite sends_app, app_nil_r.
  - by rewrite chunks_app, app_nil_r.
  - apply fds_snoc_in; [done|]. by intros x [= <-].
Qed.

Lemma append_stands fname fd tr p d tl i pos out cs :
  stands fd tr i pos out cs -> newline ∈ d -> zlen d < 2 ^ 63 ->
  wp (append_packet E fname p (zlen d)) (fun r s' => exists tr', s' = mk_proc tr' (buf p d tl) /\
    match image_append d i with
    | Some i' => r = 0 /\ stands fd tr' i' pos out cs
    | None => r = -1 /\ stands fd tr' i pos out cs
    end) (mk_proc tr (buf p d tl)).
Proof.
  intros Hs Hnl Hlen. unfold append_packet. wp_step. apply wp_sysv. intros a Ha. cbv beta.
  destruct (stands_open _ _ _ _ _ _ _ _ _ a Hs Ha) as (Hge & Hne & Hs1 & Ho).
  destruct (Z.eqb_spec (rv a) (-1)); [lia|]. wp_step. apply wp_load. wp_step.
  apply wp_sysv. intros b Hb. cbv beta.
  pose proof (stands_write _ _ _ _ _ _ _ _ _ b Hs1 Ho Hne Hnl Hlen Hb) as Hw. cbv zeta in Hw.
  destruct (image_append d i) as [i'|]; destruct Hw as [Hr Hs2].
  - rewrite (proj2 (Z.eqb_neq _ _) Hr). wp_step. apply wp_sys. intros z _. wp_step.
    eexists. side. side. by apply stands_close.
  - rewrite Hr, Z.eqb_refl. wp_step. apply wp_sys. intros z _. wp_step.
    eexists. side. side. by apply stands_close.
Qed.

(** *** The buffer *)

Lemma grow_stands p d tl n tr :
  p <> NULL -> room d tl -> 0 < n < BUFFER_SIZE -> 2 * (zlen d + n) <= PTRDIFF_MAX ->
  wp (grow E p (zlen d) n) (fun q s' => exists u tl', forallb aside u = true /\ q <> NULL /\
    s' = mk_proc (tr ++ u) (buf q d tl') /\ n < zlen tl' /\
    (zlen d + n < BUFFER_SIZE <= zlen d + zlen tl' \/
     BUFFER_SIZE <= zlen d + n /\ zlen d + zlen tl' = 2 * (zlen d + n)))
    (mk_proc tr (buf p d tl)).
Proof.
  intros Hp Hroom Hn Hmax. eapply wp_mono; [apply wp_conj; [by apply grow_ok|]|].
  - instantiate (1 := fun q _ => q <> NULL). unfold grow. destruct (_ <=? _); [|by wp_step].
    unfold realloc. wp_step. eapply wp_block; [apply lookup_singleton_eq|]. wp_step.
    apply wp_sysv. intros a ->. cbv beta. unfold BUFFER_SIZE, PTRDIFF_MAX in *.
    rewrite !u64_small by (rewrite ?u64_small; lia).
    pose proof (sv_realloc _ _ _ _ SV tr p (2 * (zlen d + n)) ltac:(unfold PTRDIFF_MAX; lia)) as Hq.
    rewrite (proj2 (Z.eqb_neq _ _) Hq). by repeat (wp_step || apply wp_modify).
  - intros q s' [(u & Hu%mem_aside & [(Hq & tl' & -> & H1 & _ & H2)|(Hq & _)]) Hq']; [|done].
    exists u, tl'. split_and!; try done. lia.
Qed.

Lemma malloc_some n tr m :
  wp (malloc E n) (fun p s' => p <> NULL /\ exists a,
    s' = mk_proc (tr ++ [(Malloc n, a)]) (<[p := replicate (Z.to_nat n) None]> m)) (mk_proc tr m).
Proof.
  unfold malloc. wp_step. apply wp_sysv. intros a ->. pose proof (sv_malloc _ _ _ _ SV tr n) as Hp.
  rewrite (proj2 (Z.eqb_neq _ _) Hp). wp_step. apply wp_modify. wp_step. side. by eexists.
Qed.

(** The descriptor is opened at the beginning of the file. *)
Lemma opened_stands tr i path flags mode a :
  keeps (file_after s0 tr) i -> a = E tr (Open path flags mode) ->
  0 <= rv a /\ stands (rv a) (tr ++ [(Open path flags mode, a)]) i 0 (concat (sends tr)) (chunks tr).
Proof.
  intros Hk Ha. pose proof (sv_open _ _ _ _ SV tr path flags mode) as Hge. rewrite <- Ha in Hge.
  side. assert (file_after s0 (tr ++ [(Open path flags mode, a)]) = do_open (rv a) (file_after s0 tr)) as Hst.
  { rewrite file_after_snoc. unfold file_step. simpl. by rewrite (proj2 (Z.ltb_ge _ _) Hge). }
  split; rewrite ?Hst; [by apply open_keeps|apply open_offset|..].
  - by rewrite sends_app, app_nil_r.
  - by rewrite chunks_app, app_nil_r.
  - rewrite fds_app. cbn. unfold fds_step. simpl. rewrite (proj2 (Z.ltb_ge _ _) Hge). set_solver.
Qed.

Lemma reset_stands p b fd tr i pos out cs :
  p <> NULL -> stands fd tr i pos out cs ->
  wp (reset_buffer E p) (fun q s' => exists tr', q <> NULL /\ stands fd tr' i pos out cs /\
    s' = mk_proc tr' (buf q [] (replicate (Z.to_nat BUFFER_SIZE) None))) (mk_proc tr {[p := b]}).
Proof.
  intros Hp Hs. eapply wp_mono; [apply wp_conj; [by apply reset_buffer_ok|]|].
  - instantiate (1 := fun q _ => q <> NULL). unfold reset_buffer. wp_step.
    eapply wp_free; [done|apply lookup_singleton_eq|]. intros a.
    eapply wp_mono; [apply malloc_some|]. by intros q s' [Hq _].
  - intros q s' [(u & Hu%mem_aside & _ & ->) Hq]. rewrite decide_False by done.
    eexists. side. split; [|done]. by apply stands_aside.
Qed.

(** *** One round *)

Definition outcome (out : list byte) (acts : list action) (i : image) (pos : nat) :
    list byte * image :=
  (out ++ (serve acts i pos).1, (serve acts i pos).2).

(** The loop was left, with the bytes and the contents of [res]. *)
Definition left_with (res : list byte * image) (p : Z) (s : proc) : Prop :=
  exists tr m, s = mk_proc tr m /\ buf_at p m /\ keeps (file_after s0 tr) res.2 /\
    concat (sends tr) = res.1.

(** At the head of the loop with the bytes [d] collected. *)
Definition ready (fd : Z) (d : list byte) (i : image) (pos : nat) (out : list byte)
    (cs : list (list byte)) (x : locals) (s : proc) : Prop :=
  exists tr tl, s = mk_proc tr (buf x.1 d tl) /\ x.1 <> NULL /\ x.2 = zlen d /\ room d tl /\
    stands fd tr i pos out cs.

(** After a round that does [acts1] and leaves [d] collected, [total] bounds
    the bytes. *)
Definition turned (fd : Z) (acts1 : list action) (d : list byte) (i : image) (pos : nat)
    (out : list byte) (cs : list (list byte)) (total : nat)
    (r : option (locals + Z * Z)) (s : proc) : Prop :=
  match r with
  | Some (inl x) => exists i' pos' out', ready fd d i' pos' out' cs x s /\
      (image_size i' + length d <= total)%nat /\
      forall acts, outcome out (acts1 ++ acts) i pos = outcome out' acts i' pos'
  | Some (inr (_, p)) => forall acts, left_with (outcome out (acts1 ++ acts) i pos) p s
  | None => False
  end.

Lemma left_buf fd tr i pos out cs p b :
  p <> NULL -> stands fd tr i pos out cs -> left_with (out, i) p (mk_proc tr {[p := b]}).
Proof.
  intros Hp [H1 _ H3 _ _]. exists tr, {[p := b]}. side.
  split; [unfold buf_at; rewrite decide_False by done; by eexists|]. done.
Qed.

Lemma ready_new fd tr i pos out cs q :
  q <> NULL -> stands fd tr i pos out cs ->
  ready fd [] i pos out cs (q, 0) (mk_proc tr (buf q [] (replicate (Z.to_nat BUFFER_SIZE) None))).
Proof.
  intros Hq Hs. eexists tr, _. split_and!; try done. left. rewrite length_replicate.
  unfold BUFFER_SIZE. simpl. lia.
Qed.

(** The seek command and the packet, with the echo. *)
Variables (IOCSEEKTO : Z) (int_of : Z -> Z) (char_device : bool) (c : conn_info).
Hypothesis HIOC : IOCSEEKTO = seek_request.
Hypothesis Hcl : clfd c = cl.

Lemma stands_ioctl fd tr i pos out cs wc wo a :
  stands fd tr i pos out cs -> a = E tr (Ioctl fd IOCSEEKTO wc wo) ->
  0 <= wc < 2 ^ 32 -> 0 <= wo < 2 ^ 32 ->
  let tr' := tr ++ [(Ioctl fd IOCSEEKTO wc wo, a)] in
  match image_seek wc wo i with
  | Some p => rv a = 0 /\ stands fd tr' i p out cs
  | None => rv a <> 0 /\ left_with (out, i) NULL (mk_proc tr' ∅)
  end.
Proof using SV HIOC.
  intros [H1 H2 H3 H4 H5] Ha Hwc Hwo tr'. rewrite HIOC, (sv_ioctl _ _ _ _ SV) in Ha.
  destruct (do_seek_ok fd wc wo _ i pos Hwc Hwo H1 H2) as [Hk Hs]. rewrite <- Ha in Hs.
  assert (file_after s0 tr' = (do_ioctl fd seek_request wc wo (file_after s0 tr)).2) as Hst.
  { unfold tr'. rewrite HIOC. apply file_after_snoc. }
  rewrite <- Hst in Hs, Hk.
  assert (concat (sends tr') = out) as Ho by (unfold tr'; by rewrite sends_app, app_nil_r).
  destruct (image_seek wc wo i) as [p|]; [|split; [apply Hs|exists tr', ∅; split_and!; done]].
  destruct Hs as [Hr Hs]. side. split; try done; unfold tr'; [by rewrite chunks_app, app_nil_r|].
  by apply fds_snoc_in.
Qed.

Lemma u32_range x : 0 <= u32 x < 2 ^ 32.
Proof. apply Z.mod_pos_bound. lia. Qed.

Lemma seek_branch_stands fuel fd n q d tl tr i pos out cs total :
  q <> NULL -> stands fd tr i pos out cs -> SEEKTO `prefix_of` d ->
  (image_size i <= total)%nat -> (total < fuel)%nat ->
  wp (seek_branch E IOCSEEKTO int_of fuel c fd n q)
    (turned fd (seek_action int_of (cstr (drop (length SEEKTO) d))) [] i pos out cs total)
    (mk_proc tr (buf q d (Some nul :: tl))).
Proof using SV HIOC Hcl.
  intros Hq Hs Hpre Hsz Hfuel. unfold seek_branch, obind. wp_step. unfold seek_command.
  wp_step. unfold cstring. wp_step. eapply wp_block; [apply lookup_singleton_eq|].
  apply wp_opt with (a := cstr (drop (length SEEKTO) d)).
  { rewrite drop_app_le by (rewrite length_fmap; by apply prefix_length).
    rewrite <- fmap_drop. apply cstring_cells_cstr. }
  cbv beta. pose proof (bytes_size i) as Hb. unfold seek_action.
  destruct (sscanf_d_d _) as [[v1 v2]|]; cbv zeta.
  - wp_step. apply wp_sysv. intros a Ha. cbv beta.
    pose proof (stands_ioctl _ _ _ _ _ _ _ _ a Hs Ha (u32_range _) (u32_range _)) as Hio. cbv zeta in Hio.
    set (wc := u32 (int_of v1)) in *. set (wo := u32 (int_of v2)) in *.
    destruct (image_seek wc wo i) as [p|] eqn:Hseek; destruct Hio as [Hr Hs1].
    + rewrite Hr. cbn [Z.eqb negb]. unfold obind. wp_step. rewrite Hcl.
      eapply wp_mono; [eapply echo_stands; [done|lia]|].
      intros r s' [-> (tr' & -> & Hs2)]. cbn [Z.eqb negb]. wp_step. cbv beta iota. wp_step.
      eapply wp_mono; [by eapply reset_stands|]. intros q' s' (tr2 & Hq' & Hs3 & ->).
      rewrite (proj2 (Z.eqb_neq _ _) Hq'). unfold go_on. wp_step. eexists _, _, _.
      split; [by apply ready_new|]. split; [simpl; lia|]. intros acts. unfold outcome. simpl.
      rewrite Hseek. simpl. by rewrite app_assoc.
    + rewrite (proj2 (Z.eqb_neq _ _) Hr). cbn [negb]. wp_step. cbv beta iota. unfold leave. wp_step.
      intros acts. unfold outcome. simpl. rewrite Hseek, app_nil_r. simpl.
      destruct Hs1 as (tr1 & m & [= <- <-] & _ & Hk & Ho). eexists _, _. side.
      split; [unfold buf_at; rewrite decide_False by done; by eexists|done].
  - wp_step. cbv beta iota. wp_step. eapply wp_mono; [by eapply reset_stands|].
    intros q' s' (tr2 & Hq' & Hs3 & ->). rewrite (proj2 (Z.eqb_neq _ _) Hq'). unfold go_on. wp_step.
    eexists i, pos, out. split; [by apply ready_new|]. split; [simpl; lia|done].
Qed.

Lemma lock_stands fd tr m i pos out cs :
  stands fd tr i pos out cs ->
  wp (lock_file E char_device c) (fun _ s' => exists tr', s' = mk_proc tr' m /\
    stands fd tr' i pos out cs) (mk_proc tr m) /\
  wp (unlock_file E char_device c) (fun _ s' => exists tr', s' = mk_proc tr' m /\
    stands fd tr' i pos out cs) (mk_proc tr m).
Proof.
  intros Hs. unfold lock_file, unlock_file. destruct char_device; [split; wp_step; by exists tr|].
  split; wp_step; apply wp_sys; intros a _; wp_step; (eexists; split; [done|]); by apply stands_aside.
Qed.

Lemma packet_branch_stands fuel fd n q d tl tr i pos out cs total :
  q <> NULL -> stands fd tr i pos out cs -> newline ∈ d -> zlen d < 2 ^ 63 ->
  (image_size i + length d <= total)%nat -> (total < fuel)%nat ->
  wp (packet_branch E char_device fuel c fd n q (zlen d))
    (turned fd [Append d] [] i pos out cs total) (mk_proc tr (buf q d tl)).
Proof using SV Hcl.
  intros Hq Hs Hnl Hlen Hsz Hfuel. unfold packet_branch. wp_step.
  eapply wp_mono; [by apply (lock_stands fd tr (buf q d tl))|]. intros [] s' (tr1 & -> & Hs1). wp_step.
  eapply wp_mono; [by apply append_stands|]. intros r s' (tr2 & -> & Hap). cbv beta.
  destruct (image_append d i) as [i'|] eqn:Happ; destruct Hap as [-> Hs2]; cbn [Z.eqb negb].
  - wp_step. eapply wp_mono; [by apply (lock_stands fd tr2 (buf q d tl))|]. intros [] s' (tr3 & -> & Hs3).
    wp_step. eapply wp_mono; [by eapply reset_stands|]. intros q' s' (tr4 & Hq' & Hs4 & ->).
    rewrite (proj2 (Z.eqb_neq _ _) Hq'). unfold obind. wp_step. rewrite Hcl.
    pose proof (append_size _ _ _ Happ). pose proof (bytes_size i').
    eapply wp_mono; [eapply echo_stands; [done|lia]|]. intros r s' [-> (tr5 & -> & Hs5)]. cbn [Z.eqb negb].
    unfold go_on. wp_step. eexists _, _, _. split; [by apply ready_new|]. split; [simpl; lia|].
    intros acts. unfold outcome. simpl. rewrite Happ. simpl. by rewrite app_assoc.
  - wp_step. eapply wp_mono; [by apply (lock_stands fd tr2 (buf q d tl))|]. intros [] s' (tr3 & -> & Hs3).
    unfold leave. wp_step. intros acts. unfold outcome. simpl. rewrite Happ, app_nil_r.
    by eapply left_buf.
Qed.

(** What is done with the bytes collected, as [feed] says. *)
Lemma dispatch_stands fuel fd n q d ch tl tr i pos out cs total :
  q <> NULL -> stands fd tr i pos out cs -> room (d ++ ch) (Some nul :: tl) ->
  (image_size i + length (d ++ ch) <= total)%nat -> (total < fuel)%nat ->
  wp (is_seek ← strncmp_eq q SEEKTO;
      if (is_seek : bool) then seek_branch E IOCSEEKTO int_of fuel c fd n q
      else
        nl ← memchr q newline (zlen (d ++ ch));
        if (nl : bool) then packet_branch E char_device fuel c fd n q (zlen (d ++ ch))
        else go_on q (zlen (d ++ ch)))
    (turned fd (feed int_of ([], d) ch).1 (feed int_of ([], d) ch).2 i pos out cs total)
    (mk_proc tr (buf q (d ++ ch) (Some nul :: tl))).
Proof using SV HIOC Hcl.
  intros Hq Hs Hroom Hsz Hfuel. unfold feed. cbn [fst snd]. wp_step. unfold strncmp_eq. wp_step.
  eapply wp_block; [apply lookup_singleton_eq|].
  eapply wp_opt; [apply strncmp_cells_prefix, nul_not_in_SEEKTO|]. case_bool_decide as Hpre.
  - rewrite decide_True by done. apply seek_branch_stands; try done. lia.
  - rewrite decide_False by done. wp_step. apply wp_memchr. case_bool_decide as Hnl.
    + rewrite decide_True by done. apply packet_branch_stands; try done.
      unfold room, BUFFER_SIZE, PTRDIFF_MAX in Hroom. lia.
    + rewrite decide_False by done. unfold go_on. wp_step. eexists i, pos, out.
      split; [|split; [cbn [snd]; lia|done]]. by eexists tr, _.
Qed.

Lemma recv_stands fd tr i pos out cs1 ch cs2 a :
  inbox = cs1 ++ ch :: cs2 -> stands fd tr i pos out cs1 -> a = E tr (Recv cl (BUFFER_SIZE - 1)) ->
  rv a = zlen ch /\ rdata a = ch /\ 0 < zlen ch < BUFFER_SIZE /\
  stands fd (tr ++ [(Recv cl (BUFFER_SIZE - 1), a)]) i pos out (cs1 ++ [ch]).
Proof using SV.
  intros Hin [H1 H2 H3 H4 H5] Ha.
  assert (0 < zlen ch < BUFFER_SIZE) as Hch.
  { pose proof (sv_chunks _ _ _ _ SV) as Hall. rewrite Hin in Hall.
    by apply Forall_app in Hall as [_ [Hall _]%Forall_cons]. }
  rewrite (sv_recv _ _ _ _ SV), H4, Hin, list_lookup_middle in Ha by done.
  split_and!; try (by subst a); try lia. split; rewrite ?file_after_snoc; try done.
  - by rewrite sends_app, app_nil_r.
  - rewrite chunks_app, H4. subst a. cbn. destruct (Z.ltb_spec 0 (zlen ch)); [|lia].
    by rewrite Nat2Z.id, firstn_all.
  - by apply fds_snoc_in.
Qed.

Lemma recv_body_turned fuel fd cs1 ch cs2 d x s i pos out total :
  inbox = cs1 ++ ch :: cs2 -> ready fd d i pos out cs1 x s ->
  (image_size i + length d + length ch <= total)%nat -> (total < fuel)%nat ->
  zlen d + zlen ch <= 2 ^ 61 ->
  wp (recv_body E char_device IOCSEEKTO int_of fuel c fd x)
    (turned fd (feed int_of ([], d) ch).1 (feed int_of ([], d) ch).2 i pos out (cs1 ++ [ch]) total) s.
Proof using SV HIOC Hcl.
  intros Hin (tr & tl & -> & Hp & Hlen & Hroom & Hs) Hsz Hfuel Hmax. destruct x as [p len].
  simpl in Hp, Hlen |- *. subst len. wp_step. rewrite Hcl. apply wp_sys. intros a Ha. cbv beta zeta.
  destruct (recv_stands _ _ _ _ _ _ _ _ a Hin Hs Ha) as (Hrv & Hrd & Hch & Hs1).
  rewrite Hrv, Hrd. destruct (Z.ltb_spec 0 (zlen ch)); [|lia]. cbn [negb]. wp_step.
  eapply wp_mono; [apply grow_stands; try done; unfold PTRDIFF_MAX; lia|].
  intros q s' (u & tl' & Hu & Hq & -> & Htl & Hroom'). cbv beta.
  rewrite (proj2 (Z.eqb_neq _ _) Hq), Nat2Z.id, firstn_all. wp_step. apply wp_store_end; [lia|].
  assert (zlen d +u64 zlen ch = zlen (d ++ ch)) as ->.
  { rewrite length_app, u64_small; lia. }
  wp_step. apply wp_store_end; [rewrite length_drop; simpl; lia|].
  rewrite fmap_app, <- (app_assoc (Some <$> (d ++ ch))), drop_drop.
  apply (dispatch_stands fuel fd (zlen ch) q d ch); try done.
  - by apply stands_aside.
  - unfold room, BUFFER_SIZE, PTRDIFF_MAX in *. rewrite length_app. simpl. rewrite length_drop. lia.
  - rewrite length_app. lia.
Qed.

(** *** The loop and the thread *)

Lemma loop_stands fuel fd cs : forall k cs1 d x s i pos out,
  inbox = cs1 ++ cs -> ready fd d i pos out cs1 x s -> (length cs < k)%nat ->
  (image_size i + length d + length (concat cs) < fuel)%nat ->
  zlen d + zlen (concat cs) <= 2 ^ 61 ->
  wp (iterate k (recv_body E char_device IOCSEEKTO int_of fuel c fd) x)
    (fun r s' => exists n p, r = Some (n, p) /\
       left_with (outcome out (plan int_of d cs) i pos) p s') s.
Proof using SV HIOC Hcl.
  induction cs as [|ch cs IH]; intros k cs1 d x s i pos out Hin Hr Hk Hfuel Hmax;
    (destruct k as [|k]; [simpl in Hk; lia|]); cbn [iterate]; unfold obind at 1; wp_step.
  - rewrite app_nil_r in Hin. destruct Hr as (tr & tl & -> & Hp & Hlen & Hroom & Hs).
    destruct x as [p len]. unfold recv_body. wp_step. rewrite Hcl. apply wp_sys. intros a Ha. cbv beta zeta.
    rewrite (sv_recv _ _ _ _ SV), (st_chunks _ _ _ _ _ _ Hs), <- Hin, lookup_ge_None_2 in Ha by done.
    rewrite Ha. cbn [rv Z.ltb Z.compare negb]. unfold leave. do 2 wp_step. exists 0, p. side.
    unfold outcome. simpl. rewrite app_nil_r. eapply left_buf; [done|].
    split; rewrite ?file_after_snoc; try apply Hs.
    + rewrite sends_app, app_nil_r. apply Hs.
    + rewrite chunks_app, app_nil_r. apply Hs.
    + apply fds_snoc_in; [apply Hs|done].
  - cbn [plan concat] in *. rewrite length_app in Hfuel, Hmax. rewrite Nat2Z.inj_add in Hmax.
    eapply wp_mono; [eapply recv_body_turned with (total := (image_size i + length d + length ch)%nat); try done; lia|].
    intros [[x'|[n p]]|] s'; [..|done]; cbn [turned].
    + intros (i' & pos' & out' & Hr' & Hsz & Hout). rewrite Hout.
      pose proof (feed_short int_of d ch).
      apply (IH k (cs1 ++ [ch])); [by rewrite <- app_assoc|done|simpl in Hk; lia|lia|lia].
    + intros Hl. wp_step. by exists n, p.
Qed.

Definition conversed (res : list byte * image) (r : option unit) (s : proc) : Prop :=
  r = Some tt /\ concat (sends (trace s)) = res.1 /\ keeps (file_after s0 (trace s)) res.2.

Lemma close_conversed res tr m : keeps (file_after s0 tr) res.2 -> concat (sends tr) = res.1 ->
  wp (_ ← sys E (Close (clfd c)); finish E c) (conversed res) (mk_proc tr m).
Proof.
  intros Hk Ho. wp_step. apply wp_sys. intros a _. unfold finish. wp_step. apply wp_sys. intros b _.
  wp_step. side. cbn [trace]. rewrite !sends_app, !app_nil_r, !file_after_snoc. side.
  by apply close_keeps.
Qed.

Lemma cleanup_conversed res fd n p s : left_with res p s ->
  wp (_ ← sys E (Close fd); _ ← free E p;
      if n <? 0 then _ ← sys E (Close (clfd c)); finish E c
      else _ ← sys E (Close (clfd c)); finish E c) (conversed res) s.
Proof.
  intros (tr & m & -> & Hm & Hk & Ho). wp_step. apply wp_sys. intros a _. cbv beta.
  assert (forall u m', forallb aside u = true ->
    wp (if n <? 0 then _ ← sys E (Close (clfd c)); finish E c
        else _ ← sys E (Close (clfd c)); finish E c) (conversed res)
      (mk_proc ((tr ++ [(Close fd, a)]) ++ u) m')) as Hend.
  { intros u m' Hu. apply (close_keeps fd) in Hk.
    assert (file_after s0 ((tr ++ [(Close fd, a)]) ++ u) = do_close fd (file_after s0 tr) /\
            sends u = []) as [Hst Hsu].
    { revert Hu. clear. unfold file_after. rewrite !foldl_app. cbn. generalize (do_close fd (foldl file_step s0 tr)).
      induction u as [|[c b] u IH]; intros s Hu; [done|]. simpl in Hu. apply andb_true_iff in Hu as [Hc Hu].
      destruct (IH s Hu). destruct c; done. }
    destruct (n <? 0); apply close_conversed; rewrite ?Hst, ?sends_app, ?Hsu, ?app_nil_r; done. }
  wp_step. unfold free. unfold buf_at in Hm. destruct (decide (p = NULL)) as [Hp|Hp].
  - rewrite Hp, Z.eqb_refl. wp_step. specialize (Hend [] m eq_refl). by rewrite app_nil_r in Hend.
  - rewrite (proj2 (Z.eqb_neq _ _) Hp). destruct Hm as [b ->]. wp_step.
    eapply wp_block; [apply lookup_singleton_eq|]. wp_step. apply wp_sys. intros z _. apply wp_modify.
    by apply Hend.
Qed.

Lemma connection_conversed fuel tr0 i0 :
  keeps (file_after s0 tr0) i0 -> chunks tr0 = [] -> sends tr0 = [] ->
  (length inbox < fuel)%nat -> (image_size i0 + length (concat inbox) < fuel)%nat ->
  zlen (concat inbox) <= 2 ^ 61 ->
  wp (handle_connection E char_device IOCSEEKTO int_of fuel c)
    (conversed (serve (session int_of inbox).1 i0 0)) (start tr0).
Proof using SV HIOC Hcl.
  intros Hk Hch Hse Hlen Hfuel Hmax. unfold handle_connection, start. wp_step.
  eapply wp_mono; [apply malloc_some|]. intros p s [Hp (b & ->)]. cbv beta. rewrite insert_empty.
  rewrite (proj2 (Z.eqb_neq _ _) Hp). wp_step. apply wp_sysv. intros a Ha. cbv beta.
  assert (file_after s0 (tr0 ++ [(Malloc BUFFER_SIZE, b)]) = file_after s0 tr0) as Hst by apply file_after_snoc.
  rewrite <- Hst in Hk. destruct (opened_stands _ _ _ _ _ a Hk Ha) as [Hge Hs].
  rewrite sends_app, chunks_app, Hse, Hch in Hs. destruct (Z.ltb_spec (rv a) 0); [lia|].
  unfold obind. wp_step. eapply wp_mono.
  - eapply (loop_stands fuel (rv a) inbox fuel [] [] (p, 0)); [done|by apply ready_new|done|simpl; lia|simpl; lia].
  - intros r s (n & q & -> & Hl). unfold session. rewrite (plan_session int_of inbox [] []).
    assert (outcome [] (plan int_of [] inbox) i0 0 = serve (plan int_of [] inbox) i0 0) as Ho
      by (unfold outcome; simpl; by destruct (serve _ _ _)).
    simpl app. rewrite <- Ho. by apply cleanup_conversed.
Qed.
End conversation.

(** ** A system that serves a storage *)

Section env.
Context {St : Type} {F : Storage St}.
Variables (s0 : St) (inbox : list (list byte)).

Definition storage_env : env := fun tr c =>
  match c with
  | Malloc _ => mk_answer (SimEnv.above (live tr)) []
  | Realloc _ n => mk_answer (if n <=? PTRDIFF_MAX then SimEnv.above (live tr) else NULL) []
  | Open _ _ _ | Accept _ | Socket => mk_answer (SimEnv.above (fds tr)) []
  | Recv _ n =>
      let d := default [] (inbox !! length (chunks tr)) in
      if zlen d <=? n then mk_answer (zlen d) d else mk_answer (-1) []
  | Read fd n => (do_read fd n (file_after s0 tr)).1
  | Write fd d => (do_write fd d (file_after s0 tr)).1
  | Ioctl fd r wc wo => (do_ioctl fd r wc wo (file_after s0 tr)).1
  | Send _ d => mk_answer (zlen d) []
  | _ => mk_answer 0 []
  end.

Lemma storage_env_ok : EnvOk storage_env.
Proof.
  split; intros; simpl in *.
  - apply SimEnv.above_spec.
  - case_match; [right; apply SimEnv.above_spec|done].
  - case_match; [lia|done].
  - apply SimEnv.above_spec.
  - pose proof (SimEnv.above_spec (fds tr)). lia.
  - case_match; simpl; lia.
  - by apply do_read_max.
Qed.

Lemma storage_env_served cl :
  Forall (fun ch => 0 < zlen ch < BUFFER_SIZE) inbox -> served storage_env s0 cl inbox.
Proof.
  intros Hin. split; try done; intros; cbn [storage_env rv].
  - apply storage_env_ok.
  - pose proof (SimEnv.above_spec (live tr)). lia.
  - pose proof (SimEnv.above_spec (live tr)). by rewrite (proj2 (Z.leb_le _ _)) by done; lia.
  - pose proof (SimEnv.above_spec (fds tr)). lia.
  - destruct (inbox !! length (chunks tr)) as [ch|] eqn:Hch; [|done]. cbn [default from_option id]. unfold id.
    pose proof (Forall_lookup_1 _ _ _ _ Hin Hch) as [_ Hlt]. cbv beta in Hlt.
    by destruct (Z.leb_spec (zlen ch) (BUFFER_SIZE - 1)); [|lia].
Qed.
End env.

(** ** A regular file

    A regular file on which nothing fails and every call does all it is asked
    for; [RegularFile] has one on which calls may fail.  A descriptor has its
    position; a write through a descriptor that was opened for appending goes
    to the end. *)

Record disk : Type := mk_disk {
  disk_bytes : list byte;
  disk_table : gmap Z nat;
}.

Definition disk_read (fd n : Z) (s : disk) : answer * disk :=
  match disk_table s !! fd with
  | Some pos =>
      let d := take (Z.to_nat n) (drop pos (disk_bytes s)) in
      (mk_answer (zlen d) d, mk_disk (disk_bytes s) (<[fd := (pos + length d)%nat]> (disk_table s)))
  | None => (mk_answer (-1) [], s)
  end.
Definition disk_append (fd : Z) (d : list byte) (s : disk) : answer * disk :=
  match disk_table s !! fd with
  | Some _ =>
      let b := disk_bytes s ++ d in
      (mk_answer (zlen d) [], mk_disk b (<[fd := length b]> (disk_table s)))
  | None => (mk_answer (-1) [], s)
  end.

Section disk.
(** The request code of seek commands; they are refused. *)
Variable request : Z.

#[program] Definition disk_storage : Storage disk := {|
  image := list byte;
  image_bytes i := i;
  image_append d i := Some (i ++ d);
  image_seek _ _ _ := None;
  image_size i := length i;
  seek_request := request;
  do_open fd s := mk_disk (disk_bytes s) (<[fd := 0%nat]> (disk_table s));
  do_close fd s := mk_disk (disk_bytes s) (delete fd (disk_table s));
  do_read := disk_read;
  do_write := disk_append;
  do_ioctl _ _ _ _ s := (mk_answer (-1) [], s);
  keeps s i := disk_bytes s = i;
  is_open s fd := is_Some (disk_table s !! fd);
  offset_of s fd n := disk_table s !! fd = Some n;
|}.
Next Obligation. intros s fd n Ho. by exists n. Qed.
Next Obligation. done. Qed.
Next Obligation. intros d i i' [= <-]. by rewrite length_app. Qed.
Next Obligation. done. Qed.
Next Obligation. intros. simpl. apply lookup_insert_eq. Qed.
Next Obligation. intros. simpl. by rewrite lookup_insert_ne. Qed.
Next Obligation. done. Qed.
Next Obligation. intros. simpl. by rewrite lookup_delete_ne. Qed.
Next Obligation.
  intros fd n s i pos Hn <- Ho. unfold disk_read. rewrite Ho. simpl. rewrite length_take.
  set (l := drop pos (disk_bytes s)). split; [lia|]. split.
  { rewrite <- length_zero_iff_nil. lia. }
  split; [lia|]. split; [|split; [done|rewrite lookup_insert_eq; f_equal; lia]].
  intros _. rewrite Nat2Z.id. apply take_min_length.
Qed.
Next Obligation.
  intros fd n s Hn. unfold disk_read. destruct (_ !! _); simpl; [rewrite length_take|]; lia.
Qed.
Next Obligation. intros fd d s i _ _ <- [pos Ho]. unfold disk_append. rewrite Ho. simpl. split; [lia|done]. Qed.
Next Obligation.
  intros fd fd' d s n Hne Ho. unfold disk_append. destruct (disk_table s !! fd); simpl; [|done].
  by rewrite lookup_insert_ne.
Qed.
Next Obligation. done. Qed.
Next Obligation.
  intros fd fd' n s m Hne Ho. unfold disk_read. destruct (disk_table s !! fd); simpl; [|done].
  by rewrite lookup_insert_ne.
Qed.
Next Obligation. done. Qed.
Next Obligation. intros fd fd' s Hne Ho. simpl. by rewrite lookup_insert_ne. Qed.
Next Obligation. intros fd fd' s Hne Ho. simpl. by rewrite lookup_delete_ne. Qed.
Next Obligation.
  intros fd fd' n s Hne Ho. unfold disk_read. destruct (disk_table s !! fd); simpl; [|done].
  by rewrite lookup_insert_ne.
Qed.
Next Obligation.
  intros fd fd' d s Ho. unfold disk_append. destruct (disk_table s !! fd); simpl; [|done].
  destruct (decide (fd' = fd)) as [->|]; [by rewrite lookup_insert_eq|by rewrite lookup_insert_ne].
Qed.
Next Obligation. done. Qed.
End disk.

(** ** The theorem *)

(** A whole conversation: the thread of a connection, in a system where
    no call fails but those the file refuses, returns; it has sent exactly
    the bytes the protocol and the file prescribe, the contents from the
    position on after each packet and each seek, in order; and the file has
    the contents the packets make.  The file is any [Storage]: positions of
    its descriptors, appends and seeks behave as the class states. *)
Theorem conversation {St : Type} {F : Storage St} E (s0 : St) inbox c char_device int_of fuel tr0 i0 :
  served E s0 (clfd c) inbox -> keeps (file_after s0 tr0) i0 ->
  chunks tr0 = [] -> sends tr0 = [] ->
  (length inbox < fuel)%nat -> (image_size i0 + length (concat inbox) < fuel)%nat ->
  zlen (concat inbox) <= 2 ^ 61 ->
  let res := serve (session int_of inbox).1 i0 0 in
  exists s', handle_connection E char_device seek_request int_of fuel c (start tr0) = Some (Some tt, s') /\
    concat (sends (trace s')) = res.1 /\ keeps (file_after s0 (trace s')) res.2.
Proof.
  intros SV Hk Hch Hse Hlen Hfuel Hmax.
  destruct (wp_inv _ _ _ (connection_conversed SV seek_request int_of char_device c eq_refl eq_refl
    fuel tr0 i0 Hk Hch Hse Hlen Hfuel Hmax)) as (r & s' & Hrun & -> & Ho & Hi).
  by exists s'.
Qed.

Module ConversationWitness.
Definition conn0 : conn_info := mk_conn 100 4 200.
Definition inbox0 : list (list byte) :=
  [bytes_of "ab"; bytes_of "c" ++ [newline]; bytes_of "de" ++ [newline]].
Definition disk0 : disk := mk_disk (bytes_of "12") ∅.
#[local] Instance disk_storage0 : Storage disk := disk_storage 0.

(** Two packets, the first in two chunks: the second echo has only what the
    second packet added. *)
Lemma conversation_witness :
  let out := bytes_of "12abc" ++ [newline] ++ bytes_of "de" ++ [newline] in
  exists s', handle_connection (storage_env disk0 inbox0) false 0 id 20 conn0 (start []) =
      Some (Some tt, s') /\
    concat (sends (trace s')) = out /\ keeps (file_after disk0 (trace s')) out.
Proof.
  intros out.
  assert (served (storage_env disk0 inbox0) disk0 (clfd conn0) inbox0) as SV.
  { apply storage_env_served. repeat constructor; vm_compute; done. }
  assert (zlen (concat inbox0) <= 2 ^ 61) as Hmax by by vm_compute.
  assert (length inbox0 < 20)%nat as Hlen by (vm_compute; lia).
  assert (length (bytes_of "12") + length (concat inbox0) < 20)%nat as Hfuel by (vm_compute; lia).
  exact (conversation _ disk0 inbox0 conn0 false id 20 [] (bytes_of "12") SV eq_refl eq_refl eq_refl
    Hlen Hfuel Hmax).
Defined.
End ConversationWitness.
