(* ===== verification/DeviceFile.v ===== *)
(** * The character driver as the server's file

    The server's calls on the device reach the handlers of the driver
    through the descriptors of the process: [vfs] is the world of the driver
    and the table of open files, and each call looks its file up and runs
    the handler of [aesd_fops] on it.  The instance [device_storage] says
    what the device is to a connection: the commands it keeps, in the order
    in which the seek command numbers them; [device_conversation] puts the
    server and the driver together.

    [WritingKernel] adds to the kernel what a process needs to write: user
    memory it can fill, and, in the states called calm, enough memory. *)

From S2P Require Import Prelude CircularBuffer KernelApi CharDriver CharDriverSpec CharDriverTheorems.
From S2P Require Import Posix Handler HandlerSpec HandlerTheorems FileInterface Conversation.

Class WritingKernel (K : Kernel) {KQ : QuietKernel K} : Type := {
  (** The process stores bytes in its own memory. *)
  put_user : Z -> list byte -> kst -> kst;
  put_user_bytes u d k : ubytes (put_user u d k) u (zlen d) = d;
  put_user_heap u d k : same_heap k (put_user u d k);
  calm_put_user u d k : calm k -> calm (put_user u d k);
  calm_kzalloc n k : calm k ->
    calm (kzalloc n k).2 /\ (0 <= n <= KMALLOC_MAX_SIZE -> (kzalloc n k).1 <> NULL);
  calm_krealloc p n k : calm k ->
    calm (krealloc p n k).2 /\ (0 <= n <= KMALLOC_MAX_SIZE -> (krealloc p n k).1 <> NULL);
  calm_kfree p k : calm k -> calm (kfree p k);
  calm_copy_from dst off src n k : calm k ->
    (copy_from_user dst off src n k).1 = 0 /\ calm (copy_from_user dst off src n k).2;
  calm_copy_obj src n k : calm k ->
    (copy_from_user_obj src n k).1.1 = 0 /\ calm (copy_from_user_obj src n k).2;
}.

(** ** The handlers in a calm kernel *)

Section calm.
Context {K : Kernel} {KOk : KernelOk K} {KQ : QuietKernel K} {KW : WritingKernel K}.
Implicit Types w : world.

Lemma pc_get_dev filp Q w : Q tt w -> pc (get_dev filp) Q w.
Proof. intros HQ. unfold get_dev. destruct (private_data filp) as [[]|]; [by apply pc_ret|done]. Qed.

Lemma pc_on_kern {A} (f : kst -> A * kst) Q w :
  Q (f (kern w)).1 (set_kern (f (kern w)).2 w) -> pc (on_kern f) Q w.
Proof. intros HQ a w'. unfold on_kern. destruct (f (kern w)). by intros [= <- <-]. Qed.

Lemma pc_lock Q w :
  held (lock (aesd_device w)) = false -> calm (kern w) ->
  (forall m k, calm k -> same_heap (kern w) k -> same_user (kern w) k ->
     Q 0 (set_dev (set_lock m) (set_kern k w))) -> pc lock_dev Q w.
Proof.
  intros Hh Hc HQ a w'. unfold lock_dev. destruct (calm_lock (lock (aesd_device w)) (kern w) Hc Hh) as [H0 Hk].
  destruct (mutex_lock_interruptible _ _) as [[r m] k] eqn:Hl. simpl in *. subst r.
  destruct (mutex_lock_ok _ _ _ _ _ Hh Hl) as (_ & _ & Hheap & Huser). intros [= <- <-]. by apply HQ.
Qed.

Lemma pc_unlock Q w : (forall m, Q tt (set_dev (set_lock m) w)) -> pc unlock_dev Q w.
Proof. intros HQ a w'. unfold unlock_dev. destruct (held _); [|done]. intros [= <- <-]. apply HQ. Qed.

Lemma pc_copy_from_user dst off src n Q w :
  calm (kern w) -> (forall k, calm k -> Q 0 (set_kern k w)) -> pc (do_copy_from_user dst off src n) Q w.
Proof.
  intros Hc HQ. unfold do_copy_from_user, check_range. do 3 pc_step. intros b _.
  case_decide; [|done]. pc_step. apply pc_on_kern.
  destruct (calm_copy_from dst off src n (kern w) Hc) as [-> Hk]. by apply HQ.
Qed.

(** Whether the unfinished command and [count] more bytes fit in a block. *)
Definition fits (a : adev) (count : Z) : Prop := zlen (pending a) + count <= KMALLOC_MAX_SIZE.
#[export] Instance fits_dec a count : Decision (fits a count).
Proof. unfold fits. apply _. Defined.

(** What a step of the write leaves in a calm kernel. *)
Definition extended w (a : adev) (count : Z) (r : option Z) w' : Prop :=
  calm (kern w') /\ buffer (aesd_device w') = buffer (aesd_device w) /\
  match r with
  | None => fits a count /\ entry_size (current_write_entry (aesd_device w')) = zlen (pending a) + count
  | Some e => e = - ENOMEM /\ ~ fits a count
  end.

Lemma write_first_calm w a buf count :
  rep (kern w) (aesd_device w) a -> buffptr (current_write_entry (aesd_device w)) = NULL ->
  calm (kern w) -> 0 <= count -> pc (write_first buf count) (extended w a count) w.
Proof.
  intros [_ Hp] Hnull Hc Hcount. unfold pending_rep in Hp. rewrite decide_True in Hp by done.
  destruct Hp as [_ Hpd]. unfold write_first, current, do_kzalloc, assign_current, extended, fits.
  rewrite Hpd. do 3 pc_step. apply pc_on_kern. do 2 pc_step.
  destruct (calm_kzalloc count (kern w) Hc) as [Hk Hsome].
  destruct (kzalloc count (kern w)) as [p k] eqn:Hal. simpl in *.
  destruct (Z.eqb_spec p NULL) as [Hp|Hp].
  - pc_step. side. side. side. intros Hf. apply Hsome; [lia|done].
  - destruct (kzalloc_ok _ _ _ _ Hcount Hal Hp) as [Hmax _]. pc_step. apply pc_copy_from_user; [done|].
    intros k2 Hk2. cbn [negb Z.eqb]. do 3 pc_step. by split_and!.
Qed.

Lemma write_more_calm w a buf count :
  rep (kern w) (aesd_device w) a -> buffptr (current_write_entry (aesd_device w)) <> NULL ->
  calm (kern w) -> 0 <= count < 2 ^ 63 -> pc (write_more buf count) (extended w a count) w.
Proof.
  intros [_ Hp] Hnn Hc Hcount. unfold pending_rep in Hp. rewrite decide_False in Hp by done.
  destruct Hp as ([Hb Hsz] & Hmx & Hz & _). pose proof kmalloc_max_range as HM.
  unfold write_more, current, do_krealloc, assign_current, extended, fits. do 5 pc_step.
  intros b _. apply pc_on_kern. rewrite Hsz, u64_small by lia.
  set (n := zlen (pending a) + count) in *.
  destruct (calm_krealloc (buffptr (current_write_entry (aesd_device w))) n (kern w) Hc) as [Hk Hsome].
  destruct (krealloc _ n (kern w)) as [q k] eqn:Hal. simpl in Hk, Hsome. cbn [fst snd].
  destruct (Z.eqb_spec q NULL) as [Hq|Hq].
  - pc_step. side. side. side. intros Hf. apply Hsome; [unfold n in *; lia|done].
  - assert (n <= KMALLOC_MAX_SIZE) as Hmax.
    { eapply (krealloc_ok _ n _ _ q k Hb); [unfold n; lia| |done|done].
      intros Hn0. apply Hz. destruct (pending a); [done|]. unfold n in Hn0. simpl in Hn0. lia. }
    do 3 pc_step. apply pc_copy_from_user; [done|]. intros k2 Hk2. cbn [negb Z.eqb].
    do 3 pc_step. by split_and!.
Qed.

(** The ring after a write: as before, with bytes pending, or with an entry
    added. *)
Definition ring_step w w' : Prop :=
  (buffer (aesd_device w') = buffer (aesd_device w) /\
   0 < entry_size (current_write_entry (aesd_device w'))) \/
  exists e x, aesd_circular_buffer_add_entry (buffer (aesd_device w)) e = Some (x, buffer (aesd_device w')).

Lemma write_commit_calm w count :
  calm (kern w) -> 0 < entry_size (current_write_entry (aesd_device w)) < 2 ^ 63 -> 0 <= count < 2 ^ 63 ->
  pc (write_commit count) (fun ret w' => calm (kern w') /\ 0 <= ret /\ ring_step w w') w.
Proof.
  intros Hc Hsz Hcount. unfold write_commit, current, do_memchr, check_range. do 6 pc_step.
  intros b _. case_decide; [|done]. do 2 pc_step. destruct (memchr_opt _ _).
  - do 2 pc_step. intros [x b'] Hadd. do 3 pc_step. cbn [entry_size].
    assert (forall w', calm (kern w') -> buffer (aesd_device w') = b' ->
      pc (_ ← assign_current (mk_entry NULL 0);
          mret (s64 (entry_size (current_write_entry (aesd_device w)))))
        (fun ret w' => calm (kern w') /\ 0 <= ret /\ ring_step w w') w') as Hend.
    { intros w' Hc' Hb'. unfold assign_current. do 3 pc_step. side. rewrite s64_small by lia.
      split; [lia|]. right. exists (mk_entry (buffptr (current_write_entry (aesd_device w)))
        (entry_size (current_write_entry (aesd_device w)))), x. simpl. by rewrite Hb'. }
    destruct (negb (x =? NULL)); [|by pc_step; apply Hend].
    unfold do_kfree. do 2 pc_step. intros c _. pc_step. apply Hend; [by apply calm_kfree|done].
  - pc_step. side. rewrite s64_small by lia. split; [lia|]. left. by split; [|lia].
Qed.

Lemma aesd_write_calm w a filp buf count pos :
  device_rep w a -> calm (kern w) -> 0 < count < 2 ^ 63 ->
  pc (aesd_write filp buf count pos) (fun r w' => calm (kern w') /\
    ((fits a count /\ 0 <= r.1 /\ ring_step w w') \/
     (~ fits a count /\ r.1 = - ENOMEM /\ buffer (aesd_device w') = buffer (aesd_device w)))) w.
Proof.
  intros [Hun Hrep Hnl] Hc Hcount. unfold aesd_write. pc_step. apply pc_get_dev. pc_step.
  apply pc_lock; [done|done|]. intros m k Hk Hheap _. cbn [Z.eqb negb]. pc_step.
  set (w1 := set_dev _ _).
  assert (rep (kern w1) (aesd_device w1) a) as Hrep1.
  { change (rep k (set_lock m (aesd_device w)) a). eapply (rep_frame (kern w)); [by intros; apply Hheap|].
    by destruct Hrep. }
  pose proof kmalloc_max_range as HM. unfold aesd_write_locked, current. do 3 pc_step.
  eapply pc_mono with (P := extended w1 a count).
  { destruct (Z.eqb_spec (buffptr (current_write_entry (aesd_device w1))) NULL);
      [apply write_first_calm|apply write_more_calm]; done || lia. }
  intros [e|] w2 (Hc2 & Hb2 & H2).
  - destruct H2 as [-> Hf]. do 2 pc_step. apply pc_unlock. intros m'. pc_step. side. by right.
  - destruct H2 as [Hf Hsz]. unfold fits in Hf. pc_step.
    eapply pc_mono; [apply write_commit_calm; [done|rewrite Hsz; lia|lia]|].
    intros ret w3 (Hc3 & Hret & Hring). do 2 pc_step. apply pc_unlock. intros m'. pc_step. side. left.
    side. side. unfold ring_step in *. by rewrite Hb2 in Hring.
Qed.

(** A read leaves the ring as it is. *)
Lemma aesd_read_ring filp buf count pos w :
  pc (aesd_read filp buf count pos) (fun _ w' => buffer (aesd_device w') = buffer (aesd_device w)) w.
Proof.
  unfold aesd_read. pc_step. apply pc_get_dev. pc_step. intros r w1. unfold lock_dev.
  destruct (mutex_lock_interruptible _ _) as [[r' m] k]. intros [= <- <-].
  destruct (negb (r' =? 0)); [by pc_step|]. pc_step.
  assert (forall (res : Z * Z) w', buffer (aesd_device w') = buffer (aesd_device w) ->
    pc (_ ← unlock_dev; mret res) (fun _ w' => buffer (aesd_device w') = buffer (aesd_device w)) w') as Hend.
  { intros res w' Hw'. pc_step. apply pc_unlock. intros m'. by pc_step. }
  unfold aesd_read_locked. do 2 pc_step. intros [[i o]|] _; [|pc_step; by apply Hend].
  do 2 pc_step. intros e _. destruct (_ <=? _); [pc_step; by apply Hend|]. cbv zeta. pc_step.
  unfold do_copy_to_user, check_range. do 3 pc_step. intros b _. case_decide; [|done].
  pc_step. apply pc_on_kern. destruct (negb _); pc_step; by apply Hend.
Qed.

Lemma aesd_ioctl_calm w a filp arg :
  device_rep w a -> calm (kern w) ->
  pc (aesd_ioctl filp AESDCHAR_IOCSEEKTO arg) (fun r w' => calm (kern w') /\
    buffer (aesd_device w') = buffer (aesd_device w) /\
    r = aseek (buffer (aesd_device w)) filp
          (seekto_of_bytes (ubytes (kern w) arg sizeof_aesd_seekto))) w.
Proof.
  intros Hd Hc. unfold aesd_ioctl, AESDCHAR_IOCSEEKTO, AESD_IOC_MAGIC, AESDCHAR_IOC_MAXNR.
  rewrite IOC_TYPE_IOWR, IOC_NR_IOWR by (unfold sizeof_aesd_seekto; lia).
  rewrite !Z.eqb_refl, Z.ltb_irrefl. cbn [negb]. pc_step. apply pc_on_kern.
  destruct (calm_copy_obj arg sizeof_aesd_seekto (kern w) Hc) as [Hr Hk].
  destruct (copy_from_user_obj _ _ _) as [[r d] k] eqn:Hcp. cbn [fst snd] in *. subst r.
  destruct (copy_from_user_obj_ok arg sizeof_aesd_seekto (kern w) 0 d k ltac:(done) Hcp) as (_ & _ & Hdd & _).
  rewrite Hdd by done. cbn [negb Z.eqb]. pc_step. apply pc_get_dev. pc_step.
  apply pc_lock; [by destruct Hd|done|]. intros m k2 Hk2 _ _. cbn [negb Z.eqb]. pc_step.
  intros res w2. rewrite aesd_ioctl_seek_eq; [|apply wf_length; by destruct Hd as [_ [[] _] _]|apply u32_at_range].
  intros [= <- <-]. pc_step. apply pc_unlock. intros m'. by pc_step.
Qed.
End calm.

(** ** The order of the seek command

    The slots of the ring in array order: the commands, from the slot 0 on,
    when the oldest is in slot [out]. *)

Definition slot_order (out : nat) (cs : list (list byte)) : list (list byte) :=
  drop (length cs - out) cs ++ take (length cs - out) cs.

(** The position of byte [wo] of the command in slot [wc]. *)
Definition seek_pos (cs : list (list byte)) (wc wo : Z) : option nat :=
  match cs !! Z.to_nat wc with
  | Some c =>
      if decide (wo < zlen c) then Some (length (concat (take (Z.to_nat wc) cs)) + Z.to_nat wo)%nat
      else None
  | None => None
  end.

Lemma slot_order_0 cs : slot_order 0 cs = cs.
Proof. unfold slot_order. by rewrite Nat.sub_0_r, drop_all, firstn_all. Qed.

Lemma slot_order_perm out cs : slot_order out cs ≡ₚ cs.
Proof.
  unfold slot_order. rewrite <- (take_drop (length cs - out) cs) at 5. apply Permutation_app_comm.
Qed.

Section slots.
Context {K : Kernel} {KOk : KernelOk K}.

(** The array of a full ring, read from slot 0 on. *)
Lemma full_slots k b cs : buf_rep k b cs -> full b = true ->
  buf_rep k (mk_buffer (entry b) 0 0 true) (slot_order (Z.to_nat (out_offs b)) cs).
Proof.
  intros [Hwf Hh Hnl Hmax Hnd] Hf. pose proof (wf_length b Hwf) as Hlen. pose proof (wf_out b Hwf).
  set (o := Z.to_nat (out_offs b)). unfold ptrs, contents in *. rewrite Hf in Hh, Hmax, Hnd. fold o in Hh, Hmax, Hnd.
  pose proof (Forall2_length _ _ _ Hh) as Hl. rewrite length_app, length_drop, length_take in Hl.
  assert (contents (mk_buffer (entry b) 0 0 true) ≡ₚ drop o (entry b) ++ take o (entry b)) as Hperm.
  { unfold contents. simpl. rewrite app_nil_r. rewrite <- (take_drop o (entry b)) at 1. apply Permutation_app_comm. }
  split.
  - destruct Hwf. split; simpl; try done; lia.
  - unfold contents. simpl. rewrite app_nil_r. unfold slot_order.
    apply Forall2_app_inv_l in Hh as (c1 & c2 & H1 & H2 & ->).
    pose proof (Forall2_length _ _ _ H1) as Hl1. rewrite length_drop in Hl1.
    rewrite length_app in *. pose proof (Forall2_length _ _ _ H2) as Hl2. rewrite length_take in Hl2.
    replace (length c1 + length c2 - o)%nat with (length c1) by lia.
    rewrite drop_app_length, take_app_length. rewrite <- (take_drop o (entry b)). by apply Forall2_app.
  - by rewrite slot_order_perm.
  - by rewrite Hperm.
  - unfold ptrs. by rewrite Hperm.
Qed.

Lemma aseek_slots k b cs filp st :
  buf_rep k b cs -> 0 <= write_cmd_offset st ->
  let cs' := slot_order (Z.to_nat (out_offs b)) cs in
  aseek b filp st = match seek_pos cs' (write_cmd st) (write_cmd_offset st) with
                    | Some p => (0, mk_file (Z.of_nat p) (private_data filp))
                    | None => (- EINVAL, filp)
                    end.
Proof.
  intros Hr Hoff cs'. assert (aseek b filp st = aseekto cs' filp st) as ->.
  { unfold cs'. destruct (full b) eqn:Hf.
    - apply (full_slots _ _ _ Hr) in Hf as Hr'. by rewrite <- (aseek_unwrapped _ _ _ filp st Hr').
    - destruct (wf_not_full b (buf_wf _ _ _ Hr) Hf) as [Ho _]. rewrite Ho, slot_order_0.
      by eapply aseek_unwrapped. }
  unfold aseekto, seek_pos. destruct (_ !! _) as [c|]; [|done]. case_decide; [|done]. f_equal. f_equal. lia.
Qed.

Lemma seek_pos_bound cs wc wo p : 0 <= wo -> seek_pos cs wc wo = Some p -> (p <= length (concat cs))%nat.
Proof.
  unfold seek_pos. intros Hwo. destruct (cs !! Z.to_nat wc) as [c|] eqn:Hc; [|done]. case_decide; [|done].
  intros [= <-]. rewrite <- (take_drop_middle _ _ _ Hc) at 2. rewrite concat_app, length_app. simpl.
  rewrite length_app. lia.
Qed.
End slots.

(** ** The seek structure in user memory

    The server has a copy of [aesd_ioctl.h] of its own.  The structure is
    passed by address; the driver reads the eight bytes it is stored in. *)

Module ServerIoctl.
Record aesd_seekto : Type := mk_seekto {
  write_cmd : Z;
  write_cmd_offset : Z;
}.
Definition AESD_IOC_MAGIC : Z := 22.
Definition AESDCHAR_IOCSEEKTO `{Kernel} : Z := IOWR AESD_IOC_MAGIC 1 8.

(** The bytes of the structure in memory. *)
Definition seekto_bytes (st : aesd_seekto) : list byte :=
  Demo.le32 (write_cmd st) ++ Demo.le32 (write_cmd_offset st).
End ServerIoctl.

Lemma byteZ_of_N n : 0 <= n < 256 -> byteZ (default nul (Byte.of_N (Z.to_N n))) = n.
Proof.
  intros Hn. unfold byteZ. destruct (Byte.of_N (Z.to_N n)) as [b|] eqn:Hb; simpl.
  - apply Byte.to_of_N in Hb. rewrite Hb. lia.
  - apply Byte.of_N_None_iff in Hb. lia.
Qed.

Lemma u32_at_le32 x r : 0 <= x < 2 ^ 32 -> u32_at 0 (Demo.le32 x ++ r) = x.
Proof.
  intros Hx. assert (forall a b c d r, u32_at 0 (a :: b :: c :: d :: r) =
    byteZ a + byteZ b * 2 ^ 8 + byteZ c * 2 ^ 16 + byteZ d * 2 ^ 24) as Hu by done.
  unfold Demo.le32. cbn [seq fmap list_fmap app]. rewrite Hu, !byteZ_of_N by (apply Z.mod_pos_bound; lia).
  cbn [Z.of_nat Z.mul Z.pow]. Z.to_euclidean_division_equations; lia.
Qed.

(** The driver reads the structure the server stored. *)
Lemma seekto_roundtrip wc wo : 0 <= wc < 2 ^ 32 -> 0 <= wo < 2 ^ 32 ->
  seekto_of_bytes (ServerIoctl.seekto_bytes (ServerIoctl.mk_seekto wc wo)) = mk_seekto wc wo.
Proof.
  intros Hc Ho. unfold seekto_of_bytes, ServerIoctl.seekto_bytes.
  cbn [ServerIoctl.write_cmd ServerIoctl.write_cmd_offset]. rewrite u32_at_le32 by done. f_equal.
  transitivity (u32_at 0 (Demo.le32 wo ++ [])); [by rewrite app_nil_r|by apply u32_at_le32].
Qed.

(** ** The descriptors of the process *)

Section device.
Context {K : Kernel} {KOk : KernelOk K} {KQ : QuietKernel K} {KW : WritingKernel K}.

Record vfs : Type := mk_vfs {
  v_world : world;
  v_files : gmap Z file;
}.

(** Addresses in the process: the packet, the seek structure. *)
Definition packet_buffer : Z := 8192.
Definition seekto_buffer : Z := 4000.

Definition vfs_open (fd : Z) (s : vfs) : vfs :=
  mk_vfs (v_world s)
    (<[fd := (fop_open aesd_fops (mk_inode (CDEV_OF AESD_DEVICE)) (mk_file 0 None)).2]> (v_files s)).
Definition vfs_close (fd : Z) (s : vfs) : vfs :=
  match v_files s !! fd with
  | Some f =>
      let '(_, _) := fop_release aesd_fops (mk_inode (CDEV_OF AESD_DEVICE)) f in
      mk_vfs (v_world s) (delete fd (v_files s))
  | None => s
  end.

Definition vfs_read (fd n : Z) (s : vfs) : answer * vfs :=
  match v_files s !! fd with
  | Some f =>
      let '(a, (w, f)) := device_read n (v_world s, f) in
      (a, mk_vfs w (<[fd := f]> (v_files s)))
  | None => (mk_answer (-1) [], s)
  end.

(** A call with an argument in user memory, where the process has put [d]. *)
Definition vfs_call (fd addr : Z) (d : list byte) (c : call) (s : vfs) : answer * vfs :=
  match v_files s !! fd with
  | Some f =>
      match exec aesd_fops f c (set_kern (put_user addr d (kern (v_world s))) (v_world s)) with
      | Some ((ret, f), w) => (mk_answer (libc ret) [], mk_vfs w (<[fd := f]> (v_files s)))
      | None => (mk_answer (-1) [], s)
      end
  | None => (mk_answer (-1) [], s)
  end.
Definition vfs_write (fd : Z) (d : list byte) : vfs -> answer * vfs :=
  vfs_call fd packet_buffer d (CharDriverTheorems.Write packet_buffer (zlen d)).
Definition vfs_ioctl (fd request wc wo : Z) : vfs -> answer * vfs :=
  vfs_call fd seekto_buffer (ServerIoctl.seekto_bytes (ServerIoctl.mk_seekto wc wo))
    (CharDriverTheorems.Ioctl request seekto_buffer).

(** ** What the device is to a connection *)

(** The commands, and the slot of the oldest. *)
Record ring_image : Type := mk_ring {
  ring_dev : adev;
  ring_out : Z;
}.

Definition ring_append (d : list byte) (i : ring_image) : option ring_image :=
  let a := ring_dev i in
  if decide (fits a (zlen d)) then
    Some (mk_ring (mk_adev (Fifo.push CAP (cmds a) (pending a ++ d)) [])
            (if decide (length (cmds a) = CAP) then next_offs (ring_out i) else ring_out i))
  else None.

(** Where the driver's [ioctl] moves to: it counts the slots of the array, as
    [main.c] line 77 does.  That is the documented command, counted from the
    oldest, as long as the ring has not wrapped ([serve_documented]). *)
Definition ring_seek (wc wo : Z) (i : ring_image) : option nat :=
  seek_pos (slot_order (Z.to_nat (ring_out i)) (cmds (ring_dev i))) wc wo.

Definition device_keeps (s : vfs) (i : ring_image) : Prop :=
  device_rep (v_world s) (ring_dev i) /\ calm (kern (v_world s)) /\
  out_offs (buffer (aesd_device (v_world s))) = ring_out i.

Definition device_open (s : vfs) (fd : Z) : Prop :=
  exists p, v_files s !! fd = Some (mk_file p (Some AESD_DEVICE)).

Definition device_offset (s : vfs) (fd : Z) (n : nat) : Prop :=
  v_files s !! fd = Some (mk_file (Z.of_nat n) (Some AESD_DEVICE)) /\ Z.of_nat n < 2 ^ 63.

(** Storing an argument in user memory changes nothing for the device. *)
Lemma put_user_keeps addr d w a :
  device_rep w a -> calm (kern w) ->
  let w1 := set_kern (put_user addr d (kern w)) w in
  device_rep w1 a /\ calm (kern w1) /\ ubytes (kern w1) addr (zlen d) = d /\
  buffer (aesd_device w1) = buffer (aesd_device w).
Proof.
  intros Hd Hc w1. split; [by apply device_rep_kern; [apply put_user_heap|]|].
  split; [by apply calm_put_user|]. split; [apply put_user_bytes|done].
Qed.

(** The slot of the oldest command after an entry was added. *)
Lemma add_entry_out b e x b' : cb_wf b -> aesd_circular_buffer_add_entry b e = Some (x, b') ->
  out_offs b' = if full b then next_offs (out_offs b) else out_offs b.
Proof.
  intros Hwf Hadd. destruct (full b) eqn:Hf.
  - destruct (add_entry_full_eq b e Hwf Hf) as (old & _ & Heq). rewrite Heq in Hadd. by simplify_eq.
  - rewrite (add_entry_partial_eq b e Hwf Hf) in Hadd. simplify_eq.
    by destruct (wf_not_full b Hwf Hf) as [-> _].
Qed.

Lemma full_cmds k b cs : buf_rep k b cs -> full b = bool_decide (length cs = CAP).
Proof.
  intros Hr. rewrite <- (Forall2_length _ _ _ (buf_holds _ _ _ Hr)), (contents_length _ (buf_wf _ _ _ Hr)).
  pose proof (wf_in b (buf_wf _ _ _ Hr)). destruct (full b); [done|].
  rewrite bool_decide_eq_false_2; [done|lia].
Qed.

Lemma exec_write f addr n w ret p w' :
  aesd_write f addr n (f_pos f) w = Some ((ret, p), w') ->
  exec aesd_fops f (CharDriverTheorems.Write addr n) w = Some ((ret, mk_file p (private_data f)), w').
Proof. intros Hrun. cbn [exec aesd_fops fop_write]. unfold mbind, st_bind. by rewrite Hrun. Qed.

Lemma write_keeps fd d s i :
  newline ∈ d -> zlen d < 2 ^ 63 -> device_keeps s i -> device_open s fd ->
  match ring_append d i with
  | Some i' => rv (vfs_write fd d s).1 <> -1 /\ device_keeps (vfs_write fd d s).2 i'
  | None => rv (vfs_write fd d s).1 = -1 /\ device_keeps (vfs_write fd d s).2 i
  end.
Proof.
  intros Hnl Hlen (Hd & Hc & Hout) [pos Hf]. unfold vfs_write, vfs_call. rewrite Hf.
  destruct (put_user_keeps packet_buffer d _ _ Hd Hc) as (Hd1 & Hc1 & Hu & Hb1).
  set (w1 := set_kern _ _) in *. set (a := ring_dev i) in *.
  assert (0 < zlen d) as Hpos0 by (destruct d; [by apply not_elem_of_nil in Hnl|simpl; lia]).
  set (f := mk_file _ _).
  destruct (wp_inv _ _ _ (wp_pc _ _ _ _
    (aesd_write_correct w1 a f packet_buffer (zlen d) pos Hd1 (mk_is_Some _ _ eq_refl) ltac:(lia))
    (aesd_write_calm w1 a f packet_buffer (zlen d) pos Hd1 Hc1 ltac:(lia))))
    as ([ret p] & w2 & Hrun & (_ & a2 & Hd2 & Haw & _) & Hc2 & Hcase).
  rewrite (exec_write _ _ _ _ _ _ _ Hrun). cbn [fst snd rv] in *. rewrite Hu in Haw.
  unfold ring_append. fold a.
  destruct Hcase as [(Hfit & Hret & Hring)|(Hfit & Hret & Hb2)]; [rewrite decide_True by done|rewrite decide_False by done].
  - rewrite libc_nonneg by done. split; [lia|].
    destruct (awrite_success _ _ _ _ Haw Hret) as [(Hno & _)|(_ & _ & Ha2)]; [set_solver|].
    split; cbn [v_world ring_dev]; [by rewrite <- Ha2|]. side. cbn [ring_out].
    pose proof (dev_rep _ _ Hd) as [Hbr _]. pose proof (dev_rep _ _ Hd2) as [_ Hpd].
    destruct Hring as [[_ Hpe]|(e & x & Hadd)].
    + exfalso. unfold pending_rep in Hpd. rewrite Ha2 in Hpd. simpl in Hpd.
      case_decide; [lia|]. destruct Hpd as ([_ Hsz] & _). simpl in Hsz. lia.
    + rewrite Hb1 in Hadd. rewrite (add_entry_out _ _ _ _ (buf_wf _ _ _ Hbr) Hadd), (full_cmds _ _ _ Hbr), Hout.
      case_bool_decide; by case_decide.
  - assert (a2 = a) as ->.
    { clear - Haw Hret. revert Hret. unfold ENOMEM. destruct Haw; unfold ERESTARTSYS, EFAULT; done || lia. }
    rewrite Hret. side. split; [done|]. side. cbn [v_world]. by rewrite Hb2, Hb1.
Qed.

Lemma read_keeps fd n s i pos :
  0 < n < 2 ^ 63 -> device_keeps s i -> device_offset s fd pos ->
  let a := (vfs_read fd n s).1 in
  let l := drop pos (stream (ring_dev i)) in
  0 <= rv a <= n /\ (rv a = 0 <-> l = []) /\ rv a <= zlen l /\
  (0 < rv a -> rdata a = take (Z.to_nat (rv a)) l) /\
  device_keeps (vfs_read fd n s).2 i /\ device_offset (vfs_read fd n s).2 fd (pos + Z.to_nat (rv a)).
Proof.
  intros Hn (Hd & Hc & Hout) [Hf Hpos]. unfold vfs_read. rewrite Hf. set (f := mk_file _ _).
  destruct (device_read_run (v_world s) f (ring_dev i) n Hd Hc (mk_is_Some _ _ eq_refl))
    as (ret & w' & Hrun & Hd' & Hc' & H1 & H2 & H3 & H4 & Hlt); [simpl; lia|done|].
  rewrite (device_read_eq _ _ _ _ _ _ Hrun) by lia. cbn [fst snd rv rdata f f_pos private_data] in *.
  rewrite Nat2Z.id in H2, H3, H4. side. side. side. side. split.
  - split; [done|]. side. cbn [v_world]. by rewrite (aesd_read_ring _ _ _ _ _ _ _ Hrun).
  - split; [|lia]. cbn [v_files]. rewrite lookup_insert_eq. do 2 f_equal. lia.
Qed.

Lemma seek_keeps fd wc wo s i pos :
  0 <= wc < 2 ^ 32 -> 0 <= wo < 2 ^ 32 -> device_keeps s i -> device_offset s fd pos ->
  let r := vfs_ioctl fd AESDCHAR_IOCSEEKTO wc wo s in
  device_keeps r.2 i /\
  match ring_seek wc wo i with
  | Some p => rv r.1 = 0 /\ device_offset r.2 fd p
  | None => rv r.1 <> 0 /\ device_offset r.2 fd pos
  end.
Proof.
  intros Hwc Hwo (Hd & Hc & Hout) [Hf Hpos]. cbv zeta. unfold vfs_ioctl, vfs_call. rewrite Hf.
  set (d := ServerIoctl.seekto_bytes (ServerIoctl.mk_seekto wc wo)).
  destruct (put_user_keeps seekto_buffer d _ _ Hd Hc) as (Hd1 & Hc1 & Hu & Hb1).
  set (w1 := set_kern _ _) in *. set (f := mk_file _ _). cbn [exec aesd_fops fop_unlocked_ioctl].
  destruct (wp_inv _ _ _ (wp_pc _ _ _ _
    (aesd_ioctl_correct w1 (ring_dev i) f seekto_buffer Hd1 (mk_is_Some _ _ eq_refl))
    (aesd_ioctl_calm w1 (ring_dev i) f seekto_buffer Hd1 Hc1)))
    as ([ret f'] & w2 & Hrun & (_ & a2 & Hd2 & -> & _) & Hc2 & Hb2 & Heq).
  rewrite Hrun. cbn [fst snd rv]. change sizeof_aesd_seekto with (zlen d) in Heq. rewrite Hu in Heq.
  unfold d in Heq. rewrite seekto_roundtrip, Hb1 in Heq by done.
  pose proof (dev_rep _ _ Hd) as [Hbr _].
  rewrite (aseek_slots _ _ _ f (mk_seekto wc wo) Hbr) in Heq by (simpl; lia).
  rewrite Hout in Heq. cbn [write_cmd write_cmd_offset] in Heq. fold (ring_seek wc wo i) in Heq.
  split; [split; [done|]; split; [done|]; cbn [v_world]; by rewrite Hb2, Hb1|].
  destruct (ring_seek wc wo i) as [p|] eqn:Hp; injection Heq as -> ->; [|by repeat split; [|cbn [v_files]; apply lookup_insert_eq|]].
  side. split; [cbn [v_files]; apply lookup_insert_eq|].
  apply seek_pos_bound in Hp; [|lia]. rewrite slot_order_perm in Hp.
  destruct (buf_rep_total _ _ _ Hbr) as [_ Hmax]. lia.
Qed.

(** A read returns at most what it was asked for, in every state. *)
Lemma aesd_read_max filp buf count pos w :
  0 <= count -> pc (aesd_read filp buf count pos) (fun r _ => r.1 <= count) w.
Proof.
  intros Hn. unfold aesd_read. pc_step. apply pc_get_dev. pc_step. intros r w1. unfold lock_dev.
  destruct (mutex_lock_interruptible _ _) as [[r' m] k]. intros [= <- <-].
  destruct (negb (r' =? 0)); [pc_step; cbn; unfold ERESTARTSYS; lia|]. pc_step.
  assert (forall (res : Z * Z) w', res.1 <= count ->
    pc (_ ← unlock_dev; mret res) (fun r _ => r.1 <= count) w') as Hend.
  { intros res w' Hw'. pc_step. apply pc_unlock. intros m'. by pc_step. }
  unfold aesd_read_locked. do 2 pc_step. intros [[i o]|] _; [|pc_step; by apply Hend].
  do 2 pc_step. intros e _. destruct (_ <=? _); [pc_step; by apply Hend|]. cbv zeta. pc_step.
  unfold do_copy_to_user, check_range. do 3 pc_step. intros b _. case_decide as Hr; [|done].
  pc_step. apply pc_on_kern. destruct (negb _); pc_step; apply Hend; [cbn; unfold EFAULT; lia|].
  cbn [fst]. set (x := count `min` _) in *. assert (s64 x <= x); [|lia].
  unfold s64. pose proof (Z.mod_le (x + 2 ^ 63) (2 ^ 64)). lia.
Qed.

Lemma vfs_read_max fd n s : 0 <= n ->
  rv (vfs_read fd n s).1 <= n /\
  (0 < rv (vfs_read fd n s).1 -> zlen (rdata (vfs_read fd n s).1) = rv (vfs_read fd n s).1).
Proof.
  intros Hn. unfold vfs_read. destruct (v_files s !! fd) as [f|]; [|simpl; lia].
  unfold device_read. cbn [exec aesd_fops fop_read fst snd]. unfold mbind, st_bind.
  destruct (aesd_read f read_buffer n (f_pos f) (v_world s)) as [[[ret p] w']|] eqn:Hrun; [|simpl; lia].
  pose proof (aesd_read_max _ _ _ _ _ Hn _ _ Hrun) as Hmax. simpl in Hmax |- *.
  split; [unfold libc; destruct (ret <? 0); lia|]. intros Hp. apply ubytes_length. lia.
Qed.

Lemma ring_append_size d i i' : ring_append d i = Some i' ->
  (length (stream (ring_dev i')) + length (pending (ring_dev i')) <=
   length (stream (ring_dev i)) + length (pending (ring_dev i)) + length d)%nat.
Proof.
  unfold ring_append, stream. case_decide; [|done]. intros [= <-]. simpl.
  set (q := cmds (ring_dev i)). set (c := pending (ring_dev i) ++ d).
  assert (length (concat (Fifo.push CAP q c)) <= length (concat q) + length c)%nat as H1.
  { assert (concat (q ++ [c]) = concat q ++ c) as Hc by (rewrite concat_app; simpl; by rewrite app_nil_r).
    rewrite <- length_app, <- Hc. unfold Fifo.push, lastn. set (l := q ++ [c]).
    rewrite <- (take_drop (length l - CAP) l) at 3. rewrite concat_app, length_app. lia. }
  unfold c in H1 at 2. rewrite length_app in H1. lia.
Qed.

(** A call leaves the other descriptors alone. *)
Lemma vfs_read_other fd fd' n s : fd' <> fd -> v_files (vfs_read fd n s).2 !! fd' = v_files s !! fd'.
Proof.
  intros Hne. unfold vfs_read. destruct (v_files s !! fd); [|done].
  destruct (device_read _ _) as [a [w f']]. simpl. by rewrite lookup_insert_ne.
Qed.

Lemma vfs_call_other fd fd' addr d c s : fd' <> fd -> v_files (vfs_call fd addr d c s).2 !! fd' = v_files s !! fd'.
Proof.
  intros Hne. unfold vfs_call. destruct (v_files s !! fd); [|done].
  destruct (exec _ _ _ _) as [[[r f'] w]|]; [|done]. simpl. by rewrite lookup_insert_ne.
Qed.

Lemma vfs_write_open fd fd' d s : device_open s fd' -> device_open (vfs_write fd d s).2 fd'.
Proof.
  intros [p Hf]. destruct (decide (fd' = fd)) as [->|Hne]; [|exists p; by unfold vfs_write; rewrite vfs_call_other].
  unfold vfs_write, vfs_call. rewrite Hf. set (f := mk_file _ _). cbn [exec aesd_fops fop_write].
  unfold mbind, st_bind. destruct (aesd_write _ _ _ _ _) as [[[r q] w]|]; [|by exists p].
  exists q. cbn. apply lookup_insert_eq.
Qed.

#[export] Program Instance device_storage : Storage vfs := {
  image := ring_image;
  image_bytes i := stream (ring_dev i);
  image_append := ring_append;
  image_seek := ring_seek;
  image_size i := (length (stream (ring_dev i)) + length (pending (ring_dev i)))%nat;
  seek_request := ServerIoctl.AESDCHAR_IOCSEEKTO;
  do_open := vfs_open;
  do_close := vfs_close;
  do_read := vfs_read;
  do_write := vfs_write;
  do_ioctl := vfs_ioctl;
  keeps := device_keeps;
  is_open := device_open;
  offset_of := device_offset;
}.
Next Obligation. intros s fd n [Hf _]. by eexists. Qed.
Next Obligation. intros. simpl. lia. Qed.
Next Obligation. apply ring_append_size. Qed.
Next Obligation. done. Qed.
Next Obligation. intros fd s. split; [apply lookup_insert_eq|simpl; lia]. Qed.
Next Obligation. intros fd fd' s n Hne [Hf Hn]. split; [|done]. simpl. by rewrite lookup_insert_ne. Qed.
Next Obligation. intros fd s i Hk. unfold vfs_close. by destruct (v_files s !! fd). Qed.
Next Obligation.
  intros fd fd' s n Hne [Hf Hn]. unfold vfs_close. destruct (v_files s !! fd); [|done].
  split; [|done]. simpl. by rewrite lookup_delete_ne.
Qed.
Next Obligation. apply read_keeps. Qed.
Next Obligation. apply vfs_read_max. Qed.
Next Obligation. apply write_keeps. Qed.
Next Obligation. intros fd fd' d s n Hne [Hf Hn]. split; [|done]. unfold vfs_write. by rewrite vfs_call_other. Qed.
Next Obligation. apply seek_keeps. Qed.
Next Obligation. intros fd fd' n s m Hne [Hf Hn]. split; [|done]. by rewrite vfs_read_other. Qed.
Next Obligation. intros fd fd' r wc wo s m Hne [Hf Hn]. split; [|done]. unfold vfs_ioctl. by rewrite vfs_call_other. Qed.
Next Obligation. intros fd fd' s Hne [p Hf]. exists p. simpl. by rewrite lookup_insert_ne. Qed.
Next Obligation.
  intros fd fd' s Hne [p Hf]. exists p. unfold vfs_close. destruct (v_files s !! fd); [|done]. simpl.
  by rewrite lookup_delete_ne.
Qed.
Next Obligation. intros fd fd' n s Hne [p Hf]. exists p. by rewrite vfs_read_other. Qed.
Next Obligation. apply vfs_write_open. Qed.
Next Obligation. intros fd fd' r wc wo s Hne [p Hf]. exists p. unfold vfs_ioctl. by rewrite vfs_call_other. Qed.
End device.

(** ** The text of a seek command *)

Definition seek_text (wc wo : Z) : list byte := SEEKTO ++ decimal wc ++ [x2c] ++ decimal wo ++ [newline].

Lemma cstr_id s : nul ∉ s -> cstr s = s.
Proof.
  induction s as [|x s IH]; [done|]. intros [Hx Hs]%not_elem_of_cons. simpl.
  by rewrite decide_False, IH by done.
Qed.

Lemma decimal_no_nul n : 0 <= n < 2 ^ 31 -> nul ∉ decimal n.
Proof.
  intros Hn Hin. destruct (scan_decimal_fuel 9 n [] []) as (d & ds & Heq & Hall & _); [lia|].
  unfold decimal in Hin. rewrite Heq, app_nil_r in Hin. rewrite Forall_forall in Hall.
  by apply Hall in Hin.
Qed.

Lemma feed_seek_text int_of acts wc wo : 0 <= wc < 2 ^ 31 -> 0 <= wo < 2 ^ 31 ->
  int_of wc = wc -> int_of wo = wo ->
  feed int_of (acts, []) (seek_text wc wo) = (acts ++ [Seek wc wo], []).
Proof.
  intros Hc Ho Hic Hio. unfold feed, seek_text. cbn [fst snd app].
  rewrite decide_True by by apply prefix_app_r. rewrite drop_app_length, cstr_id.
  - unfold seek_action, sscanf_d_d. rewrite scan_int_decimal by done. simpl.
    rewrite scan_int_decimal by done. simpl. by rewrite Hic, Hio, !u32_small by lia.
  - rewrite !not_elem_of_app. split; [by apply decimal_no_nul|].
    rewrite not_elem_of_cons, not_elem_of_app. split; [done|]. split; [by apply decimal_no_nul|].
    by rewrite list_elem_of_singleton.
Qed.

Section theorems.
Context {K : Kernel} {KOk : KernelOk K} {KQ : QuietKernel K} {KW : WritingKernel K}.

(** The bytes sent and the device in the end as the headers document them: a
    packet is the newest command, and a seek goes to byte [wo] of command
    [wc], counted from the oldest. *)
Fixpoint documented (acts : list action) (a : adev) (pos : nat) : list byte * adev :=
  match acts with
  | [] => ([], a)
  | Append d :: acts =>
      if decide (fits a (zlen d)) then
        let a' := mk_adev (cmds a ++ [pending a ++ d]) [] in
        let r := documented acts a' (pos `max` length (stream a'))%nat in
        (drop pos (stream a') ++ r.1, r.2)
      else ([], a)
  | Seek wc wo :: acts =>
      match seek_pos (cmds a) wc wo with
      | Some p =>
          let r := documented acts a (p `max` length (stream a))%nat in
          (drop p (stream a) ++ r.1, r.2)
      | None => ([], a)
      end
  end.
Definition appended (acts : list action) : list (list byte) :=
  omap (fun x => match x with Append d => Some d | Seek _ _ => None end) acts.

(** The ring does what is documented while it need not forget. *)
Lemma serve_documented acts a pos : (length (cmds a) + length (appended acts) <= CAP)%nat ->
  serve (F := device_storage) acts (mk_ring a 0) pos = ((documented acts a pos).1, mk_ring (documented acts a pos).2 0).
Proof.
  revert a pos. induction acts as [|[d|wc wo] acts IH]; intros a pos Hn; [done|..]; cbn [appended omap list_omap length] in Hn.
  - cbn [serve documented image_append device_storage]. unfold ring_append. cbn [ring_dev ring_out]. case_decide; [|done].
    rewrite decide_False by lia. assert (Fifo.push CAP (cmds a) (pending a ++ d) = cmds a ++ [pending a ++ d]) as ->.
    { unfold Fifo.push. apply lastn_all. rewrite length_app. cbn. lia. }
    rewrite IH; [done|]. cbn [cmds]. rewrite length_app. cbn. unfold appended. lia.
  - cbn [serve documented image_seek device_storage]. unfold ring_seek. cbn [ring_dev ring_out]. rewrite slot_order_0.
    destruct (seek_pos (cmds a) wc wo) as [q|]; [|done]. by rewrite IH.
Qed.


(** C17. What a client sees of the device, when nothing fails ([served],
    [calm]): on a device with fewer than ten commands and none unfinished, a
    client that sends a packet, in one chunk and not too long for a block,
    and then, in one chunk, the text of a seek command to byte [wo] of
    command [wc], both of them there, and closes the connection, is sent all
    commands with its own at the end, and then the commands from that byte
    on; its packet is the newest command of the device. *)
Theorem packet_then_seek E w a d wc wo cmd c int_of fuel :
  let cs := cmds a ++ [d] in
  served E (mk_vfs w ∅) (clfd c) [d; seek_text wc wo] -> device_rep w a -> calm (kern w) ->
  pending a = [] -> (length (cmds a) < CAP)%nat ->
  newline ∈ d -> ~ SEEKTO `prefix_of` d -> zlen d <= KMALLOC_MAX_SIZE ->
  0 <= wc < 2 ^ 31 -> 0 <= wo < 2 ^ 31 -> int_of wc = wc -> int_of wo = wo ->
  cs !! Z.to_nat wc = Some cmd -> wo < zlen cmd ->
  (length (concat cs) + length (seek_text wc wo) + 2 < fuel)%nat ->
  exists s', handle_connection E true ServerIoctl.AESDCHAR_IOCSEEKTO int_of fuel c (start []) = Some (Some tt, s') /\
    concat (sends (trace s')) =
      concat cs ++ drop (length (concat (take (Z.to_nat wc) cs)) + Z.to_nat wo) (concat cs) /\
    device_rep (v_world (file_after (mk_vfs w ∅) (trace s'))) (mk_adev cs []).
Proof.
  intros cs SV Hd Hc Hpd Hn Hnl Hsk Hfit Hwc Hwo Hic Hio Hcmd Hlt Hfuel.
  set (i0 := mk_ring a (out_offs (buffer (aesd_device w)))).
  assert (length (concat cs) = length (stream a) + length d)%nat as Hcs.
  { unfold cs. rewrite concat_app, length_app. simpl. by rewrite app_nil_r. }
  pose proof (sv_chunks _ _ _ _ SV) as [Hch1 [Hch2 _]%Forall_cons]%Forall_cons. unfold BUFFER_SIZE in *.
  assert (length (concat [d; seek_text wc wo]) = length d + length (seek_text wc wo))%nat as Hin.
  { cbn [concat]. by rewrite !length_app, Nat.add_0_r. }
  destruct (wp_inv _ _ _ (connection_conversed SV ServerIoctl.AESDCHAR_IOCSEEKTO int_of true c eq_refl eq_refl
    fuel [] i0 ltac:(done) eq_refl eq_refl ltac:(cbn [length]; lia)
    ltac:(rewrite Hin; change (@image_size _ device_storage i0) with (length (stream a) + length (pending a))%nat;
          rewrite Hpd; cbn [length]; lia) ltac:(lia))) as (r & s' & Hrun & -> & Ho & Hk & _).
  exists s'. side. revert Ho Hk.
  assert (session int_of [d; seek_text wc wo] = ([Append d; Seek wc wo], [])) as ->.
  { unfold session. cbn [foldl]. unfold feed at 2. cbn [fst snd app]. rewrite decide_False by done.
    rewrite decide_True by done. by apply feed_seek_text. }
  assert (out_offs (buffer (aesd_device w)) = 0) as Hout.
  { pose proof (dev_rep _ _ Hd) as [Hbr _]. pose proof (full_cmds _ _ _ Hbr) as Hf.
    rewrite bool_decide_eq_false_2 in Hf by lia. by apply (wf_not_full _ (buf_wf _ _ _ Hbr)). }
  assert (ring_append d i0 = Some (mk_ring (mk_adev cs []) 0)) as Happ.
  { unfold ring_append, i0. cbn [ring_dev ring_out]. rewrite decide_True by (unfold fits; rewrite Hpd; simpl; lia).
    rewrite decide_False, Hout, Hpd by lia. unfold Fifo.push. rewrite lastn_all; [done|].
    rewrite length_app. simpl. lia. }
  assert (ring_seek wc wo (mk_ring (mk_adev cs []) 0) =
    Some (length (concat (take (Z.to_nat wc) cs)) + Z.to_nat wo)%nat) as Hseek.
  { unfold ring_seek, seek_pos. cbn [ring_dev ring_out cmds]. rewrite slot_order_0, Hcmd. by rewrite decide_True. }
  simpl. rewrite Happ. cbn [fst snd]. rewrite Hseek. simpl. unfold stream. simpl.
  rewrite app_nil_r. by intros -> ?.
Qed.
End theorems.

(** ** The theorems at a concrete device *)

Module DeviceFileWitness.
Import SimKernel FileWitness.

#[export] Program Instance sim_writing : WritingKernel sim_kernel := {
  put_user u d s := mk_sim (s_heap s) (user_write u d (s_user s)) (s_script s) (s_regions s) (s_cdevs s);
}.
Next Obligation.
  intros u d s. simpl. unfold sim_ubytes. simpl. rewrite Nat2Z.id. apply list_eq. intros i.
  rewrite list_lookup_fmap. destruct (decide (i < length d)%nat) as [Hi|Hi].
  - destruct (lookup_lt_is_Some_2 d i Hi) as [x Hx].
    rewrite lookup_seq_lt by lia. simpl. rewrite lookup_user_write, decide_True by lia.
    replace (Z.to_nat (u + Z.of_nat i - u)) with i by lia. by rewrite Hx.
  - rewrite lookup_seq_ge by lia. by rewrite lookup_ge_None_2 by lia.
Qed.
Next Obligation. done. Qed.
Next Obligation. done. Qed.
Next Obligation.
  intros n s Hs. simpl in *. unfold sim_kzalloc, fails. rewrite Hs. simpl.
  destruct (new_address_fresh s) as (H0 & _). repeat case_match; simpl; rewrite ?Hs; split; try done; lia.
Qed.
Next Obligation.
  intros p n s Hs. simpl in *. unfold sim_krealloc, fails. rewrite Hs. simpl.
  destruct (new_address_fresh s) as (H0 & _). repeat case_match; simpl; rewrite ?Hs; split; try done; lia.
Qed.
Next Obligation. done. Qed.
Next Obligation. intros dst off src n s Hs. simpl in *. unfold fails. by rewrite Hs. Qed.
Next Obligation.
  intros src n s Hs. simpl in *. unfold sim_copy_from_user_obj, fails. rewrite Hs. simpl. by rewrite Hs.
Qed.

(** A device with two commands. *)
Definition dev2 : world := Demo.after (Demo.loaded DriverWitness.script 2) (Demo.unloaded DriverWitness.script []).
Definition adev2 : adev := mk_adev (take 2 DriverWitness.script) [].
Lemma dev2_rep : device_rep dev2 adev2.
Proof. apply (bool_decide_unpack _). vm_compute. exact I. Qed.

Definition conn0 : conn_info := mk_conn 100 4 200.
Definition packet0 : list byte := bytes_of "new" ++ [newline].
(** A packet in two chunks, a seek command, and a seek out of range. *)
Definition inbox0 : list (list byte) :=
  [bytes_of "ne"; bytes_of "w" ++ [newline]; seek_text 2 1; seek_text 7 0].
Definition E0 (cs : list (list byte)) : env := storage_env (mk_vfs dev2 ∅) cs.


Lemma packet_then_seek_witness :
  let cs := cmds adev2 ++ [packet0] in
  exists s', handle_connection (E0 [packet0; seek_text 2 1]) true ServerIoctl.AESDCHAR_IOCSEEKTO id 200 conn0 (start []) =
      Some (Some tt, s') /\
    concat (sends (trace s')) =
      concat cs ++ drop (length (concat (take 2 cs)) + 1) (concat cs) /\
    device_rep (v_world (file_after (mk_vfs dev2 ∅) (trace s'))) (mk_adev cs []).
Proof.
  apply (packet_then_seek (E0 [packet0; seek_text 2 1]) dev2 adev2 packet0 2 1 packet0 conn0 id 200);
    try reflexivity; try lia; try exact dev2_rep.
  - apply storage_env_served. repeat constructor; vm_compute; done.
  - simpl. lia.
  - apply (bool_decide_unpack _). vm_compute. exact I.
  - apply (bool_decide_unpack _). vm_compute. exact I.
  - vm_compute. discriminate.
  - apply (bool_decide_unpack _). vm_compute. exact I.
Defined.
End DeviceFileWitness.
