(* ===== verification/Continuation.v ===== *)
(** * The beginning of a run is the beginning of one that ends

    A connection thread depends on its environment only through the answers
    it has been given.  So the first events of any run of
    [handle_connection], also of one that never ends, are the first events
    of a run that ends: let the client close the connection after them, and
    memory and files run out.  The theorems about whole runs thereby speak of
    threads that are still running ([run_completes]). *)

From S2P Require Import Prelude Posix Queue Handler HandlerSpec HandlerTheorems Server.

(** ** Two environments that agree at first *)

(** For the states [S] of a program, with the trace [tr]. *)
Section agree.
Context {S : Type} (tr : S -> list event).

Definition longer {A} (m : ST S A) : Prop := forall x, pc m (fun _ s => tr x `prefix_of` tr s) x.

Lemma longer_ret {A} (a : A) : longer (mret a).
Proof. intros x. by pc_step. Qed.

Lemma longer_bind {A B} (m : ST S A) (f : A -> ST S B) : longer m -> (forall a, longer (f a)) -> longer (m ≫= f).
Proof.
  intros Hm Hf x. pc_step. eapply pc_mono; [apply Hm|]. intros a s Hs. eapply pc_mono; [apply Hf|].
  intros b t Ht. by trans (tr s).
Qed.

Variable n : nat.

(** Two states after the environments have parted. *)
Definition parted (s s' : S) : Prop :=
  take n (tr s) = take n (tr s') /\ (n <= length (tr s))%nat /\ (n <= length (tr s'))%nat.

Record agrees {A} (m m' : ST S A) : Prop := {
  ag_left : longer m;
  ag_right : longer m';
  ag_same x a s a' s' : m x = Some (a, s) -> m' x = Some (a', s') -> (a = a' /\ s = s') \/ parted s s';
}.

Lemma parted_prefix s s' t t' :
  parted s s' -> tr s `prefix_of` tr t -> tr s' `prefix_of` tr t' -> parted t t'.
Proof.
  intros (Heq & Hl & Hl') [u Hu] [u' Hu']. unfold parted. rewrite Hu, Hu', !length_app, !take_app_le by done.
  split_and!; [done|lia..].
Qed.

Lemma agrees_bind {A B} (m m' : ST S A) (f f' : A -> ST S B) :
  agrees m m' -> (forall a, agrees (f a) (f' a)) -> agrees (m ≫= f) (m' ≫= f').
Proof.
  intros [Hl Hr Hs] Hf. split; [apply longer_bind; [done|]; apply Hf..|].
  intros x b t b' t' Hm Hm'. unfold mbind, st_bind in Hm, Hm'.
  destruct (m x) as [[a s]|] eqn:Ha; [|done]. destruct (m' x) as [[a' s']|] eqn:Ha'; [|done].
  destruct (Hs _ _ _ _ _ Ha Ha') as [[<- <-]|Hp]; [by eapply (Hf a)|]. right.
  eapply parted_prefix; [done|by eapply (ag_left _ _ (Hf a))|by eapply (ag_right _ _ (Hf a'))].
Qed.

Lemma agrees_refl {A} (m : ST S A) : longer m -> agrees m m.
Proof. intros Hm. split; [done..|]. intros x a s a' s' H1 H2. left. by simplify_eq. Qed.

Lemma agrees_ret {A} (a : A) : agrees (mret a) (mret a).
Proof. apply agrees_refl, longer_ret. Qed.

Lemma agrees_get : agrees st_get st_get.
Proof. apply agrees_refl. by intros x a s [= <- <-]. Qed.

Lemma agrees_opt {A} (f : S -> option A) : agrees (st_opt f) (st_opt f).
Proof. apply agrees_refl. intros x. by pc_step. Qed.

Lemma agrees_ub {A} : agrees (st_ub : ST S A) st_ub.
Proof. by apply agrees_refl. Qed.

Lemma agrees_modify (f : S -> S) : (forall x, tr (f x) = tr x) -> agrees (st_modify f) (st_modify f).
Proof. intros Hf. apply agrees_refl. intros x. pc_step. by rewrite Hf. Qed.

Lemma agrees_obind {A B} (m m' : ST S (option A)) (f f' : A -> ST S (option B)) :
  agrees m m' -> (forall a, agrees (f a) (f' a)) -> agrees (obind m f) (obind m' f').
Proof. intros Hm Hf. apply agrees_bind; [done|]. intros [a|]; [apply Hf|apply agrees_ret]. Qed.

Lemma agrees_iterate {L R} fuel (body body' : L -> ST S (option (L + R))) x :
  (forall x, agrees (body x) (body' x)) -> agrees (iterate fuel body x) (iterate fuel body' x).
Proof.
  intros Hb. revert x. induction fuel as [|fuel IH]; intros x; cbn [iterate]; [apply agrees_ret|].
  apply agrees_obind; [apply Hb|]. intros [y|y]; [apply IH|apply agrees_ret].
Qed.

(** A call, whose answer is recorded by [upd]. *)
Lemma agrees_call (E E' : env) c (upd : S -> answer -> S) :
  (forall tr c, (length tr < n)%nat -> E' tr c = E tr c) -> (forall x a, tr (upd x a) = tr x ++ [(c, a)]) ->
  agrees (fun x => Some (E (tr x) c, upd x (E (tr x) c))) (fun x => Some (E' (tr x) c, upd x (E' (tr x) c))).
Proof.
  intros HE Hu. split; [intros x a s [= <- <-]; rewrite Hu; by eexists..|]. intros x a s a' s' [= <- <-] [= <- <-].
  destruct (decide (length (tr x) < n)%nat) as [Hn|Hn]; [left; by rewrite HE|]. right. unfold parted.
  rewrite !Hu, !length_app, !take_app_le by lia. split_and!; [done|lia..].
Qed.
End agree.

(** ** More fuel *)

(** With more fuel a run that returns is the same, and one that is cut off
    goes on. *)
Section grow.
Context {S : Type} (tr : S -> list event).
#[local] Abbreviation longer := (longer tr).

Record grows {A} (m m' : ST S (option A)) : Prop := {
  gr_left : longer m;
  gr_right : longer m';
  gr_same x a s a' s' : m x = Some (a, s) -> m' x = Some (a', s') ->
    (a = a' /\ s = s') \/ (a = None /\ tr s `prefix_of` tr s');
}.

Lemma grows_refl {A} (m : ST S (option A)) : longer m -> grows m m.
Proof. intros Hm. split; [done..|]. intros x a s a' s' H1 H2. left. by simplify_eq. Qed.

Lemma grows_bind {A B} (m : ST S A) (f f' : A -> ST S (option B)) :
  longer m -> (forall a, grows (f a) (f' a)) -> grows (m ≫= f) (m ≫= f').
Proof.
  intros Hm Hf. split; [apply longer_bind; [done|]; apply Hf..|].
  intros x b t b' t' H1 H2. unfold mbind, st_bind in H1, H2. destruct (m x) as [[a s]|]; [|done]. by eapply (Hf a).
Qed.

Lemma grows_obind {A B} (m m' : ST S (option A)) (f f' : A -> ST S (option B)) :
  grows m m' -> (forall a, grows (f a) (f' a)) -> grows (obind m f) (obind m' f').
Proof.
  intros [Hl Hr Hs] Hf.
  assert (forall o, longer (match o with Some a => f a | None => mret None end) /\
    longer (match o with Some a => f' a | None => mret None end)) as Ho.
  { intros [a|]; [split; apply Hf|split; apply longer_ret]. }
  split; [apply longer_bind; [done|]; intros o; apply (Ho o)..|].
  intros x b t b' t' H1 H2. unfold obind, mbind, st_bind in H1, H2.
  destruct (m x) as [[a s]|] eqn:Ha; [|done]. destruct (m' x) as [[a' s']|] eqn:Ha'; [|done].
  destruct (Hs _ _ _ _ _ Ha Ha') as [[<- <-]|[-> Hp]].
  - destruct a as [a|]; [by eapply (Hf a)|]. left. injection H1 as <- <-. injection H2 as <- <-. done.
  - injection H1 as <- <-. right. side. trans (tr s'); [done|]. by eapply (proj2 (Ho a')).
Qed.

Lemma grows_iterate {L R} fuel fuel' (body body' : L -> ST S (option (L + R))) x :
  (fuel <= fuel')%nat -> (forall x, grows (body x) (body' x)) -> grows (iterate fuel body x) (iterate fuel' body' x).
Proof.
  intros Hle Hb. assert (forall fuel x, longer (iterate fuel body' x)) as Hlong.
  { intros k. induction k as [|k IH]; intros y; cbn [iterate]; [apply longer_ret|].
    apply longer_bind; [apply Hb|]. intros [[z|z]|]; [apply IH|apply longer_ret..]. }
  revert fuel' Hle x. induction fuel as [|fuel IH]; intros fuel' Hle x.
  { split; [apply longer_ret|apply Hlong|]. intros y a s a' s' [= <- <-] H2. right. side. by eapply Hlong. }
  destruct fuel' as [|fuel']; [lia|]. cbn [iterate]. apply grows_obind; [apply Hb|].
  intros [y|y]; [apply IH; lia|apply grows_refl, longer_ret].
Qed.
End grow.

(** Walks through two runs of a program. *)
Ltac agree_with calls :=
  intros; repeat
  lazymatch goal with
  | |- agrees _ _ (mret _) _ => apply agrees_ret
  | |- agrees _ _ st_get _ => apply agrees_get
  | |- agrees _ _ (obind _ _) _ => apply agrees_obind; [|intros ?]
  | |- agrees _ _ (mbind _ _) _ => apply agrees_bind; [|intros ?]
  | |- agrees _ _ (st_opt _) _ => apply agrees_opt
  | |- agrees _ _ (st_modify _) _ => apply agrees_modify; done
  | |- agrees _ _ st_ub _ => apply agrees_ub
  | |- agrees _ _ (iterate _ _ _) _ => apply agrees_iterate; intros ?
  | |- agrees _ _ (if ?b then _ else _) _ => destruct b
  | |- agrees _ _ (match ?b with _ => _ end) _ => destruct b
  | |- agrees _ _ (let _ := _ in _) _ => cbv zeta
  | |- agrees _ _ _ _ => calls
  end.
Ltac grow_with calls :=
  intros; repeat
  lazymatch goal with
  | |- grows _ (mret _) _ => apply grows_refl, longer_ret
  | |- grows _ (obind _ _) _ => apply grows_obind; [|intros ?]
  | |- grows _ (mbind _ _) _ => apply grows_bind; [|intros ?]
  | |- grows _ (iterate _ _ _) _ => apply grows_iterate; [done|intros ?]
  | |- grows _ (if ?b then _ else _) _ => destruct b
  | |- grows _ (match ?b with _ => _ end) _ => destruct b
  | |- grows _ (let _ := _ in _) _ => cbv zeta
  | |- longer _ (mbind _ _) => apply longer_bind; [|intros ?]
  | |- longer _ (mret _) => apply longer_ret
  | |- _ => calls
  end.

(** ** A connection in two environments *)

Section connection.
Context {E E' : env} {n : nat}.
Hypothesis HE : forall tr c, (length tr < n)%nat -> E' tr c = E tr c.
#[local] Abbreviation agrees := (agrees trace n).

Lemma agrees_sys c : agrees (sys E c) (sys E' c).
Proof using HE. by apply (agrees_call trace n E E' c (fun x a => mk_proc (trace x ++ [(c, a)]) (mem x))). Qed.

Lemma agrees_sysv c : agrees (sysv E c) (sysv E' c).
Proof using HE. apply agrees_bind; [apply agrees_sys|]. intros a. apply agrees_ret. Qed.

Ltac agree :=
  agree_with ltac:(first [apply agrees_sys|apply agrees_sysv|apply agrees_opt|apply agrees_modify; done]).

Lemma malloc_agrees k : agrees (malloc E k) (malloc E' k).
Proof. unfold malloc. agree. Qed.
Lemma realloc_agrees p k : agrees (realloc E p k) (realloc E' p k).
Proof. unfold realloc. agree. Qed.
Lemma free_agrees p : agrees (free E p) (free E' p).
Proof. unfold free. agree. Qed.
Lemma store_agrees p off d : agrees (store p off d) (store p off d).
Proof. unfold store. agree. Qed.
Lemma load_agrees p off k : agrees (load p off k) (load p off k).
Proof. unfold load. agree. Qed.

Lemma echo_agrees fuel fd cl : agrees (write_to_client E fuel fd cl) (write_to_client E' fuel fd cl).
Proof. unfold write_to_client. agree. Qed.

Lemma append_agrees fname p k : agrees (append_packet E fname p k) (append_packet E' fname p k).
Proof. unfold append_packet. agree. apply load_agrees. Qed.

Ltac agree_tac := first [apply malloc_agrees|apply realloc_agrees|apply free_agrees|apply store_agrees
  |apply load_agrees|apply echo_agrees|apply append_agrees].

Lemma recv_agrees char_device ioc int_of fuel c fd x :
  agrees (recv_body E char_device ioc int_of fuel c fd x) (recv_body E' char_device ioc int_of fuel c fd x).
Proof.
  destruct x as [p len]. unfold recv_body, grow, seek_branch, seek_command, packet_branch, lock_file, unlock_file,
    reset_buffer, strncmp_eq, cstring, memchr, leave, go_on.
  agree; agree_tac.
Qed.

Lemma connection_agrees char_device ioc int_of fuel c :
  agrees (handle_connection E char_device ioc int_of fuel c) (handle_connection E' char_device ioc int_of fuel c).
Proof. unfold handle_connection, finish. agree; first [agree_tac|apply recv_agrees]. Qed.

Lemma alarm_agrees char_device mutex sig timestamp :
  agrees (alarm_handler E char_device mutex sig timestamp) (alarm_handler E' char_device mutex sig timestamp).
Proof using HE. unfold alarm_handler. agree. Qed.
End connection.

(** ** Ending a run *)

Lemma omap_length {A B} (f : A -> option B) l : (length (omap f l) <= length l)%nat.
Proof. induction l as [|x l IH]; cbn; [done|]. destruct (f x); cbn in *; lia. Qed.

(** After [n] calls the client has closed the connection, and there is
    nothing to read and nothing to be had. *)
Definition final_answer (c : syscall) : answer :=
  match c with
  | Open _ _ _ => mk_answer (-1) []
  | _ => mk_answer 0 []
  end.
Definition ending (E : env) (n : nat) : env := fun tr c =>
  if decide (length tr < n)%nat then E tr c else final_answer c.

#[export] Instance ending_ok E n : EnvOk E -> EnvOk (ending E n).
Proof.
  intros HE. split; intros *; unfold ending; case_decide; simpl; try apply HE; try done; try lia;
    intros; split; intros; lia.
Qed.

#[export] Instance ending_mutex E n m : MutexOk E m -> MutexOk (ending E n) m.
Proof. intros HM. split; intros *; unfold ending; case_decide; simpl; try apply HM; done. Qed.

(** Every call was answered by the environment. *)
Definition answers (E : env) (t : list event) : Prop :=
  forall i c a, t !! i = Some (c, a) -> a = E (take i t) c.

Lemma answers_call E t c : answers E t -> answers E (t ++ [(c, E t c)]).
Proof.
  intros Ht i c' a' Hi. apply lookup_app_Some in Hi as [Hi|[Hge Hi]].
  - rewrite take_app_le by (by apply Nat.lt_le_incl, (lookup_lt_Some _ _ _ Hi)). by apply Ht.
  - apply list_lookup_singleton_Some in Hi as [Hi Heq]. simplify_eq. replace i with (length t) by (unfold event in *; lia).
    by rewrite take_app_length.
Qed.

Definition answered (E : env) (x : proc) : Prop := answers E (trace x).

Section answered.
Context {E : env}.

Lemma answered_sys c : preserves (answered E) (sys E c).
Proof. intros [tr m] Hx. apply pc_sys. intros a ->. by apply answers_call. Qed.

Lemma answered_sysv c : preserves (answered E) (sysv E c).
Proof. apply preserves_bind; [apply answered_sys|]. intros a. apply preserves_ret. Qed.

Ltac answer_tac := first [apply answered_sys|apply answered_sysv|by apply preserves_modify].

Lemma connection_answered char_device ioc int_of fuel c :
  preserves (answered E) (handle_connection E char_device ioc int_of fuel c).
Proof.
  assert (forall k, preserves (answered E) (malloc E k)) as Hm by (unfold malloc; preserve_with answer_tac).
  assert (forall p k, preserves (answered E) (realloc E p k)) as Hr by (unfold realloc; preserve_with answer_tac).
  assert (forall p, preserves (answered E) (free E p)) as Hf by (unfold free; preserve_with answer_tac).
  assert (forall p o d, preserves (answered E) (store p o d)) as Hs by (unfold store; preserve_with answer_tac).
  assert (forall p o k, preserves (answered E) (load p o k)) as Hl by (unfold load; preserve_with answer_tac).
  assert (forall fuel fd cl, preserves (answered E) (write_to_client E fuel fd cl)) as He.
  { unfold write_to_client. preserve_with answer_tac. }
  unfold handle_connection, finish, recv_body, grow, seek_branch, seek_command, packet_branch, lock_file, unlock_file,
    append_packet, reset_buffer, strncmp_eq, cstring, memchr, leave, go_on.
  preserve_with ltac:(first [apply Hm|apply Hr|apply Hf|apply Hs|apply Hl|apply He|answer_tac]).
Qed.
End answered.

(** What comes after the [n]-th call receives and reads nothing. *)
Lemma answered_drop E n x e : answered (ending E n) x -> e ∈ drop n (trace x) -> e.2 = final_answer e.1.
Proof.
  intros Hx (i & Hi)%list_elem_of_lookup. destruct e as [c a]. rewrite lookup_drop in Hi.
  pose proof (lookup_lt_Some _ _ _ Hi). apply Hx in Hi. subst a. unfold ending.
  rewrite decide_False; [done|]. rewrite length_take. unfold event in *. lia.
Qed.

Lemma final_quiet u : (forall e, e ∈ u -> e.2 = final_answer e.1) -> chunks u = [] /\ reads u = [].
Proof.
  unfold chunks, reads. induction u as [|[c a] l IH]; intros Hl; [done|].
  pose proof (Hl (c, a) ltac:(by left)) as Ha. cbn in Ha. subst a.
  destruct IH as [IH1 IH2]; [intros e He; apply Hl; by right|]. cbn. rewrite IH1, IH2. by destruct c.
Qed.

Lemma connection_grows {E : env} char_device ioc int_of fuel fuel' c : (fuel <= fuel')%nat ->
  grows trace (handle_connection E char_device ioc int_of fuel c) (handle_connection E char_device ioc int_of fuel' c).
Proof.
  intros Hle. pose proof (fun A (m : ST proc A) (H : agrees trace 0 m m) => ag_left _ _ _ _ H) as Hag.
  assert (forall tr c, (length tr < 0)%nat -> E tr c = E tr c) as HE by done.
  unfold handle_connection, recv_body, seek_branch, seek_command, packet_branch, finish, write_to_client, leave, go_on.
  grow_with ltac:(apply Hag; unfold grow, strncmp_eq, cstring, reset_buffer, memchr, lock_file, unlock_file;
    agree_with ltac:(first [by apply malloc_agrees|by apply realloc_agrees|by apply free_agrees|by apply store_agrees
      |by apply load_agrees|by apply append_agrees|by apply agrees_sys|by apply agrees_sysv|apply agrees_opt])).
Qed.

(** The beginning of a run, completed. *)
Lemma run_completes {E : env} {EOk : EnvOk E} char_device ioc int_of fuel c r s' t :
  MutexOk E (file_mutex c) -> (length t < fuel)%nat ->
  handle_connection E char_device ioc int_of fuel c (start []) = Some (r, s') -> t `prefix_of` trace s' ->
  exists E' s'' u, EnvOk E' /\ MutexOk E' (file_mutex c) /\
    handle_connection E' char_device ioc int_of fuel c (start []) = Some (Some tt, s'') /\
    trace s'' = t ++ u /\ chunks u = [] /\ reads u = [] /\ (forall e, e ∈ u -> e.2 = final_answer e.1).
Proof.
  intros HM Hfuel Hrun Ht. set (E' := ending E (length t)).
  assert (forall tr, (length (chunks tr) <= length tr)%nat /\ (length (reads tr) <= length tr)%nat) as Hlen.
  { intros tr. unfold chunks, reads. split; apply omap_length. }
  destruct (connection_ends (E := E') char_device ioc int_of (fuel - 1) c []) as [s'' Hrun''].
  - apply _.
  - apply not_elem_of_empty.
  - done.
  - intros tr k Hk. unfold E', ending. pose proof (Hlen tr). rewrite decide_False by lia. done.
  - intros tr fd k Hk. unfold E', ending. pose proof (Hlen tr). rewrite decide_False by lia. done.
  - replace (S (fuel - 1)) with fuel in Hrun'' by lia.
    assert (trace s'' = t ++ drop (length t) (trace s'')) as Hu.
    { rewrite <- (take_drop (length t) (trace s'')) at 1. f_equal. destruct Ht as [u Hu].
      assert (take (length t) (trace s') = t) as Htk by by rewrite Hu, take_app_length.
      destruct (ag_same _ _ _ _ (connection_agrees (n := length t) (E := E) (E' := E')
        ltac:(intros tr k Hk; unfold E', ending; by rewrite decide_True) char_device ioc int_of fuel c)
        _ _ _ _ _ Hrun Hrun'') as [[_ <-]|(Heq & _)]; [done|congruence]. }
    assert (answered E' (start [])) as H0 by done.
    assert (forall e, e ∈ drop (length t) (trace s'') -> e.2 = final_answer e.1) as Hfin.
    { intros e. eapply answered_drop. by eapply (connection_answered char_device ioc int_of fuel c _ H0 _ _ Hrun''). }
    destruct (final_quiet _ Hfin) as [Hc Hr].
    exists E', s'', (drop (length t) (trace s'')). split_and!; try done; apply _.
Qed.
