(* ===== verification/Discipline.v ===== *)
(** * The discipline of the server's threads

    What a thread of the server may rely on the other threads for, and what
    it promises them, as automata over its trace: [cstep] for a connection
    thread and for a run of the alarm handler, [mstep] for the main thread.
    A connection thread uses only descriptors it has opened or was handed,
writes whole lines inside the mutex, sends what it has read, and ends
    with [done], holding nothing; the main thread hands each descriptor it
    accepts to one thread or closes it, and frees a node whose thread was
    started only after it has seen [done].

    That [handle_connection], [alarm_handler] and [main] keep the
    discipline in every environment, also in runs that do not end, is proved
    here ([connection_disciplined], [alarm_disciplined],
    [main_disciplined]). *)

From S2P Require Import Prelude Posix Queue Handler HandlerSpec Server ServerSpec.

(** ** A connection thread, a run of the alarm handler *)

(** The mutex it takes, the node it was given, the socket of its client,
    the request code of its seek commands. *)
Record role : Type := mk_role {
  r_mutex : Z;
  r_node : option Z;
  r_peer : option Z;
  r_request : option Z;
}.

(** A thread that has closed its file for reading is leaving. *)
Inductive phase : Set := Idle | Locked | Leaving | Ended.
#[export] Instance phase_eq_dec : EqDecision phase.
Proof. solve_decision. Defined.

(** The flags with which the server opens a file to write to it. *)
Definition APPENDING : Z := Z.lor (Z.lor O_WRONLY O_CREAT) O_APPEND.

(** The descriptors it has open for reading and for appending, whether the
    socket is open, and bytes that were read and not yet sent. *)
Record cstate : Type := mk_cstate {
  ph : phase;
  reader : option Z;
  writer : option Z;
  peer : bool;
  unsent : option (list byte);
}.

Definition cstart (k : role) : cstate :=
  mk_cstate Idle None None (bool_decide (is_Some (r_peer k))) None.

Section conn.
Variables (char_device : bool) (k : role).

Definition cstep (s : cstate) (e : event) : option cstate :=
  let 'mk_cstate f r w p u := s in
  match f, e.1 with
  | Ended, _ => None
  | _, (Malloc _ | Realloc _ _ | Free _) => Some s
  | Idle, Lock m =>
      if decide (m = r_mutex k /\ rv e.2 = 0) then Some (mk_cstate Locked r w p u) else None
  | Locked, Unlock m =>
      if decide (m = r_mutex k /\ rv e.2 = 0) then Some (mk_cstate Idle r w p u) else None
  | _, Open path flags _ =>
      if decide (path <> FILENAME char_device) then None
      else if rv e.2 <? 0 then Some s
      else if flags =? O_RDONLY then
        if decide (f = Idle /\ r = None /\ w = None) then Some (mk_cstate f (Some (rv e.2)) w p u) else None
      else
        if decide (flags = APPENDING /\ w = None /\ r <> Some (rv e.2)) then Some (mk_cstate f r (Some (rv e.2)) p u) else None
  | _, Read fd n =>
      if decide (r = Some fd /\ n = BUFFER_SIZE /\ u = None) then Some (mk_cstate f r w p (read_data e)) else None
  | _, Send fd d =>
      if decide (r_peer k = Some fd /\ p = true /\ u = Some d) then Some (mk_cstate f r w p None) else None
  | _, Recv fd _ => if decide (r_peer k = Some fd /\ p = true) then Some s else None
  | _, Write fd d =>
      if decide (w = Some fd /\ newline ∈ d /\ zlen d < 2 ^ 63 /\ (f = Locked \/ char_device = true))
      then Some s else None
  | _, Ioctl fd c wc wo =>
      if decide (r = Some fd /\ r_request k = Some c /\ 0 <= wc < 2 ^ 32 /\ 0 <= wo < 2 ^ 32) then Some s else None
  | _, Close fd =>
      if decide (w = Some fd) then Some (mk_cstate f r None p u)
      else if decide (r = Some fd) then
        if decide (f = Idle) then Some (mk_cstate Leaving None w p u) else None
      else if decide (r_peer k = Some fd /\ p = true) then Some (mk_cstate f r w false u)
      else None
  | (Idle | Leaving), StoreDone q =>
      if decide (r_node k = Some q /\ r = None /\ w = None /\ p = false /\ u = None)
      then Some (mk_cstate Ended None None false None) else None
  | _, _ => None
  end.
Definition crun (tr : list event) : option cstate := run_from cstep (Some (cstart k)) tr.

Lemma crun_snoc t e : crun (t ++ [e]) = crun t ≫= fun s => cstep s e.
Proof. apply run_from_snoc. Qed.

(** The descriptors of the files are those the trace has open, and
    different. *)
Lemma crun_fds t s : crun t = Some s ->
  (forall fd, reader s = Some fd -> fd ∈ fds t /\ writer s <> Some fd) /\
  (forall fd, writer s = Some fd -> fd ∈ fds t).
Proof.
  revert t s. apply run_ind; [done|]. intros t [f r w p u] [c a] s' _ IH Hs. rewrite fds_app. cbn. unfold fds_step.
  destruct f, c; simpl in *; repeat (case_decide || case_match); simplify_eq/=; split; try set_solver.
Qed.

(** The state knows whether the mutex is held. *)
Lemma crun_locks t s : crun t = Some s -> (r_mutex k ∈ locks t <-> ph s = Locked).
Proof.
  revert t s. apply run_ind; [by split; [intros ?%elem_of_empty|]|].
  intros t [f r w p u] [c a] s' _ IH Hs. rewrite locks_app. cbn. unfold locks_step.
  destruct f, c; simpl in *; repeat (case_decide || case_match); simplify_eq/=; destruct_and?; subst;
    try lia; try done; split; intros; try done; set_solver.
Qed.

(** What has been read and not sent is remembered. *)
Lemma crun_sends t s : crun t = Some s -> reads t = sends t ++ option_list (unsent s).
Proof.
  revert t s. apply run_ind; [done|]. intros t [f r w p u] [c a] s' _ IH Hs. rewrite reads_app, sends_app, IH. clear IH.
  destruct f, c; simpl in *; repeat (case_decide || case_match); simplify_eq/=; rewrite ?app_nil_r; try done;
    destruct_and?; subst; simpl; rewrite ?app_nil_r; try done; by rewrite <- app_assoc.
Qed.

(** The file is opened for reading once: before that, nothing was read. *)
Lemma crun_unread t s : crun t = Some s -> reader s = None -> ph s = Idle \/ ph s = Locked -> reads t = [].
Proof.
  revert t s. apply (run_ind _ (fun t s => reader s = None -> ph s = Idle \/ ph s = Locked -> reads t = [])); [done|].
  intros t [f r w p u] [c a] s' _ IH Hs. rewrite reads_app.
  destruct f, c; simpl in *; repeat (case_decide || case_match); simplify_eq/=; destruct_and?; simplify_eq;
    rewrite ?app_nil_r; try done; naive_solver.
Qed.
End conn.

(** ** [handle_connection] keeps it *)

Definition small (m : gmap Z cells) : Prop := map_Forall (fun _ b => zlen b <= PTRDIFF_MAX) m.

Lemma small_insert m p b : small m -> zlen b <= PTRDIFF_MAX -> small (<[p := b]> m).
Proof. intros Hm Hb. by apply map_Forall_insert_2. Qed.

Lemma small_delete m p : small m -> small (delete p m).
Proof. apply map_Forall_delete. Qed.

(** The automaton allows a call. *)
Ltac moves := intros; cbn; repeat (case_decide || case_match); first [done | exfalso; naive_solver].

Section walk.
Context {E : env} {EOk : EnvOk E}.
Variables (char_device : bool) (k : role).
#[local] Abbreviation crun := (crun char_device k).

(** The thread is in state [s], and no block is larger than the allocator
    hands out. *)
Definition at_state (s : cstate) (x : proc) : Prop := crun (trace x) = Some s /\ small (mem x).

Lemma at_sys s s' c Q x : at_state s x ->
  (forall a, a = E (trace x) c -> cstep char_device k s (c, a) = Some (s' a)) ->
  (forall a, at_state (s' a) (mk_proc (trace x ++ [(c, a)]) (mem x)) -> a = E (trace x) c ->
     Q a (mk_proc (trace x ++ [(c, a)]) (mem x))) ->
  pc (sys E c) Q x.
Proof.
  intros [Hx Hm] Hs HQ. destruct x as [tr m]. apply pc_sys. intros a Ha. apply HQ; [|done]. split; [|done]. cbn [trace] in *.
  rewrite crun_snoc, Hx. cbn. by apply Hs.
Qed.

Lemma at_sysv s s' c (Q : Z -> proc -> Prop) x : at_state s x ->
  (forall a, a = E (trace x) c -> cstep char_device k s (c, a) = Some (s' a)) ->
  (forall a, at_state (s' a) (mk_proc (trace x ++ [(c, a)]) (mem x)) -> a = E (trace x) c ->
     Q (rv a) (mk_proc (trace x ++ [(c, a)]) (mem x))) ->
  pc (sysv E c) Q x.
Proof. intros Hx Hs HQ. unfold sysv. pc_step. eapply at_sys; [done..|]. intros a Ha Hea. pc_step. by apply HQ. Qed.

(** Calls that the state does not depend on. *)
Lemma same_sys s c : (forall a, cstep char_device k s (c, a) = Some s) -> preserves (at_state s) (sys E c).
Proof. intros Hs x Hx. by eapply (at_sys s (fun _ => s)). Qed.

Lemma same_sysv s c : (forall a, cstep char_device k s (c, a) = Some s) -> preserves (at_state s) (sysv E c).
Proof. intros Hs. apply preserves_bind; [by apply same_sys|]. intros a. apply preserves_ret. Qed.

Lemma drop_same s p : preserves (at_state s) (drop_block p).
Proof. apply preserves_modify. intros x [Hx Hm]. split; [done|by apply small_delete]. Qed.

Lemma set_same s p b : zlen b <= PTRDIFF_MAX -> preserves (at_state s) (set_block p b).
Proof. intros Hb. apply preserves_modify. intros x [Hx Hm]. split; [done|by apply small_insert]. Qed.

Lemma cstep_mem s c a : ph s <> Ended -> mem_event (c, a) = true -> cstep char_device k s (c, a) = Some s.
Proof. destruct s as [[] r w p u]; try done; by destruct c. Qed.

Lemma malloc_same s n : ph s <> Ended -> n <= PTRDIFF_MAX -> preserves (at_state s) (malloc E n).
Proof.
  intros Hs Hn. unfold malloc. apply preserves_bind; [apply same_sysv; intros a; by apply cstep_mem|]. intros p.
  apply preserves_bind; [|intros ?; apply preserves_ret]. destruct (p =? NULL); [apply preserves_ret|].
  apply set_same. rewrite length_replicate. unfold PTRDIFF_MAX in *. lia.
Qed.

Lemma realloc_same s p n : ph s <> Ended -> preserves (at_state s) (realloc E p n).
Proof using EOk.
  intros Hs x Hx. unfold realloc, block. do 2 pc_step. intros b Hb. unfold sysv. do 2 pc_step.
  eapply (at_sys s (fun _ => s)); [done|intros a _; by apply cstep_mem|]. intros a Ha Hea. pc_step.
  destruct (Z.eqb_spec (rv a) NULL) as [Hn|Hn]; [by pc_step|].
  assert (n <= PTRDIFF_MAX) as Hmax by (rewrite Hea in Hn; by eapply realloc_max).
  pc_step. eapply pc_mono; [by apply (drop_same s)|]. intros ? x2 Hx2. pc_step.
  eapply pc_mono; [apply (set_same s); [|done]|].
  - unfold resize_cells. rewrite length_app, length_take, length_replicate. unfold PTRDIFF_MAX in *. lia.
  - intros ? x3 Hx3. by pc_step.
Qed.

Lemma free_same s p : ph s <> Ended -> preserves (at_state s) (free E p).
Proof.
  intros Hs. unfold free. destruct (p =? NULL); [apply preserves_ret|]. apply preserves_bind; [apply preserves_opt|].
  intros b. apply preserves_bind; [apply same_sys; intros a; by apply cstep_mem|]. intros a. apply drop_same.
Qed.

Lemma store_same s p off d : preserves (at_state s) (store p off d).
Proof.
  intros x [Hx Hm]. unfold store, block. do 2 pc_step. intros b Hb. case_decide as Hd; [|done].
  apply set_same; [|done]. unfold store_cells. specialize (Hm p b Hb). cbn beta in Hm.
  rewrite !length_app, length_fmap, length_take, length_drop. lia.
Qed.

Lemma load_same s p off n : preserves (at_state s) (load p off n).
Proof. unfold load. preserve_with fail. Qed.
End walk.

Definition conn_role (c : conn_info) (IOCSEEKTO : Z) : role :=
  mk_role (file_mutex c) (Some (conn_addr c)) (Some (clfd c)) (Some IOCSEEKTO).

Section connection.
Context {E : env} {EOk : EnvOk E}.
Variables (char_device : bool) (IOCSEEKTO : Z) (int_of : Z -> Z) (c : conn_info).
Context {MOk : MutexOk E (file_mutex c)}.
#[local] Abbreviation role := (conn_role c IOCSEEKTO).
#[local] Abbreviation at_state := (at_state char_device role).
#[local] Abbreviation cstep := (cstep char_device role).

(** The state of the receive loop. *)
Definition looping (f : phase) (fd : Z) : cstate := mk_cstate f (Some fd) None true None.

Lemma echo_same fuel fd : preserves (at_state (looping Idle fd)) (write_to_client E fuel fd (clfd c)).
Proof.
  unfold write_to_client. apply preserves_iterate. intros _ x Hx. pc_step.
  eapply (at_sys _ _ _ (fun a => mk_cstate Idle (Some fd) None true (read_data (Read fd BUFFER_SIZE, a)))); [done| |].
  { intros a _. cbn. by rewrite decide_True by done. }
  intros a Ha _. cbn [read_data] in Ha. destruct (Z.ltb_spec 0 (rv a)) as [Hn|Hn]; cbn [negb]; [|by pc_step].
  destruct (Z.ltb_spec (rv a) 0); [lia|]. pc_step.
  eapply (at_sysv _ _ _ (fun _ => looping Idle fd)); [done| |].
  { intros b _. cbn. by rewrite decide_True by done. }
  intros b Hb _. destruct (negb _); by pc_step.
Qed.

Lemma seek_same fuel fd p :
  preserves (at_state (looping Idle fd)) (seek_command E IOCSEEKTO int_of fuel c fd p).
Proof.
  unfold seek_command, cstring. preserve_with ltac:(first [apply echo_same|apply same_sysv; intros ?]).
  cbn. rewrite decide_True; [done|]. side. side. split; apply Z.mod_pos_bound; lia.
Qed.

(** A line of [len] bytes is in the buffer at [p]. *)
Definition line (p len : Z) (m : gmap Z cells) : Prop :=
  forall d tr x, load p 0 len (mk_proc tr m) = Some (d, x) -> newline ∈ d.

Lemma load_pure p off n x d x' : load p off n x = Some (d, x') -> x' = x.
Proof.
  unfold load, block, mbind, st_bind, st_opt. destruct (mem x !! p); [|done].
  case_decide; [|done]. destruct (mapM _ _); [|done]. by intros [= _ <-].
Qed.

Lemma load_bound p n x d x' : small (mem x) -> load p 0 n x = Some (d, x') -> zlen d < 2 ^ 63.
Proof.
  unfold load, block, mbind, st_bind, st_opt. intros Hm. destruct (mem x !! p) as [b|] eqn:Hb; [|done].
  case_decide as Hd; [|done]. destruct (mapM _ _) as [l|] eqn:Hl; [|done]. intros [= <- _].
  apply length_mapM in Hl. rewrite <- Hl, length_take, length_drop. specialize (Hm p b Hb). cbn beta in Hm.
  unfold PTRDIFF_MAX in Hm. lia.
Qed.

(** The append, inside the critical section. *)
Lemma append_same f fd p n x :
  f <> Ended -> f = Locked \/ char_device = true ->
  at_state (looping f fd) x -> line p n (mem x) ->
  pc (append_packet E (FILENAME char_device) p n) (fun _ => at_state (looping f fd)) x.
Proof using EOk.
  intros Hf Hg Hx Hline. unfold append_packet. set (fname := FILENAME char_device). set (fl := Z.lor _ _).
  assert (fl =? O_RDONLY = false) as Hfl by done. pc_step.
  eapply (at_sysv _ _ _ (fun a => if rv a <? 0 then looping f fd else mk_cstate f (Some fd) (Some (rv a)) true None));
    [done| |].
  { intros a Ha. assert (0 <= rv a -> rv a <> fd) as Hne.
    { intros Hge. destruct (crun_fds _ _ _ _ (proj1 Hx)) as [Hr _]. destruct (Hr fd eq_refl) as [Hin _].
      rewrite Ha in Hge |- *. apply open_fresh in Hge. intros Heq. by rewrite Heq in Hge. }
    destruct f; [..|done]; cbn; (rewrite decide_False by (intros Hx0; by apply Hx0)); (destruct (Z.ltb_spec (rv a) 0); [done|]);
      rewrite Hfl, decide_True; try done; side; side; intros [= ->]; by apply Hne. }
  intros a Ha Hea. destruct (Z.eqb_spec (rv a) (-1)) as [Hm|Hm].
  { pc_step. by rewrite (proj2 (Z.ltb_lt _ _)) in Ha by lia. }
  pose proof (open_result (E := E) (trace x) fname fl 420) as Hres.
  rewrite <- Hea in Hres. rewrite (proj2 (Z.ltb_ge _ _)) in Ha by lia.
  pc_step. intros d x1 Hd. pose proof (load_pure _ _ _ _ _ _ Hd) as ->. pose proof (Hline _ _ _ Hd) as Hnl.
  pose proof (load_bound _ _ _ _ _ (proj2 Ha) Hd) as Hlen. pc_step.
  eapply (at_sysv _ _ _ (fun _ => mk_cstate f (Some fd) (Some (rv a)) true None)); [done| |].
  { intros b _. destruct f; [..|done]; cbn; by rewrite decide_True. }
  intros b Hb _. revert Hb. generalize (mk_proc (trace (mk_proc (trace x ++ [(Open fname fl 420, a)]) (mem x))
    ++ [(Write (rv a) d, b)]) (mem (mk_proc (trace x ++ [(Open fname fl 420, a)]) (mem x)))). intros y Hy.
  assert (forall r, pc (_ ← sys E (Close (rv a)); mret r) (fun _ : Z => at_state (looping f fd)) y) as Hclose.
  { intros r. pc_step. eapply (at_sys _ _ _ (fun _ => looping f fd)); [done| |].
    - intros z _. destruct f; [..|done]; cbn; by rewrite decide_True.
    - intros z Hz _. by pc_step. }
  destruct (rv b =? -1); apply Hclose.
Qed.

Definition inside : phase := if char_device then Idle else Locked.
Lemma inside_ok : inside <> Ended /\ (inside = Locked \/ char_device = true).
Proof. unfold inside. destruct char_device; auto. Qed.

Lemma lock_moves fd x : at_state (looping Idle fd) x ->
  pc (lock_file E char_device c) (fun _ x' => at_state (looping inside fd) x' /\ mem x' = mem x) x.
Proof using MOk.
  intros Hx. unfold lock_file, inside. destruct char_device eqn:Hcd; [by pc_step|]. pc_step. rewrite <- Hcd in *.
  eapply (at_sys _ _ _ (fun _ => looping Locked fd)); [exact Hx| |].
  { intros a Ha. cbn. rewrite decide_True; [done|]. side. rewrite Ha. apply lock_ok.
    destruct (crun_locks _ _ _ _ (proj1 Hx)) as [Hl _]. intros Hin. by specialize (Hl Hin). }
  intros a Ha _. by pc_step.
Qed.

Lemma unlock_moves fd x : at_state (looping inside fd) x ->
  pc (unlock_file E char_device c) (fun _ => at_state (looping Idle fd)) x.
Proof using MOk.
  unfold unlock_file, inside. destruct char_device eqn:Hcd; intros Hx; [by pc_step|]. pc_step. rewrite <- Hcd in *.
  eapply (at_sys _ _ _ (fun _ => looping Idle fd)); [exact Hx| |].
  { intros a Ha. cbn. rewrite decide_True; [done|]. side. rewrite Ha. apply unlock_ok.
    by apply (crun_locks _ _ _ _ (proj1 Hx)). }
  intros a Ha _. by pc_step.
Qed.

Ltac same_tac :=
  first [apply echo_same | apply seek_same | apply store_same | apply load_same
        | apply malloc_same; [discriminate|unfold BUFFER_SIZE, PTRDIFF_MAX; lia]
        | apply free_same; discriminate | apply realloc_same; discriminate
        | apply same_sys; done | apply same_sysv; done].

Lemma reset_same fd p : preserves (at_state (looping Idle fd)) (reset_buffer E p).
Proof. unfold reset_buffer. preserve_with same_tac. Qed.

Lemma packet_same fuel fd n p len x :
  at_state (looping Idle fd) x -> line p len (mem x) ->
  pc (packet_branch E char_device fuel c fd n p len) (fun _ => at_state (looping Idle fd)) x.
Proof using EOk MOk.
  intros Hx Hline. destruct inside_ok as [Hi1 Hi2]. unfold packet_branch. pc_step.
  eapply pc_mono; [by apply lock_moves|]. intros [] x1 [Hx1 Hm1]. rewrite <- Hm1 in Hline.
  pc_step. eapply pc_mono; [by apply append_same|]. intros r x2 Hx2. cbv beta. destruct (negb (r =? 0)).
  - pc_step. eapply pc_mono; [by apply (unlock_moves fd)|]. intros [] x3 Hx3. unfold leave. by pc_step.
  - pc_step. eapply pc_mono; [by apply (unlock_moves fd)|]. intros [] x3. revert x3.
    apply preserves_bind; [apply reset_same|]. unfold leave, go_on. preserve_with same_tac.
Qed.

(** The newline is looked for in the bytes that are then written. *)
Lemma memchr_line fuel fd n p len :
  preserves (at_state (looping Idle fd))
    (nl ← memchr p newline len;
     if (nl : bool) then packet_branch E char_device fuel c fd n p len else go_on p len).
Proof using EOk MOk.
  intros x Hx. unfold memchr, go_on. do 2 pc_step. intros d x1 Hd. pc_step.
  pose proof (load_pure _ _ _ _ _ _ Hd) as ->. case_bool_decide as Hnl; [|by pc_step].
  apply packet_same; [done|]. intros d' tr x' Hd'.
  assert (d' = d) as ->; [|by apply memchr_opt_Some].
  destruct x as [tr1 m]. unfold load, block, mbind, st_bind, st_opt in Hd, Hd'. cbn [mem] in *.
  destruct (m !! p); [|done]. case_decide; [|done]. destruct (mapM _ _); [|done]. by simplify_eq.
Qed.

Lemma recv_same fuel fd x :
  preserves (at_state (looping Idle fd)) (recv_body E char_device IOCSEEKTO int_of fuel c fd x).
Proof using EOk MOk.
  destruct x as [p len]. unfold recv_body, grow. apply preserves_bind.
  { apply same_sys. intros a. cbn. by rewrite decide_True. }
  intros a. cbv zeta. destruct (negb (0 <? rv a)); [apply preserves_ret|].
  apply preserves_bind; [preserve_with same_tac|]. intros q. destruct (q =? NULL); [apply preserves_ret|].
  do 2 (apply preserves_bind; [apply store_same|]; intros _).
  apply preserves_bind; [unfold strncmp_eq; preserve_with same_tac|]. intros is_seek.
  destruct is_seek; [|apply memchr_line]. unfold seek_branch, leave, go_on.
  apply preserves_obind; [apply seek_same|]. intros brk. destruct brk; [apply preserves_ret|].
  apply preserves_bind; [apply reset_same|]. preserve_with same_tac.
Qed.

(** A run that is cut off has not ended, one that returns has. *)
Definition disciplined (r : option unit) (x : proc) : Prop :=
  exists s, crun char_device role (trace x) = Some s /\ (r = None <-> ph s <> Ended).

Lemma finish_moves f x : f = Idle \/ f = Leaving -> at_state (mk_cstate f None None true None) x ->
  pc (_ ← sys E (Close (clfd c)); finish E c) disciplined x.
Proof.
  intros Hf Hx. pc_step. eapply (at_sys _ _ _ (fun _ => mk_cstate f None None false None)); [done| |].
  { destruct Hf as [->| ->]; moves. }
  intros a Ha _. unfold finish. pc_step.
  eapply (at_sys _ _ _ (fun _ => mk_cstate Ended None None false None)); [done| |].
  { destruct Hf as [->| ->]; moves. }
  intros b [Hb _] _. pc_step. by eexists.
Qed.

Lemma connection_disciplined fuel :
  pc (handle_connection E char_device IOCSEEKTO int_of fuel c) disciplined (start []).
Proof using EOk MOk.
  set (s0 := mk_cstate Idle None None true None).
  assert (at_state s0 (start [])) as H0 by by split; [|apply map_Forall_empty].
  unfold handle_connection. pc_step. eapply pc_mono; [apply (malloc_same char_device role s0); [done| |done]|].
  { unfold BUFFER_SIZE, PTRDIFF_MAX. lia. }
  intros p x1 Hx1. cbv beta in *. destruct (p =? NULL); [by apply (finish_moves Idle); [left|]|]. pc_step.
  eapply (at_sysv _ _ _ (fun a => if rv a <? 0 then s0 else looping Idle (rv a))); [exact Hx1| |].
  { moves. }
  intros a Ha _. destruct (rv a <? 0).
  - pc_step. eapply (at_sys _ _ _ (fun _ => mk_cstate Idle None None false None)); [exact Ha| |].
    { moves. }
    intros b Hb _. pc_step. eapply pc_mono; [apply (free_same char_device role (mk_cstate Idle None None false None)); done|].
    intros [] x4 Hx4. unfold finish. pc_step.
    eapply (at_sys _ _ _ (fun _ => mk_cstate Ended None None false None)); [exact Hx4| |].
    { moves. }
    intros d [Hd _] _. pc_step. by eexists.
  - unfold obind. pc_step.
    eapply pc_mono; [apply (preserves_iterate (at_state (looping Idle (rv a)))); [apply recv_same|exact Ha]|].
    intros [[n q]|] x3 Hx3; cbv beta iota in *; [|pc_step; destruct Hx3; by eexists].
    set (s1 := mk_cstate Leaving None None true None). pc_step. eapply (at_sys _ _ _ (fun _ => s1)); [exact Hx3| |].
    { moves. }
    intros b Hb _. pc_step. eapply pc_mono; [by apply (free_same char_device role s1)|].
    intros [] x5 Hx5. cbv beta in *. destruct (n <? 0); (by apply (finish_moves Leaving); [right|]).
Qed.
End connection.

(** ** The alarm handler *)

Definition alarm_role (mutex : Z) : role := mk_role mutex None None None.

Lemma alarm_disciplined {E : env} {EOk : EnvOk E} char_device mutex {MOk : MutexOk E mutex} sig timestamp :
  zlen timestamp < 100 ->
  pc (alarm_handler E char_device mutex sig timestamp)
    (fun _ x => exists s, crun char_device (alarm_role mutex) (trace x) = Some s /\ ph s = Idle) (start []).
Proof.
  intros Hlen. set (k := alarm_role mutex). set (st f w := mk_cstate f None w false None).
  assert (at_state char_device k (st Idle None) (start [])) as H0 by by split; [|apply map_Forall_empty].
  unfold alarm_handler. set (fl := Z.lor _ _). assert (fl =? O_RDONLY = false) as Hfl by done.
  destruct (negb (sig =? SIGALRM)); [pc_step; by eexists|]. pc_step.
  eapply (at_sys _ _ _ (fun _ => st Locked None)); [exact H0| |].
  { intros a Ha. cbn. rewrite decide_True; [done|]. side. rewrite Ha. by apply lock_ok. }
  intros a Ha _. pc_step.
  eapply (at_sysv _ _ _ (fun b => if rv b <? 0 then st Locked None else st Locked (Some (rv b)))); [exact Ha| |].
  { intros b _. cbn. rewrite decide_False by (intros Hn; by apply Hn). destruct (rv b <? 0); [done|]. by rewrite Hfl, decide_True. }
  intros b Hb _.
  assert (forall x, at_state char_device k (st Locked None) x -> pc (_ ← sys E (Unlock mutex); mret tt)
    (fun _ x => exists s, crun char_device k (trace x) = Some s /\ ph s = Idle) x) as Hend.
  { intros x Hx. pc_step. eapply (at_sys _ _ _ (fun _ => st Idle None)); [exact Hx| |].
    - intros z Hz. cbn. rewrite decide_True; [done|]. side. rewrite Hz. apply unlock_ok.
      by apply (crun_locks _ _ _ _ (proj1 Hx)).
    - intros z [Hz _] _. pc_step. by eexists. }
  destruct (rv b <? 0); [by apply Hend|]. pc_step.
  eapply (at_sys _ _ _ (fun _ => st Locked (Some (rv b)))); [exact Hb| |].
  { intros d _. cbn. rewrite decide_True; [done|]. side. split; [apply elem_of_app; right; by left|].
    split; [rewrite length_app; cbn [length]; lia|]. by left. }
  intros d Hd _. pc_step. eapply (at_sys _ _ _ (fun _ => st Locked None)); [exact Hd| |].
  { moves. }
  intros z Hz _. by apply Hend.
Qed.

(** ** The main thread *)

(** The sockets it holds, with the one it accepted last: a thread it starts
    gets that one. *)
Definition held_step (s : gset Z * option Z) (e : event) : gset Z * option Z :=
  match e.1 with
  | Socket => if rv e.2 <? 0 then s else ({[rv e.2]} ∪ s.1, s.2)
  | Accept _ => if rv e.2 <? 0 then s else ({[rv e.2]} ∪ s.1, Some (rv e.2))
  | Close fd => (s.1 ∖ {[fd]}, s.2)
  | Create _ => if rv e.2 =? 0 then (s.1 ∖ option_to_set s.2, None) else s
  | _ => s
  end.
Definition held (tr : list event) : gset Z * option Z := foldl held_step (∅, None) tr.

(** A new socket is not one the main thread holds. *)
Class AcceptOk (E : env) : Prop :=
  accept_fresh tr fd : 0 <= rv (E tr (Accept fd)) -> rv (E tr (Accept fd)) ∉ (held tr).1.

(** The blocks it holds; the nodes whose thread it has started and not yet
    seen to be done; the node whose flag it has just cleared; its sockets. *)
Record mstate : Type := mk_mstate {
  allocated : gset Z;
  started : gset Z;
  cleared : option Z;
  sockets : gset Z * option Z;
}.

Definition mstep (s : mstate) (e : event) : option mstate :=
  let next st cl := Some (mk_mstate (live_step (allocated s) e) st cl (held_step (sockets s) e)) in
  match e.1 with
  | ClearDone p => if decide (p ∈ started s) then None else next (started s) (Some p)
  | Create p =>
      if decide (cleared s = Some p /\ p ∈ allocated s /\ p ∉ started s /\
                 is_Some (sockets s).2 /\ option_to_set (C := gset Z) (sockets s).2 ⊆ (sockets s).1) then
        next (if rv e.2 =? 0 then {[p]} ∪ started s else started s) None
      else None
  | LoadDone p => next (if rv e.2 =? 0 then started s else started s ∖ {[p]}) None
  | Free p => if decide (p ∈ started s) then None else next (started s) None
  | Malloc _ => if decide (rv e.2 <> NULL /\ rv e.2 ∈ allocated s) then None else next (started s) None
  | Accept _ => if decide (0 <= rv e.2 /\ rv e.2 ∈ (sockets s).1) then None else next (started s) None
  | Close fd => if decide (fd ∈ (sockets s).1) then next (started s) None else None
  | Realloc _ _ | StoreDone _ | Write _ _ | Lock _ | Unlock _ | Open _ _ _ | Read _ _ | Ioctl _ _ _ _
  | Recv _ _ | Send _ _ => None
  | LoadRunning => if decide (allocated s ⊆ started s) then next (started s) None else None
  | _ => next (started s) None
  end.
Definition mstart : mstate := mk_mstate ∅ ∅ None (∅, None).
Definition mrun (tr : list event) : option mstate := run_from mstep (Some mstart) tr.

Lemma mrun_snoc t e : mrun (t ++ [e]) = mrun t ≫= fun s => mstep s e.
Proof. apply run_from_snoc. Qed.

(** The nodes of started threads are allocated. *)
Lemma mrun_spec t s : mrun t = Some s ->
  allocated s = live t /\ started s ⊆ live t /\ sockets s = held t.
Proof.
  revert t s. apply run_ind; [done|]. intros t s [c a] s' _ (Ha & Hst & Hso) Hs. unfold held.
  rewrite live_app, foldl_app. cbn. fold (held t). rewrite <- Hso. unfold mstep in Hs.
  destruct c; simpl in Hs; repeat (case_decide || case_match); simplify_eq/=; rewrite ?Ha; split_and!; try done;
    unfold live_step; simpl; repeat case_match; set_solver.
Qed.

Section main.
Context {E : env} {EOk : EnvOk E} {AOk : AcceptOk E}.
Variables (char_device : bool) (id_of : answer -> Z) (file_mutex : Z).

(** Computations without a call. *)
Definition silent {A} (m : ST server A) : Prop :=
  forall s, pc m (fun _ s' => s_trace s' = s_trace s) s.

Lemma list_remove_silent p : silent (list_remove p).
Proof. intros s. unfold list_remove, set_list. do 2 pc_step. intros [f h] _. by pc_step. Qed.
Lemma list_insert_silent p : silent (list_insert_head p).
Proof. intros s. unfold list_insert_head, set_list. do 2 pc_step. intros [f h] _. by pc_step. Qed.
Lemma put_node_silent p v : silent (put_node p v).
Proof. intros s. unfold put_node, get_node. do 2 pc_step. intros n _. by pc_step. Qed.

(** What a call leaves, from the state of the automaton. *)
Lemma pc_call k Q s st st' :
  mrun (s_trace s) = Some st ->
  (forall a, a = E (s_trace s) k -> mstep st (k, a) = Some (st' a)) ->
  (forall a s', a = E (s_trace s) k -> mrun (s_trace s') = Some (st' a) -> Q a s') ->
  pc (ssys E k) Q s.
Proof.
  intros Hst Hstep HQ a s' [= <- <-]. apply HQ; [done|]. cbn [s_trace]. rewrite mrun_snoc, Hst. cbn. by apply Hstep.
Qed.

Lemma pc_callv k (Q : Z -> server -> Prop) s st st' :
  mrun (s_trace s) = Some st ->
  (forall a, a = E (s_trace s) k -> mstep st (k, a) = Some (st' a)) ->
  (forall a s', a = E (s_trace s) k -> mrun (s_trace s') = Some (st' a) -> Q (rv a) s') ->
  pc (ssysv E k) Q s.
Proof. intros Hst Hs HQ. unfold ssysv. pc_step. eapply pc_call; [done..|]. intros a s' Ha Hs'. pc_step. by apply HQ. Qed.

(** The discipline has been kept, all nodes are those of started threads,
    and the listening socket is held. *)
Definition orderly (sockfd : option Z) (s : server) : Prop :=
  exists st, mrun (s_trace s) = Some st /\ allocated st ⊆ started st /\
    forall fd, sockfd = Some fd -> fd ∈ (sockets st).1.

(** Calls that the discipline always allows. *)
Definition harmless (k : syscall) : Prop :=
  forall st a, allocated st ⊆ started st ->
    exists st', mstep st (k, a) = Some st' /\ allocated st' ⊆ started st' /\ (sockets st).1 ⊆ (sockets st').1.

Lemma harmless_call o k : harmless k -> preserves (orderly o) (ssys E k).
Proof.
  intros Hk s (st & Hst & Hal & Ho). intros a s' [= <- <-]. destruct (Hk st (E (s_trace s) k) Hal) as (st' & Hs & Hal' & Hsub).
  exists st'. cbn [s_trace]. rewrite mrun_snoc, Hst. side. side. intros fd Hfd. apply Hsub. by apply Ho.
Qed.

Lemma harmless_callv o k : harmless k -> preserves (orderly o) (ssysv E k).
Proof. intros Hk. apply preserves_bind; [by apply harmless_call|]. intros a. apply preserves_ret. Qed.

Lemma orderly_silent {A} o (m : ST server A) : silent m -> preserves (orderly o) m.
Proof. intros Hm s (st & Hst & Hal & Ho). eapply pc_mono; [apply Hm|]. intros a s' Hs. exists st. by rewrite Hs. Qed.

Lemma by_preserves {S A} (I : S -> Prop) (m : ST S A) s : preserves I m -> I s -> pc m (fun _ => I) s.
Proof. intros Hm. apply Hm. Qed.

Ltac harmless :=
  intros ? ? ?; eexists; split; [cbn [mstep fst snd]; rewrite ?decide_True by assumption; reflexivity|split; [assumption|done]].
Ltac orderly_tac :=
  first [apply harmless_call; harmless | apply harmless_callv; harmless
        | apply preserves_modify; intros ? (st & Hst & Hal & Ho); by exists st].

(** Freeing a node the automaton does not know as started. *)
Lemma unlink_free_orderly {B} o (m : ST server B) p Q s st :
  mrun (s_trace s) = Some st -> (forall fd, o = Some fd -> fd ∈ (sockets st).1) -> p ∉ started st ->
  (forall s' st', mrun (s_trace s') = Some st' -> sockets st' = sockets st ->
     allocated st' = allocated st ∖ {[p]} -> started st' = started st -> pc m Q s') ->
  pc (_ ← list_remove p; _ ← free_node E p; m) Q s.
Proof.
  intros Hst Ho Hp Hm. pc_step. eapply pc_mono; [apply list_remove_silent|]. intros [] s1 Hs1. pc_step.
  unfold free_node, get_node. do 2 pc_step. intros n _. pc_step. rewrite <- Hs1 in Hst.
  eapply pc_call; [exact Hst|intros a _; cbn; by rewrite decide_False|]. intros a s2 _ Hs2. pc_step. by eapply Hm.
Qed.

Lemma reap_body_orderly o x : preserves (orderly o) (reap_body E x).
Proof.
  destruct x as [cur count]. intros s (st & Hst & Hal & Ho). unfold reap_body. destruct (cur =? NULL); [pc_step; by exists st|].
  do 2 pc_step. intros tmp _. pc_step. eapply pc_callv; [exact Hst|reflexivity|].
  intros a s1 _ Hs1. cbn in Hs1.
  destruct (Z.eqb_spec (rv a) 0) as [Ha|Ha]; cbn [negb]; [pc_step; by eexists|].
  unfold get_node. do 2 pc_step. intros n _. pc_step. eapply pc_call; [exact Hs1|reflexivity|].
  intros b s2 _ Hs2. cbn in Hs2. eapply (unlink_free_orderly o); [exact Hs2|done|set_solver|].
  intros s3 st3 Hs3 Heq Hal3 Hst3. pc_step. exists st3. rewrite Heq, Hal3, Hst3. split_and!; try done. set_solver.
Qed.

Lemma reap_orderly o : preserves (orderly o) (reap_threads E).
Proof.
  intros s Hs. unfold reap_threads. pc_step. intros s1 s1' [= <- <-].
  by apply (preserves_iterate (orderly o)); [apply reap_body_orderly|].
Qed.

(** The client is turned away. *)
Lemma turn_away sockfd clfd s st :
  mrun (s_trace s) = Some st -> allocated st ⊆ started st ->
  sockfd ∈ (sockets st).1 -> clfd ∈ (sockets st).1 -> clfd <> sockfd ->
  pc (_ ← ssys E (Close clfd); mret (Some (inl tt) : option (unit + unit))) (fun _ => orderly (Some sockfd)) s.
Proof.
  intros Hst Hal Hs Hc Hne. pc_step. eapply pc_call; [exact Hst|intros a _; cbn; by rewrite decide_True|].
  intros a s' _ Hs'. pc_step. eexists. split; [exact Hs'|]. side. intros fd [= <-]. cbn. set_solver.
Qed.

(** A node is allocated, its flag cleared, its thread started: the node is
    not one of a thread that is running, and the thread gets the socket that
    was just accepted. *)
Lemma accept_round_orderly sockfd :
  preserves (orderly (Some sockfd)) (accept_round E char_device id_of file_mutex sockfd).
Proof using EOk AOk.
  intros s (st & Hst & Hall & Ho). specialize (Ho _ eq_refl). destruct (mrun_spec _ _ Hst) as (Hal & Hsub & Hheld).
  unfold accept_round. pc_step.
  eapply (pc_callv _ _ _ _ (fun a => mk_mstate (allocated st) (started st) None (held_step (sockets st) (Accept sockfd, a))));
    [exact Hst| |].
  { intros a Ha. cbn. rewrite decide_False; [done|]. rewrite Hheld, Ha. intros [Hge Hin]. by apply accept_fresh in Hge. }
  intros a s1 Ha Hs1. destruct (Z.ltb_spec (rv a) 0) as [Hneg|Hpos].
  { assert (orderly (Some sockfd) s1) as H1.
    { eexists. split; [exact Hs1|]. side. intros fd [= <-]. cbn. by rewrite (proj2 (Z.ltb_lt _ _)). }
    revert H1. apply by_preserves. preserve_with orderly_tac. }
  assert (rv a ∉ (sockets st).1) as Hnew by (rewrite Hheld, Ha in *; by apply accept_fresh).
  unfold held_step in Hs1. cbn [fst snd] in Hs1. rewrite (proj2 (Z.ltb_ge _ _)) in Hs1 by done. set (cl := rv a) in *.
  destruct (mrun_spec _ _ Hs1) as (Hal1 & Hsub1 & _). cbn [allocated started] in Hal1, Hsub1.
  set (soc := ({[cl]} ∪ (sockets st).1, Some cl)) in *.
  assert (sockfd ∈ soc.1 /\ cl ∈ soc.1 /\ cl <> sockfd) as (Hso1 & Hso2 & Hso3).
  { cbn. split_and!; [by apply elem_of_union_r|by apply elem_of_union_l, elem_of_singleton|by intros ->]. }
  assert (option_to_set (C := gset Z) soc.2 ⊆ soc.1) as Hso4 by (cbn; by apply union_subseteq_l).
  pc_step. eapply (pc_callv _ _ _ _ (fun b => mk_mstate (live_step (allocated st) (Malloc sizeof_conn_node, b))
    (started st) None soc)); [exact Hs1| |].
  { intros b Hb. cbn. rewrite decide_False; [done|]. intros [Hn Hin]. rewrite Hb in Hn, Hin.
    apply malloc_fresh in Hn. by rewrite Hal1 in Hin. }
  intros b s2 Hb Hs2. destruct (Z.eqb_spec (rv b) NULL) as [Hn|Hn].
  { eapply turn_away; [exact Hs2| |done..]. cbn [allocated started]. unfold live_step. cbn. by rewrite Hn. }
  assert (rv b ∉ live (s_trace s1)) as Hp by (rewrite Hb in Hn |- *; by apply malloc_fresh).
  unfold live_step in Hs2. cbn [fst snd] in Hs2. rewrite (proj2 (Z.eqb_neq _ _) Hn) in Hs2. set (p := rv b) in *.
  assert (p ∉ started st) as Hns by set_solver.
  do 3 pc_step. eapply pc_call; [exact Hs2|intros d _; cbn; rewrite decide_False by done; reflexivity|].
  intros d s3 _ Hs3. cbn in Hs3. pc_step. eapply pc_mono; [apply list_insert_silent|].
  intros [] s4 Hs4. rewrite <- Hs4 in Hs3. pc_step.
  eapply pc_call; [exact Hs3| |].
  { intros r _. cbn. rewrite decide_True; [reflexivity|]. split_and!; try done; set_solver. }
  intros r s5 _ Hs5. cbn in Hs5. destruct (Z.eqb_spec (rv r) 0) as [Hr|Hr]; cbn [negb].
  - pc_step. eapply pc_mono; [apply put_node_silent|]. intros [] s6 Hs6. rewrite <- Hs6 in Hs5. unfold obind. pc_step.
    eapply pc_mono; [apply (reap_orderly (Some sockfd))|].
    { eexists. split; [exact Hs5|]. split; [cbn [allocated started]; set_solver|]. intros fd [= <-]. cbn [sockets fst].
      apply elem_of_difference. split; [by apply elem_of_union_r|]. by intros ->%elem_of_singleton. }
    intros [n|] s7 Hs7; by pc_step.
  - eapply (unlink_free_orderly (Some sockfd)); [exact Hs5|by intros fd [= <-]|done|].
    intros s6 st6 Hs6 Heq Hal6 Hst6. eapply turn_away; [exact Hs6| |by rewrite Heq..|done].
    rewrite Hal6, Hst6. cbn [allocated started]. set_solver.
Qed.

Lemma setup_orderly argc dash_d s : mrun (s_trace s) = Some mstart ->
  pc (setup E char_device id_of argc dash_d) (fun r s' =>
    match r with
    | inl _ => orderly None s'
    | inr sockfd => orderly (Some sockfd) s'
    end) s.
Proof.
  intros Hs. assert (orderly None s) as H0 by by exists mstart. unfold setup. destruct (2 <? argc); [by pc_step|].
  do 3 pc_step. eapply (pc_callv _ _ _ _ (fun a => mk_mstate ∅ ∅ None (held_step (∅, None) (Socket, a)))); [exact Hs|done|].
  intros a s1 _ Hs1. destruct (Z.ltb_spec (rv a) 0) as [Hneg|Hpos]; [pc_step; eexists; split; [exact Hs1|by split]|].
  set (fd := rv a) in *. assert (orderly (Some fd) s1) as H1.
  { eexists. split; [exact Hs1|]. side. intros fd' [= <-]. unfold held_step. cbn. fold fd.
    rewrite (proj2 (Z.ltb_ge _ _)) by done. set_solver. }
  assert (forall x, orderly (Some fd) x -> pc (_ ← ssys E (Close fd); mret (inl EXIT_FAILURE : Z + Z)) (fun r s' =>
    match r with inl _ => orderly None s' | inr sockfd => orderly (Some sockfd) s' end) x) as Hclose.
  { intros x (st & Hst & Hal & Ho). specialize (Ho _ eq_refl). pc_step.
    eapply pc_call; [exact Hst|intros b _; cbn; rewrite decide_True by done; reflexivity|].
    intros b x' _ Hx'. pc_step. by eexists. }
  assert (forall x, orderly (Some fd) x -> orderly None x) as Hweak.
  { intros x (st & Hst & Hal & _). by exists st. }
  clearbody fd. clear Hs1 H0 Hs. pc_step. eapply pc_mono; [apply (harmless_callv (Some fd)); [harmless|done]|].
  intros r s2 Hs2. cbv beta in *. destruct (r <? 0); [by apply Hclose|]. pc_step.
  eapply pc_mono; [apply (by_preserves (orderly (Some fd))); [preserve_with orderly_tac|done]|].
  intros d s3 Hs3. cbv beta in *. destruct (d <? 0); [by apply Hclose|]. pc_step.
  eapply pc_mono; [apply (harmless_callv (Some fd)); [harmless|done]|].
  intros r1 s4 Hs4. cbv beta in *. destruct (negb _); [pc_step; by apply Hweak|]. pc_step.
  eapply pc_mono; [apply (harmless_callv (Some fd)); [harmless|done]|].
  intros r2 s5 Hs5. cbv beta in *. destruct (negb _); [pc_step; by apply Hweak|]. pc_step.
  eapply pc_mono; [apply (by_preserves (orderly (Some fd))); [unfold setup_alarm; preserve_with orderly_tac|done]|].
  intros [e|] s6 Hs6; cbv beta in *; [pc_step; by apply Hweak|]. pc_step.
  eapply pc_mono; [apply (harmless_call (Some fd)); [harmless|done]|]. intros z s7 Hs7. by pc_step.
Qed.

Lemma main_disciplined fuel argc dash_d first :
  pc (main E char_device id_of file_mutex fuel argc dash_d) (fun _ s => is_Some (mrun (s_trace s)))
    (mk_server [] first ∅).
Proof using EOk AOk.
  assert (forall o s, orderly o s -> is_Some (mrun (s_trace s))) as Hsome by (intros o s (st & Hst & _); by eexists).
  unfold main. pc_step. eapply pc_mono; [by apply setup_orderly|].
  intros [status|sockfd] s1 Hs1; cbv beta in *; [pc_step; by eapply Hsome|]. unfold obind. pc_step.
  eapply pc_mono; [apply (by_preserves (orderly (Some sockfd))); [|done]|].
  { apply preserves_iterate. intros []. unfold accept_body. preserve_with ltac:(first [orderly_tac|apply accept_round_orderly]). }
  intros [[]|] s2 Hs2; [|pc_step; by eapply Hsome]. pc_step.
  eapply pc_mono; [by apply (reap_orderly (Some sockfd))|]. intros [n|] s3 Hs3; [|pc_step; by eapply Hsome].
  cbv beta in Hs3. destruct Hs3 as (st & Hst & Hal & Ho). specialize (Ho _ eq_refl). unfold shutdown. pc_step. pc_step.
  eapply pc_call; [exact Hst|intros b _; cbn; rewrite decide_True by done; reflexivity|]. intros b s4 _ Hs4.
  pc_step. eapply pc_mono; [apply (by_preserves (orderly None)); [preserve_with orderly_tac|by eexists]|].
  intros z s5 Hs5. cbv beta in Hs5. do 2 pc_step. by eapply Hsome.
Qed.
End main.
