(* ===== verification/Interleaving.v ===== *)
(** * The interleaving of the server's threads

    The main thread, the connection threads and the runs of the alarm
    handler happen at the same time.  They share the mutexes, the [done]
    flags, the nodes the main thread allocates for its connections and frees
    when it has seen [done], and the table of open descriptors of the
    process.

    [gstep] is their interleaving: a state transition system whose labels
    are the events, with the shared state as its state.  The events of a
    thread are those of a run of [main], [handle_connection] or
    [alarm_handler].  The invariant [ginv] relates the shared state to the
    states of the automata of [Discipline] and is proved for every
    execution [exec]; [Threads] has the theorems.

    The alarm handler is taken for a thread of its own, although it runs on
    the stack of the thread that gets the signal, and nothing happens when a
    mutex is destroyed or [main] returns: the interleavings of the code are
    among those of the model, which is what the theorems about every
    interleaving need.  [Signals] has the handler on that stack, the
    destruction of the mutex and the end of the process. *)

From S2P Require Import Prelude Posix Queue Handler HandlerSpec Server Discipline.

(** ** The runs of the programs *)

Inductive task : Type :=
| Conn (c : conn_info)
| Alarm.

(** The build of the server; the addresses of [main]'s [file_mutex] and of
    that of [server_info], which is a copy of it and another object; the
    request code of the seek command. *)
Class build : Type := mk_build {
  with_device : bool;
  main_mutex : Z;
  info_mutex : Z;
  seek_code : Z;
  mutexes_differ : main_mutex <> info_mutex;
}.

Section programs.
Context {B : build}.

Definition task_role (k : task) : role :=
  match k with
  | Conn c => conn_role c seek_code
  | Alarm => alarm_role info_mutex
  end.

(** The beginnings of runs, in every environment that answers as
    documented; with fuel enough that no loop is cut off before. *)
Definition main_runs (tr : list event) : Prop :=
  exists E id_of fuel argc dash_d first r s', EnvOk E /\ AcceptOk E /\
    main E with_device id_of main_mutex fuel argc dash_d (mk_server [] first ∅) = Some (r, s') /\
    tr `prefix_of` s_trace s'.

Definition task_runs (k : task) (tr : list event) : Prop :=
  match k with
  | Conn c =>
      exists E int_of fuel r s', EnvOk E /\ MutexOk E (file_mutex c) /\ (length tr < fuel)%nat /\
        handle_connection E with_device seek_code int_of fuel c (start []) = Some (r, s') /\
        tr `prefix_of` trace s'
  | Alarm =>
      exists E timestamp s', EnvOk E /\ MutexOk E info_mutex /\ zlen timestamp < 100 /\
        alarm_handler E with_device info_mutex SIGALRM timestamp (start []) = Some (tt, s') /\
        tr `prefix_of` trace s'
  end.

Lemma main_runs_prefix t1 t2 : t1 `prefix_of` t2 -> main_runs t2 -> main_runs t1.
Proof.
  intros Ht (E & id_of & fuel & argc & d & first & r & s' & HE & HA & Hr & Hp).
  exists E, id_of, fuel, argc, d, first, r, s'. split_and!; try done. by trans t2.
Qed.

Lemma task_runs_prefix k t1 t2 : t1 `prefix_of` t2 -> task_runs k t2 -> task_runs k t1.
Proof.
  intros Ht. destruct k as [c|].
  - intros (E & int_of & fuel & r & s' & HE & HM & Hf & Hr & Hp). exists E, int_of, fuel, r, s'.
    pose proof (prefix_length _ _ Ht). split_and!; try done; [lia|by trans t2].
  - intros (E & ts & s' & HE & HM & Hts & Hr & Hp). exists E, ts, s'. split_and!; try done. by trans t2.
Qed.

Lemma main_runs_ok tr : main_runs tr -> is_Some (mrun tr).
Proof.
  intros (E & id_of & fuel & argc & d & first & r & s' & HE & HA & Hr & Hp).
  eapply run_from_prefix; [done|]. by eapply main_disciplined.
Qed.

#[local] Abbreviation crun_of k := (crun with_device (task_role k)).

Lemma task_runs_ok k tr : task_runs k tr -> is_Some (crun_of k tr).
Proof.
  destruct k as [c|]; cbn [task_runs].
  - intros (E & int_of & fuel & r & s' & HE & HM & Hf & Hr & Hp). eapply run_from_prefix; [done|].
    destruct (connection_disciplined with_device seek_code int_of c fuel _ _ Hr) as (st & Hst & _). by eexists.
  - intros (E & ts & s' & HE & HM & Hts & Hr & Hp). eapply run_from_prefix; [done|].
    destruct (alarm_disciplined with_device info_mutex SIGALRM ts Hts _ _ Hr) as (st & Hst & _). by eexists.
Qed.

(** ** The system *)

(** The main thread's trace; the other threads with their traces, in the
    order in which they were started; the [done] flags; the threads that
    hold a mutex; the open descriptors, each with the thread that opened it
    or was given it ([None]: the main thread). *)
Record global : Type := mk_global {
  main_trace : list event;
  threads : list (task * list event);
  flags : gmap Z bool;
  holders : gmap Z nat;
  table : gmap Z (option nat);
}.
Definition ginit : global := mk_global [] [] ∅ ∅ ∅.

(** An event of the main thread ([None]) or of another thread. *)
Definition label : Type := option nat * event.

(** What an event of [who] does to the descriptors; [None] when it is not
    possible now: a new descriptor is one that is not open. *)
Definition fd_effect (who : option nat) (e : event) (T : gmap Z (option nat)) : option (gmap Z (option nat)) :=
  match e.1 with
  | Open _ _ _ | Socket | Accept _ =>
      if rv e.2 <? 0 then Some T
      else match T !! rv e.2 with
           | None => Some (<[rv e.2 := who]> T)
           | Some _ => None
           end
  | Close fd => Some (delete fd T)
  | _ => Some T
  end.

(** The argument of the thread that is started with node [p]. *)
Definition new_conn (tr : list event) (p : Z) : option conn_info :=
  cl ← (held tr).2; Some (mk_conn p cl (if with_device then NULL else main_mutex)).

(** The main thread reads a flag as it is; a thread it starts gets the
    socket accepted last. *)
Definition main_effect (g : global) (e : event) : option global :=
  T ← fd_effect None e (table g);
  let tr := main_trace g ++ [e] in
  match e.1 with
  | LoadDone p =>
      if Bool.eqb (negb (rv e.2 =? 0)) (default false (flags g !! p))
      then Some (mk_global tr (threads g) (flags g) (holders g) T) else None
  | ClearDone p => Some (mk_global tr (threads g) (<[p := false]> (flags g)) (holders g) T)
  | Create p =>
      if rv e.2 =? 0 then
        c ← new_conn (main_trace g) p;
        Some (mk_global tr (threads g ++ [(Conn c, [])]) (flags g) (holders g)
                (<[clfd c := Some (length (threads g))]> T))
      else Some (mk_global tr (threads g) (flags g) (holders g) T)
  | _ => Some (mk_global tr (threads g) (flags g) (holders g) T)
  end.

(** Thread [i]; the next one may be a run of the alarm handler. *)
Definition peek (g : global) (i : nat) : option (task * list event) :=
  match threads g !! i with
  | Some x => Some x
  | None => if decide (i = length (threads g) /\ with_device = false) then Some (Alarm, []) else None
  end.
Definition put {A} (i : nat) (x : A) (l : list A) : list A := take i l ++ x :: drop (S i) l.

(** A thread gets a mutex only when it is free. *)
Definition lock_effect (i : nat) (e : event) (H : gmap Z nat) : option (gmap Z nat) :=
  match e.1 with
  | Lock m =>
      if rv e.2 =? 0 then
        match H !! m with
        | None => Some (<[m := i]> H)
        | Some _ => None
        end
      else Some H
  | Unlock m => Some (if rv e.2 =? 0 then delete m H else H)
  | _ => Some H
  end.
Definition flag_effect (e : event) (F : gmap Z bool) : gmap Z bool :=
  match e.1 with
  | StoreDone p => <[p := true]> F
  | _ => F
  end.

Definition task_effect (g : global) (i : nat) (e : event) : option global :=
  '(k, t) ← peek g i;
  T ← fd_effect (Some i) e (table g);
  H ← lock_effect i e (holders g);
  Some (mk_global (main_trace g) (put i (k, t ++ [e]) (threads g)) (flag_effect e (flags g)) H T).

Inductive gstep (g : global) : label -> global -> Prop :=
| main_step e g' :
    main_runs (main_trace g ++ [e]) -> main_effect g e = Some g' -> gstep g (None, e) g'
| task_step i k t e g' :
    peek g i = Some (k, t) -> task_runs k (t ++ [e]) -> task_effect g i e = Some g' ->
    gstep g (Some i, e) g'.

Inductive gsteps (g : global) : list label -> global -> Prop :=
| gsteps_nil : gsteps g [] g
| gsteps_cons l g1 h g2 : gstep g l g1 -> gsteps g1 h g2 -> gsteps g (l :: h) g2.

Definition exec : list label -> global -> Prop := gsteps ginit.

Lemma gsteps_app g h g1 h' g2 : gsteps g h g1 -> gsteps g1 h' g2 -> gsteps g (h ++ h') g2.
Proof.
  intros Hs Hs'. induction Hs as [g|g l g1' h g1 Hl _ IH]; cbn; [done|].
  eapply gsteps_cons; [done|]. by apply IH.
Qed.

Lemma put_lookup {A} i (x : A) l j : (i <= length l)%nat ->
  put i x l !! j = if decide (j = i) then Some x else l !! j.
Proof.
  intros Hi. unfold put. assert (length (take i l) = i) as Hl by (rewrite length_take; lia). case_decide as Hj.
  - subst j. by rewrite list_lookup_middle.
  - destruct (decide (j < i)%nat).
    + rewrite lookup_app_l, lookup_take_lt by lia. done.
    + rewrite lookup_app_r by lia. rewrite lookup_cons_ne_0 by lia. rewrite Hl, lookup_drop. f_equal. lia.
Qed.

Lemma peek_length g i x : peek g i = Some x -> (i <= length (threads g))%nat.
Proof.
  unfold peek. destruct (threads g !! i) eqn:Hi; [apply lookup_lt_Some in Hi; lia|]. case_decide; [lia|done].
Qed.

(** ** The invariant *)

(** The descriptors a thread in state [s] has open. *)
Definition cfds (k : task) (s : cstate) (fd : Z) : Prop :=
  reader s = Some fd \/ writer s = Some fd \/ (peer s = true /\ r_peer (task_role k) = Some fd).
(** They are different. *)
Definition apart (k : task) (s : cstate) : Prop :=
  forall fd, (reader s = Some fd -> writer s <> Some fd) /\
    (peer s = true -> r_peer (task_role k) = Some fd -> reader s <> Some fd /\ writer s <> Some fd).

(** Thread [i], of task [k], is in state [s]. *)
Definition thread_in (g : global) (i : nat) (k : task) (s : cstate) : Prop :=
  exists t, threads g !! i = Some (k, t) /\ crun_of k t = Some s.

Definition owns (g : global) (st : mstate) (who : option nat) (fd : Z) : Prop :=
  match who with
  | None => fd ∈ (sockets st).1
  | Some i => exists k s, thread_in g i k s /\ cfds k s fd
  end.

Record ginv (g : global) (st : mstate) : Prop := {
  gi_main : mrun (main_trace g) = Some st;
  gi_cleared q : cleared st = Some q -> q ∉ started st /\ flags g !! q = Some false;
  gi_task i k t : threads g !! i = Some (k, t) -> is_Some (crun_of k t);
  gi_running i c s : thread_in g i (Conn c) s -> ph s <> Ended ->
    conn_addr c ∈ started st /\ flags g !! conn_addr c = Some false;
  gi_distinct i j c c' s s' : thread_in g i (Conn c) s -> thread_in g j (Conn c') s' ->
    conn_addr c = conn_addr c' -> ph s <> Ended -> ph s' <> Ended -> i = j;
  gi_holder m i : holders g !! m = Some i <->
    exists k s, thread_in g i k s /\ ph s = Locked /\ r_mutex (task_role k) = m;
  gi_table fd who : table g !! fd = Some who <-> owns g st who fd;
  gi_apart i k s : thread_in g i k s -> apart k s;
}.

Lemma ginv_init : ginv ginit mstart.
Proof.
  split; try done.
  - by intros i c s (t & Ht & _).
  - by intros i j c c' s s' (t & Ht & _).
  - intros m i. split; [done|]. by intros (k & s & (t & Ht & _) & _).
  - intros fd [i|]; (split; [done|]); [by intros (k & s & (t & Ht & _) & _)|cbn; by intros ?%elem_of_empty].
  - by intros i k s (t & Ht & _).
Qed.

Lemma thread_in_fun g i k s k' s' : thread_in g i k s -> thread_in g i k' s' -> k = k' /\ s = s'.
Proof. intros (t & Ht & Hs) (t' & Ht' & Hs'). by simplify_eq. Qed.

(** *** Steps of a thread, seen by its automaton *)

Lemma task_automaton k t e : task_runs k (t ++ [e]) ->
  exists s s', crun_of k t = Some s /\ cstep with_device (task_role k) s e = Some s' /\
    crun_of k (t ++ [e]) = Some s'.
Proof.
  intros [s' Hs']%task_runs_ok. pose proof Hs' as Hc. rewrite crun_snoc in Hc.
  destruct (crun_of k t) as [s|]; [|done]. by exists s, s'.
Qed.

Lemma cstep_running k s e s' : cstep with_device k s e = Some s' -> ph s <> Ended.
Proof. by destruct s as [[] r w p u]. Qed.

(** What is known of thread [i] before a step, also of a run of the alarm
    handler that begins with it. *)
Lemma peek_state g st i k t s : ginv g st -> peek g i = Some (k, t) -> crun_of k t = Some s ->
  (forall fd, table g !! fd = Some (Some i) <-> cfds k s fd) /\ apart k s /\
  (forall m, holders g !! m = Some i <-> ph s = Locked /\ r_mutex (task_role k) = m) /\
  (forall c, k = Conn c -> thread_in g i k s).
Proof.
  intros HI Hp Hs. unfold peek in Hp. destruct (threads g !! i) as [kt|] eqn:Hi.
  - simplify_eq. assert (thread_in g i k s) as Hin by by exists t. split_and!; try done.
    + intros fd. rewrite (gi_table _ _ HI). split; [|intros H; by exists k, s].
      intros (k' & s' & Hin' & Hc). by destruct (thread_in_fun _ _ _ _ _ _ Hin Hin') as [-> ->].
    + by apply (gi_apart _ _ HI i).
    + intros m. rewrite (gi_holder _ _ HI). split; [|intros H; by exists k, s].
      intros (k' & s' & Hin' & Hc). by destruct (thread_in_fun _ _ _ _ _ _ Hin Hin') as [-> ->].
  - case_decide; [|done]. simplify_eq. cbn in Hs. simplify_eq.
    assert (forall k s, ~ thread_in g i k s) as Hno by (intros k s (u & Hu & _); by rewrite Hi in Hu).
    split_and!; try done.
    + intros fd. rewrite (gi_table _ _ HI). split; [intros (k' & s' & Hin' & _); by apply Hno in Hin'|].
      unfold cfds. cbn. naive_solver.
    + intros m. rewrite (gi_holder _ _ HI). split; [intros (k' & s' & Hin' & _); by apply Hno in Hin'|naive_solver].
Qed.

(** The threads after a step of thread [i]. *)
Lemma task_threads g i k t e s' g' j k' s : 
  peek g i = Some (k, t) -> crun_of k (t ++ [e]) = Some s' -> task_effect g i e = Some g' ->
  thread_in g' j k' s <-> (j <> i /\ thread_in g j k' s) \/ (j = i /\ k' = k /\ s = s').
Proof.
  intros Hp Hs' He. unfold task_effect in He. rewrite Hp in He. cbn in He.
  destruct (fd_effect _ _ _) as [T|]; [|done]. destruct (lock_effect _ _ _) as [H|]; [|done]. injection He as <-.
  unfold thread_in. cbn [threads]. setoid_rewrite (put_lookup i); [|by eapply peek_length]. case_decide as Hj.
  - subst j. split; [|intros [[? _]|(_ & -> & ->)]; [done|by eexists]]. intros (u & Hu & Hs). simplify_eq. by right.
  - split; [by left|]. by intros [[_ ?]|[? _]].
Qed.

(** A new descriptor; one that is closed. *)
Lemma fds_insert (P P' : Z -> Prop) (T : gmap Z (option nat)) fd0 who :
  T !! fd0 = None -> (forall fd, T !! fd = Some who <-> P fd) -> (forall fd, P' fd <-> fd = fd0 \/ P fd) ->
  (forall fd, <[fd0 := who]> T !! fd = Some who <-> P' fd) /\
  (forall fd who', who' <> who -> <[fd0 := who]> T !! fd = Some who' <-> T !! fd = Some who').
Proof.
  intros H0 HP HP'. split; intros fd.
  - rewrite HP', <- HP. destruct (decide (fd = fd0)) as [->|Hne]; [rewrite lookup_insert_eq; naive_solver|].
    rewrite lookup_insert_ne by done. naive_solver.
  - intros who' Hw. destruct (decide (fd = fd0)) as [->|Hne]; [rewrite lookup_insert_eq; naive_solver|].
    by rewrite lookup_insert_ne.
Qed.

Lemma fds_delete (P P' : Z -> Prop) (T : gmap Z (option nat)) fd0 who :
  P fd0 -> (forall fd, T !! fd = Some who <-> P fd) -> (forall fd, P' fd <-> fd <> fd0 /\ P fd) ->
  (forall fd, delete fd0 T !! fd = Some who <-> P' fd) /\
  (forall fd who', who' <> who -> delete fd0 T !! fd = Some who' <-> T !! fd = Some who').
Proof.
  intros H0 HP HP'. apply HP in H0. split; intros fd.
  - rewrite HP', <- HP. destruct (decide (fd = fd0)) as [->|Hne]; [rewrite lookup_delete_eq; naive_solver|].
    rewrite lookup_delete_ne by done. naive_solver.
  - intros who' Hw. destruct (decide (fd = fd0)) as [->|Hne]; [rewrite lookup_delete_eq; naive_solver|].
    by rewrite lookup_delete_ne.
Qed.

(** The descriptors and the state of thread [i] move together. *)
Lemma task_fds k i s e s' T T' :
  cstep with_device (task_role k) s e = Some s' -> fd_effect (Some i) e T = Some T' -> apart k s ->
  (forall fd, T !! fd = Some (Some i) <-> cfds k s fd) ->
  apart k s' /\ (forall fd, T' !! fd = Some (Some i) <-> cfds k s' fd) /\
  (forall fd who, who <> Some i -> T' !! fd = Some who <-> T !! fd = Some who).
Proof.
  intros Hs He Hap HT. unfold apart, cfds in *. destruct s as [f r w p u], e as [c a]. unfold fd_effect in He. cbn [fst snd] in He.
  destruct f, c; simpl in Hs; try done;
    repeat (case_decide || case_match); destruct_and?; simplify_eq/=; try by split_and!.
  all: lazymatch goal with
    | H : ?T0 !! ?x = None |- _ =>
        pose proof (proj2 (HT x)) as Hno; rewrite H in Hno; split; [naive_solver|];
        eapply fds_insert; [done|exact HT|naive_solver]
    | |- context [delete ?x ?T0] =>
        pose proof (Hap x); split; [naive_solver|]; eapply fds_delete; [|exact HT|]; naive_solver
    end.
Qed.

(** So do the mutexes and the state. *)
Lemma task_holders k i s e s' H H' :
  cstep with_device (task_role k) s e = Some s' -> lock_effect i e H = Some H' ->
  (forall m, H !! m = Some i <-> ph s = Locked /\ r_mutex (task_role k) = m) ->
  (forall m, H' !! m = Some i <-> ph s' = Locked /\ r_mutex (task_role k) = m) /\
  (forall m j, j <> i -> H' !! m = Some j <-> H !! m = Some j).
Proof.
  intros Hs He HH. destruct s as [f r w p u], e as [c a]. unfold lock_effect in He. cbn [fst snd] in He.
  destruct f, c; simpl in Hs; try done;
    repeat (case_decide || case_match); destruct_and?; simplify_eq/=; try lia;
    try (split; [intros m'; rewrite HH; naive_solver|done]).
  - split; intros m'; (destruct (decide (m' = r_mutex (task_role k))) as [->|]; [rewrite lookup_insert_eq|rewrite lookup_insert_ne by done]);
      try rewrite HH; naive_solver.
  - pose proof (proj2 (HH _) (conj eq_refl eq_refl)) as Hi.
    split; intros m'; (destruct (decide (m' = r_mutex (task_role k))) as [->|]; [rewrite lookup_delete_eq|rewrite lookup_delete_ne by done]);
      try rewrite HH; naive_solver.
Qed.

(** Only the thread's own flag changes, and that with its end. *)
Lemma task_flags k s e s' F :
  cstep with_device (task_role k) s e = Some s' ->
  (ph s' <> Ended /\ flag_effect e F = F) \/
  (ph s' = Ended /\ exists c, k = Conn c /\ flag_effect e F = <[conn_addr c := true]> F).
Proof.
  intros Hs. destruct s as [f r w p u], e as [c a]. unfold flag_effect. cbn [fst].
  destruct f, c; simpl in Hs; try done; repeat (case_decide || case_match); destruct_and?; simplify_eq/=; auto.
  all: right; split; [done|]; destruct k as [c|]; simplify_eq/=; by exists c.
Qed.

Lemma ginv_task g st i k t e g' :
  ginv g st -> peek g i = Some (k, t) -> task_runs k (t ++ [e]) -> task_effect g i e = Some g' -> ginv g' st.
Proof.
  intros HI Hp (s & s' & Hs & Hst & Hs')%task_automaton He.
  destruct (peek_state _ _ _ _ _ _ HI Hp Hs) as (HT & Hap & HH & Hc).
  pose proof (fun j k' u => task_threads _ _ _ _ _ _ _ j k' u Hp Hs' He) as Hth.
  pose proof (cstep_running _ _ _ _ Hst) as Hrun. unfold task_effect in He. rewrite Hp in He. cbn in He.
  destruct (fd_effect _ _ _) as [T|] eqn:HeT; [|done]. destruct (lock_effect _ _ _) as [H|] eqn:HeH; [|done].
  destruct (task_fds _ _ _ _ _ _ _ Hst HeT Hap HT) as (Hap' & HT' & HTo).
  destruct (task_holders _ _ _ _ _ _ _ Hst HeH HH) as (HH' & HHo).
  assert (forall q, (forall c, k = Conn c -> q = conn_addr c -> ph s' <> Ended) ->
    flag_effect e (flags g) !! q = flags g !! q) as Hfl.
  { intros q Hq. destruct (task_flags _ _ _ _ (flags g) Hst) as [[_ ->]|(Hend & c & -> & ->)]; [done|].
    apply lookup_insert_ne. intros <-. by apply (Hq c). }
  injection He as <-. split; cbn [main_trace flags holders table].
  - apply HI.
  - intros q Hq. destruct (gi_cleared _ _ HI q Hq) as [Hns Hqf]. side. rewrite Hfl; [done|]. intros c -> -> _.
    by destruct (gi_running _ _ HI _ _ _ (Hc c eq_refl) Hrun).
  - intros j k' u Hu. cbn [threads] in Hu. rewrite put_lookup in Hu by by eapply peek_length.
    case_decide; [simplify_eq; by exists s'|by apply (gi_task _ _ HI j)].
  - intros j c u [[Hj Hu]|(-> & <- & ->)]%Hth Hend.
    + destruct (gi_running _ _ HI _ _ _ Hu Hend) as [Hq Hqf]. side. rewrite Hfl; [done|]. intros c' -> Heq _.
      apply Hj. eapply (gi_distinct _ _ HI); [exact Hu|by apply (Hc c')|done..].
    + destruct (gi_running _ _ HI _ _ _ (Hc c eq_refl) Hrun) as [Hq Hqf]. side. rewrite Hfl; [done|]. by intros c' [= <-] _.
  - intros j j' c c' u u' [[Hj Hu]|(-> & Hk & ->)]%Hth [[Hj' Hu']|(-> & Hk' & ->)]%Hth Heq Hend Hend'; [..|done].
    + by eapply (gi_distinct _ _ HI).
    + subst k. eapply (gi_distinct _ _ HI); [exact Hu|by apply (Hc c')|done..].
    + subst k. symmetry. eapply (gi_distinct _ _ HI); [exact Hu'|by apply (Hc c)|done..].
  - intros m j. setoid_rewrite Hth. destruct (decide (j = i)) as [->|Hj].
    + rewrite HH'. split; [intros Hx; exists k, s'; tauto|]. intros (k' & u & [[? _]|(_ & -> & ->)] & Hx); done.
    + rewrite HHo, (gi_holder _ _ HI) by done. split; intros (k' & u & Hu & Hx); exists k', u; [tauto|].
      destruct Hu as [[_ ?]|[? _]]; done.
  - intros fd [j|]; cbn [owns]; [setoid_rewrite Hth|by rewrite HTo, (gi_table _ _ HI)].
    destruct (decide (j = i)) as [->|Hj].
    + rewrite HT'. split; [intros Hx; exists k, s'; tauto|]. intros (k' & u & [[? _]|(_ & -> & ->)] & Hx); done.
    + rewrite HTo, (gi_table _ _ HI) by congruence. cbn [owns].
      split; intros (k' & u & Hu & Hx); exists k', u; [tauto|]. destruct Hu as [[_ ?]|[? _]]; done.
  - intros j k' u [[Hj Hu]|(-> & -> & ->)]%Hth; [by apply (gi_apart _ _ HI j)|done].
Qed.

(** *** Steps of the main thread *)

(** It starts a thread, or the threads stay as they are. *)
Lemma main_cases g e g' : main_effect g e = Some g' ->
  exists T, fd_effect None e (table g) = Some T /\
  main_trace g' = main_trace g ++ [e] /\ holders g' = holders g /\
  ((exists p c, e.1 = Create p /\ rv e.2 = 0 /\ new_conn (main_trace g) p = Some c /\
      threads g' = threads g ++ [(Conn c, [])] /\ flags g' = flags g /\ T = table g /\
      table g' = <[clfd c := Some (length (threads g))]> T) \/
   ((forall p, e.1 = Create p -> rv e.2 <> 0) /\ threads g' = threads g /\ table g' = T /\
    flags g' = match e.1 with ClearDone p => <[p := false]> (flags g) | _ => flags g end /\
    (forall p, e.1 = LoadDone p -> rv e.2 <> 0 -> flags g !! p = Some true))).
Proof.
  unfold main_effect. destruct (fd_effect None e (table g)) as [T|] eqn:HT; [|done]. cbn [mbind option_bind].
  intros He. exists T. side. destruct e as [[] a]; cbn [fst snd] in *; try (simplify_eq; split_and!; try done; right; by split_and!).
  - destruct (Z.eqb_spec (rv a) 0) as [Ha|Ha].
    + change (Some (table g) = Some T) in HT. injection HT as <-.
      destruct (new_conn _ _) as [c|] eqn:Hc; [|done]. cbn in He. injection He as <-. cbn. split_and!; try done. left.
      eexists _, c. by split_and!.
    + simplify_eq. split_and!; try done. right. by split_and!.
  - destruct (Bool.eqb _ _) eqn:Hb; [|done]. simplify_eq. split_and!; try done. right. split_and!; try done.
    intros p [= <-] Ha. apply Bool.eqb_prop in Hb. rewrite (proj2 (Z.eqb_neq _ _) Ha) in Hb.
    destruct (flags g !! node) as [[]|]; done.
Qed.

Lemma main_threads g e g' j k s : main_effect g e = Some g' ->
  thread_in g' j k s <-> thread_in g j k s \/
    (exists p c, e.1 = Create p /\ rv e.2 = 0 /\ new_conn (main_trace g) p = Some c /\
       j = length (threads g) /\ k = Conn c /\ s = cstart (task_role (Conn c))).
Proof.
  intros (T & _ & _ & _ & [(p & c & Hc & Ha & Hn & Ht & _)|(Hno & Ht & _)])%main_cases; unfold thread_in; rewrite Ht.
  - split.
    + intros (t & Hj & Hs). apply lookup_app_Some in Hj as [Hj|[Hge Hj]]; [left; by exists t|].
      apply list_lookup_singleton_Some in Hj as [Hl Hj]. simplify_eq. cbn in Hs. simplify_eq. right.
      exists p, c. split_and!; try done. lia.
    + intros [(t & Hj & Hs)|(p' & c' & Hc' & _ & Hn' & -> & -> & ->)].
      * exists t. split; [|done]. by apply lookup_app_l_Some.
      * rewrite Hc in Hc'. injection Hc' as <-. rewrite Hn in Hn'. injection Hn' as <-. exists [].
        split; [|done]. by apply list_lookup_middle.
  - split; [by left|]. intros [?|(p & c & Hc & Ha & _)]; [done|]. by destruct (Hno p Hc).
Qed.

(** The flags and the nodes the main thread knows of. *)
Lemma main_flags g e g' st st' q :
  main_effect g e = Some g' -> mstep st e = Some st' -> q ∈ started st -> flags g !! q = Some false ->
  q ∈ started st' /\ flags g' !! q = Some false.
Proof.
  intros (T & _ & _ & _ & [(p & c & Hc & _ & _ & _ & -> & _)|(_ & _ & _ & -> & Hld)])%main_cases Hm Hq Hb; unfold mstep in Hm.
  - destruct e as [k a]. cbn in Hc. subst k. cbn in Hm. case_decide; simplify_eq/=. case_match; set_solver.
  - destruct e as [[] a]; simpl in *; repeat (case_decide || case_match); simplify_eq/=; try (split; [set_solver|done]).
    + split; [|done]. apply elem_of_difference. side. intros ->%elem_of_singleton.
      rewrite (Hld node eq_refl) in Hb by lia. done.
    + side. rewrite lookup_insert_ne; [done|]. by intros ->.
Qed.

Lemma main_cleared g e g' st st' q :
  main_effect g e = Some g' -> mstep st e = Some st' -> cleared st' = Some q ->
  q ∉ started st' /\ flags g' !! q = Some false.
Proof.
  intros (T & _ & _ & _ & [(p & c & Hc & _ & _ & _ & -> & _)|(_ & _ & _ & -> & _)])%main_cases Hm Hq; unfold mstep in Hm.
  - destruct e as [k a]. cbn in Hc. subst k. cbn in Hm. case_decide; by simplify_eq/=.
  - destruct e as [[] a]; simpl in *; repeat (case_decide || case_match); simplify_eq/=; try done.
    side. apply lookup_insert_eq.
Qed.

(** The node of a thread that is started: its flag was cleared, and no
    thread of it is running. *)
Lemma main_create g st st' e g' p c :
  ginv g st -> mstep st e = Some st' -> main_effect g e = Some g' -> e.1 = Create p -> rv e.2 = 0 ->
  new_conn (main_trace g) p = Some c ->
  conn_addr c = p /\ p ∉ started st /\ p ∈ started st' /\ flags g' !! p = Some false /\
  clfd c ∈ (sockets st).1 /\ (sockets st').1 = (sockets st).1 ∖ {[clfd c]}.
Proof.
  intros HI Hm (T & _ & _ & _ & [(p' & c' & _ & _ & _ & _ & -> & _)|(Hno & _)])%main_cases Hc Ha Hn;
    [|by destruct (Hno p Hc)].
  destruct (mrun_spec _ _ (gi_main _ _ HI)) as (_ & _ & Hso). unfold new_conn in Hn. rewrite <- Hso in Hn.
  destruct e as [k a]. cbn in *. subst k. unfold mstep in Hm. cbn in Hm. case_decide as Hd; [|done]. simplify_eq.
  destruct Hd as (Hcl & _ & Hns & [cl Hcl2] & Hsub). rewrite Hcl2 in *. cbn in Hn. injection Hn as <-. rewrite Ha. cbn in *.
  split_and!; try done; [set_solver|by apply (gi_cleared _ _ HI)|]. apply Hsub. by apply elem_of_singleton.
Qed.

(** The main thread's descriptors. *)
Lemma main_fds st st' e T T' :
  mstep st e = Some st' -> fd_effect None e T = Some T' -> (forall p, e.1 = Create p -> rv e.2 <> 0) ->
  (forall fd, T !! fd = Some None <-> fd ∈ (sockets st).1) ->
  (forall fd, T' !! fd = Some None <-> fd ∈ (sockets st').1) /\
  (forall fd who, who <> None -> T' !! fd = Some who <-> T !! fd = Some who).
Proof.
  intros Hm He Hno HT. destruct e as [c a]. unfold fd_effect, mstep, held_step in *. cbn [fst snd] in *.
  destruct c; cbn [fst snd] in *; repeat (case_decide || case_match); simplify_eq/=; try by split_and!.
  all: lazymatch goal with
    | |- context [<[_ := _]> _ ] => apply (fds_insert (fun fd => fd ∈ (sockets st).1)); [done|exact HT|set_solver]
    | |- context [delete _ _ ] => apply (fds_delete (fun fd => fd ∈ (sockets st).1)); [done|exact HT|set_solver]
    | _ => exfalso; eapply Hno; [done|lia]
    end.
Qed.

(** The socket goes to the thread. *)
Lemma hand_over (P P' : option nat -> Z -> Prop) (T : gmap Z (option nat)) fd0 n :
  (forall fd who, T !! fd = Some who <-> P who fd) -> P None fd0 ->
  (forall fd, P' None fd <-> P None fd /\ fd <> fd0) -> (forall fd, P' (Some n) fd <-> fd = fd0) ->
  (forall fd, ~ P (Some n) fd) -> (forall i fd, i <> n -> P' (Some i) fd <-> P (Some i) fd) ->
  forall fd who, <[fd0 := Some n]> T !! fd = Some who <-> P' who fd.
Proof.
  intros HT H0 HN Hn Hno Hi fd who. apply HT in H0. destruct (decide (fd = fd0)) as [->|Hne].
  - rewrite lookup_insert_eq. destruct who as [i|]; [|naive_solver]. destruct (decide (i = n)) as [->|Hin]; [naive_solver|].
    rewrite (Hi i), <- HT by done. naive_solver.
  - rewrite lookup_insert_ne, HT by done. destruct who as [i|]; [|naive_solver].
    destruct (decide (i = n)) as [->|Hin]; naive_solver.
Qed.

Lemma ginv_main g st e g' :
  ginv g st -> main_runs (main_trace g ++ [e]) -> main_effect g e = Some g' ->
  exists st', mstep st e = Some st' /\ ginv g' st'.
Proof.
  intros HI Hr He. destruct (main_runs_ok _ Hr) as [st' Hst']. exists st'.
  rewrite mrun_snoc, (gi_main _ _ HI) in Hst'. cbn in Hst'. side.
  pose proof (fun p c => main_create g st st' e g' p c HI Hst' He) as Hcr.
  pose proof (fun j k s => main_threads g e g' j k s He) as Hth.
  assert (mrun (main_trace g') = Some st' /\ holders g' = holders g) as [Hm' Hh'].
  { destruct (main_cases _ _ _ He) as (T & _ & -> & -> & _). by rewrite mrun_snoc, (gi_main _ _ HI). }
  assert (forall i k t, threads g' !! i = Some (k, t) -> threads g !! i = Some (k, t) \/ t = []) as Hlk.
  { intros i k t Hi. destruct (main_cases _ _ _ He) as (T & _ & _ & _ & [(p & c & _ & _ & _ & Ht & _)|(_ & Ht & _)]); rewrite Ht in Hi; [|auto].
    apply lookup_app_Some in Hi as [?|[_ Hi]]; [auto|]. apply list_lookup_singleton_Some in Hi as [_ Hi]. simplify_eq. auto. }
  split.
  - done.
  - intros q. by apply (main_cleared g e g' st).
  - intros i k t [Ht| ->]%Hlk; [by apply (gi_task _ _ HI i)|by eexists].
  - intros i c s [Hold|(p & c' & Hc & Ha & Hn & _ & [= <-] & _)]%Hth Hs.
    + destruct (gi_running _ _ HI _ _ _ Hold Hs) as [Hp Hf]. by eapply (main_flags g e g' st).
    + destruct (Hcr p c Hc Ha Hn) as (-> & _ & ? & ? & _). done.
  - intros i j c c' s s' [Hi|(p & c1 & Hc & Ha & Hn & Hi & [= <-] & _)]%Hth
      [Hj|(p' & c2 & Hc' & Ha' & Hn' & Hj & [= <-] & _)]%Hth Heq Hs Hs'; [..|congruence].
    + by eapply (gi_distinct _ _ HI).
    + destruct (gi_running _ _ HI _ _ _ Hi Hs). destruct (Hcr _ _ Hc' Ha' Hn') as (Hp & Hns & _). congruence.
    + destruct (gi_running _ _ HI _ _ _ Hj Hs'). destruct (Hcr _ _ Hc Ha Hn) as (Hp & Hns & _). congruence.
  - intros m i. rewrite Hh', (gi_holder _ _ HI). split; intros (k & s & Hk & Hl & Hm); exists k, s.
    + split_and!; try done. apply Hth. by left.
    + apply Hth in Hk as [?|(_ & c & _ & _ & _ & _ & -> & ->)]; done.
  - destruct (main_cases _ _ _ He) as (T & HT & _ & _ & [(p & c & Hc & Ha & Hn & _ & _ & -> & ->)|(Hno & Ht & -> & _)]).
    + destruct (Hcr p c Hc Ha Hn) as (_ & _ & _ & _ & Hcl & Hso).
      assert (forall k s, ~ thread_in g (length (threads g)) k s) as Hnew.
      { intros k s (t & Hl & _). apply lookup_lt_Some in Hl. lia. }
      apply (hand_over (owns g st) (owns g' st')); cbn [owns].
      * apply (gi_table _ _ HI).
      * done.
      * intros fd. rewrite Hso. set_solver.
      * intros fd. setoid_rewrite Hth. split.
        -- intros (k & s & [Hk|(p' & c' & Hc' & _ & Hn' & _ & -> & ->)] & Hf); [by apply Hnew in Hk|].
           rewrite Hc in Hc'. injection Hc' as <-. rewrite Hn in Hn'. injection Hn' as <-.
           destruct Hf as [?|[?|[_ Hf]]]; [done..|]. cbn in Hf. by injection Hf.
        -- intros ->. eexists _, _. split; [right; by exists p, c|]. unfold cfds. cbn. auto.
      * intros fd (k & s & Hk & _). by apply Hnew in Hk.
      * intros i fd Hi. setoid_rewrite Hth. split; intros (k & s & Hk & Hf); exists k, s; [|tauto].
        destruct Hk as [?|(_ & _ & _ & _ & _ & ? & _)]; done.
    + destruct (main_fds _ _ _ _ _ Hst' HT Hno (fun fd => gi_table _ _ HI fd None)) as [HN HO].
      intros fd [i|]; cbn [owns]; [|apply HN]. rewrite HO, (gi_table _ _ HI) by done. cbn [owns].
      unfold thread_in. by rewrite Ht.
  - intros i k s [Hk|(_ & c & _ & _ & _ & _ & -> & ->)]%Hth; [by apply (gi_apart _ _ HI i)|]. by intros fd.
Qed.

Lemma gstep_inv g st l g' : ginv g st -> gstep g l g' -> exists st', ginv g' st'.
Proof.
  intros HI Hs. destruct Hs as [e g' Hr He|i k t e g' Hp Hr He].
  - destruct (ginv_main _ _ _ _ HI Hr He) as (st' & _ & ?). by exists st'.
  - exists st. by eapply ginv_task.
Qed.

Lemma gsteps_inv g st h g' : ginv g st -> gsteps g h g' -> exists st', ginv g' st'.
Proof.
  intros HI Hs. revert st HI. induction Hs as [|g l g1 h g2 Hl _ IH]; intros st HI; [by exists st|].
  destruct (gstep_inv _ _ _ _ HI Hl) as [st1 H1]. by eapply IH.
Qed.

Lemma exec_inv h g : exec h g -> exists st, ginv g st.
Proof. apply gsteps_inv with (st := mstart), ginv_init. Qed.
End programs.
