(* ===== verification/Threads.v ===== *)
(** * The threads of the server

    What holds in every interleaving of the main thread, the connection
    threads and the runs of the alarm handler ([Interleaving]): the node of
    a connection outlives its thread, a thread uses only descriptors of its
    own, writes under a mutex exclude each other, and what has been written
    for a client is the packets of what it sent. *)

From S2P Require Import Prelude Posix Queue Handler HandlerSpec HandlerTheorems Server ServerSpec ServerTheorems.
From S2P Require Import Continuation Discipline Interleaving.

Section theorems.
Context {B : build}.

(** ** Nodes *)

(** A thread that has ended stays so. *)
Lemma ended_stays g l g' i k s :
  thread_in g i k s -> ph s = Ended -> gstep g l g' -> l.1 <> Some i /\ thread_in g' i k s.
Proof.
  intros Hin Hend Hs. destruct Hs as [e g' Hr He|j k' t e g' Hp Hr He]; cbn [fst].
  - side. apply (main_threads _ _ _ _ _ _ He). by left.
  - apply task_automaton in Hr as (s1 & s' & Hs1 & Hst & Hs'). destruct (decide (i = j)) as [->|Hne].
    + destruct Hin as (t' & Ht' & Hc). unfold peek in Hp. rewrite Ht' in Hp. simplify_eq.
      by apply cstep_running in Hst.
    + split; [congruence|]. eapply task_threads; [done..|]. by left.
Qed.

(** A connection thread that makes a step is one that has not ended. *)
Lemma stepping g i c t e g' : threads g !! i = Some (Conn c, t) -> gstep g (Some i, e) g' ->
  exists s, thread_in g i (Conn c) s /\ ph s <> Ended.
Proof.
  intros Hi Hs. inversion Hs as [|? k t0 ? ? Hp Hr]; subst. unfold peek in Hp. rewrite Hi in Hp. simplify_eq.
  apply task_automaton in Hr as (s & s' & Hc & Hst & _). exists s. split; [by exists t0|by eapply cstep_running].
Qed.

(** A node outlives its thread: whenever a connection thread can make
    a step, the node it was given is allocated, and it is the only thread of
    that node that can. *)
Theorem node_outlives_thread h g i c t e g' :
  exec h g -> threads g !! i = Some (Conn c, t) -> gstep g (Some i, e) g' ->
  conn_addr c ∈ live (main_trace g) /\
  forall j c' t' e' g'', threads g !! j = Some (Conn c', t') -> conn_addr c' = conn_addr c ->
    gstep g (Some j, e') g'' -> j = i.
Proof.
  intros [st HI]%exec_inv Hi Hs. destruct (stepping _ _ _ _ _ _ Hi Hs) as (s & Hin & Hne). split.
  - destruct (gi_running _ _ HI _ _ _ Hin Hne) as [Hp _]. by apply (mrun_spec _ _ (gi_main _ _ HI)).
  - intros j c' t' e' g'' Hj Heq Hsj. destruct (stepping _ _ _ _ _ _ Hj Hsj) as (s' & Hin' & Hne').
    by eapply (gi_distinct _ _ HI).
Qed.

(** C11. No use after free: once the main thread has freed a node, the
    thread it was given to makes no step any more, however the threads are
    interleaved and also when the address is allocated again. *)
Theorem freed_node_unused h1 g1 c a g2 h2 g i t e :
  exec h1 g1 -> threads g1 !! i = Some (Conn c, t) -> gstep g1 (None, (Free (conn_addr c), a)) g2 -> gsteps g2 h2 g ->
  (Some i, e) ∉ h2.
Proof.
  intros [st HI]%exec_inv Hi Hf Hs.
  assert (exists s, thread_in g1 i (Conn c) s /\ ph s = Ended) as (s & Hin & Hend).
  { inversion Hf as [? ? Hr He|]; subst. destruct (ginv_main _ _ _ _ HI Hr He) as (st' & Hm & _).
    destruct (gi_task _ _ HI _ _ _ Hi) as [s Hc]. assert (thread_in g1 i (Conn c) s) as Hin by by exists t.
    exists s. side. destruct (decide (ph s = Ended)) as [|Hne]; [done|].
    destruct (gi_running _ _ HI _ _ _ Hin Hne) as [Hp _]. cbn in Hm. by rewrite decide_True in Hm. }
  apply (ended_stays _ _ _ _ _ _ Hin Hend) in Hf as [_ Hin2]. clear -Hs Hin2 Hend.
  induction Hs as [|g2 l g3 h2 g Hl _ IH]; [by intros ?%elem_of_nil|].
  apply (ended_stays _ _ _ _ _ _ Hin2 Hend) in Hl as [Hl Hin3].
  intros [<-|Hin]%elem_of_cons; [done|]. by apply IH.
Qed.

(** ** Descriptors *)

(** The descriptor a call reads, writes, moves, receives from, sends to or
    closes. *)
Definition used_fd (e : event) : option Z :=
  match e.1 with
  | Read fd _ | Write fd _ | Ioctl fd _ _ _ | Recv fd _ | Send fd _ | Close fd => Some fd
  | _ => None
  end.

Lemma cstep_used k s e s' fd : cstep with_device (task_role k) s e = Some s' -> used_fd e = Some fd -> cfds k s fd.
Proof.
  intros Hs Hu. unfold cfds, used_fd in *. destruct s as [f r w p u], e as [c a]. destruct c; simplify_eq/=;
    destruct f; repeat (case_decide || case_match); destruct_and?; simplify_eq/=; auto 6.
Qed.

(** C12. Descriptors are not shared: a descriptor that a thread reads, writes,
    moves, receives from, sends to or closes is open, and was opened by this
    thread or handed to it with its connection; so no thread closes or uses
    the descriptor of another, or one whose number was given out again. *)
Theorem descriptors_private h g who e g' fd :
  exec h g -> gstep g (who, e) g' -> used_fd e = Some fd -> table g !! fd = Some who.
Proof.
  intros [st HI]%exec_inv Hs Hu. inversion Hs as [? ? Hr He|i k t ? ? Hp Hr He]; subst.
  - apply (gi_table _ _ HI). destruct (ginv_main _ _ _ _ HI Hr He) as (st' & Hm & _).
    destruct e as [c a]. unfold used_fd, mstep in *. destruct c; simplify_eq/=; try done. by case_decide.
  - apply task_automaton in Hr as (s & s' & Hc & Hst & _).
    destruct (peek_state _ _ _ _ _ _ HI Hp Hc) as (HT & _). apply HT. by eapply cstep_used.
Qed.

(** ** Mutexes *)

Lemma stays_locked cd k s e s' :
  cstep cd k s e = Some s' -> ph s = Locked -> (forall a, e <> (Unlock (r_mutex k), a)) -> ph s' = Locked.
Proof.
  intros Hst Hl Hno. destruct s as [f r w p u], e as [c a]. cbn in Hl. subst f.
  destruct c; simpl in Hst; repeat (case_decide || case_match); destruct_and?; simplify_eq/=; try done. by destruct (Hno a).
Qed.

(** The mutex stays with its holder until that releases it. *)
Lemma holder_stays g st m i l g' :
  ginv g st -> holders g !! m = Some i -> gstep g l g' -> (forall a, l <> (Some i, (Unlock m, a))) ->
  holders g' !! m = Some i.
Proof.
  intros HI Hh Hs Hl. destruct Hs as [e g' Hr He|j k t e g' Hp Hr He].
  - destruct (main_cases _ _ _ He) as (T & _ & _ & -> & _). done.
  - apply task_automaton in Hr as (s & s' & Hs & Hst & Hs'). destruct (peek_state _ _ _ _ _ _ HI Hp Hs) as (_ & _ & HH & _).
    unfold task_effect in He. rewrite Hp in He. cbn in He. destruct (fd_effect _ _ _); [|done].
    destruct (lock_effect _ _ _) as [H|] eqn:HeH; [|done]. injection He as <-. cbn [holders].
    destruct (decide (j = i)) as [->|Hne].
    + destruct (task_holders _ _ _ _ _ _ _ Hst HeH HH) as [HH' _]. apply HH'. destruct (proj1 (HH m) Hh) as [Hlk Hm]. split; [|done].
      eapply stays_locked; [exact Hst|done|]. intros a ->. by destruct (Hl a); rewrite Hm.
    + by apply (task_holders _ _ _ _ _ _ _ Hst HeH HH).
Qed.

(** C13. Mutual exclusion in the build that writes a file: from the moment
    thread [i] has locked a mutex until it unlocks it, no other thread that
    writes under this mutex writes.  So packets are appended one at a time,
    and time stamps are; the two use different mutexes. *)
Theorem writes_exclusive h1 g1 m i a g2 h2 g3 j k t fd d b g4 :
  with_device = false -> exec h1 g1 -> gstep g1 (Some i, (Lock m, a)) g2 -> gsteps g2 h2 g3 ->
  (forall b, (Some i, (Unlock m, b)) ∉ h2) ->
  threads g3 !! j = Some (k, t) -> r_mutex (task_role k) = m -> gstep g3 (Some j, (Write fd d, b)) g4 -> j = i.
Proof.
  intros Hcd [st HI]%exec_inv Hl Hs Hno Hj Hm Hw. destruct (gstep_inv _ _ _ _ HI Hl) as [st2 HI2].
  assert (holders g2 !! m = Some i) as Hh2.
  { inversion Hl as [|? k1 t1 ? ? Hp Hr He]; subst. apply task_automaton in Hr as (s & s' & Hc & Hst & _).
    unfold task_effect in He. rewrite Hp in He. cbn in He.
    assert (rv a = 0) as Ha.
    { destruct s as [f r w p u]. destruct f; simpl in Hst; try done. case_decide; [|done]. tauto. }
    unfold lock_effect in He. cbn in He. rewrite Ha in He. cbn in He.
    destruct (holders g1 !! _); [done|]. injection He as <-. cbn. apply lookup_insert_eq. }
  assert (exists st3, ginv g3 st3 /\ holders g3 !! m = Some i) as (st3 & HI3 & Hh3).
  { clear -Hs Hno HI2 Hh2. revert st2 HI2. induction Hs as [|g2 l g3 h2 g Hl _ IH]; intros st2 HI2; [by exists st2|].
    destruct (gstep_inv _ _ _ _ HI2 Hl) as [st3 HI3]. apply IH with (st2 := st3); [..|done].
    - intros b Hb. apply (Hno b). by right.
    - eapply holder_stays; [exact HI2|done|done|]. intros b ->. apply (Hno b). by left. }
  inversion Hw as [|? k1 t1 ? ? Hp Hr He]; subst. unfold peek in Hp. rewrite Hj in Hp. simplify_eq.
  apply task_automaton in Hr as (s & s' & Hc & Hst & _).
  assert (ph s = Locked) as Hlk.
  { destruct s as [f r w p u]. destruct f; simpl in Hst; try done; case_decide; try done; destruct_and?; destruct_or?; congruence. }
  assert (holders g3 !! r_mutex (task_role k1) = Some j) as Hj'; [|congruence].
  apply (gi_holder _ _ HI3). exists k1, s. split; [by exists t1|done].
Qed.

(** ** The log *)

(** The events of thread [i] in a history, and its writes. *)
Definition events_of (i : nat) (h : list label) : list event :=
  omap (fun l => if decide (l.1 = Some i) then Some l.2 else None) h.
Definition written (e : event) : option (list byte) :=
  match e with
  | (Write _ d, _) => Some d
  | _ => None
  end.
Definition writes_of (i : nat) (h : list label) : list (list byte) := omap written (events_of i h).

Definition trace_of (g : global) (i : nat) : list event := default [] (snd <$> threads g !! i).

Lemma gstep_trace g l g' i : gstep g l g' -> trace_of g' i = trace_of g i ++ events_of i [l].
Proof.
  intros Hs. unfold trace_of. destruct Hs as [e g' Hr He|j k t e g' Hp Hr He]; cbn.
  - rewrite app_nil_r. destruct (main_cases _ _ _ He) as (T & _ & _ & _ & [(p & c & _ & _ & _ & -> & _)|(_ & -> & _)]); [|done].
    rewrite lookup_app. destruct (threads g !! i) as [[]|]; [done|]. cbn. rewrite list_lookup_singleton. by case_match.
  - unfold task_effect in He. rewrite Hp in He. cbn in He. destruct (fd_effect _ _ _); [|done].
    destruct (lock_effect _ _ _) as [H|]; [|done]. injection He as <-. cbn [threads].
    rewrite put_lookup by by eapply peek_length. destruct (decide (i = j)) as [->|Hne].
    + rewrite decide_True by done. cbn. unfold peek in Hp. destruct (threads g !! j) as [kt|]; [by simplify_eq|].
      by case_decide; simplify_eq.
    + by rewrite decide_False, app_nil_r by congruence.
Qed.

Lemma gsteps_trace g h g' i : gsteps g h g' -> trace_of g' i = trace_of g i ++ events_of i h.
Proof.
  intros Hs. induction Hs as [g|g l g1 h g2 Hl _ IH]; [by rewrite app_nil_r|].
  rewrite IH, (gstep_trace _ _ _ _ Hl), <- app_assoc. f_equal. symmetry. apply (omap_app _ [l]).
Qed.

Lemma exec_trace h g i k t : exec h g -> threads g !! i = Some (k, t) -> t = events_of i h.
Proof.
  intros He Hi. pose proof (gsteps_trace _ _ _ i He) as Hx. unfold trace_of in Hx at 1. by rewrite Hi in Hx.
Qed.

(** A thread that has made a step is one of the threads. *)
Lemma exec_known h g i e : exec h g -> (Some i, e) ∈ h -> is_Some (threads g !! i).
Proof.
  intros He Hin. destruct (threads g !! i) as [x|] eqn:Hi; [done|].
  pose proof (gsteps_trace _ _ _ i He) as Hx. unfold trace_of in Hx at 1. rewrite Hi in Hx. change (trace_of ginit i) with (@nil event) in Hx. cbn in Hx.
  assert (e ∈ events_of i h) as He'; [|by rewrite <- Hx in He'; apply elem_of_nil in He'].
  apply list_elem_of_omap. exists (Some i, e). side. cbn. by rewrite decide_True.
Qed.

(** A thread's trace is one of the program. *)
Definition programmed (g : global) : Prop :=
  forall i k t, threads g !! i = Some (k, t) -> t = [] \/ task_runs k t.

Lemma gstep_programmed g l g' : gstep g l g' -> programmed g -> programmed g'.
Proof.
  intros Hl Hg i k t Hi. destruct Hl as [e g' Hr He|j k' u e g' Hp Hr He].
  - destruct (main_cases _ _ _ He) as (T & _ & _ & _ & [(p & c & _ & _ & _ & Ht & _)|(_ & Ht & _)]); rewrite Ht in Hi; [|eauto].
    apply lookup_app_Some in Hi as [?|[_ Hi]]; [eauto|]. apply list_lookup_singleton_Some in Hi as [_ Hi]. simplify_eq. auto.
  - unfold task_effect in He. rewrite Hp in He. cbn in He. destruct (fd_effect _ _ _); [|done].
    destruct (lock_effect _ _ _) as [H|]; [|done]. injection He as <-. cbn [threads] in Hi.
    rewrite put_lookup in Hi by by eapply peek_length. case_decide; [simplify_eq; auto|eauto].
Qed.

Lemma exec_programmed h g : exec h g -> programmed g.
Proof.
  intros He. assert (programmed ginit) as H0 by done. revert H0.
  induction He as [|g l g1 h g2 Hl _ IH]; intros Hg; [done|]. apply IH. by eapply gstep_programmed.
Qed.

(** The packets the protocol makes of the chunks of a client. *)
Definition packets (cs : list (list byte)) : list (list byte) := omap packet (session id cs).1.

Lemma seek_no_packet int_of d : omap packet (seek_action int_of d) = [].
Proof. unfold seek_action. by destruct (sscanf_d_d d) as [[]|]. Qed.

Lemma session_packets int_of cs :
  omap packet (session int_of cs).1 = packets cs /\ (session int_of cs).2 = (session id cs).2.
Proof.
  unfold packets. induction cs as [|c cs [IH1 IH2]] using rev_ind; [done|]. rewrite !session_snoc. unfold feed.
  rewrite IH2. repeat case_decide; cbn [fst snd]; by rewrite ?omap_app, ?seek_no_packet, ?app_nil_r, ?IH1.
Qed.

Lemma packets_newline cs : Forall (fun d => newline ∈ d) (packets cs).
Proof.
  unfold packets. induction cs as [|c cs IH] using rev_ind; [done|]. rewrite session_snoc. unfold feed.
  repeat case_decide; cbn [fst snd]; rewrite ?omap_app, ?seek_no_packet, ?app_nil_r; try done.
  apply Forall_app. split; [done|]. by repeat constructor.
Qed.

Lemma actions_written t : omap packet (actions t) = omap written t.
Proof. induction t as [|[[] a] t IH]; cbn; try done. f_equal. apply IH. Qed.

(** Nothing comes after the end. *)
Lemma ended_last cd k t u s q a : crun cd k (t ++ u) = Some s -> (StoreDone q, a) ∈ t -> u = [].
Proof.
  intros Hs (t1 & t2 & ->)%list_elem_of_split. unfold crun in Hs.
  rewrite <- app_assoc, run_from_app in Hs. cbn [app] in Hs. rewrite run_from_cons in Hs.
  destruct (run_from _ _ t1) as [[f r w p v]|]; cbn [mbind option_bind] in Hs; [|by rewrite run_from_None in Hs].
  assert (forall l s', run_from (cstep cd k) (Some (mk_cstate Ended None None false None)) l = Some s' -> l = []) as Hend.
  { intros [|e l] s'; [done|]. rewrite run_from_cons. cbn [mbind option_bind cstep]. by rewrite run_from_None. }
  destruct f; cbn [cstep fst] in Hs; repeat case_decide; try by rewrite run_from_None in Hs.
  all: apply Hend in Hs; by apply app_eq_nil in Hs as [_ ->].
Qed.

(** The writes of a connection thread, and the packets of its client. *)
Lemma thread_packets h g i c t :
  exec h g -> threads g !! i = Some (Conn c, t) ->
  writes_of i h `prefix_of` packets (chunks (events_of i h)) /\
  Forall (fun d => newline ∈ d) (writes_of i h) /\
  (forall p a, (StoreDone p, a) ∈ events_of i h -> ~ connected (events_of i h) ->
     writes_of i h = packets (chunks (events_of i h))).
Proof.
  intros He Hi. pose proof (exec_trace _ _ _ _ _ He Hi) as Ht. unfold writes_of. rewrite <- Ht.
  destruct (exec_programmed _ _ He _ _ _ Hi) as [->|(E & int_of & fuel & r & s' & HE & HM & Hf & Hr & Hp)].
  { split_and!; [by apply prefix_nil|done|]. by intros p a ?%elem_of_nil. }
  destruct (run_completes _ _ _ _ _ _ _ t HM Hf Hr Hp) as (E' & s2 & u & HE' & HM' & Hrun & Hu & Hch & _).
  destruct (connection_run with_device seek_code int_of fuel c [] HM') as (r2 & s3 & Hrun3 & Hfin);
    [apply not_elem_of_empty|done|]. rewrite Hrun in Hrun3. injection Hrun3 as <- <-.
  destruct (connection_disciplined with_device seek_code int_of c fuel _ _ Hrun) as (st & Hst & _).
  destruct (Hfin eq_refl) as (v & b & Hs2 & _ & _ & _ & _ & _ & _ & Hpre & Hall). rewrite Hs2 in Hu, Hst. cbn [trace app] in Hu, Hst.
  assert (chunks v = chunks t) as Hcv.
  { apply (f_equal chunks) in Hu. rewrite !chunks_app, Hch in Hu. by rewrite !app_nil_r in Hu. }
  assert (omap packet (actions v) = omap written t ++ omap written u) as Hav.
  { rewrite <- omap_app, <- Hu, <- actions_written, actions_app. by rewrite app_nil_r. }
  destruct (session_packets int_of (chunks v)) as [Hsp _]. rewrite Hcv in Hsp, Hpre, Hall.
  assert (omap written t `prefix_of` packets (chunks t)) as Hw.
  { destruct Hpre as [w Hw]. apply (f_equal (omap packet)) in Hw. rewrite Hsp, omap_app, Hav in Hw.
    rewrite Hw, <- app_assoc. by eexists. }
  side. split.
  - destruct Hw as [w Hw]. pose proof (packets_newline (chunks t)) as Hn. rewrite Hw in Hn. by apply Forall_app in Hn as [? _].
  - intros p a Hin Hc. rewrite Hu in Hst. pose proof (ended_last _ _ _ _ _ _ _ Hst Hin) as ->.
    rewrite app_nil_r in *. rewrite <- Hsp, <- Hall, Hav; [done|]. intros Hv. apply Hc. rewrite <- Hu, connected_app. by split.
Qed.

(** What the server has stored for a client: in every interleaving and
    at any time, the writes of a connection thread are packets of what its
    client has sent, in order, each with its newline and in one write; and
    all of them, when the client has closed the connection and the thread
    has ended. *)
Theorem log_packets h g i c t :
  exec h g -> threads g !! i = Some (Conn c, t) ->
  writes_of i h `prefix_of` packets (chunks (events_of i h)) /\
  Forall (fun d => newline ∈ d) (writes_of i h) /\
  (forall p a, (StoreDone p, a) ∈ events_of i h -> ~ connected (events_of i h) ->
     writes_of i h = packets (chunks (events_of i h))).
Proof. apply thread_packets. Qed.

(** ** Replaying a history *)

(** The state after an event, apart from the question whether it is one of
    the program. *)
Definition effect (g : global) (l : label) : option global :=
  match l with
  | (None, e) => main_effect g e
  | (Some i, e) => task_effect g i e
  end.
Fixpoint replay (g : global) (h : list label) : option global :=
  match h with
  | [] => Some g
  | l :: h' => g' ← effect g l; replay g' h'
  end.

(** The traces of [g] are prefixes of those of [g']. *)
Definition extends (g g' : global) : Prop :=
  main_trace g `prefix_of` main_trace g' /\
  forall i k t, threads g !! i = Some (k, t) -> exists t', threads g' !! i = Some (k, t') /\ t `prefix_of` t'.

Lemma extends_trans g1 g2 g3 : extends g1 g2 -> extends g2 g3 -> extends g1 g3.
Proof.
  intros [Hm1 Ht1] [Hm2 Ht2]. split; [by trans (main_trace g2)|]. intros i p t Hi.
  destruct (Ht1 i p t Hi) as (t2 & H2 & Hp2). destruct (Ht2 i p t2 H2) as (t3 & H3 & Hp3).
  exists t3. side. by trans t2.
Qed.

Lemma effect_extends g l g' : effect g l = Some g' -> extends g g'.
Proof.
  destruct l as [[i|] e]; cbn [effect]; intros He.
  - unfold task_effect in He. destruct (peek g i) as [[k t]|] eqn:Hp; [|done]. cbn in He.
    destruct (fd_effect _ _ _); [|done]. destruct (lock_effect _ _ _); [|done]. injection He as <-. side.
    intros j q u Hj. cbn [threads]. rewrite put_lookup by by eapply peek_length. case_decide as Hji; [|by exists u].
    subst j. unfold peek in Hp. rewrite Hj in Hp. simplify_eq. exists (t ++ [e]). side. by eexists.
  - destruct (main_cases _ _ _ He) as (T & _ & Hm & _ & Ht). split; [rewrite Hm; by eexists|]. intros j q u Hj. exists u.
    split; [|done]. destruct Ht as [(p & c & _ & _ & _ & -> & _)|(_ & -> & _)]; [by apply lookup_app_l_Some|done].
Qed.

Lemma replay_extends h g g' : replay g h = Some g' -> extends g g'.
Proof.
  revert g. induction h as [|l h IH]; cbn; intros g Hr.
  { simplify_eq. split; [done|]. intros i p t Ht. by exists t. }
  destruct (effect g l) as [g1|] eqn:Hl; [|done]. eapply extends_trans; [by eapply effect_extends|]. by apply IH.
Qed.

(** Every trace is one of the program. *)
Definition runs (g : global) : Prop :=
  main_runs (main_trace g) /\ forall i k t, threads g !! i = Some (k, t) -> task_runs k t.

Lemma runs_extends g g' : extends g g' -> runs g' -> runs g.
Proof.
  intros [Hm Ht] [Rm Rt]. split; [by eapply main_runs_prefix|]. intros i p t Hi.
  destruct (Ht i p t Hi) as (t' & Hi' & Hp). eapply task_runs_prefix; [done|]. by eapply Rt.
Qed.

Lemma effect_gstep g l g' : effect g l = Some g' -> runs g' -> gstep g l g'.
Proof.
  destruct l as [[i|] e]; cbn [effect]; intros Hl [Rm Rt].
  - pose proof Hl as Hl'. unfold task_effect in Hl'. destruct (peek g i) as [[k t]|] eqn:Hp; [|done]. cbn in Hl'.
    destruct (fd_effect _ _ _); [|done]. destruct (lock_effect _ _ _); [|done]. injection Hl' as Hl'.
    eapply task_step; [exact Hp| |done]. apply (Rt i). rewrite <- Hl'. cbn [threads].
    rewrite put_lookup by by eapply peek_length. by rewrite decide_True.
  - apply main_step; [|done]. by destruct (main_cases _ _ _ Hl) as (T & _ & <- & _).
Qed.

(** A history whose traces are runs of the programs is an execution. *)
Lemma replay_gsteps h g g' : replay g h = Some g' -> runs g' -> gsteps g h g'.
Proof.
  revert g. induction h as [|l h IH]; cbn; intros g Hr Rg; [simplify_eq; constructor|].
  destruct (effect g l) as [g1|] eqn:Hl; [|done]. cbn in Hr.
  apply gsteps_cons with g1; [|by apply IH]. eapply effect_gstep; [done|].
  eapply runs_extends; [by eapply replay_extends|done].
Qed.
End theorems.

(** ** Concrete executions *)

Module ThreadsWitness.
Import SimEnv ServerWitness.

(** The environment of a thread whose descriptors are above [base]. *)
Definition high_env (base : Z) (E : env) : env := fun tr c =>
  match c with
  | Open _ _ _ => mk_answer (base + above (fds tr)) []
  | _ => E tr c
  end.

Lemma above_all X x : x ∈ X -> x < above X.
Proof.
  unfold above. revert x. apply (set_fold_ind_L (fun r (X : gset Z) => forall x, x ∈ X -> x < 1 + r)); [set_solver|].
  intros y Y r Hy IH x [->%elem_of_singleton|Hx]%elem_of_union; [lia|]. specialize (IH x Hx). lia.
Qed.

Lemma high_env_ok base E : 0 <= base -> EnvOk E -> EnvOk (high_env base E).
Proof.
  intros Hb HE. split; intros *; cbn; try apply HE.
  - intros _ Hin. apply above_all in Hin. lia.
  - pose proof (above_spec (fds tr)). lia.
Qed.

#[local] Instance high_mutex_ok base E m : MutexOk E m -> MutexOk (high_env base E) m.
Proof. intros HM. split; cbn; apply HM. Qed.

Section code.
Context {B : build}.
(** The environment of a connection thread. *)
Variable client : conn_info -> env.
Context {COk : forall c, EnvOk (client c)} {CM : forall c, MutexOk (client c) (file_mutex c)}.

Definition conn_env (c : conn_info) : env := high_env (100 * clfd c) (client c).
Definition conn_trace (c : conn_info) : list event :=
  match handle_connection (conn_env c) with_device seek_code id 100 c (start []) with
  | Some (_, s) => trace s
  | None => []
  end.
Definition alarm_env : env := high_env 1000 (sim_env [] []).
Definition alarm_trace : list event :=
  match alarm_handler alarm_env with_device info_mutex SIGALRM (bytes_of "timestamp:now") (start []) with
  | Some (_, s) => trace s
  | None => []
  end.
Definition task_trace (k : task) : list event :=
  match k with
  | Conn c => conn_trace c
  | Alarm => alarm_trace
  end.
Definition server_trace (n : nat) (ended : list Z) : list event :=
  match main (server_env n ended) with_device rv main_mutex 3 1 false (mk_server [] 0 ∅) with
  | Some (_, s) => s_trace s
  | None => []
  end.

Lemma held_fds tr : (held tr).1 ⊆ fds tr.
Proof.
  induction tr as [|[c a] tr IH] using rev_ind; [done|]. unfold held. rewrite foldl_app, fds_app. cbn. fold (held tr).
  unfold held_step, fds_step. destruct c; cbn; try done; repeat case_match; cbn; set_solver.
Qed.

#[local] Instance server_accept_ok n ended : AcceptOk (server_env n ended).
Proof. intros tr fd _ Hin. apply held_fds in Hin. by apply above_spec in Hin. Qed.

Definition sound_task (k : task) : bool := match k with Conn c => 0 <=? clfd c | Alarm => true end.

Lemma task_trace_runs k t :
  t `prefix_of` task_trace k -> (length t < 100)%nat -> is_Some (last t) -> sound_task k = true -> task_runs k t.
Proof using COk CM.
  intros Ht Hlen Hl Hk. destruct k as [c|]; cbn [task_trace] in Ht.
  - unfold conn_trace in Ht. cbn in Hk. assert (0 <= 100 * clfd c) as Hb by lia.
    destruct (handle_connection (conn_env c) with_device seek_code id 100 c (start [])) as [[r s]|] eqn:Hr.
    + exists (conn_env c), id, 100%nat, r, s.
      exact (conj (high_env_ok _ _ Hb (COk c)) (conj _ (conj Hlen (conj Hr Ht)))).
    + apply prefix_nil_inv in Ht. subst t. by destruct Hl.
  - unfold alarm_trace in Ht.
    destruct (alarm_handler alarm_env with_device info_mutex SIGALRM (bytes_of "timestamp:now") (start [])) as [[[] s]|] eqn:Hr.
    + exists alarm_env, (bytes_of "timestamp:now"), s.
      exact (conj (high_env_ok 1000 _ ltac:(lia) (sim_env_ok [] [])) (conj _ (conj eq_refl (conj Hr Ht)))).
    + apply prefix_nil_inv in Ht. subst t. by destruct Hl.
Qed.

Lemma server_trace_runs n ended t : t `prefix_of` server_trace n ended -> is_Some (last t) -> main_runs t.
Proof.
  intros Ht Hl. unfold server_trace in Ht.
  destruct (main (server_env n ended) with_device rv main_mutex 3 1 false (mk_server [] 0 ∅)) as [[r s]|] eqn:Hr.
  - exists (server_env n ended), rv, 3%nat, 1, false, 0, r, s. exact (conj _ (conj _ (conj Hr Ht))).
  - apply prefix_nil_inv in Ht. subst t. by destruct Hl.
Qed.

(** The traces of [g] are those of [main], with [n] rounds, and of the
    tasks. *)
Definition from_code (n : nat) (ended : list Z) (g : global) : Prop :=
  main_trace g = take (length (main_trace g)) (server_trace n ended) /\ is_Some (last (main_trace g)) /\
  threads g = (fun x => (x.1, take (length x.2) (task_trace x.1))) <$> threads g /\
  forallb (fun x => (length x.2 <? 100)%nat && sound_task x.1 &&
             match last x.2 with Some _ => true | None => false end) (threads g) = true.

Lemma from_code_runs n ended g : from_code n ended g -> runs g.
Proof using COk CM.
  intros (Hm & Hl & Ht & Hf). split.
  - apply (server_trace_runs n ended); [|done]. rewrite Hm. apply prefix_take.
  - intros i k t Hi. rewrite forallb_forall in Hf.
    specialize (Hf (k, t) (proj1 (list_elem_of_In _ _) (list_elem_of_lookup_2 _ _ _ Hi))). cbn in Hf.
    apply andb_true_iff in Hf as [[Hn Hk]%andb_true_iff Hla]. apply Nat.leb_le in Hn.
    apply task_trace_runs; [|lia|by destruct (last t)|done]. pose proof Hi as Hx.
    rewrite Ht, list_lookup_fmap, Hi in Hx. injection Hx as Hx. rewrite <- Hx. apply prefix_take.
Qed.

Definition by_main (t : list event) : list label := pair None <$> t.
Definition by_thread (i : nat) (t : list event) : list label := pair (Some i) <$> t.
Definition after (h : list label) : global := default ginit (replay ginit h).
End code.

Ltac from_code :=
  split; [vm_compute; reflexivity|split; [vm_compute; eexists; reflexivity|split; vm_compute; reflexivity]].
Ltac replayed client ended :=
  first [apply replay_gsteps|apply effect_gstep];
  [vm_compute; reflexivity|apply (from_code_runs client 2 ended); from_code].

#[export] Instance build0 : build := mk_build false 4096 8192 0 ltac:(done).

(** Clients that send one packet, whose threads find it in the file. *)
Definition packet0 : list byte := bytes_of "hi" ++ [newline].
Definition client0 (c : conn_info) : env := sim_env [packet0] packet0.
Definition trace0 : conn_info -> list event := conn_trace client0.
#[local] Instance client0_ok c : EnvOk (client0 c) := sim_env_ok _ _.
#[local] Instance client0_mutex c : MutexOk (client0 c) (file_mutex c) := sim_mutex_ok _ _ _.

Definition conn1 : conn_info := mk_conn 1 2 4096.
Definition conn1' : conn_info := mk_conn 1 3 4096.
Definition conn2 : conn_info := mk_conn 2 3 4096.

(** The first thread ends, is seen to be done and its node is freed; the
    node of the next thread has the same address. *)
Definition freed_early : list label :=
  by_main (take 13 (server_trace 2 [1])) ++ by_thread 0 (trace0 conn1) ++
  by_main (take 2 (drop 13 (server_trace 2 [1]))).
Definition freed_late : list label :=
  by_main (take 5 (drop 16 (server_trace 2 [1]))) ++ by_thread 1 (trace0 conn1').
Definition the_free : label := (None, (Free 1, mk_answer 0 [])).

Lemma freed_node_unused_witness :
  exec freed_early (after freed_early) /\
  forall e, (Some 0%nat, e) ∉ freed_late.
Proof.
  assert (exec freed_early (after freed_early)) as He by replayed client0 [1].
  split; [exact He|]. intros e.
  apply (freed_node_unused freed_early (after freed_early) conn1 (mk_answer 0 []) (after (freed_early ++ [the_free]))
           freed_late (after (freed_early ++ [the_free] ++ freed_late)) 0 (trace0 conn1)).
  - exact He.
  - vm_compute. reflexivity.
  - replayed client0 [1].
  - replayed client0 [1].
Defined.

Lemma log_packets_witness :
  writes_of 0 freed_early = [packet0] /\
  writes_of 0 freed_early `prefix_of` packets (chunks (events_of 0 freed_early)) /\
  Forall (fun d => newline ∈ d) (writes_of 0 freed_early) /\
  (forall p a, (StoreDone p, a) ∈ events_of 0 freed_early -> ~ connected (events_of 0 freed_early) ->
   writes_of 0 freed_early = packets (chunks (events_of 0 freed_early))).
Proof.
  split; [vm_compute; reflexivity|].
  apply (log_packets freed_early (after freed_early) 0 conn1 (trace0 conn1)).
  - replayed client0 [1].
  - vm_compute. reflexivity.
Defined.

(** Two threads at once, up to the point where both want the mutex; the
    first gets it, the alarm handler runs, and the first writes. *)
Definition both : list label :=
  by_main (take 21 (server_trace 2 [])) ++ by_thread 0 (take 3 (trace0 conn1)) ++
  by_thread 1 (take 3 (trace0 conn2)).
Definition the_lock : label := (Some 0%nat, (Lock 4096, mk_answer 0 [])).
Definition meanwhile : list label :=
  by_thread 2 alarm_trace ++ by_thread 0 (take 1 (drop 4 (trace0 conn1))) ++
  by_main (take 1 (drop 21 (server_trace 2 []))).
Definition the_write : label := (Some 0%nat, (Write 402 packet0, mk_answer 3 [])).
Definition between : global := after (both ++ [the_lock] ++ meanwhile).

Lemma node_outlives_thread_witness :
  1 ∈ live (main_trace (after both)) /\
  forall j c' t' e' g'', threads (after both) !! j = Some (Conn c', t') -> conn_addr c' = 1 ->
    gstep (after both) (Some j, e') g'' -> j = 0%nat.
Proof.
  apply (node_outlives_thread both (after both) 0 conn1 (take 3 (trace0 conn1)) (Lock 4096, mk_answer 0 [])
           (after (both ++ [the_lock]))).
  - replayed client0 (@nil Z).
  - vm_compute. reflexivity.
  - replayed client0 (@nil Z).
Defined.

Lemma writes_exclusive_witness :
  gstep between the_write (after (both ++ [the_lock] ++ meanwhile ++ [the_write])) /\
  forall j k t fd d b g4, threads between !! j = Some (k, t) -> r_mutex (task_role k) = 4096 ->
    gstep between (Some j, (Write fd d, b)) g4 -> j = 0%nat.
Proof.
  split; [replayed client0 (@nil Z)|]. intros j k t fd d b g4.
  apply (writes_exclusive (B := build0) both (after both) 4096 0 (mk_answer 0 []) (after (both ++ [the_lock]))
    meanwhile between j k t fd d b g4 eq_refl).
  - replayed client0 (@nil Z).
  - replayed client0 (@nil Z).
  - replayed client0 (@nil Z).
  - intros a. vm_compute. intros Ha. repeat (apply elem_of_cons in Ha as [Ha|Ha]; [by injection Ha|]).
    by apply elem_of_nil in Ha.
Defined.

Lemma descriptors_private_witness : table between !! 402 = Some (Some 0%nat).
Proof.
  apply (descriptors_private (both ++ [the_lock] ++ meanwhile) between (Some 0%nat) (Write 402 packet0, mk_answer 3 [])
    (after (both ++ [the_lock] ++ meanwhile ++ [the_write]))).
  - replayed client0 (@nil Z).
  - replayed client0 (@nil Z).
  - reflexivity.
Defined.
End ThreadsWitness.
