(* ===== verification/SharedFile.v ===== *)
(** * The file the threads share

    The connection threads and the alarm handler work on one file, which is
    any [Storage]: the regular file of one build, the character device of
    the other.  [serves] is the interleaving of [Interleaving] with the file
    as part of the shared state: every read, write and ioctl of a thread is
    answered by the file as it is at that moment, with whatever the other
    threads have done to it.

    [shared] is the specification: one value of the contents, and for each
    thread the position from which it reads; a call of a thread is one step
    on it ([spec_step]).  [shared_file] proves that the interleaving
    implements it, and [shared_device] says what it means for the driver.
    [RegularFile] has what it means for the other build.

    The executions end where the main thread removes the file. *)

From S2P Require Import Prelude CircularBuffer KernelApi CharDriver CharDriverSpec FileInterface.
From S2P Require Import Posix Queue Handler HandlerSpec HandlerTheorems Server ServerSpec ServerTheorems.
From S2P Require Import Conversation DeviceFile Continuation Discipline Interleaving Threads.

(** ** The system with its file *)

Section system.
Context {B : build} {St : Type} {F : Storage St}.

(** The file answers the call; it is still there. *)
Definition answers (s : St) (e : event) : Prop :=
  match e.1 with
  | Read fd n => e.2 = (do_read fd n s).1
  | Write fd d => e.2 = (do_write fd d s).1
  | Ioctl fd r wc wo => e.2 = (do_ioctl fd r wc wo s).1
  | Unlink _ => False
  | _ => True
  end.

Inductive serves (s0 : St) : list label -> global -> St -> Prop :=
| serves_nil : serves s0 [] ginit s0
| serves_snoc h g s l g' :
    serves s0 h g s -> gstep g l g' -> answers s l.2 -> serves s0 (h ++ [l]) g' (file_step s l.2).

Lemma gsteps_snoc g h g1 l g2 : gsteps g h g1 -> gstep g1 l g2 -> gsteps g (h ++ [l]) g2.
Proof. intros Hs Hl. eapply gsteps_app; [done|]. by eapply gsteps_cons; [|constructor]. Qed.

Lemma serves_exec s0 h g s : serves s0 h g s -> exec h g.
Proof. intros Hs. induction Hs; [constructor|]. by eapply gsteps_snoc. Qed.

(** ** The specification *)

(** What a read at a place with the bytes [l] ahead of it may answer. *)
Definition read_answer (n : Z) (a : answer) (l : list byte) : Prop :=
  0 <= rv a <= n /\ (rv a = 0 <-> l = []) /\ rv a <= zlen l /\
  (0 < rv a -> rdata a = take (Z.to_nat (rv a)) l).
#[export] Instance read_answer_dec n a l : Decision (read_answer n a l).
Proof. unfold read_answer. apply _. Defined.

(** The contents, and the position of each thread that reads. *)
Record shared : Type := mk_shared {
  contents : image;
  positions : gmap nat nat;
}.

(** A call of a thread, as one step; [None] when it is answered wrongly. *)
Definition spec_step (x : shared) (l : label) : option shared :=
  let 'mk_shared im ps := x in
  match l.1 with
  | None => Some x
  | Some i =>
      match l.2.1 with
      | Open _ flags _ =>
          if (0 <=? rv l.2.2) && (flags =? O_RDONLY) then Some (mk_shared im (<[i := 0%nat]> ps)) else Some x
      | Read _ n =>
          pos ← ps !! i;
          if decide (read_answer n l.2.2 (drop pos (image_bytes im)))
          then Some (mk_shared im (<[i := (pos + Z.to_nat (rv l.2.2))%nat]> ps)) else None
      | Write _ d =>
          match image_append d im with
          | Some im2 => if rv l.2.2 =? -1 then None else Some (mk_shared im2 ps)
          | None => if rv l.2.2 =? -1 then Some x else None
          end
      | Ioctl _ _ wc wo =>
          match image_seek wc wo im with
          | Some p => if rv l.2.2 =? 0 then Some (mk_shared im (<[i := p]> ps)) else None
          | None => if rv l.2.2 =? 0 then None else Some x
          end
      | _ => Some x
      end
  end.
Definition spec_run (x : shared) (h : list label) : option shared :=
  foldl (fun o l => x ← o; spec_step x l) (Some x) h.

Lemma spec_run_snoc x h l : spec_run x (h ++ [l]) = spec_run x h ≫= fun x => spec_step x l.
Proof. unfold spec_run. by rewrite foldl_app. Qed.

(** The contents are what the writes make of them, in their order; one that
    is refused changes nothing. *)
Definition stored (h : list label) : list (list byte) := omap (fun l => l.1 ≫= fun _ => written l.2) h.
Definition append_all (i : image) (ds : list (list byte)) : image :=
  foldl (fun i d => default i (image_append d i)) i ds.

Lemma spec_contents x h y : spec_run x h = Some y -> contents y = append_all (contents x) (stored h).
Proof.
  revert y. induction h as [|l h IH] using rev_ind; intros y; [by intros [= <-]|].
  rewrite spec_run_snoc. destruct (spec_run x h) as [z|]; [|done]. specialize (IH z eq_refl). cbn [mbind option_bind].
  unfold stored, append_all. rewrite omap_app, foldl_app. fold (stored h). fold (append_all (contents x) (stored h)).
  rewrite <- IH. clear IH. destruct z as [im ps], l as [[i|] [c a]]; cbn [contents fst]; [|by intros [= <-]].
  destruct c; cbn; try (by intros [= <-]).
  - case_match; intros; by simplify_eq.
  - destruct (ps !! i); cbn; [|done]. case_decide; intros; by simplify_eq.
  - destruct (image_append _ im); cbn; case_match; intros; by simplify_eq.
  - destruct (image_seek _ _ im); case_match; intros; by simplify_eq.
Qed.

(** ** The implementation *)

(** The descriptor of the file that an event is about. *)
Definition touched (e : event) : option Z :=
  match e.1 with
  | Open _ _ _ => if rv e.2 <? 0 then None else Some (rv e.2)
  | Close fd | Read fd _ | Write fd _ | Ioctl fd _ _ _ => Some fd
  | _ => None
  end.

Lemma file_step_other s e fd : touched e <> Some fd ->
  (forall n, offset_of s fd n -> offset_of (file_step s e) fd n) /\ (is_open s fd -> is_open (file_step s e) fd).
Proof.
  intros Ht. destruct e as [[] a]; unfold file_step, touched in *; cbn [fst snd] in *; try done;
    try (case_match; [done|]); match type of Ht with Some ?x <> _ => assert (fd <> x) by congruence end; split; intros.
  all: eauto using open_other, close_other, do_read_other, do_write_other, do_ioctl_other,
    open_stays, close_stays, read_stays, write_stays, ioctl_stays.
Qed.

(** The descriptors of a thread in state [c] are open, and its position is
    the one of the specification. *)
Definition attached (s : St) (pos : option nat) (c : cstate) : Prop :=
  (forall fd, reader c = Some fd -> exists p, pos = Some p /\ offset_of s fd p) /\
  (forall fd, writer c = Some fd -> is_open s fd).

Lemma attached_other s e pos c :
  (forall fd, reader c = Some fd \/ writer c = Some fd -> touched e <> Some fd) ->
  attached s pos c -> attached (file_step s e) pos c.
Proof.
  intros Ht [Hr Hw]. split; intros fd Hfd; destruct (file_step_other s e fd) as [Ho Hop]; auto.
  destruct (Hr fd Hfd) as (p & Hp & Hpo). eauto.
Qed.

(** What the discipline says of a call on the file. *)
Lemma cstep_file k c e c' : cstep with_device (task_role k) c e = Some c' -> apart k c ->
  let same := reader c' = reader c /\ writer c' = writer c in
  match e.1 with
  | Open _ flags _ =>
      if rv e.2 <? 0 then same
      else if flags =? O_RDONLY then writer c' = None /\ reader c' = Some (rv e.2)
      else flags = APPENDING /\ reader c' = reader c /\ reader c <> Some (rv e.2) /\ writer c' = Some (rv e.2)
  | Read fd n => same /\ reader c = Some fd /\ writer c <> Some fd /\ n = BUFFER_SIZE
  | Write fd d => same /\ writer c = Some fd /\ reader c <> Some fd /\ newline ∈ d /\ zlen d < 2 ^ 63
  | Ioctl fd r wc wo =>
      same /\ reader c = Some fd /\ writer c <> Some fd /\ r = seek_code /\ 0 <= wc < 2 ^ 32 /\ 0 <= wo < 2 ^ 32
  | Close fd => forall x, (reader c' = Some x -> reader c = Some x /\ x <> fd) /\
      (writer c' = Some x -> writer c = Some x /\ x <> fd)
  | _ => same
  end.
Proof.
  intros Hs Hap same. unfold same, apart in *. destruct c as [f r w p u], e as [sc a]. cbn [fst snd] in *.
  destruct f, sc; simpl in Hs; try discriminate Hs; try (injection Hs as <-; by split).
  all: repeat (case_decide || case_match); try discriminate Hs; injection Hs as <-; cbn [reader writer] in *;
    destruct_and?; try by split.
  all: try (subst; destruct (Hap fd) as [Hrw Hp]; split_and!; try done; (try by intros ->; destruct Hrw); destruct k; naive_solver).
  all: intros x; destruct (Hap x) as [Hrw Hp]; split; intros Hx; (split; [done|intros ->]); naive_solver.
Qed.

(** A thread opens the file for reading before it has read anything. *)
Lemma first_open k c path mode a c' : cstep with_device k c (Open path O_RDONLY mode, a) = Some c' -> 0 <= rv a ->
  reader c = None /\ ph c = Idle.
Proof.
  intros Hs Ha. destruct c as [f r w p u]. destruct f; simpl in Hs; try done; repeat (case_decide || case_match); try done;
    destruct_and?; try lia; done.
Qed.

Lemma attached_eq s pos c c' : reader c' = reader c -> writer c' = writer c -> attached s pos c -> attached s pos c'.
Proof. intros Hr Hw. unfold attached. by rewrite Hr, Hw. Qed.

(** A call of thread [i], in the file and in the specification. *)
Definition matched (s : St) (x : shared) (i : nat) (e : event) (c' : cstate) : Prop :=
  exists x', spec_step x (Some i, e) = Some x' /\ keeps (file_step s e) (contents x') /\
    attached (file_step s e) (positions x' !! i) c' /\ forall j, j <> i -> positions x' !! j = positions x !! j.

Section calls.
Variables (k : task) (s : St) (im : image) (ps : gmap nat nat) (i : nat) (c c' : cstate) (a : answer).
Hypotheses (Hap : apart k c) (Hk : keeps s im) (Hat : attached s (ps !! i) c).
#[local] Abbreviation moves_on sc := (cstep with_device (task_role k) c (sc, a) = Some c').
#[local] Abbreviation matches sc := (matched s (mk_shared im ps) i (sc, a) c').

(** The file is not concerned. *)
Lemma idle_step sc : spec_step (mk_shared im ps) (Some i, (sc, a)) = Some (mk_shared im ps) -> file_step s (sc, a) = s ->
  reader c' = reader c /\ writer c' = writer c -> matches sc.
Proof using Hk Hat.
  intros Hsp Hs [Hr Hw]. exists (mk_shared im ps). rewrite Hs. split_and!; try done. by apply (attached_eq _ _ c).
Qed.

Lemma open_step path flags mode : moves_on (Open path flags mode) -> matches (Open path flags mode).
Proof using Hap Hk Hat.
  intros Hf. apply cstep_file in Hf; [|done]. cbn [fst snd] in Hf. destruct (Z.ltb_spec (rv a) 0) as [Hn|Hn].
  { apply idle_step; unfold file_step; cbn; [by rewrite (proj2 (Z.leb_gt _ _))|by rewrite (proj2 (Z.ltb_lt _ _))|done]. }
  unfold matched, file_step. cbn [spec_step fst snd]. rewrite (proj2 (Z.ltb_ge _ _)), (proj2 (Z.leb_le _ _)) by done.
  destruct (flags =? O_RDONLY); cbn [andb]; eexists; (split; [done|]); cbn [contents positions]; (split; [by apply open_keeps|]).
  - destruct Hf as [Hw Hr]. split; [|intros j Hj; by rewrite lookup_insert_ne].
    split; rewrite ?Hr, ?Hw; [|done]. intros fd [= <-]. exists 0%nat. rewrite lookup_insert_eq. side. apply open_offset.
  - destruct Hf as (_ & Hr & Hne & Hw). split; [|done]. destruct Hat as [Hat1 Hat2]. split; rewrite ?Hr, ?Hw.
    + intros fd Hfd. destruct (Hat1 fd Hfd) as (p & Hp & Ho). exists p. side. apply open_other; [congruence|done].
    + intros fd [= <-]. eapply offset_open, open_offset.
Qed.

Lemma read_step fd n : moves_on (Read fd n) -> answers s (Read fd n, a) -> matches (Read fd n).
Proof using Hap Hk Hat.
  intros Hf Ha. apply cstep_file in Hf as ([Hr' Hw'] & Hr & Hw & ->); [|done]. cbn in Ha.
  destruct (proj1 Hat fd Hr) as (p & Hp & Ho). unfold matched, file_step. cbn [spec_step fst snd]. rewrite Hp. cbn [mbind option_bind].
  destruct (do_read_ok fd BUFFER_SIZE s im p) as (H1 & H2 & H3 & H4 & H5 & H6); [done..|]. rewrite <- Ha in *.
  rewrite decide_True by exact (conj H1 (conj H2 (conj H3 H4))). eexists. split; [done|]. cbn [contents positions]. side.
  split; [|intros j Hj; by rewrite lookup_insert_ne]. split; rewrite ?Hr', ?Hw'; intros fd' Hfd.
  - rewrite Hr in Hfd. injection Hfd as <-. eexists. rewrite lookup_insert_eq. by split.
  - apply read_stays; [congruence|]. by apply Hat.
Qed.

Lemma write_step fd d : moves_on (Write fd d) -> answers s (Write fd d, a) -> matches (Write fd d).
Proof using Hap Hk Hat.
  intros Hf Ha. apply cstep_file in Hf as ([Hr' Hw'] & Hw & Hr & Hnl & Hlen); [|done]. cbn in Ha.
  pose proof (do_write_ok fd d s im Hnl Hlen Hk (proj2 Hat fd Hw)) as Hwr. rewrite <- Ha in Hwr.
  assert (attached (do_write fd d s).2 (ps !! i) c') as Hat'.
  { apply (attached_eq _ _ c); [done..|]. split; intros fd' Hfd.
    - destruct (proj1 Hat fd' Hfd) as (p & Hp & Ho). exists p. side. apply do_write_other; [congruence|done].
    - apply write_stays. by apply Hat. }
  unfold matched, file_step. cbn [spec_step fst snd].
  destruct (image_append d im) as [im2|]; destruct Hwr as [Hrv Hk']; eexists; split;
    [by rewrite (proj2 (Z.eqb_neq _ _) Hrv)|done|by rewrite Hrv|done].
Qed.

Lemma close_step fd : moves_on (Close fd) -> matches (Close fd).
Proof using Hap Hk Hat.
  intros Hf. apply cstep_file in Hf; [|done]. cbn [fst] in Hf. exists (mk_shared im ps). unfold file_step. cbn.
  split_and!; try done; [by apply close_keeps|]. split; intros x Hx.
  - destruct (proj1 (Hf x) Hx) as [Hr Hne]. destruct (proj1 Hat x Hr) as (p & Hp & Ho). exists p. side. by apply close_other.
  - destruct (proj2 (Hf x) Hx) as [Hw Hne]. apply close_stays; [done|]. by apply Hat.
Qed.

Lemma ioctl_step fd r wc wo : seek_code = seek_request ->
  moves_on (Ioctl fd r wc wo) -> answers s (Ioctl fd r wc wo, a) -> matches (Ioctl fd r wc wo).
Proof using Hap Hk Hat.
  intros Hseek Hf Ha. apply cstep_file in Hf as ([Hr' Hw'] & Hr & Hw & -> & Hwc & Hwo); [|done]. cbn in Ha. rewrite Hseek in *.
  destruct (proj1 Hat fd Hr) as (p & Hp & Ho).
  destruct (do_seek_ok fd _ _ s im p Hwc Hwo Hk Ho) as [Hk' Hsk]. rewrite <- Ha in Hsk.
  unfold matched, file_step. cbn [spec_step fst snd]. set (s' := (do_ioctl _ _ _ _ _).2) in *.
  assert (forall q, offset_of s' fd q -> attached s' (Some q) c') as Hat'.
  { intros q Hq. split; rewrite ?Hr', ?Hw'; intros fd' Hfd.
    - rewrite Hr in Hfd. injection Hfd as <-. by exists q.
    - apply ioctl_stays; [congruence|]. by apply Hat. }
  destruct (image_seek _ _ im) as [q|]; destruct Hsk as [Hrv Hq].
  - rewrite Hrv. eexists. split; [done|]. cbn [contents positions]. side. rewrite lookup_insert_eq. split; [by apply Hat'|].
    intros j Hj. by rewrite lookup_insert_ne.
  - rewrite (proj2 (Z.eqb_neq _ _) Hrv). eexists. split; [done|]. cbn [contents positions]. side. rewrite Hp. by split; [apply Hat'|].
Qed.
End calls.

Lemma own_step k s x i c e c' : seek_code = seek_request ->
  cstep with_device (task_role k) c e = Some c' -> apart k c -> answers s e ->
  keeps s (contents x) -> attached s (positions x !! i) c -> matched s x i e c'.
Proof.
  intros Hseek Hs Hap Ha Hk Hat. destruct x as [im ps], e as [sc a]. cbn [contents positions] in *.
  destruct sc; eauto using open_step, read_step, write_step, close_step, ioctl_step.
  all: apply (idle_step _ _ _ _ c); try done; apply (cstep_file _ _ _ _ Hs Hap).
Qed.

(** A step of the main thread leaves the file alone; it closes sockets. *)
Lemma main_file st e st' s im : mstep st e = Some st' -> keeps s im ->
  keeps (file_step s e) im /\ (forall fd, touched e = Some fd -> fd ∈ (sockets st).1).
Proof.
  intros Hm Hk. destruct e as [sc a]. unfold mstep, file_step, touched in *. cbn [fst snd] in *. destruct sc; try done.
  case_decide; [|done]. split; [by apply close_keeps|]. by intros ? [= <-].
Qed.

(** The descriptors another thread touches are not those of thread [j]. *)
Lemma touched_apart g st i k t c e c' g' fd j k' cj :
  ginv g st -> peek g i = Some (k, t) -> crun with_device (task_role k) t = Some c ->
  cstep with_device (task_role k) c e = Some c' -> task_effect g i e = Some g' ->
  thread_in g j k' cj -> j <> i -> cfds k' cj fd -> touched e <> Some fd.
Proof.
  intros HI Hp Hc Hs He Hj Hne Hfd Ht. destruct (peek_state _ _ _ _ _ _ HI Hp Hc) as (HT & Hap & _).
  assert (table g !! fd = Some (Some j)) as Htab by (apply (gi_table _ _ HI); by exists k', cj).
  unfold task_effect in He. rewrite Hp in He. cbn in He. destruct (fd_effect _ _ _) eqn:Hfe; [|done].
  assert (used_fd e = Some fd -> False) as Hno.
  { intros Hu. pose proof (proj2 (HT fd) (cstep_used _ _ _ _ _ Hs Hu)). congruence. }
  destruct e as [sc a]. unfold touched, fd_effect in *. cbn [fst snd] in *. destruct sc; try done; try by apply Hno.
  destruct (rv a <? 0); [done|]. injection Ht as Heq. by rewrite Heq, Htab in Hfe.
Qed.

Lemma serves_inv s0 i0 h g s : seek_code = seek_request -> serves s0 h g s -> keeps s0 i0 ->
  exists x, spec_run (mk_shared i0 ∅) h = Some x /\ keeps s (contents x) /\
    forall j k c, thread_in g j k c -> attached s (positions x !! j) c.
Proof.
  intros Hseek Hs Hk. induction Hs as [|h g s l g' Hs IH Hl Ha].
  { exists (mk_shared i0 ∅). side. side. by intros j k c (t & Ht & _). }
  destruct IH as (x & Hx & Hkx & Hat). destruct (exec_inv _ _ (serves_exec _ _ _ _ Hs)) as [st HI].
  rewrite spec_run_snoc, Hx. cbn [mbind option_bind].
  destruct Hl as [e g' Hr He|i k t e g' Hp Hr He]; cbn [snd] in *.
  - destruct (ginv_main _ _ _ _ HI Hr He) as (st' & Hm & _).
    destruct (main_file _ _ _ s (contents x) Hm Hkx) as [Hk' Hto]. exists x. split; [by destruct x|]. side.
    intros j k c [Hj|(_ & c0 & _ & _ & _ & _ & -> & ->)]%(main_threads _ _ _ _ _ _ He); [|by split].
    apply attached_other; [|by eapply Hat]. intros fd Hfd Ht. apply Hto, (gi_table _ _ HI fd None) in Ht.
    assert (table g !! fd = Some (Some j)); [|congruence]. apply (gi_table _ _ HI). exists k, c. split; [done|].
    unfold cfds. tauto.
  - apply task_automaton in Hr as (c & c' & Hc & Hst & Hc'). destruct (peek_state _ _ _ _ _ _ HI Hp Hc) as (_ & Hap & _).
    assert (attached s (positions x !! i) c) as Hati.
    { unfold peek in Hp. destruct (threads g !! i) as [kt|] eqn:Hi; [simplify_eq; eapply Hat; by exists t|].
      case_decide; [|done]. injection Hp as <- <-. injection Hc as <-. by split. }
    destruct (own_step _ _ _ _ _ _ _ Hseek Hst Hap Ha Hkx Hati) as (x' & Hx' & Hkx' & Hat' & Hpos). exists x'. side. side.
    intros j k' cj [[Hj Hin]|(-> & -> & ->)]%(task_threads _ _ _ _ _ _ _ _ _ _ Hp Hc' He); [|done].
    rewrite Hpos by done. apply attached_other; [|by eapply Hat]. intros fd Hfd.
    eapply touched_apart; [done..|]. unfold cfds. tauto.
Qed.

(** C7. One file, many threads: in every interleaving the threads work on
    the file as on one value, each call as one step, whatever the others do
    in between.  A read returns bytes that follow the thread's own position
    in the contents of that moment, and none only at their end; a seek moves
    no other thread; and the contents are those of the beginning with the
    writes appended in the order in which they happened.  This holds of
    every [Storage], so of a regular file on which nothing fails and of the
    device. *)
Theorem shared_file s0 i0 h g s :
  seek_code = seek_request -> serves s0 h g s -> keeps s0 i0 ->
  exists x, spec_run (mk_shared i0 ∅) h = Some x /\ keeps s (contents x) /\
    contents x = append_all i0 (stored h).
Proof.
  intros Hseek Hs Hk. destruct (serves_inv _ _ _ _ _ Hseek Hs Hk) as (x & Hx & Hkx & _). exists x. side. side.
  by apply (spec_contents _ _ _ Hx).
Qed.
End system.

(** ** The storage of the build without the device

    A regular file on which nothing fails. *)

(** The file of the build, which refuses its seek commands. *)
#[export] Instance build_disk {B : build} : Storage disk := disk_storage seek_code.

(** ** The device *)

Section device.
Context {B : build} {K : Kernel} {KOk : KernelOk K} {KQ : QuietKernel K} {KW : WritingKernel K}.

Lemma ring_append_all ds a out :
  pending a = [] -> (length (cmds a) <= CAP)%nat -> Forall (fun d => zlen d <= KMALLOC_MAX_SIZE) ds ->
  ring_dev (append_all (F := device_storage) (mk_ring a out) ds) = mk_adev (lastn CAP (cmds a ++ ds)) [].
Proof.
  intros Hp Hl Hds. revert a out Hp Hl. induction Hds as [|d ds Hd _ IH]; intros [cs pd] out Hp Hl; cbn in Hp, Hl; subst pd.
  { rewrite app_nil_r, lastn_all by done. done. }
  set (i := mk_ring _ _). assert (exists out', ring_append d i = Some (mk_ring (mk_adev (Fifo.push CAP cs d) []) out')) as [out' Hr].
  { unfold ring_append. rewrite decide_True by (unfold fits; cbn; lia). by eexists. }
  assert (append_all (F := device_storage) i (d :: ds) = append_all (F := device_storage) (default i (ring_append d i)) ds) as -> by done.
  rewrite Hr. cbn. rewrite IH; cbn [cmds pending]; [|done|unfold Fifo.push; rewrite lastn_length; lia].
  by rewrite push_all_step.
Qed.

(** C10. The server and the driver, with all threads: on a device without
    an unfinished command and in a kernel in which no wait for the lock is
    interrupted and no allocation or copy fails ([calm]), when every write
    fits in a block, the device holds the last ten of the commands it held
    and of the writes of all threads, in the order in which they happened. *)
Theorem shared_device w a h g s :
  seek_code = ServerIoctl.AESDCHAR_IOCSEEKTO -> serves (mk_vfs w ∅) h g s ->
  device_rep w a -> calm (kern w) -> pending a = [] ->
  Forall (fun d => zlen d <= KMALLOC_MAX_SIZE) (stored h) ->
  device_rep (v_world s) (mk_adev (lastn CAP (cmds a ++ stored h)) []).
Proof.
  intros Hseek Hs Hd Hc Hp Hfit. set (i0 := mk_ring a (out_offs (buffer (aesd_device w)))).
  destruct (serves_inv (F := device_storage) _ i0 _ _ _ Hseek Hs) as (x & Hx & [Hdev _] & _); [done|].
  rewrite (spec_contents _ _ _ Hx) in Hdev. cbn [contents] in Hdev. unfold i0 in Hdev. rewrite ring_append_all in Hdev; try done.
  pose proof (dev_rep _ _ Hd) as [Hbr _].
  rewrite <- (Forall2_length _ _ _ (buf_holds _ _ _ Hbr)). apply (contents_le_cap _ (buf_wf _ _ _ Hbr)).
Qed.
End device.

(** ** Concrete executions *)

Section consistent.
Context {B : build} {St : Type} {F : Storage St}.

(** The file gives the answers of a history. *)
Fixpoint consistent (s : St) (h : list label) : Prop :=
  match h with
  | [] => True
  | l :: h => answers s l.2 /\ consistent (file_step s l.2) h
  end.

Lemma gsteps_serves s0 h1 g1 s1 h2 g2 : serves s0 h1 g1 s1 -> gsteps g1 h2 g2 -> consistent s1 h2 ->
  serves s0 (h1 ++ h2) g2 (file_after s1 (snd <$> h2)).
Proof.
  intros Hs Hg. revert h1 s1 Hs. induction Hg as [g|g l g1 h g2 Hl _ IH]; intros h1 s1 Hs Hc.
  - by rewrite app_nil_r.
  - destruct Hc as [Ha Hc]. change (l :: h) with ([l] ++ h). rewrite app_assoc. apply IH; [by eapply serves_snoc|done].
Qed.

Lemma replay_serves s0 h g : replay ginit h = Some g -> runs g -> consistent s0 h ->
  serves s0 h g (file_after s0 (snd <$> h)).
Proof.
  intros Hr Rg Hc. apply (gsteps_serves s0 [] ginit s0 h g); [constructor|by apply replay_gsteps|done].
Qed.
End consistent.

Module SharedFileWitness.
Import SimEnv ServerWitness ThreadsWitness.

(** A file with a line in it; two clients and the alarm handler append to
    it, and then both clients are sent all of it. *)
Definition disk0 : disk := mk_disk (bytes_of "0" ++ [newline]) ∅.
Definition log0 : list byte :=
  disk_bytes disk0 ++ packet0 ++ bytes_of "timestamp:now" ++ [newline] ++ packet0.
Definition client1 (c : conn_info) : env := sim_env [packet0] log0.
#[local] Instance client1_ok c : EnvOk (client1 c) := sim_env_ok _ _.
#[local] Instance client1_mutex c : MutexOk (client1 c) (file_mutex c) := sim_mutex_ok _ _ _.
Definition trace1 : conn_info -> list event := conn_trace client1.

Definition appended : list label :=
  by_main (take 21 (server_trace 2 [])) ++ by_thread 0 (take 8 (trace1 conn1)) ++
  by_thread 2 alarm_trace ++ by_thread 1 (take 8 (trace1 conn2)).
Definition echoed : list label :=
  appended ++ by_thread 0 (take 2 (drop 8 (trace1 conn1))) ++ by_thread 1 (drop 8 (trace1 conn2)) ++
  by_thread 0 (drop 10 (trace1 conn1)).

Lemma echoed_serves : serves disk0 echoed (after echoed) (file_after disk0 (snd <$> echoed)).
Proof.
  apply replay_serves; [vm_compute; reflexivity|apply (from_code_runs client1 2 []); from_code|].
  vm_compute. repeat split; reflexivity.
Qed.

Lemma shared_file_witness :
  exists x, spec_run (mk_shared (disk_bytes disk0) ∅) echoed = Some x /\
    keeps (file_after disk0 (snd <$> echoed)) (contents x) /\
    contents x = append_all (disk_bytes disk0) (stored echoed).
Proof.
  apply (shared_file (F := build_disk) disk0 (disk_bytes disk0) echoed (after echoed) (file_after disk0 (snd <$> echoed))).
  - reflexivity.
  - apply echoed_serves.
  - reflexivity.
Defined.

(** The device with two commands: the second client's packet is written
    between the first client's open and its write. *)
Import SimKernel FileWitness DeviceFileWitness.
Definition build1 : build := mk_build true 4096 8192 ServerIoctl.AESDCHAR_IOCSEEKTO ltac:(done).
#[local] Existing Instance build1 | 0.
Definition other0 : list byte := bytes_of "two" ++ [newline].
Definition client2 (c : conn_info) : env :=
  storage_env (mk_vfs dev2 ∅) [if clfd c =? 2 then packet0 else other0].
#[local] Instance client2_ok c : EnvOk (client2 c) := storage_env_ok _ _.
#[local] Instance client2_mutex c : MutexOk (client2 c) (file_mutex c).
Proof. by split. Qed.
Definition trace2 : conn_info -> list event := conn_trace client2.

Definition on_device : list label :=
  by_main (take 16 (server_trace 2 [])) ++ by_thread 0 (take 4 (trace2 (mk_conn 1 2 NULL))) ++
  by_thread 1 (take 6 (trace2 (mk_conn 2 3 NULL))) ++ by_thread 0 (take 2 (drop 4 (trace2 (mk_conn 1 2 NULL)))).

Lemma on_device_serves :
  serves (mk_vfs dev2 ∅) on_device (after on_device) (file_after (mk_vfs dev2 ∅) (snd <$> on_device)).
Proof.
  apply replay_serves; [vm_compute; reflexivity|apply (from_code_runs client2 2 []); from_code|].
  vm_compute. repeat split; reflexivity.
Qed.

Lemma shared_device_witness :
  stored on_device = [other0; packet0] /\
  device_rep (v_world (file_after (mk_vfs dev2 ∅) (snd <$> on_device)))
    (mk_adev (lastn CAP (cmds adev2 ++ stored on_device)) []).
Proof.
  split; [vm_compute; reflexivity|].
  apply (shared_device dev2 adev2 on_device (after on_device)).
  - reflexivity.
  - apply on_device_serves.
  - apply dev2_rep.
  - vm_compute. reflexivity.
  - reflexivity.
  - apply (bool_decide_unpack _). vm_compute. exact I.
Defined.
End SharedFileWitness.
