(* ===== verification/RegularFile.v ===== *)
(** * The log, when it is a regular file

    The build without the device keeps the packets in a regular file.  Here
    the threads of [Interleaving] share one that behaves as POSIX says and
    no better: a read or a write may fail, a read may return less than was
    asked for, and a write may take only a part of what it is given.
    [regular_step] is the file after an event, [None] when the event has an
    answer no such file gives; [logged] is the interleaving on it.

    [clients_see_log] says what the clients are sent of the file, and
    [file_interleaves] what is in it.  Neither holds of the device, which
    forgets and whose position the seek command moves.

    The executions end where the main thread removes the file. *)

From S2P Require Import Prelude Posix Queue Handler HandlerSpec HandlerTheorems Server ServerSpec ServerTheorems.
From S2P Require Import Continuation Discipline Interleaving Threads SharedFile.

(** ** The file *)

(** An open descriptor: its position, and whether it was opened with
    [O_APPEND]. *)
Record handle : Type := mk_handle {
  position : nat;
  appending : bool;
}.
Record regular : Type := mk_regular {
  data : list byte;
  handles : gmap Z handle;
}.

(** [w] is written at [pos]; a gap is filled with zeros. *)
Definition overwrite (pos : nat) (w b : list byte) : list byte :=
  take pos b ++ replicate (pos - length b) nul ++ w ++ drop (pos + length w) b.

Definition regular_step (s : regular) (e : event) : option regular :=
  let n := rv e.2 in
  match e.1 with
  | Open _ flags _ =>
      if n <? 0 then Some s
      else Some (mk_regular (data s) (<[n := mk_handle 0 (negb (Z.land flags O_APPEND =? 0))]> (handles s)))
  | Close fd => Some (mk_regular (data s) (delete fd (handles s)))
  | Read fd size =>
      if n <? 0 then Some s
      else
        f ← handles s !! fd;
        if decide (read_answer size e.2 (drop (position f) (data s)))
        then Some (mk_regular (data s) (<[fd := mk_handle (position f + Z.to_nat n) (appending f)]> (handles s)))
        else None
  | Write fd d =>
      if n <? 0 then Some s
      else
        f ← handles s !! fd;
        if n <=? zlen d then
          let pos := if appending f then length (data s) else position f in
          let w := take (Z.to_nat n) d in
          Some (mk_regular (overwrite pos w (data s)) (<[fd := mk_handle (pos + length w) (appending f)]> (handles s)))
        else None
  | Ioctl _ _ _ _ => if n <? 0 then Some s else None
  | Unlink _ => None
  | _ => Some s
  end.

Section log.
Context {B : build}.

Inductive logged (s0 : regular) : list label -> global -> regular -> Prop :=
| logged_nil : logged s0 [] ginit s0
| logged_snoc h g s l g' s' :
    logged s0 h g s -> gstep g l g' -> regular_step s l.2 = Some s' -> logged s0 (h ++ [l]) g' s'.

Lemma logged_exec s0 h g s : logged s0 h g s -> exec h g.
Proof. intros Hs. induction Hs; [constructor|]. by eapply gsteps_snoc. Qed.

Lemma overwrite_end w b : overwrite (length b) w b = b ++ w.
Proof. unfold overwrite. rewrite take_ge, Nat.sub_diag, drop_ge by lia. cbn. by rewrite app_nil_r. Qed.

Lemma appending_flags : negb (Z.land APPENDING O_APPEND =? 0) = true /\ negb (Z.land O_RDONLY O_APPEND =? 0) = false.
Proof. done. Qed.

(** A call on one descriptor leaves the others alone. *)
Lemma regular_other s e s' fd : regular_step s e = Some s' -> touched e <> Some fd -> handles s' !! fd = handles s !! fd.
Proof.
  intros Hs Ht. destruct e as [[] a]; unfold regular_step, touched in *; cbn [fst snd] in *; try (by injection Hs as <-);
    repeat (case_match; simplify_eq/=); try done.
  all: try (destruct (handles s !! fd0) as [f|] eqn:Hf; [|done]; cbn in Hs; repeat (case_match || case_decide); simplify_eq/=).
  all: simplify_eq/=; first [rewrite lookup_insert_ne by congruence|rewrite lookup_delete_ne by congruence]; done.
Qed.

(** The descriptors of a thread in state [c] with trace [t]: it has read
    the beginning of the file, up to its position, and writes at the end. *)
Definition follows (s : regular) (t : list event) (c : cstate) : Prop :=
  concat (reads t) `prefix_of` data s /\
  (forall fd, reader c = Some fd -> handles s !! fd = Some (mk_handle (length (concat (reads t))) false)) /\
  (forall fd, writer c = Some fd -> exists pos, handles s !! fd = Some (mk_handle pos true)).

(** What a write has added to the file. *)
Definition added (e : event) : list byte :=
  match e with
  | (Write _ d, a) => take (Z.to_nat (rv a)) d
  | _ => []
  end.

Lemma follows_same s s' t e c c' : follows s t c -> data s `prefix_of` data s' -> reads [e] = [] ->
  (forall fd, reader c' = Some fd -> reader c = Some fd /\ handles s' !! fd = handles s !! fd) ->
  (forall fd, writer c' = Some fd -> exists pos, handles s' !! fd = Some (mk_handle pos true)) ->
  follows s' (t ++ [e]) c'.
Proof.
  intros (Hpre & Hr & _) Hd He Hr' Hw'. unfold follows. rewrite reads_app, He, app_nil_r.
  split; [by trans (data s)|]. split; [|done]. intros fd Hfd. destruct (Hr' fd Hfd) as [Hc ->]. by apply Hr.
Qed.

Section calls.
Variables (k : task) (s s' : regular) (t : list event) (c c' : cstate) (a : answer).
Hypotheses (Hc : crun with_device (task_role k) t = Some c) (Hap : apart k c) (Hf : follows s t c).
#[local] Abbreviation steps sc := (cstep with_device (task_role k) c (sc, a) = Some c').
#[local] Abbreviation answered sc := (regular_step s (sc, a) = Some s').
#[local] Abbreviation goes sc := (follows s' (t ++ [(sc, a)]) c' /\ data s' = data s ++ added (sc, a)).

Lemma idle_goes sc : s' = s -> reads [(sc, a)] = [] -> added (sc, a) = [] -> reader c' = reader c -> writer c' = writer c -> goes sc.
Proof using Hf.
  intros -> Hr Ha Hrd Hwr. rewrite Ha, app_nil_r. split; [|done]. pose proof Hf as (_ & _ & Hw).
  apply (follows_same s s t _ c); try done; rewrite ?Hrd, ?Hwr; auto.
Qed.

Lemma open_goes path flags mode : steps (Open path flags mode) -> answered (Open path flags mode) -> goes (Open path flags mode).
Proof using Hc Hap Hf.
  intros Hst Hs. pose proof (cstep_file _ _ _ _ Hst Hap) as Hfl. cbn [fst snd] in Hfl. unfold regular_step in Hs. cbn [fst snd] in Hs.
  destruct (Z.ltb_spec (rv a) 0) as [Hn|Hn]; [injection Hs as Hs; destruct Hfl; by apply idle_goes|].
  injection Hs as <-. cbn [data added]. rewrite app_nil_r. split; [|done]. pose proof Hf as (Hpre & Hr & Hw).
  destruct (Z.eqb_spec flags O_RDONLY) as [->|Hne].
  - destruct Hfl as [Hw' Hr']. destruct (first_open _ _ _ _ _ _ Hst Hn) as [Hno Hph]. unfold follows.
    rewrite reads_app, (crun_unread _ _ _ _ Hc Hno (or_introl Hph)), Hw', Hr'. cbn. split; [apply prefix_nil|]. split; [|done].
    intros fd [= <-]. by rewrite lookup_insert_eq.
  - destruct Hfl as (-> & Hr' & Hnr & Hw'). apply (follows_same s _ t _ c); try done; rewrite ?Hr', ?Hw'; cbn [handles].
    + intros fd Hfd. side. by rewrite lookup_insert_ne by congruence.
    + intros fd [= <-]. exists 0%nat. by rewrite lookup_insert_eq.
Qed.

Lemma close_goes fd : steps (Close fd) -> answered (Close fd) -> goes (Close fd).
Proof using Hap Hf.
  intros Hst Hs. pose proof (cstep_file _ _ _ _ Hst Hap) as Hfl. cbn [fst snd] in Hfl. injection Hs as <-.
  cbn [data added]. rewrite app_nil_r. split; [|done]. pose proof Hf as (_ & _ & Hw).
  apply (follows_same s _ t _ c); try done; cbn [handles]; intros x Hx.
  - destruct (proj1 (Hfl x) Hx) as [Hr Hne]. side. by rewrite lookup_delete_ne.
  - destruct (proj2 (Hfl x) Hx) as [Hwx Hne]. rewrite lookup_delete_ne by done. by apply Hw.
Qed.

Lemma write_goes fd d : steps (Write fd d) -> answered (Write fd d) -> goes (Write fd d).
Proof using Hap Hf.
  intros Hst Hs. destruct (cstep_file _ _ _ _ Hst Hap) as ([Hr' Hw'] & Hw & Hr & _). pose proof Hf as (_ & _ & Hwr).
  destruct (Hwr fd Hw) as [pos Hpos]. unfold regular_step in Hs. cbn [fst snd] in Hs. cbn [added].
  destruct (Z.ltb_spec (rv a) 0) as [Hn|Hn].
  { injection Hs as <-. replace (Z.to_nat (rv a)) with 0%nat by lia. cbn. rewrite app_nil_r. split; [|done].
    apply (follows_same s s t _ c); try done; rewrite ?Hr', ?Hw'; auto. }
  rewrite Hpos in Hs. cbn [mbind option_bind appending] in Hs. destruct (rv a <=? zlen d); [|done]. injection Hs as <-.
  cbn [data]. rewrite overwrite_end. split; [|done]. apply (follows_same s _ t _ c); try done; cbn [data handles].
  - by eexists.
  - rewrite Hr'. intros x Hx. side. rewrite lookup_insert_ne by congruence. done.
  - rewrite Hw'. intros x Hx. rewrite Hw in Hx. injection Hx as <-. rewrite lookup_insert_eq. by eexists.
Qed.

Lemma read_goes fd n : steps (Read fd n) -> answered (Read fd n) -> goes (Read fd n).
Proof using Hap Hf.
  intros Hst Hs. destruct (cstep_file _ _ _ _ Hst Hap) as ([Hr' Hw'] & Hr & Hw & _). pose proof Hf as (Hpre & Hrd & Hwr).
  pose proof (Hrd fd Hr) as Hpos. unfold regular_step in Hs. cbn [fst snd] in Hs. cbn [added]. rewrite app_nil_r.
  destruct (Z.ltb_spec (rv a) 0) as [Hn|Hn].
  { injection Hs as <-. split; [|done]. apply (follows_same s s t _ c); try done; rewrite ?Hr', ?Hw'; auto.
    cbn. by rewrite (proj2 (Z.ltb_ge _ _)) by lia. }
  rewrite Hpos in Hs. cbn [mbind option_bind appending position] in Hs. case_decide as Hra; [|done]. injection Hs as <-. split; [|done].
  destruct Hra as (_ & _ & H3 & H4). destruct Hpre as [rest Hrest]. rewrite Hrest, drop_app_length in H3, H4.
  unfold follows. rewrite reads_app, concat_app, Hr', Hw'. cbn [data handles].
  assert (concat (reads [(Read fd n, a)]) = take (Z.to_nat (rv a)) rest /\
    length (take (Z.to_nat (rv a)) rest) = Z.to_nat (rv a)) as [Hre Hlen].
  { rewrite length_take. split; [|lia]. cbn. destruct (Z.ltb_spec 0 (rv a)) as [Hz|Hz]; cbn.
    - by rewrite app_nil_r, H4, take_take, Nat.min_id.
    - by replace (Z.to_nat (rv a)) with 0%nat by lia. }
  rewrite Hre. split; [rewrite Hrest; apply prefix_app, prefix_take|]. split; intros x Hx.
  - rewrite Hr in Hx. injection Hx as <-. rewrite lookup_insert_eq, length_app, Hlen. done.
  - rewrite lookup_insert_ne by congruence. by apply Hwr.
Qed.

Lemma ioctl_goes fd r wc wo : steps (Ioctl fd r wc wo) -> answered (Ioctl fd r wc wo) -> goes (Ioctl fd r wc wo).
Proof using Hap Hf.
  intros Hst Hs. destruct (cstep_file _ _ _ _ Hst Hap) as ([Hr' Hw'] & _). unfold regular_step in Hs. cbn [fst snd] in Hs.
  destruct (rv a <? 0); [|done]. injection Hs as Hs. by apply idle_goes.
Qed.
End calls.

(** A step of a thread, and what it leaves to the others. *)
Lemma own_goes k s s' t c e c' : crun with_device (task_role k) t = Some c -> cstep with_device (task_role k) c e = Some c' ->
  apart k c -> regular_step s e = Some s' -> follows s t c -> follows s' (t ++ [e]) c' /\ data s' = data s ++ added e.
Proof.
  intros Hc Hst Hap Hs Hf. destruct e as [sc a].
  destruct sc; eauto using open_goes, read_goes, write_goes, close_goes, ioctl_goes; try discriminate Hs.
  all: injection Hs as <-; apply (idle_goes s s t c); try done; apply (cstep_file _ _ _ _ Hst Hap).
Qed.

Lemma follows_other s s' e t c : follows s t c -> regular_step s e = Some s' -> data s `prefix_of` data s' ->
  (forall fd, reader c = Some fd \/ writer c = Some fd -> touched e <> Some fd) -> follows s' t c.
Proof.
  intros (Hpre & Hr & Hw) Hs Hd Ht. split; [by trans (data s)|].
  split; intros fd Hfd; rewrite (regular_other _ _ _ _ Hs) by auto; auto.
Qed.

(** The main thread leaves the file alone; it closes sockets. *)
Lemma main_regular st e st' s s' : mstep st e = Some st' -> regular_step s e = Some s' ->
  data s' = data s /\ (forall fd, touched e = Some fd -> fd ∈ (sockets st).1).
Proof.
  intros Hm Hs. destruct e as [sc a]. unfold mstep, regular_step, touched in *. cbn [fst snd] in *.
  destruct sc; try done; try (by injection Hs as <-). case_decide; [|done]. injection Hs as <-. split; [done|]. by intros ? [= <-].
Qed.

(** The writes of a history, each with its thread and the number of bytes
    it took. *)
Definition piece (l : label) : option (nat * (list byte * nat)) :=
  match l with
  | (Some i, (Write _ d, a)) => Some (i, (d, Z.to_nat (rv a)))
  | _ => None
  end.
Definition pieces (h : list label) : list (nat * (list byte * nat)) := omap piece h.
Definition taken (w : nat * (list byte * nat)) : list byte := take w.2.2 w.2.1.

Lemma taken_added i e : concat (taken <$> pieces [(Some i, e)]) = added e.
Proof. destruct e as [[] a]; cbn; by rewrite ?app_nil_r. Qed.

Lemma logged_inv s0 h g s : logged s0 h g s ->
  data s = data s0 ++ concat (taken <$> pieces h) /\
  forall j k t c, threads g !! j = Some (k, t) -> crun with_device (task_role k) t = Some c -> follows s t c.
Proof.
  intros Hs. induction Hs as [|h g s l g' s' Hs [IHd IH] Hl Ha]; [split; [by rewrite app_nil_r|done]|].
  destruct (exec_inv _ _ (logged_exec _ _ _ _ Hs)) as [st HI].
  unfold pieces. rewrite omap_app, fmap_app, concat_app, app_assoc. fold (pieces h). rewrite <- IHd. fold (pieces [l]).
  destruct Hl as [e g' Hr He|i k t e g' Hp Hr He]; cbn [snd] in Ha.
  - destruct (ginv_main _ _ _ _ HI Hr He) as (st' & Hm & HI'). destruct (main_regular _ _ _ _ _ Hm Ha) as [Hd Hto].
    split; [cbn; by rewrite app_nil_r|]. intros j k t c Hj Hc.
    assert (threads g !! j = Some (k, t) \/ t = [] /\ c = cstart (task_role k)) as [Hold|[-> ->]].
    { destruct (main_cases _ _ _ He) as (T & _ & _ & _ & [(p & c0 & _ & _ & _ & Ht & _)|(_ & Ht & _)]); rewrite Ht in Hj; [|by left].
      apply lookup_app_Some in Hj as [Hj|[_ Hj]]; [by left|]. apply list_lookup_singleton_Some in Hj as [_ Hj]. simplify_eq.
      right. by injection Hc as <-. }
    + apply (follows_other s s' e); [by eapply IH|done|by rewrite Hd|]. intros fd Hfd Ht. apply Hto, (gi_table _ _ HI fd None) in Ht.
      assert (table g !! fd = Some (Some j)); [|congruence]. apply (gi_table _ _ HI). exists k, c. split; [by exists t|].
      unfold cfds. tauto.
    + split; [apply prefix_nil|]. by split.
  - pose proof Hr as (c & c' & Hc & Hst & Hc')%task_automaton. destruct (peek_state _ _ _ _ _ _ HI Hp Hc) as (_ & Hap & _).
    assert (follows s t c) as Hfi.
    { unfold peek in Hp. destruct (threads g !! i) as [kt|] eqn:Hi; [simplify_eq; by eapply IH|].
      case_decide; [|done]. injection Hp as <- <-. injection Hc as <-. split; [apply prefix_nil|by split]. }
    destruct (own_goes _ _ _ _ _ _ _ Hc Hst Hap Ha Hfi) as [Hf' Hd']. rewrite taken_added. side.
    intros j kj tj cj Hj Hcj. pose proof (peek_length _ _ _ Hp) as Hlen.
    pose proof He as He'. unfold task_effect in He'. rewrite Hp in He'. cbn in He'. destruct (fd_effect _ _ _); [|done].
    destruct (lock_effect _ _ _); [|done]. injection He' as He'. rewrite <- He' in Hj. cbn [threads] in Hj. rewrite put_lookup in Hj by done.
    case_decide as Hji; [subst j; by simplify_eq|].
    apply (follows_other s s' e); [by eapply IH|done|rewrite Hd'; by eexists|]. intros fd Hfd.
    eapply touched_apart; [done..|by exists tj|done|]. unfold cfds. tauto.
Qed.


(** What thread [i] passed to its writes. *)
Definition records_of (i : nat) (ws : list (nat * (list byte * nat))) : list (list byte) :=
  omap (fun w => if decide (w.1 = i) then Some w.2.1 else None) ws.

Lemma records_writes i h : records_of i (pieces h) = writes_of i h.
Proof.
  unfold records_of, pieces, writes_of, events_of. induction h as [|[[j|] [sc a]] h IH]; [done| |by cbn; rewrite decide_False].
  destruct (decide (Some j = Some i)) as [Hj|Hj]; destruct sc; cbn;
    rewrite ?(decide_True _ _ Hj), ?(decide_False _ _ Hj); cbn; try done.
  - rewrite decide_True by congruence. by f_equal.
  - by rewrite decide_False by congruence.
Qed.

(** The alarm handler writes its time stamp, once. *)
Lemma alarm_writes t : task_runs Alarm t ->
  omap written t = [] \/ exists timestamp, omap written t = [timestamp ++ [newline]].
Proof.
  intros (E & ts & s' & _ & _ & _ & Hr & [u Hu]).
  assert (omap written (trace s') = [] \/ omap written (trace s') = [ts ++ [newline]]) as Hw.
  { unfold alarm_handler, start, mbind, st_bind, sysv, sys, mret, st_ret in Hr. simpl in Hr.
    destruct (_ <? 0); injection Hr as <-; auto. }
  rewrite Hu, omap_app in Hw. destruct Hw as [[Hw _]%app_eq_nil|Hw]; [by left|].
  destruct (omap written t) as [|d l]; [by left|]. right. exists ts. injection Hw as -> Hw. by apply app_eq_nil in Hw as [-> _].
Qed.

(** C9. The log in the regular file of the build without the device, on
    which calls may fail or do a part only: at any time it holds what it held at the beginning and then, in the
    order of the writes, of each write the part that it took, so the whole
    records when no write failed or was short.  A write has one record of
    one thread: those of a connection thread are packets of its client, in
    order and without a gap, and all of them once the client has closed the
    connection and the thread has ended; a run of the alarm handler has
    written its time stamp or nothing. *)
Theorem file_interleaves s0 h g s :
  logged s0 h g s ->
  let ws := pieces h in
  data s = data s0 ++ concat (taken <$> ws) /\
  ((forall w, w ∈ ws -> w.2.2 = length w.2.1) -> data s = data s0 ++ concat ((fun w => w.2.1) <$> ws)) /\
  Forall (fun w => is_Some (threads g !! w.1)) ws /\
  forall i k t, threads g !! i = Some (k, t) ->
    match k with
    | Conn c =>
        records_of i ws `prefix_of` packets (chunks (events_of i h)) /\
        ((exists p a, (StoreDone p, a) ∈ events_of i h) -> ~ connected (events_of i h) ->
         records_of i ws = packets (chunks (events_of i h)))
    | Alarm => records_of i ws = [] \/ exists timestamp, records_of i ws = [timestamp ++ [newline]]
    end.
Proof.
  intros Hs ws. pose proof (logged_exec _ _ _ _ Hs) as He. destruct (logged_inv _ _ _ _ Hs) as [Hd _]. side. split_and!.
  - intros Hall. rewrite Hd. do 2 f_equal. fold ws. clearbody ws. clear -Hall. induction ws as [|w ws IH]; [done|]. cbn. f_equal.
    + unfold taken. rewrite (Hall w) by (by left). apply take_ge. done.
    + apply IH. intros v Hv. apply Hall. by right.
  - apply Forall_forall. intros [i d] Hin. unfold ws, pieces in Hin. apply list_elem_of_omap in Hin as ([who [sc a]] & Hin & Hw).
    destruct who as [j|]; [|done]. destruct sc; try done. injection Hw as <- _. by eapply exec_known.
  - intros i k t Hi. unfold ws. rewrite records_writes. destruct k as [c|].
    + destruct (thread_packets _ _ _ _ _ He Hi) as (H1 & _ & H3). side. intros (p & a & Hp). by eapply H3.
    + unfold writes_of. rewrite <- (exec_trace _ _ _ _ _ He Hi).
      destruct (exec_programmed _ _ He _ _ _ Hi) as [->|Hr]; [by left|]. by apply alarm_writes.
Qed.

(** ** Concrete executions *)

Fixpoint relog (s : regular) (h : list label) : option regular :=
  match h with
  | [] => Some s
  | l :: h => s' ← regular_step s l.2; relog s' h
  end.

Lemma gsteps_logged s0 h1 g1 s1 h2 g2 s2 : logged s0 h1 g1 s1 -> gsteps g1 h2 g2 -> relog s1 h2 = Some s2 ->
  logged s0 (h1 ++ h2) g2 s2.
Proof.
  intros Hs Hg. revert h1 s1 Hs. induction Hg as [g|g l g1 h g2 Hl _ IH]; intros h1 s1 Hs Hc; cbn in Hc.
  - injection Hc as <-. by rewrite app_nil_r.
  - destruct (regular_step s1 l.2) as [s'|] eqn:Ha; [|done]. change (l :: h) with ([l] ++ h). rewrite app_assoc.
    apply (IH _ s'); [by eapply logged_snoc|done].
Qed.

Lemma replay_logged s0 h g s : replay ginit h = Some g -> runs g -> relog s0 h = Some s -> logged s0 h g s.
Proof.
  intros Hr Rg Hc. apply (gsteps_logged s0 [] ginit s0 h g); [constructor|by apply replay_gsteps|done].
Qed.
End log.

Module RegularFileWitness.
Import SimEnv ServerWitness ThreadsWitness SharedFileWitness.
#[local] Existing Instance build0 | 0.
#[local] Instance client1_ok c : EnvOk (client1 c) := sim_env_ok _ _.
#[local] Instance client1_mutex c : MutexOk (client1 c) (file_mutex c) := sim_mutex_ok _ _ _.

Definition line0 : regular := mk_regular (bytes_of "0" ++ [newline]) ∅.
Definition after_echo : regular := default line0 (relog line0 echoed).


(** The write of the second client takes two of its three bytes. *)
Definition client3 (c : conn_info) : env := fun tr k =>
  match k with
  | Write _ d => mk_answer (if clfd c =? 3 then zlen d - 1 else zlen d) []
  | _ => client1 c tr k
  end.
#[local] Instance client3_ok c : EnvOk (client3 c).
Proof. destruct (sim_env_ok [packet0] log0). by constructor. Qed.
#[local] Instance client3_mutex c : MutexOk (client3 c) (file_mutex c).
Proof. destruct (sim_mutex_ok [packet0] log0 (file_mutex c)). by constructor. Qed.
Definition trace3 : conn_info -> list event := conn_trace client3.
Definition shortened : list label :=
  by_main (take 21 (server_trace 2 [])) ++ by_thread 0 (take 8 (trace3 conn1)) ++
  by_thread 2 alarm_trace ++ by_thread 1 (take 8 (trace3 conn2)).
Definition after_short : regular := default line0 (relog line0 shortened).

Lemma file_interleaves_witness :
  pieces shortened = [(0, (packet0, 3)); (2, (bytes_of "timestamp:now" ++ [newline], 14)); (1, (packet0, 2))]%nat /\
  data after_short = data line0 ++ concat (taken <$> pieces shortened) /\
  Forall (fun w => is_Some (threads (after shortened) !! w.1)) (pieces shortened) /\
  records_of 1 (pieces shortened) `prefix_of` packets (chunks (events_of 1 shortened)) /\
  (records_of 2 (pieces shortened) = [] \/ exists timestamp, records_of 2 (pieces shortened) = [timestamp ++ [newline]]).
Proof.
  split; [vm_compute; reflexivity|].
  destruct (file_interleaves line0 shortened (after shortened) after_short) as (H1 & _ & H3 & H4).
  - apply replay_logged; [vm_compute; reflexivity|apply (from_code_runs client3 2 []); from_code|vm_compute; reflexivity].
  - split; [exact H1|]. split; [exact H3|]. split.
    + apply (H4 1%nat (Conn conn2) (take 8 (trace3 conn2))). vm_compute. reflexivity.
    + apply (H4 2%nat Alarm alarm_trace). vm_compute. reflexivity.
Defined.
End RegularFileWitness.
