(* ===== verification/Signals.v ===== *)
(** * The process: signals and its end

    In [Interleaving] a run of the alarm handler is a thread of its own.
    That has all the interleavings of the code and more, which is enough for
    what always holds.  To say that the server can go on, the handler has to
    be where it is in the code: on the stack of the thread that got the
    signal, which waits until the handler has returned.  [process] is the
    state of [Interleaving] with the threads that are interrupted, and the
    exit status once [main] has returned, after which nothing happens any
    more.  [pstep] is a step of it:

    - a thread makes a step of [gstep] while it is not interrupted, and not
      on a mutex that [main] has destroyed;
    - a signal comes to the main thread or to a connection thread; during
      its handler the signal is blocked in that thread;
    - the handler makes its first call, the lock, when it can, then the
      others, and returns;
    - [main] returns.

    Every state that can be reached is one of [Interleaving]
    ([reachable_exec]), so that its theorems hold here too. *)

From S2P Require Import Prelude Posix Queue Handler HandlerSpec HandlerTheorems Server ServerSpec ServerTheorems.
From S2P Require Import Continuation Discipline Interleaving Threads.

(** A handler that has not made its first call, or is thread [i] of
    [Interleaving]. *)
Inductive handler : Type :=
| Waiting
| Running (i : nat).

(** The interrupted threads are [None], the main thread, or [Some i]. *)
Record process : Type := mk_process {
  core : global;
  interrupted : gmap (option nat) handler;
  status : option Z;
}.
Definition pinit : process := mk_process ginit ∅ None.

Section signals.
Context {B : build}.

(** [t] is the trace of a whole run of the handler; [tr] that of a whole run
    of [main], with exit status [r]. *)
Definition alarm_returned (t : list event) : Prop :=
  exists E timestamp s', EnvOk E /\ MutexOk E info_mutex /\ zlen timestamp < 100 /\
    alarm_handler E with_device info_mutex SIGALRM timestamp (start []) = Some (tt, s') /\ trace s' = t.
Definition main_returns (tr : list event) (r : Z) : Prop :=
  exists E id_of fuel argc dash_d first s', EnvOk E /\ AcceptOk E /\
    main E with_device id_of main_mutex fuel argc dash_d (mk_server [] first ∅) = Some (Some r, s') /\ s_trace s' = tr.

(** A call on a mutex that has not been destroyed. *)
Definition undestroyed (tr : list event) (e : event) : Prop :=
  match e.1 with
  | Lock m | Unlock m => forall a, (DestroyMutex m, a) ∉ tr
  | _ => True
  end.

Inductive pstep : process -> process -> Prop :=
| p_main g int e g' :
    int !! None = None -> gstep g (None, e) g' ->
    pstep (mk_process g int None) (mk_process g' int None)
| p_conn g int i c t e g' :
    int !! Some i = None -> threads g !! i = Some (Conn c, t) -> undestroyed (main_trace g) e ->
    gstep g (Some i, e) g' ->
    pstep (mk_process g int None) (mk_process g' int None)
| p_signal g int who :
    with_device = false -> int !! who = None ->
    who = None \/ (exists i c t, who = Some i /\ threads g !! i = Some (Conn c, t)) ->
    pstep (mk_process g int None) (mk_process g (<[who := Waiting]> int) None)
| p_enter g int who e g' :
    int !! who = Some Waiting -> gstep g (Some (length (threads g)), e) g' ->
    pstep (mk_process g int None) (mk_process g' (<[who := Running (length (threads g))]> int) None)
| p_handler g int who i e g' :
    int !! who = Some (Running i) -> gstep g (Some i, e) g' ->
    pstep (mk_process g int None) (mk_process g' int None)
| p_return g int who i t :
    int !! who = Some (Running i) -> threads g !! i = Some (Alarm, t) -> alarm_returned t ->
    pstep (mk_process g int None) (mk_process g (delete who int) None)
| p_exit g int r :
    int !! None = None -> main_returns (main_trace g) r ->
    pstep (mk_process g int None) (mk_process g int (Some r)).

Definition reachable : process -> Prop := rtc pstep pinit.

(** ** What is known of a process *)

Lemma gstep_extends g l g' : gstep g l g' -> extends g g'.
Proof.
  intros [e g1 Hr He|i k t e g1 Hp Hr He]; [by apply (effect_extends g (None, e))|by apply (effect_extends g (Some i, e))].
Qed.

Lemma extends_refl g : extends g g.
Proof. split; [done|]. intros i k t Hi. by exists t. Qed.

Lemma gsteps_extends g h g' : gsteps g h g' -> extends g g'.
Proof. induction 1; [apply extends_refl|]. eapply extends_trans; [by eapply gstep_extends|done]. Qed.

(** A thread that is new with a step is a connection, or began with it as a
    run of the handler; others change by their own steps. *)
Lemma gstep_threads g l g' i k t : gstep g l g' -> threads g' !! i = Some (k, t) ->
  threads g !! i = Some (k, t) \/ (exists c, k = Conn c /\ t = [] /\ new_conn (main_trace g) (conn_addr c) = Some c) \/
  l.1 = Some i /\ exists t0, peek g i = Some (k, t0).
Proof.
  intros Hs Hi. destruct Hs as [e g' Hr He|j k' t0 e g' Hp Hr He].
  - destruct (main_cases _ _ _ He) as (T & _ & _ & _ & [(p & c & _ & _ & Hn & Ht & _)|(_ & Ht & _)]); rewrite Ht in Hi; [|auto].
    apply lookup_app_Some in Hi as [?|[_ Hi]]; [auto|]. apply list_lookup_singleton_Some in Hi as [_ Hi]. simplify_eq.
    right. left. exists c. split_and!; try done. unfold new_conn in *. destruct (held _).2; [|done]. cbn in *. by injection Hn as <-.
  - unfold task_effect in He. rewrite Hp in He. cbn in He. destruct (fd_effect _ _ _); [|done].
    destruct (lock_effect _ _ _); [|done]. injection He as <-. cbn [threads] in Hi.
    rewrite put_lookup in Hi by by eapply peek_length. case_decide; [|auto]. simplify_eq. right. right. side. by exists t0.
Qed.

(** The mutex of a connection thread is that of [main]. *)
Lemma exec_conn_mutex h g i c t : exec h g -> threads g !! i = Some (Conn c, t) ->
  file_mutex c = if with_device then NULL else main_mutex.
Proof.
  intros He. assert (forall g h g', gsteps g h g' ->
    (forall i c t, threads g !! i = Some (Conn c, t) -> file_mutex c = if with_device then NULL else main_mutex) ->
    forall i c t, threads g' !! i = Some (Conn c, t) -> file_mutex c = if with_device then NULL else main_mutex) as Hgen.
  { clear. intros g h g' Hs. induction Hs as [|g l g1 h g2 Hl _ IH]; [done|]. intros Hg. apply IH. intros i c t Hi.
    destruct (gstep_threads _ _ _ _ _ _ Hl Hi) as [?|[(c' & [= <-] & _ & Hn)|[_ (t0 & Hp)]]]; [eauto| |].
    - unfold new_conn in Hn. destruct (held _).2; [|done]. cbn in Hn. by injection Hn as <-.
    - unfold peek in Hp. destruct (threads g !! i) eqn:Hgi; [simplify_eq; eauto|]. by case_decide. }
  eapply Hgen; [exact He|done].
Qed.

Lemma alarm_returned_idle t : alarm_returned t ->
  exists s, crun with_device (task_role Alarm) t = Some s /\ ph s = Idle.
Proof.
  intros (E & ts & s' & HE & HM & Hts & Hr & <-). exact (alarm_disciplined with_device info_mutex SIGALRM ts Hts _ _ Hr).
Qed.

(** The handlers that run are those of the interrupted threads. *)
Record pinv (p : process) : Prop := {
  pi_exec : exists h, exec h (core p);
  pi_file who x : interrupted p !! who = Some x -> with_device = false;
  pi_running who i : interrupted p !! who = Some (Running i) -> exists t, threads (core p) !! i = Some (Alarm, t);
  pi_locked i s : thread_in (core p) i Alarm s -> ph s = Locked -> exists who, interrupted p !! who = Some (Running i);
}.

(** A step of a thread that is no handler. *)
Lemma pinv_core g int l g' : pinv (mk_process g int None) -> gstep g l g' ->
  (forall i, l.1 = Some i -> (exists c t, threads g !! i = Some (Conn c, t)) \/ exists who, int !! who = Some (Running i)) ->
  pinv (mk_process g' int None).
Proof.
  intros [[h He] Hf Hr Hl] Hs Hwho. split; cbn [core interrupted] in *.
  - exists (h ++ [l]). eapply gsteps_app; [done|]. by eapply gsteps_cons; [|constructor].
  - done.
  - intros who i Hi. destruct (Hr who i Hi) as [t Ht]. destruct (proj2 (gstep_extends _ _ _ Hs) _ _ _ Ht) as (t' & Ht' & _). by exists t'.
  - intros i s (t & Ht & Hc) Hph. destruct (gstep_threads _ _ _ _ _ _ Hs Ht) as [Ht0|[(c & Heq & _)|[Hli (t0 & Hp)]]].
    + apply (Hl i s); [by exists t|done].
    + done.
    + destruct (Hwho i Hli) as [(c & t1 & Hi)|?]; [|done]. unfold peek in Hp. rewrite Hi in Hp. by simplify_eq.
Qed.

Lemma pinv_step p p' : pinv p -> pstep p p' -> pinv p'.
Proof.
  intros HI Hs. destruct Hs as [g int e g' Hn Hg|g int i c t e g' Hn Hi _ Hg|g int who Hd Hn _|g int who e g' Hw Hg|g int who i e g' Hw Hg
    |g int who i t Hw Hi Hret|g int r Hn Hm].
  - eapply pinv_core; [done..|]. by intros i.
  - eapply pinv_core; [done..|]. intros j [= <-]. left. by exists c, t.
  - destruct HI as [He Hf Hr Hl]. split; cbn [core interrupted] in *; try done.
    + intros who' i Hi. apply lookup_insert_Some in Hi as [[_ ?]|[_ ?]]; [done|by eapply Hr].
    + intros i s Hin Hph. destruct (Hl i s Hin Hph) as [who' Hw']. exists who'. rewrite lookup_insert_ne; [done|]. intros ->. congruence.
  - destruct HI as [[h He] Hf Hr Hl]. cbn [core interrupted] in *.
    assert (exists t, threads g' !! length (threads g) = Some (Alarm, t)) as [t Ht].
    { inversion Hg as [|i k t0 e' g1 Hp _ Heff]; subst. unfold peek in Hp. rewrite lookup_ge_None_2 in Hp by done.
      case_decide; [|done]. injection Hp as <- <-. unfold task_effect, peek in Heff. rewrite lookup_ge_None_2 in Heff by done.
      rewrite decide_True in Heff by done. cbn in Heff. destruct (fd_effect _ _ _); [|done]. destruct (lock_effect _ _ _); [|done].
      injection Heff as <-. exists [e]. cbn [threads]. rewrite put_lookup by done. by rewrite decide_True. }
    split; cbn [core interrupted].
    + exists (h ++ [(Some (length (threads g)), e)]). eapply gsteps_app; [done|]. by eapply gsteps_cons; [|constructor].
    + intros who' x _. by eapply Hf.
    + intros who' i Hi. apply lookup_insert_Some in Hi as [[_ [= <-]]|[_ Hi]]; [by exists t|].
      destruct (Hr who' i Hi) as [t1 Ht1]. destruct (proj2 (gstep_extends _ _ _ Hg) _ _ _ Ht1) as (t' & Ht' & _). by exists t'.
    + intros i s (t1 & Ht1 & Hc) Hph. destruct (gstep_threads _ _ _ _ _ _ Hg Ht1) as [Ht0|[(c & Heq & _)|[[= <-] _]]].
      * destruct (Hl i s) as [who' Hw']; [by exists t1|done|]. exists who'. rewrite lookup_insert_ne; [done|]. intros ->. congruence.
      * done.
      * exists who. apply lookup_insert_eq.
  - eapply pinv_core; [done..|]. intros j [= <-]. right. by exists who.
  - destruct HI as [He Hf Hr Hl]. split; cbn [core interrupted] in *.
    + done.
    + intros who' x [_ Hx]%lookup_delete_Some. by eapply Hf.
    + intros who' j [_ Hj]%lookup_delete_Some. by eapply Hr.
    + intros j s Hin Hph. destruct (Hl j s Hin Hph) as [who' Hw']. exists who'. rewrite lookup_delete_ne; [done|]. intros ->.
      rewrite Hw in Hw'. injection Hw' as ->. destruct (alarm_returned_idle _ Hret) as (s' & Hs' & Hid).
      destruct Hin as (t1 & Ht1 & Hc1). rewrite Hi in Ht1. injection Ht1 as <-. rewrite Hs' in Hc1. injection Hc1 as <-. congruence.
  - by destruct HI.
Qed.

Lemma reachable_inv p : reachable p -> pinv p.
Proof.
  assert (pinv pinit) as H0.
  { split; cbn; [exists []; constructor|done..|]. by intros i s (t & Ht & _). }
  intros Hr. revert H0. unfold reachable in Hr. induction Hr as [|p1 p2 p3 Hs _ IH]; [done|]. intros H1. apply IH. by eapply pinv_step.
Qed.

(** The process is one of [Interleaving]. *)
Lemma reachable_exec p : reachable p -> exists h, exec h (core p).
Proof. intros Hr. apply (pi_exec _ (reachable_inv _ Hr)). Qed.

(** ** Steps of [Interleaving] as steps of the process *)

(** Threads that are not interrupted make their steps. *)
Lemma lift_steps g h g' int : gsteps g h g' ->
  (forall l, l ∈ h -> int !! l.1 = None) ->
  (forall i e, (Some i, e) ∈ h -> (exists c t, threads g' !! i = Some (Conn c, t)) /\
     forall m a, (DestroyMutex m, a) ∉ main_trace g') ->
  rtc pstep (mk_process g int None) (mk_process g' int None).
Proof.
  induction 1 as [|g l g1 h g' Hl Hs IH]; intros Hint Hth; [done|].
  assert (rtc pstep (mk_process g1 int None) (mk_process g' int None)) as Hrest.
  { apply IH; [intros x Hx; apply Hint; by right|]. intros i e Hx. eapply Hth. by right. }
  eapply rtc_l; [|exact Hrest]. pose proof (Hint l ltac:(by left)) as Hno. destruct l as [[i|] e]; [|by eapply p_main].
  destruct (Hth i e ltac:(by left)) as [(c & t & Hi) Hd].
  pose proof (extends_trans _ _ _ (gstep_extends _ _ _ Hl) (gsteps_extends _ _ _ Hs)) as [[u Hu] _].
  assert (exists t0, threads g !! i = Some (Conn c, t0)) as [t0 Ht0].
  { inversion Hl as [|? k t1 ? ? Hp Hr He]; subst. assert (exists t2, threads g1 !! i = Some (k, t2)) as [t2 Ht2].
    { unfold task_effect in He. rewrite Hp in He. cbn in He. destruct (fd_effect _ _ _); [|done].
      destruct (lock_effect _ _ _); [|done]. injection He as <-. eexists. cbn [threads]. rewrite put_lookup by (by eapply peek_length).
      by rewrite decide_True. }
    destruct (proj2 (gsteps_extends _ _ _ Hs) _ _ _ Ht2) as (t3 & Ht3 & _). rewrite Hi in Ht3. injection Ht3 as <- <-.
    unfold peek in Hp. destruct (threads g !! i) as [kt|]; [injection Hp as ->; by eexists|]. by case_decide. }
  eapply p_conn; [done..| |done]. unfold undestroyed. rewrite Hu in Hd.
  destruct e as [[] a0]; cbn; try done; intros a Ha; apply (Hd m a), elem_of_app; by left.
Qed.

(** A handler makes its steps. *)
Lemma lift_handler g i u g' int who : gsteps g (pair (Some i) <$> u) g' -> int !! who = Some (Running i) ->
  rtc pstep (mk_process g int None) (mk_process g' int None).
Proof.
  intros Hs Hw. remember (pair (Some i) <$> u) as h eqn:Hh. revert u Hh.
  induction Hs as [|g l g1 h g' Hl _ IH]; intros u Hh; [done|]. destruct u as [|e u]; [done|]. injection Hh as -> ->.
  eapply rtc_l; [by eapply p_handler|]. by eapply IH.
Qed.
End signals.
