(* ===== verification/Progress.v ===== *)
(** * The threads can come to their end

    No interleaving of the server's threads leads to a state from which
    they cannot go on: whatever has happened before [main] destroys the
    mutex, if the clients leave, every connection thread can run to its end,
    where it has closed its descriptors, released the mutex and set [done]
    ([threads_complete]).  That is shown for the process of [Signals], in
    which a thread stands still while it is interrupted, also when it holds
    the connections' mutex.

    The proof lets the handlers run first, the one that holds its mutex
    before those that wait for it: no connection thread can hold that mutex,
    which is not theirs ([mutexes_differ]).  Then it lets a thread that holds
    the connections' mutex run before one that waits for it, and completes
    each thread by itself, with the runs of [Continuation]. *)

From S2P Require Import Prelude Posix Queue Handler HandlerSpec HandlerTheorems Server ServerSpec ServerTheorems.
From S2P Require Import Continuation Discipline Interleaving Threads Signals.

(** An environment in which nothing is to be had. *)
Definition dead_env : env := fun _ c => final_answer c.
#[export] Instance dead_env_ok : EnvOk dead_env.
Proof. split; intros *; cbn; try done; try lia; intros; split; intros; lia. Qed.
#[export] Instance dead_env_mutex m : MutexOk dead_env m.
Proof. by split. Qed.

Section progress.
Context {B : build}.
#[local] Abbreviation crun_of k := (crun with_device (task_role k)).

(** ** Completing a thread *)

(** All that is left of a thread's run, [u], is answered with failure where
    something is asked for. *)
Definition final (u : list event) : Prop := forall e, e ∈ u -> e.2 = final_answer e.1.

Lemma conn_completes c t : t = [] \/ task_runs (Conn c) t ->
  exists u s, task_runs (Conn c) (t ++ u) /\ crun_of (Conn c) (t ++ u) = Some s /\ ph s = Ended /\ final u.
Proof.
  intros Ht.
  assert (exists E int_of fuel r s', EnvOk E /\ MutexOk E (file_mutex c) /\ (length t < fuel)%nat /\
    handle_connection E with_device seek_code int_of fuel c (start []) = Some (r, s') /\ t `prefix_of` trace s')
    as (E & int_of & fuel & r & s' & HE & HM & Hf & Hr & Hp).
  { destruct Ht as [->|Ht]; [|exact Ht].
    destruct (connection_run (E := dead_env) with_device seek_code id 1 c [] _) as (r & s' & Hr & _);
      [apply not_elem_of_empty|done|]. exists dead_env, id, 1%nat, r, s'. split_and!; try done; try apply _; [cbn; lia|apply prefix_nil]. }
  destruct (run_completes _ _ _ _ _ _ _ t HM Hf Hr Hp) as (E' & s2 & u & HE' & HM' & Hrun & Hu & _ & _ & Hfin).
  set (F := (fuel `max` S (length (t ++ u)))%nat).
  destruct (connection_run (E := E') with_device seek_code int_of F c [] HM') as (r3 & s3 & Hr3 & _);
    [apply not_elem_of_empty|done|].
  destruct (gr_same _ _ _ (connection_grows with_device seek_code int_of fuel F c ltac:(unfold F; lia)) _ _ _ _ _ Hrun Hr3)
    as [[<- <-]|[? _]]; [|done].
  destruct (connection_disciplined with_device seek_code int_of c fuel _ _ Hrun) as (s & Hs & Hend).
  rewrite Hu in Hs. exists u, s. split_and!; try done.
  - exists E', int_of, F, (Some tt), s2. split_and!; try done; [unfold F; lia|]. by rewrite Hu.
  - destruct (decide (ph s = Ended)) as [|Hne]; [done|]. by apply Hend in Hne.
Qed.

(** The handler returns. *)
Lemma alarm_returns E ts : exists s', alarm_handler E with_device info_mutex SIGALRM ts (start []) = Some (tt, s') /\ answered E s'.
Proof.
  destruct (alarm_handler E with_device info_mutex SIGALRM ts (start [])) as [[[] s']|] eqn:Hr.
  - exists s'. side. assert (preserves (answered E) (alarm_handler E with_device info_mutex SIGALRM ts)) as Hpre.
    { unfold alarm_handler. preserve_with ltac:(first [apply answered_sys|apply answered_sysv]). }
    assert (answered E (start [])) as H0 by done. by eapply Hpre.
  - unfold alarm_handler, mbind, st_bind, sysv, sys, mret, st_ret in Hr. simpl in Hr. by destruct (_ <? 0).
Qed.

Lemma alarm_begins : task_runs Alarm [].
Proof.
  destruct (alarm_returns dead_env []) as (s' & Hr & _). exists dead_env, [], s'. split_and!; try done; try apply _. apply prefix_nil.
Qed.

Lemma alarm_returned_calls t : alarm_returned t -> t <> [].
Proof.
  intros (E & ts & s' & _ & _ & _ & Hr & <-). unfold alarm_handler, mbind, st_bind, sysv, sys, mret, st_ret in Hr. simpl in Hr.
  destruct (_ <? 0); injection Hr as <-; by destruct with_device.
Qed.

Lemma alarm_completes t : task_runs Alarm t ->
  exists u s, task_runs Alarm (t ++ u) /\ alarm_returned (t ++ u) /\ crun_of Alarm (t ++ u) = Some s /\ ph s = Idle /\ final u.
Proof.
  intros (E & ts & s' & HE & HM & Hts & Hr & [v Hv]). set (E' := ending E (length t)).
  destruct (alarm_returns E' ts) as (s2 & Hr2 & Hans).
  assert (trace s2 = t ++ drop (length t) (trace s2)) as Hu.
  { rewrite <- (take_drop (length t) (trace s2)) at 1. f_equal.
    assert (take (length t) (trace s') = t) as Htk by by rewrite Hv, take_app_length.
    destruct (ag_same _ _ _ _ (alarm_agrees (n := length t) (E := E) (E' := E')
      ltac:(intros tr k Hk; unfold E', ending; by rewrite decide_True) with_device info_mutex SIGALRM ts)
      _ _ _ _ _ Hr Hr2) as [[_ <-]|(Heq & _)]; [done|congruence]. }
  destruct (alarm_disciplined (E := E') with_device info_mutex SIGALRM ts Hts _ _ Hr2) as (s & Hs & Hi).
  rewrite Hu in Hs. exists (drop (length t) (trace s2)), s. split_and!; try done.
  - exists E', ts, s2. split_and!; try done; try apply _. by rewrite <- Hu.
  - exists E', ts, s2. split_and!; try done; apply _.
  - intros e. by eapply answered_drop.
Qed.

(** A thread that has something left to do. *)
Definition unfinished (x : task * list event) : Prop :=
  match crun_of x.1 x.2 with
  | Some s => match x.1 with Conn _ => ph s <> Ended | Alarm => ph s = Locked end
  | None => False
  end.
#[local] Instance unfinished_dec x : Decision (unfinished x).
Proof. unfold unfinished. destruct (crun_of x.1 x.2); [destruct x.1|]; apply _. Defined.

Lemma task_completes k t : t = [] \/ task_runs k t -> unfinished (k, t) ->
  exists u, task_runs k (t ++ u) /\ ~ unfinished (k, t ++ u) /\ final u.
Proof.
  intros Ht Hun. destruct k as [c|].
  - destruct (conn_completes c t Ht) as (u & s & Hr & Hs & He & Hf). exists u. side. split; [|done].
    unfold unfinished. cbn [fst snd]. rewrite Hs. auto.
  - destruct Ht as [->|Ht]; [done|]. destruct (alarm_completes t Ht) as (u & s & Hr & _ & Hs & Hi & Hf). exists u. side.
    split; [|done]. unfold unfinished. cbn [fst snd]. rewrite Hs, Hi. done.
Qed.

(** ** Running a thread by itself *)

Lemma cstep_no_open k s e s' : cstep with_device k s e = Some s' -> e.2 = final_answer e.1 ->
  forall who T, exists T', fd_effect who e T = Some T'.
Proof.
  intros Hs Ha who T. destruct e as [c a]. cbn in Ha. subst a. unfold fd_effect. cbn [fst snd].
  destruct c; cbn; try (by eexists); destruct s as [[] r w p u]; discriminate Hs.
Qed.

Lemma put_insert {A} i (x : A) l : (i < length l)%nat -> put i x l = <[i := x]> l.
Proof. intros Hi. unfold put. by rewrite insert_take_drop. Qed.

(** The thread that holds its mutex, if one does, is [i]. *)
Definition may_run (g : global) (i : nat) (k : task) : Prop :=
  forall j, holders g !! r_mutex (task_role k) = Some j -> j = i.

Lemma run_one g st i k t e : ginv g st -> peek g i = Some (k, t) -> task_runs k (t ++ [e]) -> e.2 = final_answer e.1 ->
  may_run g i k ->
  exists g', gstep g (Some i, e) g' /\ ginv g' st /\ threads g' = put i (k, t ++ [e]) (threads g) /\
    main_trace g' = main_trace g /\ may_run g' i k.
Proof.
  intros HI Hp Hr Hf Hm. pose proof Hr as (s & s' & Hs & Hst & Hs')%task_automaton.
  pose proof (peek_state _ _ _ _ _ _ HI Hp Hs) as (_ & _ & HH & _).
  destruct (cstep_no_open _ _ _ _ Hst Hf (Some i) (table g)) as [T HT].
  assert (exists H, lock_effect i e (holders g) = Some H) as [H HeH].
  { unfold lock_effect. destruct e as [c a]. destruct c; cbn; try by eexists. case_match; [|by eexists].
    destruct (holders g !! m) as [j|] eqn:Hh; [|by eexists]. exfalso.
    assert (m = r_mutex (task_role k) /\ ph s = Idle) as [-> Hid].
    { destruct s as [[] r w p v]; simpl in Hst; try discriminate Hst. case_decide; [|discriminate Hst]. by destruct_and?. }
    pose proof (Hm j Hh) as ->. apply HH in Hh. destruct Hh as [Hh _]. congruence. }
  assert (task_effect g i e = Some (mk_global (main_trace g) (put i (k, t ++ [e]) (threads g)) (flag_effect e (flags g)) H T)) as He.
  { unfold task_effect. rewrite Hp. cbn. rewrite HT. cbn. by rewrite HeH. }
  eexists. split_and!; [by eapply task_step|by eapply ginv_task|done..|]. intros j Hj. cbn [holders] in Hj.
  destruct (decide (j = i)) as [|Hne]; [done|]. apply Hm. by apply (task_holders _ _ _ _ _ _ _ Hst HeH HH) in Hj.
Qed.

Lemma run_on u : forall g st i k t, ginv g st -> threads g !! i = Some (k, t) -> task_runs k (t ++ u) -> final u ->
  may_run g i k ->
  exists g', gsteps g (pair (Some i) <$> u) g' /\ ginv g' st /\
    threads g' = <[i := (k, t ++ u)]> (threads g) /\ main_trace g' = main_trace g.
Proof.
  induction u as [|e u IH]; intros g st i k t HI Hi Hr Hf Hm.
  { exists g. split_and!; try done; [constructor|]. by rewrite app_nil_r, list_insert_id. }
  assert (task_runs k (t ++ [e])) as Hr1 by (eapply task_runs_prefix; [|exact Hr]; exists u; by rewrite <- app_assoc).
  pose proof (lookup_lt_Some _ _ _ Hi) as Hlt.
  destruct (run_one g st i k t e HI) as (g1 & Hg1 & HI1 & Ht1 & Hmt1 & Hm1); [unfold peek; by rewrite Hi|done|apply Hf; by left|done|].
  destruct (IH g1 st i k (t ++ [e])) as (g' & Hg & HI' & Ht & Hmt).
  - done.
  - rewrite Ht1, put_lookup by lia. by rewrite decide_True.
  - by rewrite <- app_assoc.
  - intros x Hx. apply Hf. by right.
  - done.
  - exists g'. split_and!; [by eapply gsteps_cons|done| |congruence].
    rewrite Ht, Ht1, put_insert, list_insert_insert_eq, <- app_assoc by done. done.
Qed.

(** ** Running all of them *)

Definition left_over (g : global) : nat := length (filter unfinished (threads g)).

Lemma filter_insert_lt {A} (P : A -> Prop) `{forall x, Decision (P x)} l i x y :
  l !! i = Some x -> P x -> ~ P y -> (length (filter P (<[i := y]> l)) < length (filter P l))%nat.
Proof.
  intros Hi Hx Hy. pose proof (lookup_lt_Some _ _ _ Hi). rewrite insert_take_drop by done.
  rewrite <- (take_drop_middle l i x Hi) at 3. rewrite !filter_app, !length_app.
  rewrite filter_cons_False, filter_cons_True by done. cbn. lia.
Qed.

(** A thread that can go on, if one has something left to do. *)
Lemma next_thread g st : ginv g st -> left_over g <> 0%nat ->
  exists i x, threads g !! i = Some x /\ unfinished x /\ may_run g i x.1.
Proof.
  intros HI Hn. unfold left_over in Hn. destruct (filter unfinished (threads g)) as [|x l] eqn:Hfl; [done|].
  assert (x ∈ filter unfinished (threads g)) as [Hx Hin]%list_elem_of_filter by (rewrite Hfl; by left).
  apply list_elem_of_lookup in Hin as [i Hi]. destruct (holders g !! r_mutex (task_role x.1)) as [j|] eqn:Hh; [|exists i, x; split_and!; [done..|congruence]].
  pose proof (proj1 (gi_holder _ _ HI _ j) Hh) as (k & s & (t & Hj & Hs) & Hl & Hm). exists j, (k, t). side. split.
  - unfold unfinished. cbn [fst snd]. rewrite Hs. destruct k; [by rewrite Hl|done].
  - intros j' Hj'. cbn [fst] in Hj'. rewrite Hm, Hh in Hj'. by injection Hj'.
Qed.

Lemma all_complete n : forall g st, left_over g = n -> ginv g st -> programmed g ->
  exists h' g', gsteps g h' g' /\ ginv g' st /\ left_over g' = 0%nat /\ main_trace g' = main_trace g /\
    forall l, l ∈ h' -> exists i x, l.1 = Some i /\ threads g !! i = Some x /\ unfinished x.
Proof.
  induction n as [n IH] using lt_wf_ind. intros g st Hn HI Hpr. destruct (decide (n = 0%nat)) as [->|Hne].
  { exists [], g. split_and!; try done; [constructor|]. by intros l ?%elem_of_nil. }
  destruct (next_thread g st HI) as (i & [k t] & Hi & Hun & Hm); [lia|].
  destruct (task_completes k t (Hpr _ _ _ Hi) Hun) as (u & Hr & Hdone & Hf).
  destruct (run_on u g st i k t HI Hi Hr Hf Hm) as (g1 & Hg1 & HI1 & Ht1 & Hmt1).
  assert (left_over g1 < n)%nat as Hlt.
  { rewrite <- Hn. unfold left_over. rewrite Ht1. by eapply filter_insert_lt. }
  destruct (IH _ Hlt g1 st eq_refl HI1) as (h2 & g2 & Hg2 & HI2 & Hl2 & Hmt2 & Hh2).
  { intros j k' t' Hj. rewrite Ht1 in Hj. apply list_lookup_insert_Some in Hj as [(-> & Hj & _)|[_ Hj]]; [|by eapply Hpr].
    injection Hj as <- <-. by right. }
  exists ((pair (Some i) <$> u) ++ h2), g2. split_and!; try done; [by eapply gsteps_app|congruence|].
  intros l [(e & -> & _)%list_elem_of_fmap|Hl]%elem_of_app; [by exists i, (k, t)|].
  destruct (Hh2 l Hl) as (j & x & Hj & Hx & Hux). exists j, x. split_and!; try done. rewrite Ht1 in Hx.
  apply list_lookup_insert_Some in Hx as [(_ & <- & _)|[_ Hx]]; done.
Qed.

Lemma crun_ended k t s : crun with_device k t = Some s -> ph s = Ended ->
  s = mk_cstate Ended None None false None /\ exists q a, r_node k = Some q /\ last t = Some (StoreDone q, a).
Proof.
  destruct t as [|e t _] using rev_ind; [by intros [= <-]|]. rewrite crun_snoc. destruct (crun with_device k t) as [s0|]; [|done].
  cbn [mbind option_bind]. rewrite last_snoc. intros Hs He. destruct s0 as [f r w p u], e as [c a].
  destruct f, c; simpl in Hs; try discriminate Hs; repeat (case_decide || case_match); simplify_eq/=; try done.
  all: split; [done|]; destruct_and?; by eexists _, a.
Qed.

Lemma nothing_left g st : ginv g st -> left_over g = 0%nat ->
  (forall i c s, thread_in g i (Conn c) s -> ph s = Ended) /\ forall m, holders g !! m = None.
Proof.
  intros HI Hz. assert (forall i x, threads g !! i = Some x -> ~ unfinished x) as Hno.
  { intros i x Hi Hx. unfold left_over in Hz. apply length_zero_iff_nil in Hz.
    assert (x ∈ filter unfinished (threads g)) as Hin by (apply list_elem_of_filter; side; by eapply list_elem_of_lookup_2).
    rewrite Hz in Hin. by apply elem_of_nil in Hin. }
  split.
  - intros i c s (t & Hi & Hs). destruct (decide (ph s = Ended)) as [|Hne]; [done|]. destruct (Hno _ _ Hi).
    unfold unfinished. cbn [fst snd]. by rewrite Hs.
  - intros m. destruct (holders g !! m) as [j|] eqn:Hh; [|done].
    apply (gi_holder _ _ HI) in Hh as (k & s & (t & Hj & Hs) & Hl & _). destruct (Hno _ _ Hj).
    unfold unfinished. cbn [fst snd]. rewrite Hs. destruct k; [by rewrite Hl|done].
Qed.

(** Such a thread has set [done] last, and holds no descriptor. *)
Lemma threads_ended g st : ginv g st -> left_over g = 0%nat ->
  forall i c t, threads g !! i = Some (Conn c, t) ->
    (exists a, last t = Some (StoreDone (conn_addr c), a)) /\ forall fd, table g !! fd <> Some (Some i).
Proof.
  intros HI Hz i c t Hi. destruct (nothing_left _ _ HI Hz) as [Hend _].
  destruct (gi_task _ _ HI _ _ _ Hi) as [s Hs]. assert (thread_in g i (Conn c) s) as Hin by by exists t.
  destruct (crun_ended _ _ _ Hs (Hend _ _ _ Hin)) as (-> & q & a & Hq & Hl). cbn in Hq. injection Hq as <-.
  split; [by eexists|]. intros fd (k & s' & Hin' & Hfd)%(gi_table _ _ HI).
  destruct (thread_in_fun _ _ _ _ _ _ Hin Hin') as [<- <-]. by destruct Hfd as [?|[?|[? _]]].
Qed.

(** ** The handlers first *)

Lemma pinv_steps p p' : pinv p -> rtc pstep p p' -> pinv p'.
Proof. intros HI Hs. induction Hs as [|p1 p2 p3 Hs _ IH]; [done|]. by eapply IH, pinv_step. Qed.

(** A handler that can run to its end. *)
Lemma next_handler g int : pinv (mk_process g int None) -> int <> ∅ ->
  exists who x, int !! who = Some x /\ forall j, holders g !! info_mutex = Some j -> x = Running j.
Proof.
  intros HI [who [x Hx]]%map_choose. destruct (holders g !! info_mutex) as [j|] eqn:Hh; [|exists who, x; by split].
  pose proof (pi_exec _ HI) as [h He]. destruct (exec_inv _ _ He) as [st HG].
  pose proof (proj1 (gi_holder _ _ HG _ j) Hh) as (k & s & Hin & Hl & Hm). destruct k as [c|].
  - pose proof Hin as (t & Hj & _). pose proof (exec_conn_mutex _ _ _ _ _ He Hj) as Hc. rewrite (pi_file _ HI _ _ Hx) in Hc.
    cbn in Hm. rewrite Hc in Hm. by destruct mutexes_differ.
  - destruct (pi_locked _ HI j s Hin Hl) as [who' Hw']. exists who', (Running j). side. by intros j' [= <-].
Qed.

Lemma handler_returns g int : pinv (mk_process g int None) -> int <> ∅ ->
  exists who g', is_Some (int !! who) /\ rtc pstep (mk_process g int None) (mk_process g' (delete who int) None) /\
    main_trace g' = main_trace g.
Proof.
  intros HI Hne. destruct (next_handler g int HI Hne) as (who & x & Hx & Hh). exists who.
  pose proof (pi_exec _ HI) as [h He]. destruct (exec_inv _ _ He) as [st HG]. pose proof (exec_programmed _ _ He) as Hpr.
  destruct x as [|i].
  - set (i := length (threads g)). assert (peek g i = Some (Alarm, [])) as Hp.
    { unfold peek. rewrite lookup_ge_None_2 by done. by rewrite decide_True by (side; exact (pi_file _ HI _ _ Hx)). }
    destruct (alarm_completes [] alarm_begins) as (u & s & Hr & Hret & _ & _ & Hf). cbn [app] in *.
    destruct u as [|e u]; [by destruct (alarm_returned_calls _ Hret)|].
    destruct (run_one g st i Alarm [] e HG Hp) as (g1 & Hg1 & HG1 & Ht1 & Hm1 & Hmay);
      [eapply task_runs_prefix; [|exact Hr]; by exists u|apply Hf; by left|intros j Hj; by apply Hh in Hj|].
    destruct (run_on u g1 st i Alarm [e] HG1) as (g2 & Hg2 & _ & Ht2 & Hm2);
      [rewrite Ht1, put_lookup by done; by rewrite decide_True|done|intros y Hy; apply Hf; by right|done|].
    exists g2. split_and!; [by eexists| |congruence]. eapply rtc_l; [by eapply p_enter|].
    assert (<[who := Running i]> int !! who = Some (Running i)) as Hw by apply lookup_insert_eq.
    etrans; [by eapply lift_handler|]. eapply rtc_l; [eapply p_return; [exact Hw| |exact Hret]|].
    + rewrite Ht2. apply list_lookup_insert_eq. rewrite Ht1. unfold put. rewrite length_app. cbn. unfold i. rewrite length_take. lia.
    + by rewrite delete_insert_eq.
  - destruct (pi_running _ HI _ _ Hx) as [t Ht]. cbn [core] in Ht.
    assert (task_runs Alarm t) as Hrun by (destruct (Hpr _ _ _ Ht) as [->|?]; [apply alarm_begins|done]).
    destruct (alarm_completes t Hrun) as (u & s & Hr & Hret & _ & _ & Hf).
    destruct (run_on u g st i Alarm t HG Ht Hr Hf) as (g2 & Hg2 & _ & Ht2 & Hm2); [intros j Hj; apply Hh in Hj; congruence|].
    exists g2. split_and!; [by eexists| |done]. etrans; [by eapply lift_handler|].
    apply rtc_once. eapply p_return; [done| |exact Hret]. rewrite Ht2. apply list_lookup_insert_eq. by eapply lookup_lt_Some.
Qed.

Lemma handlers_return n : forall g int, size int = n -> pinv (mk_process g int None) ->
  exists g', rtc pstep (mk_process g int None) (mk_process g' ∅ None) /\ main_trace g' = main_trace g.
Proof.
  induction n as [n IH] using lt_wf_ind. intros g int Hn HI. destruct (decide (int = ∅)) as [->|Hne]; [by exists g|].
  destruct (handler_returns g int HI Hne) as (who & g1 & Hw & Hs1 & Hm1).
  destruct (IH (size (delete who int)) ltac:(rewrite map_size_delete_Some by done; pose proof (map_size_ne_0_lookup_2 int who Hw); lia)
    g1 (delete who int) eq_refl (pinv_steps _ _ HI Hs1)) as (g2 & Hs2 & Hm2).
  exists g2. split; [by etrans|congruence].
Qed.

(** Then the connection threads. *)
Lemma process_completes p : pinv p -> status p = None -> (forall m a, (DestroyMutex m, a) ∉ main_trace (core p)) ->
  exists g' st, rtc pstep p (mk_process g' ∅ None) /\ main_trace g' = main_trace (core p) /\ ginv g' st /\ left_over g' = 0%nat.
Proof.
  destruct p as [g int r]. cbn [core status]. intros HI -> Hd. destruct (handlers_return _ g int eq_refl HI) as (g1 & Hs1 & Hm1).
  pose proof (pinv_steps _ _ HI Hs1) as HI1. pose proof (pi_exec _ HI1) as [h He]. destruct (exec_inv _ _ He) as [st HG].
  destruct (all_complete _ g1 st eq_refl HG (exec_programmed _ _ He)) as (h2 & g2 & Hg2 & HG2 & Hz & Hm2 & Hl).
  exists g2, st. split_and!; try done; [|congruence]. etrans; [done|]. apply (lift_steps _ h2); [done|..].
  - intros l _. apply lookup_empty.
  - intros i e Hin. split; [|by rewrite Hm2, Hm1]. destruct (Hl _ Hin) as (j & [k t] & [= <-] & Hj & Hu).
    destruct k as [c|]; [destruct (proj2 (gsteps_extends _ _ _ Hg2) _ _ _ Hj) as (t' & ? & _); by exists c, t'|].
    unfold unfinished in Hu. cbn [fst snd] in Hu. destruct (crun_of Alarm t) as [s|] eqn:Hs; [|done].
    destruct (pi_locked _ HI1 i s) as [who Hw]; [by exists t|done|]. done.
Qed.

(** C14. No deadlock: from every state of the process that can be reached
    before [main] has destroyed the mutex, in whatever interleaving and with
    whatever threads interrupted by the alarm signal, the process has a
    continuation in which the handlers return and every connection thread
    ends, with [done] set as its last event and no descriptor open, and then
    no mutex is held.  The handler runs on the stack of the thread it
    interrupts, which stands still until it has returned, even where that
    thread holds the connections' mutex; the main thread makes no step in
    this continuation.  The mutexes are those of the program; locks inside
    the C library are not modelled. *)
Theorem threads_complete p :
  reachable p -> status p = None -> (forall m a, (DestroyMutex m, a) ∉ main_trace (core p)) ->
  exists p', rtc pstep p p' /\ status p' = None /\ main_trace (core p') = main_trace (core p) /\
    interrupted p' = ∅ /\ (forall m, holders (core p') !! m = None) /\
    forall i c t, threads (core p') !! i = Some (Conn c, t) ->
      (exists a, last t = Some (StoreDone (conn_addr c), a)) /\ forall fd, table (core p') !! fd <> Some (Some i).
Proof.
  intros Hr Hst Hd. destruct (process_completes p (reachable_inv _ Hr) Hst Hd) as (g' & st & Hs & Hm & HG & Hz).
  exists (mk_process g' ∅ None). split_and!; try done; [by eapply nothing_left|by eapply threads_ended].
Qed.
End progress.

Module ProgressWitness.
Import SimEnv ServerWitness ThreadsWitness.
#[local] Instance client0_ok c : EnvOk (client0 c) := sim_env_ok _ _.
#[local] Instance client0_mutex c : MutexOk (client0 c) (file_mutex c) := sim_mutex_ok _ _ _.

(** An execution of connection threads and [main] before it destroys a
    mutex, as one of the process. *)
Definition only_conns (h : list label) (g : global) : bool :=
  forallb (fun l => match l.1 with
    | Some i => match threads g !! i with Some (Conn _, _) => true | _ => false end
    | None => true
    end) h.
Definition intact (tr : list event) : bool :=
  forallb (fun e => match e.1 with DestroyMutex _ => false | _ => true end) tr.

Lemma intact_ok tr : intact tr = true -> forall m a, (DestroyMutex m, a) ∉ tr.
Proof. intros Hi m a Hin%list_elem_of_In. unfold intact in Hi. rewrite forallb_forall in Hi. by specialize (Hi _ Hin). Qed.

Lemma conns_reachable h g : exec h g -> only_conns h g = true -> intact (main_trace g) = true ->
  reachable (mk_process g ∅ None).
Proof.
  intros He Hc Hi. apply (lift_steps _ h); [done|by intros l _|]. intros i e Hin%list_elem_of_In. split; [|by apply intact_ok].
  unfold only_conns in Hc. rewrite forallb_forall in Hc. specialize (Hc _ Hin). cbn in Hc.
  destruct (threads g !! i) as [[[c|] t]|]; try done. by exists c, t.
Qed.

(** One thread holds the mutex and another waits for it; the first is
    interrupted, and its handler has locked its own mutex. *)
Definition waiting : list label := both ++ [the_lock].
Definition the_alarm : label := (Some 2%nat, (Lock 8192, mk_answer 0 [])).
Definition suspended : process :=
  mk_process (after (waiting ++ [the_alarm])) {[Some 0%nat := Running 2]} None.

Lemma suspended_reachable : reachable suspended.
Proof.
  unfold reachable. etrans; [apply (conns_reachable waiting (after waiting)); [replayed client0 (@nil Z)|vm_compute; reflexivity..]|].
  eapply rtc_l; [apply (p_signal _ _ (Some 0%nat)); [reflexivity|reflexivity|]|].
  { right. do 3 eexists. split; [reflexivity|vm_compute; reflexivity]. }
  apply rtc_once. unfold suspended. rewrite <- (insert_empty (Some 0%nat)), <- (insert_insert_eq ∅ (Some 0%nat) (Running 2) Waiting).
  assert (length (threads (after waiting)) = 2%nat) as Hn by (vm_compute; reflexivity). rewrite <- Hn at 1.
  apply (p_enter _ _ _ the_alarm.2); [apply lookup_insert_eq|rewrite Hn]. replayed client0 (@nil Z).
Qed.

Lemma threads_complete_witness :
  holders (core suspended) !! 4096 = Some 0%nat /\ holders (core suspended) !! 8192 = Some 2%nat /\
  exists p', rtc pstep suspended p' /\ status p' = None /\ main_trace (core p') = main_trace (core suspended) /\
    interrupted p' = ∅ /\ (forall m, holders (core p') !! m = None) /\
    forall i c t, threads (core p') !! i = Some (Conn c, t) ->
      (exists a, last t = Some (StoreDone (conn_addr c), a)) /\ forall fd, table (core p') !! fd <> Some (Some i).
Proof.
  split; [vm_compute; reflexivity|]. split; [vm_compute; reflexivity|]. apply (threads_complete suspended).
  - exact suspended_reachable.
  - reflexivity.
  - apply intact_ok. vm_compute. reflexivity.
Defined.
End ProgressWitness.
