(* ===== verification/Shutdown.v ===== *)
(** * The end of the server

    When the main thread reads [server_running] as zero it makes one last
    pass of [reap_threads] and returns, so that a thread that still runs is
    left behind ([shutdown_abandons_threads]).  Here is the other side: if
    all connection threads have ended by then, in whatever interleaving, the
    pass finds each of them done, and when [main] returns every node has been
    freed ([shutdown_frees_nodes]); and from every state before that the
    process, with its signals and its exit ([Signals]), can come to such an
    end ([clean_shutdown]). *)

From S2P Require Import Prelude Posix Queue Handler HandlerSpec HandlerTheorems Server ServerSpec ServerTheorems.
From S2P Require Import Continuation Discipline Interleaving Threads Signals Progress.

(** ** The trace of [main] *)

(** [server_running] is read as zero. *)
Definition is_stop (e : event) : bool :=
  match e with (LoadRunning, a) => rv a =? 0 | _ => false end.
(** The calls the main thread makes from then on. *)
Definition is_closing (e : event) : bool :=
  match e.1 with
  | LoadDone _ | Join _ | Free _ | Close _ | DestroyMutex _ | Unlink _ => true
  | _ => false
  end.
Lemma stop_zero b : rv b = 0 -> is_stop (LoadRunning, b) = true.
Proof. intros Hb. cbn. by apply Z.eqb_eq. Qed.

Definition no_stop (t : list event) : Prop := Forall (fun e => is_stop e = false) t.
Definition closing (t : list event) : Prop := Forall (fun e => is_closing e = true) t.

(** Nor has a mutex been destroyed. *)
Definition serving (t : list event) : Prop :=
  Forall (fun e => is_stop e = false /\ forall m, e.1 <> DestroyMutex m) t.
Lemma serving_no_stop t : serving t -> no_stop t.
Proof. intros Ht. eapply Forall_impl; [exact Ht|]. by intros e [He _]. Qed.
Lemma serving_intact t : serving t -> forall m a, (DestroyMutex m, a) ∉ t.
Proof. intros Ht m a Hin. unfold serving in Ht. rewrite Forall_forall in Ht. destruct (Ht _ Hin) as [_ Hm]. by apply (Hm m). Qed.

Section trace.
Context {E : env} {EOk : EnvOk E}.
Variables (char_device : bool) (id_of : answer -> Z) (file_mutex : Z).

(** The flag has not been read as zero; it has just been. *)
Definition going (s : server) : Prop := serving (s_trace s).
Definition stopped (s : server) : Prop :=
  exists t a, s_trace s = t ++ [(LoadRunning, a)] /\ rv a = 0 /\ serving t.

Definition ordinary (c : syscall) : Prop := match c with LoadRunning | DestroyMutex _ => False | _ => True end.

Lemma going_call c : ordinary c -> preserves going (ssys E c).
Proof.
  intros Hc s Hs a s' [= <- <-]. unfold going, serving. cbn [s_trace]. apply Forall_app. split; [done|].
  apply Forall_singleton. by destruct c.
Qed.

Lemma going_callv c : ordinary c -> preserves going (ssysv E c).
Proof. intros Hc. apply preserves_bind; [by apply going_call|]. intros a. apply preserves_ret. Qed.

Ltac going_tac := first [by apply going_call|by apply going_callv|by apply preserves_modify].

Lemma reap_going : preserves going (reap_threads E).
Proof.
  unfold reap_threads. apply preserves_bind; [by intros s Hs a s' [= <- <-]|]. intros s. apply preserves_iterate.
  intros [cur k]. unfold reap_body, list_remove, set_list, free_node, get_node. preserve_with going_tac.
Qed.

Lemma setup_going argc dash_d : preserves going (setup E char_device id_of argc dash_d).
Proof. unfold setup, setup_alarm. preserve_with going_tac. Qed.

Definition round_end (r : option (unit + unit)) : server -> Prop :=
  match r with Some (inr _) => stopped | _ => going end.

Lemma load_running {B} (f : Z -> ST server B) Q s : going s ->
  (forall s', stopped s' -> pc (f 0) Q s') -> (forall z s', z <> 0 -> going s' -> pc (f z) Q s') ->
  pc (ssysv E LoadRunning ≫= f) Q s.
Proof.
  intros Hs H0 H1. pc_step. intros z s' [= <- <-]. set (a := E (s_trace s) LoadRunning).
  destruct (decide (rv a = 0)) as [Hz|Hz].
  - rewrite Hz. apply H0. by exists (s_trace s), a.
  - apply H1; [done|]. unfold going, serving. cbn [s_trace]. apply Forall_app. side.
    apply Forall_singleton. split; [|done]. cbn. by apply Z.eqb_neq.
Qed.

(** A computation that ends with the flag read as zero exactly when it
    leaves the loop. *)
Definition leaves (m : ST server (option (unit + unit))) : Prop := forall s, going s -> pc m round_end s.

Lemma leaves_inl : leaves (mret (Some (inl tt))).
Proof. intros s Hs. by pc_step. Qed.

Lemma leaves_bind {A} (m : ST server A) f : preserves going m -> (forall a, leaves (f a)) -> leaves (m ≫= f).
Proof. intros Hm Hf s Hs. pc_step. eapply pc_mono; [by apply Hm|]. intros a s' Hs'. by apply Hf. Qed.

Lemma leaves_obind {A} (m : ST server (option A)) f :
  preserves going m -> (forall a, leaves (f a)) -> leaves (obind m f).
Proof. intros Hm Hf. apply leaves_bind; [done|]. intros [a|]; [apply Hf|]. intros s Hs. by pc_step. Qed.

Lemma accept_round_leaves sockfd : leaves (accept_round E char_device id_of file_mutex sockfd).
Proof.
  unfold accept_round. apply leaves_bind; [going_tac|]. intros cl. destruct (cl <? 0).
  - apply leaves_bind; [going_tac|]. intros errno. destruct (errno =? EINTR).
    + intros s Hs. apply load_running; [done|..].
      * intros s' Hs'. rewrite Z.eqb_refl. by pc_step.
      * intros z s' Hz Hs'. rewrite (proj2 (Z.eqb_neq _ _) Hz). by pc_step.
    + intros s Hs. do 2 pc_step. cbn [Z.eqb]. by pc_step.
  - unfold list_insert_head, list_remove, set_list, put_node, free_node, get_node.
    repeat lazymatch goal with
    | |- leaves (mret _) => apply leaves_inl
    | |- leaves (obind _ _) => apply leaves_obind; [apply reap_going|intros ?]
    | |- leaves (mbind _ _) => apply leaves_bind; [|intros ?]
    | |- leaves (if ?b then _ else _) => destruct b
    end; preserve_with going_tac.
Qed.

Lemma accept_loop_leaves fuel sockfd s : going s ->
  pc (iterate fuel (accept_body E char_device id_of file_mutex sockfd) tt)
    (fun r s' => match r with Some _ => stopped s' | None => going s' end) s.
Proof.
  intros Hs. apply (pc_iterate (fun _ => going)); [|by intros ?|done].
  intros [] s' Hs'. unfold accept_body. apply load_running; [done|..].
  - intros s2 Hs2. rewrite Z.eqb_refl. by pc_step.
  - intros z s2 Hz Hs2. rewrite (proj2 (Z.eqb_neq _ _) Hz). eapply pc_mono; [by apply accept_round_leaves|].
    by intros [[|]|] s3 Hs3.
Qed.

(** ** Its end *)

Lemma reaped_closing h l t l' k : reaped h l t l' k ->
  closing t /\ forall q, q ∈ l' -> exists a, rv a = 0 /\ (LoadDone q, a) ∈ t.
Proof.
  unfold closing. induction 1 as [|p l t l' k a Ha Hr [IH IH']|p l t l' k a b c v Ha Hv Hr [IH IH']].
  - split; [done|]. by intros q ?%elem_of_nil.
  - split; [by constructor|]. intros q [->|Hq]%elem_of_cons; [exists a; split; [done|by left]|].
    destruct (IH' q Hq) as (b & Hb & Hin). exists b. side. by right.
  - split; [by repeat constructor|]. intros q Hq. destruct (IH' q Hq) as (d & Hd & Hin). exists d. side. by do 3 right.
Qed.

(** After the flag has been read as zero: every node in the list is
    asked for [done], and those found to be done are freed. *)
Definition ended_well (r : option Z) (s : server) : Prop :=
  (serving (s_trace s) /\ (r <> None -> live (s_trace s) = ∅)) \/
  exists t a u, s_trace s = t ++ (LoadRunning, a) :: u /\ rv a = 0 /\ serving t /\ closing u /\ r <> None /\
    forall q, q ∈ live (s_trace s) -> exists b, rv b = 0 /\ (LoadDone q, b) ∈ u.

Lemma shutdown_quiet sockfd s :
  pc (shutdown E char_device file_mutex sockfd) (fun _ s' => exists u, s_trace s' = s_trace s ++ u /\ closing u /\
    live (s_trace s') = live (s_trace s)) s.
Proof.
  unfold shutdown. intros r s' Hr. unfold mbind, st_bind, ssys, mret, st_ret in Hr. destruct char_device; cbn in Hr; simplify_eq; cbn [s_trace];
    rewrite <- ?app_assoc; eexists; (split; [reflexivity|]); rewrite live_app; (split; [by repeat constructor|done]).
Qed.

Lemma setup_empty argc dash_d : preserves (fun s => live (s_trace s) = ∅) (setup E char_device id_of argc dash_d).
Proof.
  assert (forall c, match c with Malloc _ | Realloc _ _ | Free _ => False | _ => True end ->
    preserves (fun s => live (s_trace s) = ∅) (ssys E c)) as Hc.
  { intros c Hc s Hs a s' [= <- <-]. cbn [s_trace]. rewrite live_app, Hs. by destruct c. }
  unfold setup, setup_alarm. unfold ssysv. preserve_with ltac:(first [by apply Hc|by apply preserves_modify]).
Qed.

Lemma pc_both {S A} (m : ST S A) (P Q : A -> S -> Prop) s :
  wp m P s -> pc m Q s -> pc m (fun a s' => P a s' /\ Q a s') s.
Proof. intros HP HQ. pose proof (wp_pc _ _ _ _ HP HQ) as H. intros a s' Hm. unfold wp in H. by rewrite Hm in H. Qed.

(** The last pass. *)
Lemma last_pass sockfd s : good s -> stopped s ->
  pc (_ ←? reap_threads E; r ← shutdown E char_device file_mutex sockfd; mret (Some r)) ended_well s.
Proof using EOk.
  intros [l Hl] (t & a & Ht & Ha & Hno). destruct s as [tr f h]. cbn [s_trace] in Ht. subst tr. unfold obind. pc_step.
  eapply pc_mono; [eapply (pc_both _ _ (fun _ _ => True)); [by apply reap_threads_ok|done]|].
  intros r s1 [(u & l' & k & f' & h' & -> & -> & Hre & Hown & _) _]. pc_step.
  eapply pc_mono; [apply shutdown_quiet|]. intros z s2 (v & Hs2 & Hv & Hlive). pc_step. right.
  destruct (reaped_closing _ _ _ _ _ Hre) as [Hu Hdone]. exists t, a, (u ++ v). cbn [s_trace] in Hs2, Hlive.
  split_and!; try done.
  - by rewrite Hs2, <- !app_assoc.
  - by apply Forall_app.
  - intros q. rewrite Hlive. pose proof (owns_live _ _ Hown) as Ho. cbn [s_trace] in Ho. rewrite Ho, (owns_dom _ _ Hown).
    intros (b & Hb & Hin)%elem_of_list_to_set%Hdone. exists b. side. by apply elem_of_app; left.
Qed.

Lemma main_ends fuel argc dash_d first :
  pc (main E char_device id_of file_mutex fuel argc dash_d) ended_well (mk_server [] first ∅).
Proof using EOk.
  unfold main. pc_step.
  assert (going (mk_server [] first ∅)) as H0 by apply Forall_nil_2.
  eapply pc_mono; [eapply (pc_both _ _ (fun _ s => going s /\ live (s_trace s) = ∅)); [by apply setup_ok|]|].
  { intros x s Hx. split; [by apply (setup_going argc dash_d _ H0 _ _ Hx)|exact (setup_empty argc dash_d (mk_server [] first ∅) eq_refl _ _ Hx)]. }
  intros [status|sockfd] s1 (Hs1 & Hgo & Hlive); cbv beta iota; [pc_step; by left|]. destruct Hs1 as (_ & Hgood & _).
  unfold obind at 1. pc_step.
  eapply pc_mono; [eapply pc_both; [by apply (accept_loop_ok char_device id_of file_mutex sockfd 0 False)|by apply accept_loop_leaves]|].
  intros [[]|] s2 [[Hg2 _] Hs2]; [by apply last_pass|]. pc_step. by left.
Qed.
End trace.

(** ** Completing a run of [main] *)

Section main_agrees.
Context {E E' : env} {n : nat}.
Hypothesis HE : forall tr c, (length tr < n)%nat -> E' tr c = E tr c.
Variables (char_device : bool) (id_of : answer -> Z) (file_mutex : Z).
#[local] Abbreviation agrees := (agrees s_trace n).

Lemma agrees_ssys c : agrees (ssys E c) (ssys E' c).
Proof using HE.
  by apply (agrees_call s_trace n E E' c (fun x a => mk_server (s_trace x ++ [(c, a)]) (conn_node_head x) (nodes x))).
Qed.

Ltac agree_main := agree_with ltac:(apply agrees_ssys).

Lemma reap_agrees : agrees (reap_threads E) (reap_threads E').
Proof using HE.
  unfold reap_threads, reap_body, list_remove, set_list, free_node, get_node, ssysv. agree_main.
Qed.

Lemma accept_agrees sockfd x :
  agrees (accept_body E char_device id_of file_mutex sockfd x) (accept_body E' char_device id_of file_mutex sockfd x).
Proof using HE.
  unfold accept_body, accept_round, list_insert_head, list_remove, set_list, put_node, free_node, get_node, ssysv.
  agree_with ltac:(first [apply agrees_ssys|apply reap_agrees]).
Qed.

Lemma main_agrees fuel argc dash_d :
  agrees (main E char_device id_of file_mutex fuel argc dash_d) (main E' char_device id_of file_mutex fuel argc dash_d).
Proof using HE.
  unfold main, setup, setup_alarm, shutdown, ssysv.
  agree_with ltac:(first [apply agrees_ssys|apply reap_agrees|apply accept_agrees]).
Qed.
End main_agrees.

Section main_grows.
Context {E : env}.
Variables (char_device : bool) (id_of : answer -> Z) (file_mutex : Z).

Lemma main_grows fuel fuel' argc dash_d : (fuel <= fuel')%nat ->
  grows s_trace (main E char_device id_of file_mutex fuel argc dash_d) (main E char_device id_of file_mutex fuel' argc dash_d).
Proof.
  intros Hle. assert (forall tr c, (length tr < 0)%nat -> E tr c = E tr c) as HE by done.
  pose proof (fun A (m : ST server A) (H : agrees s_trace 0 m m) => ag_left _ _ _ _ H) as Hag. unfold main.
  apply grows_bind; [|intros [status|sockfd]; [apply grows_refl, longer_ret|]].
  { apply Hag. unfold setup, setup_alarm, ssysv. agree_with ltac:(by apply agrees_ssys). }
  apply grows_obind.
  - apply grows_iterate; [done|]. intros x. apply grows_refl, Hag, (accept_agrees HE).
  - intros x. apply grows_refl, Hag, agrees_obind; [apply (reap_agrees HE)|]. intros k. unfold shutdown.
    agree_with ltac:(by apply agrees_ssys).
Qed.

Lemma main_answers fuel argc dash_d :
  preserves (fun s => answers E (s_trace s)) (main E char_device id_of file_mutex fuel argc dash_d).
Proof.
  assert (forall c, preserves (fun s => answers E (s_trace s)) (ssys E c)) as Hc.
  { intros c s Hs a s' [= <- <-]. by apply answers_call. }
  assert (preserves (fun s => answers E (s_trace s)) (reap_threads E)) as Hr.
  { unfold reap_threads. apply preserves_bind; [by intros s Hs a s' [= <- <-]|]. intros s.
    unfold reap_body, list_remove, set_list, free_node, get_node, ssysv.
    preserve_with ltac:(first [apply Hc|by apply preserves_modify]). }
  unfold main, setup, setup_alarm, accept_body, accept_round, list_insert_head, list_remove, set_list, put_node, free_node,
    get_node, shutdown, ssysv.
  preserve_with ltac:(first [apply Hc|apply Hr|by apply preserves_modify]).
Qed.
End main_grows.

(** ** The flags when the threads have ended *)

Section shutdown.
Context {B : build}.
#[local] Abbreviation crun_of k := (crun with_device (task_role k)).

(** A node whose thread was started and has not been seen to be done: its
    thread runs, or its flag is set. *)
Definition accounted (g : global) : Prop := forall st q, mrun (main_trace g) = Some st -> q ∈ started st ->
  flags g !! q = Some true \/ exists i c s, thread_in g i (Conn c) s /\ conn_addr c = q /\ ph s <> Ended.

Lemma mstep_started st e st' q : mstep st e = Some st' -> q ∈ started st' ->
  (q ∈ started st /\ e.1 <> ClearDone q) \/ (e.1 = Create q /\ rv e.2 = 0).
Proof.
  intros Hm Hq. unfold mstep in Hm. destruct e as [[] a]; cbn [fst snd] in *; repeat (case_decide || case_match); simplify_eq/=;
    try (left; split; [set_solver|congruence]).
  destruct (decide (q = thread_arg)) as [->|Hne]; [right; split; [done|lia]|left; split; [set_solver|done]].
Qed.

Lemma accounted_main g st e g' : ginv g st -> main_runs (main_trace g ++ [e]) -> main_effect g e = Some g' ->
  accounted g -> accounted g'.
Proof.
  intros HI Hr He Hac st' q Hst' Hq. destruct (ginv_main _ _ _ _ HI Hr He) as (st1 & Hs & HI1).
  rewrite (gi_main _ _ HI1) in Hst'. injection Hst' as <-. pose proof (fun j k s => main_threads g e g' j k s He) as Hth.
  destruct (main_cases _ _ _ He) as (T & _ & _ & _ & Hcase). destruct (mstep_started _ _ _ _ Hs Hq) as [[Hold Hne]|[Hc Ha]].
  - destruct (Hac st q (gi_main _ _ HI) Hold) as [Hf|(i & c & s & Hin & Hx)].
    + left. destruct Hcase as [(p & c & _ & _ & _ & _ & -> & _)|(_ & _ & _ & -> & _)]; [done|].
      destruct (e.1); try done. rewrite lookup_insert_ne; [done|congruence].
    + right. exists i, c, s. split; [apply Hth; by left|done].
  - destruct Hcase as [(p & c & Hp & _ & Hn & _)|(Hno & _)]; [|by destruct (Hno q Hc)].
    rewrite Hc in Hp. injection Hp as <-. destruct (main_create _ _ _ _ _ _ _ HI Hs He Hc Ha Hn) as (Hca & _).
    right. exists (length (threads g)), c, (cstart (task_role (Conn c))).
    split; [apply Hth; right; by exists q, c|done].
Qed.

Lemma accounted_task g st i k t e g' : ginv g st -> peek g i = Some (k, t) -> task_runs k (t ++ [e]) ->
  task_effect g i e = Some g' -> accounted g -> accounted g'.
Proof.
  intros HI Hp (s & s' & Hs & Hst & Hs')%task_automaton He Hac st' q Hst' Hq.
  pose proof (fun j k' u => task_threads _ _ _ _ _ _ _ j k' u Hp Hs' He) as Hth.
  assert (main_trace g' = main_trace g /\ flags g' = flag_effect e (flags g)) as [Hm Hfl].
  { unfold task_effect in He. rewrite Hp in He. cbn in He. destruct (fd_effect _ _ _); [|done].
    destruct (lock_effect _ _ _); [|done]. by injection He as <-. }
  rewrite Hm in Hst'. rewrite Hfl. pose proof (task_flags _ _ _ _ (flags g) Hst) as Htf.
  destruct (Hac st' q Hst' Hq) as [Hf|(j & c & u & Hj & Hc & Hu)].
  - left. destruct Htf as [[_ ->]|(_ & c & _ & ->)]; [done|]. destruct (decide (q = conn_addr c)) as [->|];
      [apply lookup_insert_eq|by rewrite lookup_insert_ne].
  - destruct (decide (j = i)) as [->|Hne]; [|right; exists j, c, u; split; [apply Hth; by left|done]].
    destruct Hj as (t' & Ht' & Hu'). assert (k = Conn c) as ->.
    { unfold peek in Hp. rewrite Ht' in Hp. by injection Hp. }
    destruct Htf as [[Hend _]|(_ & c' & [= <-] & ->)]; [|left; subst q; apply lookup_insert_eq].
    right. exists i, c, s'. split; [apply Hth; by right|done].
Qed.

Lemma exec_accounted h g : exec h g -> accounted g.
Proof.
  assert (forall g h g', gsteps g h g' -> forall st, ginv g st -> accounted g -> accounted g') as Hgen.
  { intros g0 h0 g1 Hg. induction Hg as [|g0 l g1 h1 g2 Hl _ IH]; [done|]. intros st HI Hac.
    destruct (gstep_inv _ _ _ _ HI Hl) as [st1 HI1]. apply (IH st1 HI1).
    destruct Hl as [e g' Hr He|i k t e g' Hp Hr He].
    - exact (accounted_main _ _ _ _ HI Hr He Hac).
    - exact (accounted_task _ _ _ _ _ _ _ HI Hp Hr He Hac). }
  intros He. eapply Hgen; [exact He|apply ginv_init|]. by intros st q [= <-].
Qed.

(** Every connection thread has ended, and every node says so. *)
Definition all_ended (g : global) : Prop := forall i c s, thread_in g i (Conn c) s -> ph s = Ended.
Definition ripe (g : global) : Prop :=
  all_ended g /\ forall q, q ∈ live (main_trace g) -> flags g !! q = Some true.

(** That is so when the main thread reads [server_running], which it does
    when every node it has allocated has got its thread. *)
Lemma ripe_stop g st a g' :
  ginv g st -> accounted g -> all_ended g -> gstep g (None, (LoadRunning, a)) g' -> ripe g'.
Proof.
  intros HI Hac Hend Hs. inversion Hs as [e g1 Hr He|]; subst. destruct (ginv_main _ _ _ _ HI Hr He) as (st' & Hst & _).
  destruct (mrun_spec _ _ (gi_main _ _ HI)) as (Hal & _). unfold mstep in Hst. cbn in Hst. case_decide as Hsub; [|done]. cbn in He.
  injection He as <-. split; [exact Hend|]. intros q Hq. cbn [main_trace flags] in *. rewrite live_app in Hq.
  change (q ∈ live (main_trace g)) in Hq. rewrite <- Hal in Hq.
  destruct (Hac st q (gi_main _ _ HI) (Hsub q Hq)) as [|(i & c & s & Hin & _ & Hne)]; [done|]. by destruct (Hne (Hend _ _ _ Hin)).
Qed.

Lemma ripe_main g e g' : main_effect g e = Some g' -> is_closing e = true -> ripe g ->
  ripe g' /\ live (main_trace g') ⊆ live (main_trace g) /\
  forall q b, e = (LoadDone q, b) -> q ∈ live (main_trace g) -> rv b <> 0.
Proof.
  intros He Hc [Hend Hfl]. destruct (main_cases _ _ _ He) as (T & _ & Htr & _ & [(p & c & Hp & _)|(_ & Hth & _ & Hf & _)]).
  { destruct e as [k a]. cbn in Hp. by subst k. }
  assert (live (main_trace g') ⊆ live (main_trace g)) as Hlive.
  { rewrite Htr, live_app. destruct e as [[] a]; try discriminate Hc; cbn; set_solver. }
  split_and!; [|done|].
  - split; [intros i c s; unfold thread_in; rewrite Hth; apply Hend|]. intros q Hq%Hlive%Hfl. rewrite Hf.
    by destruct e as [[] a].
  - intros q b -> Hq%Hfl Hb. unfold main_effect in He. cbn in He. by rewrite Hq, Hb in He.
Qed.

Lemma ripe_task g st i k t e g' : ginv g st -> peek g i = Some (k, t) -> task_runs k (t ++ [e]) ->
  task_effect g i e = Some g' -> ripe g -> ripe g' /\ main_trace g' = main_trace g.
Proof.
  intros HI Hp Hr He [Hend Hfl]. destruct (task_automaton _ _ _ Hr) as (s & s' & Hs & Hst & Hs').
  destruct (peek_state _ _ _ _ _ _ HI Hp Hs) as (_ & _ & _ & Hc). pose proof (cstep_running _ _ _ _ Hst) as Hrun.
  pose proof (fun j k' u => task_threads _ _ _ _ _ _ _ j k' u Hp Hs' He) as Hth.
  assert (forall c, k <> Conn c) as Hk by (intros c ->; by apply Hrun, (Hend i c), (Hc c)).
  unfold task_effect in He. rewrite Hp in He. cbn in He. destruct (fd_effect _ _ _); [|done].
  destruct (lock_effect _ _ _); [|done]. injection He as <-. split; [|done]. split; cbn [main_trace flags].
  - intros j c u [[_ Hj]|(_ & Hkc & _)]%Hth; [by apply (Hend j c)|]. by destruct (Hk c).
  - intros q Hq. destruct (task_flags _ _ _ _ (flags g) Hst) as [[_ ->]|(_ & c & Hkc & _)]; [by apply Hfl|]. by destruct (Hk c).
Qed.

Lemma ripe_steps g h g' : gsteps g h g' -> forall st, ginv g st -> ripe g ->
  (forall e, (None, e) ∈ h -> is_closing e = true) ->
  live (main_trace g') ⊆ live (main_trace g) /\
  forall q b, (None, (LoadDone q, b)) ∈ h -> q ∈ live (main_trace g') -> rv b <> 0.
Proof.
  induction 1 as [g|g l g1 h g2 Hl _ IH]; intros st HI Hri Hc; [split; [done|]; by intros q b ?%elem_of_nil|].
  destruct (gstep_inv _ _ _ _ HI Hl) as [st1 HI1].
  assert (ripe g1 /\ live (main_trace g1) ⊆ live (main_trace g) /\
    forall q b, l = (None, (LoadDone q, b)) -> q ∈ live (main_trace g) -> rv b <> 0) as (Hri1 & Hsub & Hd).
  { destruct Hl as [e g1 Hr He|i k t e g1 Hp Hr He].
    - destruct (ripe_main _ _ _ He (Hc e ltac:(by left)) Hri) as (H1 & H2 & H3). split_and!; try done.
      intros q b [= ->]. by apply H3.
    - by destruct (ripe_task _ _ _ _ _ _ _ HI Hp Hr He Hri) as [H1 ->]. }
  destruct (IH st1 HI1 Hri1) as [Hsub2 Hd2]; [intros e He; apply Hc; by right|]. split; [set_solver|].
  intros q b [Hq|Hq]%elem_of_cons Hin; [eapply Hd; [done|set_solver]|by eapply Hd2].
Qed.

(** The events of the main thread. *)
Definition main_events (h : list label) : list event :=
  omap (fun l => match l.1 with None => Some l.2 | Some _ => None end) h.

Lemma main_events_trace g h g' : gsteps g h g' -> main_trace g' = main_trace g ++ main_events h.
Proof.
  induction 1 as [g|g l g1 h g2 Hl _ IH]; [by rewrite app_nil_r|]. rewrite IH. unfold main_events. destruct Hl as [e g1 _ He|i k t e g1 Hp _ He]; cbn.
  - destruct (main_cases _ _ _ He) as (T & _ & -> & _). by rewrite <- app_assoc.
  - unfold task_effect in He. rewrite Hp in He. cbn in He. destruct (fd_effect _ _ _); [|done].
    destruct (lock_effect _ _ _); [|done]. by injection He as <-.
Qed.

Lemma main_events_in e h : e ∈ main_events h <-> (None, e) ∈ h.
Proof.
  unfold main_events. rewrite list_elem_of_omap. split.
  - intros ([[i|] e'] & Hin & He); [done|]. by injection He as <-.
  - intros Hin. by exists (None, e).
Qed.

(** There is one place where the flag is read as zero. *)
Lemma stop_once t x u t' y u' : no_stop t -> is_stop x = true -> closing u -> is_stop y = true ->
  t ++ x :: u = t' ++ y :: u' -> t = t' /\ u = u'.
Proof.
  intros Ht Hx Hu Hy. revert t'. induction Ht as [|w t Hw Ht IH]; intros [|z t'] Heq; cbn in Heq; injection Heq as -> Heq.
  - done.
  - subst u. apply Forall_app in Hu as [_ [Hc _]%Forall_cons]. by destruct y as [[] b].
  - congruence.
  - by destruct (IH t' Heq) as [-> ->].
Qed.

Lemma pass_frees g st a g2 h g' r :
  ginv g st -> accounted g -> all_ended g -> gstep g (None, (LoadRunning, a)) g2 -> rv a = 0 ->
  gsteps g2 h g' -> main_returns (main_trace g') r -> live (main_trace g') = ∅.
Proof.
  intros HI Hac Hend Hs Ha Hsteps (E & id_of & fuel & argc & d & first & s' & HE & _ & Hrun & Htr).
  pose proof (ripe_stop _ _ _ _ HI Hac Hend Hs) as Hri. destruct (gstep_inv _ _ _ _ HI Hs) as [st2 HI2].
  pose proof (main_events_trace _ _ _ (gsteps_cons _ _ _ _ _ Hs Hsteps)) as Hm.
  change (main_events (_ :: h)) with ((LoadRunning, a) :: main_events h) in Hm.
  destruct (main_ends with_device id_of main_mutex fuel argc d first _ _ Hrun) as [[Hno _]|(t & b & u & Htu & Hb & Hno & Hu & _ & Hd)].
  { exfalso. apply serving_no_stop in Hno. unfold no_stop in Hno. rewrite Htr, Hm in Hno. apply Forall_app in Hno as [_ [Hx _]%Forall_cons]. by rewrite (stop_zero a Ha) in Hx. }
  rewrite Htr in *. rewrite Hm in Htu. apply eq_sym in Htu.
  destruct (stop_once _ _ _ _ _ _ (serving_no_stop _ Hno) (stop_zero b Hb) Hu (stop_zero a Ha) Htu) as [-> ->].
  destruct (ripe_steps _ _ _ Hsteps st2 HI2 Hri) as [_ Hnz].
  { intros e He%main_events_in. by eapply Forall_forall in Hu. }
  apply elem_of_equiv_empty_L. intros q Hq. destruct (Hd q Hq) as (c & Hc & Hin%main_events_in). by apply (Hnz q c).
Qed.

Lemma done_ended k t s q a : crun with_device k t = Some s -> last t = Some (StoreDone q, a) -> ph s = Ended.
Proof.
  intros Hs (t' & ->)%last_Some. rewrite crun_snoc in Hs. destruct (crun with_device k t') as [s0|]; [|done].
  cbn [mbind option_bind] in Hs. destruct s0 as [[] r w p u]; simpl in Hs; repeat (case_decide || case_match); by simplify_eq/=.
Qed.

(** C15. At shutdown no node is lost that can be freed: if every connection
    thread has set [done] when the main thread reads [server_running] as
    zero, then, however the threads are interleaved before and after, every
    node that was allocated has been freed when [main] returns. *)
Theorem shutdown_frees_nodes h1 g1 a g2 h g r :
  exec h1 g1 -> gstep g1 (None, (LoadRunning, a)) g2 -> rv a = 0 ->
  (forall i c t, threads g1 !! i = Some (Conn c, t) -> exists b, last t = Some (StoreDone (conn_addr c), b)) ->
  gsteps g2 h g -> main_returns (main_trace g) r ->
  live (main_trace g) = ∅.
Proof.
  intros He Hs Ha Hend Hsteps. destruct (exec_inv _ _ He) as [st HI]. eapply pass_frees; try done; [by eapply exec_accounted|].
  intros i c s (t & Ht & Hc). destruct (Hend i c t Ht) as [b Hb]. by eapply done_ended.
Qed.

(** ** A way to the end *)

Definition clear_effect (F : gmap Z bool) (e : event) : gmap Z bool :=
  match e.1 with ClearDone p => <[p := false]> F | _ => F end.

(** The answers after the events [u]: no client comes, no thread can be
    started, [server_running] is zero, and a flag reads as it is. *)
Definition stop_answer (F : gmap Z bool) (u : list event) (c : syscall) : answer :=
  match c with
  | Open _ _ _ | Accept _ | Socket => mk_answer (-1) []
  | Create _ => mk_answer 1 []
  | LoadDone p => mk_answer (if default false (foldl clear_effect F u !! p) then 1 else 0) []
  | _ => mk_answer 0 []
  end.
Definition stop_env (E : env) (n : nat) (F : gmap Z bool) : env := fun tr c =>
  if decide (length tr < n)%nat then E tr c else stop_answer F (drop n tr) c.

#[local] Instance stop_env_ok E n F : EnvOk E -> EnvOk (stop_env E n F).
Proof.
  intros HE. split; intros *; unfold stop_env; case_decide; simpl; try apply HE; try done; try lia; intros; split; intros; lia.
Qed.
#[local] Instance stop_env_accept E n F : AcceptOk E -> AcceptOk (stop_env E n F).
Proof. intros HA tr fd. unfold stop_env. case_decide; [apply HA|]. cbn. lia. Qed.

Lemma loads_length t : (loads t <= length t)%nat.
Proof. unfold loads. induction t as [|e t IH]; cbn; [done|]. destruct (is_load e); cbn; lia. Qed.

(** In this environment the beginning of a run is the beginning of one
    that ends. *)
Lemma main_goes_on {E : env} {HE : EnvOk E} id_of fuel argc d first r s' tr F :
  main E with_device id_of main_mutex fuel argc d (mk_server [] first ∅) = Some (r, s') -> tr `prefix_of` s_trace s' ->
  exists fuel' z s3, main (stop_env E (length tr) F) with_device id_of main_mutex fuel' argc d (mk_server [] first ∅) = Some (Some z, s3) /\
    tr `prefix_of` s_trace s3.
Proof.
  intros Hrun [v Hv]. set (n := length tr). set (E' := stop_env E n F). set (fuel' := (fuel `max` S n)%nat).
  destruct (wp_inv _ _ _ (main_ok (E := E') with_device id_of main_mutex fuel' n True argc d [] first eq_refl
    ltac:(intros _ t Ht; pose proof (loads_length t); unfold E', stop_env; by rewrite decide_False by lia) ltac:(unfold fuel'; lia)))
    as (r3 & s3 & Hr3 & Hz).
  assert (exists z, r3 = Some z) as [z ->] by (destruct Hz as [->|[_ [->|[_ Hz]]]]; [by eexists..|by destruct Hz]).
  exists fuel', z, s3. side.
  destruct (main_safe (E := E') with_device id_of main_mutex fuel argc d [] first eq_refl) as (r2 & s2 & Hr2 & _).
  trans (s_trace s2).
  - assert (take n (s_trace s') = tr) as Htk by (rewrite Hv; apply take_app_length).
    destruct (ag_same _ _ _ _ (main_agrees (n := n) (E := E) (E' := E')
      ltac:(intros t k Hk; unfold E', stop_env; by rewrite decide_True) with_device id_of main_mutex fuel argc d) _ _ _ _ _ Hrun Hr2)
      as [[_ <-]|(Heq & _)]; [by exists v|]. exists (drop n (s_trace s2)). rewrite <- Htk, Heq. by rewrite take_drop.
  - by destruct (gr_same _ _ _ (main_grows with_device id_of main_mutex fuel fuel' argc d ltac:(unfold fuel'; lia)) _ _ _ _ _ Hr2 Hr3)
      as [[_ <-]|[_ Hp3]].
Qed.

Lemma main_completes tr F : tr = [] \/ main_runs tr -> exists u r, main_returns (tr ++ u) r /\
  forall i c a, u !! i = Some (c, a) -> a = stop_answer F (take i u) c.
Proof.
  intros Htr.
  assert (exists E id_of fuel argc d first r s', EnvOk E /\ AcceptOk E /\
    main E with_device id_of main_mutex fuel argc d (mk_server [] first ∅) = Some (r, s') /\ tr `prefix_of` s_trace s')
    as (E & id_of & fuel & argc & d & first & r & s' & HE & HA & Hrun & Hp).
  { destruct Htr as [->|Htr]; [|exact Htr].
    destruct (main_safe (E := stop_env dead_env 0 F) with_device rv main_mutex 1 1 false [] 0 eq_refl) as (r & s' & Hr & _).
    exists (stop_env dead_env 0 F), rv, 1%nat, 1, false, 0, r, s'. split_and!; try done; try apply _; [|apply prefix_nil].
    intros t fd. unfold stop_env. rewrite decide_False by lia. cbn. lia. }
  destruct (main_goes_on id_of fuel argc d first r s' tr F Hrun Hp) as (fuel' & z & s3 & Hr3 & [u Hu]). exists u, z. split.
  - exists (stop_env E (length tr) F), id_of, fuel', argc, d, first, s3. split_and!; try done; apply _.
  - intros i c a Hi. pose proof (main_answers with_device id_of main_mutex fuel' argc d (mk_server [] first ∅)
      ltac:(done) _ _ Hr3 (length tr + i)%nat c a) as Ha. cbv beta in Ha. unfold stop_env in Ha.
    rewrite Hu, lookup_app_r, take_app_add, decide_False, drop_app_length in Ha by (rewrite ?length_app; unfold event in *; lia).
    apply Ha. rewrite <- Hi. f_equal. unfold event in *. lia.
Qed.

(** The main thread makes these steps by itself. *)
Lemma stop_step g F u e : flags g = foldl clear_effect F u -> e.2 = stop_answer F u e.1 ->
  exists g', main_effect g e = Some g' /\ flags g' = clear_effect (flags g) e /\ threads g' = threads g /\
    main_trace g' = main_trace g ++ [e].
Proof.
  intros Hf Ha. destruct e as [c a]. cbn in Ha. subst a. unfold main_effect, fd_effect, clear_effect.
  destruct c; cbn; try (by eexists). rewrite <- Hf. by destruct (flags g !! node) as [[]|]; cbn; eexists.
Qed.

Lemma stop_run u2 : forall u1 g F, flags g = foldl clear_effect F u1 -> main_runs (main_trace g ++ u2) ->
  (forall i c a, u2 !! i = Some (c, a) -> a = stop_answer F (u1 ++ take i u2) c) ->
  exists g', gsteps g (pair None <$> u2) g' /\ threads g' = threads g /\
    forall w x v, u2 = w ++ x :: v -> exists ga gb, gsteps g (pair None <$> w) ga /\ threads ga = threads g /\
      gstep ga (None, x) gb /\ gsteps gb (pair None <$> v) g'.
Proof.
  induction u2 as [|e u2 IH]; intros u1 g F Hf Hr Ha.
  { exists g. split_and!; [constructor|done|]. by intros []. }
  destruct (stop_step g F u1 e Hf) as (g1 & He & Hf1 & Ht1 & Hm1).
  { destruct e as [c a]. rewrite (Ha 0%nat c a eq_refl). cbn. by rewrite app_nil_r. }
  assert (gstep g (None, e) g1) as Hs.
  { constructor; [|done]. eapply main_runs_prefix; [|exact Hr]. apply prefix_app, prefix_cons, prefix_nil. }
  destruct (IH (u1 ++ [e]) g1 F) as (g' & Hg & Ht & Hsplit).
  - by rewrite Hf1, foldl_app, Hf.
  - by rewrite Hm1, <- app_assoc.
  - intros i c a Hi. rewrite <- app_assoc. by apply (Ha (S i)).
  - exists g'. split_and!; [by eapply gsteps_cons|congruence|]. intros [|y w] x v Hu; injection Hu as <- Hu.
    + exists g, g1. subst v. split_and!; try done. constructor.
    + destruct (Hsplit w x v Hu) as (ga & gb & Hga & Hta & Hsb & Hgb). exists ga, gb.
      split_and!; [by eapply gsteps_cons|congruence|done..].
Qed.

Lemma exec_main_runs h g : exec h g -> main_trace g = [] \/ main_runs (main_trace g).
Proof.
  assert (forall g h g', gsteps g h g' -> main_trace g = [] \/ main_runs (main_trace g) ->
    main_trace g' = [] \/ main_runs (main_trace g')) as Hgen.
  { intros g0 h0 g1 Hg. induction Hg as [|g0 l g1 h1 g2 Hl _ IH]; [done|]. intros H0. apply IH.
    pose proof (main_events_trace _ _ _ (gsteps_cons _ _ _ _ _ Hl (gsteps_nil _))) as Hm.
    destruct Hl as [e g1 Hr He|i k t e g1 Hp Hr He]; cbn in Hm; rewrite Hm; [by right|by rewrite app_nil_r]. }
  intros He. eapply Hgen; [exact He|by left].
Qed.

Lemma main_returns_runs tr r : main_returns tr r -> main_runs tr.
Proof.
  intros (E & id_of & fuel & argc & d & first & s' & HE & HA & Hr & <-). by exists E, id_of, fuel, argc, d, first, (Some r), s'.
Qed.

(** Where the flag is read as zero. *)
Lemma stop_later tr u t x v : no_stop tr -> is_stop x = true -> tr ++ u = t ++ x :: v -> exists w, u = w ++ x :: v.
Proof.
  intros Hno Hx Heq. destruct (app_eq_app _ _ _ _ Heq) as [l [[-> Hl]|[-> ->]]]; [|by exists l].
  destruct l as [|y l]; [exists []; exact (eq_sym Hl)|]. injection Hl as <- _.
  apply Forall_app in Hno as [_ [Hy _]%Forall_cons]. congruence.
Qed.

Lemma main_events_none u : main_events (pair None <$> u) = u.
Proof. unfold main_events. induction u as [|e u IH]; [done|]. cbn. f_equal. exact IH. Qed.

(** Before that no mutex is destroyed. *)
Lemma no_stop_intact tr : tr = [] \/ main_runs tr -> no_stop tr -> forall m a, (DestroyMutex m, a) ∉ tr.
Proof.
  intros [->|(E & id_of & fuel & argc & d & first & r & s' & HE & HA & Hr & [v Hv])] Hno m a; [by intros ?%elem_of_nil|].
  destruct (main_ends with_device id_of main_mutex fuel argc d first _ _ Hr) as [[Hs _]|(t & b & u & Ht & Hb & Hs & _)]; rewrite Hv in *.
  - intros Hin. apply (serving_intact _ Hs m a). apply elem_of_app. by left.
  - destruct (app_eq_app _ _ _ _ Ht) as [l [[-> Hl]|[-> _]]].
    + destruct l as [|y l]; [rewrite app_nil_r; by apply serving_intact|]. injection Hl as <- _.
      apply Forall_app in Hno as [_ [Hy _]%Forall_cons]. by rewrite (stop_zero b Hb) in Hy.
    + intros Hin. apply (serving_intact _ Hs m a). apply elem_of_app. by left.
Qed.

(** [main] goes on to its end when the other threads have come to theirs. *)
Lemma main_finishes h g st : exec h g -> ginv g st -> left_over g = 0%nat -> no_stop (main_trace g) ->
  exists u g' r, gsteps g (pair None <$> u) g' /\ main_returns (main_trace g') r /\ live (main_trace g') = ∅ /\
    threads g' = threads g.
Proof.
  intros He HI Hz Hno.
  destruct (main_completes (main_trace g) (flags g) (exec_main_runs _ _ He)) as (u & r & Hret & Ha).
  destruct (stop_run u [] g (flags g) eq_refl (main_returns_runs _ _ Hret) Ha) as (g2 & Hg2 & Ht & Hsplit).
  pose proof (main_events_trace _ _ _ Hg2) as Hm. rewrite main_events_none in Hm. rewrite <- Hm in Hret.
  exists u, g2, r. split_and!; try done.
  pose proof Hret as (E & id_of & fuel & argc & d & first & s' & HE & _ & Hrun & Htr).
  destruct (main_ends with_device id_of main_mutex fuel argc d first _ _ Hrun) as [[_ Hl]|(t & b & v & Htu & Hb & _)];
    rewrite Htr in *; [by apply Hl|].
  rewrite Hm in Htu. destruct (stop_later _ _ _ _ _ Hno (stop_zero b Hb) Htu) as [w Hw].
  destruct (Hsplit w _ v Hw) as (ga & gb & Hga & Hta & Hs & Hgb). destruct (gsteps_inv _ _ _ _ HI Hga) as [sta HIa].
  eapply (pass_frees ga); try done; [by eapply exec_accounted, gsteps_app|].
  intros i c s Hin. eapply (nothing_left _ _ HI Hz). unfold thread_in in *. by rewrite <- Hta.
Qed.

(** C16. From every state of the process that can be reached before the main
    thread has read [server_running] as zero, in whatever interleaving and
    with whatever threads interrupted by the alarm signal, the process can
    come to a clean end: it has a continuation that ends with the return of
    [main], when every node has been freed, each connection thread has ended,
    with [done] set last and no descriptor open, no handler is running and
    no mutex is held.  The handler runs on the stack of the thread it
    interrupts; the mutexes are those of the program, locks inside the C
    library are not modelled. *)
Theorem clean_shutdown p :
  reachable p -> status p = None -> no_stop (main_trace (core p)) ->
  exists p' r, rtc pstep p p' /\ status p' = Some r /\ main_returns (main_trace (core p')) r /\
    live (main_trace (core p')) = ∅ /\ interrupted p' = ∅ /\ (forall m, holders (core p') !! m = None) /\
    forall i c t, threads (core p') !! i = Some (Conn c, t) ->
      (exists a, last t = Some (StoreDone (conn_addr c), a)) /\ forall fd, table (core p') !! fd <> Some (Some i).
Proof.
  intros Hr Hst Hno. pose proof (reachable_inv _ Hr) as HP. destruct (reachable_exec _ Hr) as [h He].
  destruct (process_completes p HP Hst (no_stop_intact _ (exec_main_runs _ _ He) Hno)) as (g1 & st & Hs1 & Hm1 & HI & Hz).
  destruct (pi_exec _ (pinv_steps _ _ HP Hs1)) as [h1 He1]. rewrite <- Hm1 in Hno.
  destruct (main_finishes h1 g1 st He1 HI Hz Hno) as (u & g2 & r & Hg2 & Hret & Hlive & Ht).
  destruct (gsteps_inv _ _ _ _ HI Hg2) as [st2 HI2]. assert (left_over g2 = 0%nat) as Hz2 by (unfold left_over; by rewrite Ht).
  exists (mk_process g2 ∅ (Some r)), r. split_and!; try done; [|by eapply nothing_left|by eapply threads_ended].
  etrans; [exact Hs1|]. eapply rtc_r; [apply (lift_steps _ (pair None <$> u)); [done|by intros|]|by apply p_exit].
  intros i e (x & Hx & _)%list_elem_of_fmap. done.
Qed.
End shutdown.

Module ShutdownWitness.
Import SimEnv ServerWitness ThreadsWitness ProgressWitness.
#[local] Instance client0_ok c : EnvOk (client0 c) := sim_env_ok _ _.
#[local] Instance client0_mutex c : MutexOk (client0 c) (file_mutex c) := sim_mutex_ok _ _ _.

(** A thread that holds the mutex is interrupted. *)
Lemma clean_shutdown_witness :
  live (main_trace (core suspended)) <> ∅ /\ holders (core suspended) !! 4096 = Some 0%nat /\
  exists p' r, rtc pstep suspended p' /\ status p' = Some r /\ main_returns (main_trace (core p')) r /\
    live (main_trace (core p')) = ∅ /\ interrupted p' = ∅ /\ (forall m, holders (core p') !! m = None) /\
    forall i c t, threads (core p') !! i = Some (Conn c, t) ->
      (exists a, last t = Some (StoreDone (conn_addr c), a)) /\ forall fd, table (core p') !! fd <> Some (Some i).
Proof.
  split; [vm_compute; discriminate|]. split; [vm_compute; reflexivity|]. apply (clean_shutdown suspended).
  - exact suspended_reachable.
  - reflexivity.
  - vm_compute. repeat constructor.
Defined.

(** One client, whose thread ends after the main thread has looked for it
    and before [server_running] reads as zero. *)
Definition late_env : env := fun tr c =>
  match c with
  | LoadDone _ => mk_answer (if decide (loads tr < 2)%nat then 0 else 1) []
  | _ => server_env 1 [] tr c
  end.
#[local] Instance late_env_ok : EnvOk late_env.
Proof. destruct (server_env_ok 1 []). by constructor. Qed.
#[local] Instance late_accept_ok : AcceptOk late_env.
Proof. intros tr fd _ Hin. apply (held_fds client0) in Hin. by apply above_spec in Hin. Qed.

Definition late_end : server :=
  match main late_env with_device rv main_mutex 2 1 false (mk_server [] 0 ∅) with
  | Some (_, s) => s
  | None => mk_server [] 0 ∅
  end.
Definition before_stop : list label := by_main (take 14 (s_trace late_end)) ++ by_thread 0 (trace0 conn1).
Definition the_stop : label := (None, (LoadRunning, mk_answer 0 [])).
Definition the_rest : list label := by_main (drop 15 (s_trace late_end)).
Definition the_end : global := after (before_stop ++ [the_stop] ++ the_rest).

Lemma late_returns : main_returns (s_trace late_end) 0.
Proof.
  exists late_env, rv, 2%nat, 1, false, 0, late_end. split_and!; try apply _; [vm_compute; reflexivity|reflexivity].
Qed.

Lemma only_thread (k0 k : task) (t0 t : list event) (i : nat) : [(k0, t0)] !! i = Some (k, t) -> k = k0 /\ t = t0.
Proof. intros [_ Hi]%list_lookup_singleton_Some. by injection Hi as -> ->. Qed.

Lemma end_runs : runs the_end.
Proof.
  split.
  - replace (main_trace the_end) with (s_trace late_end) by (vm_compute; reflexivity).
    exact (main_returns_runs _ _ late_returns).
  - assert (threads the_end = [(Conn conn1, trace0 conn1)]) as Ht by (vm_compute; reflexivity).
    intros i k t. rewrite Ht. intros [-> ->]%only_thread.
    apply (task_trace_runs client0 (Conn conn1)); [reflexivity|apply Nat.ltb_lt|eexists|]; vm_compute; reflexivity.
Qed.

Ltac towards_end l :=
  eapply runs_extends; [apply (replay_extends l); vm_compute; reflexivity|exact end_runs].

Lemma shutdown_frees_nodes_witness :
  live (main_trace (after before_stop)) <> ∅ /\ live (main_trace the_end) = ∅.
Proof.
  split; [vm_compute; discriminate|].
  apply (shutdown_frees_nodes before_stop (after before_stop) (mk_answer 0 []) (after (before_stop ++ [the_stop])) the_rest the_end 0).
  - apply replay_gsteps; [vm_compute; reflexivity|]. towards_end ([the_stop] ++ the_rest).
  - apply effect_gstep; [vm_compute; reflexivity|]. towards_end the_rest.
  - reflexivity.
  - assert (threads (after before_stop) = [(Conn conn1, trace0 conn1)]) as Ht by (vm_compute; reflexivity).
    intros i c t. rewrite Ht. intros [[= ->] ->]%only_thread. eexists. vm_compute. reflexivity.
  - apply replay_gsteps; [vm_compute; reflexivity|exact end_runs].
  - replace (main_trace the_end) with (s_trace late_end) by (vm_compute; reflexivity). exact late_returns.
Defined.
End ShutdownWitness.
